(* ===== verification/_CoqProject ===== *)
-Q . S2P
Prelude.v
Core.v
Effects.v
Runs.v
Bytes.v
Format.v
Planner.v
Codecs.v
Sorting.v
Orders.v
Chunking.v
MicroFile.v
MicroPlan.v
Fingerprint.v
Rolling.v
Fingerprints.v
TaskScheduler.v
AgentApi.v
DaemonLimits.v
FairScheduler.v
Paths.v
FileTree.v
FileWalk.v
FileGrowth.v
FileMove.v
Catalog.v
Extract.v
Unpack.v
UnpackTree.v
UnpackSafety.v
ExtractSafety.v
UnpackExamples.v
Inputs.v
Memory.v
Stable.v
Pack.v
Scan.v
Encoding.v
Seal.v
RoundTrip.v
Compressed.v
Daemon.v
DaemonPaths.v
RealPaths.v
ScanSafety.v
ScanExample.v
PathSafety.v
PathExample.v
JobStore.v
JobStoreInv.v
JobStoreOps.v
Sessions.v
SessionSafety.v
JobStoreSteps.v
JobStoreOpen.v
JobExample.v
SessionExample.v
JobHistory.v
JobSafety.v
JobRefinement.v
AgentParams.v
Tasks.v
ServiceLimits.v
Service.v
Measure.v
Requests.v
PathStability.v
JobOperations.v
ServiceSafety.v
ServiceExample.v
