(* ===== verification/Prelude.v ===== *)
(** * Pithos: a verification library

    Pithos packs directory trees into archives: a container format with
    checksummed sections, a planner that groups files for solid compression,
    codecs, an engine that packs, verifies and extracts, and a daemon that
    runs such jobs for agents.  This library translates the core of the
    program (a Rust workspace, [src/crates]) into executable definitions and
    proves that they do what the program promises.

    ** Conventions

    Unsigned integers are [N], signed ones [Z]; the checked, saturating and
    wrapping operations of the code are written out with the 64-bit (or
    narrower) bound of their type.  Bytes are [Byte.byte], [Vec] and slices
    are lists, maps are [gmap].  [Result] is [result PithosError] with its
    monad; a Rust method [Type::method] is [Type_method].  An index out of
    range, which panics in Rust, is the error [panic], and a loop of the model
    that runs out of fuel is [out_of_fuel]; no routine returns either, and the
    theorems that characterise a routine's result exclude them.  Every fuel is
    the number of steps the code's own loop needs (stated where it is chosen)
    and the theorems prove it enough.

    Routines that call the caller's [checkpoint] closure or reserve memory
    with [try_reserve] run in an arbitrary environment ([Effects], class
    [Env]): both may fail at any call.  [follows m r] says that [m] returns
    [r] or stops with an error of the environment; it composes along the
    monad, and [run_calm] computes [r].

    ** The parts and the files that model them

    - [Prelude]: results, machine integers, lists and the inversion tactics.
    - [Core] (pithos-core): errors, profiles, decoding limits.
    - [Effects], [Runs]: checkpoints and allocation; calm runs as
      conjunctions of guards ([run_iff]).
    - [Bytes]: little-endian words, slices, 32-bit signed integers.
    - [Format] (pithos-format): header, section directory, codec registry,
      group records, footer.  Decoding accepts exactly the encodings of
      well-formed records, and the checks of section ranges mean that the
      ranges are disjoint and within the body.
    - [Paths] (pithos-format, pithos-io): archive paths and link targets on
      Unix.  Accepted paths have no unsafe component; a link target is
      accepted only if it stays within the tree.
    - [Planner] (pithos-planner): solid groups; the groups tile the input.
    - [Codecs] (pithos-codecs): STORE in full, the bounded copies of the
      other codecs; decoding yields exactly the declared length or an error.
    - [Sorting], [Chunking] (pithos-analysis/chunking.rs): the checkpointed
      merge sort equals the stable reference sort; the chunkers cover their
      input; chunk numbers do not depend on the order of the drafts.
    - [Orders], [MicroFile], [MicroPlan] (pithos-analysis/micro_file.rs): the
      micro-file packs.  Metadata is accepted exactly when well formed; the
      planner partitions the eligible files greedily in canonical order, and
      a pack's metadata gives every file's path, time, mode and hash back.
    - [Fingerprint], [Rolling], [Fingerprints]
      (pithos-analysis/fingerprint.rs): the superfeatures are the maxima of
      polynomial hashes over the windows of the chunk's regions; the
      streaming and the parallel fingerprinter compute the same fingerprints,
      and full hashes are kept exactly for colliding compact identities.
    - [TaskScheduler] (pithos-engine/scheduler.rs): task graphs are accepted
      exactly when acyclic; the dispatch loop, a step relation over all
      interleavings of workers, keeps its budgets, ends and returns the tasks'
      results in task order.
    - [AgentApi] (pithos-agent-api): errors, methods, limits, identifiers and
      requests.  A request is accepted exactly when it is a JSON-RPC 2.0
      request of a known method within the protocol's limits.
    - [FairScheduler] (pithos-daemon/scheduler.rs): the weighted round-robin
      queue is fair, FIFO within a session, and drains completely.
    - [Catalog], [Extract] (pithos-engine/lib.rs, reading): what an accepted
      archive satisfies; verification means that every entry restores to
      bytes with the recorded hash; extraction and range reads return exactly
      those bytes, and succeed on verified archives.
    - [FileTree] is a model of a Unix file system: nodes by their physical
      path, inodes, symlinks and the resolution of paths, and the functions of
      [std::fs] and [tempfile] the engine calls; every call may fail.
      [FileWalk], [FileGrowth] and [FileMove] hold its lemmas and a Hoare
      logic ([triple]) for computations on it.
    - [Unpack] (pithos-engine/lib.rs, pithos-io): unpacking through a staging
      directory and extracting one entry.  [UnpackTree] and [UnpackSafety]:
      unpacking is all or nothing; [ExtractSafety]: extracting stays in the
      output directory and replaces nothing; [UnpackExamples]: concrete runs,
      among them an archive whose links leave the output directory.
    - [Inputs], [Memory], [Stable], [Pack], [Encoding], [Seal], [RoundTrip],
      [Compressed] (pithos-engine/lib.rs, writing): reading inputs that may
      change under the reader, the RAW and the compressed packer.  On a file
      system that does not change, packing produces an archive that verifies
      and from which every file is extracted unchanged.
    - [Scan] (pithos-engine/lib.rs, [scan_inputs]): the walk over the inputs
      of a pack and its memory budget.  [ScanSafety]: a scan that returns has
      one entry for every node at or below its inputs, in strict order, with
      links that stay inside; it keeps its budget, and the limit on the
      components of a path bounds its depth.  [ScanExample] runs it.
    - [Daemon], [JobStore] (pithos-daemon/store.rs): the registry of jobs and
      its file, on a disk that may fail or crash at every call.
      [JobStoreInv], [JobStoreOps], [JobStoreSteps], [JobStoreOpen]: its
      invariant and what each operation does to the memory and the file.
      [JobSafety]: the operations keep the invariant, and closing is final;
      [JobHistory]: what is acknowledged is durable, jobs never regress,
      submissions are idempotent and a restart recovers; [JobRefinement]: the
      registry refines an abstract machine of jobs; [JobExample] runs it.
    - [DaemonLimits] (pithos-daemon/limits.rs): job quotas and the token
      bucket, which bounds the requests of a connection and starves nobody.
    - [Sessions], [SessionSafety] (pithos-daemon/session_store.rs): the
      registry of resumable sessions.  Its file and its memory agree, a
      restart finds every session, and a token works until it is used;
      [SessionExample] runs it.

    - [DaemonPaths] (pithos-daemon/paths.rs): the roots of a session, the
      authorization of reads and writes, grants and revalidation.  [RealPaths]
      relates canonical paths to places of the tree; [PathSafety]: what is
      authorized lies below a root, through no link, and a grant never widens
      its scope; [PathExample] runs it.
    - [AgentParams], [ServiceLimits], [Service], [Measure], [Requests]
      (pithos-daemon/service.rs): the state that connections share and the
      handler of every method, as sequences of atomic sections ([Tasks]) that
      interleave with those of every other handler.  [PathStability],
      [JobOperations], [ServiceSafety]: whatever the interleaving, every job
      that is stored stays inside the daemon's roots, as long as no links
      appear below them; [ServiceExample]: runs, among them one in which a
      link that appears between two checks leads outside.

    ** Interfaces

    Code outside the repository is a parameter with the laws its documentation
    states: [Crc32c] and [Blake3] (32 bytes of hash; no injectivity is
    assumed), [Backends] (the compression libraries: a decoder inverts its
    encoder), [SerdeJson] (the parser inverts the printer of a record),
    [FastCdc] (cuts cover the data within the maximum), [FileSystem] (what
    reading a path yields at each time), [CatalogJson] (the parser of the
    reading side).  [WorkerPool] is what the packer uses of the scheduler, whose
    runs [TaskScheduler] models.  [Xxh3] is the hash of fingerprints,
    [FingerprintSizes] the sizes the compiler gives to their types, and
    [Rayon] a pool that leaves in every slot what its task returned.
    [Disturb] are the failures of the target file system and the temporary
    names.  The job store uses [Disk] (the calls on its file), [JobWorld] (the
    clock and the verification of archives), [StoreJson] and [RequestJson]
    (serde_json); the sessions use [Disk], [SessionJson] (serde_json) and
    [Rng] (random bytes); the service uses [ParamsJson] (serde_json) and
    [SemaphoreLimit] (a constant of tokio), the input scan [Attributes] (sizes,
    times and modes of nodes).  Each is a [Class]; the theorems are proved against the
    class, and each witness instantiates it with a concrete function.

    ** Not modelled

    Command line, sockets and process start-up (I/O and argument parsing), the
    execution of jobs by the daemon, its transfer files, its shutdown and the
    streaming chunkers.  Cancellation during an operation of the engine is an
    arbitrary error of its checkpoint.  The Windows branches of the path types
    are not modelled either, nor are the modes of directories, nor the stub
    crates (mount, viewer, recompress, transforms), which have no behaviour. *)

From stdpp Require Export prelude gmap sorting strings.
From Stdlib Require Export NArith ZArith Lia.

#[global] Open Scope N_scope.

(** ** Results

    [std::result::Result<T, E>]: the error type comes first so that
    [result E] is a monad, and [?] is the monadic bind. *)

Inductive result (E A : Type) : Type :=
  | Ok (v : A)
  | Err (e : E).
Arguments Ok {E A} v.
Arguments Err {E A} e.

#[export] Instance result_eq_dec `{EqDecision E} `{EqDecision A} :
  EqDecision (result E A).
Proof. solve_decision. Defined.

#[export] Instance result_ret {E} : MRet (result E) := λ A, @Ok E A.
#[export] Instance result_bind {E} : MBind (result E) := λ A B f m,
  match m with Ok v => f v | Err e => Err e end.
#[export] Instance result_fmap {E} : FMap (result E) := λ A B f m,
  match m with Ok v => Ok (f v) | Err e => Err e end.

(** [Option::ok_or]. *)
Definition ok_or {E A} (e : E) (o : option A) : result E A :=
  match o with Some v => Ok v | None => Err e end.

Definition is_ok {E A} (r : result E A) : bool :=
  match r with Ok _ => true | Err _ => false end.

(** [Iterator::try_fold] and [collect::<Result<Vec<_>>>]. *)
Fixpoint try_fold {E A B} (f : B → A → result E B) (acc : B) (l : list A) : result E B :=
  match l with
  | [] => Ok acc
  | a :: l => b ← f acc a; try_fold f b l
  end.

Fixpoint try_map {E A B} (f : A → result E B) (l : list A) : result E (list B) :=
  match l with
  | [] => Ok []
  | a :: l => b ← f a; bs ← try_map f l; Ok (b :: bs)
  end.

Lemma bind_Ok {E A B} (m : result E A) (f : A → result E B) v :
  m ≫= f = Ok v ↔ ∃ a, m = Ok a ∧ f a = Ok v.
Proof. destruct m; simpl; naive_solver. Qed.

Lemma ok_or_Ok {E A} (e : E) (o : option A) v : ok_or e o = Ok v ↔ o = Some v.
Proof. destruct o; simpl; naive_solver. Qed.

Lemma if_Err_Ok {E A} (b : bool) (e : E) (k : result E A) v :
  (if b then Err e else k) = Ok v ↔ b = false ∧ k = Ok v.
Proof. destruct b; naive_solver. Qed.

Lemma try_fold_app {E A B} (f : B → A → result E B) acc l1 l2 :
  try_fold f acc (l1 ++ l2) = b ← try_fold f acc l1; try_fold f b l2.
Proof.
  revert acc; induction l1 as [|a l1 IH]; intros acc; simpl; [done|].
  destruct (f acc a); simpl; auto.
Qed.

Lemma try_map_Ok {E A B} (f : A → result E B) l bs :
  try_map f l = Ok bs ↔ Forall2 (λ a b, f a = Ok b) l bs.
Proof.
  revert bs; induction l as [|a l IH]; intros bs; simpl.
  - split; [intros [= <-]; constructor | inversion 1; done].
  - rewrite bind_Ok. setoid_rewrite bind_Ok. setoid_rewrite IH. split.
    + intros (b & Hb & bs' & Hbs & [= <-]). by constructor.
    + inversion 1; subst; eauto 8.
Qed.

(** Inversion of a chain of binds and guards that ended in [Ok]. *)
Ltac res_inv :=
  repeat match goal with
  | H : Ok _ = Ok _ |- _ => injection H as H; try subst
  | H : Err _ = Ok _ |- _ => discriminate H
  | H : Ok _ = Err _ |- _ => discriminate H
  | H : (_ ≫= _) = Ok _ |- _ =>
      let a := fresh "a" in let Ha := fresh "Ha" in
      apply bind_Ok in H as (a & Ha & H); try (destruct a; [])
  | H : (if _ then Err _ else _) = Ok _ |- _ =>
      let Hb := fresh "Hb" in apply if_Err_Ok in H as [Hb H]
  | H : ok_or _ _ = Ok _ |- _ => apply ok_or_Ok in H
  end.

(** ** Machine integers

    Unsigned integers are [N] and signed integers are [Z], with the bound
    of their Rust type; [usize] is the 64-bit [usize] of the targets the
    program is built for. *)

Abbreviation u8_MAX := 255%N.
Abbreviation u16_MAX := 65535%N.
Abbreviation u32_MAX := 4294967295%N.
Abbreviation u64_MAX := 18446744073709551615%N.
Abbreviation usize_MAX := 18446744073709551615%N.
Abbreviation i64_MIN := (-9223372036854775808)%Z.
Abbreviation i64_MAX := 9223372036854775807%Z.
Abbreviation i32_MIN := (-2147483648)%Z.
Abbreviation i32_MAX := 2147483647%Z.

(** [u64] and [usize] arithmetic. *)
Definition checked_add (a b : N) : option N :=
  if a + b <=? u64_MAX then Some (a + b) else None.
Definition checked_sub (a b : N) : option N :=
  if b <=? a then Some (a - b) else None.
Definition checked_mul (a b : N) : option N :=
  if a * b <=? u64_MAX then Some (a * b) else None.
Definition checked_div (a b : N) : option N :=
  if b =? 0 then None else Some (a / b).
Definition saturating_add (a b : N) : N := N.min (a + b) u64_MAX.
Definition saturating_sub (a b : N) : N := a - b.
Definition saturating_mul (a b : N) : N := N.min (a * b) u64_MAX.
Definition wrapping_add (a b : N) : N := (a + b) mod 2 ^ 64.
Definition wrapping_mul (a b : N) : N := (a * b) mod 2 ^ 64.
Definition wrapping_sub (a b : N) : N := (a + (2 ^ 64 - b mod 2 ^ 64)) mod 2 ^ 64.

(** [u32::try_from] on a wider unsigned integer, [usize::try_from(u64)] and
    [u64::try_from(usize)] (which cannot fail when [usize] has 64 bits). *)
Definition u32_try_from (n : N) : option N := if n <=? u32_MAX then Some n else None.
Definition u64_try_from (n : N) : option N := if n <=? u64_MAX then Some n else None.
Definition usize_try_from (n : N) : option N := if n <=? usize_MAX then Some n else None.

(** The length of a [Vec] or slice, a [usize]. *)
Definition len {A} (l : list A) : N := N.of_nat (length l).

(** [items.iter().enumerate()], from index [i]. *)
Fixpoint enumerate_from {A} (i : N) (l : list A) : list (N * A) :=
  match l with
  | [] => []
  | a :: l => (i, a) :: enumerate_from (i + 1) l
  end.
Definition enumerate {A} (l : list A) : list (N * A) := enumerate_from 0 l.

Lemma elem_of_enumerate_from {A} k (l : list A) i x :
  (i, x) ∈ enumerate_from k l ↔ k <= i ∧ l !! N.to_nat (i - k) = Some x.
Proof.
  revert k; induction l as [|y l IH]; intros k; cbn [enumerate_from].
  - rewrite elem_of_nil. split; [done|]. by intros [_ ?].
  - rewrite elem_of_cons, IH. split.
    + intros [[= -> ->]|[? Hl]]; [split; [lia|]; by rewrite N.sub_diag|]. split; [lia|].
      by replace (N.to_nat (i - k)) with (S (N.to_nat (i - (k + 1)))) by lia.
    + intros [Hk Hl]. destruct (N.eq_dec i k) as [->|].
      * left. rewrite N.sub_diag in Hl. by injection Hl as ->.
      * right. split; [lia|].
        by replace (N.to_nat (i - k)) with (S (N.to_nat (i - (k + 1)))) in Hl by lia.
Qed.

Lemma elem_of_enumerate {A} (l : list A) i x :
  (i, x) ∈ enumerate l ↔ l !! N.to_nat i = Some x.
Proof.
  unfold enumerate. rewrite elem_of_enumerate_from, N.sub_0_r. split; [by intros []|].
  split; [lia|done].
Qed.

(** The iteration order of a [BTreeSet]. *)
Definition ascending (X : gset N) : list N := merge_sort N.le (elements X).

Lemma ascending_perm X : ascending X ≡ₚ elements X.
Proof. apply merge_sort_Permutation. Qed.
Lemma elem_of_ascending x X : x ∈ ascending X ↔ x ∈ X.
Proof. by rewrite ascending_perm, elem_of_elements. Qed.
Lemma NoDup_ascending X : NoDup (ascending X).
Proof. rewrite ascending_perm. apply NoDup_elements. Qed.

Definition sum (l : list N) : N := foldr N.add 0 l.

Lemma checked_add_Some a b c : checked_add a b = Some c ↔ c = a + b ∧ a + b <= u64_MAX.
Proof. unfold checked_add. destruct (N.leb_spec (a + b) u64_MAX); naive_solver lia. Qed.
Lemma checked_add_None a b : checked_add a b = None ↔ u64_MAX < a + b.
Proof. unfold checked_add. destruct (N.leb_spec (a + b) u64_MAX); naive_solver lia. Qed.
Lemma checked_sub_Some a b c : checked_sub a b = Some c ↔ c = a - b ∧ b <= a.
Proof. unfold checked_sub. destruct (N.leb_spec b a); naive_solver lia. Qed.
Lemma checked_mul_Some a b c : checked_mul a b = Some c ↔ c = a * b ∧ a * b <= u64_MAX.
Proof. unfold checked_mul. destruct (N.leb_spec (a * b) u64_MAX); naive_solver lia. Qed.
Lemma u32_try_from_Some a b : u32_try_from a = Some b ↔ b = a ∧ a <= u32_MAX.
Proof. unfold u32_try_from. destruct (N.leb_spec a u32_MAX); naive_solver lia. Qed.
Lemma u64_try_from_Some a b : u64_try_from a = Some b ↔ b = a ∧ a <= u64_MAX.
Proof. unfold u64_try_from. destruct (N.leb_spec a u64_MAX); naive_solver lia. Qed.
Lemma usize_try_from_Some a b : usize_try_from a = Some b ↔ b = a ∧ a <= usize_MAX.
Proof. unfold usize_try_from. destruct (N.leb_spec a usize_MAX); naive_solver lia. Qed.

Lemma checked_add_ok a b : a + b <= u64_MAX → checked_add a b = Some (a + b).
Proof. intros. by apply checked_add_Some. Qed.
Lemma checked_sub_ok a b : b <= a → checked_sub a b = Some (a - b).
Proof. intros. by apply checked_sub_Some. Qed.
Lemma checked_mul_ok a b : a * b <= u64_MAX → checked_mul a b = Some (a * b).
Proof. intros. by apply checked_mul_Some. Qed.
Lemma u32_try_from_ok a : a <= u32_MAX → u32_try_from a = Some a.
Proof. intros. by apply u32_try_from_Some. Qed.
Lemma u64_try_from_ok a : a <= u64_MAX → u64_try_from a = Some a.
Proof. intros. by apply u64_try_from_Some. Qed.
Lemma usize_try_from_ok a : a <= usize_MAX → usize_try_from a = Some a.
Proof. intros. by apply usize_try_from_Some. Qed.

Lemma len_app {A} (l k : list A) : len (l ++ k) = len l + len k.
Proof. unfold len. rewrite length_app. lia. Qed.
Lemma len_cons {A} (x : A) l : len (x :: l) = 1 + len l.
Proof. unfold len. simpl. lia. Qed.
Lemma len_map {A B} (f : A → B) l : len (map f l) = len l.
Proof. unfold len. by rewrite length_map. Qed.
Lemma len_nil {A} : len (@nil A) = 0.
Proof. done. Qed.

Lemma sum_app l k : sum (l ++ k) = sum l + sum k.
Proof. unfold sum. induction l as [|x l IH]; simpl; lia. Qed.
Lemma sum_perm l k : l ≡ₚ k → sum l = sum k.
Proof. unfold sum. induction 1; cbn in *; lia. Qed.

(** Turn boolean comparisons, and the checked operations that succeeded,
    into arithmetic facts. *)
Ltac arith_inv :=
  repeat match goal with
  | H : checked_add _ _ = Some _ |- _ => apply checked_add_Some in H as [? ?]; try subst
  | H : checked_add _ _ = None |- _ => apply checked_add_None in H
  | H : checked_sub _ _ = Some _ |- _ => apply checked_sub_Some in H as [? ?]; try subst
  | H : checked_mul _ _ = Some _ |- _ => apply checked_mul_Some in H as [? ?]; try subst
  | H : u32_try_from _ = Some _ |- _ => apply u32_try_from_Some in H as [? ?]; try subst
  | H : u64_try_from _ = Some _ |- _ => apply u64_try_from_Some in H as [? ?]; try subst
  | H : usize_try_from _ = Some _ |- _ => apply usize_try_from_Some in H as [? ?]; try subst
  | H : (_ || _)%bool = false |- _ => apply orb_false_iff in H as [? ?]
  | H : (_ && _)%bool = true |- _ => apply andb_true_iff in H as [? ?]
  | H : negb _ = false |- _ => apply negb_false_iff in H
  | H : negb _ = true |- _ => apply negb_true_iff in H
  | H : (_ <=? _) = true |- _ => apply N.leb_le in H
  | H : (_ <=? _) = false |- _ => apply N.leb_gt in H
  | H : (_ <? _) = true |- _ => apply N.ltb_lt in H
  | H : (_ <? _) = false |- _ => apply N.ltb_ge in H
  | H : (_ =? _) = true |- _ => apply N.eqb_eq in H
  | H : (_ =? _) = false |- _ => apply N.eqb_neq in H
  | H : bool_decide _ = true |- _ => apply bool_decide_eq_true in H
  | H : bool_decide _ = false |- _ => apply bool_decide_eq_false in H
  end.

Ltac invres := repeat (res_inv; arith_inv).

Create HintDb pithos.
#[export] Hint Rewrite @len_app @len_cons @len_nil @len_map : pithos.
#[export] Hint Resolve checked_add_ok checked_sub_ok checked_mul_ok
  u32_try_from_ok u64_try_from_ok usize_try_from_ok : pithos.
