(* ===== verification/Core.v ===== *)
(** * Core types ([crates/pithos-core/src/lib.rs])

    The error type shared by every crate, the compression profiles, the
    states of packing and of daemon jobs, and the decoding limits. *)

From S2P Require Import Prelude.

(** [std::io::ErrorKind], as far as the program tells the kinds apart. *)
Inductive ErrorKind :=
  | NotFound | AlreadyExists | Interrupted | UnexpectedEof | OtherKind.

#[export] Instance ErrorKind_eq_dec : EqDecision ErrorKind.
Proof. solve_decision. Defined.

Inductive PithosError :=
  | InvalidMagic
  | UnsupportedContainerVersion
  | UnsupportedCodec
  | InvalidRange
  | IntegerOverflow
  | OverlappingSections
  | ChecksumMismatch
  | HashMismatch
  | DependencyCycle
  | DependencyDepthExceeded
  | UnsafePath
  | InvalidPathEncoding
  | InvalidMetadata (what : string)
  | MissingSection (what : string)
  | DuplicateSection
  | UnsupportedFileType
  | UnsafeSymlink
  | OutputExists
  | ResourceLimit (what : string)
  | MemoryLimit
  | TemporarySpaceLimit
  | InputChanged
  | Cancelled
  | CandidateExceededIncumbent
  | Io (kind : ErrorKind).

#[export] Instance PithosError_eq_dec : EqDecision PithosError.
Proof. solve_decision. Defined.

(** [pithos_core::Result]. *)
Abbreviation Result := (result PithosError).

Inductive CompressionProfile := Raw | Stream | Random | Balanced | ArchiveMax.

#[export] Instance CompressionProfile_eq_dec : EqDecision CompressionProfile.
Proof. solve_decision. Defined.

Definition CompressionProfile_default : CompressionProfile := Balanced.

Record DecodeLimits := {
  max_entries : N;
  max_groups : N;
  max_chunks : N;
  max_original_bytes : N;
  max_group_output : N;
  max_dependency_depth : N;
  max_rule_depth : N;
  max_rules : N;
  max_expansion_ratio : N;
  max_metadata_bytes : N;
  max_path_bytes : N;
  max_path_components : N;
  max_sections : N;
}.

Definition DecodeLimits_default : DecodeLimits := {|
  max_entries := 10000000;
  max_groups := 1000000;
  max_chunks := 50000000;
  max_original_bytes := 1000000000000;
  max_group_output := 1073741824;
  max_dependency_depth := 32;
  max_rule_depth := 64;
  max_rules := 1000000;
  max_expansion_ratio := 1000;
  max_metadata_bytes := 256 * 1024 * 1024;
  max_path_bytes := 32 * 1024;
  max_path_components := 1024;
  max_sections := 64;
|}.
