(* ===== verification/Effects.v ===== *)
(** * Cooperative checkpoints and fallible allocation

    Most routines of [pithos-analysis] take a caller's closure
    [checkpoint : FnMut() -> Result<()>] and call it between bounded steps
    of work, and reserve memory with [Vec::try_reserve].  Both are effects
    of the environment: they may fail at any call and depend on a state the
    routine does not see.  [Env S] is such an environment over the state
    [S], and [M S A] is a computation that runs in it. *)

From S2P Require Import Prelude Core.

Class Env (S : Type) := {
  env_checkpoint : S → Result unit * S;
  env_reserve : N → S → bool * S;
}.

Definition M (S A : Type) : Type := S → Result A * S.

#[export] Instance M_ret {S} : MRet (M S) := λ A v s, (Ok v, s).
#[export] Instance M_bind {S} : MBind (M S) := λ A B f m s,
  match m s with
  | (Ok v, s) => f v s
  | (Err e, s) => (Err e, s)
  end.

Definition fail {S A} (e : PithosError) : M S A := λ s, (Err e, s).
(** A pure fallible step. *)
Definition lift {S A} (r : Result A) : M S A := λ s, (r, s).
Definition checkpoint {S} `{Env S} : M S unit := env_checkpoint.
(** [try_reserve(n).map_err(|_| PithosError::MemoryLimit)]. *)
Definition try_reserve {S} `{Env S} (n : N) : M S unit := λ s,
  match env_reserve n s with
  | (true, s) => (Ok tt, s)
  | (false, s) => (Err MemoryLimit, s)
  end.

(** [for] loops with early return. *)
Fixpoint fold_m {S A B} (f : B → A → M S B) (acc : B) (l : list A) : M S B :=
  match l with
  | [] => mret acc
  | a :: l => b ← f acc a; fold_m f b l
  end.

Definition for_each {S A} (f : A → M S unit) (l : list A) : M S unit :=
  fold_m (λ _ a, f a) tt l.

(** [for pair in l.windows(2)]. *)
Fixpoint windows2 {A} (l : list A) : list (A * A) :=
  match l with
  | a :: (b :: _) as t => (a, b) :: windows2 t
  | _ => []
  end.

(** An index out of range panics in Rust, and a loop of the model may run
    out of fuel.  Both are errors no routine returns; the theorems below show
    that neither occurs. *)
Definition panic : PithosError := InvalidMetadata "panic: index out of bounds".
Definition out_of_fuel : PithosError := InvalidMetadata "model: out of fuel".

(** [v[i]]. *)
Definition index {S A} (l : list A) (i : nat) : M S A :=
  match l !! i with Some a => mret a | None => fail panic end.

(** [v[i] = a]. *)
Definition assign {S A} (l : list A) (i : nat) (a : A) : M S (list A) :=
  if (i <? length l)%nat then mret (<[i := a]> l) else fail panic.

(** [while cond { body }] over the loop's variables. *)
Fixpoint while_m {S St} (fuel : nat) (cond : St → bool) (body : St → M S St) (st : St) : M S St :=
  if cond st then
    match fuel with
    | O => fail out_of_fuel
    | S fuel => st ← body st; while_m fuel cond body st
    end
  else mret st.

(** A run that returned, step by step. *)
Lemma M_bind_Ok {S A B} (m : M S A) (f : A → M S B) s v s' :
  (m ≫= f) s = (Ok v, s') ↔ ∃ a s1, m s = (Ok a, s1) ∧ f a s1 = (Ok v, s').
Proof.
  unfold mbind, M_bind. destruct (m s) as [[a|e] s1]; naive_solver.
Qed.

(** Inversion of a run that returned: lifted results, guards and binds. *)
Ltac m_inv :=
  repeat match goal with
  | H : (_ ≫= _) ?s = (Ok _, _) |- _ =>
      let a := fresh "v" in let s1 := fresh "s" in let Ha := fresh "Hm" in
      apply M_bind_Ok in H as (a & s1 & Ha & H)
  | H : match ?p with _ => _ end ?s = (Ok _, _) |- _ =>
      is_var p; let T := type of p in
      match eval hnf in T with prod _ _ => destruct p end
  | H : lift _ _ = (Ok _, _) |- _ => injection H as H ?; try subst
  | H : mret _ _ = (Ok _, _) |- _ => injection H as ? ?; try subst
  | H : fail _ _ = (Ok _, _) |- _ => discriminate H
  | H : (if ?b then fail _ else _) _ = (Ok _, _) |- _ => destruct b eqn:?; [discriminate H|]
  end.

(** Invariants of loops, along a run that returned. *)
Lemma while_m_inv {S St} (I : St → S → Prop) fuel cond (body : St → M S St) st s st' s' :
  (∀ st s st' s', I st s → cond st = true → body st s = (Ok st', s') → I st' s') →
  while_m fuel cond body st s = (Ok st', s') → I st s → I st' s' ∧ cond st' = false.
Proof.
  intros Hb. revert st s; induction fuel as [|fuel IH]; intros st s; simpl; destruct (cond st) eqn:Hc;
    try done; try (intros [= <- <-]; done).
  intros (st1 & s1 & H1 & H2)%M_bind_Ok HI. by eapply IH; [|eapply Hb].
Qed.

Lemma fold_m_inv {S A B} (I : list A → B → S → Prop) (f : B → A → M S B) done_ l b s b' s' :
  (∀ done_ a b s b' s', a ∈ l → I done_ b s → f b a s = (Ok b', s') → I (done_ ++ [a]) b' s') →
  fold_m f b l s = (Ok b', s') → I done_ b s → I (done_ ++ l) b' s'.
Proof.
  revert done_ b s; induction l as [|a l IH]; intros done_ b s Hf; simpl.
  { intros [= <- <-]. by rewrite app_nil_r. }
  intros (b1 & s1 & H1 & H2)%M_bind_Ok HI. rewrite (app_assoc done_ [a] l : done_ ++ a :: l = _).
  eapply IH; [|exact H2|]; [|eapply Hf; [left| |]; done].
  intros d x b2 s2 b3 s3 Hx. eapply Hf. by right.
Qed.

(** The environment of the plain entry points, which pass [|| Ok(())] as
    the checkpoint, and one in which allocation succeeds as well. *)
Definition without_checkpoint {S} (e : Env S) : Env S :=
  {| env_checkpoint := λ s, (Ok tt, s); env_reserve := env_reserve |}.

#[export] Instance calm : Env unit :=
  {| env_checkpoint := λ s, (Ok tt, s); env_reserve := λ _ s, (true, s) |}.

Definition run_calm {A} (m : M unit A) : Result A := (m tt).1.

(** ** Refinement up to aborts

    [follows m r]: whatever the environment does, [m] either returns [r] or
    stops with an error the environment raised.  It is the sense in which a
    routine with checkpoints implements a pure function, and it composes
    along the monadic structure. *)

Section follows.
Context {S : Type} `{Env S}.

Definition aborts (e : PithosError) : Prop :=
  (∃ s s', env_checkpoint s = (Err e, s')) ∨
  (e = MemoryLimit ∧ ∃ n s s', env_reserve n s = (false, s')).

Definition follows {A} (m : M S A) (r : Result A) : Prop :=
  ∀ s, (m s).1 = r ∨ (∃ e, (m s).1 = Err e ∧ aborts e).

Lemma follows_ret {A} (v : A) : follows (mret v) (Ok v).
Proof. intros s. by left. Qed.
Lemma follows_fail {A} e : follows (@fail S A e) (Err e).
Proof. intros s. by left. Qed.
Lemma follows_lift {A} (r : Result A) : follows (lift r) r.
Proof. intros s. by left. Qed.

Lemma follows_checkpoint : follows checkpoint (Ok tt).
Proof.
  intros s. unfold checkpoint. destruct (env_checkpoint s) as [[[]|e] s'] eqn:E.
  - by left.
  - right. exists e. split; [done|]. left; eauto.
Qed.

Lemma follows_reserve n : follows (try_reserve n) (Ok tt).
Proof.
  intros s. unfold try_reserve. destruct (env_reserve n s) as [[] s'] eqn:E.
  - by left.
  - right. exists MemoryLimit. split; [done|]. right; eauto.
Qed.

Lemma follows_bind {A B} (m : M S A) r (f : A → M S B) g :
  follows m r → (∀ v, r = Ok v → follows (f v) (g v)) → follows (m ≫= f) (r ≫= g).
Proof.
  intros Hm Hf s. specialize (Hm s).
  unfold mbind at 1 3. unfold M_bind. destruct (m s) as [[v|e] s'] eqn:E; simpl in Hm.
  - destruct Hm as [<-|(e & ? & _)]; [|done]. simpl. by apply Hf.
  - destruct Hm as [<-|(e' & [= ->] & ?)]; simpl; [by left | eauto].
Qed.

(** A step that yields nothing and can only be aborted. *)
Lemma follows_seq {A B} (m : M S A) v (k : A → M S B) r :
  follows m (Ok v) → follows (k v) r → follows (m ≫= k) r.
Proof.
  intros Hm Hk. apply (follows_bind m (Ok v) k (λ _, r)); [done|].
  by intros ? [= <-].
Qed.

Lemma follows_if {A} (b : bool) (m1 m2 : M S A) r1 r2 :
  (b = true → follows m1 r1) → (b = false → follows m2 r2) →
  follows (if b then m1 else m2) (if b then r1 else r2).
Proof. destruct b; auto. Qed.

Lemma follows_fold {A B} (f : B → A → M S B) g acc l :
  (∀ b a, a ∈ l → follows (f b a) (g b a)) →
  follows (fold_m f acc l) (try_fold g acc l).
Proof.
  revert acc; induction l as [|a l IH]; intros acc Hf; simpl.
  - apply follows_ret.
  - apply follows_bind; [apply Hf; left|]. intros v _. apply IH.
    intros b a' ?. apply Hf. by right.
Qed.

(** [ensures m P]: [m] is aborted or returns a value that satisfies [P]. *)
Definition ensures {A} (m : M S A) (P : A → Prop) : Prop :=
  ∀ s, match (m s).1 with Ok v => P v | Err e => aborts e end.

Lemma ensures_follows {A} (m : M S A) v : ensures m (λ w, w = v) ↔ follows m (Ok v).
Proof.
  split; intros Hm s; specialize (Hm s); destruct (m s) as [[w|e] s']; simpl in *; subst; auto.
  - right; eauto.
  - destruct Hm as [[= ->]|(? & ? & ?)]; done.
  - destruct Hm as [?|(? & [= ->] & ?)]; done.
Qed.

Lemma ensures_ret {A} (v : A) (P : A → Prop) : P v → ensures (mret v) P.
Proof. by intros ? s. Qed.

Lemma ensures_bind {A B} (m : M S A) P (f : A → M S B) Q :
  ensures m P → (∀ v, P v → ensures (f v) Q) → ensures (m ≫= f) Q.
Proof.
  intros Hm Hf s. specialize (Hm s). unfold mbind, M_bind.
  destruct (m s) as [[v|e] s']; simpl in *; [by apply Hf|done].
Qed.

Lemma ensures_weaken {A} (m : M S A) (P Q : A → Prop) :
  ensures m P → (∀ v, P v → Q v) → ensures m Q.
Proof. intros Hm HPQ s. specialize (Hm s). destruct ((m s).1); auto. Qed.

Lemma ensures_checkpoint {A} (k : unit → M S A) P : ensures (k tt) P → ensures (checkpoint ≫= k) P.
Proof.
  intros Hk. apply (ensures_bind _ (λ w, w = tt)); [|by intros _ ->].
  apply ensures_follows, follows_checkpoint.
Qed.

Lemma ensures_reserve {A} n (k : unit → M S A) P : ensures (k tt) P → ensures (try_reserve n ≫= k) P.
Proof.
  intros Hk. apply (ensures_bind _ (λ w, w = tt)); [|by intros _ ->].
  apply ensures_follows, follows_reserve.
Qed.

Lemma ensures_index {A B} (l : list A) i a (k : A → M S B) P :
  l !! i = Some a → ensures (k a) P → ensures (index l i ≫= k) P.
Proof.
  intros Hi Hk. apply (ensures_bind _ (λ w, w = a)); [|by intros _ ->].
  unfold index. rewrite Hi. by apply ensures_ret.
Qed.

Lemma ensures_assign {A B} (l : list A) i a (k : list A → M S B) P :
  (i < length l)%nat → ensures (k (<[i := a]> l)) P → ensures (assign l i a ≫= k) P.
Proof.
  intros Hi Hk. apply (ensures_bind _ (λ w, w = <[i := a]> l)); [|by intros _ ->].
  unfold assign. apply Nat.ltb_lt in Hi. rewrite Hi. by apply ensures_ret.
Qed.

(** The rule for [while] loops: an invariant and a decreasing measure. *)
Lemma ensures_while {St} (I : St → Prop) (μ : St → nat) fuel cond body st :
  (∀ st, I st → cond st = true →
    (0 < μ st)%nat ∧ ensures (body st) (λ st', I st' ∧ (μ st' < μ st)%nat)) →
  I st → (μ st <= fuel)%nat →
  ensures (while_m fuel cond body st) (λ st', I st' ∧ cond st' = false).
Proof.
  intros Hb. revert st; induction fuel as [|fuel IH]; intros st Hi Hf; simpl;
    destruct (cond st) eqn:Hc.
  - destruct (Hb st Hi Hc) as [? _]. lia.
  - by apply ensures_ret.
  - eapply ensures_bind; [by apply Hb|]. intros st' [Hi' Hm]. apply IH; [done|lia].
  - by apply ensures_ret.
Qed.

Lemma follows_Ok_inv {A} (m : M S A) r s v s' :
  follows m r → m s = (Ok v, s') → r = Ok v.
Proof.
  intros Hm E. specialize (Hm s). rewrite E in Hm. simpl in Hm.
  by destruct Hm as [<-|(? & ? & _)].
Qed.
End follows.

(** Without an abort the computation is the function. *)
Lemma follows_calm {A} (m : M unit A) r : follows m r → run_calm m = r.
Proof.
  intros Hm. destruct (Hm tt) as [?|(e & _ & Ha)]; [done|]. exfalso.
  destruct Ha as [(? & ? & ?)|(_ & ? & ? & ? & ?)]; done.
Qed.

(** ** The calm run

    In the calm environment a routine is a function into [Result]:
    [run_calm] commutes with every construct, so that the routine's result
    is computed by rewriting.  Every routine follows its calm run, which
    [follows_calm_run] proves along its structure. *)

Lemma run_calm_bind {A B} (m : M unit A) (f : A → M unit B) :
  run_calm (m ≫= f) = v ← run_calm m; run_calm (f v).
Proof.
  unfold run_calm, mbind at 1, M_bind. by destruct (m tt) as [[v|e] []].
Qed.
Lemma run_calm_ret {A} (v : A) : run_calm (mret v) = Ok v.
Proof. done. Qed.
Lemma run_calm_fail {A} e : run_calm (@fail unit A e) = Err e.
Proof. done. Qed.
Lemma run_calm_lift {A} (r : Result A) : run_calm (lift r) = r.
Proof. done. Qed.
Lemma run_calm_checkpoint : run_calm checkpoint = Ok tt.
Proof. done. Qed.
Lemma run_calm_reserve n : run_calm (try_reserve n) = Ok tt.
Proof. done. Qed.
Lemma run_calm_if {A} (b : bool) (m1 m2 : M unit A) :
  run_calm (if b then m1 else m2) = if b then run_calm m1 else run_calm m2.
Proof. by destruct b. Qed.
Lemma run_calm_fold {A B} (f : B → A → M unit B) acc l :
  run_calm (fold_m f acc l) = try_fold (λ b a, run_calm (f b a)) acc l.
Proof.
  revert acc; induction l as [|a l IH]; intros acc; [done|]. cbn [fold_m try_fold].
  rewrite run_calm_bind. destruct (run_calm (f acc a)); [apply IH|done].
Qed.
Lemma run_calm_follows {A} (m : M unit A) r : run_calm m = r ↔ follows m r.
Proof.
  split; [|apply follows_calm]. intros <- []. by left.
Qed.

#[export] Hint Rewrite @run_calm_bind @run_calm_ret @run_calm_fail @run_calm_lift
  run_calm_checkpoint run_calm_reserve @run_calm_if @run_calm_fold : calm.
Ltac calm := autorewrite with calm; cbn [mbind result_bind mret result_ret].

Section calm_run.
Context {S : Type} `{Env S}.

Lemma follows_run_bind {A B} (m : M S A) m0 (f : A → M S B) f0 :
  follows m (run_calm m0) → (∀ v, follows (f v) (run_calm (f0 v))) →
  follows (m ≫= f) (run_calm (m0 ≫= f0)).
Proof. intros. rewrite run_calm_bind. by apply follows_bind. Qed.

Lemma follows_run_fold {A B} (f : B → A → M S B) f0 acc l :
  (∀ b a, follows (f b a) (run_calm (f0 b a))) →
  follows (fold_m f acc l) (run_calm (fold_m f0 acc l)).
Proof.
  intros Hf. revert acc; induction l as [|a l IH]; intros acc; [apply follows_ret|].
  by apply follows_run_bind.
Qed.

Lemma follows_run_while {St} fuel cond (body : St → M S St) body0 st :
  (∀ st, follows (body st) (run_calm (body0 st))) →
  follows (while_m fuel cond body st) (run_calm (while_m fuel cond body0 st)).
Proof.
  intros Hb. revert st; induction fuel as [|fuel IH]; intros st; simpl; destruct (cond st);
    try apply follows_ret; try apply follows_fail. by apply follows_run_bind.
Qed.

Lemma follows_run_index {A} (l : list A) i : follows (index l i) (run_calm (index l i)).
Proof. unfold index. destruct (l !! i); [apply follows_ret|apply follows_fail]. Qed.

Lemma follows_run_ret {A} (v : A) : follows (mret v) (run_calm (mret v)).
Proof. apply follows_ret. Qed.
Lemma follows_run_fail {A} e : follows (@fail S A e) (run_calm (fail e)).
Proof. apply follows_fail. Qed.
Lemma follows_run_lift {A} (r : Result A) : follows (lift r) (run_calm (lift r)).
Proof. apply follows_lift. Qed.
Lemma follows_run_reserve n : follows (try_reserve n) (run_calm (try_reserve n)).
Proof. apply follows_reserve. Qed.
End calm_run.

#[export] Hint Resolve follows_ret follows_fail follows_lift follows_checkpoint
  follows_reserve : follows.

(** Walk down a computation whose effects are checkpoints and reservations. *)
Ltac follows_step :=
  first
  [ apply follows_ret | apply follows_fail | apply follows_lift
  | apply follows_checkpoint | apply follows_reserve
  | eapply follows_seq; [first [apply follows_checkpoint | apply follows_reserve]|]
  | apply follows_if; intros ?
  | apply follows_bind; [|intros ? ?] ].

Ltac follows_construct :=
  match goal with
  | |- ∀ _, _ => intros ?
  | |- follows (_ ≫= _) _ => apply follows_run_bind
  | |- follows (fold_m _ _ _) _ => apply follows_run_fold
  | |- follows (while_m _ _ _ _) _ => apply follows_run_while
  | |- follows (mret _) _ => apply follows_run_ret
  | |- follows (fail _) _ => apply follows_run_fail
  | |- follows (lift _) _ => apply follows_run_lift
  | |- follows checkpoint _ => apply follows_checkpoint
  | |- follows (try_reserve _) _ => apply follows_run_reserve
  | |- follows (index _ _) _ => apply follows_run_index
  | |- follows (match ?x with _ => _ end) _ => destruct x
  end.

Ltac follows_calm_run := repeat first [ follows_construct | eassumption ].

(** Inversion of a calm run that returned [Ok], and its execution when the
    guards are known. *)
Ltac calm_inv :=
  repeat (invres; match goal with
  | H : run_calm (_ ≫= _) = _ |- _ => rewrite run_calm_bind in H
  | H : run_calm (if _ then _ else _) = _ |- _ => rewrite run_calm_if in H
  | H : run_calm (mret _) = Ok _ |- _ => rewrite run_calm_ret in H; injection H as H; try subst
  | H : run_calm (fail _) = Ok _ |- _ => discriminate H
  | H : run_calm (lift _) = _ |- _ => rewrite run_calm_lift in H
  | H : run_calm checkpoint = Ok ?v |- _ => clear H; try destruct v
  | H : run_calm (try_reserve _) = Ok ?v |- _ => clear H; try destruct v
  | H : (if ?b then _ else _) = Ok _ |- _ => destruct b eqn:?; try discriminate H
  end); invres.

Ltac calm_run :=
  repeat first
  [ rewrite run_calm_bind | rewrite run_calm_lift | rewrite run_calm_checkpoint
  | rewrite run_calm_reserve | rewrite run_calm_ret | rewrite run_calm_fail
  | rewrite run_calm_if
  | rewrite checked_add_ok by lia | rewrite checked_sub_ok by lia | rewrite checked_mul_ok by lia
  | rewrite u32_try_from_ok by lia | rewrite u64_try_from_ok by lia
  | rewrite usize_try_from_ok by lia
  | progress cbn [mbind result_bind mret result_ret ok_or negb orb andb]
  | match goal with
    | |- context [ (?a <? ?b)%N ] => first
        [ rewrite (proj2 (N.ltb_lt a b)) by lia | rewrite (proj2 (N.ltb_ge a b)) by lia ]
    | |- context [ (?a <=? ?b)%N ] => first
        [ rewrite (proj2 (N.leb_le a b)) by lia | rewrite (proj2 (N.leb_gt a b)) by lia ]
    | |- context [ (?a =? ?b)%N ] => first
        [ rewrite (proj2 (N.eqb_eq a b)) by lia | rewrite (proj2 (N.eqb_neq a b)) by lia ]
    end ].

(** ** What a computation leaves alone

    [obs] is a part of the state that checkpoints and reservations do not
    change, such as what has been written to a caller's output. *)
Class Unseen {S T : Type} (obs : S → T) `{Env S} : Prop := {
  unseen_checkpoint s : obs (env_checkpoint s).2 = obs s;
  unseen_reserve n s : obs (env_reserve n s).2 = obs s;
}.

Section preserves.
Context {S T : Type} (obs : S → T) `{Unseen S T obs}.

Definition preserves {A} (m : M S A) : Prop := ∀ s, obs (m s).2 = obs s.

Lemma preserves_ret {A} (v : A) : preserves (mret v).
Proof. by intros s. Qed.
Lemma preserves_fail {A} e : preserves (@fail S A e).
Proof. by intros s. Qed.
Lemma preserves_lift {A} (r : Result A) : preserves (lift r).
Proof. by intros s. Qed.
Lemma preserves_checkpoint : preserves checkpoint.
Proof. intros s. apply (unseen_checkpoint (obs := obs)). Qed.
Lemma preserves_reserve n : preserves (try_reserve n).
Proof.
  intros s. unfold try_reserve. rewrite <-(unseen_reserve (obs := obs) n s).
  by destruct (env_reserve n s) as [[] ?].
Qed.
Lemma preserves_bind {A B} (m : M S A) (f : A → M S B) :
  preserves m → (∀ v, preserves (f v)) → preserves (m ≫= f).
Proof.
  intros Hm Hf s. specialize (Hm s). unfold mbind, M_bind. destruct (m s) as [[v|e] s1]; [|done].
  cbn in *. by rewrite Hf.
Qed.
Lemma preserves_fold {A B} (f : B → A → M S B) acc l :
  (∀ b a, preserves (f b a)) → preserves (fold_m f acc l).
Proof.
  intros Hf. revert acc; induction l as [|a l IH]; intros acc; [apply preserves_ret|].
  by apply preserves_bind.
Qed.
Lemma preserves_while {St} fuel cond (body : St → M S St) st :
  (∀ st, preserves (body st)) → preserves (while_m fuel cond body st).
Proof.
  intros Hb. revert st; induction fuel as [|fuel IH]; intros st; simpl; destruct (cond st);
    try apply preserves_ret; try apply preserves_fail. by apply preserves_bind.
Qed.

Lemma preserves_Ok {A} (m : M S A) s v s' : preserves m → m s = (Ok v, s') → obs s' = obs s.
Proof. intros Hm E. specialize (Hm s). by rewrite E in Hm. Qed.
End preserves.

Ltac preserves_run :=
  repeat first
  [ eassumption | match goal with |- ∀ _, _ => intros ? end
  | apply preserves_bind | apply preserves_fold | apply preserves_while | apply preserves_ret
  | apply preserves_fail | apply preserves_lift | apply preserves_checkpoint; apply _
  | apply preserves_reserve; apply _
  | match goal with |- preserves _ (match ?x with _ => _ end) => destruct x end ].
