(* ===== verification/Runs.v ===== *)
(** * Calm runs as conjunctions of guards

    The success of a routine in the environment that aborts nothing is the
    conjunction of its guards: [run_iff] rewrites it so, step by step.  Also
    the conversions and loops that several routines share. *)

From S2P Require Import Prelude Core Effects.

(** [i64::try_from] on a wider integer. *)
Definition i64_try_from (n : Z) : option Z :=
  if ((i64_MIN <=? n) && (n <=? i64_MAX))%Z then Some n else None.

(** [u64::try_from(items.len())]. *)
Definition u64_len {A} (l : list A) : Result N := ok_or IntegerOverflow (u64_try_from (len l)).

Section loops.
Context {S : Type} `{Env S}.

(** [for item in items { checkpoint()?; out.push(f(item)) }], after
    [try_reserve_exact]. *)
Definition push_each {A B} (f : A → B) (out : list B) (l : list A) : M S (list B) :=
  fold_m (λ out a, checkpoint;; mret (out ++ [f a])) out l.

End loops.

Lemma i64_try_from_Some a b : i64_try_from a = Some b ↔ b = a ∧ (i64_MIN <= a <= i64_MAX)%Z.
Proof.
  unfold i64_try_from. destruct (Z.leb_spec i64_MIN a), (Z.leb_spec a i64_MAX); naive_solver lia.
Qed.

Lemma u64_len_Ok {A} (l : list A) n : u64_len l = Ok n ↔ n = len l ∧ len l <= u64_MAX.
Proof. unfold u64_len. by rewrite ok_or_Ok, u64_try_from_Some. Qed.

Lemma push_each_run {A B} (f : A → B) out l : run_calm (push_each f out l) = Ok (out ++ map f l).
Proof.
  unfold push_each. rewrite run_calm_fold. revert out; induction l as [|a l IH]; intros out; cbn [try_fold map].
  - by rewrite app_nil_r.
  - calm_run. rewrite IH. by rewrite <-app_assoc.
Qed.

Lemma Ok_bind {E A B} (v : A) (f : A → result E B) : Ok v ≫= f = f v.
Proof. done. Qed.

(** A guarded step of a calm run. *)
Lemma run_guard {A} (b : bool) e (m : M unit A) v :
  run_calm (if b then fail e else m) = Ok v ↔ b = false ∧ run_calm m = Ok v.
Proof. rewrite run_calm_if. destruct b; naive_solver. Qed.

Lemma run_bind_Ok {A B} (m : M unit A) (f : A → M unit B) v :
  run_calm (m ≫= f) = Ok v ↔ ∃ a, run_calm m = Ok a ∧ run_calm (f a) = Ok v.
Proof. by rewrite run_calm_bind, bind_Ok. Qed.

Lemma run_checkpoint_Ok {B} (f : unit → M unit B) v :
  run_calm (checkpoint ≫= f) = Ok v ↔ run_calm (f tt) = Ok v.
Proof. done. Qed.
Lemma run_reserve_Ok {B} n (f : unit → M unit B) v :
  run_calm (try_reserve n ≫= f) = Ok v ↔ run_calm (f tt) = Ok v.
Proof. done. Qed.
Lemma run_lift_Ok {A} (r : Result A) v : run_calm (lift r) = Ok v ↔ r = Ok v.
Proof. done. Qed.
Lemma run_ret_Ok {A} (a v : A) : run_calm (mret a) = Ok v ↔ v = a.
Proof. rewrite run_calm_ret. naive_solver. Qed.

Lemma u64_len_bind_Ok {A B} (l : list A) (f : N → M unit B) v :
  run_calm (lift (u64_len l) ≫= f) = Ok v ↔ len l <= u64_MAX ∧ run_calm (f (len l)) = Ok v.
Proof. rewrite run_bind_Ok. setoid_rewrite run_lift_Ok. setoid_rewrite u64_len_Ok. naive_solver. Qed.

Lemma run_opt_Ok {A B} e (o : option A) (P : Prop) a (f : A → M unit B) v :
  (∀ x, o = Some x ↔ x = a ∧ P) →
  run_calm (lift (ok_or e o) ≫= f) = Ok v ↔ P ∧ run_calm (f a) = Ok v.
Proof.
  intros Ho. rewrite run_bind_Ok. setoid_rewrite run_lift_Ok. setoid_rewrite ok_or_Ok.
  setoid_rewrite Ho. naive_solver.
Qed.

Lemma mul_add_Some a b c x :
  (value ← checked_mul a b; checked_add value c) = Some x ↔ x = a * b + c ∧ a * b + c <= u64_MAX.
Proof.
  unfold checked_mul. destruct (N.leb_spec (a * b) u64_MAX); cbn [mbind option_bind]; [apply checked_add_Some|].
  split; [done|lia].
Qed.

(** A step that returns nothing. *)
Lemma run_unit_Ok {B} (m : M unit unit) (f : unit → M unit B) v :
  run_calm (m ≫= f) = Ok v ↔ run_calm m = Ok tt ∧ run_calm (f tt) = Ok v.
Proof. rewrite run_bind_Ok. split; [by intros ([] & ? & ?)|]. intros []. by exists tt. Qed.

Lemma and_iff_weak (P Q R : Prop) : (P → Q ↔ R) → P ∧ Q ↔ P ∧ R.
Proof. tauto. Qed.

(** A fallible step whose value a lemma gives. *)
Ltac lift_step lem :=
  rewrite run_calm_bind, run_calm_lift, lem by lia; cbn [ok_or]; rewrite Ok_bind.

(** Guards of a component. *)
Ltac run_hook := fail.

(** Rewrites the success of a calm run, step by step, to the conjunction of
    its guards. *)
Ltac run_iff :=
  repeat first
  [ rewrite run_checkpoint_Ok | rewrite run_reserve_Ok | rewrite u64_len_bind_Ok
  | run_hook | rewrite run_guard | rewrite run_ret_Ok
  | rewrite (run_opt_Ok _ _ _ _ _ _ (checked_add_Some _ _))
  | rewrite (run_opt_Ok _ _ _ _ _ _ (mul_add_Some _ _ _))
  | rewrite (run_opt_Ok _ _ _ _ _ _ (checked_mul_Some _ _))
  | rewrite (run_opt_Ok _ _ _ _ _ _ (usize_try_from_Some _))
  | rewrite (run_opt_Ok _ _ _ _ _ _ (u64_try_from_Some _))
  | rewrite (run_opt_Ok _ _ _ _ _ _ (u32_try_from_Some _))
  | rewrite (run_opt_Ok _ _ _ _ _ _ (i64_try_from_Some _)) ].

Lemma for_each_run {A} (f : A → M unit unit) l :
  run_calm (for_each f l) = Ok tt ↔ Forall (λ a, run_calm (f a) = Ok tt) l.
Proof.
  unfold for_each. induction l as [|a l IH]; [done|]. cbn [fold_m]. rewrite run_bind_Ok, Forall_cons, <-IH.
  split; [by intros ([] & ? & ?)|]. intros []. by exists tt.
Qed.

Lemma push_each_follows {S} `{Env S} {A B} (f : A → B) out l :
  follows (push_each f out l) (run_calm (push_each f out l)).
Proof. unfold push_each. follows_calm_run. Qed.
