(* ===== verification/Bytes.v ===== *)
(** * Bytes, little-endian integers, buffers and checksums

    [to_le_bytes]/[from_le_bytes] of the fixed-width integers, the
    fixed-size buffers the format writes field by field, and the interface
    of the two checksum crates ([crc32c] and [blake3]), which are not part
    of the repository. *)

From S2P Require Import Prelude.
From Stdlib Require Strings.Byte.

Abbreviation byte := Byte.byte.

#[export] Instance byte_eq_dec : EqDecision byte := Byte.byte_eq_dec.

Definition byte_val (b : byte) : N := Strings.Byte.to_N b.
Definition byte_of (n : N) : byte := default Byte.x00 (Strings.Byte.of_N (n mod 256)).

Lemma byte_val_bound b : byte_val b < 256.
Proof. destruct b; done. Qed.

Lemma byte_of_val b : byte_of (byte_val b) = b.
Proof.
  unfold byte_of. rewrite N.mod_small by apply byte_val_bound.
  unfold byte_val. by rewrite Strings.Byte.of_to_N.
Qed.

Lemma byte_val_of n : byte_val (byte_of n) = n mod 256.
Proof.
  unfold byte_of, byte_val.
  pose proof (Strings.Byte.to_of_N_option_map (n mod 256)) as Ho.
  assert (n mod 256 < 256) by (apply N.mod_lt; lia).
  destruct (Strings.Byte.of_N (n mod 256)); simpl in *;
    destruct (N.leb_spec (n mod 256) 255); naive_solver lia.
Qed.

#[export] Instance byte_val_inj : Inj (=) (=) byte_val.
Proof. intros a b E. by rewrite <-(byte_of_val a), E, byte_of_val. Qed.

(** ** Little-endian integers *)

Fixpoint le_combine (l : list byte) : N :=
  match l with [] => 0 | b :: l => byte_val b + 256 * le_combine l end.

Fixpoint le_split (n : nat) (x : N) : list byte :=
  match n with O => [] | S n => byte_of x :: le_split n (x / 256) end.

Lemma length_le_split n x : length (le_split n x) = n.
Proof. revert x; induction n; simpl; auto. Qed.

Lemma le_combine_split n x : x < 256 ^ N.of_nat n → le_combine (le_split n x) = x.
Proof.
  revert x; induction n as [|n IH]; intros x Hx; simpl.
  - change (256 ^ N.of_nat 0) with 1 in Hx. lia.
  - rewrite Nat2N.inj_succ, N.pow_succ_r' in Hx.
    rewrite IH by (apply N.Div0.div_lt_upper_bound; lia).
    rewrite byte_val_of. pose proof (N.div_mod x 256). lia.
Qed.

Lemma le_combine_bound l : le_combine l < 256 ^ len l.
Proof.
  induction l as [|b l IH]; [done|].
  rewrite len_cons, N.add_1_l, N.pow_succ_r'. simpl.
  pose proof (byte_val_bound b). lia.
Qed.

Lemma le_split_combine l : le_split (length l) (le_combine l) = l.
Proof.
  induction l as [|b l IH]; simpl; [done|]. pose proof (byte_val_bound b). f_equal.
  - rewrite <-(byte_of_val b) at 2. unfold byte_of. do 2 f_equal.
    by rewrite (N.mul_comm 256), N.Div0.mod_add.
  - transitivity (le_split (length l) (le_combine l)); [f_equal|exact IH].
    rewrite (N.mul_comm 256), N.div_add by done. by rewrite N.div_small.
Qed.

Lemma le_split_combine' n l : length l = n → le_split n (le_combine l) = l.
Proof. intros <-. apply le_split_combine. Qed.

Lemma le_split_inj n x y :
  x < 256 ^ N.of_nat n → y < 256 ^ N.of_nat n → le_split n x = le_split n y → x = y.
Proof.
  intros Hx Hy E. by rewrite <-(le_combine_split n x), E, le_combine_split.
Qed.

Definition u16_le (x : N) := le_split 2 x.
Definition u32_le (x : N) := le_split 4 x.
Definition u64_le (x : N) := le_split 8 x.

Lemma length_u16_le x : length (u16_le x) = 2%nat.
Proof. apply length_le_split. Qed.
Lemma length_u32_le x : length (u32_le x) = 4%nat.
Proof. apply length_le_split. Qed.
Lemma length_u64_le x : length (u64_le x) = 8%nat.
Proof. apply length_le_split. Qed.
#[export] Hint Rewrite length_u16_le length_u32_le length_u64_le : pithos.

#[global] Arguments u16_le : simpl never.
#[global] Arguments u32_le : simpl never.
#[global] Arguments u64_le : simpl never.

(** [i32::to_le_bytes] and [i32::from_le_bytes]: two's complement. *)
Definition i32_bits (z : Z) : N := Z.to_N (z mod 2 ^ 32).
Definition i32_of_bits (n : N) : Z :=
  if n <? 2 ^ 31 then Z.of_N n else (Z.of_N n - 2 ^ 32)%Z.

Lemma i32_of_bits_bits z : (i32_MIN <= z <= i32_MAX)%Z → i32_of_bits (i32_bits z) = z.
Proof.
  intros Hz. unfold i32_of_bits, i32_bits.
  destruct (Z.ltb_spec z 0) as [Hn|Hn].
  - assert ((z + 2 ^ 32)%Z = (z mod 2 ^ 32)%Z) as <-
      by (apply (Z.mod_unique_pos _ _ (-1)); lia).
    destruct (N.ltb_spec (Z.to_N (z + 2 ^ 32)) (2 ^ 31)); lia.
  - rewrite Z.mod_small by lia.
    destruct (N.ltb_spec (Z.to_N z) (2 ^ 31)); lia.
Qed.

Lemma i32_bits_bound z : i32_bits z < 2 ^ 32.
Proof. unfold i32_bits. pose proof (Z.mod_pos_bound z (2 ^ 32) eq_refl). lia. Qed.

Lemma i32_bits_of_bits n : n < 2 ^ 32 → i32_bits (i32_of_bits n) = n.
Proof.
  intros Hn. unfold i32_bits, i32_of_bits. destruct (N.ltb_spec n (2 ^ 31)).
  - rewrite Z.mod_small; lia.
  - assert (Z.of_N n = (Z.of_N n - 2 ^ 32) mod 2 ^ 32)%Z as <-
      by (apply (Z.mod_unique_pos _ _ (-1)); lia). lia.
Qed.

(** ** Buffers *)

Definition zeros (n : nat) : list byte := replicate n Byte.x00.

(** [&buffer[off .. off + n]]. *)
Definition sub {A} (off n : nat) (buf : list A) : list A := take n (drop off buf).

(** [buffer[off .. off + src.len()].copy_from_slice(src)]. *)
Definition put (off : nat) (src buf : list byte) : list byte :=
  take off buf ++ src ++ drop (off + length src) buf.

Definition read_u16 (buf : list byte) (off : nat) : N := le_combine (sub off 2 buf).
Definition read_u32 (buf : list byte) (off : nat) : N := le_combine (sub off 4 buf).
Definition read_i32 (buf : list byte) (off : nat) : Z := i32_of_bits (le_combine (sub off 4 buf)).
Definition read_u64 (buf : list byte) (off : nat) : N := le_combine (sub off 8 buf).

Lemma length_sub {A} off n (buf : list A) :
  (off + n <= length buf)%nat → length (sub off n buf) = n.
Proof. intros. unfold sub. rewrite length_take, length_drop. lia. Qed.

Lemma sub_split {A} off n m (buf : list A) :
  sub off (n + m) buf = sub off n buf ++ sub (off + n) m buf.
Proof.
  unfold sub. rewrite <-(take_drop n (take (n + m) (drop off buf))).
  rewrite take_take, Nat.min_l by lia. f_equal.
  rewrite skipn_firstn_comm, drop_drop. f_equal. lia.
Qed.

Lemma sub_all {A} n (buf : list A) : length buf = n → sub 0 n buf = buf.
Proof. intros <-. unfold sub. apply firstn_all. Qed.

(** ** [chunks_exact(n)]: consecutive pieces of exactly [n] elements. *)
Fixpoint chunks_exact_fuel {A} (fuel n : nat) (l : list A) : list (list A) :=
  match fuel with
  | O => []
  | S fuel =>
      if (length l <? n)%nat then []
      else take n l :: chunks_exact_fuel fuel n (drop n l)
  end.
Definition chunks_exact {A} (n : nat) (l : list A) : list (list A) :=
  chunks_exact_fuel (length l) n l.

Lemma chunks_exact_fuel_concat {A} fuel n (ls : list (list A)) :
  (0 < n)%nat → Forall (λ l, length l = n) ls → (length ls * n <= fuel)%nat →
  chunks_exact_fuel fuel n (concat ls) = ls.
Proof.
  intros Hn Hls. revert fuel. induction Hls as [|l ls Hl Hls IH]; intros fuel Hf; simpl.
  - destruct fuel; simpl; [done|]. by destruct (Nat.ltb_spec 0 n); [|lia].
  - destruct fuel as [|fuel]; simpl in *; [lia|]. rewrite length_app.
    destruct (Nat.ltb_spec (length l + length (concat ls)) n); [lia|].
    rewrite take_app_length', drop_app_length' by done. rewrite IH by lia. done.
Qed.

Lemma chunks_exact_concat {A} n (ls : list (list A)) :
  (0 < n)%nat → Forall (λ l, length l = n) ls → chunks_exact n (concat ls) = ls.
Proof.
  intros Hn Hls. apply chunks_exact_fuel_concat; [done..|].
  clear Hn. induction Hls; simpl; [lia|]. rewrite length_app. lia.
Qed.

Lemma chunks_exact_fuel_length {A} fuel n (l : list A) :
  Forall (λ c, length c = n) (chunks_exact_fuel fuel n l).
Proof.
  revert l; induction fuel as [|fuel IH]; intros l; simpl; [constructor|].
  destruct (Nat.ltb_spec (length l) n); constructor; auto. rewrite length_take. lia.
Qed.

Lemma concat_chunks_exact_fuel {A} fuel n k (l : list A) :
  (0 < n)%nat → (length l <= fuel)%nat → length l = (k * n)%nat →
  concat (chunks_exact_fuel fuel n l) = l ∧ length (chunks_exact_fuel fuel n l) = k.
Proof.
  intros Hn. revert k l; induction fuel as [|fuel IH]; intros k l Hf Hl; simpl.
  - destruct l; simpl in *; [|lia]. split; [done|]. nia.
  - destruct (Nat.ltb_spec (length l) n) as [Hlt|Hge].
    + assert (k = 0%nat) by nia. subst. by destruct l.
    + destruct k as [|k]; [simpl in Hl; lia|].
      destruct (IH k (drop n l)) as [IH1 IH2]; [rewrite length_drop; simpl in Hl; lia..|].
      simpl. rewrite IH1, IH2. by rewrite take_drop.
Qed.

(** A list of length [n] is a literal list, so that fixed layouts compute. *)
Ltac explode l :=
  repeat match goal with
  | H : length l = S _ |- _ => destruct l as [|? l]; [discriminate H|]; apply (f_equal pred) in H; simpl in H
  | H : length l = 0%nat |- _ => destruct l; [|discriminate H]; clear H
  end.

(** ** Checksums

    [crc32c::crc32c_append(crc, data)] continues the CRC32C [crc] over
    [data]; [crc32c::crc32c(data)] starts from 0.  The laws are the
    documented behaviour the program relies on. *)

Class Crc32c := crc32c_append : N → list byte → N.

Definition crc32c `{Crc32c} (data : list byte) : N := crc32c_append 0 data.

Class Crc32cLaws `{Crc32c} : Prop := {
  crc32c_append_u32 : ∀ crc data, crc32c_append crc data <= u32_MAX;
  crc32c_append_nil : ∀ crc, crc <= u32_MAX → crc32c_append crc [] = crc;
  crc32c_append_app : ∀ crc a b, crc <= u32_MAX →
    crc32c_append crc (a ++ b) = crc32c_append (crc32c_append crc a) b;
}.

(** [blake3::hash(data).as_bytes()]. *)
Class Blake3 := blake3 : list byte → list byte.

Class Blake3Laws `{Blake3} : Prop :=
  blake3_length : ∀ data, length (blake3 data) = 32%nat.

(** ** CRC32C (Castagnoli), as RFC 3720 specifies it

    The reflected polynomial 0x82F63B78 with inverted initial and final
    values; it instantiates the interface above in concrete examples. *)

Definition crc32c_shift (c : N) : N :=
  if N.odd c then N.lxor (N.div2 c) 0x82F63B78 else N.div2 c.

Definition crc32c_byte (c : N) (b : byte) : N :=
  Nat.iter 8 crc32c_shift (N.lxor c (byte_val b)).

Definition crc32c_castagnoli : Crc32c := λ crc data,
  N.lxor (fold_left crc32c_byte data (N.lxor crc u32_MAX)) u32_MAX mod 2 ^ 32.

Lemma lxor_u32 a b : a < 2 ^ 32 → b < 2 ^ 32 → N.lxor a b < 2 ^ 32.
Proof.
  intros Ha Hb. destruct (N.eq_dec (N.lxor a b) 0) as [->|Hn]; [done|].
  apply N.log2_lt_pow2; [lia|].
  eapply N.le_lt_trans; [apply N.log2_lxor|].
  apply N.max_lub_lt.
  - destruct (N.eq_dec a 0) as [->|]; [done|]. apply N.log2_lt_pow2; lia.
  - destruct (N.eq_dec b 0) as [->|]; [done|]. apply N.log2_lt_pow2; lia.
Qed.

Lemma crc32c_shift_u32 c : c < 2 ^ 32 → crc32c_shift c < 2 ^ 32.
Proof.
  intros Hc. assert (N.div2 c < 2 ^ 32) by (rewrite N.div2_div; apply N.Div0.div_lt_upper_bound; lia).
  unfold crc32c_shift. destruct (N.odd c); [apply lxor_u32; done|done].
Qed.

Lemma crc32c_byte_u32 c b : c < 2 ^ 32 → crc32c_byte c b < 2 ^ 32.
Proof.
  intros Hc. unfold crc32c_byte. apply Nat.iter_invariant; [intros; by apply crc32c_shift_u32|].
  apply lxor_u32; [done|]. pose proof (byte_val_bound b). lia.
Qed.

Lemma crc32c_fold_u32 data c : c < 2 ^ 32 → fold_left crc32c_byte data c < 2 ^ 32.
Proof. revert c; induction data; simpl; auto using crc32c_byte_u32. Qed.

Lemma crc32c_castagnoli_laws : @Crc32cLaws crc32c_castagnoli.
Proof.
  split.
  - intros crc data. unfold crc32c_append, crc32c_castagnoli.
    pose proof (N.mod_lt (N.lxor (fold_left crc32c_byte data (N.lxor crc u32_MAX)) u32_MAX)
      (2 ^ 32) ltac:(done)). lia.
  - intros crc Hc. unfold crc32c_append, crc32c_castagnoli. cbn [fold_left].
    rewrite N.lxor_assoc, N.lxor_nilpotent, N.lxor_0_r. apply N.mod_small. lia.
  - intros crc a b Hc. unfold crc32c_append, crc32c_castagnoli. f_equal. f_equal.
    rewrite fold_left_app. f_equal. rewrite N.mod_small.
    + by rewrite N.lxor_assoc, N.lxor_nilpotent, N.lxor_0_r.
    + apply lxor_u32; [|done]. apply crc32c_fold_u32. apply lxor_u32; lia.
Qed.

(** The check value of the algorithm. *)
Example crc32c_castagnoli_abc :
  @crc32c crc32c_castagnoli (map byte_of [97; 98; 99]) = 0x364b3fb7.
Proof. vm_compute. reflexivity. Qed.
