(* ===== verification/Format.v ===== *)
(** * Fixed-size records of the PAF container ([crates/pithos-format/src/lib.rs])

    Global header, section directory records, codec registry, group records
    and footer: their byte layouts, decoders with every rejection, and the
    theorems that encoding and decoding are inverse. *)

From S2P Require Import Prelude Core Bytes.

Definition GLOBAL_MAGIC : list byte :=
  map byte_of [0x55; 0x44; 0x4F; 0x43; 0x0D; 0x0A; 0x1A; 0x0A].
Definition GROUP_MAGIC : list byte := map byte_of [0x55; 0x47; 0x52; 0x50].
Definition FOOTER_MAGIC : list byte := map byte_of [0x55; 0x46; 0x54; 0x52].

Definition HEADER_LEN : nat := 96.
Definition FOOTER_LEN : nat := 64.
Definition SECTION_ENTRY_LEN : nat := 32.
Definition GROUP_RECORD_LEN : nat := 48.
Definition CODEC_REGISTRY_RECORD_LEN : nat := 16.
Definition CODEC_FLAG_REQUIRED : N := 1.
Definition REQUIRED_RAW_SECTIONS : N := 6.
Definition REQUIRED_COMPRESSED_SECTIONS : N := 7.
Definition MAJOR_VERSION : N := 0.
Definition MINOR_VERSION : N := 1.

Inductive SectionType :=
  | CodecRegistrySection | EntryTable | ObjectGraph | BaseDictionaryArea
  | GroupTable | PayloadArea | RestoreMap | CentralIndex | IntegrityTree
  | OptionalTelemetry.

#[export] Instance SectionType_eq_dec : EqDecision SectionType.
Proof. solve_decision. Defined.

(** [section_type as u16]. *)
Definition SectionType_as_u16 (t : SectionType) : N :=
  match t with
  | CodecRegistrySection => 1 | EntryTable => 2 | ObjectGraph => 3
  | BaseDictionaryArea => 4 | GroupTable => 5 | PayloadArea => 6
  | RestoreMap => 7 | CentralIndex => 8 | IntegrityTree => 9
  | OptionalTelemetry => 10
  end.

Definition SectionType_from_u16 (value : N) : option SectionType :=
  match value with
  | 1 => Some CodecRegistrySection
  | 2 => Some EntryTable
  | 3 => Some ObjectGraph
  | 4 => Some BaseDictionaryArea
  | 5 => Some GroupTable
  | 6 => Some PayloadArea
  | 7 => Some RestoreMap
  | 8 => Some CentralIndex
  | 9 => Some IntegrityTree
  | 10 => Some OptionalTelemetry
  | _ => None
  end.

(** ** Global header *)

Record GlobalHeader := {
  gh_major : N;
  gh_minor : N;
  gh_flags : N;
  gh_archive_id : list byte;
  gh_original_total_size : N;
  gh_entry_count : N;
  gh_logical_chunk_count : N;
  gh_group_count : N;
  gh_section_directory_offset : N;
  gh_footer_offset : N;
  gh_section_count : N;
}.

(** The ranges of the field types. *)
Definition GlobalHeader_wf (h : GlobalHeader) : Prop :=
  gh_major h <= u16_MAX ∧ gh_minor h <= u16_MAX ∧ gh_flags h <= u64_MAX ∧
  length (gh_archive_id h) = 16%nat ∧ gh_original_total_size h <= u64_MAX ∧
  gh_entry_count h <= u64_MAX ∧ gh_logical_chunk_count h <= u64_MAX ∧
  gh_group_count h <= u64_MAX ∧ gh_section_directory_offset h <= u64_MAX ∧
  gh_footer_offset h <= u64_MAX ∧ gh_section_count h <= u32_MAX.

Definition GlobalHeader_new (archive_id : list byte) : GlobalHeader := {|
  gh_major := MAJOR_VERSION;
  gh_minor := MINOR_VERSION;
  gh_flags := 0;
  gh_archive_id := archive_id;
  gh_original_total_size := 0;
  gh_entry_count := 0;
  gh_logical_chunk_count := 0;
  gh_group_count := 0;
  gh_section_directory_offset := N.of_nat HEADER_LEN;
  gh_footer_offset := 0;
  gh_section_count := REQUIRED_RAW_SECTIONS;
|}.

Definition header_crc `{Crc32c} (buffer : list byte) : N :=
  let first := crc32c (sub 0 88 buffer) in
  crc32c_append first (sub 92 4 buffer).

Definition GlobalHeader_encode `{Crc32c} (h : GlobalHeader) : list byte :=
  let buffer := zeros HEADER_LEN in
  let buffer := put 0 GLOBAL_MAGIC buffer in
  let buffer := put 8 (u16_le (gh_major h)) buffer in
  let buffer := put 10 (u16_le (gh_minor h)) buffer in
  let buffer := put 12 (u32_le (N.of_nat HEADER_LEN)) buffer in
  let buffer := put 16 (u64_le (gh_flags h)) buffer in
  let buffer := put 24 (gh_archive_id h) buffer in
  let buffer := put 40 (u64_le (gh_original_total_size h)) buffer in
  let buffer := put 48 (u64_le (gh_entry_count h)) buffer in
  let buffer := put 56 (u64_le (gh_logical_chunk_count h)) buffer in
  let buffer := put 64 (u64_le (gh_group_count h)) buffer in
  let buffer := put 72 (u64_le (gh_section_directory_offset h)) buffer in
  let buffer := put 80 (u64_le (gh_footer_offset h)) buffer in
  let buffer := put 92 (u32_le (gh_section_count h)) buffer in
  let crc := header_crc buffer in
  put 88 (u32_le crc) buffer.

Definition GlobalHeader_decode `{Crc32c} (buffer : list byte) : Result GlobalHeader :=
  if negb (bool_decide (sub 0 8 buffer = GLOBAL_MAGIC)) then Err InvalidMagic else
  if negb (read_u32 buffer 88 =? header_crc buffer) then Err ChecksumMismatch else
  let major := read_u16 buffer 8 in
  let minor := read_u16 buffer 10 in
  if negb (read_u32 buffer 12 =? N.of_nat HEADER_LEN)
     || negb (major =? MAJOR_VERSION) || (MINOR_VERSION <? minor)
  then Err UnsupportedContainerVersion else
  Ok {|
    gh_major := major;
    gh_minor := minor;
    gh_flags := read_u64 buffer 16;
    gh_archive_id := sub 24 16 buffer;
    gh_original_total_size := read_u64 buffer 40;
    gh_entry_count := read_u64 buffer 48;
    gh_logical_chunk_count := read_u64 buffer 56;
    gh_group_count := read_u64 buffer 64;
    gh_section_directory_offset := read_u64 buffer 72;
    gh_footer_offset := read_u64 buffer 80;
    gh_section_count := read_u32 buffer 92;
  |}.

(** ** Section directory records *)

Record SectionDirectoryRecord := {
  sd_section_type : N;
  sd_section_version : N;
  sd_flags : N;
  sd_offset : N;
  sd_length : N;
  sd_crc32c : N;
  sd_reserved : N;
}.

Definition SectionDirectoryRecord_wf (r : SectionDirectoryRecord) : Prop :=
  sd_section_type r <= u16_MAX ∧ sd_section_version r <= u16_MAX ∧
  sd_flags r <= u32_MAX ∧ sd_offset r <= u64_MAX ∧ sd_length r <= u64_MAX ∧
  sd_crc32c r <= u32_MAX ∧ sd_reserved r <= u32_MAX.

Definition SectionDirectoryRecord_encode (r : SectionDirectoryRecord) : list byte :=
  let buffer := zeros SECTION_ENTRY_LEN in
  let buffer := put 0 (u16_le (sd_section_type r)) buffer in
  let buffer := put 2 (u16_le (sd_section_version r)) buffer in
  let buffer := put 4 (u32_le (sd_flags r)) buffer in
  let buffer := put 8 (u64_le (sd_offset r)) buffer in
  let buffer := put 16 (u64_le (sd_length r)) buffer in
  let buffer := put 24 (u32_le (sd_crc32c r)) buffer in
  put 28 (u32_le (sd_reserved r)) buffer.

Definition SectionDirectoryRecord_decode (buffer : list byte) : SectionDirectoryRecord := {|
  sd_section_type := read_u16 buffer 0;
  sd_section_version := read_u16 buffer 2;
  sd_flags := read_u32 buffer 4;
  sd_offset := read_u64 buffer 8;
  sd_length := read_u64 buffer 16;
  sd_crc32c := read_u32 buffer 24;
  sd_reserved := read_u32 buffer 28;
|}.

(** ** Codec registry *)

Record CodecRegistryRecord := {
  cr_chain_id : N;
  cr_codec_id : N;
  cr_codec_version : N;
  cr_level : Z;
  cr_flags : N;
}.

#[export] Instance CodecRegistryRecord_eq_dec : EqDecision CodecRegistryRecord.
Proof. solve_decision. Defined.

Definition CodecRegistryRecord_wf (r : CodecRegistryRecord) : Prop :=
  cr_chain_id r <= u32_MAX ∧ cr_codec_id r <= u16_MAX ∧ cr_codec_version r <= u16_MAX ∧
  (i32_MIN <= cr_level r <= i32_MAX)%Z ∧ cr_flags r <= u32_MAX.

Definition CodecRegistryRecord_store (chain_id : N) : CodecRegistryRecord := {|
  cr_chain_id := chain_id;
  cr_codec_id := 0;
  cr_codec_version := 1;
  cr_level := 0;
  cr_flags := CODEC_FLAG_REQUIRED;
|}.

Definition CodecRegistryRecord_encode (r : CodecRegistryRecord) : list byte :=
  let buffer := zeros CODEC_REGISTRY_RECORD_LEN in
  let buffer := put 0 (u32_le (cr_chain_id r)) buffer in
  let buffer := put 4 (u16_le (cr_codec_id r)) buffer in
  let buffer := put 6 (u16_le (cr_codec_version r)) buffer in
  let buffer := put 8 (u32_le (i32_bits (cr_level r))) buffer in
  put 12 (u32_le (cr_flags r)) buffer.

Definition CodecRegistryRecord_decode (buffer : list byte) : CodecRegistryRecord := {|
  cr_chain_id := read_u32 buffer 0;
  cr_codec_id := read_u16 buffer 4;
  cr_codec_version := read_u16 buffer 6;
  cr_level := read_i32 buffer 8;
  cr_flags := read_u32 buffer 12;
|}.

(** [flags & !CODEC_FLAG_REQUIRED] on a [u32]. *)
Definition CodecRegistryRecord_validate_for_decode (r : CodecRegistryRecord) : Result unit :=
  if cr_chain_id r =? 0 then
    Err (InvalidMetadata "codec chain zero is reserved for RAW") else
  if negb (N.ldiff (cr_flags r) CODEC_FLAG_REQUIRED =? 0) then
    Err (InvalidMetadata "unknown codec registry flags") else
  let known := (cr_codec_id r <=? 3) && (cr_codec_version r =? 1) in
  if negb known && negb (N.land (cr_flags r) CODEC_FLAG_REQUIRED =? 0) then
    Err UnsupportedCodec else
  Ok tt.

(** [CodecRegistry { records }]. *)
Abbreviation CodecRegistry := (list CodecRegistryRecord).

(** The body of the loop over the records: [chain_ids.insert] tells whether
    the identifier is new. *)
Definition CodecRegistry_encode_record (st : gset N * list byte) (record : CodecRegistryRecord) :
    Result (gset N * list byte) :=
  let '(chain_ids, output) := st in
  if (cr_chain_id record =? 0) || bool_decide (cr_chain_id record ∈ chain_ids) then
    Err (InvalidMetadata "duplicate or reserved codec chain") else
  Ok ({[cr_chain_id record]} ∪ chain_ids, output ++ CodecRegistryRecord_encode record).

Definition CodecRegistry_encode (records : CodecRegistry) : Result (list byte) :=
  count ← ok_or IntegerOverflow (u32_try_from (len records));
  body_len ← ok_or IntegerOverflow
    (checked_mul (len records) (N.of_nat CODEC_REGISTRY_RECORD_LEN));
  capacity ← ok_or IntegerOverflow (checked_add 4 body_len);
  st ← try_fold CodecRegistry_encode_record
    (∅ : gset N, u32_le count) records;
  Ok st.2.

Definition CodecRegistry_decode_record (st : gset N * CodecRegistry) (record_bytes : list byte) :
    Result (gset N * CodecRegistry) :=
  let '(chain_ids, records) := st in
  let record := CodecRegistryRecord_decode record_bytes in
  CodecRegistryRecord_validate_for_decode record;;
  if bool_decide (cr_chain_id record ∈ chain_ids) then
    Err (InvalidMetadata "duplicate codec chain") else
  Ok ({[cr_chain_id record]} ∪ chain_ids, records ++ [record]).

Definition CodecRegistry_decode (input : list byte) (max_records : N) : Result CodecRegistry :=
  if len input <? 4 then Err InvalidRange else
  let count := read_u32 input 0 in
  if max_records <? count then Err (ResourceLimit "codec registry record count") else
  count ← ok_or IntegerOverflow (usize_try_from count);
  body_len ← ok_or IntegerOverflow (checked_mul count (N.of_nat CODEC_REGISTRY_RECORD_LEN));
  expected_len ← ok_or IntegerOverflow (checked_add 4 body_len);
  if negb (len input =? expected_len) then Err InvalidRange else
  st ← try_fold CodecRegistry_decode_record
    (∅ : gset N, []) (chunks_exact CODEC_REGISTRY_RECORD_LEN (drop 4 input));
  Ok st.2.

Definition CodecRegistry_chain (records : CodecRegistry) (chain_id : N) :
    option CodecRegistryRecord :=
  List.find (λ record, cr_chain_id record =? chain_id) records.

(** ** Group records *)

Record GroupRecord := {
  gr_version : N;
  gr_flags : N;
  gr_group_id : N;
  gr_codec_chain_id : N;
  gr_chunk_count : N;
  gr_uncompressed_len : N;
  gr_compressed_len : N;
  gr_descriptor_len : N;
  gr_payload_crc32c : N;
}.

Definition GroupRecord_wf (r : GroupRecord) : Prop :=
  gr_version r <= u16_MAX ∧ gr_flags r <= u16_MAX ∧ gr_group_id r <= u64_MAX ∧
  gr_codec_chain_id r <= u32_MAX ∧ gr_chunk_count r <= u32_MAX ∧
  gr_uncompressed_len r <= u64_MAX ∧ gr_compressed_len r <= u64_MAX ∧
  gr_descriptor_len r <= u32_MAX ∧ gr_payload_crc32c r <= u32_MAX.

Definition GroupRecord_encode (r : GroupRecord) : list byte :=
  let buffer := zeros GROUP_RECORD_LEN in
  let buffer := put 0 GROUP_MAGIC buffer in
  let buffer := put 4 (u16_le (gr_version r)) buffer in
  let buffer := put 6 (u16_le (gr_flags r)) buffer in
  let buffer := put 8 (u64_le (gr_group_id r)) buffer in
  let buffer := put 16 (u32_le (gr_codec_chain_id r)) buffer in
  let buffer := put 20 (u32_le (gr_chunk_count r)) buffer in
  let buffer := put 24 (u64_le (gr_uncompressed_len r)) buffer in
  let buffer := put 32 (u64_le (gr_compressed_len r)) buffer in
  let buffer := put 40 (u32_le (gr_descriptor_len r)) buffer in
  put 44 (u32_le (gr_payload_crc32c r)) buffer.

Definition GroupRecord_decode (buffer : list byte) : Result GroupRecord :=
  if negb (bool_decide (sub 0 4 buffer = GROUP_MAGIC)) then Err InvalidMagic else
  Ok {|
    gr_version := read_u16 buffer 4;
    gr_flags := read_u16 buffer 6;
    gr_group_id := read_u64 buffer 8;
    gr_codec_chain_id := read_u32 buffer 16;
    gr_chunk_count := read_u32 buffer 20;
    gr_uncompressed_len := read_u64 buffer 24;
    gr_compressed_len := read_u64 buffer 32;
    gr_descriptor_len := read_u32 buffer 40;
    gr_payload_crc32c := read_u32 buffer 44;
  |}.

(** ** Footer *)

Record Footer := {
  ft_archive_length : N;
  ft_blake3_root : list byte;
  ft_directory_crc32c : N;
  ft_version : N;
}.

Definition Footer_wf (f : Footer) : Prop :=
  ft_archive_length f <= u64_MAX ∧ length (ft_blake3_root f) = 32%nat ∧
  ft_directory_crc32c f <= u32_MAX ∧ ft_version f <= u32_MAX.

Definition footer_crc `{Crc32c} (buffer : list byte) : N :=
  let first := crc32c (sub 0 56 buffer) in
  crc32c_append first (sub 60 4 buffer).

Definition Footer_encode `{Crc32c} (f : Footer) : list byte :=
  let buffer := zeros FOOTER_LEN in
  let buffer := put 0 FOOTER_MAGIC buffer in
  let buffer := put 4 (u64_le (ft_archive_length f)) buffer in
  let buffer := put 12 (ft_blake3_root f) buffer in
  let buffer := put 44 (u32_le (ft_directory_crc32c f)) buffer in
  let buffer := put 48 (u32_le (ft_version f)) buffer in
  let crc := footer_crc buffer in
  put 56 (u32_le crc) buffer.

Definition Footer_decode `{Crc32c} (buffer : list byte) : Result Footer :=
  if negb (bool_decide (sub 0 4 buffer = FOOTER_MAGIC)) then Err InvalidMagic else
  if negb (read_u32 buffer 56 =? footer_crc buffer) then Err ChecksumMismatch else
  Ok {|
    ft_archive_length := read_u64 buffer 4;
    ft_blake3_root := sub 12 32 buffer;
    ft_directory_crc32c := read_u32 buffer 44;
    ft_version := read_u32 buffer 48;
  |}.

(** ** Layouts

    Each encoder writes its fields at consecutive offsets: the buffer is
    the concatenation of the encoded fields. *)

Lemma GlobalHeader_encode_layout `{Crc32c} (h : GlobalHeader) :
  length (gh_archive_id h) = 16%nat →
  let body := GLOBAL_MAGIC ++ u16_le (gh_major h) ++ u16_le (gh_minor h) ++ u32_le 96 ++
    u64_le (gh_flags h) ++ gh_archive_id h ++ u64_le (gh_original_total_size h) ++
    u64_le (gh_entry_count h) ++ u64_le (gh_logical_chunk_count h) ++
    u64_le (gh_group_count h) ++ u64_le (gh_section_directory_offset h) ++
    u64_le (gh_footer_offset h) in
  let tail := u32_le (gh_section_count h) in
  length body = 88%nat ∧
  GlobalHeader_encode h = body ++ u32_le (crc32c_append (crc32c body) tail) ++ tail.
Proof.
  destruct h as [? ? ? id ? ? ? ? ? ? ?]; cbn [gh_archive_id]. intros Hid.
  explode id. by split.
Qed.

Lemma SectionDirectoryRecord_encode_layout (r : SectionDirectoryRecord) :
  SectionDirectoryRecord_encode r =
    u16_le (sd_section_type r) ++ u16_le (sd_section_version r) ++ u32_le (sd_flags r) ++
    u64_le (sd_offset r) ++ u64_le (sd_length r) ++ u32_le (sd_crc32c r) ++
    u32_le (sd_reserved r).
Proof. reflexivity. Qed.

Lemma CodecRegistryRecord_encode_layout (r : CodecRegistryRecord) :
  CodecRegistryRecord_encode r =
    u32_le (cr_chain_id r) ++ u16_le (cr_codec_id r) ++ u16_le (cr_codec_version r) ++
    u32_le (i32_bits (cr_level r)) ++ u32_le (cr_flags r).
Proof. reflexivity. Qed.

Lemma GroupRecord_encode_layout (r : GroupRecord) :
  GroupRecord_encode r =
    GROUP_MAGIC ++ u16_le (gr_version r) ++ u16_le (gr_flags r) ++ u64_le (gr_group_id r) ++
    u32_le (gr_codec_chain_id r) ++ u32_le (gr_chunk_count r) ++
    u64_le (gr_uncompressed_len r) ++ u64_le (gr_compressed_len r) ++
    u32_le (gr_descriptor_len r) ++ u32_le (gr_payload_crc32c r).
Proof. reflexivity. Qed.

Lemma Footer_encode_layout `{Crc32c} (f : Footer) :
  length (ft_blake3_root f) = 32%nat →
  let body := FOOTER_MAGIC ++ u64_le (ft_archive_length f) ++ ft_blake3_root f ++
    u32_le (ft_directory_crc32c f) ++ u32_le (ft_version f) ++ zeros 4 in
  length body = 56%nat ∧
  Footer_encode f = body ++ u32_le (crc32c_append (crc32c body) (zeros 4)) ++ zeros 4.
Proof.
  destruct f as [? root ? ?]; cbn [ft_blake3_root]. intros Hroot. explode root. by split.
Qed.

(** Reading a field back from a concatenation. *)
Lemma sub_app_here {A} (a b c : list A) o n :
  length a = o → length b = n → sub o n (a ++ b ++ c) = b.
Proof.
  intros <- <-. unfold sub. rewrite drop_app_length. apply take_app_length.
Qed.

Lemma sub_app_skip {A} (a b : list A) o n :
  (length a <= o)%nat → sub o n (a ++ b) = sub (o - length a) n b.
Proof. intros. unfold sub. by rewrite drop_app_ge. Qed.

Lemma sub_app_fst {A} (a b : list A) n : length a = n → sub 0 n (a ++ b) = a.
Proof. intros <-. unfold sub. simpl. apply take_app_length. Qed.

(** Split a buffer of known length into the fields at the given widths. *)
Ltac split_fields buf ws :=
  lazymatch ws with
  | ?w :: ?ws =>
      lazymatch ws with
      | [] => idtac
      | _ => rewrite sub_split; split_fields buf ws
      end
  end.

Lemma u16_le_read buf o : (o + 2 <= length buf)%nat → u16_le (read_u16 buf o) = sub o 2 buf.
Proof. intros. apply le_split_combine', length_sub. lia. Qed.
Lemma u32_le_read buf o : (o + 4 <= length buf)%nat → u32_le (read_u32 buf o) = sub o 4 buf.
Proof. intros. apply le_split_combine', length_sub. lia. Qed.
Lemma u64_le_read buf o : (o + 8 <= length buf)%nat → u64_le (read_u64 buf o) = sub o 8 buf.
Proof. intros. apply le_split_combine', length_sub. lia. Qed.

Lemma read_bound {A} o n (buf : list byte) (f : N → A) :
  le_combine (sub o n buf) < 256 ^ N.of_nat n.
Proof.
  eapply N.lt_le_trans; [apply le_combine_bound|]. apply N.pow_le_mono_r; [done|].
  unfold len, sub. rewrite length_take. lia.
Qed.

Lemma read_u16_bound buf o : read_u16 buf o <= u16_MAX.
Proof. pose proof (read_bound o 2 buf id) as H. change (256 ^ N.of_nat 2) with 65536 in H. unfold read_u16. lia. Qed.
Lemma read_u32_bound buf o : read_u32 buf o <= u32_MAX.
Proof. pose proof (read_bound o 4 buf id) as H. change (256 ^ N.of_nat 4) with 4294967296 in H. unfold read_u32. lia. Qed.
Lemma read_u64_bound buf o : read_u64 buf o <= u64_MAX.
Proof. pose proof (read_bound o 8 buf id) as H. change (256 ^ N.of_nat 8) with 18446744073709551616 in H. unfold read_u64. lia. Qed.

Lemma read_u16_le x : x <= u16_MAX → le_combine (u16_le x) = x.
Proof. intros. apply le_combine_split. change (256 ^ N.of_nat 2) with 65536. lia. Qed.
Lemma read_u32_le x : x <= u32_MAX → le_combine (u32_le x) = x.
Proof. intros. apply le_combine_split. change (256 ^ N.of_nat 4) with 4294967296. lia. Qed.
Lemma read_u64_le x : x <= u64_MAX → le_combine (u64_le x) = x.
Proof. intros. apply le_combine_split. change (256 ^ N.of_nat 8) with 18446744073709551616. lia. Qed.
#[export] Hint Resolve read_u16_bound read_u32_bound read_u64_bound : pithos.

(** ** Decoders are inverse to encoders *)

Section header.
Context `{Crc : Crc32c} {CrcL : Crc32cLaws}.

(** The header versions this decoder accepts. *)
Definition header_version_ok (h : GlobalHeader) : bool :=
  (gh_major h =? MAJOR_VERSION) && (gh_minor h <=? MINOR_VERSION).

Lemma GlobalHeader_encode_length h :
  GlobalHeader_wf h → length (GlobalHeader_encode h) = HEADER_LEN.
Proof.
  intros (? & ? & ? & Hid & _). destruct (GlobalHeader_encode_layout h Hid) as [Hl ->].
  rewrite length_app, Hl. reflexivity.
Qed.

Lemma GlobalHeader_decode_encode_aux h :
  GlobalHeader_wf h → header_version_ok h = true →
  GlobalHeader_decode (GlobalHeader_encode h) = Ok h.
Proof.
  intros (H1 & H2 & H3 & Hid & H4 & H5 & H6 & H7 & H8 & H9 & H10) Hv.
  unfold header_version_ok in Hv. invres.
  destruct h as [ma mi fl id ts ec lc gc so fo sc];
    cbn [gh_major gh_minor gh_flags gh_archive_id gh_original_total_size gh_entry_count
      gh_logical_chunk_count gh_group_count gh_section_directory_offset gh_footer_offset
      gh_section_count] in *.
  explode id.
  unfold GlobalHeader_decode. set (enc := GlobalHeader_encode _).
  change (sub 0 8 enc) with GLOBAL_MAGIC. rewrite bool_decide_eq_true_2 by done.
  change (read_u32 enc 88) with (le_combine (u32_le (header_crc enc))).
  rewrite read_u32_le by apply crc32c_append_u32. rewrite N.eqb_refl.
  change (read_u32 enc 12 =? N.of_nat HEADER_LEN) with true.
  change (read_u16 enc 8) with (le_combine (u16_le ma)).
  change (read_u16 enc 10) with (le_combine (u16_le mi)).
  change (read_u64 enc 16) with (le_combine (u64_le fl)).
  change (read_u64 enc 40) with (le_combine (u64_le ts)).
  change (read_u64 enc 48) with (le_combine (u64_le ec)).
  change (read_u64 enc 56) with (le_combine (u64_le lc)).
  change (read_u64 enc 64) with (le_combine (u64_le gc)).
  change (read_u64 enc 72) with (le_combine (u64_le so)).
  change (read_u64 enc 80) with (le_combine (u64_le fo)).
  change (read_u32 enc 92) with (le_combine (u32_le sc)).
  rewrite !read_u16_le, !read_u64_le, !read_u32_le by done.
  destruct (N.eqb_spec ma MAJOR_VERSION); [|done].
  destruct (N.ltb_spec MINOR_VERSION mi); [lia|]. done.
Qed.

Lemma GlobalHeader_encode_decode_aux b h :
  length b = HEADER_LEN → GlobalHeader_decode b = Ok h →
  b = GlobalHeader_encode h ∧ GlobalHeader_wf h ∧ header_version_ok h = true.
Proof.
  unfold HEADER_LEN. intros Hb Hd. unfold GlobalHeader_decode in Hd. cbv zeta in Hd. invres.
  assert (Hid : length (sub 24 16 b) = 16%nat) by (apply length_sub; lia).
  split_and!.
  - match goal with |- b = GlobalHeader_encode ?h =>
      destruct (GlobalHeader_encode_layout h Hid) as [_ ->] end.
    cbn [gh_major gh_minor gh_flags gh_archive_id gh_original_total_size gh_entry_count
      gh_logical_chunk_count gh_group_count gh_section_directory_offset gh_footer_offset
      gh_section_count].
    assert (H12 : u32_le 96 = sub 12 4 b).
    { rewrite <-u32_le_read by lia. f_equal. unfold HEADER_LEN in *. lia. }
    rewrite !u16_le_read, !u64_le_read, u32_le_read, H12 by lia.
    assert (Hbody : sub 0 88 b = GLOBAL_MAGIC ++ sub 8 2 b ++ sub 10 2 b ++ sub 12 4 b ++
      sub 16 8 b ++ sub 24 16 b ++ sub 40 8 b ++ sub 48 8 b ++ sub 56 8 b ++ sub 64 8 b ++
      sub 72 8 b ++ sub 80 8 b).
    { change 88%nat with (8+(2+(2+(4+(8+(16+(8+(8+(8+(8+(8+8)))))))))))%nat.
      rewrite !sub_split. simpl Nat.add. congruence. }
    rewrite <-Hbody.
    match goal with Hc : read_u32 b 88 = _ |- _ => unfold header_crc in Hc; rewrite <-Hc end.
    rewrite u32_le_read by lia.
    rewrite <-(sub_all 96 b Hb) at 1. change 96%nat with (88+(4+4))%nat.
    by rewrite !sub_split.
  - repeat split; cbn; auto with pithos.
  - unfold header_version_ok; cbn. apply andb_true_iff. split; [by apply N.eqb_eq|by apply N.leb_le].
Qed.
End header.

(** The header codec is a bijection. Decoding an array of 96 bytes
    accepts exactly the encodings of the well-formed headers of a supported
    version, and returns the encoded header: no other byte string is
    accepted, and no header field is lost. *)
Theorem GlobalHeader_decode_iff `{Crc : Crc32c} (L : Crc32cLaws) (b : list byte) (h : GlobalHeader)
    (Hlen : length b = HEADER_LEN) :
  GlobalHeader_decode b = Ok h ↔
  b = GlobalHeader_encode h ∧ GlobalHeader_wf h ∧ header_version_ok h = true.
Proof.
  split; [by apply GlobalHeader_encode_decode_aux|].
  intros (-> & Hwf & Hv). by apply GlobalHeader_decode_encode_aux.
Qed.

(** *** Codec registry *)

#[local] Arguments CodecRegistryRecord_decode : simpl never.
#[local] Arguments CodecRegistryRecord_encode : simpl never.

Lemma CodecRegistryRecord_decode_encode r :
  CodecRegistryRecord_wf r → CodecRegistryRecord_decode (CodecRegistryRecord_encode r) = r.
Proof.
  intros (H1 & H2 & H3 & H4 & H5). rewrite CodecRegistryRecord_encode_layout.
  destruct r as [ci co cv lv fl]; cbn [cr_chain_id cr_codec_id cr_codec_version cr_level cr_flags] in *.
  unfold CodecRegistryRecord_decode.
  set (b := u32_le ci ++ _).
  change (read_u32 b 0) with (le_combine (u32_le ci)).
  change (read_u16 b 4) with (le_combine (u16_le co)).
  change (read_u16 b 6) with (le_combine (u16_le cv)).
  change (read_i32 b 8) with (i32_of_bits (le_combine (u32_le (i32_bits lv)))).
  change (read_u32 b 12) with (le_combine (u32_le fl)).
  rewrite !read_u16_le, !read_u32_le, i32_of_bits_bits; auto.
  pose proof (i32_bits_bound lv). lia.
Qed.

Lemma CodecRegistryRecord_encode_decode c :
  length c = CODEC_REGISTRY_RECORD_LEN →
  CodecRegistryRecord_encode (CodecRegistryRecord_decode c) = c.
Proof.
  unfold CODEC_REGISTRY_RECORD_LEN. intros Hc. rewrite CodecRegistryRecord_encode_layout.
  unfold CodecRegistryRecord_decode.
  cbn [cr_chain_id cr_codec_id cr_codec_version cr_level cr_flags].
  unfold read_i32. rewrite i32_bits_of_bits.
  2: { pose proof (read_u32_bound c 8). unfold read_u32 in *. lia. }
  change (le_combine (sub 8 4 c)) with (read_u32 c 8).
  rewrite !u32_le_read, !u16_le_read by lia.
  rewrite <-(sub_all 16 c Hc) at 6. change 16%nat with (4+(2+(2+(4+4))))%nat.
  by rewrite !sub_split.
Qed.

Lemma CodecRegistryRecord_decode_wf c : CodecRegistryRecord_wf (CodecRegistryRecord_decode c).
Proof.
  unfold CodecRegistryRecord_decode.
  repeat split; cbn; auto with pithos; unfold read_i32, i32_of_bits;
    pose proof (read_u32_bound c 8) as H; unfold read_u32 in H;
    destruct (N.ltb_spec (le_combine (sub 8 4 c)) (2 ^ 31)); lia.
Qed.

Lemma CodecRegistryRecord_encode_length r :
  length (CodecRegistryRecord_encode r) = CODEC_REGISTRY_RECORD_LEN.
Proof. reflexivity. Qed.

(** The chain identifiers are usable: non-zero, distinct and outside [seen]. *)
Definition chain_ids_fresh (seen : gset N) (rs : CodecRegistry) : Prop :=
  NoDup (cr_chain_id <$> rs) ∧
  Forall (λ r, cr_chain_id r ≠ 0 ∧ cr_chain_id r ∉ seen) rs.

Lemma chain_ids_fresh_cons seen r rs :
  chain_ids_fresh seen (r :: rs) ↔
  cr_chain_id r ≠ 0 ∧ cr_chain_id r ∉ seen ∧ chain_ids_fresh ({[cr_chain_id r]} ∪ seen) rs.
Proof.
  unfold chain_ids_fresh. rewrite fmap_cons, NoDup_cons, Forall_cons, !Forall_forall.
  rewrite list_elem_of_fmap. set_solver.
Qed.

Lemma CodecRegistry_encode_loop (rs : CodecRegistry) (seen : gset N) (out : list byte) st :
  try_fold CodecRegistry_encode_record
    (seen, out) rs = Ok st →
  chain_ids_fresh seen rs ∧ st.2 = out ++ concat (CodecRegistryRecord_encode <$> rs).
Proof.
  revert seen out; induction rs as [|r rs IH]; intros seen out Hst; simpl in Hst.
  - invres. split; [by repeat constructor|]. by rewrite app_nil_r.
  - invres. apply IH in Hst as [Hf ->]. split; [by apply chain_ids_fresh_cons|].
    by rewrite fmap_cons, <-app_assoc.
Qed.

Lemma CodecRegistry_encode_loop_ok (rs : CodecRegistry) (seen : gset N) (out : list byte) :
  chain_ids_fresh seen rs → ∃ ids,
  try_fold CodecRegistry_encode_record
    (seen, out) rs = Ok (ids, out ++ concat (CodecRegistryRecord_encode <$> rs)).
Proof.
  revert seen out; induction rs as [|r rs IH]; intros seen out Hf; simpl.
  - exists seen. by rewrite app_nil_r.
  - apply chain_ids_fresh_cons in Hf as (H0 & Hs & Hf).
    rewrite (proj2 (N.eqb_neq _ _) H0), bool_decide_eq_false_2 by done. simpl.
    destruct (IH _ (out ++ CodecRegistryRecord_encode r) Hf) as [ids Hids].
    exists ids. by rewrite Hids, <-app_assoc.
Qed.

Lemma CodecRegistry_decode_loop (cs : list (list byte)) (seen : gset N) recs st :
  try_fold CodecRegistry_decode_record (seen, recs) cs = Ok st →
  let rs := CodecRegistryRecord_decode <$> cs in
  chain_ids_fresh seen rs ∧ st.2 = recs ++ rs ∧
  Forall (λ r, CodecRegistryRecord_validate_for_decode r = Ok tt) rs.
Proof.
  revert seen recs; induction cs as [|c cs IH]; intros seen recs Hst; cbn [try_fold] in Hst |- *.
  - invres. split_and!; [by repeat constructor|by rewrite app_nil_r|constructor].
  - apply bind_Ok in Hst as ([seen' recs'] & Hc & Hst).
    unfold CodecRegistry_decode_record in Hc.
    apply bind_Ok in Hc as ([] & Hv & Hc). invres. apply IH in Hst as (Hf & -> & Hvs).
    split_and!.
    + apply chain_ids_fresh_cons. split_and!; [|done|done].
      unfold CodecRegistryRecord_validate_for_decode in Hv. by invres.
    + by rewrite fmap_cons, <-app_assoc.
    + by constructor.
Qed.

Lemma CodecRegistry_decode_loop_ok (cs : list (list byte)) (seen : gset N) recs :
  let rs := CodecRegistryRecord_decode <$> cs in
  chain_ids_fresh seen rs →
  Forall (λ r, CodecRegistryRecord_validate_for_decode r = Ok tt) rs → ∃ ids,
  try_fold CodecRegistry_decode_record (seen, recs) cs =
  Ok (ids, recs ++ rs).
Proof.
  cbv zeta. revert seen recs; induction cs as [|c cs IH]; intros seen recs Hf Hv; cbn [try_fold].
  - exists seen. by rewrite app_nil_r.
  - rewrite fmap_cons in Hf, Hv. apply chain_ids_fresh_cons in Hf as (H0 & Hs & Hf).
    apply Forall_cons in Hv as [Hv Hvs].
    assert (CodecRegistry_decode_record (seen, recs) c =
      Ok ({[cr_chain_id (CodecRegistryRecord_decode c)]} ∪ seen,
          recs ++ [CodecRegistryRecord_decode c])) as ->.
    { unfold CodecRegistry_decode_record. rewrite Hv. simpl.
      by rewrite bool_decide_eq_false_2. }
    cbn [mbind result_bind].
    destruct (IH _ (recs ++ [CodecRegistryRecord_decode c]) Hf Hvs) as [ids Hids].
    exists ids. by rewrite Hids, fmap_cons, <-app_assoc.
Qed.

Lemma CodecRegistry_encode_Ok rs b :
  CodecRegistry_encode rs = Ok b ↔
  len rs <= u32_MAX ∧ chain_ids_fresh ∅ rs ∧
  b = u32_le (len rs) ++ concat (CodecRegistryRecord_encode <$> rs).
Proof.
  unfold CodecRegistry_encode. split.
  - intros H. invres.
    match goal with Hst : try_fold _ _ _ = _ |- _ =>
      apply CodecRegistry_encode_loop in Hst as [Hf Hout] end. simpl in Hout. by subst.
  - intros (Hl & Hf & ->).
    destruct (CodecRegistry_encode_loop_ok rs ∅ (u32_le (len rs)) Hf) as [ids Hids].
    rewrite u32_try_from_ok by done. cbn [ok_or mbind result_bind].
    rewrite checked_mul_ok by (unfold CODEC_REGISTRY_RECORD_LEN; lia). cbn [ok_or mbind result_bind].
    rewrite checked_add_ok by (unfold CODEC_REGISTRY_RECORD_LEN; lia). cbn [ok_or mbind result_bind].
    by rewrite Hids.
Qed.

Definition CodecRegistry_wf (rs : CodecRegistry) : Prop := Forall CodecRegistryRecord_wf rs.

Lemma CodecRegistry_decode_sound b max_records rs :
  CodecRegistry_decode b max_records = Ok rs →
  CodecRegistry_encode rs = Ok b ∧ CodecRegistry_wf rs ∧ len rs <= max_records ∧
  Forall (λ r, CodecRegistryRecord_validate_for_decode r = Ok tt) rs.
Proof.
  rewrite CodecRegistry_encode_Ok. unfold CodecRegistry_decode, CODEC_REGISTRY_RECORD_LEN.
  intros H. invres.
  match goal with Hst : try_fold _ _ _ = _ |- _ =>
    apply CodecRegistry_decode_loop in Hst as (Hf & Hrecs & Hv) end. simpl in Hrecs. subst.
  pose proof (read_u32_bound b 0) as Hc. unfold len in *.
  destruct (concat_chunks_exact_fuel (length (drop 4 b)) 16 (N.to_nat (read_u32 b 0))
    (drop 4 b)) as [E1 E2]; [lia..|rewrite length_drop; lia|].
  fold (chunks_exact 16 (drop 4 b)) in E1, E2.
  assert (Hl : length (CodecRegistryRecord_decode <$> chunks_exact 16 (drop 4 b)) =
    N.to_nat (read_u32 b 0)) by (by rewrite length_fmap).
  rewrite Hl, N2Nat.id. split; [split; [lia|split; [done|]]|split; [|by split]].
  - rewrite <-list_fmap_compose.
    rewrite (list_fmap_ext _ id).
    2: { intros i c Hi. simpl. apply CodecRegistryRecord_encode_decode.
         eapply (Forall_lookup_1 _ _ _ _ (chunks_exact_fuel_length _ 16 (drop 4 b))). done. }
    rewrite list_fmap_id, E1. rewrite u32_le_read by lia. unfold sub. simpl drop.
    by rewrite take_drop.
  - apply Forall_fmap, Forall_true. intros c. apply CodecRegistryRecord_decode_wf.
Qed.

Lemma CodecRegistry_decode_complete b max_records rs :
  CodecRegistry_encode rs = Ok b ∧ CodecRegistry_wf rs ∧ len rs <= max_records ∧
  Forall (λ r, CodecRegistryRecord_validate_for_decode r = Ok tt) rs →
  CodecRegistry_decode b max_records = Ok rs.
Proof.
  rewrite CodecRegistry_encode_Ok. unfold CodecRegistry_decode, CODEC_REGISTRY_RECORD_LEN.
  intros ((Hl & Hf & ->) & Hwf & Hmax & Hv).
  set (body := concat _).
  assert (Hbody : length body = (length rs * 16)%nat).
  { unfold body. clear. induction rs as [|r rs IH]; [done|].
    rewrite fmap_cons. cbn [concat]. rewrite length_app, IH, CodecRegistryRecord_encode_length.
    unfold CODEC_REGISTRY_RECORD_LEN. simpl. lia. }
  assert (Hread : read_u32 (u32_le (len rs) ++ body) 0 = len rs).
  { unfold read_u32. rewrite sub_app_fst by apply length_le_split. by apply read_u32_le. }
  rewrite Hread, len_app.
  assert (len (u32_le (len rs)) = 4) as -> by (unfold len; by rewrite length_u32_le).
  destruct (N.ltb_spec (4 + len body) 4); [lia|].
  destruct (N.ltb_spec max_records (len rs)); [lia|].
  rewrite usize_try_from_ok by lia. cbn [ok_or mbind result_bind].
  rewrite checked_mul_ok by lia. cbn [ok_or mbind result_bind].
  rewrite checked_add_ok by lia. cbn [ok_or mbind result_bind].
  replace (4 + len body =? 4 + len rs * N.of_nat 16) with true
    by (symmetry; apply N.eqb_eq; unfold len; lia). simpl negb. cbv iota.
  assert (Hchunks : chunks_exact 16 (drop 4 (u32_le (len rs) ++ body)) =
    CodecRegistryRecord_encode <$> rs).
  { rewrite drop_app_length' by (by rewrite length_u32_le).
    apply chunks_exact_concat; [lia|]. by apply Forall_fmap, Forall_true. }
  rewrite Hchunks.
  assert (Hdec : CodecRegistryRecord_decode <$> (CodecRegistryRecord_encode <$> rs) = rs).
  { rewrite <-list_fmap_compose. rewrite <-(list_fmap_id rs) at 2. apply list_fmap_ext.
    intros i r Hi. apply CodecRegistryRecord_decode_encode. by eapply Forall_lookup_1. }
  pose proof (CodecRegistry_decode_loop_ok (CodecRegistryRecord_encode <$> rs) ∅ []) as Hok.
  cbv zeta in Hok. rewrite Hdec in Hok. by destruct (Hok Hf Hv) as [ids ->].
Qed.

(** The codec registry codec is a bijection. [decode] accepts exactly
    the encodings of the registries whose records pass validation and number
    at most [max_records]; [encode] itself guarantees that chain identifiers
    are non-zero and distinct. *)
Theorem CodecRegistry_decode_iff (b : list byte) (max_records : N) (rs : CodecRegistry) :
  CodecRegistry_decode b max_records = Ok rs ↔
  CodecRegistry_encode rs = Ok b ∧ CodecRegistry_wf rs ∧ len rs <= max_records ∧
  Forall (λ r, CodecRegistryRecord_validate_for_decode r = Ok tt) rs.
Proof. split; [apply CodecRegistry_decode_sound|apply CodecRegistry_decode_complete]. Qed.

(** *** Group records, directory records and footer *)

Lemma SectionDirectoryRecord_decode_encode r :
  SectionDirectoryRecord_wf r →
  SectionDirectoryRecord_decode (SectionDirectoryRecord_encode r) = r.
Proof.
  intros (H1 & H2 & H3 & H4 & H5 & H6 & H7).
  destruct r as [ty ve fl os le cr re];
    cbn [sd_section_type sd_section_version sd_flags sd_offset sd_length sd_crc32c sd_reserved] in *.
  unfold SectionDirectoryRecord_decode. set (b := SectionDirectoryRecord_encode _).
  change (read_u16 b 0) with (le_combine (u16_le ty)).
  change (read_u16 b 2) with (le_combine (u16_le ve)).
  change (read_u32 b 4) with (le_combine (u32_le fl)).
  change (read_u64 b 8) with (le_combine (u64_le os)).
  change (read_u64 b 16) with (le_combine (u64_le le)).
  change (read_u32 b 24) with (le_combine (u32_le cr)).
  change (read_u32 b 28) with (le_combine (u32_le re)).
  by rewrite !read_u16_le, !read_u32_le, !read_u64_le.
Qed.

Lemma GroupRecord_decode_encode r :
  GroupRecord_wf r → GroupRecord_decode (GroupRecord_encode r) = Ok r.
Proof.
  intros (H1 & H2 & H3 & H4 & H5 & H6 & H7 & H8 & H9).
  destruct r as [ve fl gi ci cc ul cl dl pc];
    cbn [gr_version gr_flags gr_group_id gr_codec_chain_id gr_chunk_count gr_uncompressed_len
      gr_compressed_len gr_descriptor_len gr_payload_crc32c] in *.
  unfold GroupRecord_decode. set (b := GroupRecord_encode _).
  change (sub 0 4 b) with GROUP_MAGIC. rewrite bool_decide_eq_true_2 by done.
  change (read_u16 b 4) with (le_combine (u16_le ve)).
  change (read_u16 b 6) with (le_combine (u16_le fl)).
  change (read_u64 b 8) with (le_combine (u64_le gi)).
  change (read_u32 b 16) with (le_combine (u32_le ci)).
  change (read_u32 b 20) with (le_combine (u32_le cc)).
  change (read_u64 b 24) with (le_combine (u64_le ul)).
  change (read_u64 b 32) with (le_combine (u64_le cl)).
  change (read_u32 b 40) with (le_combine (u32_le dl)).
  change (read_u32 b 44) with (le_combine (u32_le pc)).
  by rewrite !read_u16_le, !read_u32_le, !read_u64_le.
Qed.

(** The group record codec is a bijection between the well-formed
    records and the 48-byte arrays that carry the group magic. *)
Theorem GroupRecord_decode_iff (b : list byte) (r : GroupRecord)
    (Hlen : length b = GROUP_RECORD_LEN) :
  GroupRecord_decode b = Ok r ↔ b = GroupRecord_encode r ∧ GroupRecord_wf r.
Proof.
  split; [|intros [-> ?]; by apply GroupRecord_decode_encode].
  unfold GROUP_RECORD_LEN in Hlen. intros Hd. unfold GroupRecord_decode in Hd. invres. split.
  - rewrite GroupRecord_encode_layout.
    cbn [gr_version gr_flags gr_group_id gr_codec_chain_id gr_chunk_count gr_uncompressed_len
      gr_compressed_len gr_descriptor_len gr_payload_crc32c].
    rewrite !u16_le_read, !u32_le_read, !u64_le_read by lia.
    rewrite <-(sub_all 48 b Hlen) at 1.
    change 48%nat with (4+(2+(2+(8+(4+(4+(8+(8+(4+4)))))))))%nat. rewrite !sub_split.
    simpl Nat.add. congruence.
  - repeat split; cbn; auto with pithos.
Qed.

(** The bytes of a footer with given reserved fields (offsets 52 and 60). *)
Definition footer_bytes `{Crc32c} (f : Footer) (reserved1 reserved2 : list byte) : list byte :=
  let body := FOOTER_MAGIC ++ u64_le (ft_archive_length f) ++ ft_blake3_root f ++
    u32_le (ft_directory_crc32c f) ++ u32_le (ft_version f) ++ reserved1 in
  body ++ u32_le (crc32c_append (crc32c body) reserved2) ++ reserved2.

Section footer.
Context `{Crc : Crc32c} {CrcL : Crc32cLaws}.

Lemma Footer_decode_bytes f r1 r2 :
  Footer_wf f → length r1 = 4%nat → length r2 = 4%nat →
  Footer_decode (footer_bytes f r1 r2) = Ok f.
Proof.
  intros (H1 & Hroot & H2 & H3) Hr1 Hr2.
  destruct f as [al root dc ve];
    cbn [ft_archive_length ft_blake3_root ft_directory_crc32c ft_version] in *.
  explode root. explode r1. explode r2. unfold Footer_decode.
  set (enc := footer_bytes _ _ _).
  change (sub 0 4 enc) with FOOTER_MAGIC. rewrite bool_decide_eq_true_2 by done.
  change (read_u32 enc 56) with (le_combine (u32_le (footer_crc enc))).
  rewrite read_u32_le by apply crc32c_append_u32. rewrite N.eqb_refl.
  change (read_u64 enc 4) with (le_combine (u64_le al)).
  change (read_u32 enc 44) with (le_combine (u32_le dc)).
  change (read_u32 enc 48) with (le_combine (u32_le ve)).
  by rewrite read_u64_le, !read_u32_le.
Qed.

Lemma Footer_decode_Ok b f :
  length b = FOOTER_LEN → Footer_decode b = Ok f →
  Footer_wf f ∧ b = footer_bytes f (sub 52 4 b) (sub 60 4 b).
Proof.
  unfold FOOTER_LEN. intros Hb Hd. unfold Footer_decode in Hd. invres. split.
  - repeat split; cbn; auto with pithos. by rewrite length_sub by lia.
  - unfold footer_bytes.
    cbn [ft_archive_length ft_blake3_root ft_directory_crc32c ft_version].
    rewrite u64_le_read, !u32_le_read by lia. cbv zeta.
    assert (Hbody : sub 0 56 b = FOOTER_MAGIC ++ sub 4 8 b ++ sub 12 32 b ++ sub 44 4 b ++
      sub 48 4 b ++ sub 52 4 b).
    { change 56%nat with (4+(8+(32+(4+(4+4)))))%nat. rewrite !sub_split. simpl Nat.add.
      congruence. }
    rewrite <-Hbody.
    match goal with Hc : read_u32 b 56 = _ |- _ => unfold footer_crc in Hc; rewrite <-Hc end.
    rewrite u32_le_read by lia. rewrite <-(sub_all 64 b Hb) at 1.
    change 64%nat with (56+(4+4))%nat. by rewrite !sub_split.
Qed.
End footer.

(** The footer decoder accepts exactly the layouts of the well-formed
    footers: magic, fields, and a checksum over everything else. The two
    reserved fields are covered by the checksum but not forced to be zero;
    [encode] writes them as zeros, so what it writes decodes to the same
    footer. *)
Theorem Footer_decode_iff `{Crc : Crc32c} (L : Crc32cLaws) (b : list byte) (f : Footer)
    (Hlen : length b = FOOTER_LEN) :
  (Footer_decode b = Ok f ↔
   Footer_wf f ∧ ∃ r1 r2, length r1 = 4%nat ∧ length r2 = 4%nat ∧ b = footer_bytes f r1 r2) ∧
  (Footer_wf f → Footer_decode (Footer_encode f) = Ok f).
Proof.
  split; [split|].
  - intros Hd. destruct (Footer_decode_Ok b f Hlen Hd) as [Hwf Hb]. split; [done|].
    unfold FOOTER_LEN in Hlen. exists (sub 52 4 b), (sub 60 4 b).
    split; [apply length_sub; lia|]. split; [apply length_sub; lia|done].
  - intros (Hwf & r1 & r2 & H1 & H2 & ->). by apply Footer_decode_bytes.
  - intros Hwf. destruct (Footer_encode_layout f) as [_ ->]; [by destruct Hwf as (_ & ? & _)|].
    by apply (Footer_decode_bytes f (zeros 4) (zeros 4)).
Qed.

(** ** Examples and witnesses *)

Definition sample_header : GlobalHeader :=
  let h := GlobalHeader_new (replicate 16 (byte_of 7)) in
  {| gh_major := gh_major h; gh_minor := gh_minor h; gh_flags := gh_flags h;
     gh_archive_id := gh_archive_id h; gh_original_total_size := 1234;
     gh_entry_count := 42; gh_logical_chunk_count := 41; gh_group_count := 3;
     gh_section_directory_offset := gh_section_directory_offset h;
     gh_footer_offset := 4096; gh_section_count := gh_section_count h |}.

Lemma GlobalHeader_decode_iff_witness :
  let crc := crc32c_castagnoli in
  length (GlobalHeader_encode sample_header) = HEADER_LEN ∧
  GlobalHeader_decode (GlobalHeader_encode sample_header) = Ok sample_header.
Proof.
  intros crc. assert (Hl : length (GlobalHeader_encode sample_header) = HEADER_LEN) by reflexivity.
  split; [exact Hl|].
  apply (GlobalHeader_decode_iff crc32c_castagnoli_laws _ _ Hl).
  split; [reflexivity|]. split; [|reflexivity]. repeat split; by vm_compute.
Defined.

Lemma GroupRecord_decode_iff_witness :
  let r := {| gr_version := 1; gr_flags := 0; gr_group_id := 5; gr_codec_chain_id := 2;
    gr_chunk_count := 3; gr_uncompressed_len := 70000; gr_compressed_len := 300;
    gr_descriptor_len := 0; gr_payload_crc32c := 99 |} in
  length (GroupRecord_encode r) = GROUP_RECORD_LEN ∧
  GroupRecord_decode (GroupRecord_encode r) = Ok r.
Proof.
  intros r. assert (Hl : length (GroupRecord_encode r) = GROUP_RECORD_LEN) by reflexivity.
  split; [exact Hl|]. apply (GroupRecord_decode_iff _ _ Hl).
  split; [reflexivity|]. repeat split; by vm_compute.
Defined.

Lemma Footer_decode_iff_witness :
  let crc := crc32c_castagnoli in
  let f := {| ft_archive_length := 64; ft_blake3_root := replicate 32 (byte_of 9);
    ft_directory_crc32c := 7; ft_version := 1 |} in
  Footer_decode (Footer_encode f) = Ok f.
Proof.
  intros crc f. assert (Hl : length (Footer_encode f) = FOOTER_LEN) by reflexivity.
  apply (proj2 (Footer_decode_iff crc32c_castagnoli_laws (Footer_encode f) f Hl)).
  repeat split; by vm_compute.
Defined.

(** A corrupted byte is rejected. *)
Example header_corruption :
  let crc := crc32c_castagnoli in
  GlobalHeader_decode (<[92%nat := byte_of 7]> (GlobalHeader_encode sample_header)) =
    Err ChecksumMismatch.
Proof. vm_compute. reflexivity. Qed.
