(* ===== verification/Planner.v ===== *)
(** * Solid-group planning and candidate costs ([crates/pithos-planner/src/lib.rs])

    The partition of the ordered files into solid groups, and the cost by
    which the engine compares encodings of a group. *)

From S2P Require Import Prelude Core.

Definition MIB : N := 1024 * 1024.

Record SolidGroupPlan := SolidGroupPlan_new {
  sg_first_item : N;
  sg_item_count : N;
  sg_uncompressed_len : N;
}.

Definition solid_group_target (profile : CompressionProfile) : N :=
  match profile with
  | Raw => 0
  | Stream => 4 * MIB
  | Random => 8 * MIB
  | Balanced => 64 * MIB
  | ArchiveMax => 512 * MIB
  end.

(** The body of the loop: [groups] are closed, [current] is being filled. *)
Definition plan_step (target : N) (st : list SolidGroupPlan * option SolidGroupPlan)
    (item : N * N) : Result (list SolidGroupPlan * option SolidGroupPlan) :=
  let '(groups, current) := st in
  let '(index, length) := item in
  match current with
  | Some group =>
      combined ← ok_or IntegerOverflow (checked_add (sg_uncompressed_len group) length);
      if combined <=? target then
        item_count ← ok_or IntegerOverflow (checked_add (sg_item_count group) 1);
        Ok (groups, Some (SolidGroupPlan_new (sg_first_item group) item_count combined))
      else Ok (groups ++ [group], Some (SolidGroupPlan_new index 1 length))
  | None => Ok (groups, Some (SolidGroupPlan_new index 1 length))
  end.

Definition plan_solid_groups (profile : CompressionProfile) (lengths : list N) :
    Result (list SolidGroupPlan) :=
  if bool_decide (profile = Raw) then
    Ok (map (λ '(index, length), SolidGroupPlan_new index 1 length) (enumerate lengths))
  else
    let target := solid_group_target profile in
    '(groups, current) ← try_fold (plan_step target) ([], None) (enumerate lengths);
    Ok (match current with Some group => groups ++ [group] | None => groups end).

Record CandidateCost := {
  cc_payload : N;
  cc_codec_descriptor : N;
  cc_group_descriptor : N;
  cc_index_delta : N;
  cc_integrity : N;
  cc_padding : N;
}.

Definition CandidateCost_total (c : CandidateCost) : Result N :=
  try_fold (λ total value, ok_or IntegerOverflow (checked_add total value)) 0
    [cc_payload c; cc_codec_descriptor c; cc_group_descriptor c;
     cc_index_delta c; cc_integrity c; cc_padding c].

(** ** Specification of a plan *)

(** [groups] cut [lengths], whose first item has index [start], into
    consecutive non-empty runs and record the total length of each run. *)
Inductive tiles : N → list SolidGroupPlan → list N → Prop :=
  | tiles_nil start : tiles start [] []
  | tiles_cons start run groups lengths :
      run ≠ [] → tiles (start + len run) groups lengths →
      tiles start (SolidGroupPlan_new start (len run) (sum run) :: groups) (run ++ lengths).

(** A group respects the target, or it is one unsplit item. *)
Definition group_fits (target : N) (g : SolidGroupPlan) : Prop :=
  sg_uncompressed_len g <= target ∨ sg_item_count g = 1.

(** No group could have taken the first item of the next one. *)
Definition groups_maximal (target : N) (lengths : list N) (groups : list SolidGroupPlan) : Prop :=
  ∀ i g1 g2 n, groups !! i = Some g1 → groups !! S i = Some g2 →
    lengths !! N.to_nat (sg_first_item g2) = Some n → target < sg_uncompressed_len g1 + n.

Lemma tiles_snoc start groups lengths run :
  tiles start groups lengths → run ≠ [] →
  tiles start (groups ++ [SolidGroupPlan_new (start + len lengths) (len run) (sum run)])
    (lengths ++ run).
Proof.
  induction 1 as [start|start run' groups lengths Hne Ht IH]; intros Hrun; simpl.
  - rewrite len_nil, N.add_0_r. rewrite <-(app_nil_r run) at 3. by constructor; [|constructor].
  - rewrite <-app_assoc. constructor; [done|].
    rewrite len_app, N.add_assoc. by apply IH.
Qed.

(** The state of the loop after the items [done], whose open run is [run]. *)
Definition plan_inv (target : N) (dn : list N) (st : list SolidGroupPlan * option SolidGroupPlan) :
    Prop :=
  match st.2 with
  | None => dn = [] ∧ st.1 = []
  | Some g => ∃ closed run, dn = closed ++ run ∧ run ≠ [] ∧ tiles 0 st.1 closed ∧
      g = SolidGroupPlan_new (len closed) (len run) (sum run) ∧
      group_fits target g ∧ Forall (group_fits target) st.1 ∧
      groups_maximal target dn (st.1 ++ [g])
  end.

Lemma tiles_lookup start groups lengths i g :
  tiles start groups lengths → groups !! i = Some g →
  ∃ pre run post, lengths = pre ++ run ++ post ∧ run ≠ [] ∧ sg_first_item g = start + len pre ∧
    sg_item_count g = len run ∧ sg_uncompressed_len g = sum run.
Proof.
  intros Ht. revert i. induction Ht as [|start run groups lengths Hne Ht IH]; intros i Hi; [done|].
  destruct i as [|i]; simpl in Hi.
  - injection Hi as <-. exists [], run, lengths. rewrite len_nil. simpl. by rewrite N.add_0_r.
  - destruct (IH i Hi) as (pre & run' & post & -> & ? & ? & ? & ?).
    exists (run ++ pre), run', post. rewrite <-app_assoc, len_app. split_and!; try done. lia.
Qed.

Lemma groups_maximal_extend target dn x groups :
  tiles 0 groups dn → groups_maximal target dn groups → groups_maximal target (dn ++ [x]) groups.
Proof.
  intros Ht Hm i g1 g2 n Hg1 Hg2 Hn. eapply Hm; [done..|].
  destruct (tiles_lookup _ _ _ _ _ Ht Hg2) as (pre & run & post & -> & Hne & Hf & _).
  rewrite Hf, N.add_0_l in *. unfold len in *. rewrite Nat2N.id in *.
  rewrite lookup_app_l in Hn; [done|]. rewrite !length_app. destruct run; simpl in *; [done|lia].
Qed.

Lemma plan_step_inv target dn st x st' :
  plan_inv target dn st → plan_step target st (len dn, x) = Ok st' →
  plan_inv target (dn ++ [x]) st'.
Proof.
  destruct st as [groups [g|]]; unfold plan_inv, plan_step; cbn [fst snd].
  - intros (closed & run & -> & Hne & Ht & -> & Hfit & Hfits & Hm) Hs.
    cbn [sg_uncompressed_len sg_item_count sg_first_item] in Hs.
    assert (Hall : tiles 0 (groups ++ [SolidGroupPlan_new (len closed) (len run) (sum run)])
      (closed ++ run)) by (by apply (tiles_snoc 0)).
    apply bind_Ok in Hs as (c & Hc & Hs). invres.
    destruct (N.leb_spec (sum run + x) target) as [Hle|Hgt].
    + invres. cbn [fst snd]. exists closed, (run ++ [x]).
      rewrite app_assoc, sum_app, len_app. unfold sum at 3. simpl. rewrite N.add_0_r.
      split_and!; try done; [by destruct run|by left|].
      intros i g1 g2 n Hg1 Hg2 Hn.
      apply (groups_maximal_extend _ _ x _ Hall Hm i g1
        (if decide (S i = length groups) then SolidGroupPlan_new (len closed) (len run) (sum run) else g2)).
      * rewrite lookup_app_l in Hg1; [by apply lookup_app_l_Some|].
        apply lookup_lt_Some in Hg2. rewrite length_app in Hg2. simpl in Hg2. lia.
      * pose proof (lookup_lt_Some _ _ _ Hg2) as Hlt. rewrite length_app in Hlt. simpl in Hlt.
        case_decide as Hi.
        -- rewrite lookup_app_r by lia. by rewrite Hi, Nat.sub_diag.
        -- rewrite lookup_app_l in Hg2 |- * by lia. done.
      * case_decide as Hi; [|done]. rewrite lookup_app_r in Hg2 by lia.
        rewrite Hi, Nat.sub_diag in Hg2. injection Hg2 as <-. done.
    + invres. cbn [fst snd]. exists (closed ++ run), [x]. split_and!; try done.
      * unfold sum; simpl. by rewrite N.add_0_r.
      * by right.
      * apply Forall_app. split; [done|]. by constructor.
      * intros i g1 g2 n Hg1 Hg2 Hn.
        destruct (decide (S i = length (groups ++ [SolidGroupPlan_new (len closed) (len run) (sum run)])))
          as [Hi|Hi].
        -- rewrite lookup_app_r in Hg2 by lia. rewrite Hi, Nat.sub_diag in Hg2.
           injection Hg2 as <-. cbn [sg_first_item] in Hn. unfold len in Hn. rewrite Nat2N.id in Hn.
           rewrite lookup_app_r, Nat.sub_diag in Hn by lia. injection Hn as <-.
           rewrite length_app in Hi. simpl in Hi.
           rewrite <-app_assoc, lookup_app_r in Hg1 by lia.
           replace (i - length groups)%nat with 0%nat in Hg1 by lia. injection Hg1 as <-. done.
        -- pose proof (lookup_lt_Some _ _ _ Hg2) as Hlt. rewrite length_app in Hlt. simpl in Hlt.
           rewrite lookup_app_l in Hg1, Hg2 by lia.
           by apply (groups_maximal_extend _ _ x _ Hall Hm i g1 g2).
  - intros [-> ->] Hs. invres. cbn [fst snd]. exists [], [x]. split_and!; try done.
    + constructor.
    + unfold sum, len; simpl. by rewrite N.add_0_r.
    + by right.
Qed.

Lemma plan_step_err target dn st x e :
  plan_inv target dn st → plan_step target st (len dn, x) = Err e →
  e = IntegerOverflow ∧ (u64_MAX < sum (dn ++ [x]) ∨ usize_MAX < len (dn ++ [x])).
Proof.
  destruct st as [groups [g|]]; unfold plan_inv, plan_step; cbn [fst snd]; [|done].
  intros (closed & run & -> & _ & _ & -> & _) Hs.
  cbn [sg_uncompressed_len sg_item_count sg_first_item] in Hs.
  rewrite !sum_app, !len_app. unfold sum at 3, len at 3. simpl.
  destruct (checked_add (sum run) x) as [c|] eqn:Hc; simpl in Hs.
  - destruct (c <=? target); [|done].
    destruct (checked_add (len run) 1) eqn:Hd; simpl in Hs; [done|].
    invres. injection Hs as <-. split; [done|]. right. lia.
  - invres. injection Hs as <-. split; [done|]. left. lia.
Qed.

Lemma plan_loop_ok target l dn st st' :
  plan_inv target dn st → try_fold (plan_step target) st (enumerate_from (len dn) l) = Ok st' →
  plan_inv target (dn ++ l) st'.
Proof.
  revert dn st; induction l as [|x l IH]; intros dn st Hi Hs; simpl in Hs.
  - invres. by rewrite app_nil_r.
  - apply bind_Ok in Hs as (st1 & Hs1 & Hs). apply (plan_step_inv _ _ _ _ _ Hi) in Hs1.
    replace (len dn + 1) with (len (dn ++ [x])) in Hs by (rewrite len_app; done).
    specialize (IH _ _ Hs1 Hs). by rewrite <-app_assoc in IH.
Qed.

Lemma plan_loop_err target l dn st e :
  plan_inv target dn st → try_fold (plan_step target) st (enumerate_from (len dn) l) = Err e →
  e = IntegerOverflow ∧ (u64_MAX < sum (dn ++ l) ∨ usize_MAX < len (dn ++ l)).
Proof.
  revert dn st; induction l as [|x l IH]; intros dn st Hi Hs; simpl in Hs; [done|].
  replace (dn ++ x :: l) with ((dn ++ [x]) ++ l) by (by rewrite <-app_assoc).
  destruct (plan_step target st (len dn, x)) as [st1|e'] eqn:Hs1.
  - replace (len dn + 1) with (len (dn ++ [x])) in Hs by (rewrite len_app; done).
    by apply (IH _ st1); [eapply plan_step_inv|].
  - cbn in Hs. injection Hs as <-. destruct (plan_step_err _ _ _ _ _ Hi Hs1) as [-> Hb].
    split; [done|]. rewrite sum_app, len_app. lia.
Qed.

Lemma tiles_singletons start l :
  tiles start (map (λ '(index, length), SolidGroupPlan_new index 1 length) (enumerate_from start l)) l.
Proof.
  revert start; induction l as [|x l IH]; intros start; simpl; [constructor|].
  replace (SolidGroupPlan_new start 1 x) with (SolidGroupPlan_new start (len [x]) (sum [x]))
    by (unfold sum; simpl; by rewrite N.add_0_r).
  change (x :: l) with ([x] ++ l). by constructor.
Qed.

(** The plan cuts the lengths into its groups. *)
Lemma plan_solid_groups_tiles profile lengths groups :
  plan_solid_groups profile lengths = Ok groups → tiles 0 groups lengths.
Proof.
  unfold plan_solid_groups, enumerate. case_bool_decide as Hp.
  { intros [= <-]. apply tiles_singletons. }
  assert (H0 : plan_inv (solid_group_target profile) [] ([], None)) by done.
  intros ([closed current] & Hf & [= <-])%bind_Ok. apply (plan_loop_ok _ _ [] _ _ H0) in Hf.
  simpl in Hf. destruct current as [g|].
  - destruct Hf as (front & run & -> & Hne & Ht & -> & _). by apply (tiles_snoc 0).
  - destruct Hf as [-> E]. cbn [fst] in E. subst. constructor.
Qed.

Lemma tiles_count start groups lengths :
  tiles start groups lengths → sum (map sg_item_count groups) = len lengths ∧ len groups <= len lengths.
Proof.
  induction 1 as [|start run groups lengths Hne Ht [IH1 IH2]]; [done|]. cbn [map sg_item_count].
  rewrite len_app, len_cons. split.
  - rewrite <-IH1. reflexivity.
  - assert (1 <= len run) by (destruct run; [done|rewrite len_cons; lia]). lia.
Qed.

(** A plan partitions the files, in order and without splitting one,
    into groups whose recorded lengths are exact; a group exceeds the
    profile's target only if it is a single file; for a compressed profile
    no group could have taken the next file (greedy packing), and for the
    RAW profile every file is its own group. Planning fails only when the
    total length or the number of files does not fit its machine integer. *)
Theorem plan_solid_groups_correct (profile : CompressionProfile) (lengths : list N) :
  match plan_solid_groups profile lengths with
  | Ok groups =>
      tiles 0 groups lengths ∧
      Forall (group_fits (solid_group_target profile)) groups ∧
      (if decide (profile = Raw) then length groups = length lengths
       else groups_maximal (solid_group_target profile) lengths groups)
  | Err e => e = IntegerOverflow ∧ (u64_MAX < sum lengths ∨ usize_MAX < len lengths)
  end.
Proof.
  unfold plan_solid_groups, enumerate. destruct (decide (profile = Raw)) as [->|Hp].
  - cbn [bool_decide decide_rel]. rewrite bool_decide_eq_true_2 by done.
    split_and!; [apply tiles_singletons| |].
    + apply Forall_map, Forall_true. intros [i n]. by right.
    + rewrite length_map. generalize 0. induction lengths; intros; simpl; auto.
  - rewrite bool_decide_eq_false_2 by done.
    assert (H0 : plan_inv (solid_group_target profile) [] ([], None)) by done.
    destruct (try_fold _ _ _) as [[groups current]|e] eqn:E; cbn [mbind result_bind].
    + apply (plan_loop_ok _ _ [] _ _ H0) in E. simpl in E. destruct current as [g|].
      * destruct E as (closed & run & -> & Hne & Ht & -> & Hfit & Hfits & Hm).
        split_and!; [by apply (tiles_snoc 0)| |done].
        apply Forall_app. split; [done|]. by constructor.
      * destruct E as [-> E]. cbn [fst] in E. subst. split_and!; [constructor..|done].
    + by apply (plan_loop_err _ _ [] _ _ H0) in E.
Qed.

(** The reference cost: the sum, or an overflow. *)
Lemma CandidateCost_total_spec c :
  let s := cc_payload c + cc_codec_descriptor c + cc_group_descriptor c + cc_index_delta c +
    cc_integrity c + cc_padding c in
  CandidateCost_total c = if s <=? u64_MAX then Ok s else Err IntegerOverflow.
Proof.
  unfold CandidateCost_total, checked_add. simpl.
  repeat match goal with |- context [?x <=? ?y] => destruct (N.leb_spec x y); simpl end;
    try lia; done.
Qed.

Example plan_stream :
  plan_solid_groups Stream [2 * MIB; 2 * MIB; 1; 5 * MIB; 1] =
  Ok [SolidGroupPlan_new 0 2 (4 * MIB); SolidGroupPlan_new 2 1 1;
      SolidGroupPlan_new 3 1 (5 * MIB); SolidGroupPlan_new 4 1 1].
Proof. vm_compute. reflexivity. Qed.
