(* ===== verification/Codecs.v ===== *)
(** * Codecs ([crates/pithos-codecs/src/lib.rs])

    The codec portfolio: identifiers, deterministic configurations, level
    validation, memory bounds, the STORE codec and the bounded copy loop
    that every other decoder writes through.  The zstd, brotli and xz
    libraries are an interface. *)

From S2P Require Import Prelude Core Bytes.

Inductive CodecId := Store | Zstd | Brotli | Lzma2.

#[export] Instance CodecId_eq_dec : EqDecision CodecId.
Proof. solve_decision. Defined.

(** [codec_id as u16]. *)
Definition CodecId_as_u16 (c : CodecId) : N :=
  match c with Store => 0 | Zstd => 1 | Brotli => 2 | Lzma2 => 3 end.

Definition CodecId_from_u16 (value : N) : option CodecId :=
  match value with
  | 0 => Some Store
  | 1 => Some Zstd
  | 2 => Some Brotli
  | 3 => Some Lzma2
  | _ => None
  end.

Definition CODEC_VERSION_V1 : N := 1.
Definition COPY_BUFFER_SIZE : nat := 8 * 1024.
Definition MIB : N := 1024 * 1024.

Record CodecConfig := { cfg_level : Z }.

Definition CodecConfig_deterministic_default (codec : CodecId) : CodecConfig :=
  let level := match codec with Store => 0 | Zstd | Brotli => 9 | Lzma2 => 6 end%Z in
  {| cfg_level := level |}.

Record CodecStats := { input_bytes : N; output_bytes : N }.

Definition checked_memory_bound (input_len scratch_bytes : N) : Result N :=
  ok_or IntegerOverflow (checked_add input_len scratch_bytes).

(** [range.contains(&cfg.level)] for [lo..=hi]. *)
Definition validate_level (cfg : CodecConfig) (lo hi : Z) : Result unit :=
  if ((lo <=? cfg_level cfg) && (cfg_level cfg <=? hi))%Z then Ok tt
  else Err (InvalidMetadata "unsupported codec level").

Definition stats (input : list byte) (output_bytes : N) : CodecStats :=
  {| input_bytes := len input; output_bytes := output_bytes |}.

(** ** Readers

    [Read::read] on a buffer of [n] bytes returns the bytes it stored, none
    at the end of the stream. *)

Class Reader (R : Type) := reader_read : nat → R → Result (list byte) * R.

(** [io::Cursor] over bytes. *)
#[export] Instance cursor_reader : Reader (list byte) :=
  λ n data, (Ok (take n data), drop n data).

(** A decoder that produces [data] and then ends or reports an error. *)
#[export] Instance decoder_reader : Reader (list byte * option PithosError) :=
  λ n '(data, error),
  match data, error with
  | [], Some e => (Err e, ([], error))
  | _, _ => (Ok (take n data), (drop n data, error))
  end.

(** The loop of [copy_decoded_limited]; [output] is what has been written.
    The result is [None] when the fuel runs out. *)
Fixpoint copy_decoded_loop `{Reader R} (fuel : nat) (input : R) (expected_len written : N)
    (output : list byte) : option (Result (list byte)) :=
  match fuel with
  | O => None
  | S fuel =>
      match reader_read COPY_BUFFER_SIZE input with
      | (Err e, _) => Some (Err e)
      | (Ok bytes, input) =>
          if len bytes =? 0 then
            Some (if negb (written =? expected_len) then Err InvalidRange else Ok output)
          else
            match checked_add written (len bytes) with
            | None => Some (Err IntegerOverflow)
            | Some written =>
                if expected_len <? written then
                  Some (Err (ResourceLimit "decoded output exceeds declared group length"))
                else copy_decoded_loop fuel input expected_len written (output ++ bytes)
            end
      end
  end.

(** Every pass but the last two writes at least one byte within
    [expected_len]. *)
Definition copy_decoded_limited `{Reader R} (input : R) (expected_len : N) :
    option (Result (list byte)) :=
  copy_decoded_loop (2 + N.to_nat expected_len) input expected_len 0 [].

(** [StoreCodec::decode]: the loop over [remaining]. *)
Fixpoint store_decode_loop `{Reader R} (fuel : nat) (input : R) (remaining : N)
    (output : list byte) : option (Result (list byte)) :=
  if remaining =? 0 then Some (Ok output) else
  match fuel with
  | O => None
  | S fuel =>
      let to_read := N.to_nat (N.min 8192 remaining) in
      match reader_read to_read input with
      | (Err e, _) => Some (Err e)
      | (Ok bytes, input) =>
          if len bytes =? 0 then Some (Err InvalidRange)
          else store_decode_loop fuel input (remaining - len bytes) (output ++ bytes)
      end
  end.

Definition StoreCodec_decode `{Reader R} (input : R) (expected_len : N) :
    option (Result (list byte)) :=
  store_decode_loop (N.to_nat expected_len) input expected_len [].

Definition StoreCodec_encode (input : list byte) (cfg : CodecConfig) :
    Result (CodecStats * list byte) :=
  validate_level cfg 0 0;;
  Ok (stats input (len input), input).

Definition StoreCodec_memory_bound (input_len : N) (cfg : CodecConfig) : Result N :=
  validate_level cfg 0 0;;
  checked_memory_bound input_len 1.

(** ** The compression libraries

    [*_encode] compresses a buffer at a level; [*_decode] is the stream the
    library's decoder yields for a compressed buffer. *)

Class Backends := {
  zstd_encode_all : list byte → Z → Result (list byte);
  zstd_decoder : list byte → list byte * option PithosError;
  brotli_compress : list byte → Z → Result (list byte);
  brotli_decompressor : list byte → list byte * option PithosError;
  lzma_encode_all : list byte → Z → Result (list byte);
  xz_decoder : list byte → list byte * option PithosError;
}.

(** Documented behaviour: decompression inverts compression. *)
Class BackendLaws `{Backends} : Prop := {
  zstd_inverse : ∀ input level data, zstd_encode_all input level = Ok data →
    zstd_decoder data = (input, None);
  brotli_inverse : ∀ input level data, brotli_compress input level = Ok data →
    brotli_decompressor data = (input, None);
  lzma_inverse : ∀ input level data, lzma_encode_all input level = Ok data →
    xz_decoder data = (input, None);
}.

Section codecs.
Context `{Backends}.

Definition ZstdCodec_encode (input : list byte) (cfg : CodecConfig) :
    Result (CodecStats * list byte) :=
  validate_level cfg (-7) 22;;
  encoded ← zstd_encode_all input (cfg_level cfg);
  Ok (stats input (len encoded), encoded).

Definition ZstdCodec_decode (input : list byte) (expected_len : N) : option (Result (list byte)) :=
  copy_decoded_limited (zstd_decoder input) expected_len.

Definition ZstdCodec_memory_bound (input_len : N) (cfg : CodecConfig) : Result N :=
  validate_level cfg (-7) 22;;
  checked_memory_bound input_len (128 * MIB).

Definition BrotliCodec_encode (input : list byte) (cfg : CodecConfig) :
    Result (CodecStats * list byte) :=
  validate_level cfg 0 11;;
  encoded ← brotli_compress input (cfg_level cfg);
  Ok (stats input (len encoded), encoded).

Definition BrotliCodec_decode (input : list byte) (expected_len : N) : option (Result (list byte)) :=
  copy_decoded_limited (brotli_decompressor input) expected_len.

Definition BrotliCodec_memory_bound (input_len : N) (cfg : CodecConfig) : Result N :=
  validate_level cfg 0 11;;
  checked_memory_bound input_len (32 * MIB).

Definition Lzma2Codec_encode (input : list byte) (cfg : CodecConfig) :
    Result (CodecStats * list byte) :=
  validate_level cfg 0 9;;
  encoded ← lzma_encode_all input (cfg_level cfg);
  Ok (stats input (len encoded), encoded).

Definition Lzma2Codec_decode (input : list byte) (expected_len : N) : option (Result (list byte)) :=
  copy_decoded_limited (xz_decoder input) expected_len.

(** [1_u64.checked_shl(n)] fails for [n >= 64]. *)
Definition checked_shl_one (n : N) : option N :=
  if n <? 64 then Some (N.shiftl 1 n) else None.

Definition Lzma2Codec_memory_bound (input_len : N) (cfg : CodecConfig) : Result N :=
  validate_level cfg 0 9;;
  dictionary_bound ← ok_or IntegerOverflow (checked_shl_one (Z.to_N (cfg_level cfg) + 20));
  checked_memory_bound input_len dictionary_bound.

(** The trait object [codec_for_id(id)] of [crates/pithos-engine/src/lib.rs]. *)
Definition Codec_encode (id : CodecId) : list byte → CodecConfig → Result (CodecStats * list byte) :=
  match id with
  | Store => StoreCodec_encode
  | Zstd => ZstdCodec_encode
  | Brotli => BrotliCodec_encode
  | Lzma2 => Lzma2Codec_encode
  end.

Definition Codec_decode (id : CodecId) : list byte → N → option (Result (list byte)) :=
  match id with
  | Store => StoreCodec_decode
  | Zstd => ZstdCodec_decode
  | Brotli => BrotliCodec_decode
  | Lzma2 => Lzma2Codec_decode
  end.
End codecs.

Definition Codec_memory_bound (id : CodecId) : N → CodecConfig → Result N :=
  match id with
  | Store => StoreCodec_memory_bound
  | Zstd => ZstdCodec_memory_bound
  | Brotli => BrotliCodec_memory_bound
  | Lzma2 => Lzma2Codec_memory_bound
  end.

(** ** Streams

    A reader delivers the bytes [stream r]: each read of a non-empty buffer
    returns a prefix that fits the buffer, and an empty one only at the end. *)

Class StreamReader R `{Reader R} := {
  stream : R → list byte;
  stream_read : ∀ n r, (0 < n)%nat → ∃ bytes r',
    reader_read n r = (Ok bytes, r') ∧ stream r = bytes ++ stream r' ∧
    (length bytes <= n)%nat ∧ (bytes = [] → stream r = []);
}.

#[export, refine] Instance cursor_stream : StreamReader (list byte) := {| stream := id |}.
Proof.
  intros n data Hn. exists (take n data), (drop n data).
  split_and!; [done|symmetry; apply take_drop|rewrite length_take; lia|].
  intros E. destruct data, n; simpl in *; done || lia.
Defined.

(** A reader that delivers one byte at a time, whatever the buffer. *)
Inductive trickle := Trickle (data : list byte).
#[export] Instance trickle_reader : Reader trickle :=
  λ n '(Trickle data), (Ok (take (n `min` 1) data), Trickle (drop (n `min` 1) data)).
#[export, refine] Instance trickle_stream : StreamReader trickle :=
  {| stream := λ '(Trickle data), data |}.
Proof.
  intros n [data] Hn. eexists _, _. split; [reflexivity|].
  split_and!; [symmetry; apply take_drop|rewrite length_take; lia|].
  rewrite Nat.min_r by lia. by destruct data.
Defined.

Lemma copy_buffer_size_N : N.of_nat COPY_BUFFER_SIZE = 8192.
Proof. vm_compute. reflexivity. Qed.

Section stream_proofs.
Context `{StreamReader R}.

Lemma store_decode_loop_correct fuel r remaining output :
  (N.to_nat remaining <= fuel)%nat →
  store_decode_loop fuel r remaining output =
  Some (if remaining <=? len (stream r) then Ok (output ++ take (N.to_nat remaining) (stream r))
        else Err InvalidRange).
Proof.
  revert r remaining output; induction fuel as [|fuel IH]; intros r remaining output Hf;
    cbn [store_decode_loop]; destruct (N.eqb_spec remaining 0) as [->|Hr];
    try (by rewrite (proj2 (N.leb_le _ _) (N.le_0_l _)), app_nil_r); [lia|].
  destruct (stream_read (N.to_nat (N.min 8192 remaining)) r) as (bytes & r' & Hread & Hs & Hl & He);
    [lia|].
  rewrite Hread. destruct (N.eqb_spec (len bytes) 0) as [Hb|Hb].
  - rewrite He by (destruct bytes; [done|unfold len in Hb; simpl in Hb; lia]).
    rewrite len_nil. by destruct (N.leb_spec remaining 0); [lia|].
  - rewrite IH by (unfold len in *; lia). rewrite Hs, len_app.
    destruct (N.leb_spec (remaining - len bytes) (len (stream r')));
      destruct (N.leb_spec remaining (len bytes + len (stream r'))); unfold len in *; try lia; [|done].
    rewrite take_app_ge by lia. rewrite <-app_assoc. do 5 f_equal. lia.
Qed.

Lemma copy_decoded_loop_correct fuel r expected written output :
  written <= expected → expected <= u64_MAX - N.of_nat COPY_BUFFER_SIZE →
  (2 + N.to_nat (expected - written) <= fuel)%nat →
  copy_decoded_loop fuel r expected written output =
  Some (match written + len (stream r) ?= expected with
        | Eq => Ok (output ++ stream r)
        | Gt => Err (ResourceLimit "decoded output exceeds declared group length")
        | Lt => Err InvalidRange
        end).
Proof.
  revert r written output; induction fuel as [|fuel IH]; intros r written output Hw Hx Hf;
    [lia|]. cbn [copy_decoded_loop].
  destruct (stream_read COPY_BUFFER_SIZE r) as (bytes & r' & Hread & Hs & Hl & He);
    [unfold COPY_BUFFER_SIZE; lia|].
  rewrite Hread. destruct (N.eqb_spec (len bytes) 0) as [Hb|Hb].
  - rewrite He by (destruct bytes; [done|unfold len in Hb; simpl in Hb; lia]).
    rewrite len_nil, N.add_0_r, app_nil_r.
    destruct (N.eqb_spec written expected) as [->|]; simpl; [by rewrite N.compare_refl|].
    destruct (N.compare_spec written expected); [lia|done|lia].
  - rewrite checked_add_ok by (pose proof copy_buffer_size_N; unfold len in *; lia). rewrite Hs, len_app.
    destruct (N.ltb_spec expected (written + len bytes)) as [Hgt|Hle].
    + destruct (N.compare_spec (written + (len bytes + len (stream r'))) expected); [lia|lia|done].
    + rewrite IH by (unfold len in *; lia).
      replace (written + len bytes + len (stream r')) with (written + (len bytes + len (stream r')))
        by lia.
      by rewrite <-app_assoc.
Qed.
End stream_proofs.

(** The decoder of the compression libraries, when it reports no error. *)
Lemma copy_decoded_decoder data expected :
  expected <= u64_MAX - N.of_nat COPY_BUFFER_SIZE →
  copy_decoded_limited (data, @None PithosError) expected =
  Some (match len data ?= expected with
        | Eq => Ok data
        | Gt => Err (ResourceLimit "decoded output exceeds declared group length")
        | Lt => Err InvalidRange
        end).
Proof.
  intros Hx. unfold copy_decoded_limited.
  assert (Hsim : ∀ fuel l written output,
    copy_decoded_loop fuel (l, @None PithosError) expected written output =
    copy_decoded_loop fuel l expected written output).
  { induction fuel as [|fuel IH]; intros l written output; [done|].
    cbn [copy_decoded_loop]. unfold reader_read, decoder_reader, cursor_reader.
    destruct l as [|b l]; repeat case_match; simplify_eq; auto. }
  rewrite Hsim, copy_decoded_loop_correct by lia. done.
Qed.

(** Decoding through a reader that delivers its bytes in any pieces.
    STORE returns the first [expected_len] bytes and rejects a shorter
    stream; the bounded copy of the other codecs accepts a stream of exactly
    [expected_len] bytes, reports a longer one as a resource limit and a
    shorter one as an invalid range. Both loops always terminate. *)
Theorem decoders_exact_length `{StreamReader R} (r : R) (expected_len : N)
    (Hexp : expected_len <= u64_MAX - N.of_nat COPY_BUFFER_SIZE) :
  StoreCodec_decode r expected_len =
    Some (if expected_len <=? len (stream r) then Ok (take (N.to_nat expected_len) (stream r))
          else Err InvalidRange) ∧
  copy_decoded_limited r expected_len =
    Some (match len (stream r) ?= expected_len with
          | Eq => Ok (stream r)
          | Gt => Err (ResourceLimit "decoded output exceeds declared group length")
          | Lt => Err InvalidRange
          end).
Proof.
  split.
  - unfold StoreCodec_decode. by rewrite store_decode_loop_correct.
  - unfold copy_decoded_limited. rewrite copy_decoded_loop_correct by lia. done.
Qed.

Lemma decoders_exact_length_witness :
  let data := map byte_of [1; 2; 3] in
  StoreCodec_decode (Trickle data) 2 = Some (Ok (map byte_of [1; 2])) ∧
  copy_decoded_limited (Trickle data) 2 =
    Some (Err (ResourceLimit "decoded output exceeds declared group length")).
Proof.
  intros data.
  assert (H : 2 <= u64_MAX - N.of_nat COPY_BUFFER_SIZE) by (vm_compute; discriminate).
  exact (decoders_exact_length (Trickle data) 2 H).
Defined.

Lemma Codec_encode_stats `{Backends} id input cfg st encoded :
  Codec_encode id input cfg = Ok (st, encoded) → st = stats input (len encoded).
Proof.
  destruct id; cbn [Codec_encode];
    unfold StoreCodec_encode, ZstdCodec_encode, BrotliCodec_encode, Lzma2Codec_encode;
    intros He; res_inv; try done; by injection He as <- <-.
Qed.

Lemma Codec_decode_encode `{Backends} (L : BackendLaws) id input cfg st encoded :
  Codec_encode id input cfg = Ok (st, encoded) → len input <= u64_MAX - N.of_nat COPY_BUFFER_SIZE →
  Codec_decode id encoded (len input) = Some (Ok input).
Proof.
  intros Henc Hexp. destruct id; cbn [Codec_encode Codec_decode] in *.
  { unfold StoreCodec_encode in Henc. apply bind_Ok in Henc as ([] & _ & Henc). injection Henc as _ <-.
    unfold StoreCodec_decode. rewrite store_decode_loop_correct by done.
    unfold stream, cursor_stream, id. rewrite N.leb_refl. unfold len. by rewrite Nat2N.id, firstn_all. }
  all: unfold ZstdCodec_encode, BrotliCodec_encode, Lzma2Codec_encode in Henc;
    apply bind_Ok in Henc as ([] & _ & Henc); apply bind_Ok in Henc as (d & Hd & Henc);
    injection Henc as _ <-;
    first [apply zstd_inverse in Hd | apply brotli_inverse in Hd | apply lzma_inverse in Hd];
    unfold ZstdCodec_decode, BrotliCodec_decode, Lzma2Codec_decode;
    by rewrite Hd, copy_decoded_decoder, N.compare_refl by done.
Qed.

(** Every codec of the portfolio restores what it encoded, and decoding
    with another declared length than the original's never succeeds, except
    that STORE, which delegates framing to the container, returns a prefix. *)
Theorem codec_roundtrip `{Backends} (L : BackendLaws) (id : CodecId) (input : list byte)
    (cfg : CodecConfig) (st : CodecStats) (encoded : list byte) (expected_len : N)
    (Henc : Codec_encode id input cfg = Ok (st, encoded))
    (Hexp : expected_len <= u64_MAX - N.of_nat COPY_BUFFER_SIZE) :
  st = stats input (len encoded) ∧
  (expected_len = len input → Codec_decode id encoded expected_len = Some (Ok input)) ∧
  (expected_len ≠ len input → ∀ output, Codec_decode id encoded expected_len = Some (Ok output) →
    id = Store ∧ output = take (N.to_nat expected_len) input ∧ expected_len < len input).
Proof.
  destruct id; cbn [Codec_encode Codec_decode] in *.
  { unfold StoreCodec_encode in Henc. apply bind_Ok in Henc as ([] & _ & Henc).
    injection Henc as <- <-.
    split; [done|]. unfold StoreCodec_decode. rewrite store_decode_loop_correct by done.
    unfold stream, cursor_stream, id. simpl. split.
    - intros ->. rewrite N.leb_refl. unfold len. by rewrite Nat2N.id, firstn_all.
    - intros Hne output Ho. destruct (N.leb_spec expected_len (len input)); [|done].
      injection Ho as <-. split_and!; [done..|lia]. }
  all: unfold ZstdCodec_encode, BrotliCodec_encode, Lzma2Codec_encode in Henc;
    apply bind_Ok in Henc as ([] & _ & Henc); apply bind_Ok in Henc as (d & Hd & Henc);
    injection Henc as <- <-; split; [done|];
    first [apply zstd_inverse in Hd | apply brotli_inverse in Hd | apply lzma_inverse in Hd];
    unfold ZstdCodec_decode, BrotliCodec_decode, Lzma2Codec_decode;
    rewrite Hd, copy_decoded_decoder by done; split;
    [intros ->; by rewrite N.compare_refl|];
    intros Hne output Ho; destruct (N.compare_spec (len input) expected_len); congruence.
Qed.

(** A trivial backend, for concrete examples: each library frames the data
    with one byte and reports a corrupt frame. *)
Definition framing_backends : Backends :=
  let enc tag input (level : Z) := Ok (tag :: input) in
  let dec tag data := match data with
    | b :: rest => if decide (b = tag) then (rest, None) else ([], Some (Io OtherKind))
    | [] => ([], Some (Io UnexpectedEof))
    end in
  {| zstd_encode_all := enc (byte_of 1); zstd_decoder := dec (byte_of 1);
     brotli_compress := enc (byte_of 2); brotli_decompressor := dec (byte_of 2);
     lzma_encode_all := enc (byte_of 3); xz_decoder := dec (byte_of 3) |}.

Lemma framing_backends_laws : @BackendLaws framing_backends.
Proof. split; intros input level data [= <-]; reflexivity. Qed.

Lemma codec_roundtrip_witness :
  let B := framing_backends in
  let input := map byte_of [10; 20; 30] in
  Codec_decode Zstd (byte_of 1 :: input) 3 = Some (Ok input).
Proof.
  intros B input.
  assert (H : 3 <= u64_MAX - N.of_nat COPY_BUFFER_SIZE) by (vm_compute; discriminate).
  apply (codec_roundtrip framing_backends_laws Zstd input {| cfg_level := 9 |}
    (stats input 4) (byte_of 1 :: input) 3 eq_refl H). reflexivity.
Defined.
