(* ===== verification/Sorting.v ===== *)
(** * Fallible merge sort ([try_sort_by_checkpoint] of
    [crates/pithos-analysis/src/chunking.rs])

    The bottom-up merge sort with a scratch buffer that the analysis crate
    uses so that cancellation is polled between single comparisons and
    copies, and its equivalence with a stable insertion sort. *)

From S2P Require Import Prelude Core Effects.
#[local] Open Scope nat_scope.

(** A comparison function that is a total preorder, as [Ord::cmp] and the
    closures of the callers are. *)
Class TotalPreorder {T} (compare : T → T → comparison) : Prop := {
  compare_antisym : ∀ x y, compare y x = CompOpp (compare x y);
  compare_trans : ∀ x y z, compare x y ≠ Gt → compare y z ≠ Gt → compare x z ≠ Gt;
}.

Arguments compare_antisym {T} compare {_} x y.
Arguments compare_trans {T} compare {_} x y z.

(** [compare(x, y) != Ordering::Greater]. *)
Definition not_greater {T} (compare : T → T → comparison) (x y : T) : Prop := compare x y ≠ Gt.

#[export] Instance comparison_eq_dec : EqDecision comparison.
Proof. solve_decision. Defined.
#[export] Instance not_greater_dec {T} (compare : T → T → comparison) :
  RelDecision (not_greater compare).
Proof. unfold not_greater. solve_decision. Defined.

Section sort.
Context {S : Type} `{Env S} {T : Type} (compare : T → T → comparison).

(** The loop variables of one merge. *)
Record merge_state := { ms_left : nat; ms_right : nat; ms_output : nat; ms_scratch : list T }.

(** [while left < middle && right < end]. *)
Definition merge_both_step (items : list T) (st : merge_state) : M S merge_state :=
  checkpoint;;
  a ← index items (ms_left st);
  b ← index items (ms_right st);
  if decide (not_greater compare a b) then
    scratch ← assign (ms_scratch st) (ms_output st) a;
    mret {| ms_left := ms_left st + 1; ms_right := ms_right st;
            ms_output := ms_output st + 1; ms_scratch := scratch |}
  else
    scratch ← assign (ms_scratch st) (ms_output st) b;
    mret {| ms_left := ms_left st; ms_right := ms_right st + 1;
            ms_output := ms_output st + 1; ms_scratch := scratch |}.

(** [while left < middle]. *)
Definition merge_left_step (items : list T) (st : merge_state) : M S merge_state :=
  checkpoint;;
  a ← index items (ms_left st);
  scratch ← assign (ms_scratch st) (ms_output st) a;
  mret {| ms_left := ms_left st + 1; ms_right := ms_right st;
          ms_output := ms_output st + 1; ms_scratch := scratch |}.

(** [while right < end]. *)
Definition merge_right_step (items : list T) (st : merge_state) : M S merge_state :=
  checkpoint;;
  b ← index items (ms_right st);
  scratch ← assign (ms_scratch st) (ms_output st) b;
  mret {| ms_left := ms_left st; ms_right := ms_right st + 1;
          ms_output := ms_output st + 1; ms_scratch := scratch |}.

(** One iteration of [while start < items.len()]: merges the runs
    [start..middle] and [middle..end] into [scratch].  The additions of the
    source saturate at [usize::MAX], which no slice length exceeds, so that
    clipped at [items.len()] they are the exact sums; likewise the doubling
    of [width] below. *)
Definition merge_runs_step (items : list T) (width : nat) (st : nat * list T) : M S (nat * list T) :=
  let '(start, scratch) := st in
  checkpoint;;
  let middle := (start + width) `min` length items in
  let end_ := (middle + width) `min` length items in
  let fuel := length items in
  st ← while_m fuel (λ st, (ms_left st <? middle) && (ms_right st <? end_)) (merge_both_step items)
    {| ms_left := start; ms_right := middle; ms_output := start; ms_scratch := scratch |};
  st ← while_m fuel (λ st, ms_left st <? middle) (merge_left_step items) st;
  st ← while_m fuel (λ st, ms_right st <? end_) (merge_right_step items) st;
  mret (end_, ms_scratch st).

(** The copy of a pass back into [items]: [for (item, sorted) in
    items.iter_mut().zip(&scratch)]. *)
Fixpoint copy_back (items scratch : list T) : M S (list T) :=
  match items, scratch with
  | _ :: items, sorted :: scratch =>
      checkpoint;; items ← copy_back items scratch; mret (sorted :: items)
  | _, _ => mret items
  end.

(** One iteration of [while width < items.len()]. *)
Definition sort_pass_step (st : nat * list T * list T) : M S (nat * list T * list T) :=
  let '(width, items, scratch) := st in
  '(_, scratch) ← while_m (length items) (λ '(start, _), start <? length items)
    (merge_runs_step items width) (0, scratch);
  items ← copy_back items scratch;
  mret (width * 2, items, scratch).

Definition try_sort_by_checkpoint (items : list T) : M S (list T) :=
  if length items <? 2 then checkpoint;; mret items else
  checkpoint;;
  try_reserve (N.of_nat (length items));;
  scratch ← fold_m (λ scratch item, checkpoint;; mret (scratch ++ [item])) [] items;
  st ← while_m (length items) (λ '(width, items, _), width <? length items) sort_pass_step
    (1, items, scratch);
  mret st.1.2.
End sort.
Arguments merge_state : clear implicits.

(** ** Reference: stable insertion sort *)

Section spec.
Context {T : Type} (compare : T → T → comparison).
#[local] Abbreviation R := (not_greater compare).

Fixpoint insert_sorted (x : T) (l : list T) : list T :=
  match l with
  | [] => [x]
  | y :: l' => if decide (R x y) then x :: l else y :: insert_sorted x l'
  end.

Fixpoint insertion_sort (l : list T) : list T :=
  match l with [] => [] | x :: l => insert_sorted x (insertion_sort l) end.

(** The elements [compare] cannot tell from [x]. *)
Definition ties (x : T) (l : list T) : list T := filter (λ y, compare x y = Eq) l.

(** A stable sort of [l]. *)
Definition stably_sorts (l out : list T) : Prop :=
  StronglySorted R out ∧ out ≡ₚ l ∧ ∀ x, ties x out = ties x l.

Context {TP : TotalPreorder compare}.

#[export] Instance not_greater_trans : Transitive R.
Proof. intros x y z. apply (compare_trans compare). Qed.
#[export] Instance not_greater_total : Total R.
Proof.
  intros x y. unfold not_greater. rewrite (compare_antisym compare y x).
  destruct (compare y x); simpl; [left|right|left]; done.
Qed.

Lemma compare_refl x : compare x x = Eq.
Proof. pose proof (compare_antisym compare x x) as E. by destruct (compare x x). Qed.

Lemma not_R x y : ¬ R x y → R y x ∧ compare y x ≠ Eq.
Proof.
  unfold not_greater. rewrite (compare_antisym compare x y). destruct (compare x y); simpl; naive_solver.
Qed.

Lemma Eq_R x y : compare x y = Eq ↔ R x y ∧ R y x.
Proof.
  unfold not_greater. rewrite (compare_antisym compare x y). destruct (compare x y); simpl; naive_solver.
Qed.

Lemma ties_app x l k : ties x (l ++ k) = ties x l ++ ties x k.
Proof. apply filter_app. Qed.

Lemma ties_cons x y l : ties x (y :: l) = (if decide (compare x y = Eq) then [y] else []) ++ ties x l.
Proof. unfold ties. rewrite filter_cons. by case_decide. Qed.

(** Nothing in a sorted list below [y] ties with an [x] that is not below [y]. *)
Lemma ties_above x y l : Forall (R y) l → ¬ R y x → ties x l = [].
Proof.
  intros Hl Hyx. induction Hl as [|z l Hz Hl IH]; [done|]. rewrite ties_cons.
  case_decide as E; [|done]. apply Eq_R in E as [_ Hzx]. exfalso. apply Hyx. by trans z.
Qed.

(** Stable sorts are unique. *)
Lemma stably_sorts_unique l out1 out2 : stably_sorts l out1 → stably_sorts l out2 → out1 = out2.
Proof.
  intros (Hs1 & Hp1 & Ht1) (Hs2 & Hp2 & Ht2).
  assert (Hp : out1 ≡ₚ out2) by (by rewrite Hp1, Hp2).
  assert (Ht : ∀ x, ties x out1 = ties x out2) by (intros x; by rewrite Ht1, Ht2).
  clear l Hp1 Hp2 Ht1 Ht2. revert out2 Hs2 Hp Ht.
  induction Hs1 as [|x out1 Hs1 IH Hx]; intros out2 Hs2 Hp Ht.
  { by apply Permutation_nil in Hp. }
  destruct Hs2 as [|y out2 Hs2 Hy]; [symmetry in Hp; by apply Permutation_nil in Hp|].
  assert (Hxy : compare x y = Eq).
  { apply Eq_R. split.
    - assert (y ∈ x :: out1) as Hin by (rewrite Hp; left).
      apply elem_of_cons in Hin as [->|Hin]; [by apply Eq_R, compare_refl|].
      by eapply Forall_forall in Hx.
    - assert (x ∈ y :: out2) as Hin by (rewrite <-Hp; left).
      apply elem_of_cons in Hin as [->|Hin]; [by apply Eq_R, compare_refl|].
      by eapply Forall_forall in Hy. }
  assert (x = y) as <-.
  { pose proof (Ht x) as E. rewrite !ties_cons, compare_refl, Hxy in E.
    rewrite !decide_True in E by done. by injection E. }
  f_equal. apply IH; [done|by apply Permutation_cons_inv in Hp|].
  intros z. pose proof (Ht z) as E. rewrite !ties_cons in E. by apply app_inv_head in E.
Qed.

Lemma insert_sorted_perm x l : insert_sorted x l ≡ₚ x :: l.
Proof.
  induction l as [|y l IH]; simpl; [done|]. case_decide; [done|]. rewrite IH. constructor.
Qed.

Lemma insertion_sort_stable l : stably_sorts l (insertion_sort l).
Proof.
  induction l as [|x l (Hs & Hp & Ht)]; [by repeat constructor|]. simpl.
  split_and!; [|by rewrite insert_sorted_perm, Hp|].
  - clear Hp Ht. induction Hs as [|y out Hs IH Hy]; simpl; [by repeat constructor|].
    case_decide as Hxy.
    + constructor; [by constructor|]. constructor; [done|].
      eapply Forall_impl; [exact Hy|]. intros z ?. by trans y.
    + constructor; [done|]. rewrite insert_sorted_perm. constructor; [by apply not_R|done].
  - intros z. rewrite ties_cons, <-Ht. clear Hp Ht.
    induction Hs as [|y out Hs IH Hy]; simpl; [by rewrite ties_cons|].
    destruct (decide (R x y)) as [Hxy|Hxy]; [by rewrite ties_cons|].
    rewrite !ties_cons, IH. destruct (decide (compare z x = Eq)) as [Ezx|]; [|done].
    rewrite (decide_False (P := compare z y = Eq)); [done|].
    intros Ezy. apply Hxy. apply Eq_R in Ezx as [_ ?], Ezy as [? _]. by trans z.
Qed.

(** *** Merging *)

Lemma list_merge_nil_r (l : list T) : list_merge R l [] = l.
Proof. by destruct l. Qed.

Lemma ties_merge x l1 l2 :
  StronglySorted R l1 → StronglySorted R l2 →
  ties x (list_merge R l1 l2) = ties x l1 ++ ties x l2.
Proof.
  intros Hs1. revert l2. induction Hs1 as [|a l1 Hs1 IH1 Ha]; intros l2 Hs2; [by destruct l2|].
  induction Hs2 as [|b l2 Hs2 IH2 Hb]; [by rewrite list_merge_nil_r, app_nil_r|].
  rewrite list_merge_cons. case_decide as Hab.
  - rewrite !ties_cons, IH1 by (by constructor). by rewrite ties_cons, app_assoc.
  - rewrite (ties_cons x b), IH2, (ties_cons x b l2).
    destruct (decide (compare x b = Eq)) as [E|]; [|done].
    rewrite (ties_above x a (a :: l1)); [done| |].
    + constructor; [apply Eq_R, compare_refl|done].
    + intros Hax. apply Hab. apply Eq_R in E as [? ?]. by trans x.
Qed.

Lemma StronglySorted_merge l1 l2 :
  StronglySorted R l1 → StronglySorted R l2 → StronglySorted R (list_merge R l1 l2).
Proof.
  intros H1 H2. apply Sorted_StronglySorted; [apply _|].
  apply Sorted_list_merge; [apply _|by apply StronglySorted_Sorted..].
Qed.

(** A pass with runs of [w] elements. *)
Fixpoint merge_pass (fuel w : nat) (l : list T) : list T :=
  match fuel with
  | O => []
  | S fuel =>
      match l with
      | [] => []
      | _ => list_merge R (take w l) (take w (drop w l)) ++ merge_pass fuel w (drop (w + w) l)
      end
  end.

(** Every aligned run of [w] elements is sorted. *)
Definition runs_sorted (w : nat) (l : list T) : Prop :=
  ∀ k, StronglySorted R (take w (drop (k * w) l)).

Lemma length_merge (l1 l2 : list T) : length (list_merge R l1 l2) = length l1 + length l2.
Proof. by rewrite (merge_Permutation R), length_app. Qed.

Lemma merge_pass_perm fuel w l : 0 < w → length l <= fuel → merge_pass fuel w l ≡ₚ l.
Proof.
  intros Hw. revert l; induction fuel as [|fuel IH]; intros l Hl; [destruct l; [done|simpl in Hl; lia]|].
  destruct l as [|x l]; [done|]. cbn [merge_pass].
  rewrite IH by (rewrite length_drop; simpl in *; lia).
  rewrite (merge_Permutation R), <-app_assoc, <-drop_drop, take_drop. by rewrite take_drop.
Qed.

Lemma runs_sorted_drop w l : runs_sorted w l → runs_sorted w (drop (w + w) l).
Proof.
  intros Hr k. specialize (Hr (2 + k)). rewrite drop_drop.
  replace (w + w + k * w) with ((2 + k) * w) by lia. done.
Qed.

Lemma merge_pass_ties x fuel w l :
  0 < w → length l <= fuel → runs_sorted w l → ties x (merge_pass fuel w l) = ties x l.
Proof.
  intros Hw. revert l; induction fuel as [|fuel IH]; intros l Hl Hr; [destruct l; [done|simpl in Hl; lia]|].
  destruct l as [|y l]; [done|]. set (l' := y :: l) in *. cbn [merge_pass]. subst l'. cbv iota.
  rewrite ties_app, IH; [|rewrite length_drop; simpl in *; lia|by apply runs_sorted_drop].
  rewrite ties_merge, <-!ties_app, <-app_assoc, <-drop_drop.
  - by rewrite !take_drop.
  - apply (Hr 0).
  - pose proof (Hr 1) as H1. by rewrite Nat.mul_1_l in H1.
Qed.

Lemma merge_pass_runs fuel w l :
  0 < w → length l <= fuel → runs_sorted w l → runs_sorted (w + w) (merge_pass fuel w l).
Proof.
  intros Hw. revert l; induction fuel as [|fuel IH]; intros l Hl Hr k.
  { simpl. rewrite drop_nil, take_nil. constructor. }
  destruct l as [|y l]; [simpl; rewrite drop_nil, take_nil; constructor|].
  set (l' := y :: l) in *. cbn [merge_pass]. subst l'. cbv iota.
  set (m := list_merge R _ _).
  assert (Hm : StronglySorted R m).
  { apply StronglySorted_merge; [apply (Hr 0)|].
    pose proof (Hr 1) as H1. by rewrite Nat.mul_1_l in H1. }
  assert (Hlen : length m = (w + w) `min` length (y :: l)).
  { unfold m. rewrite length_merge, !length_take, length_drop. lia. }
  set (rest := merge_pass fuel w (drop (w + w) (y :: l))).
  destruct (decide (w + w <= length (y :: l))) as [Hge|Hlt].
  - destruct k as [|k].
    + rewrite Nat.mul_0_l, drop_0, take_app_length' by lia. done.
    + rewrite drop_app_ge by lia.
      replace (S k * (w + w) - length m) with (k * (w + w)) by lia.
      apply IH; [rewrite length_drop; simpl in *; lia|by apply runs_sorted_drop].
  - assert (rest = []) as ->.
    { unfold rest. rewrite drop_ge by lia. by destruct fuel. }
    rewrite app_nil_r. destruct k as [|k].
    + rewrite Nat.mul_0_l, drop_0. by rewrite take_ge by lia.
    + rewrite drop_ge by lia. rewrite take_nil. constructor.
Qed.
End spec.

(** ** The merge sort implements the reference *)

Section sort_proofs.
Context {S : Type} `{Env S} {T : Type} (compare : T → T → comparison)
  {TP : TotalPreorder compare}.
#[local] Abbreviation R := (not_greater compare).

(** [items[i..j]]. *)
Definition seg (items : list T) (i j : nat) : list T := take (j - i) (drop i items).

Lemma seg_cons items i j a : i < j → items !! i = Some a → seg items i j = a :: seg items (i + 1) j.
Proof.
  intros Hij Ha. unfold seg. rewrite (drop_S _ _ _ Ha). replace (j - i) with (1 + (j - (i + 1))) by lia.
  simpl. by rewrite Nat.add_1_r.
Qed.

Lemma seg_nil items i j : j <= i → seg items i j = [].
Proof. intros. unfold seg. by replace (j - i) with 0 by lia. Qed.

Lemma length_seg items i j : i <= j → j <= length items → length (seg items i j) = j - i.
Proof. intros. unfold seg. rewrite length_take, length_drop. lia. Qed.

(** Writing the next output element. *)
Lemma write_next (s0 m : list T) start o x :
  length m = o - start → start <= o → o < length s0 →
  <[o := x]> (take start s0 ++ m ++ drop o s0) = take start s0 ++ (m ++ [x]) ++ drop (o + 1) s0.
Proof.
  intros Hm Hso Ho. destruct (lookup_lt_is_Some_2 s0 o Ho) as [y Hy].
  rewrite (drop_S _ _ _ Hy), <-!app_assoc, app_assoc.
  rewrite insert_app_r_alt by (rewrite length_app, length_take; lia).
  rewrite length_app, length_take. replace (o - _) with 0 by lia. simpl.
  by rewrite <-!app_assoc, Nat.add_1_r.
Qed.

Section merge.
Context (items s0 : list T) (start middle end_ : nat).
Context (Hsm : start <= middle) (Hme : middle <= end_) (Hel : end_ <= length items).
Context (Hs0 : length s0 = length items).

Definition merge_inv (st : merge_state T) : Prop :=
  start <= ms_left st <= middle ∧ middle <= ms_right st <= end_ ∧
  ms_output st + middle = ms_left st + ms_right st ∧
  ∃ m, ms_scratch st = take start s0 ++ m ++ drop (ms_output st) s0 ∧
    m ++ list_merge R (seg items (ms_left st) middle) (seg items (ms_right st) end_) =
    list_merge R (seg items start middle) (seg items middle end_).

Lemma merge_inv_length (st : merge_state T) m :
  start <= ms_left st <= middle → middle <= ms_right st <= end_ →
  ms_output st + middle = ms_left st + ms_right st →
  m ++ list_merge R (seg items (ms_left st) middle) (seg items (ms_right st) end_) =
    list_merge R (seg items start middle) (seg items middle end_) →
  length m = ms_output st - start.
Proof.
  intros ? ? ? E. apply (f_equal length) in E.
  rewrite length_app, !length_merge, !length_seg in E by lia. lia.
Qed.

Lemma merge_inv_room (st : merge_state T) :
  merge_inv st → ms_left st < middle ∨ ms_right st < end_ →
  ms_output st < length (ms_scratch st).
Proof.
  intros (Hl & Hr & Ho & m & -> & Hm) Hlt.
  pose proof (merge_inv_length _ _ Hl Hr Ho Hm).
  rewrite !length_app, length_take, length_drop. lia.
Qed.

(** Writing [x], the head of what remains to be merged. *)
Lemma merge_inv_write (st : merge_state T) x left' right' :
  merge_inv st → ms_left st <= left' <= middle → ms_right st <= right' <= end_ →
  left' + right' = ms_left st + ms_right st + 1 →
  list_merge R (seg items (ms_left st) middle) (seg items (ms_right st) end_) =
    x :: list_merge R (seg items left' middle) (seg items right' end_) →
  merge_inv {| ms_left := left'; ms_right := right'; ms_output := ms_output st + 1;
               ms_scratch := <[ms_output st := x]> (ms_scratch st) |}.
Proof.
  intros (Hl & Hr & Ho & m & Hscr & Hm) Hl' Hr' Hadd Hx.
  pose proof (merge_inv_length _ _ Hl Hr Ho Hm) as Hlen.
  split; [simpl; lia|]. split; [simpl; lia|]. split; [simpl; lia|]. exists (m ++ [x]). simpl. split.
  - rewrite Hscr. apply write_next; lia.
  - rewrite <-app_assoc. simpl. by rewrite <-Hx.
Qed.

Lemma merge_both_ensures (st : merge_state T) :
  merge_inv st → ms_left st < middle → ms_right st < end_ →
  ensures (merge_both_step compare items st) (λ st', merge_inv st' ∧
    middle - ms_left st' + (end_ - ms_right st') < middle - ms_left st + (end_ - ms_right st)).
Proof.
  intros Hi Hl Hr. unfold merge_both_step. apply ensures_checkpoint.
  destruct (lookup_lt_is_Some_2 items (ms_left st)) as [a Ha]; [lia|].
  destruct (lookup_lt_is_Some_2 items (ms_right st)) as [b Hb]; [lia|].
  eapply ensures_index; [exact Ha|]. eapply ensures_index; [exact Hb|].
  destruct Hi as (? & ? & ?) eqn:E; clear E.
  case_decide as Hab; (apply ensures_assign; [apply merge_inv_room; [done|by left]|]);
    apply ensures_ret; (split; [|simpl; lia]);
    apply merge_inv_write; try lia; try done;
    rewrite (seg_cons _ _ _ _ Hl Ha), (seg_cons _ _ _ _ Hr Hb), list_merge_cons;
    by (rewrite decide_True by done) || by (rewrite decide_False by done).
Qed.

Lemma merge_left_ensures (st : merge_state T) :
  merge_inv st → ms_left st < middle → end_ <= ms_right st →
  ensures (merge_left_step items st) (λ st', merge_inv st' ∧ end_ <= ms_right st' ∧
    middle - ms_left st' < middle - ms_left st).
Proof.
  intros Hi Hl Hr. unfold merge_left_step. apply ensures_checkpoint.
  destruct (lookup_lt_is_Some_2 items (ms_left st)) as [a Ha]; [lia|].
  eapply ensures_index; [exact Ha|]. destruct Hi as (? & ? & ?) eqn:E; clear E.
  apply ensures_assign; [apply merge_inv_room; [done|by left]|].
  apply ensures_ret. split; [|simpl; lia]. apply merge_inv_write; try lia; [done|].
  rewrite (seg_nil _ _ _ Hr), !list_merge_nil_r. by apply seg_cons.
Qed.

Lemma merge_right_ensures (st : merge_state T) :
  merge_inv st → middle <= ms_left st → ms_right st < end_ →
  ensures (merge_right_step items st) (λ st', merge_inv st' ∧ middle <= ms_left st' ∧
    end_ - ms_right st' < end_ - ms_right st).
Proof.
  intros Hi Hl Hr. unfold merge_right_step. apply ensures_checkpoint.
  destruct (lookup_lt_is_Some_2 items (ms_right st)) as [b Hb]; [lia|].
  eapply ensures_index; [exact Hb|]. destruct Hi as (? & ? & ?) eqn:E; clear E.
  apply ensures_assign; [apply merge_inv_room; [done|by right]|].
  apply ensures_ret. split; [|simpl; lia]. apply merge_inv_write; try lia; [done|].
  rewrite (seg_nil _ _ _ Hl), !list_merge_nil_l. by apply seg_cons.
Qed.

Lemma merge_loops_ensures fuel :
  length s0 <= fuel →
  ensures
    (st ← while_m fuel (λ st, (ms_left st <? middle) && (ms_right st <? end_))
       (merge_both_step compare items)
       {| ms_left := start; ms_right := middle; ms_output := start; ms_scratch := s0 |};
     st ← while_m fuel (λ st, ms_left st <? middle) (merge_left_step items) st;
     st ← while_m fuel (λ st, ms_right st <? end_) (merge_right_step items) st;
     mret (end_, ms_scratch st))
    (λ r, r = (end_, take start s0 ++
      list_merge R (seg items start middle) (seg items middle end_) ++ drop end_ s0)).
Proof.
  intros Hf.
  eapply ensures_bind.
  { apply (ensures_while merge_inv (λ st, middle - ms_left st + (end_ - ms_right st))); [|..].
    - intros st Hi Hc. apply andb_true_iff in Hc as [Hl Hr].
      apply Nat.ltb_lt in Hl, Hr. split; [lia|]. by apply merge_both_ensures.
    - split; [simpl; lia|]. split; [simpl; lia|]. split; [simpl; lia|]. exists []. simpl.
      by rewrite take_drop.
    - simpl. lia. }
  intros st1 [Hi1 Hc1]. eapply ensures_bind.
  { apply (ensures_while (λ st, merge_inv st ∧ (middle <= ms_left st ∨ end_ <= ms_right st))
      (λ st, middle - ms_left st)).
    - intros st [Hi Hor] Hc. apply Nat.ltb_lt in Hc. split; [lia|].
      eapply ensures_weaken; [apply merge_left_ensures; [done|done|lia]|].
      intros st' (? & ? & ?). split; [split; [done|by right]|done].
    - split; [done|]. apply andb_false_iff in Hc1 as [Hc1|Hc1]; apply Nat.ltb_ge in Hc1; auto.
    - destruct Hi1 as (? & ? & _). lia. }
  intros st2 [[Hi2 _] Hc2]. apply Nat.ltb_ge in Hc2. eapply ensures_bind.
  { apply (ensures_while (λ st, merge_inv st ∧ middle <= ms_left st) (λ st, end_ - ms_right st)).
    - intros st [Hi Hm] Hc. apply Nat.ltb_lt in Hc. split; [lia|].
      eapply ensures_weaken; [by apply merge_right_ensures|].
      intros st' (? & ? & ?). split; [by split|done].
    - by split.
    - destruct Hi2 as (? & ? & _). lia. }
  intros st3 [[Hi3 Hl3] Hc3]. apply Nat.ltb_ge in Hc3. apply ensures_ret.
  destruct Hi3 as (Hl & Hr & Ho & m & -> & Hm).
  rewrite (seg_nil _ (ms_left st3)), (seg_nil _ (ms_right st3)), list_merge_nil_l, app_nil_r
    in Hm by lia.
  subst m. by replace (ms_output st3) with end_ by lia.
Qed.
End merge.

Lemma merge_pass_fuel f1 f2 w l :
  0 < w → length l <= f1 → length l <= f2 → merge_pass compare f1 w l = merge_pass compare f2 w l.
Proof.
  intros Hw. revert f2 l; induction f1 as [|f1 IH]; intros f2 l H1 H2.
  { destruct l; [by destruct f2|simpl in H1; lia]. }
  destruct f2 as [|f2]; [destruct l; [done|simpl in H2; lia]|].
  destruct l as [|x l]; [done|]. cbn [merge_pass]. f_equal.
  apply IH; rewrite length_drop; simpl in *; lia.
Qed.

Lemma merge_pass_eq f w l :
  0 < w → l ≠ [] → length l <= f →
  merge_pass compare f w l =
    list_merge R (take w l) (take w (drop w l)) ++ merge_pass compare f w (drop (w + w) l).
Proof.
  intros Hw Hne Hf. destruct f as [|f]; [destruct l; simpl in Hf; [done|lia]|].
  rewrite (merge_pass_fuel (Datatypes.S f) f w (drop (w + w) l));
    [|done|destruct l; [done|]; rewrite length_drop; simpl in *; lia..].
  by destruct l.
Qed.

(** One merged pair of runs, as the reference pass sees it. *)
Lemma merge_pass_unfold items w start :
  0 < w → start < length items →
  let middle := (start + w) `min` length items in
  let end_ := (middle + w) `min` length items in
  merge_pass compare (length items) w (drop start items) =
  list_merge R (seg items start middle) (seg items middle end_) ++
  merge_pass compare (length items) w (drop end_ items).
Proof.
  intros Hw Hs mid en.
  rewrite merge_pass_eq; [|done| |rewrite length_drop; lia].
  2: { intros E%(f_equal length). rewrite length_drop in E. simpl in E. lia. }
  rewrite !drop_drop. unfold seg.
  destruct (Nat.le_ge_cases (start + w) (length items)) as [Hle|Hge].
  - replace mid with (start + w) in * by (unfold mid; lia).
    replace (start + w - start) with w by lia.
    destruct (Nat.le_ge_cases (start + w + w) (length items)) as [Hle'|Hge'].
    + replace en with (start + w + w) by (unfold en; lia).
      replace (start + w + w - (start + w)) with w by lia. by rewrite Nat.add_assoc.
    + replace en with (length items) by (unfold en; lia).
      rewrite (take_ge (drop (start + w) items)) by (rewrite length_drop; lia).
      rewrite (take_ge (drop (start + w) items)) by (rewrite length_drop; lia).
      rewrite (drop_ge items (start + (w + w))), (drop_ge items (length items)) by lia. done.
  - replace mid with (length items) in * by (unfold mid; lia).
    replace en with (length items) by (unfold en, mid; lia).
    rewrite (drop_ge items (start + w)), (drop_ge items (start + (w + w))),
      (drop_ge items (length items)) by lia. rewrite !take_nil.
    rewrite !take_ge by (rewrite length_drop; lia). done.
Qed.

Lemma merge_runs_ensures items w start scratch :
  0 < w → start < length items → length scratch = length items →
  take start scratch ++ merge_pass compare (length items) w (drop start items) =
    merge_pass compare (length items) w items →
  ensures (merge_runs_step compare items w (start, scratch)) (λ '(start', scratch'),
    start < start' <= length items ∧ length scratch' = length items ∧
    take start' scratch' ++ merge_pass compare (length items) w (drop start' items) =
      merge_pass compare (length items) w items).
Proof.
  intros Hw Hs Hl Hp. unfold merge_runs_step. apply ensures_checkpoint. cbv zeta.
  set (mid := (start + w) `min` length items). set (en := (mid + w) `min` length items).
  eapply ensures_weaken; [apply merge_loops_ensures; unfold en, mid; lia|].
  intros [start' scratch'] [= -> ->].
  assert (Hm : length (list_merge R (seg items start mid) (seg items mid en)) = en - start).
  { rewrite length_merge, !length_seg; unfold en, mid; lia. }
  split; [unfold en, mid; lia|]. split.
  { rewrite !length_app, length_take, length_drop, Hm. unfold en, mid. lia. }
  rewrite app_assoc, take_app_length' by (rewrite length_app, length_take, Hm; unfold en, mid; lia).
  rewrite <-app_assoc, <-Hp. f_equal. symmetry. by apply merge_pass_unfold.
Qed.

Lemma copy_back_follows (items scratch : list T) :
  length items = length scratch → follows (copy_back items scratch) (Ok scratch).
Proof.
  revert scratch; induction items as [|x items IH]; intros [|y scratch] Hl; try discriminate Hl;
    cbn [copy_back]; [apply follows_ret|].
  apply (follows_seq _ tt); [apply follows_checkpoint|].
  eapply follows_seq; [by apply IH; injection Hl|]. apply follows_ret.
Qed.

Definition sort_inv (l : list T) (st : nat * list T * list T) : Prop :=
  let '(w, items, scratch) := st in
  0 < w ∧ items ≡ₚ l ∧ (∀ x, ties compare x items = ties compare x l) ∧
  runs_sorted compare w items ∧ length scratch = length items.

Lemma sort_pass_ensures l w items scratch :
  sort_inv l (w, items, scratch) → w < length items →
  ensures (sort_pass_step compare (w, items, scratch)) (λ st', sort_inv l st' ∧
    length st'.1.2 - st'.1.1 < length items - w).
Proof.
  intros (Hw & Hp & Ht & Hr & Hs) Hlt. unfold sort_pass_step.
  eapply ensures_bind.
  { apply (ensures_while (λ '(start, scratch), start <= length items ∧
      length scratch = length items ∧
      take start scratch ++ merge_pass compare (length items) w (drop start items) =
        merge_pass compare (length items) w items) (λ st, length items - st.1)).
    - intros [start scr] (Hle & Hl & E) Hc. apply Nat.ltb_lt in Hc. split; [simpl; lia|].
      eapply ensures_weaken; [by apply merge_runs_ensures|].
      intros [start' scr'] (? & ? & ?). simpl. repeat split; try done; lia.
    - split; [lia|]. split; [done|]. by rewrite take_0, drop_0.
    - simpl. lia. }
  intros [start scr] [(Hle & Hl & E) Hc]. apply Nat.ltb_ge in Hc.
  rewrite take_ge, drop_ge in E by lia.
  assert (scr = merge_pass compare (length items) w items) as ->.
  { rewrite <-E. by destruct (length items); rewrite app_nil_r. }
  eapply ensures_bind; [apply ensures_follows, copy_back_follows; lia|]. intros out ->.
  apply ensures_ret. split; [|simpl in *; lia].
  replace (w * 2) with (w + w) by lia. split_and!; [lia| | | |lia].
  - rewrite merge_pass_perm by (done || lia). done.
  - intros x. rewrite merge_pass_ties by (done || lia). done.
  - by apply merge_pass_runs.
Qed.

Lemma runs_sorted_1 l : runs_sorted compare 1 l.
Proof. intros k. destruct (drop _ l); simpl; repeat constructor. Qed.

Lemma try_sort_ensures l :
  ensures (try_sort_by_checkpoint compare l) (λ out, stably_sorts compare l out).
Proof.
  unfold try_sort_by_checkpoint. destruct (Nat.ltb_spec (length l) 2) as [Hlt|Hge].
  { apply ensures_checkpoint, ensures_ret. split; [|by split].
    destruct l as [|x [|y l]]; simpl in Hlt; [constructor|repeat constructor|lia]. }
  apply ensures_checkpoint, ensures_reserve.
  assert (Hcopy : ∀ acc, follows (fold_m (λ scratch item, checkpoint;; mret (scratch ++ [item])) acc l)
    (Ok (acc ++ l))).
  { intros acc. clear Hge. revert acc; induction l as [|x l IH]; intros acc; simpl.
    - rewrite app_nil_r. apply follows_ret.
    - apply (follows_seq _ (acc ++ [x])).
      + apply (follows_seq _ tt); [apply follows_checkpoint|apply follows_ret].
      + specialize (IH (acc ++ [x])). by rewrite <-app_assoc in IH. }
  eapply ensures_bind; [apply ensures_follows, Hcopy|]. intros scratch ->. simpl.
  eapply ensures_bind.
  { apply (ensures_while (sort_inv l) (λ st, length st.1.2 - st.1.1)).
    - intros [[w items] scr] Hi Hc. apply Nat.ltb_lt in Hc. split; [simpl; lia|].
      by apply sort_pass_ensures.
    - split_and!; [lia|done|done|apply runs_sorted_1|done].
    - simpl. lia. }
  intros [[w items] scr] [(Hw & Hp & Ht & Hr & _) Hc]. apply Nat.ltb_ge in Hc.
  apply ensures_ret. split; [|by split].
  specialize (Hr 0). rewrite Nat.mul_0_l, drop_0, take_ge in Hr by lia. done.
Qed.

(** Whatever the environment does, the sort is the stable sort or an abort. *)
Lemma try_sort_follows l :
  follows (try_sort_by_checkpoint compare l) (Ok (insertion_sort compare l)).
Proof.
  apply ensures_follows. eapply ensures_weaken; [apply try_sort_ensures|].
  intros out Hout. by apply (stably_sorts_unique compare l), insertion_sort_stable.
Qed.
End sort_proofs.

(** The bottom-up merge sort with a scratch buffer returns, in every
    environment that does not abort it, exactly the stable sort of its input:
    its output is ordered, a permutation of the input, and keeps the input
    order of elements the comparison cannot tell apart.  No index is out of
    range and every loop ends. *)
Theorem try_sort_by_checkpoint_correct {S : Type} `{Env S} {T : Type} (compare : T → T → comparison)
    (TP : TotalPreorder compare) (l : list T) :
  ∃ out, follows (try_sort_by_checkpoint compare l) (Ok out) ∧ stably_sorts compare l out ∧
    ∀ out', stably_sorts compare l out' → out' = out.
Proof.
  exists (insertion_sort compare l). split; [apply try_sort_follows; exact TP|].
  split; [by apply insertion_sort_stable|]. intros out' Ho.
  by apply (stably_sorts_unique compare l), insertion_sort_stable.
Qed.

Lemma by_key_preorder {T} (key : T → nat) :
  TotalPreorder (λ x y, key x ?= key y).
Proof.
  split.
  - intros x y. apply Nat.compare_antisym.
  - intros x y z. rewrite !Nat.compare_gt_iff. lia.
Qed.

Lemma try_sort_by_checkpoint_correct_witness :
  (∃ out, follows (H := calm)
      (try_sort_by_checkpoint (H := calm) (λ x y, x.1 ?= y.1) [(3, 0); (1, 1); (3, 2); (2, 3); (1, 4)]) (Ok out) ∧
    stably_sorts (λ x y, x.1 ?= y.1) [(3, 0); (1, 1); (3, 2); (2, 3); (1, 4)] out ∧
    ∀ out', stably_sorts (λ x y, x.1 ?= y.1) [(3, 0); (1, 1); (3, 2); (2, 3); (1, 4)] out' → out' = out) ∧
  run_calm (try_sort_by_checkpoint (H := calm) (λ x y, x.1 ?= y.1)
    [(3, 0); (1, 1); (3, 2); (2, 3); (1, 4)]) = Ok [(1, 1); (1, 4); (2, 3); (3, 0); (3, 2)].
Proof.
  split; [|reflexivity].
  apply (try_sort_by_checkpoint_correct (H := calm) (λ x y : nat * nat, x.1 ?= y.1)
    (by_key_preorder (λ x : nat * nat, x.1))).
Defined.
