(* ===== verification/Orders.v ===== *)
(** * Comparison functions

    The comparisons that [Ord::cmp] derives for integers, byte strings and
    tuples, as total preorders; sorted lists under them, and the check of
    neighbours that finds duplicates. *)

From S2P Require Import Prelude Core Effects Runs Bytes Sorting.

(** A total preorder that tells all values apart. *)
Class TotalOrder {T} (compare : T → T → comparison) : Prop := {
  order_preorder :: TotalPreorder compare;
  compare_Eq : ∀ x y, compare x y = Eq → x = y;
}.

Arguments compare_Eq {T} compare {_} x y.

(** [left.key().cmp(&right.key())]. *)
Definition compare_on {T K} (key : T → K) (compare : K → K → comparison) (x y : T) : comparison :=
  compare (key x) (key y).

(** The comparison of tuples: the next component decides ties. *)
Definition compare_then {T} (first second : T → T → comparison) (x y : T) : comparison :=
  match first x y with Eq => second x y | c => c end.

(** [Ord::cmp] on pairs. *)
Definition compare_pair {A B} (first : A → A → comparison) (second : B → B → comparison) :
    A * B → A * B → comparison :=
  compare_then (compare_on fst first) (compare_on snd second).

(** [<[u8]>::cmp]: lexicographic. *)
Fixpoint compare_bytes (x y : list byte) : comparison :=
  match x, y with
  | [], [] => Eq
  | [], _ => Lt
  | _, [] => Gt
  | a :: x, b :: y => match byte_val a ?= byte_val b with Eq => compare_bytes x y | c => c end
  end.

#[export] Instance N_order : TotalOrder N.compare.
Proof.
  split; [split|apply N.compare_eq].
  - intros x y. apply N.compare_antisym.
  - intros x y z. rewrite !N.compare_gt_iff. lia.
Qed.

#[export] Instance compare_on_preorder {T K} (key : T → K) compare :
  TotalPreorder compare → TotalPreorder (compare_on key compare).
Proof.
  intros HP. split; unfold compare_on; intros; [apply compare_antisym, HP|by eapply (compare_trans compare)].
Qed.

Lemma compare_strict {T} (compare : T → T → comparison) `{!TotalPreorder compare} x y z :
  compare x y = Lt → compare y z ≠ Gt → compare x z = Lt.
Proof.
  intros Hxy Hyz. destruct (compare x z) eqn:Hxz; [|done|].
  - exfalso. apply (compare_trans compare y z x); [done|rewrite (compare_antisym compare x z), Hxz; done|].
    by rewrite (compare_antisym compare x y), Hxy.
  - exfalso. apply (compare_trans compare x y z); [by rewrite Hxy|done|done].
Qed.

Lemma compare_strict_r {T} (compare : T → T → comparison) `{!TotalPreorder compare} x y z :
  compare x y ≠ Gt → compare y z = Lt → compare x z = Lt.
Proof.
  intros Hxy Hyz. destruct (compare x z) eqn:Hxz; [|done|].
  - exfalso. apply (compare_trans compare z x y); [rewrite (compare_antisym compare x z), Hxz; done|done|].
    by rewrite (compare_antisym compare y z), Hyz.
  - exfalso. apply (compare_trans compare x y z); [done|by rewrite Hyz|done].
Qed.

Lemma compare_sym_Eq {T} (compare : T → T → comparison) `{!TotalPreorder compare} x y :
  compare x y = Eq → compare y x = Eq.
Proof. intros H. by rewrite (compare_antisym compare x y), H. Qed.

Lemma compare_trans_Eq {T} (compare : T → T → comparison) `{!TotalPreorder compare} x y z :
  compare x y = Eq → compare y z = Eq → compare x z = Eq.
Proof.
  intros Hxy Hyz. assert (compare x z ≠ Gt) as H1 by (apply (compare_trans compare x y z); by rewrite ?Hxy, ?Hyz).
  assert (compare z x ≠ Gt) as H2.
  { apply (compare_trans compare z y x); by rewrite (compare_sym_Eq compare) by done. }
  rewrite (compare_antisym compare x z) in H2. by destruct (compare x z).
Qed.

#[export] Instance compare_then_preorder {T} (first second : T → T → comparison) :
  TotalPreorder first → TotalPreorder second → TotalPreorder (compare_then first second).
Proof.
  intros H1 H2. unfold compare_then. split.
  - intros x y. rewrite (compare_antisym first x y). destruct (first x y); [apply compare_antisym, H2|done..].
  - intros x y z. destruct (first x y) eqn:Hxy, (first y z) eqn:Hyz; try done.
    + rewrite (compare_trans_Eq first x y z) by done. by apply compare_trans.
    + by rewrite (compare_strict_r first x y z) by (by rewrite ?Hxy).
    + by rewrite (compare_strict first x y z) by (by rewrite ?Hyz).
    + by rewrite (compare_strict first x y z) by (by rewrite ?Hyz).
Qed.

#[export] Instance bytes_order : TotalOrder compare_bytes.
Proof.
  split; [split|].
  - intros x. induction x as [|a x IH]; intros [|b y]; try done. cbn.
    rewrite (N.compare_antisym (byte_val a)). destruct (byte_val a ?= byte_val b); [apply IH|done..].
  - intros x. induction x as [|a x IH]; intros [|b y] [|c z]; try done. cbn.
    destruct (N.compare_spec (byte_val a) (byte_val b)), (N.compare_spec (byte_val b) (byte_val c)); try done;
      intros Hx Hy; destruct (N.compare_spec (byte_val a) (byte_val c)); try done; try lia.
    by eapply IH.
  - intros x. induction x as [|a x IH]; intros [|b y]; try done. cbn.
    destruct (N.compare_spec (byte_val a) (byte_val b)) as [E| |]; try done. intros Hx. f_equal; [|by apply IH].
    rewrite <-(byte_of_val a), <-(byte_of_val b). by rewrite E.
Qed.

Lemma compare_then_Eq {T} (first second : T → T → comparison) x y :
  compare_then first second x y = Eq ↔ first x y = Eq ∧ second x y = Eq.
Proof. unfold compare_then. destruct (first x y); naive_solver. Qed.

#[export] Instance compare_pair_order {A B} (first : A → A → comparison) (second : B → B → comparison) :
  TotalOrder first → TotalOrder second → TotalOrder (compare_pair first second).
Proof.
  intros H1 H2. unfold compare_pair. split; [apply _|]. intros [a b] [a' b'].
  rewrite compare_then_Eq. unfold compare_on. cbn.
  intros [->%(compare_Eq first) ->%(compare_Eq second)]. done.
Qed.

(** ** Sorted lists *)

(** Lists with the same elements, which the comparison tells apart, have
    the same sorted list. *)
Lemma insertion_sort_perm {T} (compare : T → T → comparison) `{!TotalPreorder compare} l l' :
  (∀ x y, x ∈ l → y ∈ l → compare x y = Eq → x = y) → l ≡ₚ l' →
  insertion_sort compare l = insertion_sort compare l'.
Proof.
  intros Hu Hp. destruct (insertion_sort_stable compare l) as (Hs1 & Hp1 & _).
  destruct (insertion_sort_stable compare l') as (Hs2 & Hp2 & _).
  apply (StronglySorted_unique_strong (not_greater compare)); [|done..|by rewrite Hp1, Hp2].
  intros x y Hx Hy Hxy Hyx. rewrite Hp1 in Hx. rewrite Hp2, <-Hp in Hy. apply Hu; [done..|].
  unfold not_greater in *. rewrite (compare_antisym compare x y) in Hyx. by destruct (compare x y).
Qed.

(** Neighbours that are equal. *)
Definition distinct_neighbours {S} `{Env S} {T} `{EqDecision T} (error : PithosError) (l : list T) : M S unit :=
  for_each (λ '(a, b), checkpoint;; if bool_decide (a = b) then fail error else mret tt) (windows2 l).

Lemma distinct_neighbours_run {T} `{EqDecision T} (compare : T → T → comparison) `{!TotalOrder compare} error l :
  StronglySorted (not_greater compare) l →
  run_calm (distinct_neighbours error l) = if decide (NoDup l) then Ok tt else Err error.
Proof.
  unfold distinct_neighbours, for_each. induction 1 as [|a l Hs IH Ha]; [by rewrite decide_True by constructor|].
  destruct l as [|b l]; [rewrite decide_True; [done|apply NoDup_singleton]|].
  change (windows2 (a :: b :: l)) with ((a, b) :: windows2 (b :: l)). cbn [fold_m]. rewrite run_calm_bind. calm_run.
  case_bool_decide as Hab.
  { calm_run. rewrite decide_False; [done|]. rewrite NoDup_cons, Hab. intros [Hn _]. apply Hn. by left. }
  calm_run. rewrite IH. assert (a ∉ b :: l) as Hn.
  { intros Hin. apply Forall_cons in Ha as [Hle Hall].
    assert (not_greater compare b a) as Hba.
    { apply elem_of_cons in Hin as [->|Hin]; [done|]. apply StronglySorted_inv in Hs as [_ Hb].
      rewrite Forall_forall in Hb. by apply Hb. }
    apply Hab, (compare_Eq compare). unfold not_greater in *.
    rewrite (compare_antisym compare a b) in Hba. by destruct (compare a b). }
  destruct (decide (NoDup (b :: l))) as [Hnd|Hnd].
  - rewrite decide_True; [done|]. by constructor.
  - rewrite decide_False; [done|]. rewrite NoDup_cons. tauto.
Qed.

Lemma distinct_neighbours_follows {S} `{Env S} {T} `{EqDecision T} error (l : list T) :
  follows (distinct_neighbours error l) (run_calm (distinct_neighbours error l)).
Proof. unfold distinct_neighbours, for_each. follows_calm_run. Qed.

(** Sorting follows its calm run, which is the reference sort. *)
Lemma sort_run {T} (compare : T → T → comparison) `{!TotalPreorder compare} l :
  run_calm (try_sort_by_checkpoint compare l) = Ok (insertion_sort compare l).
Proof. apply follows_calm. by apply try_sort_follows. Qed.

Lemma sort_follows_run {S} `{Env S} {T} (compare : T → T → comparison) `{!TotalPreorder compare} l :
  follows (try_sort_by_checkpoint compare l) (run_calm (try_sort_by_checkpoint compare l)).
Proof. rewrite sort_run by apply _. by apply try_sort_follows. Qed.

Lemma distinct_sorted {T} `{EqDecision T} (compare : T → T → comparison) `{!TotalOrder compare} error l :
  run_calm (distinct_neighbours error (insertion_sort compare l)) = Ok tt ↔ NoDup l.
Proof.
  destruct (insertion_sort_stable compare l) as (Hs & Hp & _).
  assert (NoDup (insertion_sort compare l) ↔ NoDup l) as Hn by by rewrite Hp.
  rewrite (distinct_neighbours_run compare) by done. destruct (decide _); naive_solver.
Qed.

(** Walks down a routine that follows its calm run: [tac] proves the calls
    of other routines. *)
Ltac follows_by tac :=
  repeat first
  [ follows_construct
  | match goal with
    | |- follows (try_sort_by_checkpoint _ _) _ =>
        first [ apply (sort_follows_run N.compare) | apply (sort_follows_run compare_bytes) ]
    | |- follows (distinct_neighbours _ _) _ => apply distinct_neighbours_follows
    | |- follows (push_each _ _ _) _ => apply push_each_follows
    end
  | tac ].
