(* ===== verification/Chunking.v ===== *)
(** * Logical chunking ([crates/pithos-analysis/src/chunking.rs])

    The chunking configuration, the three in-memory chunkers, the coverage
    check and the deterministic numbering of chunks.  The content-defined
    cutter is the [fastcdc] crate, a parameter. *)

From S2P Require Import Prelude Core Effects Bytes Sorting.

Definition KIB : N := 1024.
Definition MIB : N := 1024 * KIB.

(** The [fastcdc] crate: the documented bounds of its parameters, and the
    (offset, length) pairs that [FastCDC::with_level_and_seed(data, min, avg,
    max, Normalization::Level1, 0)] iterates over. *)
Class FastCdc := {
  MINIMUM_MIN : N; MINIMUM_MAX : N;
  AVERAGE_MIN : N; AVERAGE_MAX : N;
  MAXIMUM_MIN : N; MAXIMUM_MAX : N;
  fastcdc_chunks : list byte → N → N → N → list (N * N);
}.

(** Cuts that follow one another from [cursor] to [end_], none empty and
    none longer than [max]. *)
Fixpoint cuts (max cursor : N) (chunks : list (N * N)) (end_ : N) : Prop :=
  match chunks with
  | [] => cursor = end_
  | (offset, length) :: chunks =>
      offset = cursor ∧ 0 < length <= max ∧ cuts max (cursor + length) chunks end_
  end.

(** What the crate documents: the chunks cover the data in order, and their
    sizes do not exceed the maximum. *)
Class FastCdcLaws `{FastCdc} : Prop := {
  maximum_u32 : MAXIMUM_MAX <= u32_MAX;
  fastcdc_cuts : ∀ data min avg max,
    min < avg < max → cuts max 0 (fastcdc_chunks data min avg max) (len data);
}.

Record ChunkingConfig := {
  fastcdc_min : N;
  fastcdc_avg : N;
  fastcdc_max : N;
  high_entropy_fixed : N;
  micro_file_max : N;
  micro_pack_target : N;
  ck_max_chunks : N;
  max_logical_bytes : N;
  ck_max_metadata_bytes : N;
  ck_max_path_bytes : N;
}.

Definition ChunkingConfig_default : ChunkingConfig :=
  let limits := DecodeLimits_default in {|
    fastcdc_min := 64 * KIB;
    fastcdc_avg := 256 * KIB;
    fastcdc_max := MIB;
    high_entropy_fixed := MIB;
    micro_file_max := 64 * KIB;
    micro_pack_target := 4 * MIB;
    ck_max_chunks := max_chunks limits;
    max_logical_bytes := max_original_bytes limits;
    ck_max_metadata_bytes := max_metadata_bytes limits;
    ck_max_path_bytes := max_path_bytes limits;
  |}.

(** [(lo..=hi).contains(&x)]. *)
Definition in_range (lo hi x : N) : bool := (lo <=? x) && (x <=? hi).

Definition ChunkingConfig_validate `{FastCdc} (config : ChunkingConfig) : Result unit :=
  min ← ok_or IntegerOverflow (usize_try_from (fastcdc_min config));
  avg ← ok_or IntegerOverflow (usize_try_from (fastcdc_avg config));
  max ← ok_or IntegerOverflow (usize_try_from (fastcdc_max config));
  if negb (in_range MINIMUM_MIN MINIMUM_MAX min && in_range AVERAGE_MIN AVERAGE_MAX avg &&
           in_range MAXIMUM_MIN MAXIMUM_MAX max && (min <? avg) && (avg <? max))
  then Err (InvalidMetadata "FastCDC sizes")
  else if negb (in_range MIB (4 * MIB) (high_entropy_fixed config))
  then Err (InvalidMetadata "high entropy block size")
  else if (micro_file_max config =? 0) || (64 * KIB <? micro_file_max config)
  then Err (InvalidMetadata "microfile size limit")
  else if negb (in_range MIB (16 * MIB) (micro_pack_target config)) ||
          (micro_pack_target config <? micro_file_max config)
  then Err (InvalidMetadata "microfile pack target")
  else if (ck_max_chunks config =? 0) || (max_logical_bytes config =? 0) ||
          (ck_max_metadata_bytes config =? 0) || (ck_max_path_bytes config =? 0)
  then Err (InvalidMetadata "chunking resource limit")
  else Ok tt.

Record ChunkOrigin := { co_entry_id : N; co_object_id : N; base_offset : N }.

Inductive ChunkingMethod := FastCdcV2020 | FixedHighEntropy | Structural | MicroFile.

#[export] Instance ChunkingMethod_eq_dec : EqDecision ChunkingMethod.
Proof. solve_decision. Defined.

Record LogicalChunkDraft := {
  dr_entry_id : N; dr_object_id : N; dr_logical_offset : N; dr_length : N;
  dr_method : ChunkingMethod;
}.

Record LogicalChunk := {
  lc_chunk_id : N; lc_entry_id : N; lc_object_id : N; lc_logical_offset : N;
  lc_length : N; lc_method : ChunkingMethod;
}.

Definition ensure_chunk_count (count max_chunks : N) : Result unit :=
  if max_chunks <? count then Err (ResourceLimit "chunk count") else Ok tt.

Definition ensure_logical_size (size : N) (config : ChunkingConfig) : Result unit :=
  if max_logical_bytes config <? size then Err (ResourceLimit "logical bytes") else Ok tt.

(** [ChunkingConfig { max_chunks, max_logical_bytes, ..*config }]. *)
Definition narrow_config (config : ChunkingConfig) (max_chunks logical_bytes : N) : ChunkingConfig := {|
  fastcdc_min := fastcdc_min config; fastcdc_avg := fastcdc_avg config;
  fastcdc_max := fastcdc_max config; high_entropy_fixed := high_entropy_fixed config;
  micro_file_max := micro_file_max config; micro_pack_target := micro_pack_target config;
  ck_max_chunks := max_chunks; max_logical_bytes := logical_bytes;
  ck_max_metadata_bytes := ck_max_metadata_bytes config;
  ck_max_path_bytes := ck_max_path_bytes config;
|}.

Section chunking.
Context {S : Type} `{Env S} `{FastCdc}.

Definition push_relative_chunk (chunks : list LogicalChunkDraft) (origin : ChunkOrigin)
    (relative_offset length : N) (method : ChunkingMethod) (max_chunks : N) :
    M S (list LogicalChunkDraft) :=
  n ← lift (ok_or IntegerOverflow (u64_try_from (len chunks)));
  next_count ← lift (ok_or IntegerOverflow (checked_add n 1));
  lift (ensure_chunk_count next_count max_chunks);;
  length ← lift (ok_or IntegerOverflow (u32_try_from length));
  if length =? 0 then fail (InvalidMetadata "zero-length chunk") else
  logical_offset ← lift (ok_or IntegerOverflow (checked_add (base_offset origin) relative_offset));
  _ ← lift (ok_or IntegerOverflow (checked_add logical_offset length));
  try_reserve 1;;
  mret (chunks ++ [{| dr_entry_id := co_entry_id origin; dr_object_id := co_object_id origin;
                      dr_logical_offset := logical_offset; dr_length := length;
                      dr_method := method |}]).

(** The body of the coverage loop. *)
Definition coverage_step (origin : ChunkOrigin) (expected_end cursor : N)
    (chunk : LogicalChunkDraft) : M S N :=
  checkpoint;;
  if negb (dr_entry_id chunk =? co_entry_id origin) ||
     negb (dr_object_id chunk =? co_object_id origin) ||
     negb (dr_logical_offset chunk =? cursor) || (dr_length chunk =? 0)
  then fail (InvalidMetadata "chunk coverage") else
  cursor ← lift (ok_or IntegerOverflow (checked_add cursor (dr_length chunk)));
  if expected_end <? cursor then fail (InvalidMetadata "chunk coverage") else mret cursor.

Definition validate_chunk_coverage_with_checkpoint (chunks : list LogicalChunkDraft)
    (origin : ChunkOrigin) (logical_size : N) : M S unit :=
  checkpoint;;
  expected_end ← lift (ok_or IntegerOverflow (checked_add (base_offset origin) logical_size));
  if logical_size =? 0 then
    if match chunks with
       | [] => true
       | [chunk] =>
           (dr_entry_id chunk =? co_entry_id origin) &&
           (dr_object_id chunk =? co_object_id origin) &&
           (dr_logical_offset chunk =? base_offset origin) && (dr_length chunk =? 0) &&
           bool_decide (dr_method chunk = MicroFile)
       | _ => false
       end
    then mret tt else fail (InvalidMetadata "empty chunk coverage")
  else
  if bool_decide (chunks = []) then fail (InvalidMetadata "missing chunk coverage") else
  cursor ← fold_m (coverage_step origin expected_end) (base_offset origin) chunks;
  if negb (cursor =? expected_end) then fail (InvalidMetadata "chunk coverage") else mret tt.

Definition chunk_fastcdc_with_checkpoint (data : list byte) (origin : ChunkOrigin)
    (config : ChunkingConfig) : M S (list LogicalChunkDraft) :=
  lift (ChunkingConfig_validate config);;
  logical_size ← lift (ok_or IntegerOverflow (u64_try_from (len data)));
  lift (ensure_logical_size logical_size config);;
  _ ← lift (ok_or IntegerOverflow (checked_add (base_offset origin) logical_size));
  chunks ← fold_m (λ chunks '(offset, length),
      checkpoint;;
      offset ← lift (ok_or IntegerOverflow (u64_try_from offset));
      push_relative_chunk chunks origin offset length FastCdcV2020 (ck_max_chunks config)) []
    (fastcdc_chunks data (fastcdc_min config) (fastcdc_avg config) (fastcdc_max config));
  validate_chunk_coverage_with_checkpoint chunks origin logical_size;;
  mret chunks.

(** The body of [while relative_offset < logical_size]. *)
Definition fixed_step (origin : ChunkOrigin) (config : ChunkingConfig) (logical_size block_size : N)
    (st : list LogicalChunkDraft * N) : M S (list LogicalChunkDraft * N) :=
  let '(chunks, relative_offset) := st in
  checkpoint;;
  let remaining := logical_size - relative_offset in
  let length := N.min remaining block_size in
  size ← lift (ok_or IntegerOverflow (usize_try_from length));
  chunks ← push_relative_chunk chunks origin relative_offset size FixedHighEntropy
    (ck_max_chunks config);
  relative_offset ← lift (ok_or IntegerOverflow (checked_add relative_offset length));
  mret (chunks, relative_offset).

(** The loop takes [chunk_count] steps. *)
Definition chunk_fixed_high_entropy_with_checkpoint (logical_size : N) (origin : ChunkOrigin)
    (config : ChunkingConfig) : M S (list LogicalChunkDraft) :=
  lift (ChunkingConfig_validate config);;
  lift (ensure_logical_size logical_size config);;
  _ ← lift (ok_or IntegerOverflow (checked_add (base_offset origin) logical_size));
  if logical_size =? 0 then mret [] else
  let block_size := high_entropy_fixed config in
  chunk_count ← lift (ok_or IntegerOverflow
    (value ← checked_sub logical_size 1; value ← checked_div value block_size; checked_add value 1));
  lift (ensure_chunk_count chunk_count (ck_max_chunks config));;
  capacity ← lift (ok_or IntegerOverflow (usize_try_from chunk_count));
  try_reserve capacity;;
  '(chunks, _) ← while_m (N.to_nat chunk_count)
    (λ '(_, relative_offset), relative_offset <? logical_size)
    (fixed_step origin config logical_size block_size) ([], 0);
  validate_chunk_coverage_with_checkpoint chunks origin logical_size;;
  mret chunks.

Definition validate_boundary_ends (boundary_ends : list N) (logical_size : N) : M S unit :=
  if bool_decide (boundary_ends = []) || negb (bool_decide (last boundary_ends = Some logical_size))
  then fail (InvalidMetadata "structural boundaries") else
  _ ← fold_m (λ previous boundary,
      checkpoint;;
      if (boundary <=? previous) || (logical_size <? boundary)
      then fail (InvalidMetadata "structural boundaries") else mret boundary) 0 boundary_ends;
  mret tt.

(** The body of [for &region_end in boundary_ends]. *)
Definition structural_step (data : list byte) (origin : ChunkOrigin) (config : ChunkingConfig)
    (st : list LogicalChunkDraft * N) (region_end : N) : M S (list LogicalChunkDraft * N) :=
  let '(chunks, region_start) := st in
  checkpoint;;
  region_len ← lift (ok_or IntegerOverflow (checked_sub region_end region_start));
  chunks ←
    (if region_len <=? fastcdc_max config then
      size ← lift (ok_or IntegerOverflow (usize_try_from region_len));
      push_relative_chunk chunks origin region_start size Structural (ck_max_chunks config)
    else
      start ← lift (ok_or IntegerOverflow (usize_try_from region_start));
      end_ ← lift (ok_or IntegerOverflow (usize_try_from region_end));
      n ← lift (ok_or IntegerOverflow (u64_try_from (len chunks)));
      remaining_limit ← lift (ok_or IntegerOverflow (checked_sub (ck_max_chunks config) n));
      if remaining_limit =? 0 then fail (ResourceLimit "chunk count") else
      sub_base ← lift (ok_or IntegerOverflow (checked_add (base_offset origin) region_start));
      let sub_origin := {| co_entry_id := co_entry_id origin;
                           co_object_id := co_object_id origin; base_offset := sub_base |} in
      let sub_config := narrow_config config remaining_limit region_len in
      (* [&data[start..end]] *)
      if (end_ <? start) || (len data <? end_) then fail panic else
      subchunks ← chunk_fastcdc_with_checkpoint
        (sub (N.to_nat start) (N.to_nat (end_ - start)) data) sub_origin sub_config;
      try_reserve (len subchunks);;
      fold_m (λ chunks chunk,
          checkpoint;;
          mret (chunks ++ [{|
            dr_entry_id := dr_entry_id chunk; dr_object_id := dr_object_id chunk;
            dr_logical_offset := dr_logical_offset chunk; dr_length := dr_length chunk;
            dr_method := Structural |}])) chunks subchunks);
  mret (chunks, region_end).

Definition chunk_structural_with_checkpoint (data : list byte) (origin : ChunkOrigin)
    (boundary_ends : list N) (config : ChunkingConfig) : M S (list LogicalChunkDraft) :=
  lift (ChunkingConfig_validate config);;
  logical_size ← lift (ok_or IntegerOverflow (u64_try_from (len data)));
  lift (ensure_logical_size logical_size config);;
  _ ← lift (ok_or IntegerOverflow (checked_add (base_offset origin) logical_size));
  if bool_decide (data = []) then
    if bool_decide (boundary_ends = []) then mret []
    else fail (InvalidMetadata "structural boundaries")
  else
  n ← lift (ok_or IntegerOverflow (u64_try_from (len boundary_ends)));
  lift (ensure_chunk_count n (ck_max_chunks config));;
  validate_boundary_ends boundary_ends logical_size;;
  '(chunks, _) ← fold_m (structural_step data origin config) ([], 0) boundary_ends;
  validate_chunk_coverage_with_checkpoint chunks origin logical_size;;
  mret chunks.

(** The normative order: [(entry_id, object_id, logical_offset)]. *)
Definition draft_key (d : LogicalChunkDraft) : N * N * N :=
  (dr_entry_id d, dr_object_id d, dr_logical_offset d).

Definition compare_key (x y : N * N * N) : comparison :=
  match x.1.1 ?= y.1.1 with
  | Eq => match x.1.2 ?= y.1.2 with Eq => x.2 ?= y.2 | c => c end
  | c => c
  end.

(** The body of the materialization loop. *)
Definition assign_step (chunks : list LogicalChunk) (item : N * LogicalChunkDraft) :
    M S (list LogicalChunk) :=
  let '(index, draft) := item in
  checkpoint;;
  if (dr_length draft =? 0) && negb (bool_decide (dr_method draft = MicroFile))
  then fail (InvalidMetadata "zero-length chunk") else
  _ ← lift (ok_or IntegerOverflow (checked_add (dr_logical_offset draft) (dr_length draft)));
  chunk_id ← lift (ok_or IntegerOverflow (u64_try_from index));
  mret (chunks ++ [{|
    lc_chunk_id := chunk_id; lc_entry_id := dr_entry_id draft;
    lc_object_id := dr_object_id draft; lc_logical_offset := dr_logical_offset draft;
    lc_length := dr_length draft; lc_method := dr_method draft |}]).

Definition assign_chunk_ids_with_checkpoint (drafts : list LogicalChunkDraft) (max_chunks : N) :
    M S (list LogicalChunk) :=
  if max_chunks =? 0 then fail (InvalidMetadata "chunk count limit") else
  n ← lift (ok_or IntegerOverflow (u64_try_from (len drafts)));
  lift (ensure_chunk_count n max_chunks);;
  drafts ← try_sort_by_checkpoint (λ l r, compare_key (draft_key l) (draft_key r)) drafts;
  for_each (λ '(a, b),
      checkpoint;;
      if bool_decide (draft_key a = draft_key b)
      then fail (InvalidMetadata "duplicate chunk position") else mret tt) (windows2 drafts);;
  try_reserve (len drafts);;
  fold_m assign_step [] (enumerate drafts).
End chunking.

(** ** Specification of coverage *)

(** The chunks of one object that lie end to end from [cursor] to [end_]. *)
Fixpoint contiguous (origin : ChunkOrigin) (cursor : N) (chunks : list LogicalChunkDraft)
    (end_ : N) : Prop :=
  match chunks with
  | [] => cursor = end_
  | c :: chunks =>
      dr_entry_id c = co_entry_id origin ∧ dr_object_id c = co_object_id origin ∧
      dr_logical_offset c = cursor ∧ 0 < dr_length c ∧
      contiguous origin (cursor + dr_length c) chunks end_
  end.

(** Exact, ordered coverage of one object; an object without bytes may have
    one empty micro-file chunk. *)
Definition covers (origin : ChunkOrigin) (size : N) (chunks : list LogicalChunkDraft) : Prop :=
  base_offset origin + size <= u64_MAX ∧
  (contiguous origin (base_offset origin) chunks (base_offset origin + size) ∨
   size = 0 ∧ chunks = [{| dr_entry_id := co_entry_id origin; dr_object_id := co_object_id origin;
     dr_logical_offset := base_offset origin; dr_length := 0; dr_method := MicroFile |}]).

Definition chunk_holds (position : N) (c : LogicalChunkDraft) : Prop :=
  dr_logical_offset c <= position < dr_logical_offset c + dr_length c.

Lemma contiguous_le origin cursor chunks end_ :
  contiguous origin cursor chunks end_ → cursor <= end_.
Proof.
  revert cursor; induction chunks as [|c chunks IH]; intros cursor; cbn [contiguous]; [lia|].
  intros (_ & _ & _ & ? & Hc). apply IH in Hc. lia.
Qed.

Lemma contiguous_app origin cursor l1 l2 mid end_ :
  contiguous origin cursor l1 mid → contiguous origin mid l2 end_ →
  contiguous origin cursor (l1 ++ l2) end_.
Proof.
  revert cursor; induction l1 as [|c l1 IH]; intros cursor; cbn [contiguous app]; [by intros ->|].
  intros (? & ? & ? & ? & ?) ?. do 4 (split; [done|]). by apply IH.
Qed.

(** A contiguous run holds the positions of its range, and no other. *)
Lemma contiguous_holds origin cursor chunks end_ i c position :
  contiguous origin cursor chunks end_ → chunks !! i = Some c → chunk_holds position c →
  cursor <= position < end_.
Proof.
  revert cursor i; induction chunks as [|c0 chunks IH]; intros cursor [|i]; cbn [contiguous]; try done.
  - intros (_ & _ & <- & _ & Hc) [= <-] [? ?]. apply contiguous_le in Hc. lia.
  - intros (_ & _ & _ & ? & Hc) Hi Hp. pose proof (IH _ _ Hc Hi Hp). lia.
Qed.

Lemma contiguous_exactly_one origin cursor chunks end_ position :
  contiguous origin cursor chunks end_ → cursor <= position < end_ →
  ∃ i c, chunks !! i = Some c ∧ chunk_holds position c ∧
    ∀ j c', chunks !! j = Some c' → chunk_holds position c' → j = i.
Proof.
  revert cursor; induction chunks as [|c0 chunks IH]; intros cursor; cbn [contiguous]; [lia|].
  intros (_ & _ & <- & ? & Hc) Hp.
  destruct (N.lt_ge_cases position (dr_logical_offset c0 + dr_length c0)) as [Hlt|Hge].
  - exists 0%nat, c0. split; [done|]. split; [split; lia|].
    intros [|j] c' Hj Hh; [done|]. pose proof (contiguous_holds _ _ _ _ _ _ _ Hc Hj Hh). lia.
  - destruct (IH _ Hc) as (i & c & Hi & Hh & Hu); [lia|].
    exists (Datatypes.S i), c. split; [done|]. split; [done|].
    intros [|j] c' Hj Hh'; [|f_equal; by eapply Hu].
    injection Hj as <-. unfold chunk_holds in Hh'. lia.
Qed.

(** ** The coverage check *)

Section coverage.
Context {S : Type} `{Env S}.

Lemma coverage_step_Ok origin expected_end cursor c v :
  expected_end <= u64_MAX →
  run_calm (coverage_step origin expected_end cursor c) = Ok v ↔
  dr_entry_id c = co_entry_id origin ∧ dr_object_id c = co_object_id origin ∧
  dr_logical_offset c = cursor ∧ 0 < dr_length c ∧ v = cursor + dr_length c ∧ v <= expected_end.
Proof.
  intros He. unfold coverage_step. split.
  - intros Hr. calm_inv. repeat split; lia.
  - intros (-> & -> & <- & ? & -> & ?). by calm_run.
Qed.

Lemma coverage_loop origin expected_end cursor chunks v :
  expected_end <= u64_MAX →
  run_calm (fold_m (coverage_step origin expected_end) cursor chunks) = Ok v ↔
  contiguous origin cursor chunks v ∧ (chunks = [] ∨ v <= expected_end).
Proof.
  intros He. revert cursor; induction chunks as [|c chunks IH]; intros cursor; cbn [contiguous fold_m].
  { rewrite run_calm_ret. naive_solver. }
  rewrite run_calm_bind, bind_Ok. setoid_rewrite IH. setoid_rewrite coverage_step_Ok; [|done].
  split.
  - intros (mid & (? & ? & ? & ? & -> & ?) & Hc & Hle). split; [done|]. right.
    destruct Hle as [->|?]; [|done]. cbn in Hc. by subst.
  - intros ((? & ? & ? & ? & Hc) & [?|Hle]); [done|]. exists (cursor + dr_length c).
    pose proof (contiguous_le _ _ _ _ Hc). split; [|by auto]. repeat split; try done; lia.
Qed.

Lemma coverage_run origin chunks size :
  run_calm (validate_chunk_coverage_with_checkpoint chunks origin size) = Ok tt ↔
  covers origin size chunks.
Proof.
  unfold validate_chunk_coverage_with_checkpoint, covers. split.
  - intros Hr. calm_inv; split; try done.
    + destruct chunks as [|c [|]]; [left; simpl; lia| |done].
      right. split; [done|]. invres. destruct c; simpl in *. by subst.
    + left. subst. by apply coverage_loop in Ha as [? _].
  - intros [Hb Hc]. rewrite !run_calm_bind, run_calm_checkpoint, run_calm_lift.
    rewrite checked_add_ok by done. cbn [mbind result_bind ok_or]. rewrite run_calm_if.
    destruct (N.eqb_spec size 0) as [->|Hs].
    + destruct Hc as [Hc|[_ ->]].
      * destruct chunks as [|c chunks]; [done|]. destruct Hc as (_ & _ & <- & ? & Hc).
        apply contiguous_le in Hc. lia.
      * cbn. by rewrite !N.eqb_refl.
    + destruct Hc as [Hc|[? _]]; [|done].
      rewrite run_calm_if, bool_decide_eq_false_2 by (intros ->; cbn in Hc; lia).
      rewrite run_calm_bind.
      rewrite (proj2 (coverage_loop _ _ _ _ (base_offset origin + size) Hb)) by auto.
      cbn [mbind result_bind]. by rewrite N.eqb_refl.
Qed.

Lemma coverage_follows origin chunks size :
  follows (validate_chunk_coverage_with_checkpoint chunks origin size)
    (run_calm (validate_chunk_coverage_with_checkpoint chunks origin size)).
Proof.
  unfold validate_chunk_coverage_with_checkpoint, coverage_step. follows_calm_run.
Qed.
End coverage.

(** ** Pushing chunks *)

(** The draft that starts [offset] bytes into the object. *)
Definition draft (origin : ChunkOrigin) (method : ChunkingMethod) (cut : N * N) : LogicalChunkDraft :=
  {| dr_entry_id := co_entry_id origin; dr_object_id := co_object_id origin;
     dr_logical_offset := base_offset origin + cut.1; dr_length := cut.2; dr_method := method |}.

Section pushing.
Context {S : Type} `{Env S}.

Lemma push_run chunks origin offset length method max_chunks :
  len chunks < u64_MAX → 0 < length <= u32_MAX → base_offset origin + offset + length <= u64_MAX →
  run_calm (push_relative_chunk chunks origin offset length method max_chunks) =
  if max_chunks <? len chunks + 1 then Err (ResourceLimit "chunk count")
  else Ok (chunks ++ [draft origin method (offset, length)]).
Proof.
  intros. unfold push_relative_chunk, ensure_chunk_count. calm_run.
  destruct (N.ltb_spec max_chunks (len chunks + 1)); [done|]. by calm_run.
Qed.

Lemma push_follows chunks origin offset length method max_chunks :
  follows (push_relative_chunk chunks origin offset length method max_chunks)
    (run_calm (push_relative_chunk chunks origin offset length method max_chunks)).
Proof. unfold push_relative_chunk. follows_calm_run. Qed.
End pushing.

Lemma cuts_le max cursor l end_ : cuts max cursor l end_ → cursor + len l <= end_.
Proof.
  revert cursor; induction l as [|[o n] l IH]; intros cursor; cbn [cuts].
  - intros ->. rewrite len_nil. lia.
  - intros (_ & ? & Hl). apply IH in Hl. rewrite len_cons. lia.
Qed.

Lemma cuts_nonempty max cursor l end_ : cuts max cursor l end_ → cursor < end_ → 0 < len l.
Proof. destruct l; cbn [cuts]; [intros ->; lia|]. rewrite len_cons. lia. Qed.

Lemma cuts_contiguous origin method max cursor l end_ :
  cuts max cursor l end_ →
  contiguous origin (base_offset origin + cursor) (map (draft origin method) l)
    (base_offset origin + end_).
Proof.
  revert cursor; induction l as [|[o n] l IH]; intros cursor; cbn [cuts map contiguous]; [by intros ->|].
  intros (-> & [Hn _] & Hl). do 2 (split; [done|]). cbn. split; [done|]. split; [done|].
  rewrite <-N.add_assoc. by apply IH.
Qed.

Lemma cuts_lengths max cursor l end_ : cuts max cursor l end_ → Forall (λ c, c.2 <= max) l.
Proof.
  revert cursor; induction l as [|[o n] l IH]; intros cursor; cbn [cuts]; [constructor|].
  intros (_ & ? & Hl). constructor; [simpl; lia|]. by eapply IH.
Qed.

(** ** The FastCDC chunker *)

Lemma validate_Ok `{FastCdc} config :
  ChunkingConfig_validate config = Ok tt →
  fastcdc_min config < fastcdc_avg config < fastcdc_max config ∧
  fastcdc_max config <= MAXIMUM_MAX ∧ MIB <= high_entropy_fixed config <= 4 * MIB ∧
  0 < ck_max_chunks config.
Proof.
  unfold ChunkingConfig_validate, in_range. intros Hv. invres.
  repeat match goal with H : (if ?b then _ else _) = Ok _ |- _ => destruct b eqn:?; try discriminate end.
  invres. repeat split; try done; lia.
Qed.

(** The chunks of a valid request: the crate's cuts, or the error of the
    first limit that is exceeded. *)
Definition fastcdc_result `{FastCdc} (data : list byte) (origin : ChunkOrigin)
    (config : ChunkingConfig) : Result (list LogicalChunkDraft) :=
  ChunkingConfig_validate config;;
  size ← ok_or IntegerOverflow (u64_try_from (len data));
  ensure_logical_size size config;;
  _ ← ok_or IntegerOverflow (checked_add (base_offset origin) size);
  let chunks := fastcdc_chunks data (fastcdc_min config) (fastcdc_avg config) (fastcdc_max config) in
  ensure_chunk_count (len chunks) (ck_max_chunks config);;
  Ok (map (draft origin FastCdcV2020) chunks).

Section fastcdc.
Context `{FastCdcLaws}.

Lemma fastcdc_loop origin config acc cursor l end_ :
  cuts (fastcdc_max config) cursor l end_ → fastcdc_max config <= u32_MAX →
  base_offset origin + end_ <= u64_MAX → len acc <= cursor → len acc <= ck_max_chunks config →
  run_calm (fold_m (λ chunks '(offset, length),
      checkpoint;;
      offset ← lift (ok_or IntegerOverflow (u64_try_from offset));
      push_relative_chunk chunks origin offset length FastCdcV2020 (ck_max_chunks config)) acc l) =
  if ck_max_chunks config <? len acc + len l then Err (ResourceLimit "chunk count")
  else Ok (acc ++ map (draft origin FastCdcV2020) l).
Proof.
  revert acc cursor; induction l as [|[o n] l IH]; intros acc cursor Hl Hmax Hend Hacc Hlim.
  { cbn [fold_m map]. rewrite len_nil, app_nil_r. by calm_run. }
  destruct Hl as (-> & ? & Hl). pose proof (cuts_le _ _ _ _ Hl).
  cbn [fold_m map]. rewrite len_cons. calm_run. rewrite push_run by lia.
  destruct (N.ltb_spec (ck_max_chunks config) (len acc + 1)); [by calm_run|].
  cbn [mbind result_bind]. rewrite (IH _ _ Hl) by (rewrite ?len_app, ?len_cons, ?len_nil; lia).
  rewrite len_app, len_cons, len_nil, <-app_assoc, N.add_0_r, N.add_assoc. done.
Qed.

Lemma fastcdc_run data origin config :
  run_calm (chunk_fastcdc_with_checkpoint data origin config) = fastcdc_result data origin config.
Proof.
  unfold chunk_fastcdc_with_checkpoint, fastcdc_result.
  rewrite run_calm_bind, run_calm_lift. destruct (ChunkingConfig_validate config) as [[]|] eqn:Hv; [|done].
  cbn [mbind result_bind]. rewrite run_calm_bind, run_calm_lift.
  destruct (ok_or _ (u64_try_from _)) as [size|] eqn:Hs; [|done]. invres.
  cbn [mbind result_bind]. rewrite run_calm_bind, run_calm_lift.
  destruct (ensure_logical_size _ _) as [[]|]; [|done].
  cbn [mbind result_bind]. rewrite run_calm_bind, run_calm_lift.
  destruct (ok_or _ (checked_add _ _)) as [end_|] eqn:He; [|done]. invres.
  cbn [mbind result_bind].
  apply validate_Ok in Hv as (Hmm & Hmax & _ & Hpos). pose proof maximum_u32.
  pose proof (fastcdc_cuts data _ _ _ Hmm) as Hcuts.
  rewrite run_calm_bind, (fastcdc_loop _ _ _ _ _ _ Hcuts) by (rewrite ?len_nil; lia).
  rewrite len_nil, N.add_0_l. unfold ensure_chunk_count. destruct (_ <? _); [done|].
  cbn [mbind result_bind app]. rewrite run_calm_bind.
  rewrite (proj2 (coverage_run _ _ _)); [done|]. split; [done|]. left.
  rewrite <-(N.add_0_r (base_offset origin)) at 1. by eapply cuts_contiguous.
Qed.

Lemma fastcdc_result_covers data origin config chunks :
  fastcdc_result data origin config = Ok chunks →
  covers origin (len data) chunks ∧
  Forall (λ c, dr_method c = FastCdcV2020 ∧ dr_length c <= fastcdc_max config) chunks.
Proof.
  unfold fastcdc_result. intros Hr. invres.
  match goal with H : ChunkingConfig_validate _ = _ |- _ => apply validate_Ok in H as (Hmm & _) end.
  pose proof (fastcdc_cuts data _ _ _ Hmm) as Hcuts. split.
  - split; [done|]. left. rewrite <-(N.add_0_r (base_offset origin)) at 1. by eapply cuts_contiguous.
  - apply cuts_lengths in Hcuts. apply Forall_map. by eapply Forall_impl; [exact Hcuts|].
Qed.
End fastcdc.

(** ** Fixed-size chunking *)

(** [n] blocks that start at block [i]. *)
Fixpoint fixed_blocks (size block i : N) (n : nat) : list (N * N) :=
  match n with
  | O => []
  | Datatypes.S n => (i * block, N.min block (size - i * block)) :: fixed_blocks size block (i + 1) n
  end.

(** The number of blocks, rounded up. *)
Definition block_count (size block : N) : N := (size + block - 1) / block.

Definition fixed_result `{FastCdc} (size : N) (origin : ChunkOrigin) (config : ChunkingConfig) :
    Result (list LogicalChunkDraft) :=
  ChunkingConfig_validate config;;
  ensure_logical_size size config;;
  _ ← ok_or IntegerOverflow (checked_add (base_offset origin) size);
  let block := high_entropy_fixed config in
  let count := block_count size block in
  ensure_chunk_count count (ck_max_chunks config);;
  Ok (map (draft origin FixedHighEntropy) (fixed_blocks size block 0 (N.to_nat count))).

Lemma fixed_blocks_cuts size block i n :
  0 < block → (i + N.of_nat n) * block < size + block → i * block <= size →
  cuts block (i * block) (fixed_blocks size block i n) (N.min size ((i + N.of_nat n) * block)).
Proof.
  intros Hb. revert i; induction n as [|n IH]; intros i Hn Hi; cbn [fixed_blocks cuts]; [lia|].
  assert (Hlt : i * block < size) by nia.
  split; [done|]. split; [lia|].
  replace (i + N.of_nat (Datatypes.S n)) with ((i + 1) + N.of_nat n) in * by lia.
  destruct (N.le_gt_cases ((i + 1) * block) size) as [Hle|Hgt].
  - replace (i * block + N.min block (size - i * block)) with ((i + 1) * block) by lia. by apply IH.
  - destruct n as [|n]; [|nia]. cbn [fixed_blocks cuts]. lia.
Qed.

Lemma block_count_bounds size block :
  0 < block → let count := block_count size block in
  size <= count * block ∧ count * block < size + block.
Proof.
  intros Hb count. unfold count, block_count.
  pose proof (N.div_mod (size + block - 1) block ltac:(lia)).
  pose proof (N.mod_lt (size + block - 1) block ltac:(lia)).
  generalize dependent ((size + block - 1) mod block). generalize ((size + block - 1) / block).
  intros q r Hd Hr. split; nia.
Qed.

Lemma block_count_pos size block :
  0 < block → 0 < size → (size - 1) / block + 1 = block_count size block.
Proof.
  intros. unfold block_count. replace (size + block - 1) with (size - 1 + 1 * block) by lia.
  by rewrite N.div_add by lia.
Qed.

Lemma len_fixed_blocks size block i n : len (fixed_blocks size block i n) = N.of_nat n.
Proof.
  revert i; induction n as [|n IH]; intros i; [done|]. cbn [fixed_blocks]. rewrite len_cons, IH. lia.
Qed.

Lemma fixed_cuts size block :
  0 < block → cuts block 0 (fixed_blocks size block 0 (N.to_nat (block_count size block))) size.
Proof.
  intros Hb. pose proof (block_count_bounds size block Hb) as [? ?].
  pose proof (fixed_blocks_cuts size block 0 (N.to_nat (block_count size block)) Hb) as Hcuts.
  rewrite N.mul_0_l, N.min_l in Hcuts by lia. apply Hcuts; lia.
Qed.

Section fixed.
Context `{FastCdcLaws}.

Lemma fixed_step_run origin config size block acc offset :
  0 < block <= u32_MAX → base_offset origin + size <= u64_MAX → offset < size →
  len acc <= offset → len acc < ck_max_chunks config →
  run_calm (fixed_step origin config size block (acc, offset)) =
  Ok (acc ++ [draft origin FixedHighEntropy (offset, N.min block (size - offset))],
      N.min size (offset + block)).
Proof.
  intros. unfold fixed_step. calm_run. rewrite push_run by lia.
  rewrite (proj2 (N.ltb_ge _ _)) by lia. calm_run. rewrite (N.min_comm block).
  do 2 f_equal. lia.
Qed.

Lemma fixed_loop origin config size block n i acc :
  0 < block <= u32_MAX → base_offset origin + size <= u64_MAX →
  i * block <= size → (i + N.of_nat n) * block < size + block → size <= (i + N.of_nat n) * block →
  len acc = i → i + N.of_nat n <= ck_max_chunks config →
  run_calm (while_m n (λ '(_, relative_offset), relative_offset <? size)
    (fixed_step origin config size block) (acc, i * block)) =
  Ok (acc ++ map (draft origin FixedHighEntropy) (fixed_blocks size block i n), size)
  ∨ size = i * block ∧ n = 0%nat.
Proof.
  intros Hb Hend. revert i acc; induction n as [|n IH]; intros i acc Hi Hn Hs Hacc Hmax; [right; lia|left].
  assert (Hlt : i * block < size) by nia.
  cbn [while_m fixed_blocks map]. calm_run. rewrite fixed_step_run by nia. cbn [mbind result_bind].
  destruct (N.le_gt_cases ((i + 1) * block) size) as [Hle|Hgt].
  - replace (N.min size (i * block + block)) with ((i + 1) * block) by lia.
    destruct (IH (i + 1) (acc ++ [draft origin FixedHighEntropy
      (i * block, N.min block (size - i * block))])) as [->|[-> ->]]; try lia.
    + rewrite len_app, len_cons, len_nil. lia.
    + by rewrite <-app_assoc.
    + cbn [while_m fixed_blocks map]. rewrite N.ltb_irrefl. by calm_run.
  - destruct n as [|n]; [|nia]. cbn [while_m fixed_blocks map].
    rewrite (N.min_l size), N.ltb_irrefl by lia. by calm_run.
Qed.

Lemma fixed_run size origin config :
  run_calm (chunk_fixed_high_entropy_with_checkpoint size origin config) =
  fixed_result size origin config.
Proof.
  unfold chunk_fixed_high_entropy_with_checkpoint, fixed_result.
  rewrite run_calm_bind, run_calm_lift. destruct (ChunkingConfig_validate config) as [[]|] eqn:Hv; [|done].
  cbn [mbind result_bind]. rewrite run_calm_bind, run_calm_lift.
  destruct (ensure_logical_size _ _) as [[]|]; [|done].
  cbn [mbind result_bind]. rewrite run_calm_bind, run_calm_lift.
  destruct (ok_or _ (checked_add _ _)) as [end_|] eqn:He; [|done]. invres.
  apply validate_Ok in Hv as (_ & _ & Hblock & Hpos). unfold MIB, KIB in Hblock.
  set (block := high_entropy_fixed config) in *.
  cbn [mbind result_bind]. rewrite run_calm_if. destruct (N.eqb_spec size 0) as [->|Hs].
  { unfold block_count. rewrite N.div_small by lia. cbn [N.to_nat fixed_blocks map].
    unfold ensure_chunk_count. rewrite (proj2 (N.ltb_ge _ _)) by lia. done. }
  pose proof (block_count_bounds size block ltac:(lia)) as [Hc1 Hc2].
  rewrite <-block_count_pos in * by lia.
  assert ((size - 1) / block <= size - 1) by (apply N.Div0.div_le_upper_bound; nia).
  rewrite run_calm_bind, run_calm_lift. unfold checked_div.
  rewrite checked_sub_ok by lia. cbn [mbind option_bind].
  rewrite (proj2 (N.eqb_neq _ _)) by lia. cbn [mbind option_bind].
  rewrite checked_add_ok by lia. set (count := (size - 1) / block + 1) in *.
  cbn [ok_or mbind result_bind]. rewrite run_calm_bind, run_calm_lift.
  unfold ensure_chunk_count. destruct (N.ltb_spec (ck_max_chunks config) count); [done|].
  calm_run. destruct (fixed_loop origin config size block (N.to_nat count) 0 []) as [Hl|[? ?]];
    try lia; [done|]. rewrite N.mul_0_l in Hl. rewrite Hl. cbn [mbind result_bind app].
  rewrite run_calm_bind, (proj2 (coverage_run _ _ _)); [done|]. split; [done|]. left.
  rewrite <-(N.add_0_r (base_offset origin)) at 1. eapply cuts_contiguous.
  unfold count. rewrite block_count_pos by lia. apply fixed_cuts. lia.
Qed.
End fixed.

(** ** Structural chunking *)

(** The cuts of the region [start..end_]: one, or the cutter's when the
    region is longer than [fastcdc_max]. *)
Definition region_cuts `{FastCdc} (data : list byte) (config : ChunkingConfig) (start end_ : N) :
    list (N * N) :=
  if end_ - start <=? fastcdc_max config then [(start, end_ - start)]
  else map (λ '(offset, length), (start + offset, length))
    (fastcdc_chunks (sub (N.to_nat start) (N.to_nat (end_ - start)) data)
      (fastcdc_min config) (fastcdc_avg config) (fastcdc_max config)).

Fixpoint structural_cuts `{FastCdc} (data : list byte) (config : ChunkingConfig)
    (start : N) (ends : list N) : list (N * N) :=
  match ends with
  | [] => []
  | end_ :: ends => region_cuts data config start end_ ++ structural_cuts data config end_ ends
  end.

(** Boundaries that increase from [start] and end at [size]. *)
Fixpoint boundaries (start : N) (ends : list N) (size : N) : Prop :=
  match ends with
  | [] => start = size
  | end_ :: ends => start < end_ ∧ boundaries end_ ends size
  end.

(** A chunk within one region of the boundaries. *)
Fixpoint within_region (base start : N) (ends : list N) (c : LogicalChunkDraft) : Prop :=
  match ends with
  | [] => False
  | end_ :: ends =>
      (base + start <= dr_logical_offset c ∧ dr_logical_offset c + dr_length c <= base + end_) ∨
      within_region base end_ ends c
  end.

#[export] Instance boundaries_dec start ends size : Decision (boundaries start ends size).
Proof. revert start; induction ends; intros; cbn [boundaries]; apply _. Defined.

Definition structural_result `{FastCdc} (data : list byte) (origin : ChunkOrigin)
    (ends : list N) (config : ChunkingConfig) : Result (list LogicalChunkDraft) :=
  ChunkingConfig_validate config;;
  size ← ok_or IntegerOverflow (u64_try_from (len data));
  ensure_logical_size size config;;
  _ ← ok_or IntegerOverflow (checked_add (base_offset origin) size);
  n ← ok_or IntegerOverflow (u64_try_from (if size =? 0 then 0 else len ends));
  ensure_chunk_count n (ck_max_chunks config);;
  if decide (boundaries 0 ends size) then
    let chunks := structural_cuts data config 0 ends in
    ensure_chunk_count (len chunks) (ck_max_chunks config);;
    Ok (map (draft origin Structural) chunks)
  else Err (InvalidMetadata "structural boundaries").

Lemma boundaries_le start ends size : boundaries start ends size → start <= size.
Proof.
  revert start; induction ends as [|e ends IH]; intros start; cbn [boundaries]; [lia|].
  intros [? Hb]. apply IH in Hb. lia.
Qed.

Lemma boundaries_len start ends size : boundaries start ends size → start + len ends <= size.
Proof.
  revert start; induction ends as [|e ends IH]; intros start; cbn [boundaries];
    [rewrite len_nil; lia|]. intros [? Hb]. apply IH in Hb. rewrite len_cons. lia.
Qed.

Section boundary_check.
Context {S : Type} `{Env S}.

Definition boundary_fold (size : N) (previous : N) (ends : list N) : M S N :=
  fold_m (λ previous boundary,
    checkpoint;;
    if (boundary <=? previous) || (size <? boundary)
    then fail (InvalidMetadata "structural boundaries") else mret boundary) previous ends.
End boundary_check.

Lemma boundary_fold_run size previous ends :
  previous <= size →
  (∃ v, run_calm (boundary_fold size previous ends) = Ok v ∧
    (last ends = Some size ∨ ends = [] ∧ previous = size ↔ boundaries previous ends size)) ∨
  run_calm (boundary_fold size previous ends) = Err (InvalidMetadata "structural boundaries") ∧
    ¬ boundaries previous ends size.
Proof.
  unfold boundary_fold. revert previous; induction ends as [|e ends IH]; intros previous Hp; cbn [fold_m boundaries].
  { left. exists previous. calm_run. split; [done|]. naive_solver. }
  calm_run. destruct (N.leb_spec e previous); cbn [orb]; calm_run.
  { right. split; [done|]. lia. }
  destruct (N.ltb_spec size e); cbn [orb]; calm_run.
  { right. split; [done|]. intros [_ Hb]. apply boundaries_le in Hb. lia. }
  destruct (IH e) as [(v & -> & Hiff)|[-> Hn]]; [done|left|right].
  - exists v. split; [done|]. destruct ends as [|e' ends]; [|rewrite last_cons_cons; naive_solver].
    cbn. naive_solver.
  - split; [done|]. naive_solver.
Qed.

Lemma validate_boundary_ends_run ends size :
  0 < size →
  run_calm (validate_boundary_ends ends size) =
  if decide (boundaries 0 ends size) then Ok tt else Err (InvalidMetadata "structural boundaries").
Proof.
  intros Hs. unfold validate_boundary_ends. destruct ends as [|e ends].
  { cbn. rewrite decide_False by lia. done. }
  destruct (boundary_fold_run size 0 (e :: ends) ltac:(lia)) as [(v & Hv & Hiff)|[Hv Hn]];
    unfold boundary_fold in Hv.
  - rewrite bool_decide_eq_false_2 by done. case_bool_decide as Hl; cbn [negb orb].
    + rewrite decide_True by (apply Hiff; by left). by rewrite run_calm_bind, Hv.
    + rewrite decide_False; [done|]. intros Hb. apply Hiff in Hb as [?|[? _]]; done.
  - rewrite decide_False, bool_decide_eq_false_2 by done.
    case_bool_decide; cbn [negb orb]; [by rewrite run_calm_bind, Hv|done].
Qed.

Lemma validate_narrow `{FastCdc} config max_chunks logical_bytes :
  ChunkingConfig_validate config = Ok tt → 0 < max_chunks → 0 < logical_bytes →
  ChunkingConfig_validate (narrow_config config max_chunks logical_bytes) = Ok tt.
Proof.
  unfold ChunkingConfig_validate. cbn [narrow_config fastcdc_min fastcdc_avg fastcdc_max
    high_entropy_fixed micro_file_max micro_pack_target ck_max_chunks max_logical_bytes
    ck_max_metadata_bytes ck_max_path_bytes].
  intros Hv Hm Hb. destruct (ok_or _ (usize_try_from (fastcdc_min _))); [|done].
  destruct (ok_or _ (usize_try_from (fastcdc_avg _))); [|done].
  destruct (ok_or _ (usize_try_from (fastcdc_max _))); [|done].
  cbn [mbind result_bind] in *.
  repeat match type of Hv with (if ?b then Err _ else _) = _ =>
    destruct b eqn:?; [discriminate Hv|] end.
  rewrite (proj2 (N.eqb_neq max_chunks 0)), (proj2 (N.eqb_neq logical_bytes 0)) by lia.
  cbn [orb]. invres.
  repeat match goal with H : ?x ≠ 0 |- context [?x =? 0] => rewrite (proj2 (N.eqb_neq x 0) H) end.
  done.
Qed.

Lemma cuts_app max cursor l1 l2 mid end_ :
  cuts max cursor l1 mid → cuts max mid l2 end_ → cuts max cursor (l1 ++ l2) end_.
Proof.
  revert cursor; induction l1 as [|[o n] l1 IH]; intros cursor; cbn [cuts app]; [by intros ->|].
  intros (? & ? & ?) ?. do 2 (split; [done|]). by apply IH.
Qed.

Lemma cuts_shift max start cursor l end_ :
  cuts max cursor l end_ →
  cuts max (start + cursor) (map (λ '(offset, length), (start + offset, length)) l) (start + end_).
Proof.
  revert cursor; induction l as [|[o n] l IH]; intros cursor; cbn [cuts map]; [by intros ->|].
  intros (-> & ? & Hl). do 2 (split; [done|]). rewrite <-N.add_assoc. by apply IH.
Qed.

Lemma region_cuts_spec `{FastCdcLaws} data config start end_ :
  ChunkingConfig_validate config = Ok tt → start < end_ <= len data →
  cuts (fastcdc_max config) start (region_cuts data config start end_) end_.
Proof.
  intros Hv Hs. apply validate_Ok in Hv as (Hmm & _). unfold region_cuts.
  destruct (N.leb_spec (end_ - start) (fastcdc_max config)); [cbn [cuts]; lia|].
  set (piece := sub _ _ data).
  assert (Hlen : len piece = end_ - start).
  { unfold len in *. unfold piece. rewrite length_sub; lia. }
  pose proof (fastcdc_cuts piece _ _ _ Hmm) as Hcuts. rewrite Hlen in Hcuts.
  apply (cuts_shift _ start) in Hcuts. rewrite N.add_0_r in Hcuts.
  by replace (start + (end_ - start)) with end_ in Hcuts by lia.
Qed.

Lemma structural_cuts_spec `{FastCdcLaws} data config start ends size :
  ChunkingConfig_validate config = Ok tt → boundaries start ends size → size <= len data →
  cuts (fastcdc_max config) start (structural_cuts data config start ends) size.
Proof.
  intros Hv. revert start; induction ends as [|e ends IH]; intros start Hb Hs; cbn [structural_cuts].
  { by rewrite Hb. }
  destruct Hb as [? Hb]. pose proof (boundaries_le _ _ _ Hb).
  eapply cuts_app; [apply region_cuts_spec; [done|lia]|]. by apply IH.
Qed.

(** The cuts of a region stay within it. *)
Lemma cuts_within max cursor l end_ :
  cuts max cursor l end_ → Forall (λ c, cursor <= c.1 ∧ c.1 + c.2 <= end_) l.
Proof.
  revert cursor; induction l as [|[o n] l IH]; intros cursor; cbn [cuts]; [constructor|].
  intros (-> & ? & Hl). pose proof (cuts_le _ _ _ _ Hl). constructor; [cbn; lia|].
  eapply Forall_impl; [by apply IH|]. intros c Hc. cbn in *. lia.
Qed.

Lemma structural_cuts_regions `{FastCdcLaws} data origin config start ends size :
  ChunkingConfig_validate config = Ok tt → boundaries start ends size → size <= len data →
  Forall (within_region (base_offset origin) start ends)
    (map (draft origin Structural) (structural_cuts data config start ends)).
Proof.
  intros Hv. revert start; induction ends as [|e ends IH]; intros start Hb Hs;
    cbn [structural_cuts]; [constructor|].
  destruct Hb as [? Hb]. pose proof (boundaries_le _ _ _ Hb). rewrite map_app. apply Forall_app. split.
  - apply Forall_map. eapply Forall_impl; [eapply cuts_within, region_cuts_spec; [exact Hv|lia]|].
    intros c Hc. left. cbn in Hc |- *. lia.
  - eapply Forall_impl; [by apply IH|]. intros c Hc. by right.
Qed.

Section structural.
Context `{FastCdcLaws}.

Lemma relabel_run acc l :
  run_calm (fold_m (λ chunks chunk,
    checkpoint;;
    mret (chunks ++ [{|
      dr_entry_id := dr_entry_id chunk; dr_object_id := dr_object_id chunk;
      dr_logical_offset := dr_logical_offset chunk; dr_length := dr_length chunk;
      dr_method := Structural |}])) acc l) =
  Ok (acc ++ map (λ c, {| dr_entry_id := dr_entry_id c; dr_object_id := dr_object_id c;
    dr_logical_offset := dr_logical_offset c; dr_length := dr_length c;
    dr_method := Structural |}) l).
Proof.
  revert acc; induction l as [|c l IH]; intros acc; cbn [fold_m map]; [by rewrite app_nil_r|].
  calm_run. by rewrite IH, <-app_assoc.
Qed.

Lemma structural_step_run data origin config acc start end_ :
  ChunkingConfig_validate config = Ok tt → start < end_ <= len data →
  base_offset origin + len data <= u64_MAX → len acc <= start → len acc <= ck_max_chunks config →
  run_calm (structural_step data origin config (acc, start) end_) =
  if ck_max_chunks config <? len acc + len (region_cuts data config start end_)
  then Err (ResourceLimit "chunk count")
  else Ok (acc ++ map (draft origin Structural) (region_cuts data config start end_), end_).
Proof.
  intros Hv Hs Hend Hacc Hlim. pose proof (region_cuts_spec _ _ _ _ Hv Hs) as Hcuts.
  pose proof (validate_Ok _ Hv) as (_ & Hmax & _). pose proof maximum_u32.
  unfold structural_step. calm_run. unfold region_cuts in *.
  destruct (N.leb_spec (end_ - start) (fastcdc_max config)).
  - calm_run. rewrite push_run by lia. rewrite len_cons, len_nil, N.add_0_r.
    destruct (_ <? _); [done|]. by calm_run.
  - calm_run. destruct (N.eqb_spec (ck_max_chunks config - len acc) 0) as [Hz|Hz].
    { apply cuts_nonempty in Hcuts; [|lia]. by rewrite (proj2 (N.ltb_lt _ _)) by lia. }
    calm_run. rewrite fastcdc_run. unfold fastcdc_result.
    rewrite validate_narrow by (done || lia). cbn [mbind result_bind].
    set (piece := sub _ _ data).
    assert (Hlen : len piece = end_ - start).
    { unfold len in *. unfold piece. rewrite length_sub; lia. }
    rewrite Hlen, u64_try_from_ok by lia. unfold ensure_logical_size, ensure_chunk_count.
    cbn [narrow_config fastcdc_min fastcdc_avg fastcdc_max ck_max_chunks max_logical_bytes
      base_offset]. calm_run. rewrite len_map.
    set (l := fastcdc_chunks _ _ _ _).
    destruct (N.ltb_spec (ck_max_chunks config - len acc) (len l));
      destruct (N.ltb_spec (ck_max_chunks config) (len acc + len l)); try lia; [done|].
    calm_run. rewrite relabel_run. calm_run. rewrite !map_map. do 3 f_equal.
    apply map_ext. intros [o n]. unfold draft. cbn. by rewrite N.add_assoc.
Qed.

Lemma structural_loop data origin config acc start ends :
  ChunkingConfig_validate config = Ok tt → boundaries start ends (len data) →
  base_offset origin + len data <= u64_MAX → len acc <= start → len acc <= ck_max_chunks config →
  run_calm (fold_m (structural_step data origin config) (acc, start) ends) =
  if ck_max_chunks config <? len acc + len (structural_cuts data config start ends)
  then Err (ResourceLimit "chunk count")
  else Ok (acc ++ map (draft origin Structural) (structural_cuts data config start ends), len data).
Proof.
  intros Hv Hb Hend. revert acc start Hb; induction ends as [|e ends IH]; intros acc start Hb Hacc Hlim;
    cbn [fold_m structural_cuts].
  { rewrite Hb, len_nil, app_nil_r. by calm_run. }
  destruct Hb as [Hlt Hb]. pose proof (boundaries_le _ _ _ Hb). rewrite run_calm_bind.
  rewrite structural_step_run by (done || lia). rewrite len_app.
  set (l := region_cuts _ _ _ _). assert (Hcuts : start + len l <= e).
  { eapply cuts_le, region_cuts_spec; [done|lia]. }
  destruct (N.ltb_spec (ck_max_chunks config) (len acc + len l)).
  { by rewrite (proj2 (N.ltb_lt _ _)) by lia. }
  cbn [mbind result_bind].
  rewrite IH by (done || rewrite len_app, len_map; lia).
  by rewrite len_app, len_map, map_app, <-app_assoc, N.add_assoc.
Qed.

Lemma structural_run data origin ends config :
  run_calm (chunk_structural_with_checkpoint data origin ends config) =
  structural_result data origin ends config.
Proof.
  unfold chunk_structural_with_checkpoint, structural_result.
  rewrite run_calm_bind, run_calm_lift. destruct (ChunkingConfig_validate config) as [[]|] eqn:Hv; [|done].
  cbn [mbind result_bind]. rewrite run_calm_bind, run_calm_lift.
  destruct (ok_or _ (u64_try_from (len data))) as [size|] eqn:Hs; [|done]. invres.
  cbn [mbind result_bind]. rewrite run_calm_bind, run_calm_lift.
  destruct (ensure_logical_size _ _) as [[]|]; [|done].
  cbn [mbind result_bind]. rewrite run_calm_bind, run_calm_lift.
  destruct (ok_or _ (checked_add _ _)) as [end_|] eqn:He; [|done]. invres.
  cbn [mbind result_bind]. rewrite run_calm_if. pose proof (validate_Ok _ Hv) as (_ & _ & _ & Hpos).
  destruct data as [|b data'].
  { rewrite bool_decide_eq_true_2 by done. cbn [len length]. unfold ensure_chunk_count.
    change (len (@nil byte) =? 0) with true. cbn iota. calm_run.
    destruct ends as [|e ends].
    { rewrite bool_decide_eq_true_2, decide_True by done. cbn [structural_cuts map].
      rewrite len_nil. by calm_run. }
    rewrite bool_decide_eq_false_2 by done.
    rewrite decide_False; [by calm_run|].
    cbn [boundaries]. intros [? Hb]. apply boundaries_le in Hb. rewrite len_nil in Hb. lia. }
  rewrite bool_decide_eq_false_2 by done. set (data := b :: data') in *.
  assert (0 < len data) by (unfold data; rewrite len_cons; lia).
  rewrite (proj2 (N.eqb_neq _ _)) by lia. rewrite run_calm_bind, run_calm_lift.
  destruct (ok_or _ (u64_try_from (len ends))) as [n|] eqn:Hn; [|done].
  cbn [mbind result_bind]. rewrite run_calm_bind, run_calm_lift.
  destruct (ensure_chunk_count n _) as [[]|]; [|done].
  cbn [mbind result_bind]. rewrite run_calm_bind, validate_boundary_ends_run by done.
  destruct (decide _) as [Hb|]; [|done]. cbn [mbind result_bind]. rewrite run_calm_bind.
  rewrite structural_loop by (done || rewrite len_nil; lia). rewrite len_nil, N.add_0_l.
  unfold ensure_chunk_count. destruct (_ <? _); [done|]. cbn [mbind result_bind app].
  rewrite run_calm_bind, (proj2 (coverage_run _ _ _)); [done|]. split; [done|]. left.
  rewrite <-(N.add_0_r (base_offset origin)) at 1. eapply cuts_contiguous.
  by apply structural_cuts_spec.
Qed.

Lemma structural_result_spec data origin ends config chunks :
  structural_result data origin ends config = Ok chunks →
  covers origin (len data) chunks ∧
  Forall (within_region (base_offset origin) 0 ends) chunks ∧
  Forall (λ c, dr_method c = Structural ∧ dr_length c <= fastcdc_max config) chunks.
Proof.
  unfold structural_result. intros Hr. invres.
  destruct (decide _) as [Hb|]; [|discriminate]. invres.
  match goal with H : ChunkingConfig_validate _ = Ok ?u |- _ => destruct u; rename H into Hv end.
  pose proof (structural_cuts_spec data config 0 ends _ Hv Hb ltac:(lia)) as Hcuts. split; [|split].
  - split; [done|]. left. rewrite <-(N.add_0_r (base_offset origin)) at 1. by eapply cuts_contiguous.
  - by eapply structural_cuts_regions.
  - apply cuts_lengths in Hcuts. apply Forall_map. by eapply Forall_impl; [exact Hcuts|].
Qed.
End structural.

(** ** Chunk numbering *)

Definition compare_draft (l r : LogicalChunkDraft) : comparison := compare_key (draft_key l) (draft_key r).

(** The checks on a draft when it is numbered. *)
Definition check_draft (d : LogicalChunkDraft) : Result unit :=
  if (dr_length d =? 0) && negb (bool_decide (dr_method d = MicroFile))
  then Err (InvalidMetadata "zero-length chunk") else
  _ ← ok_or IntegerOverflow (checked_add (dr_logical_offset d) (dr_length d));
  Ok tt.

Definition numbered (item : N * LogicalChunkDraft) : LogicalChunk :=
  let '(i, d) := item in
  {| lc_chunk_id := i; lc_entry_id := dr_entry_id d; lc_object_id := dr_object_id d;
     lc_logical_offset := dr_logical_offset d; lc_length := dr_length d; lc_method := dr_method d |}.

(** Numbers the drafts in key order, when no two have the same key. *)
Definition assign_result (drafts : list LogicalChunkDraft) (max_chunks : N) :
    Result (list LogicalChunk) :=
  if max_chunks =? 0 then Err (InvalidMetadata "chunk count limit") else
  n ← ok_or IntegerOverflow (u64_try_from (len drafts));
  ensure_chunk_count n max_chunks;;
  if decide (NoDup (map draft_key drafts)) then
    let sorted := insertion_sort compare_draft drafts in
    _ ← try_map check_draft sorted;
    Ok (map numbered (enumerate sorted))
  else Err (InvalidMetadata "duplicate chunk position").

Lemma compare_key_Eq x y : compare_key x y = Eq ↔ x = y.
Proof.
  destruct x as [[a b] c], y as [[a' b'] c']. unfold compare_key. cbn.
  destruct (N.compare_spec a a'), (N.compare_spec b b'), (N.compare_spec c c'); subst;
    split; try congruence; intros [=]; lia.
Qed.

Lemma compare_key_not_Gt x y :
  compare_key x y ≠ Gt ↔
  x.1.1 < y.1.1 ∨ x.1.1 = y.1.1 ∧ (x.1.2 < y.1.2 ∨ x.1.2 = y.1.2 ∧ x.2 <= y.2).
Proof.
  unfold compare_key.
  destruct (N.compare_spec x.1.1 y.1.1), (N.compare_spec x.1.2 y.1.2), (N.compare_spec x.2 y.2);
    (split; [intros ?|intros ? ?]); lia || congruence.
Qed.

#[export] Instance compare_draft_preorder : TotalPreorder compare_draft.
Proof.
  split.
  - intros x y. unfold compare_draft, compare_key.
    rewrite (N.compare_antisym (draft_key x).1.1), (N.compare_antisym (draft_key x).1.2),
      (N.compare_antisym (draft_key x).2).
    repeat (destruct (_ ?= _); cbn; try done).
  - intros x y z. unfold compare_draft. rewrite !compare_key_not_Gt. lia.
Qed.

(** In an ordered list, equal keys are adjacent. *)
Lemma adjacent_duplicates l :
  StronglySorted (not_greater compare_draft) l →
  run_calm (for_each (λ '(a, b),
    checkpoint;;
    if bool_decide (draft_key a = draft_key b)
    then fail (InvalidMetadata "duplicate chunk position") else mret tt) (windows2 l)) =
  if decide (NoDup (map draft_key l)) then Ok tt else Err (InvalidMetadata "duplicate chunk position").
Proof.
  induction 1 as [|a l Hs IH Ha]; [by rewrite decide_True by constructor|].
  destruct l as [|b l]; [rewrite decide_True; [done|apply NoDup_singleton]|].
  unfold for_each in *. change (windows2 (a :: b :: l)) with ((a, b) :: windows2 (b :: l)).
  cbn [fold_m]. rewrite run_calm_bind. calm_run.
  case_bool_decide as Hab.
  { calm_run. rewrite decide_False; [done|]. cbn. rewrite NoDup_cons, Hab. intros [Hn _].
    apply Hn. by left. }
  calm_run. rewrite IH. apply Forall_cons in Ha as [Hle _].
  assert (draft_key a ∉ map draft_key (b :: l)) as Hn.
  { intros (c & Hac & Hc)%list_elem_of_fmap. apply elem_of_cons in Hc as [->|Hc]; [done|].
    apply StronglySorted_inv in Hs as [_ Hb]. rewrite Forall_forall in Hb. specialize (Hb c Hc).
    unfold not_greater, compare_draft in Hle, Hb. rewrite <-Hac in Hb.
    apply compare_key_not_Gt in Hle, Hb. apply Hab.
    destruct (draft_key a) as [[? ?] ?], (draft_key b) as [[? ?] ?]. cbn in *. f_equal; [f_equal|]; lia. }
  change (map draft_key (a :: b :: l)) with (draft_key a :: map draft_key (b :: l)).
  destruct (decide (NoDup (map draft_key (b :: l)))) as [Hd|Hd].
  - rewrite decide_True; [done|]. by constructor.
  - rewrite decide_False; [done|]. by rewrite NoDup_cons; intros [_ ?].
Qed.

Lemma assign_step_run acc i d :
  i <= u64_MAX →
  run_calm (assign_step acc (i, d)) = _ ← check_draft d; Ok (acc ++ [numbered (i, d)]).
Proof.
  intros Hi. unfold assign_step, check_draft. calm_run. destruct (_ && _); [done|].
  calm_run. destruct (ok_or _ (checked_add _ _)); [|done]. by calm_run.
Qed.

Lemma assign_loop acc i l :
  i + len l <= u64_MAX →
  run_calm (fold_m assign_step acc (enumerate_from i l)) =
  _ ← try_map check_draft l; Ok (acc ++ map numbered (enumerate_from i l)).
Proof.
  revert acc i; induction l as [|d l IH]; intros acc i Hi; cbn [enumerate_from fold_m try_map map].
  { calm_run. by rewrite app_nil_r. }
  rewrite len_cons in Hi. rewrite run_calm_bind, assign_step_run by lia.
  destruct (check_draft d); [|done]. cbn [mbind result_bind]. rewrite IH by lia.
  destruct (try_map check_draft l); [|done]. cbn [mbind result_bind].
  by rewrite <-app_assoc.
Qed.

Lemma assign_run drafts max_chunks :
  run_calm (assign_chunk_ids_with_checkpoint drafts max_chunks) = assign_result drafts max_chunks.
Proof.
  unfold assign_chunk_ids_with_checkpoint, assign_result. rewrite run_calm_if.
  destruct (max_chunks =? 0); [done|]. rewrite run_calm_bind, run_calm_lift.
  destruct (ok_or _ _) as [n|] eqn:Hn; [|done]. invres. cbn [mbind result_bind].
  rewrite run_calm_bind, run_calm_lift. destruct (ensure_chunk_count _ _); [|done].
  cbn [mbind result_bind]. rewrite run_calm_bind.
  pose proof (insertion_sort_stable compare_draft drafts) as (Hs & Hp & _).
  change (λ l r, compare_key (draft_key l) (draft_key r)) with compare_draft.
  rewrite (follows_calm _ _ (try_sort_follows compare_draft drafts)). set (sorted := insertion_sort compare_draft drafts) in *.
  cbn [mbind result_bind]. rewrite run_calm_bind, adjacent_duplicates by done.
  assert (Hd : NoDup (map draft_key sorted) ↔ NoDup (map draft_key drafts)).
  { by rewrite (Permutation_map draft_key Hp). }
  destruct (decide (NoDup (map draft_key drafts))) as [Hnd|Hnd].
  - rewrite decide_True by tauto. calm_run. unfold enumerate. apply assign_loop.
    unfold len in *. apply Permutation_length in Hp. rewrite Hp. done.
  - rewrite decide_False by tauto. done.
Qed.

Lemma sorted_unique l1 l2 :
  NoDup (map draft_key l1) → l1 ≡ₚ l2 →
  insertion_sort compare_draft l1 = insertion_sort compare_draft l2.
Proof.
  intros Hnd Hp.
  destruct (insertion_sort_stable compare_draft l1) as (Hs1 & Hp1 & _).
  destruct (insertion_sort_stable compare_draft l2) as (Hs2 & Hp2 & _).
  apply (StronglySorted_unique_strong (not_greater compare_draft)); [|done..|by rewrite Hp1, Hp2].
  intros x y Hx Hy Hxy Hyx. rewrite Hp1 in Hx. rewrite Hp2, <-Hp in Hy.
  assert (draft_key x = draft_key y) as Hk.
  { unfold not_greater, compare_draft in *. apply compare_key_not_Gt in Hxy, Hyx.
    destruct (draft_key x) as [[? ?] ?], (draft_key y) as [[? ?] ?]. cbn in *.
    f_equal; [f_equal|]; lia. }
  apply list_elem_of_lookup in Hx as [i Hi], Hy as [j Hj].
  assert (i = j) as ->.
  { apply (NoDup_lookup (map draft_key l1) i j (draft_key x)); [done|..];
      rewrite list_lookup_fmap; [by rewrite Hi|rewrite Hj, Hk; done]. }
  congruence.
Qed.

(** The numbering does not depend on the order in which workers delivered
    the drafts. *)
Lemma assign_permutation drafts1 drafts2 max_chunks :
  drafts1 ≡ₚ drafts2 → assign_result drafts1 max_chunks = assign_result drafts2 max_chunks.
Proof.
  intros Hp. unfold assign_result.
  assert (len drafts1 = len drafts2) as -> by (unfold len; by rewrite Hp).
  assert (Hd : NoDup (map draft_key drafts1) ↔ NoDup (map draft_key drafts2)) by
    by rewrite (Permutation_map draft_key Hp).
  destruct (decide (NoDup (map draft_key drafts1))) as [Hnd|Hnd].
  - rewrite decide_True by tauto. by rewrite (sorted_unique drafts1 drafts2).
  - by rewrite decide_False by tauto.
Qed.

Lemma numbered_ids i l :
  map lc_chunk_id (map numbered (enumerate_from i l)) = map (λ k, i + N.of_nat k) (seq 0 (length l)).
Proof.
  revert i; induction l as [|d l IH]; intros i; [done|]. cbn [enumerate_from map seq length].
  f_equal; [cbn; lia|]. rewrite IH, <-seq_shift, map_map. apply map_ext. lia.
Qed.

(** The draft a numbered chunk came from. *)
Definition draft_of (c : LogicalChunk) : LogicalChunkDraft :=
  {| dr_entry_id := lc_entry_id c; dr_object_id := lc_object_id c;
     dr_logical_offset := lc_logical_offset c; dr_length := lc_length c; dr_method := lc_method c |}.

Lemma drafts_of_numbered i l : map draft_of (map numbered (enumerate_from i l)) = l.
Proof.
  revert i; induction l as [|d l IH]; intros i; [done|]. cbn [enumerate_from map].
  rewrite IH. by destruct d.
Qed.

(** ** The routines in an arbitrary environment *)

Section follows.
Context {S : Type} `{Env S} `{FastCdcLaws}.

Lemma fastcdc_follows data origin config :
  follows (chunk_fastcdc_with_checkpoint data origin config) (fastcdc_result data origin config).
Proof.
  rewrite <-fastcdc_run. unfold chunk_fastcdc_with_checkpoint, push_relative_chunk,
    validate_chunk_coverage_with_checkpoint, coverage_step. follows_calm_run.
Qed.

Lemma fixed_follows size origin config :
  follows (chunk_fixed_high_entropy_with_checkpoint size origin config) (fixed_result size origin config).
Proof.
  rewrite <-fixed_run. unfold chunk_fixed_high_entropy_with_checkpoint, fixed_step,
    push_relative_chunk, validate_chunk_coverage_with_checkpoint, coverage_step. follows_calm_run.
Qed.

Lemma structural_follows data origin ends config :
  follows (chunk_structural_with_checkpoint data origin ends config)
    (structural_result data origin ends config).
Proof.
  rewrite <-structural_run. unfold chunk_structural_with_checkpoint, validate_boundary_ends,
    structural_step, chunk_fastcdc_with_checkpoint, push_relative_chunk,
    validate_chunk_coverage_with_checkpoint, coverage_step. follows_calm_run.
Qed.

Lemma assign_follows drafts max_chunks :
  follows (assign_chunk_ids_with_checkpoint drafts max_chunks) (assign_result drafts max_chunks).
Proof.
  rewrite <-assign_run. unfold assign_chunk_ids_with_checkpoint, for_each, assign_step.
  change (λ l r, compare_key (draft_key l) (draft_key r)) with compare_draft.
  assert (Hsort : follows (try_sort_by_checkpoint compare_draft drafts)
    (run_calm (try_sort_by_checkpoint compare_draft drafts))).
  { rewrite (follows_calm _ _ (try_sort_follows compare_draft drafts)). apply try_sort_follows. apply _. }
  follows_calm_run.
Qed.
End follows.

(** ** Properties *)

(** The coverage check accepts exactly the chunk lists that cover the
    object: it answers [Ok] if and only if the chunks carry the object's
    identity, are non-empty and lie end to end from the base offset to its
    end (or the object is empty), without overflow; and then every byte of
    the object is in exactly one chunk and no chunk holds any other byte. *)
Theorem validate_chunk_coverage_correct {S : Type} `{Env S} (chunks : list LogicalChunkDraft)
    (origin : ChunkOrigin) (size : N) :
  ∃ r, follows (validate_chunk_coverage_with_checkpoint chunks origin size) r ∧
    (r = Ok tt ↔ covers origin size chunks) ∧
    (r = Ok tt → ∀ position,
      (base_offset origin <= position < base_offset origin + size →
        ∃ i c, chunks !! i = Some c ∧ chunk_holds position c ∧
          ∀ j c', chunks !! j = Some c' → chunk_holds position c' → j = i) ∧
      (∀ i c, chunks !! i = Some c → chunk_holds position c →
        base_offset origin <= position < base_offset origin + size)).
Proof.
  eexists. split; [apply coverage_follows|]. split; [apply coverage_run|].
  rewrite coverage_run. intros [_ [Hc|[-> ->]]] position.
  - split; [intros Hp; by eapply contiguous_exactly_one|].
    intros i c Hi Hh. by eapply contiguous_holds.
  - split; [lia|]. intros [|i] c [= <-]; unfold chunk_holds; cbn; lia.
Qed.

(** In-memory content-defined chunking returns the cutter's chunks, each
    labelled [FastCdcV2020] and no longer than [fastcdc_max], which cover the
    data; it fails exactly when the configuration, the size limit, the offset
    range or the chunk-count limit is violated, with that limit's error. *)
Theorem chunk_fastcdc_correct {S : Type} `{Env S} `{L : FastCdcLaws} (data : list byte)
    (origin : ChunkOrigin) (config : ChunkingConfig) :
  follows (chunk_fastcdc_with_checkpoint data origin config) (fastcdc_result data origin config) ∧
  ∀ chunks, fastcdc_result data origin config = Ok chunks →
    covers origin (len data) chunks ∧
    Forall (λ c, dr_method c = FastCdcV2020 ∧ dr_length c <= fastcdc_max config) chunks.
Proof. split; [apply fastcdc_follows|apply fastcdc_result_covers]. Qed.

(** Fixed-size chunking returns the blocks of [high_entropy_fixed] bytes,
    the last one shorter when the size is not a multiple; their number is the
    rounded-up quotient and they cover the object; the errors are those of the
    configuration and of the limits. *)
Theorem chunk_fixed_high_entropy_correct {S : Type} `{Env S} `{FastCdc} (size : N)
    (origin : ChunkOrigin) (config : ChunkingConfig) :
  follows (chunk_fixed_high_entropy_with_checkpoint size origin config)
    (fixed_result size origin config) ∧
  ∀ chunks, fixed_result size origin config = Ok chunks →
    covers origin size chunks ∧ len chunks = block_count size (high_entropy_fixed config).
Proof.
  split; [apply fixed_follows|]. unfold fixed_result. intros chunks Hr. invres.
  match goal with H : ChunkingConfig_validate _ = Ok ?u |- _ => destruct u; apply validate_Ok in H end.
  assert (0 < high_entropy_fixed config) as Hb by (unfold MIB, KIB in *; lia).
  rewrite len_map, len_fixed_blocks. split; [|lia]. split; [done|]. left.
  rewrite <-(N.add_0_r (base_offset origin)) at 1. by eapply cuts_contiguous, fixed_cuts.
Qed.

(** Structural chunking respects the scanner's boundaries: it accepts
    them exactly when they increase to the end of the data, and then every
    chunk lies within one region, is at most [fastcdc_max] long, and the
    chunks cover the data. *)
Theorem chunk_structural_correct {S : Type} `{Env S} `{L : FastCdcLaws} (data : list byte)
    (origin : ChunkOrigin) (ends : list N) (config : ChunkingConfig) :
  follows (chunk_structural_with_checkpoint data origin ends config)
    (structural_result data origin ends config) ∧
  ∀ chunks, structural_result data origin ends config = Ok chunks →
    covers origin (len data) chunks ∧
    Forall (within_region (base_offset origin) 0 ends) chunks ∧
    Forall (λ c, dr_method c = Structural ∧ dr_length c <= fastcdc_max config) chunks.
Proof. split; [apply structural_follows|apply structural_result_spec]. Qed.

(** Chunk numbering is deterministic: the chunks are the drafts in
    strictly increasing key order with the identifiers 0, 1, 2, ...; the
    result, errors included, does not depend on the order of the drafts; and
    drafts with a common key are rejected. *)
Theorem assign_chunk_ids_correct {S : Type} `{Env S} (drafts : list LogicalChunkDraft) (max_chunks : N) :
  follows (assign_chunk_ids_with_checkpoint drafts max_chunks) (assign_result drafts max_chunks) ∧
  (∀ drafts', drafts' ≡ₚ drafts → assign_result drafts' max_chunks = assign_result drafts max_chunks) ∧
  ∀ chunks, assign_result drafts max_chunks = Ok chunks →
    len chunks <= max_chunks ∧
    map lc_chunk_id chunks = map N.of_nat (seq 0 (length drafts)) ∧
    map draft_of chunks ≡ₚ drafts ∧ NoDup (map draft_key (map draft_of chunks)) ∧
    StronglySorted (not_greater compare_draft) (map draft_of chunks).
Proof.
  split; [apply assign_follows|]. split; [intros; by apply assign_permutation|].
  unfold assign_result, ensure_chunk_count. intros chunks Hr. invres.
  destruct (decide _) as [Hnd|]; [|discriminate]. invres.
  destruct (insertion_sort_stable compare_draft drafts) as (Hs & Hp & _).
  set (sorted := insertion_sort compare_draft drafts) in *. unfold enumerate.
  rewrite numbered_ids, drafts_of_numbered, len_map.
  split; [|split; [|split; [done|split; [by rewrite Hp|done]]]].
  - repeat match goal with H : (if ?b then Err _ else _) = Ok _ |- _ => destruct b eqn:?; [done|] end.
    invres. unfold len in *. rewrite <-Hp in *.
    replace (length (enumerate_from 0 sorted)) with (length sorted); [lia|].
    generalize 0. clear. induction sorted; intros i; [done|]. cbn. by f_equal.
  - by rewrite (Permutation_length Hp).
Qed.

(** ** Witnesses

    A cutter that satisfies the crate's laws: it always cuts at the maximum. *)

Definition max_cutter : FastCdc := {|
  MINIMUM_MIN := 64; MINIMUM_MAX := 1048576;
  AVERAGE_MIN := 256; AVERAGE_MAX := 4194304;
  MAXIMUM_MIN := 1024; MAXIMUM_MAX := 16777216;
  fastcdc_chunks := λ data _ _ max,
    fixed_blocks (len data) max 0 (N.to_nat (block_count (len data) max));
|}.

Lemma max_cutter_laws : @FastCdcLaws max_cutter.
Proof.
  split; [by vm_compute|]. intros data min avg max Hmm. apply fixed_cuts. lia.
Qed.

Definition example_config : ChunkingConfig := {|
  fastcdc_min := 64; fastcdc_avg := 256; fastcdc_max := 1024; high_entropy_fixed := MIB;
  micro_file_max := 4096; micro_pack_target := MIB; ck_max_chunks := 10;
  max_logical_bytes := 10000000; ck_max_metadata_bytes := 1000; ck_max_path_bytes := 1000;
|}.
Definition example_origin : ChunkOrigin := {| co_entry_id := 7; co_object_id := 2; base_offset := 5 |}.
Definition example_draft (offset length : N) (method : ChunkingMethod) : LogicalChunkDraft :=
  {| dr_entry_id := 7; dr_object_id := 2; dr_logical_offset := offset; dr_length := length;
     dr_method := method |}.

Lemma validate_chunk_coverage_correct_witness :
  let chunks := [example_draft 5 10 Structural; example_draft 15 3 Structural] in
  run_calm (validate_chunk_coverage_with_checkpoint chunks example_origin 13) = Ok tt ∧
  ∃ r, follows (validate_chunk_coverage_with_checkpoint chunks example_origin 13) r ∧
    (r = Ok tt ↔ covers example_origin 13 chunks) ∧
    (r = Ok tt → ∀ position,
      (5 <= position < 5 + 13 →
        ∃ i c, chunks !! i = Some c ∧ chunk_holds position c ∧
          ∀ j c', chunks !! j = Some c' → chunk_holds position c' → j = i) ∧
      (∀ i c, chunks !! i = Some c → chunk_holds position c → 5 <= position < 5 + 13)).
Proof.
  split; [reflexivity|].
  exact (validate_chunk_coverage_correct
    [example_draft 5 10 Structural; example_draft 15 3 Structural] example_origin 13).
Defined.

Lemma chunk_fastcdc_correct_witness :
  ∃ chunks, fastcdc_result (H := max_cutter) (zeros 3000) example_origin example_config = Ok chunks ∧
    covers example_origin 3000 chunks.
Proof.
  eexists. split; [vm_compute; reflexivity|].
  apply (chunk_fastcdc_correct (L := max_cutter_laws) (zeros 3000) example_origin example_config).
  vm_compute. reflexivity.
Defined.

Lemma chunk_fixed_high_entropy_correct_witness :
  ∃ chunks, fixed_result (H := max_cutter) 3000000 example_origin example_config = Ok chunks ∧
    covers example_origin 3000000 chunks ∧ len chunks = 3.
Proof.
  eexists. split; [vm_compute; reflexivity|].
  assert (H := proj2 (chunk_fixed_high_entropy_correct (H0 := max_cutter) 3000000 example_origin
    example_config) _ eq_refl).
  split; [exact (proj1 H)|reflexivity].
Defined.

Lemma chunk_structural_correct_witness :
  ∃ chunks, structural_result (H := max_cutter) (zeros 3000) example_origin [100; 2500; 3000]
      example_config = Ok chunks ∧
    covers example_origin 3000 chunks ∧ Forall (within_region 5 0 [100; 2500; 3000]) chunks.
Proof.
  eexists. split; [vm_compute; reflexivity|].
  assert (H := proj2 (chunk_structural_correct (L := max_cutter_laws) (zeros 3000) example_origin
    [100; 2500; 3000] example_config) _ eq_refl).
  split; [apply H|]. exact (proj1 (proj2 H)).
Defined.

Lemma assign_chunk_ids_correct_witness :
  let drafts := [example_draft 15 3 Structural; example_draft 5 10 Structural] in
  ∃ chunks, assign_result drafts 5 = Ok chunks ∧ map lc_chunk_id chunks = [0; 1] ∧
    map draft_of chunks ≡ₚ drafts.
Proof.
  eexists. split; [vm_compute; reflexivity|].
  assert (H := proj2 (proj2 (assign_chunk_ids_correct
    [example_draft 15 3 Structural; example_draft 5 10 Structural] 5)) _ eq_refl).
  split; [apply H|]. apply H.
Defined.
