(* ===== verification/MicroFile.v ===== *)
(** * Micro-file packs ([crates/pithos-analysis/src/micro_file.rs])

    The packs that aggregate small files, their front-coded metadata, its
    expansion and validation, and the logical chunks of a plan.  The planner
    is in [MicroPlan].

    Fields of [MicroFileInput] and of the metadata record have the source's
    names with a prefix where another record has the name. *)

From S2P Require Import Prelude Core Effects Runs Bytes Sorting Orders Chunking.

Record MicroFileInput := {
  mi_entry_id : N;
  mi_path : list byte;
  mi_size : N;
  mi_modified_ns : Z;
  mi_mode : N;
  mi_file_hash : list byte;
  mi_family_key : N;
  mi_path_prefix_key : list byte;
  mi_extension_key : list byte;
  mi_similarity_key : N;
  mi_requires_isolated_access : bool;
}.

Inductive MicroFileExclusionReason := TooLarge | RequiresIsolatedAccess.

Record MicroFileExclusion := { ex_entry_id : N; ex_reason : MicroFileExclusionReason }.

Record FrontCodedPath := { shared_prefix_len : N; suffix : list byte }.

Record MicroFileMetadataRecord := {
  mr_entry_id : N;
  mr_mode_index : N;
  mr_content_offset : N;
  mr_length : N;
  mr_file_hash : list byte;
}.

Record MicroFilePackMetadata := {
  md_paths : list FrontCodedPath;
  md_base_modified_ns : Z;
  md_modified_ns_deltas : list N;
  md_mode_dictionary : list N;
  md_records : list MicroFileMetadataRecord;
}.

Record MicroFilePackMember := { mm_entry_id : N; mm_content_offset : N; mm_length : N }.

Record MicroFilePack := {
  mp_pack_id : N;
  mp_members : list MicroFilePackMember;
  mp_uncompressed_len : N;
  mp_metadata : MicroFilePackMetadata;
}.

Record MicroFilePackPlan := {
  packs : list MicroFilePack;
  excluded : list MicroFileExclusion;
}.

Definition ensure_metadata_size (size : N) (config : ChunkingConfig) : Result unit :=
  if ck_max_metadata_bytes config <? size then Err (ResourceLimit "metadata bytes") else Ok tt.

Section microfile.
Context {S : Type} `{Env S} `{FastCdc}.

(** ** [MicroFilePackMetadata::expanded_paths_with_checkpoint] *)

(** The checks of the dictionary's neighbours. *)
Definition dictionary_step (pair : N * N) : M S unit :=
  checkpoint;;
  if pair.2 <=? pair.1 then fail (InvalidMetadata "microfile mode dictionary") else mret tt.

(** The accumulation of the suffixes' lengths. *)
Definition suffix_step (config : ChunkingConfig) (base_column_bytes suffix_bytes : N)
    (path : FrontCodedPath) : M S N :=
  checkpoint;;
  n ← lift (u64_len (suffix path));
  suffix_bytes ← lift (ok_or IntegerOverflow (checked_add suffix_bytes n));
  size ← lift (ok_or IntegerOverflow (checked_add base_column_bytes suffix_bytes));
  lift (ensure_metadata_size size config);;
  mret suffix_bytes.

(** The variables of the main loop. *)
Record expand_state := {
  es_paths : list (list byte);
  es_previous : list byte;
  es_entry_ids : list N;
  es_expected_offset : N;
  es_expanded_path_bytes : N;
}.

Definition expand_step (self : MicroFilePackMetadata) (config : ChunkingConfig) (column_bytes : N)
    (st : expand_state) (item : FrontCodedPath * N * MicroFileMetadataRecord) : M S expand_state :=
  let '(path, delta, record) := item in
  checkpoint;;
  prefix ← lift (ok_or IntegerOverflow (usize_try_from (shared_prefix_len path)));
  if len (es_previous st) <? prefix then fail (InvalidMetadata "front-coded microfile path") else
  path_len ← lift (ok_or IntegerOverflow (checked_add prefix (len (suffix path))));
  path_len_u64 ← lift (ok_or IntegerOverflow (u64_try_from path_len));
  if ck_max_path_bytes config <? path_len_u64 then fail (ResourceLimit "path bytes") else
  expanded_path_bytes ← lift (ok_or IntegerOverflow
    (checked_add (es_expanded_path_bytes st) path_len_u64));
  size ← lift (ok_or IntegerOverflow (checked_add column_bytes expanded_path_bytes));
  lift (ensure_metadata_size size config);;
  try_reserve path_len;;
  let expanded := take (N.to_nat prefix) (es_previous st) ++ suffix path in
  if bool_decide (expanded = []) then fail (InvalidMetadata "empty microfile path") else
  let modified := (md_base_modified_ns self + Z.of_N delta)%Z in
  _ ← lift (ok_or IntegerOverflow (i64_try_from modified));
  mode_index ← lift (ok_or IntegerOverflow (usize_try_from (mr_mode_index record)));
  if (len (md_mode_dictionary self) <=? mode_index) ||
     negb (mr_content_offset record =? es_expected_offset st)
  then fail (InvalidMetadata "microfile metadata record") else
  expected_offset ← lift (ok_or IntegerOverflow
    (checked_add (es_expected_offset st) (mr_length record)));
  try_reserve (len expanded);;
  mret {| es_paths := es_paths st ++ [expanded]; es_previous := expanded;
          es_entry_ids := es_entry_ids st ++ [mr_entry_id record];
          es_expected_offset := expected_offset; es_expanded_path_bytes := expanded_path_bytes |}.

Definition expanded_paths_with_checkpoint (self : MicroFilePackMetadata) (config : ChunkingConfig) :
    M S (list (list byte)) :=
  lift (ChunkingConfig_validate config);;
  checkpoint;;
  let record_count := len (md_records self) in
  record_count_u64 ← lift (u64_len (md_records self));
  if ck_max_chunks config <? record_count_u64 then fail (ResourceLimit "chunk count") else
  if negb (len (md_paths self) =? record_count) ||
     negb (len (md_modified_ns_deltas self) =? record_count)
  then fail (InvalidMetadata "microfile metadata columns") else
  if (0 <? record_count) && bool_decide (md_mode_dictionary self = [])
  then fail (InvalidMetadata "microfile mode dictionary") else
  if record_count <? len (md_mode_dictionary self)
  then fail (InvalidMetadata "microfile mode dictionary") else
  for_each dictionary_step (windows2 (md_mode_dictionary self));;
  dictionary_len ← lift (u64_len (md_mode_dictionary self));
  dictionary_bytes ← lift (ok_or IntegerOverflow (checked_mul dictionary_len 4));
  base_column_bytes ← lift (ok_or IntegerOverflow
    (value ← checked_mul record_count_u64 72; checked_add value dictionary_bytes));
  lift (ensure_metadata_size base_column_bytes config);;
  suffix_bytes ← fold_m (suffix_step config base_column_bytes) 0 (md_paths self);
  column_bytes ← lift (ok_or IntegerOverflow (checked_add base_column_bytes suffix_bytes));
  try_reserve record_count;;
  try_reserve record_count;;
  st ← fold_m (expand_step self config column_bytes)
    {| es_paths := []; es_previous := []; es_entry_ids := []; es_expected_offset := 0;
       es_expanded_path_bytes := 0 |}
    (zip (zip (md_paths self) (md_modified_ns_deltas self)) (md_records self));
  entry_ids ← try_sort_by_checkpoint N.compare (es_entry_ids st);
  distinct_neighbours (InvalidMetadata "duplicate microfile entry id") entry_ids;;
  try_reserve (len (es_paths st));;
  ordered_paths ← push_each id [] (es_paths st);
  ordered_paths ← try_sort_by_checkpoint compare_bytes ordered_paths;
  distinct_neighbours (InvalidMetadata "duplicate microfile path") ordered_paths;;
  mret (es_paths st).

(** ** [MicroFilePack::validate_with_checkpoint] *)

Definition member_check (config : ChunkingConfig) (expected_offset : N)
    (item : MicroFilePackMember * MicroFileMetadataRecord) : M S N :=
  let '(member, record) := item in
  checkpoint;;
  if negb (mm_entry_id member =? mr_entry_id record) ||
     negb (mm_content_offset member =? mr_content_offset record) ||
     negb (mm_length member =? mr_length record) ||
     negb (mm_content_offset member =? expected_offset) ||
     (micro_file_max config <? mm_length member)
  then fail (InvalidMetadata "microfile member mapping") else
  lift (ok_or IntegerOverflow (checked_add expected_offset (mm_length member))).

Definition MicroFilePack_validate_with_checkpoint (self : MicroFilePack) (config : ChunkingConfig) :
    M S unit :=
  lift (ChunkingConfig_validate config);;
  checkpoint;;
  member_count ← lift (u64_len (mp_members self));
  if ck_max_chunks config <? member_count then fail (ResourceLimit "chunk count") else
  if bool_decide (mp_members self = []) ||
     negb (len (mp_members self) =? len (md_records (mp_metadata self))) ||
     (micro_pack_target config <? mp_uncompressed_len self) ||
     (max_logical_bytes config <? mp_uncompressed_len self)
  then fail (InvalidMetadata "microfile pack layout") else
  _ ← expanded_paths_with_checkpoint (mp_metadata self) config;
  expected_offset ← fold_m (member_check config) 0
    (zip (mp_members self) (md_records (mp_metadata self)));
  if negb (expected_offset =? mp_uncompressed_len self)
  then fail (InvalidMetadata "microfile pack length") else mret tt.

(** ** [MicroFilePackPlan::validate_with_checkpoint] *)

(** The totals over the packs: members and content bytes. *)
Definition totals_step (config : ChunkingConfig) (st : N * N) (pack : MicroFilePack) : M S (N * N) :=
  let '(total_members, total_content) := st in
  checkpoint;;
  n ← lift (u64_len (mp_members pack));
  total_members ← lift (ok_or IntegerOverflow (checked_add total_members n));
  if ck_max_chunks config <? total_members then fail (ResourceLimit "chunk count") else
  total_content ← lift (ok_or IntegerOverflow
    (checked_add total_content (mp_uncompressed_len pack)));
  if max_logical_bytes config <? total_content then fail (ResourceLimit "logical bytes") else
  mret (total_members, total_content).

Definition plan_pack_step (config : ChunkingConfig) (entry_ids : list N) (item : N * MicroFilePack) :
    M S (list N) :=
  let '(index, pack) := item in
  checkpoint;;
  expected ← lift (ok_or IntegerOverflow (u64_try_from index));
  if negb (mp_pack_id pack =? expected) then fail (InvalidMetadata "microfile pack ID") else
  MicroFilePack_validate_with_checkpoint pack config;;
  push_each mm_entry_id entry_ids (mp_members pack).

Definition MicroFilePackPlan_validate_with_checkpoint (self : MicroFilePackPlan)
    (config : ChunkingConfig) : M S unit :=
  lift (ChunkingConfig_validate config);;
  checkpoint;;
  pack_count ← lift (u64_len (packs self));
  if ck_max_chunks config <? pack_count then fail (ResourceLimit "chunk count") else
  '(total_members, _) ← fold_m (totals_step config) (0, 0) (packs self);
  excluded_count ← lift (u64_len (excluded self));
  total_ids_u64 ← lift (ok_or IntegerOverflow (checked_add total_members excluded_count));
  if ck_max_chunks config <? total_ids_u64 then fail (ResourceLimit "chunk count") else
  total_ids ← lift (ok_or IntegerOverflow (usize_try_from total_ids_u64));
  try_reserve total_ids;;
  entry_ids ← fold_m (plan_pack_step config) [] (enumerate (packs self));
  entry_ids ← push_each ex_entry_id entry_ids (excluded self);
  entry_ids ← try_sort_by_checkpoint N.compare entry_ids;
  distinct_neighbours (InvalidMetadata "duplicate microfile entry id") entry_ids.

(** ** [micro_file_logical_chunks_with_checkpoint] *)

Definition micro_file_logical_chunks_with_checkpoint (plan : MicroFilePackPlan) (object_id : N)
    (config : ChunkingConfig) : M S (list LogicalChunkDraft) :=
  MicroFilePackPlan_validate_with_checkpoint plan config;;
  member_count ← fold_m (λ member_count pack,
      checkpoint;; lift (ok_or IntegerOverflow (checked_add member_count (len (mp_members pack)))))
    0 (packs plan);
  try_reserve member_count;;
  fold_m (λ drafts pack,
      push_each (λ member, {|
        dr_entry_id := mm_entry_id member; dr_object_id := object_id; dr_logical_offset := 0;
        dr_length := mm_length member; dr_method := MicroFile |}) drafts (mp_members pack))
    [] (packs plan).
End microfile.

(** ** Specification of a pack's metadata *)

Definition budget (config : ChunkingConfig) (n : N) : Prop :=
  n <= ck_max_metadata_bytes config ∧ n <= u64_MAX.

(** A path is a prefix of the preceding one and a suffix. *)
Fixpoint front_decode (previous : list byte) (paths : list FrontCodedPath) : list (list byte) :=
  match paths with
  | [] => []
  | p :: paths =>
      let path := take (N.to_nat (shared_prefix_len p)) previous ++ suffix p in
      path :: front_decode path paths
  end.

(** The columns row by row: shared prefixes exist, paths are non-empty and
    within the limit, times are 64-bit, modes are in the dictionary and the
    contents lie end to end from [offset]. *)
Fixpoint rows_ok (self : MicroFilePackMetadata) (config : ChunkingConfig) (previous : list byte)
    (offset : N) (rows : list (FrontCodedPath * N * MicroFileMetadataRecord)) : Prop :=
  match rows with
  | [] => True
  | (p, delta, record) :: rows =>
      let path := take (N.to_nat (shared_prefix_len p)) previous ++ suffix p in
      shared_prefix_len p <= len previous ∧ 0 < len path <= ck_max_path_bytes config ∧
      len path <= u64_MAX ∧
      (i64_MIN <= md_base_modified_ns self + Z.of_N delta <= i64_MAX)%Z ∧
      mr_mode_index record < len (md_mode_dictionary self) ∧ mr_mode_index record <= usize_MAX ∧
      mr_content_offset record = offset ∧ offset + mr_length record <= u64_MAX ∧
      rows_ok self config path (offset + mr_length record) rows
  end.

Definition rows (self : MicroFilePackMetadata) : list (FrontCodedPath * N * MicroFileMetadataRecord) :=
  zip (zip (md_paths self) (md_modified_ns_deltas self)) (md_records self).

Definition total_len (paths : list (list byte)) : N := sum (map len paths).

(** The size of the compact columns and the expanded paths. *)
Definition metadata_size (self : MicroFilePackMetadata) : N :=
  len (md_records self) * 72 + len (md_mode_dictionary self) * 4 +
  total_len (map suffix (md_paths self)) + total_len (front_decode [] (md_paths self)).

Record metadata_ok (self : MicroFilePackMetadata) (config : ChunkingConfig) : Prop := {
  mo_count : len (md_records self) <= ck_max_chunks config ∧ len (md_records self) <= u64_MAX;
  mo_paths : len (md_paths self) = len (md_records self);
  mo_deltas : len (md_modified_ns_deltas self) = len (md_records self);
  mo_dictionary : md_records self ≠ [] → md_mode_dictionary self ≠ [];
  mo_dictionary_len : len (md_mode_dictionary self) <= len (md_records self);
  mo_dictionary_sorted : StronglySorted N.lt (md_mode_dictionary self);
  mo_budget : budget config (metadata_size self);
  mo_rows : rows_ok self config [] 0 (rows self);
  mo_ids : NoDup (map mr_entry_id (md_records self));
  mo_unique : NoDup (front_decode [] (md_paths self));
}.

(** ** Calm runs *)

Lemma ensure_metadata_size_Ok n config : ensure_metadata_size n config = Ok tt ↔ n <= ck_max_metadata_bytes config.
Proof. unfold ensure_metadata_size. destruct (N.ltb_spec (ck_max_metadata_bytes config) n); naive_solver lia. Qed.

Lemma run_budget_Ok {B} n config (f : unit → M unit B) v :
  run_calm (lift (ensure_metadata_size n config) ≫= f) = Ok v ↔
  n <= ck_max_metadata_bytes config ∧ run_calm (f tt) = Ok v.
Proof.
  rewrite run_bind_Ok. setoid_rewrite run_lift_Ok. split.
  - intros ([] & Hn%ensure_metadata_size_Ok & Hf). done.
  - intros [Hn Hf]. exists tt. split; [by apply ensure_metadata_size_Ok|done].
Qed.

#[local] Ltac run_hook ::= rewrite run_budget_Ok.

Lemma dictionary_run l :
  run_calm (for_each dictionary_step (windows2 l)) = Ok tt ↔ StronglySorted N.lt l.
Proof.
  rewrite for_each_run. induction l as [|a [|b l] IH].
  { by split; repeat constructor. }
  { by split; repeat constructor. }
  change (windows2 (a :: b :: l)) with ((a, b) :: windows2 (b :: l)).
  rewrite Forall_cons, IH. unfold dictionary_step at 1. run_iff. cbn [fst snd]. rewrite N.leb_gt. split.
  - intros [[Hab _] Hr]. constructor; [done|]. constructor; [done|].
    apply StronglySorted_inv in Hr as [_ Hb]. eapply Forall_impl; [exact Hb|]. intros; cbn in *; lia.
  - intros [Hs Ha]%StronglySorted_inv. apply Forall_cons in Ha as [Hab _]. done.
Qed.

Lemma total_len_cons (x : list byte) l : total_len (x :: l) = len x + total_len l.
Proof. done. Qed.

Lemma suffixes_run config base bytes l v :
  budget config (base + bytes) →
  run_calm (fold_m (suffix_step config base) bytes l) = Ok v ↔
  v = bytes + total_len (map suffix l) ∧ budget config (base + v).
Proof.
  revert bytes; induction l as [|p l IH]; intros bytes Hb; cbn [fold_m map].
  { rewrite run_ret_Ok. change (total_len []) with 0. rewrite N.add_0_r. naive_solver. }
  rewrite run_bind_Ok, total_len_cons. unfold suffix_step at 1. unfold budget in *. split.
  - intros (n & Hn & Hr). revert Hn. run_iff. intros (? & ? & ? & ? & ->).
    apply IH in Hr as [-> Hr]; [|lia]. lia.
  - intros [-> Hv]. exists (bytes + len (suffix p)). split; [run_iff; lia|]. apply IH; lia.
Qed.

(** ** The main loop *)

Definition expand_next (st : expand_state) (item : FrontCodedPath * N * MicroFileMetadataRecord) :
    expand_state :=
  let '(p, _, record) := item in
  let path := take (N.to_nat (shared_prefix_len p)) (es_previous st) ++ suffix p in
  {| es_paths := es_paths st ++ [path]; es_previous := path;
     es_entry_ids := es_entry_ids st ++ [mr_entry_id record];
     es_expected_offset := es_expected_offset st + mr_length record;
     es_expanded_path_bytes := es_expanded_path_bytes st + len path |}.

Lemma len_expanded p (previous : list byte) (suffix : list byte) :
  p <= len previous → len (take (N.to_nat p) previous ++ suffix) = p + len suffix.
Proof. intros Hp. unfold len in *. rewrite length_app, length_take. lia. Qed.

Lemma expand_step_run self config column st p delta record st' :
  run_calm (expand_step self config column st (p, delta, record)) = Ok st' ↔
  let path := take (N.to_nat (shared_prefix_len p)) (es_previous st) ++ suffix p in
  rows_ok self config (es_previous st) (es_expected_offset st) [(p, delta, record)] ∧
  budget config (column + (es_expanded_path_bytes st + len path)) ∧
  st' = expand_next st (p, delta, record).
Proof.
  unfold expand_step. run_iff. cbn zeta. cbn [rows_ok]. unfold budget.
  rewrite !N.ltb_ge, bool_decide_eq_false, orb_false_iff, N.leb_gt, negb_false_iff, N.eqb_eq.
  set (path := take _ _ ++ _).
  assert (Hlen : shared_prefix_len p <= len (es_previous st) →
    shared_prefix_len p + len (suffix p) = len path) by (intros; symmetry; by apply len_expanded).
  assert (Hpos : path ≠ [] ↔ 0 < len path) by (destruct path; unfold len; simpl; split; [done|lia|lia|done]).
  unfold expand_next. fold path. rewrite Hpos. split.
  - intros (? & Hp & H). rewrite (Hlen Hp) in H. repeat split; naive_solver.
  - intros ((Hp & H) & H' & ->). pose proof (Hlen Hp). rewrite (Hlen Hp). repeat split; first [tauto|lia].
Qed.

Lemma expand_run self config column st l st' :
  budget config (column + es_expanded_path_bytes st) →
  run_calm (fold_m (expand_step self config column) st l) = Ok st' ↔
  rows_ok self config (es_previous st) (es_expected_offset st) l ∧
  budget config (column + (es_expanded_path_bytes st +
    total_len (front_decode (es_previous st) (map (fst ∘ fst) l)))) ∧
  st' = foldl expand_next st l.
Proof.
  revert st; induction l as [|[[p delta] record] l IH]; intros st Hb; cbn [fold_m].
  { rewrite run_ret_Ok. cbn. rewrite N.add_0_r. naive_solver. }
  rewrite run_bind_Ok. setoid_rewrite expand_step_run. cbn [map compose fst front_decode foldl].
  cbn zeta. cbn [rows_ok]. set (path := take _ _ ++ _). rewrite total_len_cons. unfold budget in *. split.
  - intros (st1 & (H1 & H2 & ->) & Hr). apply IH in Hr as (Hr1 & Hr2 & ->); [|by cbn].
    unfold expand_next in Hr1, Hr2. cbn [es_previous es_expected_offset es_expanded_path_bytes] in Hr1, Hr2.
    fold path in Hr1, Hr2. split; [tauto|]. split; [lia|done].
  - intros (H1 & H2 & ->). exists (expand_next st (p, delta, record)). split.
    { split; [tauto|]. split; [lia|done]. }
    apply IH; unfold expand_next; cbn [es_previous es_expected_offset es_expanded_path_bytes]; fold path; [lia|].
    split; [tauto|]. split; [lia|done].
Qed.

Lemma expanded_paths_of st l :
  es_paths (foldl expand_next st l) = es_paths st ++ front_decode (es_previous st) (map (fst ∘ fst) l) ∧
  es_entry_ids (foldl expand_next st l) = es_entry_ids st ++ map (mr_entry_id ∘ snd) l.
Proof.
  revert st; induction l as [|[[p delta] record] l IH]; intros st; cbn [foldl map front_decode compose fst snd].
  { by rewrite !app_nil_r. }
  destruct (IH (expand_next st (p, delta, record))) as [-> ->]. cbn. by rewrite <-!app_assoc.
Qed.

(** Sorting and comparing neighbours finds the duplicates. *)
Lemma sorted_distinct_run {T} `{EqDecision T} (compare : T → T → comparison) `{!TotalOrder compare} e l
    {B} (k : M unit B) v :
  run_calm (l' ← try_sort_by_checkpoint compare l; distinct_neighbours e l';; k) = Ok v ↔
  NoDup l ∧ run_calm k = Ok v.
Proof.
  rewrite run_bind_Ok. setoid_rewrite (sort_run compare). rewrite <-(distinct_sorted compare e l).
  setoid_rewrite run_bind_Ok. split.
  - intros (? & [= <-] & [] & ? & ?). done.
  - intros []. eauto.
Qed.

Lemma zip_rows self :
  len (md_paths self) = len (md_records self) → len (md_modified_ns_deltas self) = len (md_records self) →
  map (fst ∘ fst) (rows self) = md_paths self ∧ map (mr_entry_id ∘ snd) (rows self) = map mr_entry_id (md_records self).
Proof.
  unfold rows, len. intros H1 H2. split.
  - transitivity ((zip (zip (md_paths self) (md_modified_ns_deltas self)) (md_records self)).*1.*1).
    { symmetry. apply map_map. }
    rewrite !fst_zip; [done|lia|rewrite length_zip; lia].
  - transitivity (map mr_entry_id (zip (zip (md_paths self) (md_modified_ns_deltas self)) (md_records self)).*2).
    { symmetry. apply map_map. }
    rewrite snd_zip; [done|rewrite length_zip; lia].
Qed.

Lemma metadata_tail_run (ids : list N) (paths : list (list byte)) v :
  run_calm (ids' ← try_sort_by_checkpoint N.compare ids;
    distinct_neighbours (InvalidMetadata "duplicate microfile entry id") ids';;
    try_reserve (len paths);;
    ordered ← push_each Datatypes.id [] paths;
    ordered ← try_sort_by_checkpoint compare_bytes ordered;
    distinct_neighbours (InvalidMetadata "duplicate microfile path") ordered;;
    mret paths) = Ok v ↔ NoDup ids ∧ NoDup paths ∧ v = paths.
Proof.
  rewrite (sorted_distinct_run N.compare). run_iff. apply and_iff_compat_l.
  rewrite run_calm_bind, push_each_run. cbn [app mbind result_bind]. rewrite map_id.
  rewrite (sorted_distinct_run compare_bytes). by run_iff.
Qed.

Lemma expanded_paths_run `{FastCdc} self config paths :
  run_calm (expanded_paths_with_checkpoint self config) = Ok paths ↔
  ChunkingConfig_validate config = Ok tt ∧ metadata_ok self config ∧
  paths = front_decode [] (md_paths self).
Proof.
  unfold expanded_paths_with_checkpoint. rewrite run_unit_Ok, run_lift_Ok. apply and_iff_compat_l. run_iff.
  rewrite run_unit_Ok, dictionary_run. run_iff.
  rewrite !N.ltb_ge, orb_false_iff, !negb_false_iff, !N.eqb_eq.
  split.
  - intros (Hu & Hc & [Hp Hd] & Hdict & Hdl & Hs & _ & _ & Hb1 & Hb2 & Hr).
    apply run_bind_Ok in Hr as (suffix_bytes & Hsuf & Hr). apply suffixes_run in Hsuf as [-> Hbud]; [|unfold budget; lia].
    revert Hr. run_iff. intros [_ (st & Hst & Hr)%run_bind_Ok].
    apply expand_run in Hst as (Hrows & Hbud' & ->); [|cbn; unfold budget in *; lia].
    apply metadata_tail_run in Hr as (Hids & Hpaths & ->).
    destruct (zip_rows self Hp Hd) as [Z1 Z2]. fold (rows self) in *.
    match type of Hpaths with context [foldl expand_next ?st _] =>
      destruct (expanded_paths_of st (rows self)) as [E1 E2] end.
    rewrite E1, E2 in *. cbn [app es_paths es_previous es_entry_ids] in *. rewrite Z1, Z2 in *.
    split; [|done]. split; try done. intros Hne He. rewrite He in Hdict. by destruct (md_records self).
  - intros [Hok ->]. destruct Hok as [[Hc Hu] Hp Hd Hdict Hdl Hs Hbud Hrows Hids Hpaths].
    destruct (zip_rows self Hp Hd) as [Z1 Z2]. unfold budget, metadata_size in Hbud.
    split; [done|]. split; [done|]. split; [done|]. split.
    { destruct (md_records self); [done|]. case_bool_decide; [naive_solver|by rewrite andb_false_r]. }
    split; [done|]. split; [done|]. do 4 (split; [lia|]). apply run_bind_Ok. eexists. split.
    { apply suffixes_run; [unfold budget; lia|]. split; [done|]. unfold budget. lia. }
    run_iff. split; [lia|]. apply run_bind_Ok. eexists. split.
    { apply expand_run; [unfold budget; cbn; lia|]. fold (rows self). split; [done|]. split; [|done].
      cbn [es_expanded_path_bytes es_previous]. rewrite Z1. unfold budget. lia. }
    apply metadata_tail_run. fold (rows self).
    match goal with |- context [foldl expand_next ?st _] =>
      destruct (expanded_paths_of st (rows self)) as [-> ->] end.
    cbn [app es_paths es_previous es_entry_ids]. rewrite Z1, Z2. done.
Qed.

(** ** Packs and plans *)

(** The members repeat the records' columns, end to end from [offset]. *)
Fixpoint members_ok (config : ChunkingConfig) (offset : N)
    (items : list (MicroFilePackMember * MicroFileMetadataRecord)) : Prop :=
  match items with
  | [] => True
  | (m, r) :: items =>
      mm_entry_id m = mr_entry_id r ∧ mm_content_offset m = mr_content_offset r ∧
      mm_length m = mr_length r ∧ mm_content_offset m = offset ∧
      mm_length m <= micro_file_max config ∧ offset + mm_length m <= u64_MAX ∧
      members_ok config (offset + mm_length m) items
  end.

Definition content_len (members : list MicroFilePackMember) : N := sum (map mm_length members).

Record pack_ok (self : MicroFilePack) (config : ChunkingConfig) : Prop := {
  po_count : len (mp_members self) <= ck_max_chunks config ∧ len (mp_members self) <= u64_MAX;
  po_nonempty : mp_members self ≠ [];
  po_columns : len (mp_members self) = len (md_records (mp_metadata self));
  po_target : mp_uncompressed_len self <= micro_pack_target config;
  po_logical : mp_uncompressed_len self <= max_logical_bytes config;
  po_metadata : metadata_ok (mp_metadata self) config;
  po_members : members_ok config 0 (zip (mp_members self) (md_records (mp_metadata self)));
  po_len : content_len (mp_members self) = mp_uncompressed_len self;
}.

(** All entries of a plan, packed and excluded. *)
Definition plan_entry_ids (self : MicroFilePackPlan) : list N :=
  concat (map (map mm_entry_id ∘ mp_members) (packs self)) ++ map ex_entry_id (excluded self).

Definition total_members (packs : list MicroFilePack) : N := sum (map (len ∘ mp_members) packs).
Definition total_content (packs : list MicroFilePack) : N := sum (map mp_uncompressed_len packs).

Record plan_ok (self : MicroFilePackPlan) (config : ChunkingConfig) : Prop := {
  pl_packs : len (packs self) <= ck_max_chunks config ∧ len (packs self) <= u64_MAX;
  pl_count : total_members (packs self) + len (excluded self) <= ck_max_chunks config ∧
    total_members (packs self) + len (excluded self) <= u64_MAX;
  pl_content : total_content (packs self) <= max_logical_bytes config ∧
    total_content (packs self) <= u64_MAX;
  pl_ids : map mp_pack_id (packs self) = map N.of_nat (seq 0 (length (packs self)));
  pl_each : Forall (λ pack, pack_ok pack config) (packs self);
  pl_unique : NoDup (plan_entry_ids self);
}.

Lemma member_rows_run config offset items v :
  run_calm (fold_m (member_check config) offset items) = Ok v ↔
  members_ok config offset items ∧ v = offset + content_len (map fst items).
Proof.
  revert offset; induction items as [|[m r] items IH]; intros offset; cbn [fold_m map members_ok fst].
  { rewrite run_ret_Ok. cbn. rewrite N.add_0_r. naive_solver. }
  assert (∀ o, run_calm (member_check config offset (m, r)) = Ok o ↔
    (mm_entry_id m = mr_entry_id r ∧ mm_content_offset m = mr_content_offset r ∧
     mm_length m = mr_length r ∧ mm_content_offset m = offset ∧ mm_length m <= micro_file_max config) ∧
    o = offset + mm_length m ∧ offset + mm_length m <= u64_MAX) as Hstep.
  { intros o. unfold member_check. run_iff. rewrite run_lift_Ok, ok_or_Ok, checked_add_Some.
    rewrite !orb_false_iff, !negb_false_iff, !N.eqb_eq, N.ltb_ge. tauto. }
  rewrite run_bind_Ok. setoid_rewrite Hstep. unfold content_len in *. cbn [map].
  change (sum (?x :: ?y)) with (x + sum y). split.
  - intros (o & (? & -> & ?) & [? ->]%IH). split; [tauto|]. lia.
  - intros [H ->]. exists (offset + mm_length m). split; [tauto|]. apply IH. split; [tauto|]. lia.
Qed.

Section runs.
Context `{FastCdc}.

Lemma pack_run self config :
  run_calm (MicroFilePack_validate_with_checkpoint self config) = Ok tt ↔
  ChunkingConfig_validate config = Ok tt ∧ pack_ok self config.
Proof.
  unfold MicroFilePack_validate_with_checkpoint. rewrite run_unit_Ok, run_lift_Ok. run_iff.
  rewrite !orb_false_iff, bool_decide_eq_false, negb_false_iff, !N.ltb_ge, N.eqb_eq.
  assert (len (mp_members self) = len (md_records (mp_metadata self)) →
    map fst (zip (mp_members self) (md_records (mp_metadata self))) = mp_members self) as Hz.
  { intros Hl. apply (fst_zip (A := MicroFilePackMember) (B := MicroFileMetadataRecord)). unfold len in *. lia. }
  split.
  - intros (Hc & Hu & Hm & (((Hne & Hl) & Ht) & Hg) & (paths & (_ & Hok & _)%expanded_paths_run & Hr)%run_bind_Ok).
    apply run_bind_Ok in Hr as (v & [Hmem ->]%member_rows_run & [Hv _]%run_guard).
    rewrite negb_false_iff, N.eqb_eq, N.add_0_l, Hz in Hv by done. done.
  - intros [Hc [[Hm Hu] Hne Hl Ht Hg Hok Hmem Hv]]. do 4 (split; [done|]).
    apply run_bind_Ok. eexists. split; [by apply expanded_paths_run|].
    apply run_bind_Ok. eexists. split; [by apply member_rows_run|]. apply run_guard. split; [|done].
    by rewrite negb_false_iff, N.eqb_eq, N.add_0_l, Hz.
Qed.

Lemma totals_run config m c l v :
  m <= ck_max_chunks config → m <= u64_MAX → c <= max_logical_bytes config → c <= u64_MAX →
  run_calm (fold_m (totals_step config) (m, c) l) = Ok v ↔
  v = (m + total_members l, c + total_content l) ∧
  v.1 <= ck_max_chunks config ∧ v.1 <= u64_MAX ∧ v.2 <= max_logical_bytes config ∧ v.2 <= u64_MAX.
Proof.
  unfold total_members, total_content.
  revert m c; induction l as [|p l IH]; intros m c H1 H2 H3 H4; cbn [fold_m map].
  { rewrite run_ret_Ok. change (sum []) with 0. rewrite !N.add_0_r. naive_solver. }
  change (sum (?x :: ?y)) with (x + sum y). rewrite run_bind_Ok. unfold totals_step at 1, compose.
  split.
  - intros (v' & Hv' & Hr). revert Hv'. run_iff. rewrite !N.ltb_ge. intros (? & ? & ? & ? & ? & ->).
    apply IH in Hr as (-> & Hr); [|lia..]. cbn [fst snd] in *. unfold compose in *. rewrite !N.add_assoc. done.
  - intros (-> & ? & ? & ? & ?). cbn [fst snd] in *. unfold compose in *.
    exists (m + len (mp_members p), c + mp_uncompressed_len p). split.
    { run_iff. rewrite !N.ltb_ge. repeat split; try lia. }
    apply IH; [lia..|]. cbn [fst snd]. rewrite !N.add_assoc. repeat split; lia.
Qed.

Lemma plan_packs_run config i ids l v :
  i + len l <= u64_MAX →
  run_calm (fold_m (plan_pack_step config) ids (enumerate_from i l)) = Ok v ↔
  (l ≠ [] → ChunkingConfig_validate config = Ok tt) ∧
  map mp_pack_id l = map N.of_nat (seq (N.to_nat i) (length l)) ∧
  Forall (λ pack, pack_ok pack config) l ∧
  v = ids ++ concat (map (map mm_entry_id ∘ mp_members) l).
Proof.
  revert i ids; induction l as [|p l IH]; intros i ids Hi; cbn [enumerate_from fold_m map seq length concat].
  { rewrite run_ret_Ok, app_nil_r. naive_solver. }
  rewrite run_bind_Ok. unfold plan_pack_step at 1. rewrite len_cons in Hi. rewrite Forall_cons. split.
  - intros (ids' & Hs & Hr). revert Hs. run_iff. rewrite negb_false_iff, N.eqb_eq.
    intros (_ & Hid & Hs). apply run_unit_Ok in Hs as [[Hc Hp]%pack_run Hs].
    rewrite push_each_run in Hs. injection Hs as <-. apply IH in Hr as (_ & Hids & Hall & ->); [|lia].
    split; [done|]. split; [f_equal; [rewrite Hid; lia|]|split; [done|by rewrite <-app_assoc]].
    by replace (S (N.to_nat i)) with (N.to_nat (i + 1)) by lia.
  - intros (Hc & Hids & [Hp Hall] & ->). injection Hids as Hid Hids.
    exists (ids ++ map mm_entry_id (mp_members p)). split.
    { run_iff. rewrite negb_false_iff, N.eqb_eq. split; [lia|]. split; [lia|].
      apply run_unit_Ok. split; [apply pack_run; naive_solver|apply push_each_run]. }
    apply IH; [lia|]. split; [naive_solver|]. split; [|split; [done|by rewrite <-app_assoc]].
    rewrite Hids. by replace (N.to_nat (i + 1)) with (S (N.to_nat i)) by lia.
Qed.

Lemma plan_run self config :
  run_calm (MicroFilePackPlan_validate_with_checkpoint self config) = Ok tt ↔
  ChunkingConfig_validate config = Ok tt ∧ plan_ok self config.
Proof.
  unfold MicroFilePackPlan_validate_with_checkpoint. rewrite run_unit_Ok, run_lift_Ok. run_iff.
  rewrite N.ltb_ge. apply and_iff_weak. intros Hcfg. split.
  - intros (Hu & Hc & ([m c] & Ht & Hr)%run_bind_Ok).
    apply totals_run in Ht as (Ht & ? & ? & ? & ?); [|lia..]. injection Ht as -> ->. cbn [fst snd] in *.
    revert Hr. run_iff. rewrite N.ltb_ge. intros (He & Hs & Hs' & _ & (ids & Hids & Hr)%run_bind_Ok).
    apply plan_packs_run in Hids as (_ & Hids & Hall & ->); [|lia].
    rewrite run_calm_bind, push_each_run in Hr. cbn [mbind result_bind app] in Hr.
    rewrite run_calm_bind, (sort_run N.compare) in Hr. cbn [mbind result_bind] in Hr.
    apply (distinct_sorted N.compare) in Hr. rewrite N.add_0_l in *. done.
  - intros [[Hc Hu] [Hn Hn'] [Hb Hb'] Hids Hall Hnd]. split; [done|]. split; [done|].
    apply run_bind_Ok. eexists. split.
    { apply totals_run; [lia..|]. rewrite !N.add_0_l. split; [done|]. cbn [fst snd].
      split; [lia|]. split; [lia|]. by split. }
    cbn beta iota. run_iff. rewrite N.ltb_ge. split; [lia|]. split; [done|]. split; [done|]. split; [lia|].
    apply run_bind_Ok. eexists. split.
    { apply plan_packs_run; [lia|]. split; [done|]. split; [done|]. by split. }
    rewrite run_calm_bind, push_each_run. cbn [mbind result_bind app].
    rewrite run_calm_bind, (sort_run N.compare). cbn [mbind result_bind].
    by apply (distinct_sorted N.compare).
Qed.

Definition member_draft (object_id : N) (member : MicroFilePackMember) : LogicalChunkDraft :=
  {| dr_entry_id := mm_entry_id member; dr_object_id := object_id; dr_logical_offset := 0;
     dr_length := mm_length member; dr_method := MicroFile |}.

Definition plan_members (self : MicroFilePackPlan) : list MicroFilePackMember :=
  concat (map mp_members (packs self)).

Lemma drafts_run plan object_id config v :
  run_calm (micro_file_logical_chunks_with_checkpoint plan object_id config) = Ok v ↔
  ChunkingConfig_validate config = Ok tt ∧ plan_ok plan config ∧
  v = map (member_draft object_id) (plan_members plan).
Proof.
  unfold micro_file_logical_chunks_with_checkpoint, plan_members. rewrite run_unit_Ok, plan_run, (assoc (∧)).
  apply and_iff_weak. intros [_ Hok].
  assert (∀ n l, n + total_members l <= u64_MAX → run_calm (fold_m (λ member_count pack, checkpoint;;
    lift (ok_or IntegerOverflow (checked_add member_count (len (mp_members pack))))) n l) =
    Ok (n + total_members l)) as Hcount.
  { unfold total_members. intros n l. revert n. induction l as [|p l IH]; intros n; cbn [fold_m map].
    { intros _. rewrite N.add_0_r. done. }
    change (sum (?x :: ?y)) with (x + sum y). unfold compose in *. intros Hn. calm_run.
    rewrite IH by lia. f_equal. lia. }
  rewrite run_calm_bind, Hcount by (destruct (pl_count _ _ Hok); lia).
  cbn [mbind result_bind]. rewrite run_reserve_Ok.
  assert (∀ out l, run_calm (fold_m (λ drafts pack, push_each (member_draft object_id) drafts (mp_members pack))
    out l) = Ok (out ++ map (member_draft object_id) (concat (map mp_members l)))) as Hdrafts.
  { intros out l. revert out. induction l as [|p l IH]; intros out; cbn [fold_m map concat]; [by rewrite app_nil_r|].
    rewrite run_calm_bind, push_each_run. cbn [mbind result_bind]. rewrite IH, <-app_assoc. by rewrite map_app. }
  fold (member_draft object_id). setoid_rewrite Hdrafts. cbn [app]. split; [by intros [= <-]|by intros ->].
Qed.
End runs.

(** ** The routines in an arbitrary environment *)

Section follows.
Context {S : Type} `{Env S} `{FastCdc}.

Lemma expanded_paths_follows self config :
  follows (expanded_paths_with_checkpoint self config) (run_calm (expanded_paths_with_checkpoint self config)).
Proof.
  unfold expanded_paths_with_checkpoint, for_each, dictionary_step, suffix_step, expand_step.
  follows_by ltac:(fail).
Qed.

Lemma plan_validate_follows self config :
  follows (MicroFilePackPlan_validate_with_checkpoint self config)
    (run_calm (MicroFilePackPlan_validate_with_checkpoint self config)).
Proof.
  unfold MicroFilePackPlan_validate_with_checkpoint, totals_step, plan_pack_step,
    MicroFilePack_validate_with_checkpoint, member_check.
  follows_by ltac:(apply expanded_paths_follows).
Qed.

Lemma drafts_follows plan object_id config :
  follows (micro_file_logical_chunks_with_checkpoint plan object_id config)
    (run_calm (micro_file_logical_chunks_with_checkpoint plan object_id config)).
Proof.
  unfold micro_file_logical_chunks_with_checkpoint.
  follows_by ltac:(apply plan_validate_follows).
Qed.
End follows.

(** ** Properties *)

(** The contents before the record at [i]. *)
Definition content_before (self : MicroFilePackMetadata) (i : nat) : N :=
  sum (map mr_length (take i (md_records self))).

Lemma rows_ok_lookup self config previous offset l i p delta record :
  rows_ok self config previous offset l → l !! i = Some (p, delta, record) →
  (i64_MIN <= md_base_modified_ns self + Z.of_N delta <= i64_MAX)%Z ∧
  mr_mode_index record < len (md_mode_dictionary self) ∧
  mr_content_offset record = offset + sum (map mr_length (take i (map snd l))).
Proof.
  revert previous offset i; induction l as [|[[p' delta'] record'] l IH]; intros previous offset i; [done|].
  cbn [rows_ok]. intros (_ & _ & _ & ? & ? & _ & ? & _ & Hr). destruct i as [|i].
  - intros [= <- <- <-]. cbn. split; [done|]. split; [done|]. lia.
  - intros Hi. destruct (IH _ _ i Hr Hi) as (? & ? & ->). split; [done|]. split; [done|].
    cbn [map take snd]. change (sum (?x :: ?y)) with (x + sum y). lia.
Qed.

Lemma rows_ok_paths self config previous offset l :
  rows_ok self config previous offset l →
  Forall (λ path, 0 < len path <= ck_max_path_bytes config) (front_decode previous (map (fst ∘ fst) l)).
Proof.
  revert previous offset; induction l as [|[[p delta] record] l IH]; intros previous offset;
    cbn [rows_ok map front_decode compose fst]; [constructor|].
  intros (_ & ? & _ & _ & _ & _ & _ & _ & Hr). constructor; [done|]. by eapply IH.
Qed.

Lemma length_front_decode previous l : length (front_decode previous l) = length l.
Proof. revert previous; induction l; intros; cbn; auto. Qed.

Lemma rows_lookup self config i record :
  metadata_ok self config → md_records self !! i = Some record →
  ∃ p delta, md_modified_ns_deltas self !! i = Some delta ∧ rows self !! i = Some (p, delta, record).
Proof.
  intros Hok Hi. pose proof (mo_paths _ _ Hok) as Hp. pose proof (mo_deltas _ _ Hok) as Hd. unfold len in *.
  assert (i < length (md_records self))%nat as Hl by (by eapply lookup_lt_Some).
  destruct (lookup_lt_is_Some_2 (md_paths self) i) as [p Ep]; [lia|].
  destruct (lookup_lt_is_Some_2 (md_modified_ns_deltas self) i) as [d Ed]; [lia|].
  exists p, d. split; [done|]. unfold rows. rewrite !lookup_zip_with, Ep, Ed, Hi. done.
Qed.

(** A pack's metadata is accepted exactly when it is well formed, and
    then its paths are the front-coded ones, one per record, distinct,
    non-empty and within the path limit, while every record's mode is in the
    dictionary, its time is a 64-bit time and its content starts where the
    contents of the records before it end. *)
Theorem expanded_paths_correct {S : Type} `{Env S} `{FastCdc} (self : MicroFilePackMetadata)
    (config : ChunkingConfig) :
  ∃ r, follows (expanded_paths_with_checkpoint self config) r ∧
    (∀ paths, r = Ok paths ↔ ChunkingConfig_validate config = Ok tt ∧ metadata_ok self config ∧
      paths = front_decode [] (md_paths self)) ∧
    (∀ paths, r = Ok paths →
      NoDup paths ∧ len paths = len (md_records self) ∧
      Forall (λ path, 0 < len path <= ck_max_path_bytes config) paths ∧
      ∀ i record, md_records self !! i = Some record →
        is_Some (md_mode_dictionary self !! N.to_nat (mr_mode_index record)) ∧
        (∃ delta, md_modified_ns_deltas self !! i = Some delta ∧
          i64_MIN <= md_base_modified_ns self + Z.of_N delta <= i64_MAX)%Z ∧
        mr_content_offset record = content_before self i).
Proof.
  eexists. split; [apply expanded_paths_follows|]. split; [intros; apply expanded_paths_run|].
  intros paths (_ & Hok & ->)%expanded_paths_run. split; [apply Hok|].
  destruct (zip_rows self (mo_paths _ _ Hok) (mo_deltas _ _ Hok)) as [Z1 _].
  pose proof (mo_rows _ _ Hok) as Hrows. split; [|split].
  - rewrite <-(mo_paths _ _ Hok). unfold len. by rewrite length_front_decode.
  - rewrite <-Z1. by eapply rows_ok_paths.
  - intros i record Hi. destruct (rows_lookup self config i record Hok Hi) as (p & delta & Hd & Hr).
    destruct (rows_ok_lookup _ _ _ _ _ _ _ _ _ Hrows Hr) as (? & ? & ->). split.
    { apply lookup_lt_is_Some. unfold len in *. lia. }
    split; [by exists delta|]. unfold content_before, rows. rewrite N.add_0_l.
    change (map snd ?l) with (l.*2). rewrite snd_zip; [done|].
    pose proof (mo_paths _ _ Hok). pose proof (mo_deltas _ _ Hok). unfold len in *. rewrite length_zip. lia.
Qed.

Lemma drafts_keys object_id members :
  NoDup (map mm_entry_id members) → NoDup (map draft_key (map (member_draft object_id) members)).
Proof.
  induction members as [|m members IH]; cbn [map]; [constructor|].
  intros [Hn Hnd]%NoDup_cons. apply NoDup_cons. split; [|by apply IH].
  intros Hin. apply Hn. rewrite map_map in Hin. apply list_elem_of_fmap in Hin as (m' & Hk & Hin).
  injection Hk as Hk. rewrite Hk. by apply list_elem_of_fmap_2.
Qed.

Lemma plan_members_ids plan :
  concat (map (map mm_entry_id ∘ mp_members) (packs plan)) = map mm_entry_id (plan_members plan).
Proof. unfold plan_members. rewrite concat_map, map_map. done. Qed.

Lemma len_plan_members plan : len (plan_members plan) = total_members (packs plan).
Proof.
  unfold plan_members, total_members. induction (packs plan) as [|p l IH]; [done|].
  cbn [map concat]. change (sum (?x :: ?y)) with (x + sum y). unfold compose in *. by rewrite len_app, IH.
Qed.

Lemma members_bounded config offset items :
  members_ok config offset items → Forall (λ m, mm_length m <= u64_MAX) (map fst items).
Proof.
  revert offset; induction items as [|[m r] items IH]; intros offset; cbn [members_ok map fst]; [constructor|].
  intros (_ & _ & _ & _ & _ & ? & ?). constructor; [lia|]. by eapply IH.
Qed.

Lemma plan_members_bounded plan config :
  plan_ok plan config → Forall (λ m, mm_length m <= u64_MAX) (plan_members plan).
Proof.
  intros Hok. unfold plan_members. apply Forall_concat, Forall_map.
  eapply Forall_impl; [apply (pl_each _ _ Hok)|]. intros pack Hp. cbn.
  pose proof (members_bounded _ _ _ (po_members _ _ Hp)) as Hm. pose proof (po_columns _ _ Hp) as Hl.
  change (map fst ?l) with (l.*1) in Hm. rewrite fst_zip in Hm; [done|]. unfold len in Hl. lia.
Qed.

(** The logical chunks of a plan: they are computed exactly for the
    well-formed plans, one chunk per packed file, in the plan's order, at
    offset 0 of its entry and as long as the file, with no chunk for an
    excluded file; and their numbering never fails. *)
Theorem micro_file_logical_chunks_correct {S : Type} `{Env S} `{FastCdc} (plan : MicroFilePackPlan)
    (object_id : N) (config : ChunkingConfig) :
  ∃ r, follows (micro_file_logical_chunks_with_checkpoint plan object_id config) r ∧
    (∀ drafts, r = Ok drafts ↔ ChunkingConfig_validate config = Ok tt ∧ plan_ok plan config ∧
      drafts = map (member_draft object_id) (plan_members plan)) ∧
    (∀ drafts, r = Ok drafts → ∃ chunks,
      assign_result drafts (ck_max_chunks config) = Ok chunks ∧ map draft_of chunks ≡ₚ drafts).
Proof.
  eexists. split; [apply drafts_follows|]. split; [intros; apply drafts_run|].
  intros drafts (Hv & Hok & ->)%drafts_run. set (drafts := map _ _).
  destruct (pl_count _ _ Hok) as [Hc Hu]. pose proof (pl_unique _ _ Hok) as Hnd.
  apply NoDup_app in Hnd as [Hnd _]. rewrite plan_members_ids in Hnd.
  assert (len drafts = total_members (packs plan)) as Hlen.
  { unfold drafts. by rewrite len_map, len_plan_members. }
  assert (Forall (λ d, check_draft d = Ok tt) drafts) as Hcheck.
  { unfold drafts. apply Forall_map. eapply Forall_impl; [by apply (plan_members_bounded plan config)|].
    intros m Hm. cbn in Hm |- *. unfold check_draft. cbn [dr_length dr_method dr_logical_offset member_draft].
    rewrite bool_decide_true by done. rewrite andb_false_r, checked_add_ok by lia. done. }
  destruct (insertion_sort_stable compare_draft drafts) as (_ & Hp & _).
  assert (0 < ck_max_chunks config) as Hpos.
  { apply validate_Ok in Hv. lia. }
  exists (map numbered (enumerate (insertion_sort compare_draft drafts))). split.
  - unfold assign_result, ensure_chunk_count.
    rewrite (proj2 (N.eqb_neq _ _)) by lia. rewrite u64_try_from_ok by lia. cbn [ok_or mbind result_bind].
    rewrite (proj2 (N.ltb_ge _ _)) by lia. cbn [mbind result_bind].
    rewrite decide_True by (by apply drafts_keys). cbn zeta.
    assert (try_map check_draft (insertion_sort compare_draft drafts) =
      Ok (map (λ _, tt) (insertion_sort compare_draft drafts))) as ->; [|done].
    apply try_map_Ok. rewrite <-Hp in Hcheck. clear -Hcheck.
    induction Hcheck; cbn; constructor; done.
  - unfold enumerate. by rewrite drafts_of_numbered, Hp.
Qed.

(** ** Witnesses *)

Module MicroSample.
(** Two files, [/a] and [/ab], the second one empty. *)
Definition path_a : list byte := [byte_of 47; byte_of 97].
Definition path_ab : list byte := [byte_of 47; byte_of 97; byte_of 98].
Definition metadata : MicroFilePackMetadata := {|
  md_paths := [{| shared_prefix_len := 0; suffix := path_a |};
               {| shared_prefix_len := 2; suffix := [byte_of 98] |}];
  md_base_modified_ns := (-5)%Z;
  md_modified_ns_deltas := [12; 0];
  md_mode_dictionary := [420];
  md_records := [
    {| mr_entry_id := 9; mr_mode_index := 0; mr_content_offset := 0; mr_length := 3; mr_file_hash := zeros 32 |};
    {| mr_entry_id := 4; mr_mode_index := 0; mr_content_offset := 3; mr_length := 0; mr_file_hash := zeros 32 |}];
|}.
Definition plan : MicroFilePackPlan := {|
  packs := [{|
    mp_pack_id := 0;
    mp_members := [{| mm_entry_id := 9; mm_content_offset := 0; mm_length := 3 |};
                   {| mm_entry_id := 4; mm_content_offset := 3; mm_length := 0 |}];
    mp_uncompressed_len := 3;
    mp_metadata := metadata |}];
  excluded := [{| ex_entry_id := 1; ex_reason := TooLarge |}];
|}.
End MicroSample.

Lemma expanded_paths_correct_witness :
  follows (H := calm) (expanded_paths_with_checkpoint (H0 := max_cutter) MicroSample.metadata example_config)
    (Ok [MicroSample.path_a; MicroSample.path_ab]) ∧
  metadata_ok MicroSample.metadata example_config.
Proof.
  destruct (expanded_paths_correct (H := calm) (H0 := max_cutter) MicroSample.metadata example_config)
    as (r & Hf & Hiff & _).
  assert (r = Ok [MicroSample.path_a; MicroSample.path_ab]) as Hr.
  { rewrite <-(follows_calm _ _ Hf). vm_compute. reflexivity. }
  split; [by rewrite <-Hr|]. by apply Hiff in Hr as (_ & ? & _).
Defined.

Lemma micro_file_logical_chunks_correct_witness :
  ∃ drafts chunks,
    follows (H := calm) (micro_file_logical_chunks_with_checkpoint (H0 := max_cutter) MicroSample.plan 7
      example_config) (Ok drafts) ∧
    map dr_entry_id drafts = [9; 4] ∧
    assign_result drafts (ck_max_chunks example_config) = Ok chunks ∧ map lc_entry_id chunks = [4; 9].
Proof.
  destruct (micro_file_logical_chunks_correct (H := calm) (H0 := max_cutter) MicroSample.plan 7 example_config)
    as (r & Hf & _ & Hn).
  assert (r = Ok (map (member_draft 7) (plan_members MicroSample.plan))) as Hr.
  { rewrite <-(follows_calm _ _ Hf). vm_compute. reflexivity. }
  destruct (Hn _ Hr) as (chunks & Hc & _). exists (map (member_draft 7) (plan_members MicroSample.plan)), chunks.
  split; [by rewrite <-Hr|]. split; [done|]. split; [done|].
  vm_compute in Hc. by injection Hc as <-.
Defined.
