(* ===== verification/MicroPlan.v ===== *)
(** * The micro-file planner ([crates/pithos-analysis/src/micro_file.rs])

    The canonical order of the candidates, their eligibility, the greedy
    packing up to the target size and the construction of a pack's compact
    metadata. *)

From S2P Require Import Prelude Core Effects Runs Bytes Sorting Orders Chunking MicroFile.

(** [u64::try_from] on an [i128]. *)
Definition u64_of_i128 (n : Z) : option N :=
  if ((0 <=? n) && (n <=? Z.of_N u64_MAX))%Z then Some (Z.to_N n) else None.

(** [<[u32]>::binary_search] on a strictly ascending slice: the position of
    the element. *)
Fixpoint binary_search_from (i x : N) (l : list N) : option N :=
  match l with
  | [] => None
  | y :: l => if x =? y then Some i else binary_search_from (i + 1) x l
  end.
Definition binary_search (x : N) (l : list N) : option N := binary_search_from 0 x l.

Section planner.
Context {S : Type} `{Env S} `{FastCdc}.

(** ** [plan_micro_file_packs_with_checkpoint] *)

(** The first loop of [validate_unique_inputs]. *)
Definition input_step (config : ChunkingConfig) (base_metadata_bytes input_metadata_bytes : N)
    (input : MicroFileInput) : M S N :=
  checkpoint;;
  if bool_decide (mi_path input = []) then fail (InvalidMetadata "empty microfile path") else
  path_len ← lift (u64_len (mi_path input));
  prefix_len ← lift (u64_len (mi_path_prefix_key input));
  extension_len ← lift (u64_len (mi_extension_key input));
  if (ck_max_path_bytes config <? path_len) || (ck_max_path_bytes config <? prefix_len) ||
     (ck_max_path_bytes config <? extension_len)
  then fail (ResourceLimit "path bytes") else
  input_metadata_bytes ← lift (ok_or IntegerOverflow
    (value ← checked_add input_metadata_bytes path_len;
     value ← checked_add value prefix_len;
     checked_add value extension_len));
  size ← lift (ok_or IntegerOverflow (checked_add base_metadata_bytes input_metadata_bytes));
  lift (ensure_metadata_size size config);;
  mret input_metadata_bytes.

Definition validate_unique_inputs (inputs : list MicroFileInput) (config : ChunkingConfig) :
    M S unit :=
  input_count ← lift (u64_len inputs);
  base_metadata_bytes ← lift (ok_or IntegerOverflow (checked_mul input_count 76));
  lift (ensure_metadata_size base_metadata_bytes config);;
  _ ← fold_m (input_step config base_metadata_bytes) 0 inputs;
  try_reserve (len inputs);;
  entry_ids ← push_each mi_entry_id [] inputs;
  entry_ids ← try_sort_by_checkpoint N.compare entry_ids;
  distinct_neighbours (InvalidMetadata "duplicate microfile entry id") entry_ids;;
  try_reserve (len inputs);;
  paths ← push_each mi_path [] inputs;
  paths ← try_sort_by_checkpoint compare_bytes paths;
  distinct_neighbours (InvalidMetadata "duplicate microfile path") paths.

(** The tuple, nested to the left. *)
Definition canonical_key (input : MicroFileInput) :=
  (mi_family_key input, mi_path_prefix_key input, mi_extension_key input, mi_mode input,
   mi_similarity_key input, mi_path input, mi_entry_id input).

(** [Ord::cmp] on [CanonicalKey]. *)
Definition compare_keys :=
  compare_pair (compare_pair (compare_pair (compare_pair (compare_pair (compare_pair
    N.compare compare_bytes) compare_bytes) N.compare) N.compare) compare_bytes) N.compare.

Definition compare_inputs : MicroFileInput → MicroFileInput → comparison :=
  compare_on canonical_key compare_keys.

Definition exclusion_reason (config : ChunkingConfig) (candidate : MicroFileInput) :
    option MicroFileExclusionReason :=
  if mi_requires_isolated_access candidate then Some RequiresIsolatedAccess
  else if micro_file_max config <? mi_size candidate then Some TooLarge
  else None.

(** The loop that separates eligible candidates from excluded ones. *)
Definition eligibility_step (config : ChunkingConfig)
    (st : list MicroFileInput * list MicroFileExclusion * N) (candidate : MicroFileInput) :
    M S (list MicroFileInput * list MicroFileExclusion * N) :=
  let '(eligible, excluded, eligible_bytes) := st in
  checkpoint;;
  match exclusion_reason config candidate with
  | Some reason =>
      mret (eligible,
            excluded ++ [{| ex_entry_id := mi_entry_id candidate; ex_reason := reason |}],
            eligible_bytes)
  | None =>
      eligible_bytes ← lift (ok_or IntegerOverflow (checked_add eligible_bytes (mi_size candidate)));
      if max_logical_bytes config <? eligible_bytes then fail (ResourceLimit "logical bytes") else
      mret (eligible ++ [candidate], excluded, eligible_bytes)
  end.

Definition count_step (target : N) (st : N * N * bool) (input : MicroFileInput) : M S (N * N * bool) :=
  let '(count, current_len, has_members) := st in
  checkpoint;;
  next_len ← lift (ok_or IntegerOverflow (checked_add current_len (mi_size input)));
  if has_members && (target <? next_len) then
    count ← lift (ok_or IntegerOverflow (checked_add count 1));
    mret (count, mi_size input, true)
  else mret (count, next_len, true).

Definition required_pack_count (inputs : list MicroFileInput) (target : N) : M S N :=
  '(count, _, has_members) ← fold_m (count_step target) (0, 0, false) inputs;
  if (has_members : bool) then lift (ok_or IntegerOverflow (checked_add count 1)) else mret count.

Fixpoint common_prefix_loop (length : N) (pairs : list (byte * byte)) : M S N :=
  match pairs with
  | [] => mret length
  | (left_byte, right_byte) :: pairs =>
      checkpoint;;
      if negb (bool_decide (left_byte = right_byte)) then mret length else
      length ← lift (ok_or IntegerOverflow (checked_add length 1));
      common_prefix_loop length pairs
  end.

Definition common_prefix_len_with_checkpoint (left right : list byte) : M S N :=
  common_prefix_loop 0 (zip left right).

(** The body of [for read in 1..items.len()]. *)
Definition dedup_step (st : list N * nat) (read : nat) : M S (list N * nat) :=
  let '(items, write) := st in
  checkpoint;;
  item ← index items read;
  last ← index items (write - 1);
  if negb (item =? last) then
    items ← assign items write item;
    mret (items, (write + 1)%nat)
  else mret (items, write).

Definition dedup_sorted_with_checkpoint (items : list N) : M S (list N) :=
  if len items <? 2 then checkpoint;; mret items else
  '(items, write) ← fold_m dedup_step (items, 1%nat) (seq 1 (length items - 1));
  mret (take write items).

(** The variables of [build_pack]'s main loop. *)
Record build_state := {
  bs_members : list MicroFilePackMember;
  bs_paths : list FrontCodedPath;
  bs_deltas : list N;
  bs_records : list MicroFileMetadataRecord;
  bs_content_offset : N;
  bs_previous_path : list byte;
}.

Definition build_step (base_modified_ns : Z) (mode_dictionary : list N) (st : build_state)
    (input : MicroFileInput) : M S build_state :=
  checkpoint;;
  length ← lift (ok_or IntegerOverflow (u32_try_from (mi_size input)));
  shared ← common_prefix_len_with_checkpoint (bs_previous_path st) (mi_path input);
  shared ← lift (ok_or IntegerOverflow (u32_try_from shared));
  suffix_start ← lift (ok_or IntegerOverflow (usize_try_from shared));
  (* [input.path.len() - suffix_start] and [&input.path[suffix_start..]] *)
  if len (mi_path input) <? suffix_start then fail panic else
  try_reserve (len (mi_path input) - suffix_start);;
  let suffix := drop (N.to_nat suffix_start) (mi_path input) in
  let delta := (mi_modified_ns input - base_modified_ns)%Z in
  delta ← lift (ok_or IntegerOverflow (u64_of_i128 delta));
  mode_index ← lift (ok_or (InvalidMetadata "microfile mode dictionary")
    (binary_search (mi_mode input) mode_dictionary));
  mode_index ← lift (ok_or IntegerOverflow (u32_try_from mode_index));
  content_offset ← lift (ok_or IntegerOverflow
    (checked_add (bs_content_offset st) (mi_size input)));
  mret {|
    bs_members := bs_members st ++ [{| mm_entry_id := mi_entry_id input;
      mm_content_offset := bs_content_offset st; mm_length := length |}];
    bs_paths := bs_paths st ++ [{| shared_prefix_len := shared; suffix := suffix |}];
    bs_deltas := bs_deltas st ++ [delta];
    bs_records := bs_records st ++ [{| mr_entry_id := mi_entry_id input;
      mr_mode_index := mode_index; mr_content_offset := bs_content_offset st;
      mr_length := length; mr_file_hash := mi_file_hash input |}];
    bs_content_offset := content_offset;
    bs_previous_path := mi_path input |}.

Definition build_pack (pack_id : N) (inputs : list MicroFileInput) : M S MicroFilePack :=
  checkpoint;;
  match inputs with
  | [] => fail (InvalidMetadata "empty microfile pack")
  | first :: rest =>
      base_modified_ns ← fold_m (λ base input, checkpoint;; mret (Z.min base (mi_modified_ns input)))
        (mi_modified_ns first) rest;
      try_reserve (len inputs);;
      mode_dictionary ← push_each mi_mode [] inputs;
      mode_dictionary ← try_sort_by_checkpoint N.compare mode_dictionary;
      mode_dictionary ← dedup_sorted_with_checkpoint mode_dictionary;
      try_reserve (len inputs);;
      try_reserve (len inputs);;
      try_reserve (len inputs);;
      try_reserve (len inputs);;
      st ← fold_m (build_step base_modified_ns mode_dictionary)
        {| bs_members := []; bs_paths := []; bs_deltas := []; bs_records := [];
           bs_content_offset := 0; bs_previous_path := [] |} inputs;
      mret {| mp_pack_id := pack_id; mp_members := bs_members st;
              mp_uncompressed_len := bs_content_offset st;
              mp_metadata := {| md_paths := bs_paths st; md_base_modified_ns := base_modified_ns;
                md_modified_ns_deltas := bs_deltas st; md_mode_dictionary := mode_dictionary;
                md_records := bs_records st |} |}
  end.

Definition push_pack (packs : list MicroFilePack) (inputs : list MicroFileInput) (expected_len : N)
    (config : ChunkingConfig) : M S (list MicroFilePack) :=
  checkpoint;;
  pack_id ← lift (u64_len packs);
  next_count ← lift (ok_or IntegerOverflow (checked_add pack_id 1));
  if ck_max_chunks config <? next_count then fail (ResourceLimit "chunk count") else
  pack ← build_pack pack_id inputs;
  if negb (mp_uncompressed_len pack =? expected_len)
  then fail (InvalidMetadata "microfile pack length") else mret (packs ++ [pack]).

(** The loop that closes a pack when the next file would exceed the target:
    the packs, [pack_start] and [pack_len]. *)
Definition packing_step (eligible : list MicroFileInput) (config : ChunkingConfig)
    (st : list MicroFilePack * N * N) (item : N * MicroFileInput) :
    M S (list MicroFilePack * N * N) :=
  let '(packs, pack_start, pack_len) := st in
  let '(index, candidate) := item in
  checkpoint;;
  next_len ← lift (ok_or IntegerOverflow (checked_add pack_len (mi_size candidate)));
  if (pack_start <? index) && (micro_pack_target config <? next_len) then
    packs ← push_pack packs (sub (N.to_nat pack_start) (N.to_nat (index - pack_start)) eligible)
      pack_len config;
    mret (packs, index, mi_size candidate)
  else mret (packs, pack_start, next_len).

Definition plan_micro_file_packs_with_checkpoint (inputs : list MicroFileInput)
    (config : ChunkingConfig) : M S MicroFilePackPlan :=
  lift (ChunkingConfig_validate config);;
  checkpoint;;
  input_count ← lift (u64_len inputs);
  if ck_max_chunks config <? input_count then fail (ResourceLimit "chunk count") else
  minimum_metadata_bytes ← lift (ok_or IntegerOverflow (checked_mul input_count 76));
  lift (ensure_metadata_size minimum_metadata_bytes config);;
  validate_unique_inputs inputs config;;
  try_reserve (len inputs);;
  ordered ← push_each id [] inputs;
  ordered ← try_sort_by_checkpoint compare_inputs ordered;
  try_reserve (len inputs);;
  try_reserve (len inputs);;
  '(eligible, excluded, _) ← fold_m (eligibility_step config) ([], [], 0) ordered;
  let target := micro_pack_target config in
  required_packs ← required_pack_count eligible target;
  required_packs_u64 ← lift (ok_or IntegerOverflow (u64_try_from required_packs));
  if ck_max_chunks config <? required_packs_u64 then fail (ResourceLimit "chunk count") else
  try_reserve required_packs;;
  '(packs, pack_start, pack_len) ← fold_m (packing_step eligible config) ([], 0, 0)
    (enumerate eligible);
  packs ← (if pack_start <? len eligible
    then push_pack packs (drop (N.to_nat pack_start) eligible) pack_len config
    else mret packs);
  let plan := {| packs := packs; excluded := excluded |} in
  checkpoint;;
  MicroFilePackPlan_validate_with_checkpoint plan config;;
  mret plan.
End planner.

(** ** Specification *)

(** The size of the planner's input: the fixed columns and the three byte
    strings of each candidate. *)
Definition input_bytes (input : MicroFileInput) : N :=
  len (mi_path input) + len (mi_path_prefix_key input) + len (mi_extension_key input).

Record inputs_ok (inputs : list MicroFileInput) (config : ChunkingConfig) : Prop := {
  io_count : len inputs <= ck_max_chunks config ∧ len inputs <= u64_MAX;
  io_budget : budget config (len inputs * 76 + sum (map input_bytes inputs));
  io_each : Forall (λ i, mi_path i ≠ [] ∧ len (mi_path i) <= ck_max_path_bytes config ∧
    len (mi_path_prefix_key i) <= ck_max_path_bytes config ∧
    len (mi_extension_key i) <= ck_max_path_bytes config) inputs;
  io_ids : NoDup (map mi_entry_id inputs);
  io_paths : NoDup (map mi_path inputs);
}.

Definition group_size (group : list MicroFileInput) : N := sum (map mi_size group).

(** The candidates in canonical order, and the eligible ones. *)
Definition ordered_inputs (inputs : list MicroFileInput) : list MicroFileInput :=
  insertion_sort compare_inputs inputs.
Definition eligible_inputs (config : ChunkingConfig) (inputs : list MicroFileInput) :=
  filter (λ i, exclusion_reason config i = None) (ordered_inputs inputs).
Definition exclusions (config : ChunkingConfig) (inputs : list MicroFileInput) : list MicroFileExclusion :=
  omap (λ i, reason ← exclusion_reason config i;
    Some {| ex_entry_id := mi_entry_id i; ex_reason := reason |}) (ordered_inputs inputs).

(** The greedy grouping: [group] is the group being filled. *)
Fixpoint pack_groups (target : N) (group : list MicroFileInput) (l : list MicroFileInput) :
    list (list MicroFileInput) :=
  match l with
  | [] => match group with [] => [] | _ => [group] end
  | i :: l =>
      match group with
      | [] => pack_groups target [i] l
      | _ =>
          if target <? group_size group + mi_size i then group :: pack_groups target [i] l
          else pack_groups target (group ++ [i]) l
      end
  end.

(** ** The groups *)

Lemma group_size_app g g' : group_size (g ++ g') = group_size g + group_size g'.
Proof. unfold group_size. by rewrite map_app, sum_app. Qed.

Lemma group_size_one i : group_size [i] = mi_size i.
Proof. unfold group_size. cbn. lia. Qed.

Lemma pack_groups_concat target group l : concat (pack_groups target group l) = group ++ l.
Proof.
  revert group; induction l as [|i l IH]; intros group; cbn [pack_groups].
  { destruct group; cbn; by rewrite ?app_nil_r. }
  destruct group as [|j group]; [apply IH|]. destruct (_ <? _); cbn [concat]; rewrite IH; [done|].
  by rewrite <-app_assoc.
Qed.

Lemma pack_groups_fit target group l :
  group_size group <= target → Forall (λ i, mi_size i <= target) l →
  Forall (λ g, g ≠ [] ∧ group_size g <= target) (pack_groups target group l).
Proof.
  revert group; induction l as [|i l IH]; intros group Hg; cbn [pack_groups].
  { intros _. destruct group; repeat constructor; done. }
  intros [Hi Hl]%Forall_cons. destruct group as [|j group]; [apply IH; rewrite ?group_size_one; done|].
  destruct (N.ltb_spec target (group_size (j :: group) + mi_size i)).
  - constructor; [done|]. apply IH; rewrite ?group_size_one; done.
  - apply IH; [|done]. rewrite group_size_app, group_size_one. done.
Qed.

(** The next group's first file does not fit into the group. *)
Fixpoint greedy (target : N) (groups : list (list MicroFileInput)) : Prop :=
  match groups with
  | g :: (g' :: _) as rest =>
      (∃ i, head g' = Some i ∧ target < group_size g + mi_size i) ∧ greedy target rest
  | _ => True
  end.

Lemma pack_groups_head target group l i :
  head group = Some i → ∃ g gs, pack_groups target group l = g :: gs ∧ head g = Some i.
Proof.
  revert group; induction l as [|j l IH]; intros group Hh; cbn [pack_groups].
  { destruct group; [done|]. eauto. }
  destruct group as [|k group]; [done|]. destruct (_ <? _); [by eexists _, _|]. by apply IH.
Qed.

Lemma pack_groups_greedy target group l : greedy target (pack_groups target group l).
Proof.
  revert group; induction l as [|i l IH]; intros group; cbn [pack_groups]; [by destruct group|].
  destruct group as [|j group]; [apply IH|].
  destruct (N.ltb_spec target (group_size (j :: group) + mi_size i)) as [Hlt|]; [|apply IH].
  specialize (IH [i]). destruct (pack_groups_head target [i] l i eq_refl) as (g & gs & Hg & Hh).
  rewrite Hg in *. split; [by exists i|done].
Qed.

Lemma length_pack_groups target group l :
  (length (pack_groups target group l) <= length group + length l)%nat.
Proof.
  revert group; induction l as [|i l IH]; intros group; cbn [pack_groups].
  { destruct group; cbn; lia. }
  destruct group as [|j group]; [specialize (IH [i]); cbn in *; lia|]. destruct (_ <? _).
  - specialize (IH [i]). cbn in *. lia.
  - specialize (IH ((j :: group) ++ [i])). rewrite length_app in IH. cbn in *. lia.
Qed.

(** ** Checks of the inputs *)

#[local] Ltac run_hook ::= rewrite run_budget_Ok.

Lemma input_bytes_Some total a b c x :
  (value ← checked_add total a; value ← checked_add value b; checked_add value c) = Some x ↔
  x = total + (a + b + c) ∧ total + (a + b + c) <= u64_MAX.
Proof.
  split.
  - destruct (checked_add total a) as [n1|] eqn:H1; [|done]. cbn [mbind option_bind].
    destruct (checked_add n1 b) as [n2|] eqn:H2; [|done]. cbn [mbind option_bind]. intros H3. arith_inv. lia.
  - intros [-> ?]. rewrite checked_add_ok by lia. cbn [mbind option_bind]. rewrite checked_add_ok by lia.
    cbn [mbind option_bind]. rewrite checked_add_ok by lia. f_equal. lia.
Qed.

Lemma inputs_loop_run config base total l v :
  budget config (base + total) →
  run_calm (fold_m (input_step config base) total l) = Ok v ↔
  Forall (λ i, mi_path i ≠ [] ∧ len (mi_path i) <= ck_max_path_bytes config ∧
    len (mi_path_prefix_key i) <= ck_max_path_bytes config ∧
    len (mi_extension_key i) <= ck_max_path_bytes config) l ∧
  v = total + sum (map input_bytes l) ∧ budget config (base + v).
Proof.
  revert total; induction l as [|i l IH]; intros total Hb; cbn [fold_m map].
  { rewrite run_ret_Ok. change (sum []) with 0. rewrite N.add_0_r. naive_solver. }
  change (sum (?x :: ?y)) with (x + sum y). rewrite run_bind_Ok, Forall_cons. unfold budget in *. split.
  - intros (n & Hn & Hr). revert Hn. unfold input_step. run_iff.
    rewrite (run_opt_Ok _ _ _ _ _ _ (input_bytes_Some _ _ _ _)). run_iff.
    rewrite !orb_false_iff, !N.ltb_ge, bool_decide_eq_false. fold (input_bytes i).
    intros (? & _ & _ & _ & ? & ? & ? & ? & ->). apply IH in Hr as (? & -> & ?); [|lia].
    split; [naive_solver|]. split; [|done]. lia.
  - intros [[(H1 & H2 & H3 & H4) Hl] [-> Hv]]. assert (input_bytes i <= u64_MAX) as Hi by lia.
    unfold input_bytes in Hi. exists (total + input_bytes i). split; [|apply IH; [lia|]; rewrite <-N.add_assoc; done].
    unfold input_step. run_iff. rewrite (run_opt_Ok _ _ _ _ _ _ (input_bytes_Some _ _ _ _)). run_iff.
    rewrite !orb_false_iff, !N.ltb_ge, bool_decide_eq_false. fold (input_bytes i). naive_solver lia.
Qed.

Lemma validate_unique_run inputs config :
  len inputs <= ck_max_chunks config →
  run_calm (validate_unique_inputs inputs config) = Ok tt ↔ inputs_ok inputs config.
Proof.
  intros Hc. unfold validate_unique_inputs. run_iff. rewrite run_bind_Ok. split.
  - intros (Hu & Hb1 & Hb2 & v & Hv & Hr).
    apply inputs_loop_run in Hv as (He & -> & Hb); [|unfold budget; lia].
    revert Hr. run_iff. rewrite run_calm_bind, push_each_run. cbn [mbind result_bind app].
    rewrite (sorted_distinct_run N.compare). run_iff. rewrite run_calm_bind, push_each_run.
    cbn [mbind result_bind app]. rewrite run_calm_bind, (sort_run compare_bytes). cbn [mbind result_bind].
    rewrite (distinct_sorted compare_bytes). intros [Hi Hp]. done.
  - intros [[_ Hu] Hb He Hi Hp]. unfold budget in Hb. split; [done|]. split; [lia|]. split; [lia|].
    eexists. split; [apply inputs_loop_run; [unfold budget; lia|]; split; [done|]; split; [done|unfold budget; lia]|].
    run_iff. rewrite run_calm_bind, push_each_run. cbn [mbind result_bind app].
    rewrite (sorted_distinct_run N.compare). run_iff. split; [done|]. rewrite run_calm_bind, push_each_run.
    cbn [mbind result_bind app]. rewrite run_calm_bind, (sort_run compare_bytes). cbn [mbind result_bind].
    by apply (distinct_sorted compare_bytes).
Qed.

#[export] Instance compare_keys_order : TotalOrder compare_keys.
Proof. unfold compare_keys. apply _. Qed.
#[export] Instance compare_inputs_preorder : TotalPreorder compare_inputs.
Proof. unfold compare_inputs. apply _. Qed.

(** Candidates with different identifiers are told apart, so that their
    canonical order does not depend on the order given. *)
Lemma ordered_permutation inputs inputs' :
  NoDup (map mi_entry_id inputs) → inputs ≡ₚ inputs' → ordered_inputs inputs = ordered_inputs inputs'.
Proof.
  intros Hnd Hp. unfold ordered_inputs. apply insertion_sort_perm; [apply _| |done].
  intros x y Hx Hy Hxy. unfold compare_inputs, compare_on in Hxy. apply (compare_Eq compare_keys) in Hxy.
  injection Hxy as _ _ _ _ _ _ Hid.
  apply list_elem_of_lookup in Hx as [i Hi], Hy as [j Hj].
  assert (i = j) as ->; [|congruence]. apply (NoDup_lookup (map mi_entry_id inputs) i j (mi_entry_id x)); [done|..];
    rewrite list_lookup_fmap; [by rewrite Hi|by rewrite Hj, Hid].
Qed.

Lemma ordered_perm inputs : ordered_inputs inputs ≡ₚ inputs.
Proof. apply insertion_sort_stable. apply _. Qed.

(** ** Eligibility and the number of packs *)

Lemma eligibility_run config eligible excluded bytes l v :
  bytes <= max_logical_bytes config → bytes <= u64_MAX →
  let kept := filter (λ i, exclusion_reason config i = None) l in
  run_calm (fold_m (eligibility_step config) (eligible, excluded, bytes) l) = Ok v ↔
  bytes + group_size kept <= max_logical_bytes config ∧ bytes + group_size kept <= u64_MAX ∧
  v = (eligible ++ kept,
       excluded ++ omap (λ i, reason ← exclusion_reason config i;
         Some {| ex_entry_id := mi_entry_id i; ex_reason := reason |}) l,
       bytes + group_size kept).
Proof.
  cbn zeta. revert eligible excluded bytes; induction l as [|i l IH]; intros eligible excluded bytes Hb Hb';
    cbn [fold_m].
  { rewrite run_ret_Ok. cbn. rewrite !app_nil_r, N.add_0_r. naive_solver. }
  rewrite run_bind_Ok. unfold eligibility_step at 1. rewrite filter_cons. cbn [omap list_omap].
  destruct (exclusion_reason config i) as [reason|] eqn:Hr; cbn [mbind option_bind].
  - setoid_rewrite run_checkpoint_Ok. rewrite decide_False by done. split.
    + intros (v' & [= <-] & Hv). apply IH in Hv as (? & ? & ->); [|done..]. by rewrite <-app_assoc.
    + intros (? & ? & ->). eexists. split; [reflexivity|]. apply IH; [done..|]. by rewrite <-app_assoc.
  - rewrite decide_True by done. unfold group_size in *. cbn [map]. change (sum (?x :: ?y)) with (x + sum y). split.
    + intros (v' & Hs & Hv). revert Hs. run_iff. rewrite N.ltb_ge. intros (? & ? & ->).
      apply IH in Hv as (? & ? & ->); [|lia..]. rewrite <-app_assoc, <-!N.add_assoc in *.
      split; [lia|]. split; [lia|]. done.
    + intros (? & ? & ->). exists (eligible ++ [i], excluded, bytes + mi_size i). split.
      { run_iff. rewrite N.ltb_ge. repeat split; lia. }
      apply IH; [lia..|]. rewrite <-app_assoc, <-!N.add_assoc. done.
Qed.

Lemma count_step_run target count bytes has i :
  bytes + mi_size i <= u64_MAX → count + 1 <= u64_MAX →
  run_calm (count_step target (count, bytes, has) i) =
  Ok (if has && (target <? bytes + mi_size i) then (count + 1, mi_size i, true)
      else (count, bytes + mi_size i, true)).
Proof. intros. unfold count_step. calm_run. by destruct (has && _). Qed.

(** The number the counting loop ends with. *)
Definition finish_count (st : N * N * bool) : M unit N :=
  let '(count, _, has_members) := st in
  if (has_members : bool) then lift (ok_or IntegerOverflow (checked_add count 1)) else mret count.

Lemma pack_count_run target count group l :
  group ≠ [] → group_size group + group_size l <= u64_MAX → count + len l + 1 <= u64_MAX →
  run_calm (fold_m (count_step target) (count, group_size group, true) l ≫= finish_count) =
  Ok (count + len (pack_groups target group l)).
Proof.
  revert count group; induction l as [|i l IH]; intros count group Hg Hs Hc; cbn [fold_m pack_groups].
  { destruct group as [|j group]; [done|]. rewrite len_nil in Hc. unfold finish_count. by calm_run. }
  rewrite len_cons in Hc. assert (group_size (i :: l) = mi_size i + group_size l) as Hsz by done. rewrite Hsz in Hs.
  destruct group as [|j group]; [done|]. rewrite !run_calm_bind, count_step_run by lia.
  cbn [mbind result_bind andb]. rewrite <-run_calm_bind.
  destruct (target <? group_size (j :: group) + mi_size i).
  - rewrite <-(group_size_one i), IH; [|done|rewrite group_size_one; lia|lia].
    rewrite len_cons. f_equal. lia.
  - rewrite <-(group_size_one i), <-group_size_app. rewrite IH; [done|by destruct group| |lia].
    rewrite group_size_app, group_size_one. lia.
Qed.

Lemma required_pack_count_run target l :
  group_size l <= u64_MAX → len l <= u64_MAX →
  run_calm (required_pack_count l target) = Ok (len (pack_groups target [] l)).
Proof.
  intros Hs Hl. change (required_pack_count l target) with (fold_m (count_step target) (0, 0, false) l ≫= finish_count).
  destruct l as [|i l]; [done|]. cbn [fold_m pack_groups].
  assert (group_size (i :: l) = mi_size i + group_size l) as Hsz by done. rewrite Hsz in Hs. rewrite len_cons in Hl.
  rewrite !run_calm_bind, count_step_run by lia. cbn [mbind result_bind andb]. rewrite <-run_calm_bind, N.add_0_l.
  rewrite <-(group_size_one i). rewrite pack_count_run; [done|done|rewrite group_size_one; lia|lia].
Qed.

(** ** The mode dictionary *)

(** Adjacent duplicates removed; [last] is the last element kept. *)
Fixpoint dedup_from (last : N) (l : list N) : list N :=
  match l with
  | [] => [last]
  | x :: l => if x =? last then dedup_from last l else last :: dedup_from x l
  end.
Definition dedup (l : list N) : list N := match l with [] => [] | x :: l => dedup_from x l end.

Lemma dedup_loop kept last junk l :
  run_calm ('(items, write) ← fold_m dedup_step (kept ++ last :: junk ++ l, S (length kept))
      (seq (S (length kept + length junk)) (length l));
    mret (take write items)) = Ok (kept ++ dedup_from last l).
Proof.
  revert kept last junk; induction l as [|x l IH]; intros kept last junk; cbn [length seq fold_m dedup_from].
  { rewrite run_calm_bind, run_calm_ret. cbn [mbind result_bind]. rewrite run_calm_ret. f_equal.
    rewrite app_nil_r, (cons_middle last kept junk), app_assoc, take_app_length'; [done|].
    rewrite length_app. cbn. lia. }
  rewrite !run_calm_bind. set (items := kept ++ last :: junk ++ x :: l).
  assert (items = (kept ++ last :: junk) ++ x :: l) as Hitems by (unfold items; by rewrite <-app_assoc).
  assert (items !! S (length kept + length junk) = Some x) as Hx.
  { rewrite Hitems. apply list_lookup_middle. rewrite length_app. cbn. lia. }
  assert (items !! (S (length kept) - 1)%nat = Some last) as Hlast.
  { apply list_lookup_middle. lia. }
  assert (run_calm (dedup_step (items, S (length kept)) (S (length kept + length junk))) =
    Ok (if x =? last then (items, S (length kept))
        else (<[S (length kept) := x]> items, S (S (length kept))))) as ->.
  { unfold dedup_step, index. rewrite Hx, Hlast. calm_run.
    destruct (x =? last); cbn [negb]; calm_run; [done|].
    unfold assign. rewrite (proj2 (Nat.ltb_lt _ _)) by (unfold items; rewrite !length_app; cbn; rewrite length_app; cbn; lia).
    calm_run. by rewrite Nat.add_1_r. }
  cbn [mbind result_bind].
  destruct (x =? last) eqn:Hxl.
  - specialize (IH kept last (junk ++ [x])). rewrite length_app, <-app_assoc in IH. cbn [length app] in IH.
    rewrite run_calm_bind in IH. rewrite <-IH. unfold items.
    by replace (S (S (length kept + length junk))) with (S (length kept + (length junk + 1))) by lia.
  - assert (∃ junk', <[S (length kept) := x]> items = (kept ++ [last]) ++ x :: junk' ++ l ∧
      length junk' = length junk) as (junk' & Hj & Hlen).
    { unfold items. rewrite insert_app_r_alt by lia. replace (S (length kept) - length kept)%nat with 1%nat by lia.
      destruct junk as [|j junk].
      - exists []. split; [by rewrite <-app_assoc|done].
      - exists (junk ++ [x]). split; [cbn; by rewrite <-!app_assoc|]. rewrite length_app. cbn. lia. }
    specialize (IH (kept ++ [last]) x junk'). rewrite run_calm_bind, <-Hj in IH. rewrite length_app, Hlen in IH.
    cbn [length] in IH. rewrite Nat.add_1_r in IH. cbn [plus] in IH. rewrite <-app_assoc in IH. exact IH.
Qed.

Lemma dedup_run l : run_calm (dedup_sorted_with_checkpoint l) = Ok (dedup l).
Proof.
  unfold dedup_sorted_with_checkpoint. destruct l as [|x [|y l]]; [done|done|].
  rewrite run_calm_if, (proj2 (N.ltb_ge _ _)) by (rewrite !len_cons; lia).
  replace (length (x :: y :: l) - 1)%nat with (length (y :: l)) by (cbn; lia).
  apply (dedup_loop [] x [] (y :: l)).
Qed.

Lemma dedup_elem x l : x ∈ dedup l ↔ x ∈ l.
Proof.
  destruct l as [|y l]; [done|]. cbn [dedup]. revert y; induction l as [|z l IH]; intros y; cbn [dedup_from]; [done|].
  destruct (N.eqb_spec z y) as [->|]; rewrite ?elem_of_cons, IH, ?elem_of_cons; tauto.
Qed.

Lemma dedup_sorted l : StronglySorted (not_greater N.compare) l → StronglySorted N.lt (dedup l).
Proof.
  destruct l as [|y l]; [constructor|]. cbn [dedup]. revert y; induction l as [|z l IH]; intros y; cbn [dedup_from].
  { repeat constructor. }
  intros [Hs Hy]%StronglySorted_inv. destruct (N.eqb_spec z y) as [->|]; [by apply IH|].
  constructor; [by apply IH|]. apply Forall_forall. intros w Hw.
  change (dedup_from z l) with (dedup (z :: l)) in Hw. apply (dedup_elem w (z :: l)) in Hw.
  apply Forall_cons in Hy as [Hyz _]. apply StronglySorted_inv in Hs as [_ Hz].
  change (y <= z) in Hyz. apply elem_of_cons in Hw as [->|Hw]; [lia|].
  rewrite Forall_forall in Hz. specialize (Hz w Hw). change (z <= w) in Hz. lia.
Qed.

Lemma len_dedup l : len (dedup l) <= len l.
Proof.
  destruct l as [|y l]; [done|]. cbn [dedup]. revert y; induction l as [|z l IH]; intros y; cbn [dedup_from]; [done|].
  specialize (IH z) as H1. specialize (IH y) as H2. destruct (z =? y); rewrite !len_cons in *; lia.
Qed.

(** A strictly ascending list has no element below its position. *)
Lemma ascending_position l i x : StronglySorted N.lt l → l !! i = Some x → N.of_nat i <= x.
Proof.
  intros Hs. revert i x. assert (∀ b, Forall (N.le b) l → ∀ i x, l !! i = Some x → b + N.of_nat i <= x) as H.
  { induction Hs as [|a l Hs IH Ha]; intros b Hb i x; [done|]. apply Forall_cons in Hb as [Hab Hb].
    destruct i as [|i]; [intros [= <-]; lia|]. cbn. intros Hi.
    assert (Forall (N.le (b + 1)) l) as Hb1 by (eapply Forall_impl; [exact Ha|]; cbn; lia).
    specialize (IH _ Hb1 _ _ Hi). lia. }
  intros i x Hi. assert (Forall (N.le 0) l) as H0 by (apply Forall_forall; intros y _; lia).
  specialize (H 0 H0 i x Hi). lia.
Qed.

Lemma binary_search_Some x l : x ∈ l → ∃ i, binary_search x l = Some i ∧ l !! N.to_nat i = Some x.
Proof.
  intros Hx. unfold binary_search.
  assert (∀ k, ∃ i, binary_search_from k x l = Some (k + i) ∧ l !! N.to_nat i = Some x) as H.
  { induction l as [|y l IH]; [by apply elem_of_nil in Hx|]. intros k. cbn [binary_search_from].
    destruct (N.eqb_spec x y) as [->|Hne]; [exists 0; by rewrite N.add_0_r|].
    apply elem_of_cons in Hx as [->|Hx]; [done|]. destruct (IH Hx (k + 1)) as (i & Hi & Hl).
    exists (i + 1). split; [rewrite Hi; f_equal; lia|].
    by replace (N.to_nat (i + 1)) with (S (N.to_nat i)) by lia. }
  destruct (H 0) as (i & Hi & Hl). exists i. by rewrite N.add_0_l in Hi.
Qed.

(** The length of the longest common prefix. *)
Fixpoint common_prefix (l r : list byte) : nat :=
  match l, r with
  | a :: l, b :: r => if bool_decide (a = b) then S (common_prefix l r) else 0
  | _, _ => 0
  end.

Lemma common_prefix_run left right :
  len right <= u64_MAX →
  run_calm (common_prefix_len_with_checkpoint left right) = Ok (N.of_nat (common_prefix left right)).
Proof.
  unfold common_prefix_len_with_checkpoint.
  assert (∀ k, k + len right <= u64_MAX →
    run_calm (common_prefix_loop k (zip left right)) = Ok (k + N.of_nat (common_prefix left right))) as H.
  { revert right; induction left as [|a left IH]; intros [|b right] k Hk; cbn [zip_with common_prefix_loop common_prefix];
      rewrite ?N.add_0_r; try done.
    rewrite len_cons in Hk. calm_run. case_bool_decide; cbn [negb]; [|by rewrite N.add_0_r].
    calm_run. rewrite IH by lia. f_equal. lia. }
  intros. by rewrite H by lia.
Qed.

Lemma common_prefix_take left right :
  take (common_prefix left right) left = take (common_prefix left right) right ∧
  (common_prefix left right <= length left)%nat ∧ (common_prefix left right <= length right)%nat.
Proof.
  revert right; induction left as [|a left IH]; intros [|b right]; cbn; try (split; [done|lia]).
  case_bool_decide as Hab; [|split; [done|lia]]. cbn. destruct (IH right) as (-> & ? & ?). subst. split; [done|lia].
Qed.

(** ** A pack as a function of its group *)

Definition base_of (group : list MicroFileInput) : Z :=
  match group with [] => 0%Z | i :: rest => foldl (λ b j, Z.min b (mi_modified_ns j)) (mi_modified_ns i) rest end.
Definition dictionary_of (group : list MicroFileInput) : list N :=
  dedup (insertion_sort N.compare (map mi_mode group)).

Fixpoint paths_of (previous : list byte) (group : list MicroFileInput) : list FrontCodedPath :=
  match group with
  | [] => []
  | i :: group =>
      {| shared_prefix_len := N.of_nat (common_prefix previous (mi_path i));
         suffix := drop (common_prefix previous (mi_path i)) (mi_path i) |} :: paths_of (mi_path i) group
  end.

Fixpoint members_of (offset : N) (group : list MicroFileInput) : list MicroFilePackMember :=
  match group with
  | [] => []
  | i :: group =>
      {| mm_entry_id := mi_entry_id i; mm_content_offset := offset; mm_length := mi_size i |} ::
      members_of (offset + mi_size i) group
  end.

Fixpoint records_of (dictionary : list N) (offset : N) (group : list MicroFileInput) :
    list MicroFileMetadataRecord :=
  match group with
  | [] => []
  | i :: group =>
      {| mr_entry_id := mi_entry_id i; mr_mode_index := default 0 (binary_search (mi_mode i) dictionary);
         mr_content_offset := offset; mr_length := mi_size i; mr_file_hash := mi_file_hash i |} ::
      records_of dictionary (offset + mi_size i) group
  end.

Definition packed (pack_id : N) (group : list MicroFileInput) : MicroFilePack := {|
  mp_pack_id := pack_id;
  mp_members := members_of 0 group;
  mp_uncompressed_len := group_size group;
  mp_metadata := {|
    md_paths := paths_of [] group;
    md_base_modified_ns := base_of group;
    md_modified_ns_deltas := map (λ i, Z.to_N (mi_modified_ns i - base_of group)) group;
    md_mode_dictionary := dictionary_of group;
    md_records := records_of (dictionary_of group) 0 group |} |}.

(** The ranges of the fields' types, and of the lengths the metadata holds
    in 32 bits. *)
Definition typed (i : MicroFileInput) : Prop :=
  (i64_MIN <= mi_modified_ns i <= i64_MAX)%Z ∧ mi_mode i <= u32_MAX ∧ len (mi_path i) <= u32_MAX.

Lemma base_of_le group i : i ∈ group → (base_of group <= mi_modified_ns i)%Z.
Proof.
  destruct group as [|j group]; [by intros ?%elem_of_nil|]. cbn [base_of].
  assert (∀ b, (foldl (λ b j, Z.min b (mi_modified_ns j)) b group <= b)%Z ∧
    ∀ i, i ∈ group → (foldl (λ b j, Z.min b (mi_modified_ns j)) b group <= mi_modified_ns i)%Z) as H.
  { induction group as [|k group IH]; intros b; cbn [foldl]; [split; [lia|by intros ? ?%elem_of_nil]|].
    destruct (IH (Z.min b (mi_modified_ns k))) as [H1 H2]. split; [lia|].
    intros i' [->|Hi]%elem_of_cons; [lia|by apply H2]. }
  destruct (H (mi_modified_ns j)) as [H1 H2]. intros [->|Hi]%elem_of_cons; [done|by apply H2].
Qed.

Lemma base_of_ge group lo : group ≠ [] → Forall (λ i, lo <= mi_modified_ns i)%Z group → (lo <= base_of group)%Z.
Proof.
  destruct group as [|j group]; [done|]. intros _ [Hj Hg]%Forall_cons. cbn [base_of].
  revert Hj. generalize (mi_modified_ns j). induction Hg; intros b Hb; cbn; [done|]. apply IHHg. lia.
Qed.

Lemma dictionary_of_elem group i : i ∈ group → mi_mode i ∈ dictionary_of group.
Proof.
  intros Hi. unfold dictionary_of. apply dedup_elem.
  destruct (insertion_sort_stable N.compare (map mi_mode group)) as (_ & -> & _). by apply list_elem_of_fmap_2.
Qed.

Lemma dictionary_of_sorted group : StronglySorted N.lt (dictionary_of group).
Proof. apply dedup_sorted, insertion_sort_stable. apply _. Qed.

Definition build_next (base : Z) (dictionary : list N) (st : build_state) (i : MicroFileInput) : build_state := {|
  bs_members := bs_members st ++ [{| mm_entry_id := mi_entry_id i;
    mm_content_offset := bs_content_offset st; mm_length := mi_size i |}];
  bs_paths := bs_paths st ++ [{|
    shared_prefix_len := N.of_nat (common_prefix (bs_previous_path st) (mi_path i));
    suffix := drop (common_prefix (bs_previous_path st) (mi_path i)) (mi_path i) |}];
  bs_deltas := bs_deltas st ++ [Z.to_N (mi_modified_ns i - base)];
  bs_records := bs_records st ++ [{| mr_entry_id := mi_entry_id i;
    mr_mode_index := default 0 (binary_search (mi_mode i) dictionary);
    mr_content_offset := bs_content_offset st; mr_length := mi_size i;
    mr_file_hash := mi_file_hash i |}];
  bs_content_offset := bs_content_offset st + mi_size i;
  bs_previous_path := mi_path i |}.

Lemma build_step_run base dictionary st i :
  typed i → mi_size i <= u32_MAX → (i64_MIN <= base <= mi_modified_ns i)%Z → mi_mode i ∈ dictionary →
  StronglySorted N.lt dictionary → bs_content_offset st + mi_size i <= u64_MAX →
  run_calm (build_step base dictionary st i) = Ok (build_next base dictionary st i).
Proof.
  intros (Ht & Hm & Hp) Hs Hb Hd Hsort Ho. destruct (binary_search_Some _ _ Hd) as (k & Hk & Hl).
  pose proof (ascending_position _ _ _ Hsort Hl) as Hpos.
  destruct (common_prefix_take (bs_previous_path st) (mi_path i)) as (_ & _ & Hc).
  unfold build_step. rewrite run_calm_bind, run_calm_checkpoint. cbn [mbind result_bind].
  rewrite run_calm_bind, run_calm_lift, u32_try_from_ok by done. cbn [ok_or mbind result_bind].
  rewrite run_calm_bind, common_prefix_run by lia. cbn [mbind result_bind].
  unfold len in Hp. calm_run. unfold len. calm_run.
  unfold u64_of_i128. rewrite (proj2 (Z.leb_le 0 _)) by lia. rewrite (proj2 (Z.leb_le _ (Z.of_N u64_MAX))) by lia.
  cbn [andb ok_or mbind result_bind]. calm_run. unfold build_next. rewrite Hk. cbn [ok_or mbind result_bind]. calm_run.
  by rewrite Nat2N.id.
Qed.

Lemma build_fold_run base dictionary st group :
  Forall typed group → Forall (λ i, mi_size i <= u32_MAX) group →
  Forall (λ i, i64_MIN <= base <= mi_modified_ns i)%Z group → Forall (λ i, mi_mode i ∈ dictionary) group →
  StronglySorted N.lt dictionary → bs_content_offset st + group_size group <= u64_MAX →
  run_calm (fold_m (build_step base dictionary) st group) = Ok (foldl (build_next base dictionary) st group).
Proof.
  revert st; induction group as [|i group IH]; intros st; [done|]. rewrite !Forall_cons. unfold group_size.
  cbn [map]. change (sum (?x :: ?y)) with (x + sum y). intros [] [] [] [] Hd Hs. cbn [fold_m foldl].
  rewrite run_calm_bind, build_step_run by (done || lia). cbn [mbind result_bind]. apply IH; [done..|].
  unfold group_size. cbn [build_next bs_content_offset]. lia.
Qed.

Lemma build_fold_state base dictionary st group :
  foldl (build_next base dictionary) st group = {|
    bs_members := bs_members st ++ members_of (bs_content_offset st) group;
    bs_paths := bs_paths st ++ paths_of (bs_previous_path st) group;
    bs_deltas := bs_deltas st ++ map (λ i, Z.to_N (mi_modified_ns i - base)) group;
    bs_records := bs_records st ++ records_of dictionary (bs_content_offset st) group;
    bs_content_offset := bs_content_offset st + group_size group;
    bs_previous_path := default (bs_previous_path st) (mi_path <$> last group) |}.
Proof.
  revert st; induction group as [|i group IH]; intros st; cbn [foldl members_of paths_of records_of map].
  { rewrite !app_nil_r. unfold group_size. cbn. rewrite N.add_0_r. by destruct st. }
  rewrite IH. cbn [build_next bs_members bs_paths bs_deltas bs_records bs_content_offset bs_previous_path].
  rewrite <-!app_assoc. unfold group_size. cbn [map]. change (sum (?x :: ?y)) with (x + sum y).
  rewrite N.add_assoc. f_equal. rewrite last_cons. by destruct (last group).
Qed.

(** What [build_pack] needs of a group. *)
Record buildable (group : list MicroFileInput) : Prop := {
  bu_nonempty : group ≠ [];
  bu_typed : Forall typed group;
  bu_sizes : Forall (λ i, mi_size i <= u32_MAX) group;
  bu_total : group_size group <= u64_MAX;
}.

Lemma base_run i rest :
  run_calm (fold_m (λ base input, checkpoint;; mret (Z.min base (mi_modified_ns input)))
    (mi_modified_ns i) rest) = Ok (base_of (i :: rest)).
Proof.
  cbn [base_of]. rewrite run_calm_fold. generalize (mi_modified_ns i). induction rest as [|j rest IH]; intros b; [done|].
  cbn [try_fold foldl]. calm_run. apply IH.
Qed.

Lemma build_pack_run pack_id group :
  buildable group → run_calm (build_pack pack_id group) = Ok (packed pack_id group).
Proof.
  intros [Hne Ht Hs Htot]. destruct group as [|i rest]; [done|]. unfold build_pack.
  rewrite run_calm_bind, run_calm_checkpoint. cbn [mbind result_bind].
  rewrite run_calm_bind, base_run. cbn [mbind result_bind]. set (group := i :: rest) in *.
  rewrite run_calm_bind, run_calm_reserve. cbn [mbind result_bind].
  rewrite run_calm_bind, push_each_run. cbn [mbind result_bind app].
  rewrite run_calm_bind, (sort_run N.compare). cbn [mbind result_bind].
  rewrite run_calm_bind, dedup_run. cbn [mbind result_bind]. fold (dictionary_of group).
  do 4 (rewrite run_calm_bind, run_calm_reserve; cbn [mbind result_bind]).
  rewrite run_calm_bind, build_fold_run; [|done|done|..].
  - cbn [mbind result_bind]. rewrite run_calm_ret, build_fold_state. done.
  - apply Forall_forall. intros j Hj. split; [|by apply base_of_le].
    apply base_of_ge; [done|]. eapply Forall_impl; [exact Ht|]. intros k (? & _). lia.
  - apply Forall_forall. intros j Hj. by apply dictionary_of_elem.
  - apply dictionary_of_sorted.
  - cbn [bs_content_offset]. by rewrite N.add_0_l.
Qed.

(** ** The whole planner *)

Definition packs_of (i : N) (groups : list (list MicroFileInput)) : list MicroFilePack :=
  map (λ '(id, group), packed id group) (enumerate_from i groups).

Lemma push_pack_run packs group config :
  buildable group → len packs + 1 <= ck_max_chunks config → len packs + 1 <= u64_MAX →
  run_calm (push_pack packs group (group_size group) config) = Ok (packs ++ [packed (len packs) group]).
Proof.
  intros Hb Hc Hu. unfold push_pack, u64_len. rewrite run_calm_bind, run_calm_checkpoint. cbn [mbind result_bind].
  rewrite run_calm_bind, run_calm_lift, u64_try_from_ok by lia. cbn [ok_or mbind result_bind].
  rewrite run_calm_bind, run_calm_lift, checked_add_ok by lia. cbn [ok_or mbind result_bind].
  rewrite run_calm_if, (proj2 (N.ltb_ge _ _)) by lia. rewrite run_calm_bind, build_pack_run by done.
  cbn [mbind result_bind packed mp_uncompressed_len]. by rewrite run_calm_if, N.eqb_refl.
Qed.

Lemma packing_step_run eligible config packs start bytes index i :
  bytes + mi_size i <= u64_MAX →
  run_calm (packing_step eligible config (packs, start, bytes) (index, i)) =
  if (start <? index) && (micro_pack_target config <? bytes + mi_size i) then
    packs ← run_calm (push_pack packs (sub (N.to_nat start) (N.to_nat (index - start)) eligible) bytes config);
    Ok (packs, index, mi_size i)
  else Ok (packs, start, bytes + mi_size i).
Proof.
  intros. unfold packing_step. rewrite run_calm_bind, run_calm_checkpoint. cbn [mbind result_bind].
  rewrite run_calm_bind, run_calm_lift, checked_add_ok by done. cbn [ok_or mbind result_bind].
  rewrite run_calm_if. destruct (_ && _); [|done]. by rewrite run_calm_bind.
Qed.

Lemma sub_middle {A} (pre group post : list A) :
  sub (N.to_nat (len pre)) (N.to_nat (len group)) (pre ++ group ++ post) = group.
Proof. unfold sub, len. by rewrite !Nat2N.id, drop_app_length, take_app_length. Qed.

(** The loop and the last pack; [group] is the open group, which ends at
    [index]. *)
Lemma packing_run config pre group l packs :
  len packs + len (pack_groups (micro_pack_target config) group l) <= ck_max_chunks config →
  len packs + len (pack_groups (micro_pack_target config) group l) <= u64_MAX →
  Forall buildable (pack_groups (micro_pack_target config) group l) →
  group_size (group ++ l) <= u64_MAX → (group = [] → pre = []) →
  let eligible := pre ++ group ++ l in
  run_calm ('(packs, pack_start, pack_len) ←
      fold_m (packing_step eligible config) (packs, len pre, group_size group)
        (enumerate_from (len (pre ++ group)) l);
    if pack_start <? len eligible
    then push_pack packs (drop (N.to_nat pack_start) eligible) pack_len config
    else mret packs) =
  Ok (packs ++ packs_of (len packs) (pack_groups (micro_pack_target config) group l)).
Proof.
  cbn zeta. revert pre group packs; induction l as [|i l IH]; intros pre group packs; cbn [pack_groups enumerate_from fold_m].
  - intros Hc Hu Hb Hs Hpre. rewrite app_nil_r in *. rewrite run_calm_bind, run_calm_ret. cbn [mbind result_bind].
    destruct group as [|j group].
    { rewrite Hpre by done. cbn. by rewrite app_nil_r. }
    rewrite (proj2 (N.ltb_lt _ _)) by (rewrite len_app, len_cons; lia).
    unfold len at 1. rewrite Nat2N.id, drop_app_length. apply Forall_cons in Hb as [Hb _].
    rewrite len_cons, len_nil in *. by rewrite push_pack_run.
  - intros Hc Hu Hb Hs Hpre. rewrite run_calm_bind, run_calm_bind.
    assert (group_size group + mi_size i <= u64_MAX) as Hi.
    { rewrite group_size_app in Hs. unfold group_size in *. cbn in Hs. lia. }
    rewrite packing_step_run by done. replace (len (pre ++ group) - len pre) with (len group) by (rewrite len_app; lia).
    destruct group as [|j group].
    + rewrite Hpre in * by done. cbn [app]. rewrite N.ltb_irrefl. cbn [andb]. rewrite Ok_bind, <-run_calm_bind.
      change (group_size [] + mi_size i) with (mi_size i). rewrite <-(group_size_one i).
      specialize (IH [] [i] packs). cbn [app] in IH. apply IH; try done.
    + rewrite (proj2 (N.ltb_lt _ _)) by (rewrite len_app, len_cons; lia). cbn [andb].
      destruct (micro_pack_target config <? group_size (j :: group) + mi_size i) eqn:Hover.
      * apply Forall_cons in Hb as [Hb Hbs]. rewrite len_cons in Hc, Hu.
        rewrite sub_middle, push_pack_run by (done || lia). rewrite !Ok_bind, <-run_calm_bind.
        specialize (IH (pre ++ j :: group) [i] (packs ++ [packed (len packs) (j :: group)])).
        rewrite <-(group_size_one i).
        assert (len (packs ++ [packed (len packs) (j :: group)]) = len packs + 1) as Hlen by by rewrite len_app.
        rewrite Hlen, (len_app (pre ++ j :: group) [i]) in IH. change (len [i]) with 1 in IH.
        rewrite <-(app_assoc pre (j :: group) ([i] ++ l)) in IH. cbn [app] in IH |- *.
        rewrite IH; [by rewrite <-app_assoc|lia|lia|done| |done].
        rewrite group_size_app in Hs. change (group_size (i :: l) <= u64_MAX). lia.
      * rewrite Ok_bind, <-run_calm_bind, <-(group_size_one i), <-group_size_app.
        specialize (IH pre ((j :: group) ++ [i]) packs). rewrite <-app_assoc in IH. cbn [app] in IH |- *.
        replace (len (pre ++ j :: group) + 1) with (len (pre ++ j :: group ++ [i])); [by apply IH|].
        rewrite !len_app, !len_cons, len_app. change (len [i]) with 1. lia.
Qed.

(** ** The packs built are well formed *)

(** The ranges of the fields' types. *)
Definition typed_input (i : MicroFileInput) : Prop :=
  (i64_MIN <= mi_modified_ns i <= i64_MAX)%Z ∧ mi_mode i <= u32_MAX.

Lemma front_decode_paths_of previous group :
  front_decode previous (paths_of previous group) = map mi_path group.
Proof.
  revert previous; induction group as [|i group IH]; intros previous; [done|].
  cbn [paths_of front_decode map shared_prefix_len suffix]. rewrite Nat2N.id.
  destruct (common_prefix_take previous (mi_path i)) as (-> & _). rewrite take_drop. by rewrite IH.
Qed.

Lemma length_columns previous dictionary offset group :
  length (paths_of previous group) = length group ∧ length (records_of dictionary offset group) = length group ∧
  length (members_of offset group) = length group.
Proof.
  revert previous offset; induction group as [|i group IH]; intros previous offset; [done|]. cbn.
  destruct (IH (mi_path i) (offset + mi_size i)) as (-> & -> & ->). done.
Qed.

Lemma columns_ids dictionary offset group :
  map mr_entry_id (records_of dictionary offset group) = map mi_entry_id group ∧
  map mm_entry_id (members_of offset group) = map mi_entry_id group ∧
  map mm_length (members_of offset group) = map mi_size group.
Proof.
  revert offset; induction group as [|i group IH]; intros offset; [done|]. cbn.
  destruct (IH (offset + mi_size i)) as (-> & -> & ->). done.
Qed.

Lemma rows_of_ok self config previous offset group :
  Forall (λ i, mi_path i ≠ [] ∧ len (mi_path i) <= ck_max_path_bytes config) group →
  Forall typed group → Forall (λ i, md_base_modified_ns self <= mi_modified_ns i)%Z group →
  Forall (λ i, mi_mode i ∈ md_mode_dictionary self) group → StronglySorted N.lt (md_mode_dictionary self) →
  offset + group_size group <= u64_MAX →
  rows_ok self config previous offset
    (zip (zip (paths_of previous group) (map (λ i, Z.to_N (mi_modified_ns i - md_base_modified_ns self)) group))
      (records_of (md_mode_dictionary self) offset group)).
Proof.
  revert previous offset; induction group as [|i group IH]; intros previous offset; [done|].
  rewrite !Forall_cons. unfold group_size. cbn [map]. change (sum (?x :: ?y)) with (x + sum y).
  intros [[Hne Hp] Hps] [(Ht & Hm & Hl) Hts] [Hb Hbs] [Hd Hds] Hs Hsum.
  cbn [paths_of records_of zip_with rows_ok shared_prefix_len suffix mr_mode_index mr_content_offset mr_length].
  destruct (binary_search_Some _ _ Hd) as (k & Hk & Hlk). rewrite Hk. change (default 0 (Some k)) with k.
  pose proof (ascending_position _ _ _ Hs Hlk) as Hpos. apply lookup_lt_Some in Hlk.
  destruct (common_prefix_take previous (mi_path i)) as (Htake & Hc1 & Hc2).
  rewrite Nat2N.id, Htake, take_drop. assert (0 < len (mi_path i)) by (destruct (mi_path i); [done|unfold len; cbn; lia]).
  repeat split; try (unfold len in *; lia). apply IH; try done. unfold group_size. lia.
Qed.

Lemma members_of_ok config dictionary offset group :
  Forall (λ i, mi_size i <= micro_file_max config) group → offset + group_size group <= u64_MAX →
  members_ok config offset (zip (members_of offset group) (records_of dictionary offset group)).
Proof.
  revert offset; induction group as [|i group IH]; intros offset; [done|]. rewrite Forall_cons.
  unfold group_size. cbn [map]. change (sum (?x :: ?y)) with (x + sum y). intros [Hi Hg] Hs.
  cbn [members_of records_of zip_with members_ok mm_entry_id mm_content_offset mm_length mr_entry_id
    mr_content_offset mr_length]. repeat split; try lia. apply IH; [done|]. unfold group_size. lia.
Qed.

(** What a group brings from the inputs' checks. *)
Record group_ok (group : list MicroFileInput) (config : ChunkingConfig) : Prop := {
  go_build : buildable group;
  go_count : len group <= ck_max_chunks config ∧ len group <= u64_MAX;
  go_paths : Forall (λ i, mi_path i ≠ [] ∧ len (mi_path i) <= ck_max_path_bytes config) group;
  go_sizes : Forall (λ i, mi_size i <= micro_file_max config) group;
  go_target : group_size group <= micro_pack_target config;
  go_logical : group_size group <= max_logical_bytes config;
  go_ids : NoDup (map mi_entry_id group);
  go_unique : NoDup (map mi_path group);
}.

Lemma packed_ok id group config :
  group_ok group config → budget config (metadata_size (mp_metadata (packed id group))) →
  pack_ok (packed id group) config.
Proof.
  intros [[Hne Ht Hs Htot] [Hc Hu] Hp Hsz Htg Hlog Hids Huniq] Hb.
  destruct (length_columns [] (dictionary_of group) 0 group) as (L1 & L2 & L3).
  destruct (columns_ids (dictionary_of group) 0 group) as (I1 & I2 & I3).
  split; unfold len in *; cbn [packed mp_members mp_uncompressed_len mp_metadata md_records].
  - by rewrite L3.
  - intros He. rewrite He in L3. by destruct group.
  - by rewrite L2, L3.
  - done.
  - done.
  - split; cbn [packed mp_metadata md_records md_paths md_modified_ns_deltas md_mode_dictionary]; unfold len;
      rewrite ?L1, ?L2, ?length_map, ?I1; try done.
    + intros _ He. destruct group as [|i group]; [done|].
      pose proof (dictionary_of_elem (i :: group) i) as Hd. rewrite He in Hd. eapply elem_of_nil, Hd. left.
    + pose proof (len_dedup (insertion_sort N.compare (map mi_mode group))) as Hd.
      destruct (insertion_sort_stable N.compare (map mi_mode group)) as (_ & Hperm & _).
      unfold len, dictionary_of in *. rewrite (Permutation_length Hperm), length_map in Hd. done.
    + apply dictionary_of_sorted.
    + apply (rows_of_ok (mp_metadata (packed id group)) config [] 0 group); try done.
      * apply Forall_forall. intros i Hi. by apply base_of_le.
      * apply Forall_forall. intros i Hi. by apply dictionary_of_elem.
      * apply dictionary_of_sorted.
    + by rewrite front_decode_paths_of.
  - by apply members_of_ok.
  - unfold content_len. by rewrite I3.
Qed.

Lemma validate_micro `{FastCdc} config :
  ChunkingConfig_validate config = Ok tt →
  micro_file_max config <= 64 * KIB ∧ micro_file_max config <= micro_pack_target config ∧
  micro_pack_target config <= 16 * MIB.
Proof.
  unfold ChunkingConfig_validate, in_range. intros Hv. invres.
  repeat match goal with H : (if ?b then _ else _) = Ok _ |- _ => destruct b eqn:?; try discriminate end.
  invres. lia.
Qed.

Definition groups_of (config : ChunkingConfig) (inputs : list MicroFileInput) : list (list MicroFileInput) :=
  pack_groups (micro_pack_target config) [] (eligible_inputs config inputs).

(** The plan of the inputs. *)
Definition plan_of (config : ChunkingConfig) (inputs : list MicroFileInput) : MicroFilePackPlan :=
  {| packs := packs_of 0 (groups_of config inputs); excluded := exclusions config inputs |}.

(** When there is one. *)
Record plannable (inputs : list MicroFileInput) (config : ChunkingConfig) : Prop := {
  pn_inputs : inputs_ok inputs config;
  pn_logical : group_size (eligible_inputs config inputs) <= max_logical_bytes config ∧
    group_size (eligible_inputs config inputs) <= u64_MAX;
  pn_metadata : Forall (λ pack, budget config (metadata_size (mp_metadata pack)))
    (packs (plan_of config inputs));
}.

Lemma eligible_sublist config inputs : eligible_inputs config inputs ⊆+ inputs.
Proof. rewrite <-(ordered_perm inputs) at 2. apply sublist_submseteq, sublist_filter. Qed.

Lemma NoDup_submseteq {A} (l k : list A) : l ⊆+ k → NoDup k → NoDup l.
Proof.
  intros Hs Hn. apply submseteq_Permutation in Hs as [k' Hk]. rewrite Hk in Hn. by apply NoDup_app in Hn as [? _].
Qed.

Lemma Forall_submseteq {A} (P : A → Prop) (l k : list A) : l ⊆+ k → Forall P k → Forall P l.
Proof. rewrite !Forall_forall. intros Hs Hk x Hx. apply Hk. by eapply elem_of_submseteq. Qed.

Lemma len_submseteq {A} (l k : list A) : l ⊆+ k → len l <= len k.
Proof. intros ?%submseteq_length. unfold len. lia. Qed.

Lemma group_in_concat {A} (g : list A) gs : g ∈ gs → g ⊆+ concat gs.
Proof.
  induction gs as [|h gs IH]; [by intros ?%elem_of_nil|]. cbn. intros [->|Hg]%elem_of_cons.
  - apply submseteq_inserts_r. done.
  - by apply submseteq_inserts_l, IH.
Qed.

Lemma group_size_submseteq g l : g ⊆+ l → group_size g <= group_size l.
Proof.
  intros [k Hk]%submseteq_Permutation. unfold group_size.
  assert (∀ a b : list N, a ≡ₚ b → sum a = sum b) as Hsum by (induction 1; unfold sum in *; cbn; lia).
  rewrite (Hsum (map mi_size l) (map mi_size (g ++ k))) by (by apply Permutation_map). rewrite map_app, sum_app. lia.
Qed.

Lemma map_submseteq {A B} (f : A → B) (l k : list A) : l ⊆+ k → map f l ⊆+ map f k.
Proof.
  intros [l' Hk]%submseteq_Permutation. rewrite (Permutation_map f Hk), map_app. by apply submseteq_inserts_r.
Qed.

Section planner_proofs.
Context `{FastCdc} (config : ChunkingConfig) (inputs : list MicroFileInput).
Context (Hvalid : ChunkingConfig_validate config = Ok tt).
Context (Htyped : Forall typed_input inputs) (Hpath : ck_max_path_bytes config <= u32_MAX).

Lemma eligible_sizes : Forall (λ i, mi_size i <= micro_file_max config) (eligible_inputs config inputs).
Proof.
  unfold eligible_inputs. apply Forall_forall. intros i [He _]%list_elem_of_filter.
  unfold exclusion_reason in He. destruct (mi_requires_isolated_access i); [done|].
  by destruct (N.ltb_spec (micro_file_max config) (mi_size i)).
Qed.

Lemma groups_fit :
  Forall (λ g, g ≠ [] ∧ group_size g <= micro_pack_target config) (groups_of config inputs).
Proof.
  apply pack_groups_fit; [unfold group_size; cbn; lia|]. eapply Forall_impl; [apply eligible_sizes|].
  intros i Hi. cbn in Hi. destruct (validate_micro _ Hvalid) as (_ & ? & _). lia.
Qed.

Lemma groups_ok :
  inputs_ok inputs config → group_size (eligible_inputs config inputs) <= max_logical_bytes config →
  Forall (λ g, group_ok g config) (groups_of config inputs).
Proof.
  intros [[Hc Hu] Hb He Hids Hpaths] Hlog. apply Forall_forall. intros g Hg.
  pose proof groups_fit as Hfit. rewrite Forall_forall in Hfit. destruct (Hfit g Hg) as [Hne Htg].
  assert (g ⊆+ eligible_inputs config inputs) as Hsub.
  { apply group_in_concat in Hg. unfold groups_of in Hg. by rewrite pack_groups_concat in Hg. }
  assert (g ⊆+ inputs) as Hin by (etrans; [exact Hsub|apply eligible_sublist]).
  destruct (validate_micro _ Hvalid) as (Hm1 & Hm2 & Hm3). unfold MIB, KIB in *.
  pose proof (Forall_submseteq _ _ _ Hsub eligible_sizes) as Hsz.
  pose proof (Forall_submseteq _ _ _ Hin He) as Hge. pose proof (Forall_submseteq _ _ _ Hin Htyped) as Hgt.
  split; [split| | | | | | |].
  - done.
  - rewrite Forall_forall in Hge, Hgt |- *. intros i Hi. destruct (Hge i Hi) as (_ & ? & _), (Hgt i Hi) as [? ?].
    split; [done|]. split; [done|lia].
  - eapply Forall_impl; [exact Hsz|]. cbn. intros; lia.
  - lia.
  - pose proof (len_submseteq _ _ Hin). lia.
  - eapply Forall_impl; [exact Hge|]. naive_solver.
  - done.
  - done.
  - pose proof (group_size_submseteq _ _ Hsub). lia.
  - eapply NoDup_submseteq; [by apply (map_submseteq mi_entry_id)|done].
  - eapply NoDup_submseteq; [by apply (map_submseteq mi_path)|done].
Qed.

Lemma packs_of_ids i groups :
  map mp_pack_id (packs_of i groups) = map N.of_nat (seq (N.to_nat i) (length groups)).
Proof.
  unfold packs_of. revert i; induction groups as [|g groups IH]; intros i; [done|]. cbn [enumerate_from map seq length].
  rewrite IH. cbn [packed mp_pack_id]. f_equal; [lia|]. by replace (N.to_nat (i + 1)) with (S (N.to_nat i)) by lia.
Qed.

Lemma length_packs_of i groups : length (packs_of i groups) = length groups.
Proof.
  unfold packs_of. rewrite length_map. revert i; induction groups; intros i; cbn; auto.
Qed.

Lemma packs_of_Forall (P : MicroFilePack → Prop) i groups :
  Forall (λ g, ∀ id, P (packed id g)) groups → Forall P (packs_of i groups).
Proof.
  unfold packs_of. intros Hg. revert i; induction Hg; intros i; cbn [enumerate_from map]; constructor; auto.
Qed.

(** A quantity of the packs is that of the groups, when it does not depend
    on the identifier. *)
Lemma packs_of_map {B} (f : MicroFilePack → B) (h : list MicroFileInput → B) i groups :
  (∀ id g, f (packed id g) = h g) → map f (packs_of i groups) = map h groups.
Proof.
  intros Hf. unfold packs_of. revert i; induction groups as [|g groups IH]; intros i; [done|].
  cbn [enumerate_from map]. by rewrite Hf, IH.
Qed.

Lemma excluded_ids l :
  map ex_entry_id (omap (λ i, reason ← exclusion_reason config i;
    Some {| ex_entry_id := mi_entry_id i; ex_reason := reason |}) l) =
  map mi_entry_id (filter (λ i, ¬ exclusion_reason config i = None) l).
Proof.
  induction l as [|i l IH]; [done|]. cbn [omap list_omap]. rewrite filter_cons.
  destruct (exclusion_reason config i); cbn [mbind option_bind].
  - rewrite decide_True by done. cbn [map ex_entry_id]. by rewrite <-IH.
  - rewrite decide_False by naive_solver. exact IH.
Qed.

Lemma plan_ids : plan_entry_ids (plan_of config inputs) ≡ₚ map mi_entry_id inputs.
Proof.
  unfold plan_entry_ids, plan_of. cbn [packs excluded]. unfold exclusions. rewrite excluded_ids.
  rewrite (packs_of_map _ (map mi_entry_id)).
  - rewrite <-concat_map. unfold groups_of. rewrite pack_groups_concat. cbn [app]. rewrite <-map_app.
    apply Permutation_map. unfold eligible_inputs. rewrite filter_app_complement. apply ordered_perm.
  - intros id g. apply (columns_ids [] 0 g).
Qed.

Lemma plan_of_ok : plannable inputs config → plan_ok (plan_of config inputs) config.
Proof.
  intros [Hin [Hlog Hlu] Hmeta]. pose proof (groups_ok Hin Hlog) as Hgroups.
  assert (total_members (packs (plan_of config inputs)) + len (excluded (plan_of config inputs)) = len inputs) as Htot.
  { transitivity (len (plan_entry_ids (plan_of config inputs))).
    - unfold plan_entry_ids. rewrite plan_members_ids, len_app, !len_map, len_plan_members. done.
    - unfold len. by rewrite plan_ids, length_map. }
  destruct Hin as [[Hc Hu] Hb He Hids Hpaths].
  assert (total_content (packs (plan_of config inputs)) = group_size (eligible_inputs config inputs)) as Hcontent.
  { unfold total_content, plan_of. cbn [packs]. rewrite (packs_of_map _ group_size) by done. unfold groups_of.
    transitivity (group_size (concat (pack_groups (micro_pack_target config) [] (eligible_inputs config inputs))));
      [|by rewrite pack_groups_concat].
    induction (pack_groups _ _ _) as [|g gs IH]; [done|]. cbn [map concat].
    change (sum (?x :: ?y)) with (x + sum y). by rewrite IH, group_size_app. }
  split; rewrite ?Htot, ?Hcontent; try done.
  - cbn [plan_of packs]. unfold len. rewrite length_packs_of.
    pose proof (length_pack_groups (micro_pack_target config) [] (eligible_inputs config inputs)) as Hl.
    pose proof (len_submseteq _ _ (eligible_sublist config inputs)) as Hs. unfold len, groups_of in *. cbn in Hl. lia.
  - cbn [plan_of packs]. rewrite packs_of_ids, length_packs_of. done.
  - cbn [plan_of packs] in *. rewrite Forall_forall in Hmeta |- *. intros pack Hp. specialize (Hmeta pack Hp).
    unfold packs_of in Hp. apply list_elem_of_fmap in Hp as ([id g] & -> & Hg).
    unfold packs_of in *. apply packed_ok; [|exact Hmeta]. rewrite Forall_forall in Hgroups. apply Hgroups.
    apply elem_of_enumerate_from in Hg as [_ Hg]. by eapply list_elem_of_lookup_2.
  - by rewrite plan_ids.
Qed.

Lemma packing_bind {B} (k : list MicroFilePack → M unit B) :
  inputs_ok inputs config → group_size (eligible_inputs config inputs) <= max_logical_bytes config →
  group_size (eligible_inputs config inputs) <= u64_MAX →
  run_calm ('(packs, pack_start, pack_len) ←
      fold_m (packing_step (eligible_inputs config inputs) config) ([], 0, 0)
        (enumerate (eligible_inputs config inputs));
    packs ← (if pack_start <? len (eligible_inputs config inputs)
      then push_pack packs (drop (N.to_nat pack_start) (eligible_inputs config inputs)) pack_len config
      else mret packs);
    k packs) = run_calm (k (packs_of 0 (groups_of config inputs))).
Proof.
  intros Hin Hlog Hlu. pose proof (groups_ok Hin Hlog) as Hgroups.
  pose proof (length_pack_groups (micro_pack_target config) [] (eligible_inputs config inputs)) as Hl.
  pose proof (len_submseteq _ _ (eligible_sublist config inputs)) as Hs. destruct (io_count _ _ Hin) as [Hc Hu].
  pose proof (packing_run config [] [] (eligible_inputs config inputs) []) as Hpack. cbn zeta in Hpack.
  change (len []) with 0 in Hpack. cbn [app] in Hpack. rewrite !N.add_0_l in Hpack.
  fold (groups_of config inputs) in *.
  specialize (Hpack ltac:(unfold len in *; cbn in Hl; lia) ltac:(unfold len in *; cbn in Hl; lia)).
  specialize (Hpack ltac:(eapply Forall_impl; [exact Hgroups|]; intros g Hg; apply Hg) Hlu ltac:(done)).
  change (len []) with 0 in Hpack. change (group_size []) with 0 in Hpack. fold (enumerate (eligible_inputs config inputs)) in Hpack.
  rewrite run_calm_bind in Hpack. rewrite run_calm_bind.
  destruct (run_calm (fold_m _ _ _)) as [[[packs start] bytes]|e]; [|discriminate Hpack].
  rewrite Ok_bind in Hpack. rewrite Ok_bind, run_calm_bind, Hpack. done.
Qed.

Lemma plan_calm_run plan :
  run_calm (plan_micro_file_packs_with_checkpoint inputs config) = Ok plan ↔
  plannable inputs config ∧ plan = plan_of config inputs.
Proof.
  unfold plan_micro_file_packs_with_checkpoint. rewrite run_unit_Ok, run_lift_Ok. run_iff. rewrite N.ltb_ge.
  assert (length (pack_groups (micro_pack_target config) [] (eligible_inputs config inputs)) <=
    length (eligible_inputs config inputs))%nat as Hl by apply length_pack_groups.
  pose proof (len_submseteq _ _ (eligible_sublist config inputs)) as Hs. unfold len in Hs.
  split.
  - intros (_ & Hu & Hc & Hm & Hb & [Hin%validate_unique_run Hr]%run_unit_Ok); [|done].
    revert Hr. run_iff. rewrite run_calm_bind, push_each_run, Ok_bind. cbn [app]. rewrite map_id.
    rewrite run_calm_bind, (sort_run compare_inputs), Ok_bind. fold (ordered_inputs inputs). run_iff.
    intros ([[eligible excl] bytes] & Hel & Hr)%run_bind_Ok.
    apply eligibility_run in Hel as (Hlog & Hlu & Heq); [|lia..]. rewrite N.add_0_l in *. cbn [app] in Heq.
    injection Heq as -> -> _. fold (eligible_inputs config inputs) in *. fold (exclusions config inputs) in *.
    revert Hr. rewrite run_calm_bind, required_pack_count_run, Ok_bind by (unfold len in *; lia). run_iff.
    rewrite packing_bind by done. intros (_ & _ & Hr). revert Hr. run_iff. rewrite run_unit_Ok, plan_run. run_iff.
    intros [[_ Hok] ->]. split; [|done]. split; [done|done|].
    eapply Forall_impl; [apply (pl_each _ _ Hok)|]. intros pack Hp. apply (mo_budget _ _ (po_metadata _ _ Hp)).
  - intros [Hpn ->]. pose proof (plan_of_ok Hpn) as Hok. destruct Hpn as [Hin [Hlog Hlu] _].
    destruct (io_count _ _ Hin) as [Hc Hu]. destruct (io_budget _ _ Hin) as [Hb Hb'].
    do 5 (split; [done || lia|]). rewrite run_unit_Ok, validate_unique_run by done. split; [done|]. run_iff.
    rewrite run_calm_bind, push_each_run, Ok_bind. cbn [app]. rewrite map_id.
    rewrite run_calm_bind, (sort_run compare_inputs), Ok_bind. fold (ordered_inputs inputs). run_iff.
    apply run_bind_Ok. eexists. split.
    { apply eligibility_run; [lia..|]. rewrite N.add_0_l. split; [exact Hlog|]. split; [exact Hlu|done]. }
    cbn beta iota. fold (eligible_inputs config inputs). fold (exclusions config inputs). cbn [app].
    rewrite run_calm_bind, required_pack_count_run, Ok_bind by (unfold len in *; lia). run_iff. rewrite N.ltb_ge.
    split; [unfold len in *; lia|]. split; [unfold len in *; lia|]. rewrite packing_bind by done. run_iff.
    rewrite run_unit_Ok, plan_run. by run_iff.
Qed.
End planner_proofs.

(** ** Reading a pack back *)

Record FileDescription := {
  fd_entry_id : N; fd_path : list byte; fd_offset : N; fd_size : N; fd_modified_ns : Z;
  fd_mode : option N; fd_hash : list byte;
}.

(** What a pack says of its files. *)
Definition pack_files (self : MicroFilePack) : list FileDescription :=
  let md := mp_metadata self in
  zip_with (λ '(path, delta) record, {|
      fd_entry_id := mr_entry_id record; fd_path := path; fd_offset := mr_content_offset record;
      fd_size := mr_length record; fd_modified_ns := md_base_modified_ns md + Z.of_N delta;
      fd_mode := md_mode_dictionary md !! N.to_nat (mr_mode_index record);
      fd_hash := mr_file_hash record |})
    (zip (front_decode [] (md_paths md)) (md_modified_ns_deltas md)) (md_records md).

(** What there is to say of a group whose contents start at [offset]. *)
Fixpoint describe (offset : N) (group : list MicroFileInput) : list FileDescription :=
  match group with
  | [] => []
  | i :: group =>
      {| fd_entry_id := mi_entry_id i; fd_path := mi_path i; fd_offset := offset; fd_size := mi_size i;
         fd_modified_ns := mi_modified_ns i; fd_mode := Some (mi_mode i); fd_hash := mi_file_hash i |} ::
      describe (offset + mi_size i) group
  end.

Lemma pack_files_packed id group : pack_files (packed id group) = describe 0 group.
Proof.
  unfold pack_files. cbn [packed mp_metadata md_paths md_modified_ns_deltas md_records md_base_modified_ns
    md_mode_dictionary]. rewrite front_decode_paths_of.
  assert (∀ base dictionary offset l, Forall (λ i, base <= mi_modified_ns i)%Z l →
    Forall (λ i, mi_mode i ∈ dictionary) l →
    zip_with (λ '(path, delta) record, {|
        fd_entry_id := mr_entry_id record; fd_path := path; fd_offset := mr_content_offset record;
        fd_size := mr_length record; fd_modified_ns := base + Z.of_N delta;
        fd_mode := dictionary !! N.to_nat (mr_mode_index record); fd_hash := mr_file_hash record |})
      (zip (map mi_path l) (map (λ i, Z.to_N (mi_modified_ns i - base)) l)) (records_of dictionary offset l) =
    describe offset l) as H.
  { intros base dictionary offset l. revert offset. induction l as [|i l IH]; intros offset; [done|].
    rewrite !Forall_cons. intros [Hb Hbs] [Hd Hds].
    cbn [map zip_with records_of describe mr_entry_id mr_content_offset mr_length mr_mode_index mr_file_hash].
    destruct (binary_search_Some _ _ Hd) as (k & -> & Hk). change (default 0 (Some k)) with k.
    rewrite IH, Hk by done. f_equal. f_equal. lia. }
  apply H; apply Forall_forall; intros i Hi; [by apply base_of_le|by apply dictionary_of_elem].
Qed.

Lemma map_pack_files i groups : map pack_files (packs_of i groups) = map (describe 0) groups.
Proof. apply packs_of_map. intros. apply pack_files_packed. Qed.

Lemma plannable_permutation inputs inputs' config :
  inputs ≡ₚ inputs' → plannable inputs config → plannable inputs' config ∧ plan_of config inputs' = plan_of config inputs.
Proof.
  intros Hp [[[Hc Hu] Hb He Hids Hpaths] Hlog Hmeta].
  pose proof (ordered_permutation inputs inputs' Hids Hp) as Ho.
  assert (eligible_inputs config inputs' = eligible_inputs config inputs) as Hel by (unfold eligible_inputs; by rewrite Ho).
  assert (plan_of config inputs' = plan_of config inputs) as Hplan.
  { unfold plan_of, groups_of, exclusions. by rewrite Hel, Ho. }
  split; [|done]. assert (len inputs' = len inputs) as Hlen by (unfold len; by rewrite Hp).
  split; rewrite ?Hel, ?Hplan; [|done..]. split; rewrite ?Hlen, <-?Hp; try done.
  replace (sum (map input_bytes inputs')) with (sum (map input_bytes inputs)); [done|].
  assert (∀ a b : list N, a ≡ₚ b → sum a = sum b) as Hsum by (induction 1; unfold sum in *; cbn; lia).
  by apply Hsum, Permutation_map.
Qed.

Lemma plan_follows {S} `{Env S} `{FastCdc} inputs config :
  follows (plan_micro_file_packs_with_checkpoint inputs config)
    (run_calm (plan_micro_file_packs_with_checkpoint inputs config)).
Proof.
  unfold plan_micro_file_packs_with_checkpoint, validate_unique_inputs, input_step, eligibility_step,
    required_pack_count, count_step, packing_step, push_pack, build_pack, dedup_sorted_with_checkpoint, dedup_step,
    build_step, common_prefix_len_with_checkpoint, assign.
  assert (∀ k l, follows (common_prefix_loop k l) (run_calm (common_prefix_loop k l))) as Hprefix.
  { intros k l. revert k; induction l as [|[a b] l IH]; intros k; cbn [common_prefix_loop]; follows_by ltac:(apply IH). }
  follows_by ltac:(first [apply plan_validate_follows | apply Hprefix | apply (sort_follows_run compare_inputs)]).
Qed.


(** ** Witness *)

Module PlanSample.
Definition file (id size mode : N) (modified : Z) (path : list byte) (isolated : bool) : MicroFileInput := {|
  mi_entry_id := id; mi_path := path; mi_size := size; mi_modified_ns := modified; mi_mode := mode;
  mi_file_hash := zeros 32; mi_family_key := 0; mi_path_prefix_key := []; mi_extension_key := [];
  mi_similarity_key := 0; mi_requires_isolated_access := isolated |}.
(** A file too large, two that share a pack, and one that must stay alone. *)
Definition inputs : list MicroFileInput := [
  file 1 70000 420 0 [byte_of 99] false; file 4 0 420 (-5) MicroSample.path_ab false;
  file 2 10 420 0 [byte_of 100] true; file 9 3 420 7 MicroSample.path_a false].
End PlanSample.

