(* ===== verification/Fingerprint.v ===== *)
(** * Chunk fingerprints ([crates/pithos-analysis/src/fingerprint.rs])

    The configuration and its memory bounds, the rolling-hash superfeatures,
    the accumulator of a chunk's hashes, the in-memory, streaming and parallel
    fingerprinters, and the retention of full hashes for colliding compact
    identities. *)

From S2P Require Import Prelude Core Effects Runs Bytes Codecs Sorting Orders Chunking.

Definition READ_BUFFER_BYTES : N := 64 * 1024.
Definition ROLLING_BASE : N := 1099511628211.
Definition FINGERPRINT_WORKER_MARGIN_BYTES : N := 64 * 1024.
Definition FINGERPRINT_FIXED_WORKING_BYTES : N := 4 * 1024.
Definition FINGERPRINT_PER_CHUNK_MARGIN_BYTES : N := 64.

(** [Xxh3::new()], updates and [digest()]: the XXH3 hash of the bytes given
    so far.  The hasher's state is represented by those bytes. *)
Class Xxh3 := xxh3_64 : list byte → N.

(** [std::mem::size_of] of the module's types, which the compiler chooses. *)
Class FingerprintSizes := {
  size_of_ChunkFingerprint : N;
  size_of_input_reference : N;
  size_of_slot : N;
  size_of_CollisionCandidate : N;
  size_of_RollingRegion : N;
  size_of_FingerprintAccumulator : N;
}.

(** The [rayon] pool: whether it can be built with a number of threads, and
    the results it leaves in the slots. *)
Class Rayon (S : Type) := {
  rayon_build : N → S → bool * S;
  rayon_for_each : ∀ A, list (M S A) → S → list (Result A) * S;
}.

(** Every slot holds what its task returned, in whatever state of the
    environment the task was run. *)
Class RayonLaws (S : Type) `{Rayon S} : Prop :=
  rayon_slots : ∀ A (tasks : list (M S A)) s,
    Forall2 (λ task r, ∃ s0, r = (task s0).1) tasks (rayon_for_each A tasks s).1.

Inductive FullHashPolicy := Standard | Paranoid.

#[export] Instance FullHashPolicy_eq_dec : EqDecision FullHashPolicy.
Proof. solve_decision. Defined.

Record FingerprintConfig := {
  full_hash_policy : FullHashPolicy;
  subchunk_count : N;
  superfeature_count : N;
  rolling_window : N;
  max_chunk_bytes : N;
  fp_max_chunks : N;
  max_total_bytes : N;
  fp_max_metadata_bytes : N;
  max_working_bytes : N;
  parallelism : N;
}.

Definition FingerprintConfig_default : FingerprintConfig :=
  let limits := DecodeLimits_default in {|
    full_hash_policy := Standard;
    subchunk_count := 12;
    superfeature_count := 4;
    rolling_window := 48;
    max_chunk_bytes := 4 * MIB;
    fp_max_chunks := max_chunks limits;
    max_total_bytes := max_original_bytes limits;
    fp_max_metadata_bytes := max_metadata_bytes limits;
    max_working_bytes := max_metadata_bytes limits;
    parallelism := 64;
  |}.

Definition FingerprintConfig_validate (self : FingerprintConfig) : Result unit :=
  if negb (in_range 4 64 (subchunk_count self)) ||
     negb ((superfeature_count self =? 3) || (superfeature_count self =? 4)) ||
     negb (subchunk_count self mod superfeature_count self =? 0) ||
     negb (in_range 1 4096 (rolling_window self)) ||
     (max_chunk_bytes self =? 0) || (4 * MIB <? max_chunk_bytes self) ||
     (fp_max_chunks self =? 0) || (max_total_bytes self =? 0) ||
     (fp_max_metadata_bytes self =? 0) || (max_working_bytes self =? 0) ||
     negb (in_range 1 64 (parallelism self))
  then Err (InvalidMetadata "fingerprint configuration") else Ok tt.

Record ChunkFingerprint := {
  cf_chunk_id : N;
  cf_length : N;
  cf_xxh3 : N;
  cf_blake3_128 : list byte;
  cf_full_blake3 : option (list byte);
  cf_crc32c : N;
  cf_superfeatures : list N;
}.

Record FingerprintInput := { fi_chunk : LogicalChunk; fi_data : list byte }.

Definition compact_key (self : ChunkFingerprint) : N * N * list byte :=
  (cf_xxh3 self, cf_length self, cf_blake3_128 self).

(** [data.chunks(n)], with the fuel of its length. *)
Fixpoint blocks_fuel (fuel n : nat) (data : list byte) : list (list byte) :=
  match fuel, data with
  | S fuel, _ :: _ => take n data :: blocks_fuel fuel n (drop n data)
  | _, _ => []
  end.
Definition blocks (data : list byte) : list (list byte) :=
  blocks_fuel (length data) (N.to_nat READ_BUFFER_BYTES) data.

(** ** Limits *)

Definition ensure_chunk_size_u64 (length : N) (config : FingerprintConfig) : Result unit :=
  if u32_MAX <? length then Err IntegerOverflow
  else if max_chunk_bytes config <? length then Err (ResourceLimit "fingerprint chunk bytes")
  else Ok tt.

Definition ensure_chunk_size (length : N) (config : FingerprintConfig) : Result unit :=
  length ← ok_or IntegerOverflow (u64_try_from length);
  ensure_chunk_size_u64 length config.

Section limits.
Context `{FingerprintSizes}.

Definition fingerprint_worker_scratch_bytes (length : N) (config : FingerprintConfig) : Result N :=
  let regions := subchunk_count config in
  capacity ← ok_or IntegerOverflow (checked_mul regions (rolling_window config));
  let total_ring_capacity := N.min capacity length in
  region_structures ← ok_or IntegerOverflow
    (bytes ← checked_add size_of_RollingRegion 8;
     bytes ← checked_add bytes FINGERPRINT_PER_CHUNK_MARGIN_BYTES;
     checked_mul bytes regions);
  ok_or IntegerOverflow
    (bytes ← checked_add total_ring_capacity region_structures;
     bytes ← checked_add bytes size_of_FingerprintAccumulator;
     checked_add bytes FINGERPRINT_WORKER_MARGIN_BYTES).

Definition ensure_batch_memory_limits (count largest_chunk : N) (config : FingerprintConfig) : Result unit :=
  if count =? 0 then Ok tt else
  metadata_bytes ← ok_or IntegerOverflow (checked_mul count size_of_ChunkFingerprint);
  if fp_max_metadata_bytes config <? metadata_bytes
  then Err (ResourceLimit "fingerprint metadata bytes") else
  per_chunk ← ok_or IntegerOverflow
    (bytes ← checked_add size_of_input_reference size_of_slot;
     bytes ← checked_add bytes size_of_ChunkFingerprint;
     bytes ← checked_add bytes size_of_CollisionCandidate;
     bytes ← checked_add bytes 1;
     checked_add bytes FINGERPRINT_PER_CHUNK_MARGIN_BYTES);
  let workers := N.min count (parallelism config) in
  worker_scratch ← fingerprint_worker_scratch_bytes largest_chunk config;
  working_bytes ← ok_or IntegerOverflow
    (bytes ← checked_mul count per_chunk;
     scratch ← checked_mul workers worker_scratch;
     bytes ← checked_add bytes scratch;
     checked_add bytes FINGERPRINT_FIXED_WORKING_BYTES);
  if max_working_bytes config <? working_bytes
  then Err (ResourceLimit "fingerprint working bytes") else Ok tt.

Definition ensure_single_request_limits_u64 (length : N) (config : FingerprintConfig) : Result unit :=
  ensure_chunk_size_u64 length config;;
  if max_total_bytes config <? length then Err (ResourceLimit "fingerprint total bytes") else
  ensure_batch_memory_limits 1 length config.

Definition ensure_single_request_limits (length : N) (config : FingerprintConfig) : Result unit :=
  length ← ok_or IntegerOverflow (u64_try_from length);
  ensure_single_request_limits_u64 length config.
End limits.

(** ** [RollingRegion] *)

Record RollingRegion := {
  rr_window : N;
  rr_ring : list byte;
  rr_cursor : N;
  rr_hash : N;
  rr_base_power : N;
  rr_maximum : N;
  rr_bytes_seen : N;
  rr_expected : N;
}.

Definition RollingRegion_new {S} `{Env S} (expected configured_window : N) : M S RollingRegion :=
  window ← lift (ok_or IntegerOverflow (usize_try_from (N.min expected configured_window)));
  try_reserve window;;
  let base_power := Nat.iter (N.to_nat window) (λ p, wrapping_mul p ROLLING_BASE) 1 in
  mret {| rr_window := window; rr_ring := []; rr_cursor := 0; rr_hash := 0;
          rr_base_power := base_power; rr_maximum := 0; rr_bytes_seen := 0; rr_expected := expected |}.

Definition RollingRegion_push (self : RollingRegion) (b : byte) : Result RollingRegion :=
  if (rr_expected self <=? rr_bytes_seen self) || (rr_window self =? 0)
  then Err (InvalidMetadata "superfeature region length") else
  let value := byte_val b + 1 in
  '(ring, cursor, hash, maximum) ←
    (if len (rr_ring self) <? rr_window self then
      let ring := rr_ring self ++ [b] in
      let hash := wrapping_add (wrapping_mul (rr_hash self) ROLLING_BASE) value in
      Ok (ring, rr_cursor self, hash,
          if len ring =? rr_window self then hash else rr_maximum self)
    else
      removed ← ok_or panic (rr_ring self !! N.to_nat (rr_cursor self));
      let removed := byte_val removed + 1 in
      let ring := <[N.to_nat (rr_cursor self) := b]> (rr_ring self) in
      let cursor := (rr_cursor self + 1) mod rr_window self in
      let hash := wrapping_sub
        (wrapping_add (wrapping_mul (rr_hash self) ROLLING_BASE) value)
        (wrapping_mul removed (rr_base_power self)) in
      Ok (ring, cursor, hash, N.max (rr_maximum self) hash));
  bytes_seen ← ok_or IntegerOverflow (checked_add (rr_bytes_seen self) 1);
  Ok {| rr_window := rr_window self; rr_ring := ring; rr_cursor := cursor; rr_hash := hash;
        rr_base_power := rr_base_power self; rr_maximum := maximum;
        rr_bytes_seen := bytes_seen; rr_expected := rr_expected self |}.

(** ** [SuperfeatureAccumulator] *)

Record SuperfeatureAccumulator := {
  sa_total_len : N;
  sa_position : N;
  sa_region_ends : list N;
  sa_regions : list RollingRegion;
  sa_current_region : nat;
}.

(** The body of [for index in 0..count]. *)
Definition region_step {S} `{Env S} (total_len : N) (config : FingerprintConfig)
    (st : list N * list RollingRegion) (index : nat) : M S (list N * list RollingRegion) :=
  let '(region_ends, regions) := st in
  index1 ← lift (ok_or IntegerOverflow (u64_try_from (N.of_nat index)));
  start ← lift (ok_or IntegerOverflow
    (value ← checked_mul total_len index1; checked_div value (subchunk_count config)));
  index2 ← lift (ok_or IntegerOverflow (u64_try_from (N.of_nat (index + 1))));
  end_ ← lift (ok_or IntegerOverflow
    (value ← checked_mul total_len index2; checked_div value (subchunk_count config)));
  (* [end - start] *)
  if end_ <? start then fail panic else
  region ← RollingRegion_new (end_ - start) (rolling_window config);
  mret (region_ends ++ [end_], regions ++ [region]).

Definition SuperfeatureAccumulator_new {S} `{Env S} (total_len : N) (config : FingerprintConfig) :
    M S SuperfeatureAccumulator :=
  let count := subchunk_count config in
  try_reserve count;;
  try_reserve count;;
  '(region_ends, regions) ← fold_m (region_step total_len config) ([], []) (seq 0 (N.to_nat count));
  mret {| sa_total_len := total_len; sa_position := 0; sa_region_ends := region_ends;
          sa_regions := regions; sa_current_region := 0 |}.

(** [while current_region < len && position >= region_ends[current_region]],
    with the number of regions as fuel. *)
Fixpoint advance_region (fuel : nat) (region_ends : list N) (position : N) (current_region : nat) : nat :=
  match fuel with
  | O => current_region
  | S fuel =>
      match region_ends !! current_region with
      | Some end_ =>
          if end_ <=? position then advance_region fuel region_ends position (current_region + 1)
          else current_region
      | None => current_region
      end
  end.

(** The body of [for &byte in bytes]. *)
Definition superfeature_step (self : SuperfeatureAccumulator) (b : byte) : Result SuperfeatureAccumulator :=
  let current_region := advance_region (length (sa_region_ends self)) (sa_region_ends self)
    (sa_position self) (sa_current_region self) in
  match sa_regions self !! current_region with
  | None => Err (InvalidMetadata "superfeature byte count")
  | Some region =>
      region ← RollingRegion_push region b;
      position ← ok_or IntegerOverflow (checked_add (sa_position self) 1);
      Ok {| sa_total_len := sa_total_len self; sa_position := position;
            sa_region_ends := sa_region_ends self;
            sa_regions := <[current_region := region]> (sa_regions self);
            sa_current_region := current_region |}
  end.

Definition SuperfeatureAccumulator_update (self : SuperfeatureAccumulator) (bytes : list byte) :
    Result SuperfeatureAccumulator := try_fold superfeature_step self bytes.

Section hashes.
Context `{Xxh3}.

Definition SuperfeatureAccumulator_finish (self : SuperfeatureAccumulator) (config : FingerprintConfig) :
    Result (list N) :=
  if negb (sa_position self =? sa_total_len self)
  then Err (InvalidMetadata "superfeature byte count") else
  if sa_total_len self =? 0 then Ok [] else
  let group_count := N.to_nat (superfeature_count config) in
  let regions := length (sa_regions self) in
  Ok (map (λ group,
      let start := (group * regions / group_count)%nat in
      let end_ := ((group + 1) * regions / group_count)%nat in
      xxh3_64 (concat (map (λ region, u64_le (rr_maximum region))
        (sub start (end_ - start) (sa_regions self))))) (seq 0 group_count)).
End hashes.

(** ** [FingerprintAccumulator]

    The hashers of XXH3 and BLAKE3 are represented by the bytes given. *)

Record FingerprintAccumulator := {
  fa_xxh3 : list byte;
  fa_blake3 : list byte;
  fa_crc32c : N;
  fa_superfeatures : SuperfeatureAccumulator;
  fa_bytes_seen : N;
}.

Definition FingerprintAccumulator_new {S} `{Env S} (expected : N) (config : FingerprintConfig) :
    M S FingerprintAccumulator :=
  superfeatures ← SuperfeatureAccumulator_new expected config;
  mret {| fa_xxh3 := []; fa_blake3 := []; fa_crc32c := 0; fa_superfeatures := superfeatures;
          fa_bytes_seen := 0 |}.

Definition FingerprintAccumulator_update `{Crc32c} (self : FingerprintAccumulator) (bytes : list byte) :
    Result FingerprintAccumulator :=
  superfeatures ← SuperfeatureAccumulator_update (fa_superfeatures self) bytes;
  n ← ok_or IntegerOverflow (u64_try_from (len bytes));
  bytes_seen ← ok_or IntegerOverflow (checked_add (fa_bytes_seen self) n);
  Ok {| fa_xxh3 := fa_xxh3 self ++ bytes; fa_blake3 := fa_blake3 self ++ bytes;
        fa_crc32c := crc32c_append (fa_crc32c self) bytes;
        fa_superfeatures := superfeatures; fa_bytes_seen := bytes_seen |}.

Definition FingerprintAccumulator_finish `{Xxh3} `{Blake3} (self : FingerprintAccumulator) (chunk_id : N)
    (config : FingerprintConfig) : Result ChunkFingerprint :=
  if negb (fa_bytes_seen self =? sa_total_len (fa_superfeatures self))
  then Err (InvalidMetadata "fingerprint byte count") else
  length ← ok_or IntegerOverflow (u32_try_from (fa_bytes_seen self));
  let full := blake3 (fa_blake3 self) in
  superfeatures ← SuperfeatureAccumulator_finish (fa_superfeatures self) config;
  Ok {| cf_chunk_id := chunk_id; cf_length := length; cf_xxh3 := xxh3_64 (fa_xxh3 self);
        cf_blake3_128 := take 16 full;
        cf_full_blake3 := if bool_decide (full_hash_policy config = Paranoid) then Some full else None;
        cf_crc32c := fa_crc32c self; cf_superfeatures := superfeatures |}.

(** ** The fingerprinters *)

Section fingerprinters.
Context {S : Type} `{Env S} `{FingerprintSizes} `{Xxh3} `{Blake3} `{Crc32c}.

Definition fingerprint_bytes (chunk_id : N) (data : list byte) (config : FingerprintConfig) :
    M S ChunkFingerprint :=
  lift (ensure_chunk_size (len data) config);;
  expected ← lift (u64_len data);
  accumulator ← FingerprintAccumulator_new expected config;
  accumulator ← fold_m (λ accumulator block,
      checkpoint;; lift (FingerprintAccumulator_update accumulator block)) accumulator (blocks data);
  lift (FingerprintAccumulator_finish accumulator chunk_id config).

(** [ChunkFingerprint::compute_with_config], which passes no checkpoint: the
    environment is one whose checkpoints succeed. *)
Definition ChunkFingerprint_compute_with_config (chunk_id : N) (data : list byte)
    (config : FingerprintConfig) : M S ChunkFingerprint :=
  lift (FingerprintConfig_validate config);;
  lift (ensure_single_request_limits (len data) config);;
  fingerprint_bytes chunk_id data config.

(** [ChunkFingerprint::escalate_full_blake3_with_checkpoint]. *)
Definition ChunkFingerprint_escalate (self : ChunkFingerprint) (data : list byte)
    (config : FingerprintConfig) : M S ChunkFingerprint :=
  lift (FingerprintConfig_validate config);;
  length ← lift (ok_or IntegerOverflow (u32_try_from (len data)));
  if negb (length =? cf_length self) then fail (InvalidMetadata "fingerprint chunk length") else
  lift (ensure_single_request_limits (len data) config);;
  '(xxh3, hasher, crc) ← fold_m (λ '(xxh3, hasher, crc) block,
      checkpoint;; mret (xxh3 ++ block, hasher ++ block, crc32c_append crc block))
    ([], [], 0) (blocks data);
  checkpoint;;
  let full := blake3 hasher in
  let compact := take 16 full in
  if negb (bool_decide (compact = cf_blake3_128 self)) || negb (xxh3_64 xxh3 =? cf_xxh3 self) ||
     negb (crc =? cf_crc32c self)
  then fail HashMismatch else
  mret {| cf_chunk_id := cf_chunk_id self; cf_length := cf_length self; cf_xxh3 := cf_xxh3 self;
          cf_blake3_128 := cf_blake3_128 self; cf_full_blake3 := Some full;
          cf_crc32c := cf_crc32c self; cf_superfeatures := cf_superfeatures self |}.

(** The body of [while remaining > 0] of the streaming fingerprinter. *)
Definition stream_step {R} `{Reader R} (st : FingerprintAccumulator * N * R) :
    M S (FingerprintAccumulator * N * R) :=
  let '(accumulator, remaining, reader) := st in
  checkpoint;;
  request ← lift (ok_or IntegerOverflow (usize_try_from (N.min remaining READ_BUFFER_BYTES)));
  match reader_read (N.to_nat request) reader with
  | (Ok [], _) => fail (InvalidMetadata "short fingerprint stream")
  | (Ok bytes, reader) =>
      accumulator ← lift (FingerprintAccumulator_update accumulator bytes);
      n ← lift (u64_len bytes);
      remaining ← lift (ok_or IntegerOverflow (checked_sub remaining n));
      mret (accumulator, remaining, reader)
  | (Err (Io Interrupted), reader) => mret (accumulator, remaining, reader)
  | (Err e, _) => fail e
  end.

(** The loop that looks for trailing data; the flag is the [break]. *)
Definition trailing_step {R} `{Reader R} (st : bool * R) : M S (bool * R) :=
  let '(_, reader) := st in
  checkpoint;;
  match reader_read 1 reader with
  | (Ok [], reader) => mret (true, reader)
  | (Ok _, _) => fail (InvalidMetadata "trailing fingerprint data")
  | (Err (Io Interrupted), reader) => mret (false, reader)
  | (Err e, _) => fail e
  end.

Definition fingerprint_reader_with_checkpoint {R} `{Reader R} (fuel : nat) (chunk : LogicalChunk)
    (reader : R) (config : FingerprintConfig) : M S ChunkFingerprint :=
  lift (FingerprintConfig_validate config);;
  let expected := lc_length chunk in
  lift (ensure_single_request_limits_u64 expected config);;
  accumulator ← FingerprintAccumulator_new expected config;
  '(accumulator, _, reader) ← while_m fuel (λ '(_, remaining, _), 0 <? remaining) stream_step
    (accumulator, expected, reader);
  _ ← while_m fuel (λ '(ended, _), negb ended) trailing_step (false, reader);
  lift (FingerprintAccumulator_finish accumulator (lc_chunk_id chunk) config).

(** ** Collisions of compact identities *)

Definition compare_candidates : (N * N * list byte) * N → (N * N * list byte) * N → comparison :=
  compare_pair (compare_pair (compare_pair N.compare N.compare) compare_bytes) N.compare.

(** Whether the inner [while] goes on: [candidates[end].0 == candidates[start].0]. *)
Definition same_key (candidates : list ((N * N * list byte) * N)) (start end_ : nat) : bool :=
  match candidates !! end_, candidates !! start with
  | Some a, Some b => bool_decide (a.1 = b.1)
  | _, _ => false
  end.

(** The body of [while start < candidates.len()]. *)
Definition run_step (candidates : list ((N * N * list byte) * N)) (st : nat * list bool) :
    M S (nat * list bool) :=
  let '(start, escalate) := st in
  checkpoint;;
  end_ ← while_m (length candidates)
    (λ end_, (end_ <? length candidates)%nat && same_key candidates start end_)
    (λ end_, checkpoint;; mret (end_ + 1)%nat) (start + 1)%nat;
  escalate ← (if (1 <? end_ - start)%nat then
      fold_m (λ escalate candidate, checkpoint;; assign escalate (N.to_nat candidate.2) true)
        escalate (sub start (end_ - start) candidates)
    else mret escalate);
  mret (end_, escalate).

Definition escalate_compact_collisions (fingerprints : list ChunkFingerprint)
    (inputs : list FingerprintInput) (config : FingerprintConfig) : M S (list ChunkFingerprint) :=
  try_reserve (len fingerprints);;
  candidates ← fold_m (λ candidates '(index, fingerprint),
      checkpoint;; mret (candidates ++ [(compact_key fingerprint, index)])) [] (enumerate fingerprints);
  candidates ← try_sort_by_checkpoint compare_candidates candidates;
  try_reserve (len fingerprints);;
  '(_, escalate) ← while_m (length candidates) (λ '(start, _), (start <? length candidates)%nat)
    (run_step candidates) (0%nat, replicate (length fingerprints) false);
  fold_m (λ done_ '(fingerprint, input, should_escalate),
      checkpoint;;
      fingerprint ← (if (should_escalate : bool)
        then ChunkFingerprint_escalate fingerprint (fi_data input) config
        else mret fingerprint);
      mret (done_ ++ [fingerprint])) [] (zip (zip fingerprints inputs) escalate).

(** ** [fingerprint_chunks_with_checkpoint] *)

Definition measure_step (config : FingerprintConfig) (st : N * N) (input : FingerprintInput) :
    M S (N * N) :=
  let '(total_bytes, largest_chunk) := st in
  checkpoint;;
  actual ← lift (u64_len (fi_data input));
  if negb (actual =? lc_length (fi_chunk input))
  then fail (InvalidMetadata "fingerprint chunk length") else
  lift (ensure_chunk_size_u64 actual config);;
  total_bytes ← lift (ok_or IntegerOverflow (checked_add total_bytes actual));
  if max_total_bytes config <? total_bytes then fail (ResourceLimit "fingerprint total bytes") else
  mret (total_bytes, N.max largest_chunk actual).

Context `{Rayon S}.

Definition compare_ids (left right : FingerprintInput) : comparison :=
  lc_chunk_id (fi_chunk left) ?= lc_chunk_id (fi_chunk right).

(** [rayon::ThreadPoolBuilder::new().num_threads(threads).build()]. *)
Definition build_pool (threads : N) : M S unit := λ s,
  match rayon_build threads s with
  | (true, s) => (Ok tt, s)
  | (false, s) => (Err (ResourceLimit "fingerprint parallelism"), s)
  end.

(** [pool.install(|| .. par_iter() .. for_each(..))], which fills the slots. *)
Definition fill_slots {A} (tasks : list (M S A)) : M S (list (Result A)) := λ s,
  let '(slots, s) := rayon_for_each A tasks s in (Ok slots, s).

(** The work on the chunks in the order of their identifiers. *)
Definition fingerprint_ordered (ordered : list FingerprintInput) (config : FingerprintConfig) :
    M S (list ChunkFingerprint) :=
  build_pool (N.max (N.min (parallelism config) (len ordered)) 1);;
  try_reserve (len ordered);;
  slots ← fill_slots (map (λ input,
      checkpoint;; fingerprint_bytes (lc_chunk_id (fi_chunk input)) (fi_data input) config) ordered);
  try_reserve (len slots);;
  fingerprints ← fold_m (λ fingerprints slot,
      checkpoint;; fingerprint ← lift slot; mret (fingerprints ++ [fingerprint])) [] slots;
  checkpoint;;
  if bool_decide (full_hash_policy config = Standard)
  then escalate_compact_collisions fingerprints ordered config else mret fingerprints.

(** The limits of the batch. *)
Definition check_inputs (inputs : list FingerprintInput) (config : FingerprintConfig) : M S unit :=
  lift (FingerprintConfig_validate config);;
  checkpoint;;
  count ← lift (u64_len inputs);
  if fp_max_chunks config <? count then fail (ResourceLimit "fingerprint chunk count") else
  '(_, largest_chunk) ← fold_m (measure_step config) (0, 0) inputs;
  lift (ensure_batch_memory_limits count largest_chunk config).

(** The chunks in the order of their identifiers, which must differ. *)
Definition order_inputs (inputs : list FingerprintInput) : M S (list FingerprintInput) :=
  try_reserve (len inputs);;
  ordered ← push_each id [] inputs;
  ordered ← try_sort_by_checkpoint compare_ids ordered;
  for_each (λ '(a, b), checkpoint;;
      if lc_chunk_id (fi_chunk a) =? lc_chunk_id (fi_chunk b)
      then fail (InvalidMetadata "duplicate fingerprint chunk ID") else mret tt) (windows2 ordered);;
  mret ordered.

Definition fingerprint_chunks_with_checkpoint (inputs : list FingerprintInput)
    (config : FingerprintConfig) : M S (list ChunkFingerprint) :=
  check_inputs inputs config;;
  if bool_decide (inputs = []) then mret [] else
  ordered ← order_inputs inputs;
  fingerprint_ordered ordered config.
End fingerprinters.
