(* ===== verification/Rolling.v ===== *)
(** * Rolling hashes and superfeatures

    The ring buffer of a region computes the maximum of a polynomial hash
    over all windows of the region, and the accumulator routes every byte to
    its region, however the data is cut into blocks. *)

From S2P Require Import Prelude Core Effects Runs Bytes Codecs Sorting Orders Chunking Fingerprint.

Abbreviation modulus := (2 ^ 64).

(** The polynomial of a window, over the integers. *)
Fixpoint polynomial (acc : N) (l : list byte) : N :=
  match l with
  | [] => acc
  | b :: l => polynomial (acc * ROLLING_BASE + (byte_val b + 1)) l
  end.

Definition window_hash (l : list byte) : N := polynomial 0 l mod modulus.

(** The windows of [w] bytes that end within [data], and the maximum of their
    hashes. *)
Definition window_hashes (w : nat) (data : list byte) : list N :=
  map (λ i, window_hash (sub i w data)) (seq 0 (length data + 1 - w)).
Definition region_maximum (configured : N) (data : list byte) : N :=
  let w := N.to_nat (N.min (len data) configured) in
  foldr N.max 0 (if (w =? 0)%nat then [] else window_hashes w data).

(** ** Arithmetic *)

Lemma polynomial_snoc acc l b :
  polynomial acc (l ++ [b]) = polynomial acc l * ROLLING_BASE + (byte_val b + 1).
Proof. revert acc; induction l as [|a l IH]; intros acc; [done|]. apply IH. Qed.

Lemma polynomial_acc acc l :
  polynomial acc l = acc * ROLLING_BASE ^ len l + polynomial 0 l.
Proof.
  revert acc; induction l as [|b l IH]; intros acc; cbn [polynomial]; [unfold len; cbn; lia|].
  rewrite IH, (IH (0 * _ + _)). rewrite len_cons, N.pow_add_r, N.pow_1_r. lia.
Qed.

Lemma wrapping_add_mod a b : wrapping_add (a mod modulus) b = (a + b) mod modulus.
Proof. unfold wrapping_add. by rewrite N.Div0.add_mod_idemp_l. Qed.

Lemma wrapping_mul_mod a b : wrapping_mul (a mod modulus) b = (a * b) mod modulus.
Proof. unfold wrapping_mul. by rewrite N.Div0.mul_mod_idemp_l. Qed.

Lemma wrapping_mul_mod_r a b : wrapping_mul a (b mod modulus) = (a * b) mod modulus.
Proof. unfold wrapping_mul. by rewrite N.Div0.mul_mod_idemp_r. Qed.

Lemma wrapping_sub_add a b : wrapping_sub ((a + b) mod modulus) (a mod modulus) = b mod modulus.
Proof.
  unfold wrapping_sub. rewrite N.Div0.mod_mod. rewrite N.Div0.add_mod_idemp_l.
  assert (a mod modulus < modulus) by (apply N.mod_lt; lia).
  pose proof (N.div_mod' a modulus) as Ha.
  replace (a + b + (modulus - a mod modulus)) with (b + (a / modulus + 1) * modulus) by lia.
  by rewrite N.Div0.mod_add.
Qed.

Lemma base_power_iter n :
  Nat.iter n (λ p, wrapping_mul p ROLLING_BASE) 1 = (ROLLING_BASE ^ N.of_nat n) mod modulus.
Proof.
  induction n as [|n IH]; [done|]. cbn [Nat.iter nat_rect]. unfold Nat.iter in IH. rewrite IH.
  rewrite wrapping_mul_mod. f_equal. rewrite Nat2N.inj_succ, N.pow_succ_r'. lia.
Qed.

(** The window moves by one byte. *)
Lemma window_hash_slide a l b :
  wrapping_sub
    (wrapping_add (wrapping_mul (window_hash (a :: l)) ROLLING_BASE) (byte_val b + 1))
    (wrapping_mul (byte_val a + 1) ((ROLLING_BASE ^ (1 + len l)) mod modulus)) =
  window_hash (l ++ [b]).
Proof.
  unfold window_hash. rewrite wrapping_mul_mod, wrapping_add_mod, wrapping_mul_mod_r, polynomial_snoc.
  cbn [polynomial]. rewrite polynomial_acc, N.pow_add_r, N.pow_1_r.
  replace (((0 * ROLLING_BASE + (byte_val a + 1)) * ROLLING_BASE ^ len l + polynomial 0 l) * ROLLING_BASE + (byte_val b + 1))
    with ((byte_val a + 1) * (ROLLING_BASE * ROLLING_BASE ^ len l) + (polynomial 0 l * ROLLING_BASE + (byte_val b + 1))) by lia.
  apply wrapping_sub_add.
Qed.

Lemma window_hash_grow l b :
  wrapping_add (wrapping_mul (window_hash l) ROLLING_BASE) (byte_val b + 1) = window_hash (l ++ [b]).
Proof. unfold window_hash. by rewrite wrapping_mul_mod, wrapping_add_mod, polynomial_snoc. Qed.

(** ** A region *)

Definition last_window (w : nat) (p : list byte) : list byte := drop (length p - w) p.

Record region_inv (w : nat) (expected : N) (r : RollingRegion) (p : list byte) : Prop := {
  ri_window : rr_window r = N.of_nat w;
  ri_expected : rr_expected r = expected;
  ri_seen : rr_bytes_seen r = len p;
  ri_bound : len p <= expected;
  ri_empty : w = 0%nat → expected = 0;
  ri_power : rr_base_power r = (ROLLING_BASE ^ N.of_nat w) mod modulus;
  ri_filling : (length p < w)%nat ∨ w = 0%nat →
    rr_ring r = p ∧ rr_cursor r = 0 ∧ rr_hash r = window_hash p ∧ rr_maximum r = 0;
  ri_full : (0 < w <= length p)%nat →
    length (rr_ring r) = w ∧ rr_cursor r < N.of_nat w ∧
    drop (N.to_nat (rr_cursor r)) (rr_ring r) ++ take (N.to_nat (rr_cursor r)) (rr_ring r) = last_window w p ∧
    rr_hash r = window_hash (last_window w p) ∧
    rr_maximum r = foldr N.max 0 (window_hashes w p);
}.

Lemma foldr_max_snoc l x : foldr N.max 0 (l ++ [x]) = N.max (foldr N.max 0 l) x.
Proof. induction l as [|y l IH]; cbn; [lia|]. rewrite IH. lia. Qed.

Lemma sub_app_l {A} i w (p q : list A) : (i + w <= length p)%nat → sub i w (p ++ q) = sub i w p.
Proof.
  intros Hi. unfold sub. rewrite drop_app_le by lia. rewrite take_app_le; [done|]. rewrite length_drop. lia.
Qed.

Lemma window_hashes_snoc w p b :
  (0 < w)%nat → (w <= length p + 1)%nat →
  window_hashes w (p ++ [b]) = window_hashes w p ++ [window_hash (last_window w (p ++ [b]))].
Proof.
  intros Hw Hl. unfold window_hashes. rewrite length_app. cbn [length].
  replace (length p + 1 + 1 - w)%nat with (S (length p + 1 - w)) by lia. rewrite seq_S, map_app. f_equal.
  - apply map_ext_in. intros i Hi%in_seq. by rewrite sub_app_l by lia.
  - cbn [map]. f_equal. f_equal. unfold sub, last_window. rewrite length_app. cbn [length plus].
    replace (length p + 1 - w)%nat with (length p + 1 - w)%nat by lia.
    rewrite take_ge; [done|]. rewrite length_drop, length_app. cbn. lia.
Qed.

Lemma last_window_full w p b : length p = w → last_window w p = p ∧ last_window (S w) (p ++ [b]) = p ++ [b].
Proof.
  intros <-. unfold last_window. split; [by rewrite Nat.sub_diag|].
  rewrite length_app. cbn. by replace (length p + 1 - S (length p))%nat with 0%nat by lia.
Qed.

(** A window loses its first byte and gains [b]. *)
Lemma last_window_slide w p b a l :
  (w <= length p)%nat → last_window w p = a :: l → last_window w (p ++ [b]) = l ++ [b].
Proof.
  unfold last_window. intros Hw Hl. rewrite length_app. cbn [length].
  assert (0 < w)%nat as Hpos.
  { apply (f_equal length) in Hl. rewrite length_drop in Hl. cbn in Hl. lia. }
  replace (length p + 1 - w)%nat with (S (length p - w)) by lia.
  rewrite drop_app_le by lia. f_equal.
  replace (S (length p - w)) with (length p - w + 1)%nat by lia. rewrite <-drop_drop, Hl. done.
Qed.

(** Replacing the oldest byte of a ring rotates the window. *)
Lemma ring_slide (ring : list byte) c a b l :
  (c < length ring)%nat → drop c ring ++ take c ring = a :: l →
  ring !! c = Some a ∧
  let c' := ((c + 1) mod length ring)%nat in
  drop c' (<[c := b]> ring) ++ take c' (<[c := b]> ring) = l ++ [b].
Proof.
  intros Hc Hrot. destruct (lookup_lt_is_Some_2 ring c Hc) as [x Hx].
  rewrite (drop_S ring x c Hx) in Hrot. cbn in Hrot. injection Hrot as -> Hrot. split; [done|]. cbn zeta.
  destruct (decide (c + 1 = length ring)%nat) as [He|Hne].
  - rewrite He, Nat.Div0.mod_same, drop_0, take_0, app_nil_r.
    rewrite drop_ge in Hrot by lia. cbn in Hrot. subst l.
    rewrite insert_take_drop by done. rewrite drop_ge by lia. done.
  - rewrite Nat.mod_small by lia. rewrite drop_insert_lt by lia.
    replace (c + 1)%nat with (S c) by lia. rewrite <-Hrot, <-app_assoc. f_equal.
    erewrite take_S_r by (apply list_lookup_insert_eq; lia). by rewrite take_insert_ge by lia.
Qed.

Lemma region_push w expected r p b :
  region_inv w expected r p → len p < expected → expected <= u64_MAX →
  ∃ r', RollingRegion_push r b = Ok r' ∧ region_inv w expected r' (p ++ [b]).
Proof.
  intros [Hw He Hs Hb H0 Hp Hfill Hfull] Hlt Hu. unfold RollingRegion_push. rewrite He, Hs, Hw.
  assert (0 < w)%nat as Hw0 by (destruct w; [specialize (H0 eq_refl); lia|lia]).
  rewrite (proj2 (N.leb_gt _ _)) by done. rewrite (proj2 (N.eqb_neq _ _)) by lia. cbn [orb].
  rewrite checked_add_ok by lia.
  destruct (decide (length p < w)%nat) as [Hlen|Hlen].
  - destruct Hfill as (-> & Hc & Hh & Hm); [by left|]. unfold len in *.
    rewrite (proj2 (N.ltb_lt _ _)) by lia. rewrite Ok_bind. cbn [ok_or]. rewrite Ok_bind. eexists. split; [reflexivity|].
    rewrite Hh, window_hash_grow, length_app. cbn [length].
    split; cbn; rewrite ?len_app; unfold len in *; try done; rewrite ?length_app; cbn [length]; try lia.
    + intros [Hl|]; [|lia]. rewrite (proj2 (N.eqb_neq _ _)) by lia. by rewrite Hc, Hm.
    + intros [_ Hl]. assert (length p + 1 = w)%nat as Hl' by lia. rewrite (proj2 (N.eqb_eq _ _)) by lia.
      rewrite Hc. cbn. rewrite drop_0, app_nil_r. unfold last_window. rewrite length_app. cbn [length].
      rewrite Hl', Nat.sub_diag, drop_0. split; [done|]. split; [lia|]. split; [done|]. split; [done|].
      unfold window_hashes. rewrite length_app. cbn [length]. replace (length p + 1 + 1 - w)%nat with 1%nat by lia.
      cbn. rewrite N.max_0_r. unfold sub. rewrite drop_0, take_ge; [done|]. rewrite length_app. cbn. lia.
  - destruct Hfull as (Hr & Hc & Hrot & Hh & Hm); [lia|]. unfold len in *. rewrite Hr.
    rewrite (proj2 (N.ltb_ge _ _)) by lia.
    destruct (last_window w p) as [|a l] eqn:Hlast.
    { apply (f_equal length) in Hlast. unfold last_window in Hlast. rewrite length_drop in Hlast. cbn in Hlast. lia. }
    destruct (ring_slide (rr_ring r) (N.to_nat (rr_cursor r)) a b l) as [Hx Hrot']; [lia|done|]. rewrite Hx.
    cbn [ok_or]. rewrite !Ok_bind. eexists. split; [reflexivity|].
    assert (length l + 1 = w)%nat as Hl.
    { apply (f_equal length) in Hlast. unfold last_window in Hlast. rewrite length_drop in Hlast. cbn in Hlast. lia. }
    assert (N.of_nat w = 1 + len l) as Hwl by (unfold len; lia).
    rewrite Hwl in Hp. rewrite Hp, Hh, window_hash_slide.
    pose proof (last_window_slide w p b a l) as Hslide. rewrite Hlast in Hslide.
    split; cbn [rr_window rr_expected rr_bytes_seen rr_base_power rr_ring rr_cursor rr_hash rr_maximum];
      rewrite ?length_app; cbn [length]; try done; try lia.
    { rewrite len_app. unfold len. cbn. lia. }
    { rewrite len_app. unfold len. cbn. lia. }
    { by rewrite Hwl. }
    intros _. rewrite length_insert, Hr, window_hashes_snoc, foldr_max_snoc, Hm, Hslide by (done || lia).
    split; [done|]. split; [apply N.mod_lt; lia|]. split; [|done].
    rewrite Hr in Hrot'. replace (N.to_nat ((rr_cursor r + 1) mod N.of_nat w)) with ((N.to_nat (rr_cursor r) + 1) mod w)%nat; [done|].
    rewrite N2Nat.inj_mod, N2Nat.inj_add, Nat2N.id. done.
Qed.

Lemma region_done w configured r p :
  region_inv w (len p) r p → w = N.to_nat (N.min (len p) configured) → rr_maximum r = region_maximum configured p.
Proof.
  intros [_ _ _ _ _ _ Hfill Hfull] Hw. unfold region_maximum. rewrite <-Hw.
  destruct (Nat.eqb_spec w 0) as [->|Hne]; [apply Hfill; by right|]. apply Hfull. unfold len in Hw. lia.
Qed.

(** ** The regions of a chunk *)

(** Where region [i] of a chunk starts. *)
Definition region_start (config : FingerprintConfig) (total : N) (i : nat) : N :=
  total * N.of_nat i / subchunk_count config.
Definition region_len (config : FingerprintConfig) (total : N) (i : nat) : N :=
  region_start config total (i + 1) - region_start config total i.
Definition region_data (config : FingerprintConfig) (total : N) (i : nat) (p : list byte) : list byte :=
  sub (N.to_nat (region_start config total i)) (N.to_nat (region_len config total i)) p.
Definition region_window (config : FingerprintConfig) (total : N) (i : nat) : nat :=
  N.to_nat (N.min (region_len config total i) (rolling_window config)).

Section superfeatures.
Context (config : FingerprintConfig) (total : N).
Context (Hvalid : FingerprintConfig_validate config = Ok tt).
Context (Htotal : total <= max_chunk_bytes config).

Lemma config_bounds :
  4 <= subchunk_count config <= 64 ∧ (superfeature_count config = 3 ∨ superfeature_count config = 4) ∧
  1 <= rolling_window config <= 4096 ∧ total <= 4 * MIB.
Proof.
  unfold FingerprintConfig_validate, in_range in Hvalid. invres.
  repeat match goal with H : (_ || _)%bool = true |- _ => apply orb_true_iff in H end.
  repeat split; try lia.
  match goal with H : _ ∨ _ |- _ => destruct H as [H|H]; apply N.eqb_eq in H end; tauto.
Qed.

Lemma region_start_mono i j : (i <= j)%nat → region_start config total i <= region_start config total j.
Proof. intros. unfold region_start. destruct config_bounds as (? & _). apply N.Div0.div_le_mono. nia. Qed.

Lemma region_start_end : region_start config total (N.to_nat (subchunk_count config)) = total.
Proof. unfold region_start. destruct config_bounds as (? & _). rewrite N2Nat.id. apply N.div_mul. lia. Qed.

Lemma region_start_0 : region_start config total 0 = 0.
Proof. unfold region_start. rewrite N.mul_0_r. apply N.Div0.div_0_l. Qed.

Record accumulator_inv (a : SuperfeatureAccumulator) (p : list byte) : Prop := {
  ai_total : sa_total_len a = total;
  ai_position : sa_position a = len p;
  ai_bound : len p <= total;
  ai_ends : sa_region_ends a =
    map (λ i, region_start config total (i + 1)) (seq 0 (N.to_nat (subchunk_count config)));
  ai_length : length (sa_regions a) = N.to_nat (subchunk_count config);
  ai_regions : ∀ i r, sa_regions a !! i = Some r →
    region_inv (region_window config total i) (region_len config total i) r (region_data config total i p);
  ai_current : ∀ j, (j < sa_current_region a)%nat → region_start config total (j + 1) <= len p;
  ai_current_le : (sa_current_region a <= N.to_nat (subchunk_count config))%nat;
}.

Lemma region_new_run expected configured :
  expected <= u64_MAX →
  run_calm (RollingRegion_new expected configured) = Ok {|
    rr_window := N.min expected configured; rr_ring := []; rr_cursor := 0; rr_hash := 0;
    rr_base_power := (ROLLING_BASE ^ N.min expected configured) mod modulus; rr_maximum := 0;
    rr_bytes_seen := 0; rr_expected := expected |}.
Proof.
  intros. unfold RollingRegion_new. calm_run. by rewrite base_power_iter, N2Nat.id.
Qed.

Lemma region_new_inv i :
  region_inv (region_window config total i) (region_len config total i) {|
    rr_window := N.min (region_len config total i) (rolling_window config); rr_ring := []; rr_cursor := 0;
    rr_hash := 0;
    rr_base_power := (ROLLING_BASE ^ N.min (region_len config total i) (rolling_window config)) mod modulus;
    rr_maximum := 0; rr_bytes_seen := 0; rr_expected := region_len config total i |} [].
Proof.
  destruct config_bounds as (_ & _ & ? & _). unfold region_window.
  split; cbn; rewrite ?len_nil, ?N2Nat.id; try done; intros; try lia.
Qed.

Lemma region_step_run ends regions i :
  (i < N.to_nat (subchunk_count config))%nat →
  run_calm (region_step total config (ends, regions) i) = Ok
    (ends ++ [region_start config total (i + 1)], regions ++ [{|
      rr_window := N.min (region_len config total i) (rolling_window config); rr_ring := []; rr_cursor := 0;
      rr_hash := 0;
      rr_base_power := (ROLLING_BASE ^ N.min (region_len config total i) (rolling_window config)) mod modulus;
      rr_maximum := 0; rr_bytes_seen := 0; rr_expected := region_len config total i |}]).
Proof.
  intros Hi. destruct config_bounds as (Hc & _ & _ & Ht). unfold MIB, KIB in Ht.
  assert (∀ k, (k <= N.to_nat (subchunk_count config))%nat → total * N.of_nat k <= u64_MAX) as Hmul by (intros; nia).
  assert (∀ k, (k <= N.to_nat (subchunk_count config))%nat →
    (value ← checked_mul total (N.of_nat k); checked_div value (subchunk_count config)) =
    Some (region_start config total k)) as Hdiv.
  { intros k Hk. rewrite checked_mul_ok by auto. cbn [mbind option_bind]. unfold checked_div.
    by rewrite (proj2 (N.eqb_neq _ _)) by lia. }
  unfold region_step. lift_step (u64_try_from_ok (N.of_nat i)). lift_step Hdiv.
  lift_step (u64_try_from_ok (N.of_nat (i + 1))). lift_step Hdiv.
  rewrite run_calm_if, (proj2 (N.ltb_ge _ _)) by (apply region_start_mono; lia).
  fold (region_len config total i). rewrite run_calm_bind, region_new_run, Ok_bind; [done|].
  pose proof (region_start_mono (i + 1) (N.to_nat (subchunk_count config))) as Hle.
  rewrite region_start_end in Hle. unfold region_len. lia.
Qed.

Lemma accumulator_new_run :
  ∃ a, run_calm (SuperfeatureAccumulator_new total config) = Ok a ∧ accumulator_inv a [].
Proof.
  unfold SuperfeatureAccumulator_new. rewrite run_calm_bind, run_calm_reserve, Ok_bind.
  rewrite run_calm_bind, run_calm_reserve, Ok_bind.
  set (count := N.to_nat (subchunk_count config)).
  assert (∀ n, (n <= count)%nat → ∃ regions,
    run_calm (fold_m (region_step total config) ([], []) (seq 0 n)) =
      Ok (map (λ i, region_start config total (i + 1)) (seq 0 n), regions) ∧
    length regions = n ∧ ∀ i r, regions !! i = Some r →
      region_inv (region_window config total i) (region_len config total i) r []) as Hloop.
  { induction n as [|n IH]; intros Hn; [by exists []|]. destruct IH as (regions & Hr & Hl & Hinv); [lia|].
    eexists. rewrite seq_S. rewrite run_calm_fold in Hr |- *. rewrite try_fold_app, Hr, Ok_bind. cbn [try_fold plus].
    rewrite region_step_run by lia. rewrite Ok_bind, map_app. split; [reflexivity|].
    rewrite length_app, Hl. cbn. split; [lia|]. intros i r Hi. apply lookup_app_Some in Hi as [Hi|[Hle Hi]].
    { by apply Hinv. }
    apply list_lookup_singleton_Some in Hi as [Hi <-]. replace i with n by lia. apply region_new_inv. }
  destruct (Hloop count) as (regions & Hr & Hl & Hinv); [done|]. rewrite run_calm_bind, Hr, Ok_bind, run_calm_ret.
  eexists. split; [reflexivity|]. split; cbn; rewrite ?len_nil; try done; try lia.
  intros i r Hi. unfold region_data, sub. rewrite drop_nil, take_nil. by apply Hinv.
Qed.

(** The region of the next byte. *)
Lemma advance_spec fuel ends p c :
  ends = map (λ i, region_start config total (i + 1)) (seq 0 (N.to_nat (subchunk_count config))) →
  (c <= N.to_nat (subchunk_count config))%nat → p < total →
  (N.to_nat (subchunk_count config) - c <= fuel)%nat →
  (∀ j, (j < c)%nat → region_start config total (j + 1) <= p) →
  let i := advance_region fuel ends p c in
  (i < N.to_nat (subchunk_count config))%nat ∧ region_start config total i <= p < region_start config total (i + 1) ∧
  ∀ j, (j < i)%nat → region_start config total (j + 1) <= p.
Proof.
  intros -> Hc Hp. revert c Hc; induction fuel as [|fuel IH]; intros c Hc Hf Hlow; cbn zeta; cbn [advance_region].
  { exfalso. destruct config_bounds as (? & _). specialize (Hlow (c - 1)%nat).
    replace (c - 1 + 1)%nat with (N.to_nat (subchunk_count config)) in Hlow by lia. rewrite region_start_end in Hlow.
    specialize (Hlow ltac:(lia)). lia. }
  rewrite list_lookup_fmap.
  destruct (decide (c < N.to_nat (subchunk_count config))%nat) as [Hlt|Hge].
  - rewrite lookup_seq_lt by done. cbn [fmap option_fmap option_map plus].
    destruct (N.leb_spec (region_start config total (c + 1)) p) as [Hle|Hgt].
    + apply IH; [lia|lia|]. intros j Hj. destruct (decide (j = c)) as [->|]; [done|]. apply Hlow. lia.
    + split; [done|]. split; [|done]. split; [|done].
      destruct c as [|c]; [rewrite region_start_0; lia|]. specialize (Hlow c). rewrite Nat.add_1_r in Hlow. apply Hlow. lia.
  - exfalso. destruct config_bounds as (? & _). specialize (Hlow (c - 1)%nat).
    replace (c - 1 + 1)%nat with (N.to_nat (subchunk_count config)) in Hlow by lia. rewrite region_start_end in Hlow.
    specialize (Hlow ltac:(lia)). lia.
Qed.

(** Other regions do not see the byte. *)
Lemma region_data_other i k p b :
  region_start config total i <= len p < region_start config total (i + 1) → k ≠ i →
  region_data config total k (p ++ [b]) = region_data config total k p.
Proof.
  intros Hi Hk. unfold region_data, sub. set (s := N.to_nat (region_start config total k)).
  destruct (decide (k < i)%nat).
  - assert (region_start config total (k + 1) <= region_start config total i) by (apply region_start_mono; lia).
    assert (region_start config total k <= region_start config total (k + 1)) by (apply region_start_mono; lia).
    unfold len, region_len in *. rewrite drop_app_le by lia. rewrite take_app_le; [done|]. rewrite length_drop. lia.
  - assert (region_start config total (i + 1) <= region_start config total k) by (apply region_start_mono; lia).
    unfold len in *. rewrite !drop_ge; [done|lia|rewrite length_app; cbn; lia].
Qed.

Lemma region_data_next i p b :
  region_start config total i <= len p < region_start config total (i + 1) →
  region_data config total i (p ++ [b]) = region_data config total i p ++ [b] ∧
  len (region_data config total i p) < region_len config total i.
Proof.
  intros Hi. unfold region_data, sub, region_len, len in *. set (s := N.to_nat (region_start config total i)).
  rewrite drop_app_le by lia. rewrite !take_ge by (rewrite ?length_app, ?length_drop; cbn; lia).
  split; [done|]. rewrite length_drop. lia.
Qed.

Lemma superfeature_push a p b :
  accumulator_inv a p → len p < total →
  ∃ a', superfeature_step a b = Ok a' ∧ accumulator_inv a' (p ++ [b]).
Proof.
  intros [Ht Hpos Hb He Hl Hr Hcur Hcl] Hlt. unfold superfeature_step.
  destruct config_bounds as (Hc & _ & _ & Htot). unfold MIB, KIB in Htot.
  pose proof (advance_spec (length (sa_region_ends a)) (sa_region_ends a) (sa_position a) (sa_current_region a) He Hcl)
    as Hadv. rewrite Hpos in Hadv |- *. cbn zeta in Hadv.
  destruct Hadv as (Hi & Hrange & Hlow); [done|rewrite He, length_map, length_seq; lia|done|].
  set (i := advance_region _ _ _ _) in *.
  destruct (lookup_lt_is_Some_2 (sa_regions a) i) as [r Hri]; [lia|]. rewrite Hri.
  destruct (region_data_next i p b Hrange) as [Hnext Hroom].
  destruct (region_push _ _ r _ b (Hr i r Hri) Hroom) as (r' & Hpush & Hinv').
  { pose proof (region_start_mono (i + 1) (N.to_nat (subchunk_count config))) as Hle.
    rewrite region_start_end in Hle. unfold region_len. lia. }
  rewrite Hpush, Ok_bind, checked_add_ok by lia. cbn [ok_or]. rewrite Ok_bind. eexists. split; [reflexivity|].
  assert (len (p ++ [b]) = len p + 1) as Hlen by by rewrite len_app.
  split; cbn; rewrite ?Hlen; try done; try lia.
  - by rewrite length_insert.
  - intros k q Hk. apply list_lookup_insert_Some in Hk as [(-> & <- & _)|[Hne Hk]]; [by rewrite Hnext|].
    rewrite (region_data_other i) by done. by apply Hr.
  - intros j Hj. specialize (Hlow j Hj). lia.
Qed.

Lemma superfeature_update a p bytes :
  accumulator_inv a p → len p + len bytes <= total →
  ∃ a', SuperfeatureAccumulator_update a bytes = Ok a' ∧ accumulator_inv a' (p ++ bytes).
Proof.
  unfold SuperfeatureAccumulator_update. revert a p; induction bytes as [|b bytes IH]; intros a p Ha Hl; cbn [try_fold].
  { exists a. by rewrite app_nil_r. }
  rewrite len_cons in Hl. destruct (superfeature_push a p b Ha) as (a1 & -> & Ha1); [lia|]. rewrite Ok_bind.
  destruct (IH a1 (p ++ [b]) Ha1) as (a2 & -> & Ha2); [rewrite len_app, len_cons, len_nil; lia|].
  exists a2. by rewrite <-app_assoc in Ha2.
Qed.
End superfeatures.

(** ** The fingerprint of a chunk *)

Section fingerprint_of.
Context `{Xxh3} `{Blake3} `{Crc32c}.

Definition region_maxima (config : FingerprintConfig) (data : list byte) : list N :=
  map (λ i, region_maximum (rolling_window config) (region_data config (len data) i data))
    (seq 0 (N.to_nat (subchunk_count config))).

Definition superfeatures_of (config : FingerprintConfig) (data : list byte) : list N :=
  let group_count := N.to_nat (superfeature_count config) in
  let regions := N.to_nat (subchunk_count config) in
  if len data =? 0 then [] else
  map (λ group,
    let start := (group * regions / group_count)%nat in
    let end_ := ((group + 1) * regions / group_count)%nat in
    xxh3_64 (concat (map u64_le (sub start (end_ - start) (region_maxima config data)))))
    (seq 0 group_count).

Definition fingerprint_of (config : FingerprintConfig) (chunk_id : N) (data : list byte) : ChunkFingerprint := {|
  cf_chunk_id := chunk_id; cf_length := len data; cf_xxh3 := xxh3_64 data;
  cf_blake3_128 := take 16 (blake3 data);
  cf_full_blake3 := if bool_decide (full_hash_policy config = Paranoid) then Some (blake3 data) else None;
  cf_crc32c := crc32c data; cf_superfeatures := superfeatures_of config data |}.

Lemma sub_map {A B} (f : A → B) i n l : map f (sub i n l) = sub i n (map f l).
Proof. unfold sub. by rewrite <-firstn_map, <-skipn_map. Qed.

Section accumulator.
Context (config : FingerprintConfig) (Hvalid : FingerprintConfig_validate config = Ok tt) `{!Crc32cLaws}.

Lemma maxima_of a data :
  len data <= max_chunk_bytes config → accumulator_inv config (len data) a data →
  map rr_maximum (sa_regions a) = region_maxima config data.
Proof.
  intros Ht [_ _ _ _ Hl Hr _ _]. unfold region_maxima. apply list_eq. intros i.
  change (map rr_maximum (sa_regions a)) with (rr_maximum <$> sa_regions a).
  rewrite list_lookup_fmap. change (map ?f ?l) with (f <$> l). rewrite list_lookup_fmap.
  destruct (sa_regions a !! i) as [r|] eqn:Hi.
  - assert (i < N.to_nat (subchunk_count config))%nat as Hlt by (rewrite <-Hl; by eapply lookup_lt_Some).
    rewrite lookup_seq_lt by done. cbn [fmap option_fmap option_map plus]. f_equal.
    specialize (Hr i r Hi).
    assert (len (region_data config (len data) i data) = region_len config (len data) i) as Hlen.
    { pose proof (region_start_mono config (len data) Hvalid Ht (i + 1) (N.to_nat (subchunk_count config))) as Hm1.
      rewrite (region_start_end config (len data) Hvalid Ht) in Hm1.
      pose proof (region_start_mono config (len data) Hvalid Ht i (i + 1)) as Hm2.
      unfold region_data, region_len, len in *. rewrite length_sub; lia. }
    rewrite <-Hlen in Hr. eapply region_done; [exact Hr|]. unfold region_window. by rewrite Hlen.
  - rewrite lookup_seq_ge; [done|]. rewrite <-Hl. by apply lookup_ge_None.
Qed.

Lemma superfeature_finish a data :
  len data <= max_chunk_bytes config → accumulator_inv config (len data) a data →
  SuperfeatureAccumulator_finish a config = Ok (superfeatures_of config data).
Proof.
  intros Ht Ha. pose proof (maxima_of a data Ht Ha) as Hm. destruct Ha as [Htot Hpos _ _ Hl _ _ _].
  unfold SuperfeatureAccumulator_finish, superfeatures_of. rewrite Htot, Hpos, N.eqb_refl, Hl. cbn [negb].
  destruct (len data =? 0); [done|]. f_equal. apply map_ext. intros group. cbn zeta. do 2 f_equal.
  rewrite <-Hm, <-sub_map, map_map. done.
Qed.

(** What an accumulator has seen. *)
Record seen (total : N) (a : FingerprintAccumulator) (p : list byte) : Prop := {
  se_xxh3 : fa_xxh3 a = p;
  se_blake3 : fa_blake3 a = p;
  se_crc : fa_crc32c a = crc32c p;
  se_bytes : fa_bytes_seen a = len p;
  se_super : accumulator_inv config total (fa_superfeatures a) p;
}.

Lemma seen_new total :
  total <= max_chunk_bytes config →
  ∃ a, run_calm (FingerprintAccumulator_new total config) = Ok a ∧ seen total a [].
Proof.
  intros Ht. destruct (accumulator_new_run config total Hvalid Ht) as (s & Hs & Hinv).
  unfold FingerprintAccumulator_new. rewrite run_calm_bind, Hs, Ok_bind, run_calm_ret.
  eexists. split; [reflexivity|]. split; try done. cbn. unfold crc32c. by rewrite crc32c_append_nil by done.
Qed.

Lemma seen_update total a p bytes :
  total <= max_chunk_bytes config → seen total a p → len p + len bytes <= total →
  ∃ a', FingerprintAccumulator_update a bytes = Ok a' ∧ seen total a' (p ++ bytes).
Proof.
  intros Ht [Hx Hb Hc Hn Hs] Hl. destruct (config_bounds config total Hvalid Ht) as (_ & _ & _ & Hmib).
  unfold MIB, KIB in Hmib.
  destruct (superfeature_update config total Hvalid Ht _ p bytes Hs Hl) as (s & Hu & Hs').
  unfold FingerprintAccumulator_update. rewrite Hu, Ok_bind, u64_try_from_ok by lia. cbn [ok_or].
  rewrite Ok_bind, Hn, checked_add_ok by lia. cbn [ok_or]. rewrite Ok_bind. eexists. split; [reflexivity|].
  split; cbn; rewrite ?Hx, ?Hb, ?Hc, ?len_app; try done. unfold crc32c. by rewrite crc32c_append_app by done.
Qed.

Lemma seen_finish a data chunk_id :
  len data <= max_chunk_bytes config → seen (len data) a data →
  FingerprintAccumulator_finish a chunk_id config = Ok (fingerprint_of config chunk_id data).
Proof.
  intros Ht [Hx Hb Hc Hn Hs]. destruct (config_bounds config (len data) Hvalid Ht) as (_ & _ & _ & Hmib).
  unfold MIB, KIB in Hmib. unfold FingerprintAccumulator_finish.
  rewrite (ai_total _ _ _ _ Hs), Hn, N.eqb_refl. cbn [negb]. rewrite u32_try_from_ok by lia. cbn [ok_or].
  rewrite Ok_bind, (superfeature_finish _ data Ht Hs), Ok_bind, Hx, Hb, Hc. done.
Qed.

Lemma concat_blocks data : concat (blocks data) = data.
Proof.
  unfold blocks. assert (∀ fuel n (l : list byte), (0 < n)%nat → (length l <= fuel)%nat →
    concat (blocks_fuel fuel n l) = l) as Hb; [|apply Hb; [unfold READ_BUFFER_BYTES; lia|done]].
  induction fuel as [|fuel IH]; intros n [|b l] Hn Hl; cbn in Hl; try done; [lia|].
  cbn [blocks_fuel concat]. rewrite IH; [apply take_drop|done|]. rewrite length_drop. cbn. lia.
Qed.

Lemma blocks_update total a p ls :
  total <= max_chunk_bytes config → seen total a p → len p + len (concat ls) <= total →
  ∃ a', run_calm (fold_m (λ accumulator block,
      checkpoint;; lift (FingerprintAccumulator_update accumulator block)) a ls) = Ok a' ∧
    seen total a' (p ++ concat ls).
Proof.
  intros Ht. revert a p; induction ls as [|l ls IH]; intros a p Ha Hl; cbn [fold_m concat].
  { exists a. by rewrite app_nil_r. }
  cbn [concat] in Hl. rewrite len_app in Hl.
  destruct (seen_update total a p l Ht Ha) as (a1 & Hu & Ha1); [lia|].
  destruct (IH a1 (p ++ l) Ha1) as (a2 & Hr & Ha2); [rewrite len_app; lia|].
  exists a2. rewrite run_calm_bind, run_calm_bind, run_calm_checkpoint, Ok_bind, run_calm_lift, Hu, Ok_bind, Hr.
  by rewrite <-app_assoc in Ha2.
Qed.

Lemma fingerprint_bytes_run chunk_id data :
  len data <= max_chunk_bytes config →
  run_calm (fingerprint_bytes chunk_id data config) = Ok (fingerprint_of config chunk_id data).
Proof.
  intros Ht. destruct (config_bounds config (len data) Hvalid Ht) as (_ & _ & _ & Hmib). unfold MIB, KIB in Hmib.
  unfold fingerprint_bytes, ensure_chunk_size, ensure_chunk_size_u64, u64_len.
  rewrite run_calm_bind, run_calm_lift, u64_try_from_ok by lia. cbn [ok_or]. rewrite Ok_bind.
  rewrite !(proj2 (N.ltb_ge _ _)) by lia. rewrite Ok_bind.
  rewrite run_calm_bind, run_calm_lift, Ok_bind.
  destruct (seen_new (len data) Ht) as (a & Ha & Hs). rewrite run_calm_bind, Ha, Ok_bind.
  destruct (blocks_update (len data) a [] (blocks data) Ht Hs) as (a' & Hr & Hs'); [rewrite concat_blocks, len_nil; lia|].
  rewrite run_calm_bind, Hr, Ok_bind, run_calm_lift. rewrite concat_blocks in Hs'. by apply seen_finish.
Qed.
End accumulator.
End fingerprint_of.
