(* ===== verification/Fingerprints.v ===== *)
(** * Streaming and parallel fingerprinting

    The streaming fingerprinter computes the fingerprint of the bytes of its
    reader, whatever the sizes of the reads; the parallel one computes the
    fingerprint of every chunk, in the order of the identifiers, and keeps the
    full hashes of the chunks whose compact identities collide. *)

From S2P Require Import Prelude Core Effects Runs Bytes Codecs Sorting Orders Chunking Fingerprint.
From S2P Require Import Rolling.

(** ** Readers that may be interrupted

    A read of a non-empty buffer is interrupted, which can happen only
    [retries r] more times, or delivers a prefix of what is left of the
    stream, an empty one only at the end. *)
Class RetryReader R `{Reader R} := {
  retry_stream : R → list byte;
  retries : R → nat;
  retry_read : ∀ n r, (0 < n)%nat →
    (∃ r', reader_read n r = (Err (Io Interrupted), r') ∧ retry_stream r' = retry_stream r ∧
      (retries r' < retries r)%nat) ∨
    (∃ bytes r', reader_read n r = (Ok bytes, r') ∧ retry_stream r = bytes ++ retry_stream r' ∧
      (length bytes <= n)%nat ∧ (bytes = [] → retry_stream r = []) ∧ (retries r' <= retries r)%nat);
}.

Section streaming.
Context `{FingerprintSizes} `{Xxh3} `{Blake3} `{Crc32c} `{!Crc32cLaws} `{RetryReader R}.

(** The result: the limits, then the length of the stream. *)
Definition reader_result (chunk : LogicalChunk) (data : list byte) (config : FingerprintConfig) :
    Result ChunkFingerprint :=
  FingerprintConfig_validate config;;
  ensure_single_request_limits_u64 (lc_length chunk) config;;
  if len data <? lc_length chunk then Err (InvalidMetadata "short fingerprint stream")
  else if lc_length chunk <? len data then Err (InvalidMetadata "trailing fingerprint data")
  else Ok (fingerprint_of config (lc_chunk_id chunk) data).

Lemma trailing_loop fuel reader :
  (retries reader < fuel)%nat →
  if bool_decide (retry_stream reader = [])
  then ∃ st, run_calm (while_m fuel (λ '(ended, _), negb ended) trailing_step (false, reader)) = Ok st
  else run_calm (while_m fuel (λ '(ended, _), negb ended) trailing_step (false, reader)) =
    Err (InvalidMetadata "trailing fingerprint data").
Proof.
  revert reader; induction fuel as [|fuel IH]; intros reader Hf; [lia|]. cbn [while_m negb].
  rewrite run_calm_bind.
  destruct (retry_read 1 reader) as [(reader' & Hread & Hs & Hlt)|(bytes & reader' & Hread & Hs & Hl & He & Hle)]; [lia| |].
  - assert (run_calm (trailing_step (false, reader)) = Ok (false, reader')) as ->.
    { unfold trailing_step. by rewrite run_calm_bind, run_calm_checkpoint, Ok_bind, Hread. }
    rewrite Ok_bind, <-Hs. apply IH. lia.
  - assert (run_calm (trailing_step (false, reader)) =
      match bytes with [] => Ok (true, reader') | _ => Err (InvalidMetadata "trailing fingerprint data") end) as ->.
    { unfold trailing_step. rewrite run_calm_bind, run_calm_checkpoint, Ok_bind, Hread. by destruct bytes. }
    destruct bytes as [|b bytes].
    + rewrite bool_decide_true by (by apply He). rewrite Ok_bind. exists (true, reader'). by destruct fuel.
    + rewrite bool_decide_false by (by rewrite Hs). done.
Qed.
Section loops.
Context (config : FingerprintConfig) (Hvalid : FingerprintConfig_validate config = Ok tt).
Context (total : N) (Htotal : total <= max_chunk_bytes config).

Lemma stream_step_run a p remaining reader :
  seen config total a p → len p + remaining = total → 0 < remaining →
  (∃ reader', run_calm (stream_step (a, remaining, reader)) = Ok (a, remaining, reader') ∧
     retry_stream reader' = retry_stream reader ∧ (retries reader' < retries reader)%nat) ∨
  (retry_stream reader = [] ∧
     run_calm (stream_step (a, remaining, reader)) = Err (InvalidMetadata "short fingerprint stream")) ∨
  (∃ bytes a' reader', run_calm (stream_step (a, remaining, reader)) = Ok (a', remaining - len bytes, reader') ∧
     retry_stream reader = bytes ++ retry_stream reader' ∧ 0 < len bytes <= remaining ∧
     (retries reader' <= retries reader)%nat ∧ seen config total a' (p ++ bytes)).
Proof.
  intros Ha Hp Hr. destruct (config_bounds config total Hvalid Htotal) as (_ & _ & _ & Hmib). unfold MIB, KIB in Hmib.
  unfold stream_step. rewrite run_calm_bind, run_calm_checkpoint, Ok_bind.
  assert (N.min remaining READ_BUFFER_BYTES <= usize_MAX) as Hreq by lia.
  rewrite run_calm_bind, run_calm_lift, usize_try_from_ok by exact Hreq. cbn [ok_or]. rewrite Ok_bind.
  assert (0 < N.to_nat (N.min remaining READ_BUFFER_BYTES))%nat as Hn by (unfold READ_BUFFER_BYTES; lia).
  destruct (retry_read _ reader Hn) as [(reader' & -> & Hs & Hlt)|(bytes & reader' & -> & Hs & Hl & He & Hle)].
  - left. exists reader'. by rewrite run_calm_ret.
  - destruct bytes as [|b bytes]; [right; left; split; [by apply He|done]|]. right. right.
    set (l := b :: bytes) in *. assert (0 < len l <= remaining) as Hlen by (unfold len in *; subst l; cbn in *; lia).
    destruct (seen_update config Hvalid total a p l Htotal Ha) as (a' & Hu & Ha'); [lia|].
    exists l, a', reader'. rewrite run_calm_bind, run_calm_lift, Hu, Ok_bind. unfold u64_len.
    rewrite run_calm_bind, run_calm_lift, u64_try_from_ok by lia. cbn [ok_or]. rewrite Ok_bind.
    rewrite run_calm_bind, run_calm_lift, checked_sub_ok by lia. cbn [ok_or]. by rewrite Ok_bind, run_calm_ret.
Qed.

Lemma stream_loop fuel a p remaining reader :
  seen config total a p → len p + remaining = total → (N.to_nat remaining + retries reader <= fuel)%nat →
  (len (retry_stream reader) < remaining ∧
   run_calm (while_m fuel (λ '(_, remaining, _), 0 <? remaining) stream_step (a, remaining, reader)) =
     Err (InvalidMetadata "short fingerprint stream")) ∨
  (∃ bytes a' reader',
   run_calm (while_m fuel (λ '(_, remaining, _), 0 <? remaining) stream_step (a, remaining, reader)) =
     Ok (a', 0, reader') ∧ retry_stream reader = bytes ++ retry_stream reader' ∧ len bytes = remaining ∧
   (retries reader' <= retries reader)%nat ∧ seen config total a' (p ++ bytes)).
Proof.
  revert a p remaining reader; induction fuel as [|fuel IH]; intros a p remaining reader Ha Hp Hf; cbn [while_m].
  { assert (remaining = 0) as -> by lia. right. exists [], a, reader. rewrite app_nil_r. done. }
  destruct (N.ltb_spec 0 remaining) as [Hr|Hr].
  2: { assert (remaining = 0) as -> by lia. right. exists [], a, reader. rewrite app_nil_r. done. }
  destruct (stream_step_run a p remaining reader Ha Hp Hr)
    as [(reader' & Hstep & Hs & Hlt)|[[Hs Hstep]|(bytes & a1 & reader' & Hstep & Hs & Hb & Hle & Ha1)]];
    rewrite run_calm_bind, Hstep.
  - rewrite Ok_bind, <-Hs. destruct (IH a p remaining reader' Ha Hp) as [Hshort|(bytes & a2 & r2 & Hok)]; [lia|by left|].
    right. destruct Hok as (? & ? & ? & ? & ?). exists bytes, a2, r2. split_and!; try done. lia.
  - left. rewrite Hs, len_nil. done.
  - rewrite Ok_bind. destruct (IH a1 (p ++ bytes) (remaining - len bytes) reader' Ha1) as [[Hs2 Hr2]|(b2 & a2 & r2 & Hok)];
      [rewrite len_app; lia|unfold len in *; lia| |].
    + left. split; [rewrite Hs, len_app; lia|exact Hr2].
    + right. destruct Hok as (Hr2 & Hs2 & Hl2 & Hle2 & Ha2). exists (bytes ++ b2), a2, r2. rewrite <-app_assoc in Ha2.
      split; [exact Hr2|]. split; [by rewrite Hs, Hs2, app_assoc|]. split; [rewrite len_app; lia|]. split; [lia|done].
Qed.

End loops.

Lemma reader_run fuel chunk reader config :
  (N.to_nat (lc_length chunk) + retries reader < fuel)%nat →
  run_calm (fingerprint_reader_with_checkpoint fuel chunk reader config) =
  reader_result chunk (retry_stream reader) config.
Proof.
  intros Hf. unfold fingerprint_reader_with_checkpoint, reader_result. rewrite run_calm_bind, run_calm_lift.
  destruct (FingerprintConfig_validate config) as [[]|e] eqn:Hv; [|done]. rewrite !Ok_bind, run_calm_bind, run_calm_lift.
  destruct (ensure_single_request_limits_u64 (lc_length chunk) config) as [[]|e] eqn:Hlim; [|done]. rewrite !Ok_bind.
  assert (lc_length chunk <= max_chunk_bytes config) as Ht.
  { unfold ensure_single_request_limits_u64, ensure_chunk_size_u64 in Hlim. invres.
    destruct (u32_MAX <? lc_length chunk); [done|]. by destruct (N.ltb_spec (max_chunk_bytes config) (lc_length chunk)). }
  destruct (seen_new config Hv (lc_length chunk) Ht) as (a & Ha & Hs). rewrite run_calm_bind, Ha, Ok_bind, run_calm_bind.
  destruct (stream_loop config Hv (lc_length chunk) Ht fuel a [] (lc_length chunk) reader Hs) as [[Hshort ->]|
    (bytes & a' & reader' & -> & Hst & Hl & Hle & Hs')]; [rewrite len_nil; lia|lia| |].
  - by rewrite (proj2 (N.ltb_lt _ _)).
  - rewrite Ok_bind. rewrite Hst, len_app, (proj2 (N.ltb_ge _ _)) by lia. rewrite run_calm_bind.
    pose proof (trailing_loop fuel reader') as Htr. case_bool_decide as He.
    + destruct Htr as [st ->]; [lia|]. rewrite He, app_nil_r, len_nil, Ok_bind, run_calm_lift.
      rewrite (proj2 (N.ltb_ge _ _)) by lia. rewrite <-Hl in Hs', Ht. by apply seen_finish.
    + rewrite Htr by lia. rewrite (proj2 (N.ltb_lt _ _)); [done|].
      destruct (retry_stream reader'); [done|]. rewrite len_cons. lia.
Qed.
End streaming.

(** ** Collisions *)

Abbreviation key := (N * N * list byte)%type.

Definition compare_compact : key → key → comparison :=
  compare_pair (compare_pair N.compare N.compare) compare_bytes.

#[export] Instance compare_candidates_order : TotalOrder compare_candidates.
Proof. unfold compare_candidates. apply _. Qed.
#[export] Instance compare_compact_order : TotalOrder compare_compact.
Proof. unfold compare_compact. apply _. Qed.

Lemma candidates_key (x y : key * N) :
  not_greater compare_candidates x y → not_greater compare_compact x.1 y.1.
Proof.
  unfold not_greater, compare_candidates, compare_compact. unfold compare_pair at 1, compare_then at 1, compare_on at 1.
  by destruct (compare_pair _ _ x.1 y.1).
Qed.

Lemma not_greater_antisym {T} (compare : T → T → comparison) `{!TotalOrder compare} x y :
  not_greater compare x y → not_greater compare y x → x = y.
Proof.
  unfold not_greater. intros Hxy Hyx. apply (compare_Eq compare). rewrite (compare_antisym compare x y) in Hyx.
  by destruct (compare x y).
Qed.

Lemma StronglySorted_lookup {T} (P : T → T → Prop) l i j x y :
  StronglySorted P l → l !! i = Some x → l !! j = Some y → (i < j)%nat → P x y.
Proof.
  intros Hs. revert i j; induction Hs as [|a l Hs IH Ha]; intros i j Hi Hj Hij; [done|].
  destruct j as [|j]; [lia|]. destruct i as [|i]; [|by eapply (IH i j); [done|done|lia]].
  injection Hi as ->. rewrite Forall_forall in Ha. apply Ha. by eapply list_elem_of_lookup_2.
Qed.

Lemma filter_all {A} (P : A → Prop) `{∀ x, Decision (P x)} l : Forall P l → filter P l = l.
Proof. induction 1; [done|]. by rewrite filter_cons_True, IHForall. Qed.
Lemma filter_none {A} (P : A → Prop) `{∀ x, Decision (P x)} l : Forall (λ x, ¬ P x) l → filter P l = [].
Proof. induction 1; [done|]. by rewrite filter_cons_False. Qed.

Section marking.
Context (candidates : list (key * N)) (n : nat).
Context (Hsorted : StronglySorted (not_greater compare_candidates) candidates).
Context (Hindex : Forall (λ c, (N.to_nat c.2 < n)%nat) candidates) (Hnodup : NoDup (map snd candidates)).

(** Whether another candidate has the key. *)
Definition multiple (k : key) : bool := (1 <? length (filter (λ c, c.1 = k) candidates))%nat.

(** No key occurs on both sides of [start]. *)
Definition boundary (start : nat) : Prop :=
  ∀ i j a b, (i < start <= j)%nat → candidates !! i = Some a → candidates !! j = Some b → a.1 ≠ b.1.

Lemma key_between i j l a b c :
  (i <= j <= l)%nat → candidates !! i = Some a → candidates !! j = Some b → candidates !! l = Some c →
  a.1 = c.1 → b.1 = a.1.
Proof.
  intros Hij Ha Hb Hc Hac. destruct (decide (i = j)) as [->|]; [congruence|].
  destruct (decide (j = l)) as [->|]; [congruence|].
  apply (not_greater_antisym compare_compact).
  - rewrite Hac. apply candidates_key. by eapply (StronglySorted_lookup _ _ j l); [done|done|done|lia].
  - apply candidates_key. by eapply (StronglySorted_lookup _ _ i j); [done|done|done|lia].
Qed.

(** The run that starts at a boundary. *)
Record is_run (start end_ : nat) (c : key * N) : Prop := {
  run_range : (start < end_ <= length candidates)%nat;
  run_same : ∀ i a, (start <= i < end_)%nat → candidates !! i = Some a → a.1 = c.1;
  run_end : ∀ a, candidates !! end_ = Some a → a.1 ≠ c.1;
}.

Lemma run_boundary start end_ c :
  boundary start → candidates !! start = Some c → is_run start end_ c → boundary end_.
Proof.
  intros Hb Hc [Hr Hs He] i j a b Hij Ha Hj Hab. destruct (decide (i < start)%nat).
  { eapply (Hb i j a b); [lia|done..]. }
  pose proof (Hs i a ltac:(lia) Ha) as Hac. destruct (lookup_lt_is_Some_2 candidates end_) as [e Hend].
  { apply lookup_lt_Some in Hj. lia. }
  apply (He e Hend). rewrite <-Hac. by eapply (key_between i end_ j); [lia|done..].
Qed.

Lemma run_multiple start end_ c :
  boundary start → candidates !! start = Some c → is_run start end_ c →
  multiple c.1 = (1 <? end_ - start)%nat.
Proof.
  intros Hb Hc Hrun. pose proof (run_boundary start end_ c Hb Hc Hrun) as Hb2. destruct Hrun as [Hr Hs He].
  unfold multiple. f_equal.
  rewrite <-(take_drop start candidates), <-(take_drop (end_ - start) (drop start candidates)), drop_drop.
  replace (start + (end_ - start))%nat with end_ by lia. rewrite !filter_app, !length_app.
  rewrite (filter_none _ (take start candidates)), (filter_all _ (take (end_ - start) (drop start candidates))),
    (filter_none _ (drop end_ candidates)).
  - rewrite length_take, length_drop. cbn. lia.
  - apply Forall_lookup. intros i a Ha. rewrite lookup_drop in Ha. intros Hac.
    eapply (Hb2 start (end_ + i)%nat c a); [lia|done..].
  - apply Forall_lookup. intros i a Ha. pose proof (lookup_lt_Some _ _ _ Ha) as Hlt. rewrite length_take in Hlt.
    rewrite lookup_take_lt, lookup_drop in Ha by lia. apply (Hs (start + i)%nat a); [lia|done].
  - apply Forall_lookup. intros i a Ha. pose proof (lookup_lt_Some _ _ _ Ha) as Hlt. rewrite length_take in Hlt.
    rewrite lookup_take_lt in Ha by lia. intros Hac. eapply (Hb i start a c); [lia|done..].
Qed.

Context {S : Type} `{Env S}.

Lemma run_end_ensures start c :
  candidates !! start = Some c →
  ensures (while_m (length candidates)
    (λ end_, (end_ <? length candidates)%nat && same_key candidates start end_)
    (λ end_, checkpoint;; mret (end_ + 1)%nat) (start + 1)%nat) (λ end_, is_run start end_ c).
Proof.
  intros Hc. pose proof (lookup_lt_Some _ _ _ Hc) as Hlt. eapply ensures_weaken.
  - apply (ensures_while (λ end_, (start < end_ <= length candidates)%nat ∧
      ∀ i a, (start <= i < end_)%nat → candidates !! i = Some a → a.1 = c.1) (λ end_, length candidates - end_)%nat).
    + intros end_ [Hr Hs] Hcond. apply andb_true_iff in Hcond as [Hlt2 Hsame]. apply Nat.ltb_lt in Hlt2.
      split; [lia|]. apply ensures_checkpoint, ensures_ret. split; [|lia]. split; [lia|].
      intros i a Hi Ha. destruct (decide (i = end_)) as [->|]; [|apply (Hs i a); [lia|done]].
      unfold same_key in Hsame. rewrite Ha, Hc in Hsame. by apply bool_decide_eq_true in Hsame.
    + split; [lia|]. intros i a Hi Ha. replace i with start in Ha by lia. congruence.
    + lia.
  - intros end_ [[Hr Hs] Hcond]. split; [done|done|]. intros a Ha Hac.
    apply andb_false_iff in Hcond as [Hge|Hsame]; [apply Nat.ltb_ge in Hge; apply lookup_lt_Some in Ha; lia|].
    unfold same_key in Hsame. rewrite Ha, Hc in Hsame. by apply bool_decide_eq_false in Hsame.
Qed.

Lemma mark_ensures escalate l :
  Forall (λ c : key * N, (N.to_nat c.2 < length escalate)%nat) l →
  ensures (fold_m (λ escalate candidate, checkpoint;; assign escalate (N.to_nat candidate.2) true) escalate l)
    (λ escalate', length escalate' = length escalate ∧
      ∀ i, escalate' !! i = if bool_decide (i ∈ map (N.to_nat ∘ snd) l) then Some true else escalate !! i).
Proof.
  revert escalate; induction l as [|c l IH]; intros escalate Hl; cbn [fold_m map].
  { apply ensures_ret. split; [done|]. intros i. by rewrite bool_decide_false by apply not_elem_of_nil. }
  apply Forall_cons in Hl as [Hc Hl].
  eapply (ensures_bind _ (λ e, e = <[N.to_nat c.2 := true]> escalate)).
  { apply ensures_checkpoint. unfold assign. rewrite (proj2 (Nat.ltb_lt _ _)) by done. by apply ensures_ret. }
  intros e ->. eapply ensures_weaken; [apply IH; by rewrite length_insert|].
  rewrite length_insert. intros e' [Hlen He']. split; [done|]. intros i. rewrite He'. cbn [compose].
  destruct (decide (i ∈ map (N.to_nat ∘ snd) l)) as [Hi|Hi].
  - rewrite !bool_decide_true by (try apply elem_of_cons; tauto). done.
  - rewrite bool_decide_false by done. destruct (decide (i = N.to_nat c.2)) as [->|Hne].
    + rewrite bool_decide_true by (apply elem_of_cons; by left). by apply list_lookup_insert_eq.
    + rewrite bool_decide_false by (rewrite elem_of_cons; naive_solver). by rewrite list_lookup_insert_ne.
Qed.

(** The flags when the candidates before [start] are decided. *)
Record mark_inv (st : nat * list bool) : Prop := {
  mk_start : (st.1 <= length candidates)%nat;
  mk_length : length st.2 = n;
  mk_boundary : boundary st.1;
  mk_flags : ∀ i c, candidates !! i = Some c →
    st.2 !! N.to_nat c.2 = Some (if (i <? st.1)%nat then multiple c.1 else false);
}.

Lemma index_inj i j a b :
  candidates !! i = Some a → candidates !! j = Some b → N.to_nat a.2 = N.to_nat b.2 → i = j.
Proof.
  intros Ha Hb Hab. apply (NoDup_lookup (map snd candidates) i j a.2); [done|..]; rewrite list_lookup_fmap.
  - by rewrite Ha.
  - rewrite Hb. cbn. f_equal. lia.
Qed.

Lemma in_run start end_ i c :
  (start <= end_ <= length candidates)%nat → candidates !! i = Some c →
  N.to_nat c.2 ∈ map (N.to_nat ∘ snd) (sub start (end_ - start) candidates) ↔ (start <= i < end_)%nat.
Proof.
  intros Hr Hi. rewrite list_elem_of_fmap. split.
  - intros (d & Hd & Hin). apply list_elem_of_lookup in Hin as [k Hk]. unfold sub in Hk.
    pose proof (lookup_lt_Some _ _ _ Hk) as Hlt. rewrite length_take in Hlt.
    rewrite lookup_take_lt, lookup_drop in Hk by lia.
    assert (i = start + k)%nat as -> by (by eapply index_inj). lia.
  - intros Hin. exists c. split; [done|]. apply list_elem_of_lookup. exists (i - start)%nat. unfold sub.
    rewrite lookup_take_lt, lookup_drop by lia. by replace (start + (i - start))%nat with i by lia.
Qed.

Lemma run_step_ensures start escalate :
  mark_inv (start, escalate) → (start < length candidates)%nat →
  ensures (run_step candidates (start, escalate)) (λ st, mark_inv st ∧ (start < st.1)%nat).
Proof.
  intros [Hs Hl Hb Hf] Hlt. cbn [fst snd] in *. destruct (lookup_lt_is_Some_2 candidates start Hlt) as [c Hc].
  unfold run_step. apply ensures_checkpoint. eapply ensures_bind; [by apply (run_end_ensures start c)|].
  intros end_ Hrun. pose proof (run_boundary start end_ c Hb Hc Hrun) as Hb2.
  pose proof (run_multiple start end_ c Hb Hc Hrun) as Hmul. destruct Hrun as [Hr Hsame He].
  eapply (ensures_bind _ (λ e, length e = n ∧ ∀ i d, candidates !! i = Some d →
    e !! N.to_nat d.2 = Some (if (i <? end_)%nat then multiple d.1 else false))).
  - destruct (1 <? end_ - start)%nat eqn:H1.
    + eapply ensures_weaken; [apply mark_ensures|].
      { rewrite Hl. unfold sub. by apply Forall_take, Forall_drop. }
      intros e [Hle Hin]. split; [by rewrite Hle|]. intros i d Hd. rewrite Hin.
      assert (N.to_nat d.2 ∈ map (N.to_nat ∘ snd) (sub start (end_ - start) candidates) ↔ (start <= i < end_)%nat) as Hiff
        by (apply in_run; [lia|done]).
      destruct (decide (start <= i < end_)%nat) as [Hi|Hi].
      * rewrite bool_decide_true by tauto. rewrite (proj2 (Nat.ltb_lt _ _)) by lia. by rewrite (Hsame i d Hi Hd), Hmul.
      * rewrite bool_decide_false by tauto. rewrite (Hf i d Hd). f_equal.
        destruct (Nat.ltb_spec i start), (Nat.ltb_spec i end_); done || lia.
    + apply ensures_ret. split; [done|]. intros i d Hd. rewrite (Hf i d Hd). f_equal.
      destruct (Nat.ltb_spec i start), (Nat.ltb_spec i end_); try done; try lia.
      by rewrite (Hsame i d) by (done || lia).
  - intros e [Hle Hflags]. apply ensures_ret. split; [|cbn; lia]. split; cbn; [lia|done|done|done].
Qed.

Lemma marks_ensures :
  ensures (while_m (length candidates) (λ '(start, _), (start <? length candidates)%nat) (run_step candidates)
      (0%nat, replicate n false))
    (λ st, length st.2 = n ∧ ∀ c, c ∈ candidates → st.2 !! N.to_nat c.2 = Some (multiple c.1)).
Proof.
  eapply ensures_weaken.
  - apply (ensures_while mark_inv (λ st, length candidates - st.1)%nat).
    + intros [start escalate] Hinv Hcond. apply Nat.ltb_lt in Hcond. split; [cbn; lia|].
      eapply ensures_weaken; [by apply run_step_ensures|]. intros [s e] [Hi Hlt]. split; [done|]. cbn in *. lia.
    + split; cbn; [lia|apply length_replicate| |].
      * intros i j a b Hij. lia.
      * intros i c Hc. apply lookup_replicate_2. rewrite Forall_forall in Hindex. apply Hindex.
        by eapply list_elem_of_lookup_2.
    + cbn. lia.
  - intros [start e] [[Hs Hl Hb Hf] Hcond]. cbn [fst snd] in *. split; [done|].
    intros c [i Hi]%list_elem_of_lookup. rewrite (Hf i c Hi). apply Nat.ltb_ge in Hcond.
    pose proof (lookup_lt_Some _ _ _ Hi). by rewrite (proj2 (Nat.ltb_lt _ _)) by lia.
Qed.
End marking.

Section collisions.
Context `{FingerprintSizes} `{Xxh3} `{Blake3} `{Crc32c} `{!Crc32cLaws} {S : Type} `{Env S}.

Definition key_of (data : list byte) : key := (xxh3_64 data, len data, take 16 (blake3 data)).

(** Whether another chunk has the same compact identity. *)
Definition collides (inputs : list FingerprintInput) (data : list byte) : bool :=
  (1 <? length (filter (λ i, key_of (fi_data i) = key_of data) inputs))%nat.

Definition with_full (f : ChunkFingerprint) (full : list byte) : ChunkFingerprint := {|
  cf_chunk_id := cf_chunk_id f; cf_length := cf_length f; cf_xxh3 := cf_xxh3 f;
  cf_blake3_128 := cf_blake3_128 f; cf_full_blake3 := Some full; cf_crc32c := cf_crc32c f;
  cf_superfeatures := cf_superfeatures f |}.

Definition fingerprint_input (config : FingerprintConfig) (input : FingerprintInput) : ChunkFingerprint :=
  fingerprint_of config (lc_chunk_id (fi_chunk input)) (fi_data input).

Definition escalated (config : FingerprintConfig) (inputs : list FingerprintInput) (input : FingerprintInput) :
    ChunkFingerprint :=
  let f := fingerprint_input config input in
  if collides inputs (fi_data input) then with_full f (blake3 (fi_data input)) else f.

Lemma escalate_hashes x h c ls :
  c <= u32_MAX →
  follows (fold_m (λ '(xxh3, hasher, crc) block,
      checkpoint;; mret (xxh3 ++ block, hasher ++ block, crc32c_append crc block)) (x, h, c) ls)
    (Ok (x ++ concat ls, h ++ concat ls, crc32c_append c (concat ls))).
Proof.
  revert x h c; induction ls as [|l ls IH]; intros x h c Hc; cbn [fold_m concat].
  { rewrite !app_nil_r, crc32c_append_nil by done. apply follows_ret. }
  eapply follows_seq; [eapply follows_seq; [apply follows_checkpoint|apply follows_ret]|].
  rewrite !app_assoc, crc32c_append_app by done. apply IH, crc32c_append_u32.
Qed.

(** Computing the full hash of a chunk whose fingerprint is known. *)
Lemma escalate_follows config id data :
  FingerprintConfig_validate config = Ok tt → ensure_single_request_limits (len data) config = Ok tt →
  follows (ChunkFingerprint_escalate (fingerprint_of config id data) data config)
    (Ok (with_full (fingerprint_of config id data) (blake3 data))).
Proof.
  intros Hv Hlim. unfold ChunkFingerprint_escalate. rewrite Hv.
  assert (len data <= u32_MAX) as Hu.
  { unfold ensure_single_request_limits, ensure_single_request_limits_u64, ensure_chunk_size_u64 in Hlim. invres.
    by destruct (N.ltb_spec u32_MAX (len data)). }
  eapply follows_seq; [apply follows_lift|]. rewrite u32_try_from_ok by done.
  eapply follows_seq; [apply follows_lift|]. cbn [fingerprint_of cf_length]. rewrite N.eqb_refl. cbn [negb].
  rewrite Hlim. eapply follows_seq; [apply follows_lift|]. eapply follows_seq; [by apply escalate_hashes|].
  cbn beta iota. rewrite !concat_blocks. cbn [app].
  eapply follows_seq; [apply follows_checkpoint|]. cbn [fingerprint_of cf_blake3_128 cf_xxh3 cf_crc32c].
  rewrite bool_decide_true by done. unfold crc32c. rewrite !N.eqb_refl. cbn [negb orb]. apply follows_ret.
Qed.

Lemma candidates_follows (done_ : list (key * N)) i (l : list ChunkFingerprint) :
  follows (fold_m (λ candidates '(index, fingerprint),
      checkpoint;; mret (candidates ++ [(compact_key fingerprint, index)])) done_ (enumerate_from i l))
    (Ok (done_ ++ map (λ '(index, f), (compact_key f, index)) (enumerate_from i l))).
Proof.
  revert i done_; induction l as [|f l IH]; intros i done_; cbn [enumerate_from fold_m map].
  { rewrite app_nil_r. apply follows_ret. }
  eapply follows_seq; [eapply follows_seq; [apply follows_checkpoint|apply follows_ret]|].
  specialize (IH (i + 1) (done_ ++ [(compact_key f, i)])). by rewrite <-app_assoc in IH.
Qed.

Lemma candidates_snd i (l : list ChunkFingerprint) :
  map snd (map (λ '(index, f), (compact_key f, index)) (enumerate_from i l)) = map fst (enumerate_from i l).
Proof. rewrite map_map. apply map_ext. by intros []. Qed.

Lemma enumerate_fst i {A} (l : list A) : map fst (enumerate_from i l) = map (λ k, i + N.of_nat k) (seq 0 (length l)).
Proof.
  revert i; induction l as [|a l IH]; intros i; [done|]. cbn [enumerate_from map length seq fst].
  f_equal; [lia|]. rewrite IH, <-seq_shift, map_map. apply map_ext. lia.
Qed.

Lemma candidates_count (k : key) i (l : list ChunkFingerprint) :
  length (filter (λ c : key * N, c.1 = k) (map (λ '(index, f), (compact_key f, index)) (enumerate_from i l))) =
  length (filter (λ f, compact_key f = k) l).
Proof.
  revert i; induction l as [|f l IH]; intros i; [done|]. cbn [enumerate_from map]. rewrite !filter_cons. cbn [fst].
  destruct (decide (compact_key f = k)); cbn [length]; by rewrite IH.
Qed.

Lemma escalate_loop config (flag : FingerprintInput → bool) done_ l :
  FingerprintConfig_validate config = Ok tt →
  Forall (λ i, ensure_single_request_limits (len (fi_data i)) config = Ok tt) l →
  follows (fold_m (λ done_ '(fingerprint, input, should_escalate),
      checkpoint;;
      fingerprint ← (if (should_escalate : bool)
        then ChunkFingerprint_escalate fingerprint (fi_data input) config
        else mret fingerprint);
      mret (done_ ++ [fingerprint])) done_ (zip (zip (map (fingerprint_input config) l) l) (map flag l)))
    (Ok (done_ ++ map (λ i, let f := fingerprint_input config i in
      if flag i then with_full f (blake3 (fi_data i)) else f) l)).
Proof.
  intros Hv Hl. revert done_; induction Hl as [|i l Hi Hl IH]; intros done_; cbn [map zip_with fold_m].
  { rewrite app_nil_r. apply follows_ret. }
  eapply follows_seq.
  - eapply follows_seq; [apply follows_checkpoint|].
    apply (follows_seq _ (let f := fingerprint_input config i in if flag i then with_full f (blake3 (fi_data i)) else f));
      [|apply follows_ret].
    cbn zeta. destruct (flag i); [by apply escalate_follows|apply follows_ret].
  - specialize (IH (done_ ++ [let f := fingerprint_input config i in if flag i then with_full f (blake3 (fi_data i)) else f])).
    rewrite <-app_assoc in IH. exact IH.
Qed.

Lemma collisions_follows config inputs :
  FingerprintConfig_validate config = Ok tt →
  Forall (λ i, ensure_single_request_limits (len (fi_data i)) config = Ok tt) inputs →
  follows (escalate_compact_collisions (map (fingerprint_input config) inputs) inputs config)
    (Ok (map (escalated config inputs) inputs)).
Proof.
  intros Hv Hl. unfold escalate_compact_collisions. eapply follows_seq; [apply follows_reserve|].
  set (fps := map (fingerprint_input config) inputs).
  eapply follows_seq; [apply (candidates_follows [] 0)|]. cbn [app]. fold (enumerate fps).
  set (cs := map _ (enumerate fps)).
  eapply follows_seq; [eapply (try_sort_follows compare_candidates); apply _|]. set (sorted := insertion_sort compare_candidates cs).
  destruct (insertion_sort_stable compare_candidates cs) as (Hs & Hp & _). fold sorted in Hs, Hp.
  eapply follows_seq; [apply follows_reserve|].
  assert (NoDup (map snd cs)) as Hnd.
  { unfold cs, enumerate. rewrite candidates_snd, enumerate_fst. apply NoDup_fmap_2; [intros ?? ?; lia|apply NoDup_seq]. }
  assert (Forall (λ c : key * N, (N.to_nat c.2 < length fps)%nat) cs) as Hidx.
  { unfold cs. apply Forall_map, Forall_forall. intros [i f] Hi. cbn. apply elem_of_enumerate in Hi.
    by apply lookup_lt_Some in Hi. }
  apply ensures_follows. eapply ensures_bind.
  { apply (marks_ensures sorted (length fps)); [done|by rewrite Hp|].
    by rewrite (Permutation_map snd Hp). }
  intros [start e] [Hlen Hflags]. cbn [fst snd] in *. apply ensures_follows.
  assert (e = map (λ i, collides inputs (fi_data i)) inputs) as ->.
  { apply list_eq. intros i. change (map ?f ?l) with (f <$> l). rewrite list_lookup_fmap.
    destruct (inputs !! i) as [input|] eqn:Hi.
    - assert ((key_of (fi_data input), N.of_nat i) ∈ cs) as Hin.
      { unfold cs. apply list_elem_of_fmap. exists (N.of_nat i, fingerprint_input config input). split; [done|].
        apply elem_of_enumerate. unfold fps. rewrite Nat2N.id. change (map ?f ?l) with (f <$> l).
        by rewrite list_lookup_fmap, Hi. }
      rewrite <-Hp in Hin. specialize (Hflags _ Hin). cbn [fst snd] in Hflags. rewrite Nat2N.id in Hflags.
      rewrite Hflags. cbn [fmap option_fmap option_map]. f_equal.
      assert (length (filter (λ c : key * N, c.1 = key_of (fi_data input)) sorted) =
        length (filter (λ i, key_of (fi_data i) = key_of (fi_data input)) inputs)) as Hcount; [|by unfold multiple, collides; rewrite Hcount].
      rewrite (Permutation_length (filter_Permutation _ _ _ Hp)). unfold cs, enumerate.
      etrans; [apply candidates_count|]. unfold fps. clear.
      induction inputs as [|j l IH]; [done|]. cbn [map]. rewrite !filter_cons.
      change (compact_key (fingerprint_input config j)) with (key_of (fi_data j)).
      destruct (decide _); cbn [length]; by rewrite IH.
    - apply lookup_ge_None in Hi. apply lookup_ge_None. rewrite Hlen. unfold fps. by rewrite length_map. }
  apply (escalate_loop config (λ i, collides inputs (fi_data i)) []); done.
Qed.
End collisions.

(** ** The batch *)

Section batch.
Context `{FingerprintSizes} `{Xxh3} `{Blake3} `{Crc32c} `{!Crc32cLaws}.

Definition largest_chunk (inputs : list FingerprintInput) : N :=
  foldr N.max 0 (map (len ∘ fi_data) inputs).

Definition total_data (inputs : list FingerprintInput) : N := sum (map (len ∘ fi_data) inputs).

Lemma total_data_cons i l : total_data (i :: l) = len (fi_data i) + total_data l.
Proof. done. Qed.

(** What a batch must satisfy. *)
Record batch_ok (inputs : list FingerprintInput) (config : FingerprintConfig) : Prop := {
  ba_config : FingerprintConfig_validate config = Ok tt;
  ba_count : len inputs <= fp_max_chunks config ∧ len inputs <= u64_MAX;
  ba_each : Forall (λ i, len (fi_data i) = lc_length (fi_chunk i) ∧
    ensure_chunk_size_u64 (len (fi_data i)) config = Ok tt) inputs;
  ba_total : total_data inputs <= max_total_bytes config ∧
    total_data inputs <= u64_MAX;
  ba_memory : ensure_batch_memory_limits (len inputs) (largest_chunk inputs) config = Ok tt;
  ba_ids : NoDup (map (lc_chunk_id ∘ fi_chunk) inputs);
}.

(** The chunks in the order of their identifiers. *)
Definition by_id (inputs : list FingerprintInput) : list FingerprintInput := insertion_sort compare_ids inputs.

Definition ordered_result (config : FingerprintConfig) (ordered : list FingerprintInput) : list ChunkFingerprint :=
  if bool_decide (full_hash_policy config = Standard)
  then map (escalated config ordered) ordered else map (fingerprint_input config) ordered.

Definition batch_result (config : FingerprintConfig) (inputs : list FingerprintInput) : list ChunkFingerprint :=
  ordered_result config (by_id inputs).

#[export] Instance compare_ids_preorder : TotalPreorder compare_ids.
Proof. change compare_ids with (compare_on (lc_chunk_id ∘ fi_chunk) N.compare). apply _. Qed.

Lemma ensure_chunk_size_Ok n config :
  ensure_chunk_size_u64 n config = Ok tt ↔ n <= u32_MAX ∧ n <= max_chunk_bytes config.
Proof.
  unfold ensure_chunk_size_u64. destruct (N.ltb_spec u32_MAX n), (N.ltb_spec (max_chunk_bytes config) n);
    naive_solver lia.
Qed.

Lemma measure_run config total largest l v :
  total <= max_total_bytes config → total <= u64_MAX →
  run_calm (fold_m (measure_step config) (total, largest) l) = Ok v ↔
  Forall (λ i, len (fi_data i) = lc_length (fi_chunk i) ∧
    ensure_chunk_size_u64 (len (fi_data i)) config = Ok tt) l ∧
  total + total_data l <= max_total_bytes config ∧ total + total_data l <= u64_MAX ∧
  v = (total + total_data l, foldr N.max 0 (largest :: map (len ∘ fi_data) l)).
Proof.
  revert total largest; induction l as [|i l IH]; intros total largest Ht Hu; cbn [fold_m map].
  { rewrite run_ret_Ok. change (total_data []) with 0. rewrite N.add_0_r. cbn. rewrite N.max_0_r. naive_solver. }
  rewrite run_bind_Ok, Forall_cons, total_data_cons. split.
  - intros (v1 & Hs & Hr). revert Hs. unfold measure_step. run_iff. rewrite run_unit_Ok, run_lift_Ok. run_iff.
    rewrite negb_false_iff, N.eqb_eq, N.ltb_ge. intros (? & ? & ? & ? & ? & ->).
    apply IH in Hr as (? & ? & ? & ->); [|lia..]. split; [done|]. split; [lia|]. split; [lia|]. f_equal; [lia|].
    cbn. unfold compose. lia.
  - intros ([[He Hc] Hl] & Ht1 & Ht2 & ->). exists (total + len (fi_data i), N.max largest (len (fi_data i))).
    pose proof Hc as Hc'. apply ensure_chunk_size_Ok in Hc'. split.
    { unfold measure_step. run_iff. rewrite run_unit_Ok, run_lift_Ok. run_iff.
      rewrite negb_false_iff, N.eqb_eq, N.ltb_ge. repeat split; try done; lia. }
    apply IH; [lia..|]. split; [done|]. split; [lia|]. split; [lia|]. f_equal; [lia|]. cbn. unfold compose. lia.
Qed.

Lemma ids_neighbours_run l :
  StronglySorted (not_greater compare_ids) l →
  run_calm (for_each (λ '(a, b), checkpoint;;
    if lc_chunk_id (fi_chunk a) =? lc_chunk_id (fi_chunk b)
    then fail (InvalidMetadata "duplicate fingerprint chunk ID") else mret tt) (windows2 l)) = Ok tt ↔
  NoDup (map (lc_chunk_id ∘ fi_chunk) l).
Proof.
  intros Hs. assert (StronglySorted (not_greater N.compare) (map (lc_chunk_id ∘ fi_chunk) l)) as Hs'.
  { induction Hs; cbn [map]; constructor; [done|]. by apply Forall_map. }
  transitivity (run_calm (distinct_neighbours (InvalidMetadata "duplicate fingerprint chunk ID")
    (map (lc_chunk_id ∘ fi_chunk) l)) = Ok tt).
  - unfold distinct_neighbours. rewrite !for_each_run. clear Hs Hs'. induction l as [|a [|b l] IH]; [done|done|].
    change (windows2 (a :: b :: l)) with ((a, b) :: windows2 (b :: l)).
    change (windows2 (map (lc_chunk_id ∘ fi_chunk) (a :: b :: l))) with
      ((lc_chunk_id (fi_chunk a), lc_chunk_id (fi_chunk b)) :: windows2 (map (lc_chunk_id ∘ fi_chunk) (b :: l))).
    rewrite !Forall_cons, IH. run_iff. rewrite N.eqb_neq, bool_decide_eq_false. done.
  - rewrite (distinct_neighbours_run N.compare) by done. destruct (decide _); naive_solver.
Qed.

(** The memory limits as inequalities. *)
Definition scratch_of (length : N) (config : FingerprintConfig) : N :=
  N.min (subchunk_count config * rolling_window config) length +
  (size_of_RollingRegion + 8 + FINGERPRINT_PER_CHUNK_MARGIN_BYTES) * subchunk_count config +
  size_of_FingerprintAccumulator + FINGERPRINT_WORKER_MARGIN_BYTES.
Definition per_chunk_of : N :=
  size_of_input_reference + size_of_slot + size_of_ChunkFingerprint + size_of_CollisionCandidate + 1 +
  FINGERPRINT_PER_CHUNK_MARGIN_BYTES.

Lemma scratch_Ok length config v :
  fingerprint_worker_scratch_bytes length config = Ok v ↔
  v = scratch_of length config ∧ subchunk_count config * rolling_window config <= u64_MAX ∧
  (size_of_RollingRegion + 8 + FINGERPRINT_PER_CHUNK_MARGIN_BYTES) * subchunk_count config <= u64_MAX ∧
  size_of_RollingRegion + 8 + FINGERPRINT_PER_CHUNK_MARGIN_BYTES <= u64_MAX ∧
  scratch_of length config <= u64_MAX.
Proof.
  unfold fingerprint_worker_scratch_bytes, scratch_of. split.
  - intros Hv. invres. repeat match goal with H : _ ≫= _ = Some _ |- _ => apply bind_Some in H as (? & ? & ?) end.
    arith_inv. lia.
  - intros (-> & H5 & H6 & H7 & H8). rewrite checked_mul_ok by done. cbn [ok_or]. rewrite Ok_bind.
    rewrite checked_add_ok by lia. cbn [mbind option_bind]. rewrite checked_add_ok by lia. cbn [mbind option_bind].
    rewrite checked_mul_ok by done. cbn [ok_or]. rewrite Ok_bind. rewrite checked_add_ok by lia.
    cbn [mbind option_bind]. rewrite checked_add_ok by lia. cbn [mbind option_bind]. by rewrite checked_add_ok by lia.
Qed.

Lemma memory_limits_Ok count largest config :
  count ≠ 0 →
  ensure_batch_memory_limits count largest config = Ok tt ↔
  count * size_of_ChunkFingerprint <= u64_MAX ∧ count * size_of_ChunkFingerprint <= fp_max_metadata_bytes config ∧
  per_chunk_of <= u64_MAX ∧ fingerprint_worker_scratch_bytes largest config = Ok (scratch_of largest config) ∧
  count * per_chunk_of + N.min count (parallelism config) * scratch_of largest config +
    FINGERPRINT_FIXED_WORKING_BYTES <= N.min u64_MAX (max_working_bytes config).
Proof.
  intros Hc. unfold ensure_batch_memory_limits, per_chunk_of. rewrite (proj2 (N.eqb_neq _ _)) by done. split.
  - intros Hv. invres.
    match goal with H : fingerprint_worker_scratch_bytes _ _ = Ok _ |- _ =>
      pose proof H as Hs; apply scratch_Ok in H as (-> & _) end.
    repeat match goal with H : _ ≫= _ = Some _ |- _ => apply bind_Some in H as (? & ? & ?) end.
    arith_inv. split; [done|]. split; [done|]. split; [lia|]. split; [done|]. lia.
  - intros (H5 & H6 & H7 & H8 & H9). rewrite checked_mul_ok by done. cbn [ok_or]. rewrite Ok_bind.
    rewrite (proj2 (N.ltb_ge _ _)) by done.
    rewrite checked_add_ok by lia. cbn [mbind option_bind]. do 3 (rewrite checked_add_ok by lia; cbn [mbind option_bind]).
    rewrite checked_add_ok by lia. cbn [ok_or]. rewrite Ok_bind, H8, Ok_bind. fold per_chunk_of in *.
    unfold FINGERPRINT_FIXED_WORKING_BYTES in *.
    rewrite checked_mul_ok by lia. cbn [mbind option_bind]. rewrite checked_mul_ok by lia. cbn [mbind option_bind].
    rewrite checked_add_ok by lia. cbn [mbind option_bind]. rewrite checked_add_ok by lia. cbn [ok_or]. rewrite Ok_bind.
    by rewrite (proj2 (N.ltb_ge _ _)) by lia.
Qed.

(** The limits of one chunk follow from those of the batch. *)
Lemma memory_limits_mono count largest n config :
  ensure_batch_memory_limits count largest config = Ok tt → 1 <= count → n <= largest →
  1 <= parallelism config → ensure_batch_memory_limits 1 n config = Ok tt.
Proof.
  intros Hl Hc Hn Hp. apply memory_limits_Ok in Hl as (H5 & H6 & H7 & H8 & H9); [|lia].
  apply scratch_Ok in H8 as (_ & Ha & Hb & Hd & He).
  assert (scratch_of n config <= scratch_of largest config) as Hmono by (unfold scratch_of; lia).
  assert (1 <= N.min count (parallelism config)) as Hw by lia.
  apply memory_limits_Ok; [done|]. split; [nia|]. split; [nia|]. split; [done|]. split.
  - apply scratch_Ok. split; [done|]. split; [done|]. split; [done|]. split; [done|]. lia.
  - rewrite !N.mul_1_l. replace (N.min 1 (parallelism config)) with 1 by lia. rewrite N.mul_1_l. nia.
Qed.

Lemma largest_bound inputs : Forall (λ i, len (fi_data i) <= largest_chunk inputs) inputs.
Proof.
  unfold largest_chunk. induction inputs as [|i l IH]; constructor.
  - cbn. unfold compose. lia.
  - eapply Forall_impl; [exact IH|]. cbn. unfold compose. intros; lia.
Qed.

Lemma total_bound inputs : Forall (λ i, len (fi_data i) <= total_data inputs) inputs.
Proof.
  induction inputs as [|i l IH]; constructor; rewrite total_data_cons; [lia|].
  eapply Forall_impl; [exact IH|]. cbn. intros; lia.
Qed.

Lemma single_limits inputs config :
  batch_ok inputs config → Forall (λ i, ensure_single_request_limits (len (fi_data i)) config = Ok tt) inputs.
Proof.
  intros [Hv [_ Hu] Heach [Ht _] Hm _]. pose proof (largest_bound inputs) as Hlarge. pose proof (total_bound inputs) as Htot.
  rewrite Forall_forall in *. intros i Hi. destruct (Heach i Hi) as [_ Hsize]. specialize (Hlarge i Hi). specialize (Htot i Hi).
  cbn in Hlarge, Htot. pose proof Hsize as Hs. apply ensure_chunk_size_Ok in Hs as [Hs1 Hs2].
  unfold ensure_single_request_limits, ensure_single_request_limits_u64.
  rewrite u64_try_from_ok by lia. cbn [ok_or]. rewrite Ok_bind, Hsize, Ok_bind, (proj2 (N.ltb_ge _ _)) by lia.
  eapply memory_limits_mono; [exact Hm| |done|].
  - apply list_elem_of_lookup in Hi as [k Hk]. apply lookup_lt_Some in Hk. unfold len. lia.
  - unfold FingerprintConfig_validate, in_range in Hv. invres. lia.
Qed.

Lemma check_inputs_run inputs config :
  run_calm (check_inputs inputs config) = Ok tt ↔
  FingerprintConfig_validate config = Ok tt ∧ (len inputs <= fp_max_chunks config ∧ len inputs <= u64_MAX) ∧
  Forall (λ i, len (fi_data i) = lc_length (fi_chunk i) ∧
    ensure_chunk_size_u64 (len (fi_data i)) config = Ok tt) inputs ∧
  (total_data inputs <= max_total_bytes config ∧ total_data inputs <= u64_MAX) ∧
  ensure_batch_memory_limits (len inputs) (largest_chunk inputs) config = Ok tt.
Proof.
  unfold check_inputs. rewrite run_unit_Ok, run_lift_Ok. run_iff. rewrite N.ltb_ge, run_bind_Ok.
  split.
  - intros (? & ? & ? & [t m] & Hm & Hl). rewrite run_lift_Ok in Hl. apply measure_run in Hm as (? & ? & ? & [= -> ->]); [|lia..].
    split_and!; try done. unfold largest_chunk. cbn in Hl. by rewrite N.max_0_l in Hl.
  - intros (? & [? ?] & ? & [? ?] & Hl). split; [done|]. split; [done|]. split; [done|].
    exists (0 + total_data inputs, foldr N.max 0 (0 :: map (len ∘ fi_data) inputs)). split.
    + apply measure_run; [lia..|]. split_and!; try done; lia.
    + rewrite run_lift_Ok. unfold largest_chunk in Hl. cbn. by rewrite N.max_0_l.
Qed.

Lemma order_inputs_run inputs v :
  run_calm (order_inputs inputs) = Ok v ↔ NoDup (map (lc_chunk_id ∘ fi_chunk) inputs) ∧ v = by_id inputs.
Proof.
  destruct (insertion_sort_stable compare_ids inputs) as (Hs & Hp & _). fold (by_id inputs) in Hs, Hp.
  unfold order_inputs. run_iff. rewrite run_calm_bind, push_each_run, Ok_bind, map_id. cbn [app].
  rewrite run_calm_bind, sort_run, Ok_bind by apply _. rewrite run_unit_Ok, ids_neighbours_run by done. run_iff.
  by rewrite (Permutation_map (lc_chunk_id ∘ fi_chunk) Hp).
Qed.
End batch.

(** ** In any environment *)

Section environment.
Context {S : Type} `{Env S} `{FingerprintSizes} `{Xxh3} `{Blake3} `{Crc32c} `{!Crc32cLaws}.

Lemma accumulator_new_follows expected config :
  follows (FingerprintAccumulator_new expected config) (run_calm (FingerprintAccumulator_new expected config)).
Proof.
  unfold FingerprintAccumulator_new, SuperfeatureAccumulator_new, region_step, RollingRegion_new. follows_calm_run.
Qed.

Lemma fingerprint_bytes_follows id data config :
  follows (fingerprint_bytes id data config) (run_calm (fingerprint_bytes id data config)).
Proof. unfold fingerprint_bytes. follows_by ltac:(apply accumulator_new_follows). Qed.

Lemma stream_step_follows {R} `{Reader R} (st : FingerprintAccumulator * N * R) :
  follows (stream_step st) (run_calm (stream_step st)).
Proof.
  destruct st as [[accumulator remaining] reader]. unfold stream_step. repeat (follows_construct).
Qed.

Lemma trailing_step_follows {R} `{Reader R} (st : bool * R) :
  follows (trailing_step st) (run_calm (trailing_step st)).
Proof. destruct st as [ended reader]. unfold trailing_step. repeat (follows_construct). Qed.

Lemma fingerprint_reader_follows {R} `{Reader R} fuel chunk (reader : R) config :
  follows (fingerprint_reader_with_checkpoint fuel chunk reader config)
    (run_calm (fingerprint_reader_with_checkpoint fuel chunk reader config)).
Proof.
  unfold fingerprint_reader_with_checkpoint.
  repeat first [apply stream_step_follows|apply trailing_step_follows|apply accumulator_new_follows|follows_construct].
Qed.

Lemma check_inputs_follows inputs config :
  follows (check_inputs inputs config) (run_calm (check_inputs inputs config)).
Proof. unfold check_inputs, measure_step. follows_calm_run. Qed.

Lemma order_inputs_follows inputs : follows (order_inputs inputs) (run_calm (order_inputs inputs)).
Proof. unfold order_inputs, for_each. follows_by ltac:(apply (sort_follows_run compare_ids)). Qed.

Context `{Rayon S} `{!RayonLaws S}.

Lemma single_size n config : ensure_single_request_limits n config = Ok tt → n <= max_chunk_bytes config.
Proof.
  unfold ensure_single_request_limits, ensure_single_request_limits_u64. intros Hn. calm_inv.
  by match goal with H : ensure_chunk_size_u64 _ _ = Ok _ |- _ => apply ensure_chunk_size_Ok in H as [] end.
Qed.

(** The pool may also fail to start. *)
Definition pool_aborts (e : PithosError) : Prop :=
  aborts e ∨ (e = ResourceLimit "fingerprint parallelism" ∧ ∃ n s s', rayon_build n s = (false, s')).
Definition follows_pool {A} (m : M S A) (r : Result A) : Prop :=
  ∀ s, (m s).1 = r ∨ ∃ e, (m s).1 = Err e ∧ pool_aborts e.

Lemma pool_weaken {A} (m : M S A) r : follows m r → follows_pool m r.
Proof. intros Hm s. destruct (Hm s) as [?|(e & ? & ?)]; [by left|]. right. exists e. split; [done|by left]. Qed.

Lemma pool_bind {A B} (m : M S A) r (f : A → M S B) g :
  follows_pool m r → (∀ v, r = Ok v → follows_pool (f v) (g v)) → follows_pool (m ≫= f) (r ≫= g).
Proof.
  intros Hm Hf s. specialize (Hm s). unfold mbind at 1 3. unfold M_bind.
  destruct (m s) as [[v|e] s'] eqn:E; simpl in Hm.
  - destruct Hm as [<-|(e & ? & _)]; [|done]. simpl. by apply Hf.
  - destruct Hm as [<-|(e' & [= ->] & ?)]; simpl; [by left|eauto].
Qed.

Lemma pool_seq {A B} (m : M S A) v (k : A → M S B) r :
  follows_pool m (Ok v) → follows_pool (k v) r → follows_pool (m ≫= k) r.
Proof. intros Hm Hk. apply (pool_bind m (Ok v) k (λ _, r)); [done|]. by intros ? [= <-]. Qed.

Lemma build_pool_follows n : follows_pool (build_pool n) (Ok tt).
Proof.
  intros s. unfold build_pool. destruct (rayon_build n s) as [[] s'] eqn:E; [by left|].
  right. eexists. split; [done|]. right. eauto.
Qed.

(** A worker's slot holds the worker's result, unless it was aborted. *)
Definition slot_of (f : ChunkFingerprint) (slot : Result ChunkFingerprint) : Prop :=
  slot = Ok f ∨ ∃ e, slot = Err e ∧ aborts e.

Lemma collect_follows fps slots done_ :
  Forall2 slot_of fps slots →
  follows (fold_m (λ fingerprints slot, checkpoint;; fingerprint ← lift slot; mret (fingerprints ++ [fingerprint]))
    done_ slots) (Ok (done_ ++ fps)).
Proof.
  intros Hf. revert done_; induction Hf as [|f slot fps slots Hs Hf IH]; intros done_; cbn [fold_m].
  { rewrite app_nil_r. apply follows_ret. }
  eapply follows_seq; [|specialize (IH (done_ ++ [f])); rewrite <-app_assoc in IH; exact IH].
  eapply follows_seq; [apply follows_checkpoint|]. apply (follows_seq _ f); [|apply follows_ret].
  intros s. destruct Hs as [->|(e & -> & ?)]; [by left|]. right. eauto.
Qed.

Lemma fill_slots_run (tasks : list (M S ChunkFingerprint)) fps s :
  Forall2 (λ task f, follows task (Ok f)) tasks fps →
  ∃ slots s', fill_slots tasks s = (Ok slots, s') ∧ Forall2 slot_of fps slots.
Proof.
  intros Ht. unfold fill_slots. pose proof (rayon_slots _ tasks s) as Hs.
  destruct (rayon_for_each _ tasks s) as [slots s']. exists slots, s'. split; [done|]. cbn in Hs.
  clear s s'. revert slots Hs. induction Ht as [|task f tasks fps Hf Ht IH]; intros slots Hs.
  { by apply Forall2_nil_inv_l in Hs as ->. }
  apply Forall2_cons_inv_l in Hs as (slot & slots' & (s0 & ->) & Hs & ->). constructor; [apply Hf|by apply IH].
Qed.

Lemma fill_slots_bind (tasks : list (M S ChunkFingerprint)) fps {B} (k : _ → M S B) r :
  Forall2 (λ task f, follows task (Ok f)) tasks fps →
  (∀ slots, Forall2 slot_of fps slots → follows (k slots) r) → follows (fill_slots tasks ≫= k) r.
Proof.
  intros Ht Hk s. destruct (fill_slots_run _ _ s Ht) as (slots & s' & Hs & Hslots).
  unfold mbind, M_bind. rewrite Hs. by apply Hk.
Qed.

Lemma ordered_follows ordered config :
  FingerprintConfig_validate config = Ok tt →
  Forall (λ i, ensure_single_request_limits (len (fi_data i)) config = Ok tt) ordered →
  follows_pool (fingerprint_ordered ordered config) (Ok (ordered_result config ordered)).
Proof.
  intros Hv Hl. unfold fingerprint_ordered. eapply pool_seq; [apply build_pool_follows|].
  eapply pool_seq; [apply pool_weaken, follows_reserve|].
  assert (Forall2 (λ task f, follows task (Ok f)) (map (λ input,
      checkpoint;; fingerprint_bytes (lc_chunk_id (fi_chunk input)) (fi_data input) config) ordered)
    (map (fingerprint_input config) ordered)) as Htasks.
  { apply Forall2_fmap_l, Forall2_fmap_r, Forall_Forall2_diag. eapply Forall_impl; [exact Hl|]. intros i Hi. cbn.
    eapply follows_seq; [apply follows_checkpoint|]. unfold fingerprint_input.
    rewrite <-fingerprint_bytes_run by first [done|by apply single_size]. apply fingerprint_bytes_follows. }
  apply pool_weaken. eapply fill_slots_bind; [exact Htasks|]. intros slots Hslots.
  eapply follows_seq; [apply follows_reserve|].
  eapply follows_seq; [by apply collect_follows|]. cbn [app]. eapply follows_seq; [apply follows_checkpoint|].
  unfold ordered_result. case_bool_decide; [by apply collisions_follows|apply follows_ret].
Qed.

Lemma batch_follows inputs config :
  batch_ok inputs config →
  follows_pool (fingerprint_chunks_with_checkpoint inputs config) (Ok (batch_result config inputs)).
Proof.
  intros Hok. pose proof (single_limits _ _ Hok) as Hl. destruct Hok as [Hv Hc He Ht Hm Hn].
  unfold fingerprint_chunks_with_checkpoint. eapply pool_seq.
  { apply pool_weaken. rewrite <-(proj2 (check_inputs_run inputs config)) by done. apply check_inputs_follows. }
  case_bool_decide as Hnil.
  { subst inputs. apply pool_weaken. unfold batch_result, ordered_result. case_bool_decide; apply follows_ret. }
  apply (pool_seq _ (by_id inputs)).
  { apply pool_weaken. rewrite <-(proj2 (order_inputs_run inputs _) (conj Hn eq_refl)). apply order_inputs_follows. }
  apply ordered_follows; [done|]. destruct (insertion_sort_stable compare_ids inputs) as (_ & Hp & _).
  unfold by_id. by rewrite Hp.
Qed.

Lemma batch_returns inputs config s v s' :
  fingerprint_chunks_with_checkpoint inputs config s = (Ok v, s') → batch_ok inputs config.
Proof.
  unfold fingerprint_chunks_with_checkpoint. intros ([] & s1 & Hc & Hr)%M_bind_Ok.
  pose proof (follows_Ok_inv _ _ _ _ _ (check_inputs_follows inputs config) Hc) as Hc'.
  apply check_inputs_run in Hc' as (? & ? & ? & ? & ?). case_bool_decide as Hnil.
  { subst inputs. split; try done. apply NoDup_nil_2. }
  apply M_bind_Ok in Hr as (ordered & s2 & Ho & _).
  pose proof (follows_Ok_inv _ _ _ _ _ (order_inputs_follows inputs) Ho) as Ho'.
  apply order_inputs_run in Ho' as [? _]. by split.
Qed.
End environment.

(** ** Theorems *)

Lemma another_in {A} (l : list A) x : NoDup l → x ∈ l → (1 < length l)%nat ↔ ∃ y, y ∈ l ∧ y ≠ x.
Proof.
  intros Hn Hx. split.
  - destruct l as [|a [|b l]]; cbn; [lia..|]. intros _. apply NoDup_cons in Hn as [Hab _].
    apply elem_of_cons in Hx as [->|Hx]; [|exists a; split; [by left|by intros ->]].
    exists b. split; [right; by left|]. intros ->. apply Hab. by left.
  - intros (y & Hy & Hne). destruct l as [|a [|b l]]; cbn; [by apply elem_of_nil in Hx| |lia].
    apply list_elem_of_singleton in Hx, Hy. congruence.
Qed.

Lemma insertion_sort_map {A} (key : A → N) l :
  map key (insertion_sort (compare_on key N.compare) l) = insertion_sort N.compare (map key l).
Proof.
  assert (∀ x l, map key (insert_sorted (compare_on key N.compare) x l) = insert_sorted N.compare (key x) (map key l)) as Hi.
  { intros x. induction l0 as [|y l' IH]; [done|]. cbn.
    repeat case_decide; unfold not_greater, compare_on in *; try done; cbn; by rewrite ?IH. }
  induction l as [|x l IH]; [done|]. cbn. by rewrite Hi, IH.
Qed.

Section theorems.
Context {S : Type} `{Env S} `{FingerprintSizes} `{Xxh3} `{Blake3} `{Crc32c} `{Hcrc : !Crc32cLaws}.

(** Another chunk of the batch has the compact identity of this one. *)
Definition has_twin (inputs : list FingerprintInput) (i : FingerprintInput) : Prop :=
  ∃ j, j ∈ inputs ∧ lc_chunk_id (fi_chunk j) ≠ lc_chunk_id (fi_chunk i) ∧ key_of (fi_data j) = key_of (fi_data i).

Lemma collides_twin inputs i :
  NoDup (map (lc_chunk_id ∘ fi_chunk) inputs) → i ∈ inputs →
  collides inputs (fi_data i) = true ↔ has_twin inputs i.
Proof.
  intros Hn Hi. unfold collides. rewrite Nat.ltb_lt. rewrite (another_in _ i).
  - unfold has_twin. split; intros (j & Hj & Hne).
    + apply list_elem_of_filter in Hj as [Hk Hj]. exists j. split; [done|]. split; [|done]. intros Hid. apply Hne.
      apply list_elem_of_lookup in Hi as [a Ha]. apply list_elem_of_lookup in Hj as [b Hb].
      assert (a = b) as ->; [|congruence].
      apply (NoDup_lookup (map (lc_chunk_id ∘ fi_chunk) inputs) a b (lc_chunk_id (fi_chunk i))); [done|..];
        rewrite list_lookup_fmap; [by rewrite Ha|rewrite Hb; cbn; by f_equal].
    + destruct Hne as [Hid Hk]. exists j. split; [by apply list_elem_of_filter|]. by intros ->.
  - apply NoDup_filter. by eapply NoDup_fmap_1.
  - by apply list_elem_of_filter.
Qed.

(** C39: [fingerprint_bytes] computes, in any environment, the fingerprint of
    the chunk: the hashes of all its bytes and, for every region of the
    chunk, the maximum of the polynomial hashes of all windows that lie in
    it, which the ring buffer with its wrap-around arithmetic maintains; or
    it reports that the chunk is too long. *)
Theorem fingerprint_bytes_correct config chunk_id data :
  FingerprintConfig_validate config = Ok tt →
  follows (fingerprint_bytes chunk_id data config)
    (ensure_chunk_size (len data) config;; Ok (fingerprint_of config chunk_id data)).
Proof.
  intros Hv. destruct (ensure_chunk_size (len data) config) as [[]|e] eqn:He.
  - rewrite Ok_bind, <-fingerprint_bytes_run; [apply fingerprint_bytes_follows|done..|].
    unfold ensure_chunk_size in He. calm_inv. by apply ensure_chunk_size_Ok.
  - intros s. left. unfold fingerprint_bytes. by rewrite He.
Qed.

(** The streaming fingerprinter computes the fingerprint of the bytes of
    its reader, however the reader splits them and as often as it is
    interrupted, and rejects a stream that is shorter or longer than the
    chunk; its loops end within the length of the chunk and the number of
    interruptions. *)
Theorem fingerprint_reader_correct `{RetryReader R} fuel chunk (reader : R) config :
  (N.to_nat (lc_length chunk) + retries reader < fuel)%nat →
  follows (fingerprint_reader_with_checkpoint fuel chunk reader config)
    (reader_result chunk (retry_stream reader) config).
Proof. intros Hf. rewrite <-(reader_run fuel) by done. apply fingerprint_reader_follows. Qed.

(** C38: The parallel fingerprinter accepts exactly the batches within the
    limits whose identifiers differ.  It returns their fingerprints in the
    order of the identifiers, however the pool schedules the workers; a chunk
    keeps its full hash under the paranoid policy or when another chunk of
    the batch has the same compact identity, and no other chunk does. *)
Theorem fingerprint_chunks_correct `{Rayon S} `{Hpool : !RayonLaws S} inputs config :
  (batch_ok inputs config →
    follows_pool (fingerprint_chunks_with_checkpoint inputs config) (Ok (batch_result config inputs))) ∧
  (∀ s v s', fingerprint_chunks_with_checkpoint inputs config s = (Ok v, s') →
    batch_ok inputs config ∧ map cf_chunk_id v = insertion_sort N.compare (map (lc_chunk_id ∘ fi_chunk) inputs) ∧
    ∀ i, i ∈ inputs → ∃ f, f ∈ v ∧ cf_chunk_id f = lc_chunk_id (fi_chunk i) ∧
      compact_key f = key_of (fi_data i) ∧ cf_superfeatures f = superfeatures_of config (fi_data i) ∧
      (cf_full_blake3 f = Some (blake3 (fi_data i)) ∧ (full_hash_policy config = Paranoid ∨ has_twin inputs i) ∨
       cf_full_blake3 f = None ∧ full_hash_policy config = Standard ∧ ¬ has_twin inputs i)).
Proof.
  split; [apply batch_follows|]. intros s v s' Hr. pose proof (batch_returns _ _ _ _ _ Hr) as Hok. split; [done|].
  pose proof (batch_follows _ _ Hok s) as Hf. rewrite Hr in Hf. destruct Hf as [[= ->]|(? & ? & _)]; [|done].
  pose proof (ba_ids _ _ Hok) as Hn. destruct (insertion_sort_stable compare_ids inputs) as (_ & Hp & _).
  fold (by_id inputs) in Hp. split.
  - rewrite <-insertion_sort_map. change (insertion_sort (compare_on (lc_chunk_id ∘ fi_chunk) N.compare) inputs) with (by_id inputs).
    unfold batch_result, ordered_result. destruct (bool_decide _); rewrite map_map; [|done].
    apply map_ext. intros i. unfold escalated. by destruct (collides _ _).
  - intros i Hi. rewrite <-Hp in Hi. assert (has_twin inputs i ↔ collides (by_id inputs) (fi_data i) = true) as Htwin.
    { rewrite collides_twin by (rewrite ?(Permutation_map _ Hp); done). unfold has_twin. by setoid_rewrite Hp. }
    unfold batch_result, ordered_result. case_bool_decide as Hpol.
    + exists (escalated config (by_id inputs) i). split; [by apply list_elem_of_fmap_2|].
      rewrite Htwin. unfold escalated.
      destruct (collides (by_id inputs) (fi_data i)); split_and!; try done; [left; by auto|right].
      cbn. rewrite Hpol. cbn. done.
    + exists (fingerprint_input config i). split; [by apply list_elem_of_fmap_2|]. split_and!; try done.
      left. destruct (full_hash_policy config) eqn:E; [done|]. cbn. rewrite E. cbn. by auto.
Qed.
End theorems.

(** ** Witnesses *)

Module FingerprintSample.
(** Hashes that collide, so that the batch has twins. *)
Definition xxh3 : Xxh3 := λ data, N.of_nat (length data).
Definition hash : Blake3 := λ data, replicate 31 (byte_of 0) ++ [match data with b :: _ => b | [] => byte_of 0 end].
Definition sizes : FingerprintSizes := {|
  size_of_ChunkFingerprint := 160; size_of_input_reference := 8; size_of_slot := 176;
  size_of_CollisionCandidate := 40; size_of_RollingRegion := 88; size_of_FingerprintAccumulator := 2800 |}.
(** A pool that runs the tasks one after the other. *)
Definition pool : Rayon unit := {|
  rayon_build := λ _ s, (true, s);
  rayon_for_each := λ A tasks s, (map run_calm tasks, s);
|}.
Definition config : FingerprintConfig := FingerprintConfig_default.
Definition data (l : list N) : list byte := map byte_of l.
Definition chunk (id length : N) : LogicalChunk :=
  {| lc_chunk_id := id; lc_entry_id := 1; lc_object_id := 1; lc_logical_offset := 0; lc_length := length;
     lc_method := FastCdcV2020 |}.
Definition input (id : N) (l : list N) : FingerprintInput :=
  {| fi_chunk := chunk id (N.of_nat (length l)); fi_data := data l |}.
Definition inputs : list FingerprintInput := [input 9 [1; 2; 3]; input 4 [7; 8]; input 2 [1; 2; 4]].

Lemma pool_laws : @RayonLaws unit pool.
Proof. intros A tasks s. induction tasks; constructor; [by exists tt|done]. Qed.
End FingerprintSample.
#[local] Existing Instances FingerprintSample.xxh3 FingerprintSample.hash FingerprintSample.sizes
  FingerprintSample.pool crc32c_castagnoli.

#[export, refine] Instance trickle_retry : RetryReader trickle :=
  {| retry_stream := λ '(Trickle data), data; retries := λ _, 0%nat |}.
Proof.
  intros n [data] Hn. right. eexists _, _. split; [reflexivity|].
  split_and!; [symmetry; apply take_drop|rewrite length_take; lia| |done].
  rewrite Nat.min_r by lia. by destruct data.
Defined.

Lemma fingerprint_bytes_correct_witness :
  FingerprintConfig_validate FingerprintSample.config = Ok tt ∧
  follows (fingerprint_bytes (S := unit) 5 (FingerprintSample.data [1; 2; 3]) FingerprintSample.config)
    (Ok {| cf_chunk_id := 5; cf_length := 3; cf_xxh3 := 3; cf_blake3_128 := replicate 16 (byte_of 0);
           cf_full_blake3 := None; cf_crc32c := crc32c (FingerprintSample.data [1; 2; 3]);
           cf_superfeatures := [24; 24; 24; 24] |}).
Proof.
  assert (FingerprintConfig_validate FingerprintSample.config = Ok tt) as Hv by (vm_compute; reflexivity).
  split; [exact Hv|].
  exact (fingerprint_bytes_correct (S := unit) (Hcrc := crc32c_castagnoli_laws) FingerprintSample.config 5
    (FingerprintSample.data [1; 2; 3]) Hv).
Defined.

Lemma fingerprint_reader_correct_witness :
  (3 < 4)%nat ∧
  follows (fingerprint_reader_with_checkpoint (S := unit) 4 (FingerprintSample.chunk 5 3)
      (Trickle (FingerprintSample.data [1; 2; 3; 4])) FingerprintSample.config)
    (Err (InvalidMetadata "trailing fingerprint data")).
Proof.
  split; [lia|].
  assert (reader_result (FingerprintSample.chunk 5 3) (retry_stream (Trickle (FingerprintSample.data [1; 2; 3; 4])))
    FingerprintSample.config = Err (InvalidMetadata "trailing fingerprint data")) as <- by (vm_compute; reflexivity).
  apply (fingerprint_reader_correct (S := unit) (Hcrc := crc32c_castagnoli_laws) 4
    (FingerprintSample.chunk 5 3) (Trickle (FingerprintSample.data [1; 2; 3; 4])) FingerprintSample.config).
  vm_compute. lia.
Defined.

Lemma fingerprint_chunks_correct_witness :
  batch_ok FingerprintSample.inputs FingerprintSample.config ∧
  ∃ v s, fingerprint_chunks_with_checkpoint (S := unit) FingerprintSample.inputs FingerprintSample.config tt = (Ok v, s) ∧
    map cf_chunk_id v = [2; 4; 9] ∧ map (λ f, bool_decide (is_Some (cf_full_blake3 f))) v = [true; false; true].
Proof.
  destruct (fingerprint_chunks_correct (S := unit) (Hpool := FingerprintSample.pool_laws)
    (Hcrc := crc32c_castagnoli_laws) FingerprintSample.inputs FingerprintSample.config) as [_ Hr].
  destruct (fingerprint_chunks_with_checkpoint FingerprintSample.inputs FingerprintSample.config tt) as [r s] eqn:E.
  assert (r = (fingerprint_chunks_with_checkpoint FingerprintSample.inputs FingerprintSample.config tt).1) as Hv by by rewrite E.
  vm_compute in Hv. subst r. destruct (Hr _ _ _ E) as (Hok & Hid & _). split; [exact Hok|].
  eexists _, s. split; [reflexivity|]. split; [rewrite Hid; vm_compute; reflexivity|vm_compute; reflexivity].
Defined.
