(* ===== verification/TaskScheduler.v ===== *)
(** * The task scheduler of the engine ([crates/pithos-engine/src/scheduler.rs])

    The validation of the task graph, the choice of the next task and the
    dispatch loop of [execute_scheduled], whose workers run concurrently: a
    step relation whose choices are the order in which workers finish, what
    they observe of the cancellation flag, and when the flag is raised. *)

From S2P Require Import Prelude Core Bytes Sorting.

Inductive JobPriority :=
  | InteractiveRead | InteractiveExtract | VerifyRequested
  | PackForeground | PackBackground | Benchmark.

Definition JobPriority_rank (p : JobPriority) : N :=
  match p with
  | InteractiveRead => 0
  | InteractiveExtract => 1
  | VerifyRequested => 2
  | PackForeground => 3
  | PackBackground => 4
  | Benchmark => 5
  end.

Record ResourceEstimate := { re_input_bytes : N; re_scratch_bytes : N; re_output_bound : N }.

Definition ResourceEstimate_total (r : ResourceEstimate) : Result N :=
  ok_or IntegerOverflow
    (value ← checked_add (re_input_bytes r) (re_scratch_bytes r); checked_add value (re_output_bound r)).

(** [CancellationToken::checkpoint] when the flag reads [cancelled]. *)
Definition CancellationToken_checkpoint (cancelled : bool) : Result unit :=
  if cancelled then Err Cancelled else Ok tt.

(** A task; its action is a closure of the caller, which may poll the token:
    [st_action cancelled] is its result when it reads [cancelled]. *)
Record ScheduledTask := {
  st_task_id : N;
  st_priority : JobPriority;
  st_dependencies : list N;
  st_resources : ResourceEstimate;
  st_action : bool → Result (list byte);
}.

Record SchedulerConfig := { sc_workers : N; sc_memory_budget : N }.

(** [SchedulerConfig::new] of a path that is, or is not, a directory. *)
Definition SchedulerConfig_new (workers memory_budget : N) (is_dir : Result bool) :
    Result SchedulerConfig :=
  if (workers =? 0) || (memory_budget =? 0)
  then Err (InvalidMetadata "scheduler limits must be nonzero") else
  is_dir ← is_dir;
  if negb is_dir then Err (InvalidMetadata "spool path is not a directory") else
  Ok {| sc_workers := workers; sc_memory_budget := memory_budget |}.

Definition SchedulerConfig_queue_capacity (config : SchedulerConfig) : N :=
  N.max (saturating_mul (sc_workers config) 2) 4.

(** A finished task and the content of its spool file. *)
Record SpoolHandle := { sp_task_id : N; sp_file : list byte; sp_len : N }.

(** ** Validation of the task graph *)

(** One iteration of [for task in tasks]. *)
Definition dag_step (ids : gset N) (st : gmap N N * gmap N (list N)) (task : ScheduledTask) :
    Result (gmap N N * gmap N (list N)) :=
  let '(indegree, dependents) := st in
  let unique_dependencies : gset N := list_to_set (st_dependencies task) in
  if negb (Nat.eqb (size unique_dependencies) (length (st_dependencies task))) ||
     existsb (λ dependency, negb (bool_decide (dependency ∈ ids))) (ascending unique_dependencies)
  then Err (InvalidMetadata "invalid scheduler dependency") else
  Ok (<[st_task_id task := N.of_nat (size unique_dependencies)]> indegree,
      fold_left (λ dependents dependency,
          <[dependency := default [] (dependents !! dependency) ++ [st_task_id task]]> dependents)
        (ascending unique_dependencies) dependents).

(** One iteration of [for child in children]. *)
Definition child_step (st : gmap N N * list N) (child : N) : Result (gmap N N * list N) :=
  let '(indegree, ready) := st in
  count ← ok_or (InvalidMetadata "invalid scheduler dependency") (indegree !! child);
  count ← ok_or IntegerOverflow (checked_sub count 1);
  Ok (<[child := count]> indegree, if count =? 0 then ready ++ [child] else ready).

(** [while let Some(id) = ready.pop_front()].  Every task is popped at most
    once, so that as many iterations as tasks are enough. *)
Fixpoint dag_loop (fuel : nat) (dependents : gmap N (list N)) (indegree : gmap N N)
    (ready : list N) (visited : N) : Result N :=
  match ready with
  | [] => Ok visited
  | id :: ready =>
      match fuel with
      | O => Err (InvalidMetadata "model: out of fuel")
      | S fuel =>
          visited ← ok_or IntegerOverflow (checked_add visited 1);
          '(indegree, ready) ← try_fold child_step (indegree, ready) (default [] (dependents !! id));
          dag_loop fuel dependents indegree ready visited
      end
  end.

Definition validate_dag (tasks : list ScheduledTask) : Result unit :=
  let ids : gset N := list_to_set (map st_task_id tasks) in
  if negb (Nat.eqb (size ids) (length tasks))
  then Err (InvalidMetadata "duplicate scheduler task ID") else
  '(indegree, dependents) ← try_fold (dag_step ids) (∅, ∅) tasks;
  let ready := filter (λ id, indegree !! id = Some 0) (ascending (dom indegree)) in
  visited ← dag_loop (length tasks) dependents indegree ready 0;
  if negb (visited =? len tasks) then Err DependencyCycle else Ok tt.

(** ** Choice of the next task *)

(** The lexicographic order of [(rank, task_id)]. *)
Definition key_ltb (x y : N * N) : bool := (x.1 <? y.1) || ((x.1 =? y.1) && (x.2 <? y.2)).

(** [Iterator::min_by_key]: the first of the least elements. *)
Definition min_by_key {A} (l : list ((N * N) * A)) : option ((N * N) * A) :=
  fold_left (λ best x,
    match best with
    | None => Some x
    | Some b => if key_ltb x.1 b.1 then Some x else Some b
    end) l None.

Abbreviation Pending := (list (option (ScheduledTask * N))).

(** Whether a pending entry can be dispatched. *)
Definition is_ready (completed : gset N) (available_memory : N) (task : ScheduledTask) (memory : N) : bool :=
  negb ((available_memory <? memory) ||
        negb (forallb (λ dependency, bool_decide (dependency ∈ completed)) (st_dependencies task))).

Definition next_ready_task (pending : Pending) (completed : gset N) (available_memory : N) : option N :=
  snd <$> min_by_key (omap (λ '(index, item),
    '(task, memory) ← item;
    if is_ready completed available_memory task memory
    then Some ((JobPriority_rank (st_priority task), st_task_id task), index) else None)
    (enumerate pending)).

(** ** One worker *)

(** [run_task] when the token reads [before] at its start, [during] in the
    action and [after] at its end, and [spool] is the outcome of creating and
    writing the spool file. *)
Definition run_task (task : ScheduledTask) (before during after : bool) (spool : Result unit) :
    Result SpoolHandle :=
  CancellationToken_checkpoint before;;
  payload ← st_action task during;
  CancellationToken_checkpoint after;;
  len ← ok_or IntegerOverflow (u64_try_from (len payload));
  if re_output_bound (st_resources task) <? len
  then Err (ResourceLimit "scheduled task exceeded reserved output bound") else
  spool;;
  Ok {| sp_task_id := st_task_id task; sp_file := payload; sp_len := len |}.

(** ** The dispatch loop *)

(** Where the loop is: at its head, in the inner loop (which has or has not
    dispatched), after it, blocked on the result channel, or returned. *)
Inductive phase :=
  | Head
  | Dispatching (dispatched : bool)
  | After (dispatched : bool)
  | Receiving
  | Returned (result : Result (list SpoolHandle)).

Record scheduler := {
  sc_pending : Pending;
  sc_available : N;
  sc_running : N;
  sc_in_flight : list (ScheduledTask * N);  (* the workers that have not reported *)
  sc_completed_ids : gset N;
  sc_completed : list SpoolHandle;
  sc_cancelled : bool;
  sc_phase : phase;
}.

Definition with_phase (st : scheduler) (p : phase) : scheduler := {|
  sc_pending := sc_pending st; sc_available := sc_available st; sc_running := sc_running st;
  sc_in_flight := sc_in_flight st; sc_completed_ids := sc_completed_ids st;
  sc_completed := sc_completed st; sc_cancelled := sc_cancelled st; sc_phase := p |}.

Definition with_cancelled (st : scheduler) : scheduler := {|
  sc_pending := sc_pending st; sc_available := sc_available st; sc_running := sc_running st;
  sc_in_flight := sc_in_flight st; sc_completed_ids := sc_completed_ids st;
  sc_completed := sc_completed st; sc_cancelled := true; sc_phase := sc_phase st |}.

(** The state before the loop. *)
Definition execute_start (tasks : list ScheduledTask) (config : SchedulerConfig)
    (cancelled pool_built : bool) : Result scheduler :=
  validate_dag tasks;;
  CancellationToken_checkpoint cancelled;;
  pending ← try_map (λ task,
    memory ← ResourceEstimate_total (st_resources task);
    if sc_memory_budget config <? memory then Err MemoryLimit else Ok (Some (task, memory))) tasks;
  if negb pool_built then Err (InvalidMetadata "failed to build scheduler worker pool") else
  Ok {| sc_pending := pending; sc_available := sc_memory_budget config; sc_running := 0;
        sc_in_flight := []; sc_completed_ids := ∅; sc_completed := []; sc_cancelled := cancelled;
        sc_phase := Head |}.

(** The body of the inner loop once a task has been chosen. *)
Definition dispatch (st : scheduler) (index : N) : Result scheduler :=
  '(task, memory) ← ok_or (InvalidMetadata "task dispatched twice")
    (item ← sc_pending st !! N.to_nat index; item);
  available_memory ← ok_or IntegerOverflow (checked_sub (sc_available st) memory);
  running ← ok_or IntegerOverflow (checked_add (sc_running st) 1);
  Ok {| sc_pending := <[N.to_nat index := None]> (sc_pending st);
        sc_available := available_memory; sc_running := running;
        sc_in_flight := sc_in_flight st ++ [(task, memory)];
        sc_completed_ids := sc_completed_ids st; sc_completed := sc_completed st;
        sc_cancelled := sc_cancelled st; sc_phase := Dispatching true |}.

(** [receiver.recv()] of the worker at position [k]. *)
Definition collect (st : scheduler) (k : nat) (memory : N) (result : Result SpoolHandle) :
    Result scheduler :=
  running ← ok_or IntegerOverflow (checked_sub (sc_running st) 1);
  available_memory ← ok_or IntegerOverflow (checked_add (sc_available st) memory);
  let in_flight := delete k (sc_in_flight st) in
  match result with
  | Ok spool => Ok {|
      sc_pending := sc_pending st; sc_available := available_memory; sc_running := running;
      sc_in_flight := in_flight;
      sc_completed_ids := {[ sp_task_id spool ]} ∪ sc_completed_ids st;
      sc_completed := sc_completed st ++ [spool]; sc_cancelled := sc_cancelled st;
      sc_phase := Head |}
  | Err error => Ok {|
      sc_pending := sc_pending st; sc_available := available_memory; sc_running := running;
      sc_in_flight := in_flight; sc_completed_ids := sc_completed_ids st;
      sc_completed := sc_completed st; sc_cancelled := true;
      sc_phase := Returned (Err error) |}
  end.

(** An early return by [?]. *)
Definition or_return (st : scheduler) (r : Result scheduler) : scheduler :=
  match r with Ok st' => st' | Err e => with_phase st (Returned (Err e)) end.

(** What happens next: another thread raises the flag, the loop makes a step,
    or the worker at position [k] reports. *)
Inductive choice :=
  | Cancel
  | Proceed
  | Report (k : nat) (before during after : bool) (spool : Result unit).

Definition compare_spool (x y : SpoolHandle) : comparison := sp_task_id x ?= sp_task_id y.

Definition sched_step (config : SchedulerConfig) (task_count : N) (st : scheduler) (c : choice) :
    option scheduler :=
  match sc_phase st, c with
  | Returned _, _ => None
  | _, Cancel => Some (with_cancelled st)
  | Head, Proceed =>
      if len (sc_completed st) <? task_count then Some (with_phase st (Dispatching false))
      else Some (with_phase st (Returned (Ok (insertion_sort compare_spool (sc_completed st)))))
  | Dispatching dispatched, Proceed =>
      if (sc_running st <? sc_workers config) && negb (sc_cancelled st) then
        match next_ready_task (sc_pending st) (sc_completed_ids st) (sc_available st) with
        | None => Some (with_phase st (After dispatched))
        | Some index => Some (or_return st (dispatch st index))
        end
      else Some (with_phase st (After dispatched))
  | After dispatched, Proceed =>
      if sc_running st =? 0 then
        if sc_cancelled st then Some (with_phase st (Returned (Err Cancelled)))
        else Some (with_phase st (Returned (Err DependencyCycle)))
      else if negb dispatched || (sc_workers config <=? sc_running st)
      then Some (with_phase st Receiving) else Some (with_phase st Head)
  | Receiving, Report k before during after spool =>
      (* a worker reads the flag only after it has been raised *)
      if implb (before || during || after) (sc_cancelled st) then
        '(task, memory) ← sc_in_flight st !! k;
        Some (or_return st (collect st k memory (run_task task before during after spool)))
      else None
  | _, _ => None
  end.

(** The loop as a transition relation. *)
Definition sched_rel (config : SchedulerConfig) (task_count : N) (st st' : scheduler) : Prop :=
  ∃ c, sched_step config task_count st c = Some st'.

(** ** Specification: acyclic task graphs *)

Definition depends_on (tasks : list ScheduledTask) (d id : N) : Prop :=
  ∃ task, task ∈ tasks ∧ st_task_id task = id ∧ d ∈ st_dependencies task.

(** Identifiers are unique, and each task names existing tasks once. *)
Definition well_named (tasks : list ScheduledTask) : Prop :=
  NoDup (map st_task_id tasks) ∧
  Forall (λ task, NoDup (st_dependencies task) ∧
    Forall (λ d, d ∈ map st_task_id tasks) (st_dependencies task)) tasks.

(** Every chain of dependencies ends. *)
Definition acyclic (tasks : list ScheduledTask) : Prop := ∀ id, Acc (depends_on tasks) id.

Lemma tc_last {A} (R : relation A) x y : tc R x y → ∃ z, rtc R x z ∧ R z y.
Proof.
  induction 1 as [x y Hxy|x z y Hxz _ (u & Hzu & Huy)]; [by exists x|].
  exists u. split; [by eapply rtc_l|done].
Qed.

Lemma acyclic_no_cycle tasks id : acyclic tasks → ¬ tc (depends_on tasks) id id.
Proof.
  intros Ha. induction (Ha id) as [id _ IH]. intros (d & Hid & Hd)%tc_last.
  apply (IH d Hd). by eapply tc_rtc_r; [apply tc_once|].
Qed.

Lemma size_NoDup (l : list N) : size (list_to_set (C := gset N) l) = length l ↔ NoDup l.
Proof.
  split; [|apply size_list_to_set]. intros Hs.
  assert (elements (list_to_set (C := gset N) l) ⊆+ l) as Hsub.
  { apply NoDup_submseteq; [apply NoDup_elements|]. intros x. by rewrite elem_of_elements, elem_of_list_to_set. }
  apply submseteq_length_Permutation in Hsub; [|by rewrite <-Hs].
  rewrite <-Hsub. apply NoDup_elements.
Qed.

(** ** The construction of the graph *)

Definition deps_ok (ids : gset N) (task : ScheduledTask) : Prop :=
  NoDup (st_dependencies task) ∧ Forall (λ d, d ∈ ids) (st_dependencies task).

(** The dependents of [d] among [tasks], in order. *)
Definition dependents_of (tasks : list ScheduledTask) (d : N) : list N :=
  map st_task_id (filter (λ task, d ∈ st_dependencies task) tasks).

Definition graph_of (tasks : list ScheduledTask) (st : gmap N N * gmap N (list N)) : Prop :=
  (∀ task, task ∈ tasks → st.1 !! st_task_id task = Some (len (st_dependencies task))) ∧
  dom st.1 = list_to_set (map st_task_id tasks) ∧
  ∀ d, default [] (st.2 !! d) = dependents_of tasks d.

Lemma push_dependents id ds (m : gmap N (list N)) d :
  NoDup ds →
  default [] (fold_left (λ m dependency, <[dependency := default [] (m !! dependency) ++ [id]]> m) ds m !! d) =
  default [] (m !! d) ++ if decide (d ∈ ds) then [id] else [].
Proof.
  intros Hnd. revert m; induction Hnd as [|d' ds Hn Hnd IH]; intros m; cbn [fold_left].
  { rewrite decide_False by apply not_elem_of_nil. by rewrite app_nil_r. }
  rewrite IH. destruct (decide (d = d')) as [->|Hne].
  - rewrite lookup_insert_eq. cbn. rewrite decide_False by done.
    rewrite decide_True by by left. by rewrite app_nil_r.
  - rewrite lookup_insert_ne by done. f_equal.
    destruct (decide (d ∈ ds)); [rewrite decide_True|rewrite decide_False]; set_solver.
Qed.

Lemma dag_step_spec ids st task :
  (deps_ok ids task ∧ ∃ dependents',
    dag_step ids st task = Ok (<[st_task_id task := len (st_dependencies task)]> st.1, dependents') ∧
    ∀ d, default [] (dependents' !! d) =
      default [] (st.2 !! d) ++ if decide (d ∈ st_dependencies task) then [st_task_id task] else []) ∨
  (¬ deps_ok ids task ∧ dag_step ids st task = Err (InvalidMetadata "invalid scheduler dependency")).
Proof.
  destruct st as [indegree dependents]. unfold dag_step, deps_ok. cbn [fst snd].
  destruct (Nat.eqb_spec (size (list_to_set (C := gset N) (st_dependencies task)))
    (length (st_dependencies task))) as [Hs|Hs]; cbn [negb orb].
  2: { right. split; [|done]. rewrite size_NoDup in Hs. by intros [? _]. }
  destruct (existsb _ _) eqn:He.
  { right. split; [|done]. apply existsb_exists in He as (d & Hd & Hn).
    apply negb_true_iff, bool_decide_eq_false in Hn. intros [_ Hall]. rewrite Forall_forall in Hall.
    apply Hn, Hall. by apply list_elem_of_In, elem_of_ascending, elem_of_list_to_set in Hd. }
  left. assert (Hall : Forall (λ d, d ∈ ids) (st_dependencies task)).
  { apply Forall_forall. intros d Hd. apply dec_stable. intros Hn.
    assert (existsb (λ d, negb (bool_decide (d ∈ ids)))
      (ascending (list_to_set (st_dependencies task))) = true); [|congruence].
    apply existsb_exists. exists d. split; [|by rewrite bool_decide_eq_false_2].
    by apply list_elem_of_In, elem_of_ascending, elem_of_list_to_set. }
  split; [split; [by apply size_NoDup|done]|]. eexists. split; [unfold len; by rewrite Hs|].
  intros d. rewrite push_dependents by apply NoDup_ascending. f_equal.
  destruct (decide (d ∈ st_dependencies task)) as [Hd|Hd]; [rewrite decide_True|rewrite decide_False]; try done;
    by rewrite elem_of_ascending, elem_of_list_to_set.
Qed.

Lemma dag_fold_spec ids before tasks st :
  graph_of before st → NoDup (map st_task_id (before ++ tasks)) →
  (Forall (deps_ok ids) tasks ∧ ∃ st', try_fold (dag_step ids) st tasks = Ok st' ∧
    graph_of (before ++ tasks) st') ∨
  (¬ Forall (deps_ok ids) tasks ∧
    try_fold (dag_step ids) st tasks = Err (InvalidMetadata "invalid scheduler dependency")).
Proof.
  revert before st; induction tasks as [|task tasks IH]; intros before st Hg Hnd; cbn [try_fold].
  { left. split; [constructor|]. exists st. by rewrite app_nil_r. }
  destruct (dag_step_spec ids st task) as [(Hok & deps' & -> & Hdeps)|[Hn ->]]; cbn [mbind result_bind].
  2: { right. split; [|done]. by inversion 1. }
  destruct Hg as (Hin & Hdom & Hd).
  assert (Hfresh : st_task_id task ∉ map st_task_id before).
  { rewrite map_app in Hnd. apply NoDup_app in Hnd as (_ & Hnd & _). intros Hx.
    apply (Hnd _ Hx). by left. }
  destruct (IH (before ++ [task]) (<[st_task_id task := len (st_dependencies task)]> st.1, deps')) as
    [[Hall (st' & E & Hg')]|[Hn E]].
  - split; [|split]; cbn [fst snd].
    + intros t [Ht|Ht%list_elem_of_singleton]%elem_of_app.
      * rewrite lookup_insert_ne; [by apply Hin|]. intros Heq. apply Hfresh. rewrite Heq.
        by apply list_elem_of_fmap_2.
      * subst t. by rewrite lookup_insert_eq.
    + rewrite dom_insert_L, Hdom, map_app, list_to_set_app_L. cbn. set_solver.
    + intros d. rewrite Hdeps, Hd. unfold dependents_of. rewrite filter_app, map_app. f_equal.
      rewrite filter_cons. by destruct (decide _).
  - by rewrite <-app_assoc.
  - left. split; [by constructor|]. exists st'. by rewrite <-app_assoc in Hg'.
  - right. split; [by inversion 1|done].
Qed.

(** ** The topological loop *)

Lemma child_step_run indegree ready c n :
  indegree !! c = Some n → 1 <= n →
  child_step (indegree, ready) c =
  Ok (<[c := n - 1]> indegree, if n - 1 =? 0 then ready ++ [c] else ready).
Proof.
  intros Hc Hn. unfold child_step. rewrite Hc. cbn [ok_or mbind result_bind].
  by rewrite checked_sub_ok by done.
Qed.

Lemma child_fold_spec indegree ready children :
  NoDup children →
  (∀ c, c ∈ children → ∃ n, indegree !! c = Some n ∧ 1 <= n) →
  ∃ indegree', try_fold child_step (indegree, ready) children =
    Ok (indegree', ready ++ filter (λ c, indegree !! c = Some 1) children) ∧
    ∀ x, indegree' !! x = (λ n, if decide (x ∈ children) then n - 1 else n) <$> indegree !! x.
Proof.
  intros Hnd. revert indegree ready; induction Hnd as [|c children Hc Hnd IH]; intros indegree ready Hn;
    cbn [try_fold].
  { exists indegree. rewrite app_nil_r. split; [done|]. intros x. by destruct (indegree !! x). }
  destruct (Hn c) as (n & Hcn & Hpos); [by left|].
  rewrite (child_step_run _ _ _ _ Hcn Hpos). cbn [mbind result_bind].
  destruct (IH (<[c := n - 1]> indegree) (if n - 1 =? 0 then ready ++ [c] else ready)) as
    (indegree' & E & Hx).
  - intros c' Hc'. assert (c' ≠ c) by (intros ->; done).
    destruct (Hn c') as (n' & ? & ?); [by right|]. exists n'. by rewrite lookup_insert_ne.
  - exists indegree'. split.
    + rewrite E. do 2 f_equal. rewrite filter_cons.
      assert (filter (λ c0, <[c:=n - 1]> indegree !! c0 = Some 1) children =
        filter (λ c0, indegree !! c0 = Some 1) children) as ->.
      { clear -Hc. induction children as [|d children IH]; [done|]. rewrite !filter_cons.
        rewrite IH by set_solver. rewrite lookup_insert_ne by set_solver. done. }
      destruct (N.eqb_spec (n - 1) 0), (decide (indegree !! c = Some 1)) as [H1|H1];
        rewrite <-?app_assoc; try done; rewrite Hcn in H1.
      * exfalso. apply H1. f_equal. lia.
      * injection H1. lia.
    + intros x. rewrite Hx. destruct (decide (x = c)) as [->|Hne].
      * rewrite lookup_insert_eq, Hcn. cbn. rewrite decide_False by done.
        by rewrite decide_True by by left.
      * rewrite lookup_insert_ne by done. destruct (indegree !! x); [cbn; f_equal|done].
        destruct (decide (x ∈ children)); [rewrite decide_True|rewrite decide_False]; set_solver.
Qed.

Lemma filter_remove (d : N) l :
  NoDup l → len (filter (λ x, x ≠ d) l) = if decide (d ∈ l) then len l - 1 else len l.
Proof.
  induction 1 as [|x l Hx Hnd IH]; [by rewrite decide_False by apply not_elem_of_nil|].
  rewrite filter_cons. destruct (decide (x ≠ d)) as [Hne|Heq].
  - rewrite !len_cons, IH. destruct (decide (d ∈ l)) as [Hin|Hin].
    + rewrite decide_True by by right. destruct l; [by apply not_elem_of_nil in Hin|].
      rewrite len_cons. lia.
    + rewrite decide_False; [done|]. set_solver.
  - apply dec_stable in Heq as ->. rewrite decide_True by by left.
    rewrite IH, decide_False, len_cons by done. lia.
Qed.

Section kahn.
Context (tasks : list ScheduledTask) (dependents : gmap N (list N)).
#[local] Abbreviation ids := (map st_task_id tasks).
Context (Hids : NoDup ids) (Hdeps : Forall (deps_ok (list_to_set ids)) tasks).
Context (Hdependents : ∀ d, default [] (dependents !! d) = dependents_of tasks d).

(** The dependencies of [task] that have not been visited. *)
Definition unvisited (V : list N) (task : ScheduledTask) : list N :=
  filter (λ d, d ∉ V) (st_dependencies task).

Record kahn_inv (V : list N) (indegree : gmap N N) (ready : list N) : Prop := {
  kahn_nodup : NoDup (V ++ ready);
  kahn_ids : ∀ x, x ∈ V ++ ready → x ∈ ids;
  kahn_indegree : ∀ task, task ∈ tasks →
    indegree !! st_task_id task = Some (len (unvisited V task));
  kahn_ready : ∀ task, task ∈ tasks → st_task_id task ∈ V ++ ready ↔ unvisited V task = [];
  kahn_acc : ∀ x, x ∈ V → Acc (depends_on tasks) x;
}.

Lemma task_eq t1 t2 : t1 ∈ tasks → t2 ∈ tasks → st_task_id t1 = st_task_id t2 → t1 = t2.
Proof.
  intros (i & Hi)%list_elem_of_lookup (j & Hj)%list_elem_of_lookup He.
  assert (i = j) as ->; [|congruence].
  apply (NoDup_lookup ids i j (st_task_id t1) Hids); rewrite list_lookup_fmap;
    [by rewrite Hi|by rewrite Hj, He].
Qed.

Lemma unvisited_snoc V id task :
  unvisited (V ++ [id]) task = filter (λ d, d ≠ id) (unvisited V task).
Proof.
  unfold unvisited. rewrite list_filter_filter. apply list_filter_iff. intros d. set_solver.
Qed.

Lemma unvisited_len V id task :
  task ∈ tasks → id ∉ V →
  len (unvisited (V ++ [id]) task) =
  if decide (id ∈ st_dependencies task) then len (unvisited V task) - 1 else len (unvisited V task).
Proof.
  intros Ht Hid. rewrite unvisited_snoc, filter_remove.
  - unfold unvisited. destruct (decide (id ∈ st_dependencies task)) as [Hin|Hin];
      [rewrite decide_True|rewrite decide_False]; rewrite ?list_elem_of_filter; tauto.
  - apply NoDup_filter. rewrite Forall_forall in Hdeps. by apply Hdeps.
Qed.

Lemma elem_of_dependents d id : id ∈ dependents_of tasks d ↔ depends_on tasks d id.
Proof.
  unfold dependents_of, depends_on. rewrite list_elem_of_fmap. setoid_rewrite list_elem_of_filter.
  naive_solver.
Qed.

Lemma NoDup_dependents d : NoDup (dependents_of tasks d).
Proof.
  unfold dependents_of. clear Hdependents Hdeps. revert Hids. induction tasks as [|t ts IH]; [constructor|].
  cbn [map]. intros [Hn Hnd]%NoDup_cons. rewrite filter_cons. destruct (decide _); [|by apply IH].
  cbn [map]. constructor; [|by apply IH].
  intros (t' & He & [_ Ht']%list_elem_of_filter)%list_elem_of_fmap. apply Hn.
  rewrite He. by apply list_elem_of_fmap_2.
Qed.
Lemma depends_on_task d task :
  task ∈ tasks → depends_on tasks d (st_task_id task) ↔ d ∈ st_dependencies task.
Proof.
  intros Ht. split; [|by exists task]. intros (t' & Ht' & He & Hd).
  by rewrite (task_eq _ _ Ht Ht' (eq_sym He)).
Qed.

Lemma unvisited_nil V task : unvisited V task = [] ↔ ∀ d, d ∈ st_dependencies task → d ∈ V.
Proof.
  unfold unvisited. split.
  - intros He d Hd. apply dec_stable. intros Hn.
    assert (d ∈ filter (λ d, d ∉ V) (st_dependencies task)) as Hf by by apply list_elem_of_filter.
    rewrite He in Hf. by apply not_elem_of_nil in Hf.
  - intros Hall. apply elem_of_nil_inv. intros d [Hn Hd]%list_elem_of_filter. auto.
Qed.

Lemma task_of_id x : x ∈ ids → ∃ task, task ∈ tasks ∧ st_task_id task = x.
Proof. intros (t & -> & ?)%list_elem_of_fmap. by exists t. Qed.

Lemma kahn_step V indegree id ready :
  kahn_inv V indegree (id :: ready) →
  ∃ indegree' ready',
    try_fold child_step (indegree, ready) (default [] (dependents !! id)) = Ok (indegree', ready') ∧
    kahn_inv (V ++ [id]) indegree' ready'.
Proof.
  intros [Hnd Hin Hdeg Hready Hacc]. rewrite Hdependents.
  assert (HidV : id ∉ V).
  { apply NoDup_app in Hnd as (_ & Hd & _). intros Hx. apply (Hd _ Hx). by left. }
  destruct (child_fold_spec indegree ready (dependents_of tasks id)) as (indegree' & E & Hdeg').
  { apply NoDup_dependents. }
  { intros c (t & Ht & <- & Hd)%elem_of_dependents. rewrite (Hdeg t Ht). eexists; split; [done|].
    assert (id ∈ unvisited V t) as Hu by by apply list_elem_of_filter.
    destruct (unvisited V t); [by apply not_elem_of_nil in Hu|rewrite len_cons; lia]. }
  eexists _, _. split; [exact E|].
  assert (Hnew : ∀ task, task ∈ tasks →
    st_task_id task ∈ filter (λ c, indegree !! c = Some 1) (dependents_of tasks id) ↔
    unvisited V task ≠ [] ∧ unvisited (V ++ [id]) task = []).
  { intros task Ht. rewrite list_elem_of_filter, elem_of_dependents, depends_on_task, Hdeg by done.
    pose proof (unvisited_len V id task Ht HidV) as Hl. destruct (decide _) as [Hd|Hd].
    - split; [intros [[= H1] _]|intros [H1 H2]].
      + split; [intros He; by rewrite He in H1|]. rewrite H1 in Hl. by destruct (unvisited (V ++ [id]) task); [|rewrite len_cons in Hl; lia].
      + rewrite H2, len_nil in Hl. destruct (unvisited V task) as [|? [|]]; [done|done|].
        rewrite !len_cons in Hl. lia.
    - split; [by intros []|]. intros [H1 H2]. rewrite H2, len_nil in Hl.
      destruct (unvisited V task); [done|rewrite len_cons in Hl; lia]. }
  assert (Hmono : ∀ task, unvisited V task = [] → unvisited (V ++ [id]) task = []).
  { intros task. rewrite !unvisited_nil. set_solver. }
  split.
  - replace ((V ++ [id]) ++ ready ++ filter _ _) with ((V ++ id :: ready) ++
      filter (λ c, indegree !! c = Some 1) (dependents_of tasks id)) by by rewrite <-!app_assoc.
    apply NoDup_app. split; [done|]. split; [|by apply NoDup_filter, NoDup_dependents].
    intros x Hx Hf. destruct (task_of_id x (Hin x Hx)) as (t & Ht & <-).
    apply Hnew in Hf as [Hne _]; [|done]. by apply Hready in Hx.
  - intros x Hx. assert (x ∈ V ++ id :: ready ∨ x ∈ dependents_of tasks id) as [Hx'|Hx'].
    { rewrite !elem_of_app, list_elem_of_filter in Hx. rewrite elem_of_app, elem_of_cons.
      rewrite list_elem_of_singleton in Hx. tauto. }
    + by apply Hin.
    + apply elem_of_dependents in Hx' as (t & Ht & <- & _). by apply list_elem_of_fmap_2.
  - intros task Ht. rewrite Hdeg', (Hdeg task Ht), unvisited_len by done. cbn [fmap option_fmap option_map].
    f_equal. destruct (decide (id ∈ _)) as [Hd|Hd]; [rewrite decide_True|rewrite decide_False];
      rewrite ?elem_of_dependents, ?depends_on_task; done.
  - intros task Ht. rewrite app_assoc, <-app_assoc, !elem_of_app, (Hnew task Ht).
    pose proof (Hready task Ht) as Hr. rewrite elem_of_app, elem_of_cons in Hr.
    pose proof (Hmono task). rewrite list_elem_of_singleton.
    destruct (decide (unvisited V task = [])); tauto.
  - intros x [Hx|Hx%list_elem_of_singleton]%elem_of_app; [by apply Hacc|]. subst x.
    destruct (task_of_id id) as (t & Ht & Hid); [apply Hin; set_solver|].
    constructor. intros d Hd. apply Hacc. rewrite <-Hid, depends_on_task in Hd by done.
    assert (Hr : st_task_id t ∈ V ++ id :: ready) by (rewrite Hid; set_solver).
    apply Hready in Hr; [|done]. by eapply unvisited_nil.
Qed.

Lemma kahn_bound V indegree id ready :
  kahn_inv V indegree (id :: ready) → (length V < length tasks)%nat.
Proof.
  intros [Hnd Hin _ _ _].
  assert (Hsub : V ++ id :: ready ⊆+ ids) by by apply NoDup_submseteq.
  apply submseteq_length in Hsub. rewrite length_app, length_map in Hsub. simpl in Hsub. lia.
Qed.

Lemma dag_loop_spec fuel V indegree ready :
  kahn_inv V indegree ready → (length tasks <= length V + fuel)%nat → len tasks <= u64_MAX →
  ∃ V' indegree', dag_loop fuel dependents indegree ready (len V) = Ok (len V') ∧
    kahn_inv V' indegree' [].
Proof.
  revert V indegree ready. induction fuel as [|fuel IH]; intros V indegree ready Hi Hf Hb;
    (destruct ready as [|id ready]; [exists V, indegree; by split|]);
    pose proof (kahn_bound _ _ _ _ Hi) as Hlt; [lia|].
  cbn [dag_loop]. rewrite checked_add_ok by (unfold len in *; lia). cbn [ok_or mbind result_bind].
  destruct (kahn_step _ _ _ _ Hi) as (indegree' & ready' & -> & Hi'). cbn [mbind result_bind].
  replace (len V + 1) with (len (V ++ [id])) by (rewrite len_app; done).
  apply IH; [done|rewrite length_app; simpl; lia|done].
Qed.

(** At the end either every task has been visited or some chain of
    dependencies does not end. *)
Lemma kahn_final V indegree :
  kahn_inv V indegree [] → (acyclic tasks → len V = len tasks) ∧ (len V = len tasks → acyclic tasks).
Proof.
  intros [Hnd Hin Hdeg Hready Hacc]. rewrite app_nil_r in *.
  assert (Hsub : V ⊆+ ids) by by apply NoDup_submseteq. split; intros H.
  - assert (Hall : ∀ x, x ∈ ids → x ∈ V).
    { intros x. induction (H x) as [x _ IH]. intros (t & Ht & <-)%task_of_id.
      apply Hready; [done|]. apply unvisited_nil. intros d Hd. apply IH; [by exists t|].
      rewrite Forall_forall in Hdeps. destruct (Hdeps t Ht) as [_ Hd'].
      rewrite Forall_forall in Hd'. specialize (Hd' d Hd). by rewrite elem_of_list_to_set in Hd'. }
    assert (ids ⊆+ V) as Hsup by by apply NoDup_submseteq.
    apply submseteq_length in Hsub, Hsup. rewrite length_map in *. unfold len. lia.
  - intros x. constructor. intros d Hd. apply Hacc.
    apply submseteq_length_Permutation in Hsub; [|rewrite length_map; unfold len in H; lia].
    rewrite Hsub. destruct Hd as (t & Ht & <- & Hd). rewrite Forall_forall in Hdeps.
    destruct (Hdeps t Ht) as [_ Hd']. rewrite Forall_forall in Hd'.
    specialize (Hd' d Hd). by rewrite elem_of_list_to_set in Hd'.
Qed.
End kahn.

Lemma kahn_init tasks st :
  well_named tasks → graph_of tasks st →
  kahn_inv tasks [] st.1 (filter (λ id, st.1 !! id = Some 0) (ascending (dom st.1))).
Proof.
  intros [Hids Hdeps] (Hin & Hdom & _).
  assert (Hun : ∀ task, unvisited [] task = st_dependencies task).
  { intros task. unfold unvisited. induction (st_dependencies task) as [|d l IH]; [done|].
    rewrite filter_cons, IH. by rewrite decide_True by apply not_elem_of_nil. }
  assert (Hr : ∀ x, x ∈ filter (λ id, st.1 !! id = Some 0) (ascending (dom st.1)) ↔
    st.1 !! x = Some 0 ∧ x ∈ map st_task_id tasks).
  { intros x. by rewrite list_elem_of_filter, elem_of_ascending, Hdom, elem_of_list_to_set. }
  split; cbn [app].
  - apply NoDup_filter, NoDup_ascending.
  - intros x Hx. by apply Hr in Hx as [_ ?].
  - intros task Ht. by rewrite Hun, Hin.
  - intros task Ht. rewrite Hr, Hun, Hin by done. split.
    + intros [[= H0] _]. destruct (st_dependencies task); [done|rewrite len_cons in H0; lia].
    + intros ->. split; [done|]. by apply list_elem_of_fmap_2.
  - intros x Hx. by apply not_elem_of_nil in Hx.
Qed.

Lemma validate_dag_cases tasks :
  len tasks <= usize_MAX →
  (¬ NoDup (map st_task_id tasks) ∧
    validate_dag tasks = Err (InvalidMetadata "duplicate scheduler task ID")) ∨
  (NoDup (map st_task_id tasks) ∧ ¬ well_named tasks ∧
    validate_dag tasks = Err (InvalidMetadata "invalid scheduler dependency")) ∨
  (well_named tasks ∧ acyclic tasks ∧ validate_dag tasks = Ok tt) ∨
  (well_named tasks ∧ ¬ acyclic tasks ∧ validate_dag tasks = Err DependencyCycle).
Proof.
  intros Hlen. unfold validate_dag.
  destruct (Nat.eqb_spec (size (list_to_set (C := gset N) (map st_task_id tasks))) (length tasks))
    as [Hs|Hs]; cbn [negb].
  2: { left. split; [|done]. rewrite <-size_NoDup, length_map. done. }
  right. rewrite <-(length_map st_task_id), size_NoDup in Hs.
  assert (Hok : Forall (deps_ok (list_to_set (map st_task_id tasks))) tasks ↔ well_named tasks).
  { unfold well_named, deps_ok. rewrite !Forall_forall. setoid_rewrite Forall_forall.
    setoid_rewrite elem_of_list_to_set. tauto. }
  assert (Hg0 : graph_of [] (∅, ∅)).
  { split; [|split]; cbn; set_solver. }
  destruct (dag_fold_spec (list_to_set (map st_task_id tasks)) [] tasks (∅, ∅) Hg0 Hs) as
    [[Hall (st & -> & Hg)]|[Hn ->]].
  2: { left. split; [done|]. split; [by rewrite <-Hok|done]. }
  right. apply Hok in Hall as Hw. destruct Hg as (Hin & Hdom & Hdeps) eqn:E; clear E.
  cbn [mbind result_bind app] in *. destruct st as [indegree dependents]. cbn [fst snd] in *.
  destruct (dag_loop_spec tasks dependents Hs Hall Hdeps (length tasks) [] indegree
    (filter (λ id, indegree !! id = Some 0) (ascending (dom indegree)))) as (V & indegree' & HV & Hi);
    [by apply (kahn_init tasks (indegree, dependents))|simpl; lia|done|].
  change (len []) with 0 in HV. rewrite HV. cbn [mbind result_bind].
  destruct (kahn_final tasks Hs Hall V indegree' Hi) as [H1 H2].
  destruct (N.eqb_spec (len V) (len tasks)); cbn [negb]; [left|right]; tauto.
Qed.

(** ** The choice of the next task *)

Lemma key_ltb_spec x y : key_ltb x y = true ↔ x.1 < y.1 ∨ x.1 = y.1 ∧ x.2 < y.2.
Proof.
  unfold key_ltb. rewrite orb_true_iff, andb_true_iff, !N.ltb_lt, N.eqb_eq. done.
Qed.

Lemma key_ltb_false x y : key_ltb x y = false ↔ y.1 < x.1 ∨ y.1 = x.1 ∧ y.2 <= x.2.
Proof. rewrite <-not_true_iff_false, key_ltb_spec. lia. Qed.

Lemma min_by_key_from {A} (l : list ((N * N) * A)) b :
  ∃ r, fold_left (λ best x,
    match best with
    | None => Some x
    | Some b => if key_ltb x.1 b.1 then Some x else Some b
    end) l (Some b) = Some r ∧ (r = b ∨ r ∈ l) ∧
    key_ltb b.1 r.1 = false ∧ ∀ x, x ∈ l → key_ltb x.1 r.1 = false.
Proof.
  revert b; induction l as [|y l IH]; intros b; cbn [fold_left].
  { exists b. split; [done|]. split; [by left|]. split; [|by intros ? ?%not_elem_of_nil].
    apply key_ltb_false. lia. }
  destruct (key_ltb y.1 b.1) eqn:Hyb;
    [destruct (IH y) as (r & -> & Hr & Hle & Hall)|destruct (IH b) as (r & -> & Hr & Hle & Hall)];
    exists r; (split; [done|]).
  - apply key_ltb_spec in Hyb. apply key_ltb_false in Hle. split; [|split].
    + right. destruct Hr as [->|]; [by left|by right].
    + apply key_ltb_false. lia.
    + intros x [->|Hx]%elem_of_cons; [apply key_ltb_false; lia|by apply Hall].
  - split; [|split; [done|]].
    + destruct Hr as [->|]; [by left|right; by right].
    + apply key_ltb_false in Hyb, Hle. intros x [->|Hx]%elem_of_cons; [|by apply Hall].
      apply key_ltb_false. lia.
Qed.

Lemma min_by_key_spec {A} (l : list ((N * N) * A)) :
  match min_by_key l with
  | Some r => r ∈ l ∧ ∀ x, x ∈ l → key_ltb x.1 r.1 = false
  | None => l = []
  end.
Proof.
  unfold min_by_key. destruct l as [|b l]; [done|]. cbn [fold_left].
  destruct (min_by_key_from l b) as (r & -> & Hr & Hle & Hall). split.
  - destruct Hr as [->|]; [by left|by right].
  - intros x [->|Hx]%elem_of_cons; [done|by apply Hall].
Qed.

(** Entry [index] of [pending] can be dispatched. *)
Definition ready_at (pending : Pending) (completed : gset N) (available : N) (index : N)
    (task : ScheduledTask) (memory : N) : Prop :=
  pending !! N.to_nat index = Some (Some (task, memory)) ∧ memory <= available ∧
  ∀ d, d ∈ st_dependencies task → d ∈ completed.

Definition priority_key (task : ScheduledTask) : N * N :=
  (JobPriority_rank (st_priority task), st_task_id task).

Lemma is_ready_spec completed available task memory :
  is_ready completed available task memory = true ↔
  memory <= available ∧ ∀ d, d ∈ st_dependencies task → d ∈ completed.
Proof.
  unfold is_ready. rewrite negb_true_iff, orb_false_iff, negb_false_iff, N.ltb_ge, forallb_forall.
  setoid_rewrite bool_decide_eq_true. setoid_rewrite <-list_elem_of_In. done.
Qed.

Lemma next_ready_task_spec pending completed available :
  match next_ready_task pending completed available with
  | Some index => ∃ task memory, ready_at pending completed available index task memory ∧
      ∀ index' task' memory', ready_at pending completed available index' task' memory' →
        key_ltb (priority_key task') (priority_key task) = false
  | None => ∀ index task memory, ¬ ready_at pending completed available index task memory
  end.
Proof.
  unfold next_ready_task.
  set (entries := omap _ _).
  assert (Hin : ∀ k index, (k, index) ∈ entries ↔
    ∃ task memory, ready_at pending completed available index task memory ∧ k = priority_key task).
  { intros k index. unfold entries. rewrite list_elem_of_omap. split.
    - intros ([i item] & Hi & He). apply elem_of_enumerate in Hi.
      destruct item as [[task memory]|]; [|done]. cbn in He.
      destruct (is_ready _ _ _ _) eqn:Hr; [|done]. injection He as <- <-.
      apply is_ready_spec in Hr. by exists task, memory.
    - intros (task & memory & (Hi & Hr) & ->). exists (index, Some (task, memory)).
      split; [by apply elem_of_enumerate|]. cbn. apply is_ready_spec in Hr. by rewrite Hr. }
  pose proof (min_by_key_spec entries) as Hmin.
  destruct (min_by_key entries) as [[k index]|]; cbn [fmap option_fmap option_map snd].
  - destruct Hmin as [Hk Hmin]. apply Hin in Hk as (task & memory & Hr & ->).
    exists task, memory. split; [done|]. intros index' task' memory' Hr'.
    apply (Hmin (priority_key task', index')), Hin. by exists task', memory'.
  - intros index task memory Hr. assert ((priority_key task, index) ∈ entries) as He.
    { apply Hin. by exists task, memory. }
    rewrite Hmin in He. by apply not_elem_of_nil in He.
Qed.

(** ** Invariants of the dispatch loop *)

Ltac sched_cbn := cbn [sc_pending sc_available sc_running sc_in_flight sc_completed_ids sc_completed
  sc_cancelled sc_phase with_phase with_cancelled].

(** The tasks that have not been dispatched. *)
Definition undispatched (pending : Pending) : list ScheduledTask := map fst (omap (λ item, item) pending).

Lemma undispatched_take pending i task memory :
  pending !! i = Some (Some (task, memory)) →
  undispatched pending ≡ₚ task :: undispatched (<[i := None]> pending).
Proof.
  unfold undispatched. revert i; induction pending as [|item pending IH]; intros [|i] Hi; try done.
  - injection Hi as ->. done.
  - change (<[Datatypes.S i := None]> (item :: pending)) with (item :: <[i := None]> pending).
    cbn [lookup list_lookup] in Hi. specialize (IH i Hi).
    destruct item as [[t m]|]; cbn in IH |- *; rewrite IH; [constructor|done].
Qed.

Lemma undispatched_in pending task :
  task ∈ undispatched pending → ∃ i memory, pending !! i = Some (Some (task, memory)).
Proof.
  unfold undispatched. intros ([t m] & -> & ([?|] & Hx & [= ->])%list_elem_of_omap)%list_elem_of_fmap.
  apply list_elem_of_lookup in Hx as [i Hi]. by exists i, m.
Qed.

Lemma run_task_Ok task before during after spool handle :
  run_task task before during after spool = Ok handle →
  sp_task_id handle = st_task_id task ∧ st_action task during = Ok (sp_file handle) ∧
  sp_len handle = len (sp_file handle) ∧ sp_len handle <= re_output_bound (st_resources task).
Proof. unfold run_task. intros Hr. invres. cbn. auto. Qed.

Section loop.
Context (tasks : list ScheduledTask) (config : SchedulerConfig).
#[local] Abbreviation ids := (map st_task_id tasks).
#[local] Abbreviation step := (sched_step config (len tasks)).

(** What a finished task left behind, [before] being the tasks that
    finished before it. *)
Definition finished (before : list SpoolHandle) (handle : SpoolHandle) : Prop :=
  ∃ task during, task ∈ tasks ∧ sp_task_id handle = st_task_id task ∧
    st_action task during = Ok (sp_file handle) ∧ sp_len handle = len (sp_file handle) ∧
    sp_len handle <= re_output_bound (st_resources task) ∧
    ∀ d, d ∈ st_dependencies task → d ∈ map sp_task_id before.

(** The errors a run may report: cancellation, or the error of a task. *)
Definition reported (st : scheduler) (e : PithosError) : Prop :=
  (e = Cancelled ∧ sc_cancelled st = true) ∨
  ∃ task before during after spool, task ∈ tasks ∧ run_task task before during after spool = Err e.

Definition phase_inv (st : scheduler) : Prop :=
  match sc_phase st with
  | Head => True
  | Dispatching _ => len (sc_completed st) < len tasks
  | After _ => len (sc_completed st) < len tasks ∧
      (sc_running st = sc_workers config ∨ sc_cancelled st = true ∨
       next_ready_task (sc_pending st) (sc_completed_ids st) (sc_available st) = None)
  | Receiving => 0 < sc_running st
  | Returned (Ok l) => len (sc_completed st) = len tasks ∧
      l = insertion_sort compare_spool (sc_completed st)
  | Returned (Err e) => reported st e
  end.

Record sched_inv (st : scheduler) : Prop := {
  inv_pending : ∀ i task memory, sc_pending st !! i = Some (Some (task, memory)) →
    task ∈ tasks ∧ ResourceEstimate_total (st_resources task) = Ok memory ∧
    memory <= sc_memory_budget config;
  inv_partition : (∀ e, sc_phase st ≠ Returned (Err e)) →
    map st_task_id (undispatched (sc_pending st)) ++
    map (λ w, st_task_id w.1) (sc_in_flight st) ++ map sp_task_id (sc_completed st) ≡ₚ ids;
  inv_flight : ∀ task memory, (task, memory) ∈ sc_in_flight st →
    task ∈ tasks ∧ ResourceEstimate_total (st_resources task) = Ok memory ∧
    ∀ d, d ∈ st_dependencies task → d ∈ map sp_task_id (sc_completed st);
  inv_memory : sc_available st + sum (map snd (sc_in_flight st)) = sc_memory_budget config;
  inv_running : sc_running st = len (sc_in_flight st) ∧ sc_running st <= sc_workers config;
  inv_ids : ∀ x, x ∈ sc_completed_ids st ↔ x ∈ map sp_task_id (sc_completed st);
  inv_finished : ∀ i handle, sc_completed st !! i = Some handle →
    finished (take i (sc_completed st)) handle;
  inv_phase : phase_inv st;
}.

Context (Hw : well_named tasks) (Hac : acyclic tasks).
Context (Hlen : len tasks <= usize_MAX).
Context (Hworkers : 0 < sc_workers config <= usize_MAX) (Hbudget : sc_memory_budget config <= u64_MAX).

(** An idle scheduler with unfinished tasks can dispatch one. *)
Lemma idle_can_dispatch st :
  sched_inv st → (∀ e, sc_phase st ≠ Returned (Err e)) → sc_running st = 0 → len (sc_completed st) < len tasks →
  next_ready_task (sc_pending st) (sc_completed_ids st) (sc_available st) ≠ None.
Proof.
  intros [Hpend Hpart _ Hmem [Hrun _] Hcid _ _] Hne H0 Hlt Hnone. specialize (Hpart Hne).
  assert (Hfl : sc_in_flight st = []).
  { destruct (sc_in_flight st); [done|]. rewrite len_cons in Hrun. lia. }
  rewrite Hfl in *. cbn [map app] in *. cbn in Hmem. rewrite N.add_0_r in Hmem.
  pose proof (next_ready_task_spec (sc_pending st) (sc_completed_ids st) (sc_available st)) as Hn.
  rewrite Hnone in Hn.
  assert (Hall : ∀ x, x ∈ ids → x ∈ map sp_task_id (sc_completed st)).
  { intros x. induction (Hac x) as [x _ IH]. intros Hx.
    pose proof Hx as Hx'. rewrite <-Hpart, elem_of_app in Hx'. destruct Hx' as [Hx'|]; [|done].
    apply list_elem_of_fmap in Hx' as (t & -> & Ht).
    apply undispatched_in in Ht as (i & m & Hi). destruct (Hpend _ _ _ Hi) as (Ht & _ & Hm).
    exfalso. apply (Hn (N.of_nat i) t m). split; [by rewrite Nat2N.id|]. split; [lia|].
    intros d Hd. apply Hcid, IH; [by exists t|].
    destruct Hw as [_ Hdeps]. rewrite Forall_forall in Hdeps. destruct (Hdeps t Ht) as [_ Hin].
    rewrite Forall_forall in Hin. by apply Hin. }
  pose proof (proj1 Hw) as Hnd. rewrite <-Hpart in Hnd. apply NoDup_app in Hnd as (_ & Hdis & _).
  apply Permutation_length in Hpart as Hpl. rewrite length_app, !length_map in Hpl.
  destruct (undispatched (sc_pending st)) as [|t u] eqn:Hu; [unfold len in Hlt; simpl in Hpl; lia|].
  apply (Hdis (st_task_id t)); [by left|]. apply Hall. rewrite <-Hpart. by left.
Qed.

Lemma inv_set_phase st p :
  sched_inv st → (∀ e, sc_phase st ≠ Returned (Err e)) → phase_inv (with_phase st p) →
  sched_inv (with_phase st p).
Proof. intros [] Hne ?. split; try done. intros _. auto. Qed.

Lemma inv_cancel st : sched_inv st → sched_inv (with_cancelled st).
Proof.
  intros [? ? ? ? ? ? ? Hp]. split; try done. unfold phase_inv in *. cbn.
  destruct (sc_phase st) as [| | | |[]]; auto. { destruct Hp as [? _]. auto. }
  destruct Hp as [[-> _]|]; [by left|by right].
Qed.

Lemma dispatch_inv st index d :
  sched_inv st → sc_phase st = Dispatching d → sc_running st < sc_workers config →
  next_ready_task (sc_pending st) (sc_completed_ids st) (sc_available st) = Some index →
  ∃ st', dispatch st index = Ok st' ∧ sched_inv st'.
Proof.
  intros [Hpend Hpart Hfl Hmem [Hrun Hle] Hcid Hfin Hp] Hph Hlt Hnext.
  pose proof (next_ready_task_spec (sc_pending st) (sc_completed_ids st) (sc_available st)) as Hn.
  rewrite Hnext in Hn. destruct Hn as (t & m & (Hi & Hm & Hd) & _).
  destruct (Hpend _ _ _ Hi) as (Ht & Htot & _).
  unfold dispatch. rewrite Hi. cbn [mbind option_bind ok_or result_bind].
  rewrite checked_sub_ok, checked_add_ok by lia. cbn [ok_or mbind result_bind].
  eexists. split; [done|]. split; sched_cbn; try done.
  - intros j t' m' Hj. apply list_lookup_insert_Some in Hj as [(_ & ? & _)|[_ Hj]]; [done|by eapply Hpend].
  - intros _. rewrite <-Hpart by by rewrite Hph. rewrite (undispatched_take _ _ _ _ Hi), map_app. cbn [map]. solve_Permutation.
  - intros t' m' [Hin|[= -> ->]%list_elem_of_singleton]%elem_of_app; [by eapply Hfl|].
    split; [done|]. split; [done|]. intros x Hx. by apply Hcid, Hd.
  - rewrite map_app, sum_app. cbn [map snd sum foldr]. lia.
  - rewrite len_app, len_cons, len_nil. lia.
  - unfold phase_inv in *. cbn. by rewrite Hph in Hp.
Qed.

Lemma collect_inv st k task memory before during after spool :
  sched_inv st → sc_phase st = Receiving → sc_in_flight st !! k = Some (task, memory) →
  ∃ st', collect st k memory (run_task task before during after spool) = Ok st' ∧ sched_inv st'.
Proof.
  intros [Hpend Hpart Hfl Hmem [Hrun Hle] Hcid Hfin Hp] Hph Hk.
  pose proof (delete_Permutation _ _ _ Hk) as Hperm.
  assert (Hin : (task, memory) ∈ sc_in_flight st) by by eapply list_elem_of_lookup_2.
  destruct (Hfl _ _ Hin) as (Ht & Htot & Hd).
  assert (Hsub : ∀ w, w ∈ delete k (sc_in_flight st) → w ∈ sc_in_flight st).
  { intros w Hx. rewrite Hperm. by right. }
  assert (Hl : len (sc_in_flight st) = 1 + len (delete k (sc_in_flight st))).
  { rewrite <-len_cons with (x := (task, memory)). unfold len. by rewrite Hperm at 1. }
  assert (Hs : sum (map snd (sc_in_flight st)) = memory + sum (map snd (delete k (sc_in_flight st)))).
  { rewrite (sum_perm _ _ (Permutation_map snd Hperm)). done. }
  unfold collect. rewrite checked_sub_ok, checked_add_ok by lia. cbn [ok_or mbind result_bind].
  destruct (run_task _ _ _ _ _) as [handle|e] eqn:Hr; (eexists; split; [done|]); split; sched_cbn; try done.
  - intros _. pose proof (run_task_Ok _ _ _ _ _ _ Hr) as (Hid & _).
    rewrite <-Hpart by by rewrite Hph. rewrite Hperm at 2. rewrite map_app. cbn [map fst]. rewrite Hid. solve_Permutation.
  - intros t m Hx%Hsub. destruct (Hfl _ _ Hx) as (? & ? & Hd'). do 2 (split; [done|]).
    intros x Hx'. rewrite map_app, elem_of_app. left. by apply Hd'.
  - lia.
  - lia.
  - intros x. rewrite map_app, elem_of_app, elem_of_union, elem_of_singleton, Hcid.
    cbn. rewrite list_elem_of_singleton. tauto.
  - intros i h [Hi|[Hge Hi]]%lookup_app_Some.
    + rewrite take_app_le by (apply lookup_lt_Some in Hi; lia). by apply Hfin.
    + apply list_lookup_singleton_Some in Hi as [Hi <-].
      rewrite take_app_length' by lia.
      pose proof (run_task_Ok _ _ _ _ _ _ Hr) as (? & ? & ? & ?).
      by exists task, during.
  - intros Hne. by destruct (Hne e).
  - intros t m Hx%Hsub. by apply Hfl.
  - lia.
  - lia.
  - right. by exists task, before, during, after, spool.
Qed.

Lemma sched_step_inv st c st' : sched_inv st → step st c = Some st' → sched_inv st'.
Proof.
  intros Hi Hs. pose proof (inv_phase _ Hi) as Hp. unfold phase_inv in Hp. unfold sched_step in Hs.
  destruct (sc_phase st) as [|d|d| |r] eqn:Hph; [| | | |done].
  all: assert (Hne : ∀ e, sc_phase st ≠ Returned (Err e)) by by rewrite Hph.
  all: destruct c as [| |k before during after spool]; try discriminate Hs;
    try (injection Hs as <-; by apply inv_cancel).
  - destruct (N.ltb_spec (len (sc_completed st)) (len tasks)); injection Hs as <-;
      (apply inv_set_phase; [done..|]); unfold phase_inv; sched_cbn; [done|]. split; [|done].
    pose proof (inv_partition _ Hi Hne) as Hpart. apply Permutation_length in Hpart.
    rewrite !length_app, !length_map in Hpart. unfold len in *. lia.
  - destruct (N.ltb_spec (sc_running st) (sc_workers config)) as [Hlt|Hge]; cbn [andb] in Hs.
    + destruct (sc_cancelled st) eqn:Hc; cbn [negb] in Hs.
      { injection Hs as <-. apply inv_set_phase; [done..|]. unfold phase_inv. sched_cbn. auto. }
      destruct (next_ready_task _ _ _) as [index|] eqn:Hn; injection Hs as <-.
      * destruct (dispatch_inv st index d) as (st' & -> & ?); done.
      * apply inv_set_phase; [done..|]. unfold phase_inv. sched_cbn. auto.
    + injection Hs as <-. apply inv_set_phase; [done..|]. unfold phase_inv. sched_cbn.
      split; [done|]. left. destruct (inv_running _ Hi). lia.
  - destruct Hp as [Hlt Hp]. destruct (N.eqb_spec (sc_running st) 0) as [H0|H0].
    + destruct (sc_cancelled st) eqn:Hc; injection Hs as <-.
      * apply inv_set_phase; [done..|]. by left.
      * exfalso. destruct Hp as [Hp|[?|Hp]]; [lia|done|]. by apply (idle_can_dispatch st).
    + destruct (_ || _); injection Hs as <-; (apply inv_set_phase; [done..|]);
        unfold phase_inv; sched_cbn; [lia|done].
  - destruct (implb _ _); [|done]. destruct (sc_in_flight st !! k) as [[task memory]|] eqn:Hk; [|done].
    cbn in Hs. injection Hs as <-.
    destruct (collect_inv st k task memory before during after spool) as (st' & -> & ?); done.
Qed.

(** Every step but a cancellation decreases this measure. *)
Definition phase_weight (p : phase) : nat :=
  match p with
  | Returned _ => 0
  | Receiving => 1
  | After false => 2
  | Dispatching false => 3
  | Head => 4
  | After true => 5
  | Dispatching true => 6
  end.

Definition sched_measure (st : scheduler) : nat :=
  5 * (2 * length (undispatched (sc_pending st)) + length (sc_in_flight st)) + phase_weight (sc_phase st).

Lemma sched_step_measure st c st' :
  sched_inv st → step st c = Some st' →
  match c with
  | Cancel => sched_measure st' = sched_measure st
  | _ => (sched_measure st' < sched_measure st)%nat
  end.
Proof.
  intros Hi Hs. unfold sched_step in Hs. unfold sched_measure.
  destruct (sc_phase st) as [|d|d| |r] eqn:Hph; [| | | |done].
  all: destruct c as [| |k before during after spool]; try discriminate Hs;
    try (injection Hs as <-; unfold with_cancelled; sched_cbn; by rewrite Hph).
  - destruct (_ <? _); injection Hs as <-; sched_cbn; cbn [phase_weight]; lia.
  - destruct (_ && _) eqn:Hlt;
      [|injection Hs as <-; sched_cbn; destruct d; cbn [phase_weight]; lia].
    apply andb_true_iff in Hlt as [Hlt%N.ltb_lt _].
    destruct (next_ready_task _ _ _) as [index|] eqn:Hn; injection Hs as <-;
      [|sched_cbn; destruct d; cbn [phase_weight]; lia].
    pose proof (next_ready_task_spec (sc_pending st) (sc_completed_ids st) (sc_available st)) as Hr.
    rewrite Hn in Hr. destruct Hr as (t & m & (Hix & Hm & _) & _).
    unfold dispatch. rewrite Hix. cbn [mbind option_bind ok_or result_bind].
    rewrite checked_sub_ok, checked_add_ok by lia. cbn [ok_or mbind result_bind or_return]. sched_cbn.
    pose proof (undispatched_take _ _ _ _ Hix) as Hu%Permutation_length. cbn [length] in Hu.
    rewrite length_app. cbn [length]. destruct d; cbn [phase_weight]; lia.
  - destruct (_ =? _); [destruct (sc_cancelled st)|destruct d, (_ <=? _); cbn in Hs];
      injection Hs as <-; sched_cbn; try destruct d; cbn [phase_weight]; lia.
  - destruct (implb _ _); [|done]. destruct (sc_in_flight st !! k) as [[task memory]|] eqn:Hk; [|done].
    cbn in Hs. injection Hs as <-. pose proof (inv_memory _ Hi) as Hmem.
    pose proof (inv_running _ Hi) as [Hrun _].
    pose proof (delete_Permutation _ _ _ Hk) as Hperm.
    rewrite (sum_perm _ _ (Permutation_map snd Hperm)) in Hmem. cbn in Hmem.
    apply Permutation_length in Hperm as Hl. cbn [length] in Hl.
    unfold collect. rewrite checked_sub_ok by (unfold len in Hrun; lia).
    rewrite checked_add_ok by lia. cbn [ok_or mbind result_bind].
    destruct (run_task _ _ _ _ _); cbn [or_return]; sched_cbn; cbn [phase_weight]; lia.
Qed.

Lemma sched_progress st :
  sched_inv st → (∀ r, sc_phase st ≠ Returned r) → ∃ c st', c ≠ Cancel ∧ step st c = Some st'.
Proof.
  intros Hi Hne. pose proof (inv_phase _ Hi) as Hp. unfold phase_inv in Hp. unfold sched_step.
  destruct (sc_phase st) as [|d|d| |r] eqn:Hph; [| | | |by destruct (Hne r)].
  - exists Proceed. destruct (_ <? _); eauto.
  - exists Proceed. destruct (_ && _); [destruct (next_ready_task _ _ _)|]; eauto.
  - exists Proceed. destruct (_ =? _); [destruct (sc_cancelled st)|destruct (_ || _)]; eauto.
  - destruct (inv_running _ Hi) as [Hrun _].
    destruct (sc_in_flight st) as [|[t m] fl]; [rewrite len_nil in Hrun; lia|].
    exists (Report 0 false false false (Ok tt)). cbn. eauto.
Qed.

(** A run along a list of choices. *)
Fixpoint sched_run (st : scheduler) (cs : list choice) : option scheduler :=
  match cs with
  | [] => Some st
  | c :: cs => st' ← step st c; sched_run st' cs
  end.

Lemma sched_run_inv st cs st' : sched_inv st → sched_run st cs = Some st' → sched_inv st'.
Proof.
  revert st; induction cs as [|c cs IH]; intros st Hi; cbn [sched_run]; [by intros [= <-]|].
  destruct (step st c) as [st1|] eqn:E; [|done]. cbn. intros Hr. eapply IH; [|exact Hr].
  by eapply sched_step_inv.
Qed.

#[global] Instance is_cancel_dec (c : choice) : Decision (c = Cancel).
Proof. destruct c; [by left|by right|by right]. Defined.

Lemma sched_run_measure st cs st' :
  sched_inv st → sched_run st cs = Some st' →
  (length (filter (λ c, c ≠ Cancel) cs) + sched_measure st' <= sched_measure st)%nat.
Proof.
  revert st; induction cs as [|c cs IH]; intros st Hi; cbn [sched_run]; [intros [= <-]; simpl; lia|].
  destruct (step st c) as [st1|] eqn:E; [|done]. cbn [mbind option_bind]. intros Hr.
  pose proof (IH st1 (sched_step_inv _ _ _ Hi E) Hr). pose proof (sched_step_measure _ _ _ Hi E) as Hm.
  rewrite filter_cons. destruct (decide (c ≠ Cancel)) as [Hc|Hc].
  - destruct c; [done| |]; simpl; lia.
  - apply dec_stable in Hc as ->. lia.
Qed.
End loop.

Lemma execute_start_inv tasks config cancelled pool_built st :
  len tasks <= usize_MAX → execute_start tasks config cancelled pool_built = Ok st →
  well_named tasks ∧ acyclic tasks ∧ sched_inv tasks config st ∧
  sched_measure st = (10 * length tasks + 4)%nat.
Proof.
  intros Hlen. unfold execute_start. intros Hs. res_inv.
  match goal with H : validate_dag tasks = Ok ?u |- _ => rename H into Hv; destruct u end.
  destruct (validate_dag_cases tasks Hlen) as [(_ & E)|[(_ & _ & E)|[(Hw & Hac & _)|(_ & _ & E)]]];
    try congruence.
  match goal with H : try_map _ _ = Ok ?p |- _ => rename H into Hm; rename p into pending end.
  apply try_map_Ok in Hm.
  assert (Hpend : Forall2 (λ task item, ∃ memory, item = Some (task, memory) ∧
    ResourceEstimate_total (st_resources task) = Ok memory ∧ memory <= sc_memory_budget config)
    tasks pending).
  { eapply Forall2_impl; [exact Hm|]. cbn. intros task item Hi. invres. eauto. }
  assert (Hund : undispatched pending = tasks).
  { clear -Hpend. unfold undispatched. induction Hpend as [|t i ts items (m & -> & _) _ IH]; [done|].
    cbn in *. by f_equal. }
  split; [done|]. split; [done|]. split.
  - split; sched_cbn; try done.
    + intros i t m Hi. apply (Forall2_lookup_r _ _ _ _ _ Hpend) in Hi as (t' & Ht & m' & [= -> ->] & ? & ?).
      split; [by eapply list_elem_of_lookup_2|done].
    + intros _. by rewrite Hund, app_nil_r.
    + intros t m Hx. by apply not_elem_of_nil in Hx.
    + cbn. lia.
    + split; [done|lia].
    + intros x. cbn. rewrite elem_of_nil. set_solver.
  - unfold sched_measure. sched_cbn. rewrite Hund. cbn. lia.
Qed.

(** ** Properties *)

(** C19: the task graph check is exact: it accepts the graphs whose
    identifiers are unique, whose dependencies are listed once and exist, and
    in which every chain of dependencies ends; of the well-named graphs it
    rejects precisely the others, with [DependencyCycle]; and in an accepted
    graph no task depends on itself through any chain. *)
Theorem validate_dag_correct (tasks : list ScheduledTask) (Hlen : len tasks <= usize_MAX) :
  (validate_dag tasks = Ok tt ↔ well_named tasks ∧ acyclic tasks) ∧
  (validate_dag tasks = Err DependencyCycle ↔ well_named tasks ∧ ¬ acyclic tasks) ∧
  (validate_dag tasks = Ok tt → ∀ id, ¬ tc (depends_on tasks) id id).
Proof.
  assert (Hnd : well_named tasks → NoDup (map st_task_id tasks)) by (by intros []).
  destruct (validate_dag_cases tasks Hlen) as [(? & ->)|[(? & ? & ->)|[(? & ? & ->)|(? & ? & ->)]]];
    (split; [|split]); try naive_solver; intros _ id; by apply acyclic_no_cycle.
Qed.

(** The next task is, among the pending tasks that fit into the
    available memory and whose dependencies have completed, the one of
    highest priority, ties broken by the lowest identifier; there is none
    exactly when no pending task qualifies. *)
Theorem next_ready_task_correct (pending : Pending) (completed : gset N) (available : N) :
  match next_ready_task pending completed available with
  | Some index => ∃ task memory, ready_at pending completed available index task memory ∧
      ∀ index' task' memory', ready_at pending completed available index' task' memory' →
        key_ltb (priority_key task') (priority_key task) = false
  | None => ∀ index task memory, ¬ ready_at pending completed available index task memory
  end.
Proof. apply next_ready_task_spec. Qed.

(** C17: whatever the interleaving of workers, loop and cancellation, the
    tasks that run never hold more than the memory budget and are never more
    than the workers; a task runs only when its dependencies have completed;
    and, until an error is returned, every task is in exactly one of the
    pending, running and completed sets. *)
Theorem execute_scheduled_safe (tasks : list ScheduledTask) (config : SchedulerConfig)
    (cancelled pool_built : bool) (st0 st : scheduler) (cs : list choice)
    (Hlen : len tasks <= usize_MAX) (Hworkers : 0 < sc_workers config <= usize_MAX)
    (Hbudget : sc_memory_budget config <= u64_MAX)
    (Hstart : execute_start tasks config cancelled pool_built = Ok st0)
    (Hrun : sched_run tasks config st0 cs = Some st) :
  sum (map snd (sc_in_flight st)) <= sc_memory_budget config ∧
  len (sc_in_flight st) <= sc_workers config ∧
  (∀ task memory, (task, memory) ∈ sc_in_flight st →
    ResourceEstimate_total (st_resources task) = Ok memory ∧
    ∀ d, d ∈ st_dependencies task → d ∈ map sp_task_id (sc_completed st)) ∧
  ((∀ e, sc_phase st ≠ Returned (Err e)) →
    map st_task_id (undispatched (sc_pending st)) ++
    map (λ w, st_task_id w.1) (sc_in_flight st) ++ map sp_task_id (sc_completed st) ≡ₚ
    map st_task_id tasks).
Proof.
  destruct (execute_start_inv _ _ _ _ _ Hlen Hstart) as (Hw & Hac & Hi & _).
  apply (sched_run_inv _ _ Hw Hac Hlen Hworkers Hbudget _ _ _ Hi) in Hrun as [_ Hpart Hfl Hmem [Hr Hle] _ _ _].
  split; [lia|]. split; [lia|]. split; [|done]. intros t m Hx. by apply Hfl.
Qed.

(** C18: execution ends: apart from external cancellations, a run takes at
    most [10 * n + 4] steps for [n] tasks, and a run that has not returned can
    always go on, so that no interleaving blocks the loop. *)
Theorem execute_scheduled_terminates (tasks : list ScheduledTask) (config : SchedulerConfig)
    (cancelled pool_built : bool) (st0 st : scheduler) (cs : list choice)
    (Hlen : len tasks <= usize_MAX) (Hworkers : 0 < sc_workers config <= usize_MAX)
    (Hbudget : sc_memory_budget config <= u64_MAX)
    (Hstart : execute_start tasks config cancelled pool_built = Ok st0)
    (Hrun : sched_run tasks config st0 cs = Some st) :
  (length (filter (λ c, c ≠ Cancel) cs) <= 10 * length tasks + 4)%nat ∧
  ((∀ r, sc_phase st ≠ Returned r) →
    ∃ c st', c ≠ Cancel ∧ sched_step config (len tasks) st c = Some st').
Proof.
  destruct (execute_start_inv _ _ _ _ _ Hlen Hstart) as (Hw & Hac & Hi & Hm). split.
  - pose proof (sched_run_measure _ _ Hw Hac Hlen Hworkers Hbudget _ _ _ Hi Hrun). lia.
  - apply (sched_run_inv _ _ Hw Hac Hlen Hworkers Hbudget _ _ _ Hi) in Hrun. by apply sched_progress.
Qed.

(** The outcome of a run, from the invariant. *)
Lemma execute_returned (tasks : list ScheduledTask) (config : SchedulerConfig)
    (cancelled pool_built : bool) (st0 st : scheduler) (cs : list choice)
    (r : Result (list SpoolHandle))
    (Hlen : len tasks <= usize_MAX) (Hworkers : 0 < sc_workers config <= usize_MAX)
    (Hbudget : sc_memory_budget config <= u64_MAX)
    (Hstart : execute_start tasks config cancelled pool_built = Ok st0)
    (Hrun : sched_run tasks config st0 cs = Some st) (Hreturned : sc_phase st = Returned r) :
  match r with
  | Ok handles =>
      map sp_task_id handles ≡ₚ map st_task_id tasks ∧
      StronglySorted (not_greater compare_spool) handles ∧
      Forall (λ handle, ∃ task during, task ∈ tasks ∧ sp_task_id handle = st_task_id task ∧
        st_action task during = Ok (sp_file handle) ∧ sp_len handle = len (sp_file handle) ∧
        sp_len handle <= re_output_bound (st_resources task)) handles
  | Err e => reported tasks st e
  end.
Proof.
  destruct (execute_start_inv _ _ _ _ _ Hlen Hstart) as (Hw & Hac & Hi & _).
  apply (sched_run_inv _ _ Hw Hac Hlen Hworkers Hbudget _ _ _ Hi) in Hrun as [_ Hpart _ _ _ _ Hfin Hp].
  unfold phase_inv in Hp. rewrite Hreturned in Hp, Hpart. destruct r as [handles|e]; [|done].
  destruct Hp as [Hn ->].
  assert (TP : TotalPreorder compare_spool).
  { unfold compare_spool. split; intros.
    - apply N.compare_antisym.
    - rewrite N.compare_le_iff in *. lia. }
  destruct (insertion_sort_stable compare_spool (sc_completed st)) as (Hs & Hperm & _).
  specialize (Hpart ltac:(done)). split; [|split; [done|]].
  - rewrite (Permutation_map sp_task_id Hperm), <-Hpart.
    apply Permutation_length in Hpart. rewrite !length_app, !length_map in Hpart.
    destruct (undispatched (sc_pending st)), (sc_in_flight st); simpl in Hpart;
      unfold len in Hn; try lia. done.
  - rewrite Hperm. apply Forall_lookup. intros i handle Hx.
    destruct (Hfin i handle Hx) as (task & during & ? & ? & ? & ? & ? & _). by exists task, during.
Qed.

(** What execution returns: on success one handle per task, ordered by
    identifier, each with the bytes its action produced, within the reserved
    output bound; otherwise [Cancelled] after a cancellation, or the error of
    a task: a validated graph never ends in [DependencyCycle], an arithmetic
    error or a double dispatch of the loop's own. *)
Theorem execute_scheduled_returns (tasks : list ScheduledTask) (config : SchedulerConfig)
    (cancelled pool_built : bool) (st0 st : scheduler) (cs : list choice)
    (r : Result (list SpoolHandle))
    (Hlen : len tasks <= usize_MAX) (Hworkers : 0 < sc_workers config <= usize_MAX)
    (Hbudget : sc_memory_budget config <= u64_MAX)
    (Hstart : execute_start tasks config cancelled pool_built = Ok st0)
    (Hrun : sched_run tasks config st0 cs = Some st) (Hreturned : sc_phase st = Returned r) :
  match r with
  | Ok handles =>
      map sp_task_id handles ≡ₚ map st_task_id tasks ∧
      StronglySorted (not_greater compare_spool) handles ∧
      Forall (λ handle, ∃ task during, task ∈ tasks ∧ sp_task_id handle = st_task_id task ∧
        st_action task during = Ok (sp_file handle) ∧ sp_len handle = len (sp_file handle) ∧
        sp_len handle <= re_output_bound (st_resources task)) handles
  | Err e => reported tasks st e
  end.
Proof. by eapply execute_returned. Qed.

(** ** Witnesses: two independent tasks and one that needs both *)

Definition example_task (id : N) (priority : JobPriority) (dependencies : list N) (input : N) : ScheduledTask := {|
  st_task_id := id; st_priority := priority; st_dependencies := dependencies;
  st_resources := {| re_input_bytes := input; re_scratch_bytes := 1; re_output_bound := 4 |};
  st_action := λ cancelled, if cancelled then Err Cancelled else Ok (u16_le id);
|}.
Definition example_tasks : list ScheduledTask :=
  [example_task 3 InteractiveRead [1; 2] 10; example_task 1 PackBackground [] 20;
   example_task 2 PackForeground [] 30].
Definition example_config : SchedulerConfig := {| sc_workers := 2; sc_memory_budget := 64 |}.
Definition report (k : nat) : choice := Report k false false false (Ok tt).
(** Both independent tasks run at once, and the second one finishes first. *)
Definition example_choices : list choice :=
  [Proceed; Proceed; Proceed; Proceed; Proceed; report 1; Proceed; Proceed; Proceed; report 0;
   Proceed; Proceed; Proceed; Proceed; Proceed; Proceed; Proceed; report 0; Proceed].

Lemma validate_dag_correct_witness :
  len example_tasks <= usize_MAX ∧ validate_dag example_tasks = Ok tt ∧
  well_named example_tasks ∧ acyclic example_tasks.
Proof.
  assert (Hlen : len example_tasks <= usize_MAX) by by vm_compute.
  split; [exact Hlen|]. split; [vm_compute; reflexivity|].
  apply (validate_dag_correct example_tasks Hlen). vm_compute. reflexivity.
Defined.

Ltac run_example theorem cs :=
  assert (Hlen : len example_tasks <= usize_MAX) by (by vm_compute);
  assert (Hworkers : 0 < sc_workers example_config <= usize_MAX) by (split; by vm_compute);
  assert (Hbudget : sc_memory_budget example_config <= u64_MAX) by (by vm_compute);
  eexists _, _; split; [vm_compute; reflexivity|]; split; [vm_compute; reflexivity|];
  eapply (theorem example_tasks example_config false true _ _ cs);
  first [assumption | vm_compute; reflexivity].

Lemma execute_scheduled_safe_witness :
  ∃ st0 st, execute_start example_tasks example_config false true = Ok st0 ∧
    sched_run example_tasks example_config st0 (take 5 example_choices) = Some st ∧
    sum (map snd (sc_in_flight st)) <= sc_memory_budget example_config.
Proof. run_example execute_scheduled_safe (take 5 example_choices). Defined.

Lemma execute_scheduled_terminates_witness :
  ∃ st0 st, execute_start example_tasks example_config false true = Ok st0 ∧
    sched_run example_tasks example_config st0 example_choices = Some st ∧
    (length (filter (λ c, c ≠ Cancel) example_choices) <= 10 * length example_tasks + 4)%nat.
Proof. run_example execute_scheduled_terminates example_choices. Defined.

Lemma execute_scheduled_returns_witness :
  ∃ st0 st handles, execute_start example_tasks example_config false true = Ok st0 ∧
    sched_run example_tasks example_config st0 example_choices = Some st ∧
    sc_phase st = Returned (Ok handles) ∧ map sp_task_id handles = [1; 2; 3] ∧
    map sp_task_id handles ≡ₚ map st_task_id example_tasks.
Proof.
  assert (Hlen : len example_tasks <= usize_MAX) by by vm_compute.
  assert (Hworkers : 0 < sc_workers example_config <= usize_MAX) by (split; by vm_compute).
  assert (Hbudget : sc_memory_budget example_config <= u64_MAX) by by vm_compute.
  evar (st0 : scheduler). evar (st : scheduler). evar (handles : list SpoolHandle).
  assert (Hstart : execute_start example_tasks example_config false true = Ok st0).
  { unfold st0. vm_compute. reflexivity. }
  assert (Hrun : sched_run example_tasks example_config st0 example_choices = Some st).
  { unfold st0, st. vm_compute. reflexivity. }
  assert (Hphase : sc_phase st = Returned (Ok handles)).
  { unfold st, handles. vm_compute. reflexivity. }
  exists st0, st, handles. split; [exact Hstart|]. split; [exact Hrun|]. split; [exact Hphase|].
  split; [vm_compute; reflexivity|].
  exact (proj1 (execute_scheduled_returns _ _ _ _ _ _ _ _ Hlen Hworkers Hbudget Hstart Hrun Hphase)).
Defined.
