(* ===== verification/AgentApi.v ===== *)
(** * The agent protocol ([crates/pithos-agent-api/src/lib.rs])

    Errors, requests and their limits, identifiers and the types of jobs that
    the daemon's components share.  [parse_request] accepts exactly the
    requests within the protocol's limits. *)

From S2P Require Import Prelude Core Bytes.

Definition JSON_RPC_VERSION : string := "2.0".
Definition AGENT_PROTOCOL_VERSION : N := 1.

(** [String::len], in bytes. *)
Definition slen (s : string) : N := N.of_nat (String.length s).
Definition sbytes (s : string) : list N := map Ascii.N_of_ascii (String.list_ascii_of_string s).

(** ** JSON values

    [serde_json::Value] and its numbers. *)

Inductive Number :=
  | PosInt (n : N)
  | NegInt (n : Z)
  | Float (bits : N).

#[export] Instance Number_eq_dec : EqDecision Number.
Proof. solve_decision. Defined.

(** [Number::as_i64]. *)
Definition as_i64 (n : Number) : option Z :=
  match n with
  | PosInt n => if Z.of_N n <=? i64_MAX then Some (Z.of_N n) else None
  | NegInt n => Some n
  | Float _ => None
  end%Z.

Inductive Value :=
  | Null
  | Bool (b : bool)
  | Num (n : Number)
  | Str (s : string)
  | Array (values : list Value)
  | Object (fields : list (string * Value)).

(** ** Errors *)

Inductive JsonRpcErrorCode :=
  ParseError | InvalidRequest | MethodNotFound | InvalidParams | InternalError | DomainError.

Definition JsonRpcErrorCode_as_i32 (code : JsonRpcErrorCode) : Z :=
  match code with
  | ParseError => -32700
  | InvalidRequest => -32600
  | MethodNotFound => -32601
  | InvalidParams => -32602
  | InternalError => -32603
  | DomainError => -32000
  end.

Inductive PublicErrorKind :=
  | InvalidArgument | UnsupportedFormat | UnsupportedFeature | UnsafePathKind | PermissionDenied
  | ResourceLimitKind | CorruptArchive | IntegrityMismatch | InputChangedKind | JobNotFound
  | JobConflict | CancelledKind | Internal.

#[export] Instance PublicErrorKind_eq_dec : EqDecision PublicErrorKind.
Proof. solve_decision. Defined.

Record JsonRpcError := {
  je_code : Z;
  je_message : string;
  je_kind : PublicErrorKind;
  je_data : option Value;
}.

Abbreviation RpcResult := (result JsonRpcError).

Definition JsonRpcError_new (code : JsonRpcErrorCode) (kind : PublicErrorKind) (message : string) : JsonRpcError :=
  {| je_code := JsonRpcErrorCode_as_i32 code; je_message := message; je_kind := kind; je_data := None |}.
Definition JsonRpcError_parse_error : JsonRpcError :=
  JsonRpcError_new ParseError InvalidArgument "invalid JSON".
Definition JsonRpcError_invalid_request (message : string) : JsonRpcError :=
  JsonRpcError_new InvalidRequest InvalidArgument message.
Definition JsonRpcError_invalid_params (message : string) : JsonRpcError :=
  JsonRpcError_new InvalidParams InvalidArgument message.
Definition JsonRpcError_method_not_found : JsonRpcError :=
  JsonRpcError_new MethodNotFound UnsupportedFeature "method not found".
Definition JsonRpcError_resource_limit (message : string) : JsonRpcError :=
  JsonRpcError_new DomainError ResourceLimitKind message.
Definition JsonRpcError_domain (kind : PublicErrorKind) (message : string) : JsonRpcError :=
  JsonRpcError_new DomainError kind message.

(** ** Requests *)

Inductive RpcId := IdNumber (n : Z) | IdString (s : string).

(** [JsonRpcResponse<T>]: a success or a failure, never both. *)
Inductive JsonRpcResponse (T : Type) :=
  | Success (jsonrpc : string) (result : T) (id : RpcId)
  | Failure (jsonrpc : string) (error : JsonRpcError) (id : option RpcId).
Arguments Success {T}.
Arguments Failure {T}.

Definition JsonRpcResponse_success {T} (id : RpcId) (result : T) : JsonRpcResponse T :=
  Success JSON_RPC_VERSION result id.
Definition JsonRpcResponse_error {T} (id : option RpcId) (error : JsonRpcError) : JsonRpcResponse T :=
  Failure JSON_RPC_VERSION error id.

Inductive RpcMethod :=
  | Capabilities | Estimate | Pack | Unpack | List | Inspect | Extract | ReadRange | Verify | Cancel
  | JobStatus | SubscribeEvents.

#[export] Instance RpcMethod_eq_dec : EqDecision RpcMethod.
Proof. solve_decision. Defined.

Definition RpcMethod_ALL : list RpcMethod :=
  [Capabilities; Estimate; Pack; Unpack; List; Inspect; Extract; ReadRange; Verify; Cancel; JobStatus;
   SubscribeEvents].

Definition RpcMethod_as_str (method : RpcMethod) : string :=
  match method with
  | Capabilities => "capabilities"
  | Estimate => "estimate"
  | Pack => "pack"
  | Unpack => "unpack"
  | List => "list"
  | Inspect => "inspect"
  | Extract => "extract"
  | ReadRange => "read_range"
  | Verify => "verify"
  | Cancel => "cancel"
  | JobStatus => "job_status"
  | SubscribeEvents => "subscribe_events"
  end.

(** [FromStr]: the first method with this name. *)
Definition RpcMethod_from_str (value : string) : option RpcMethod :=
  find (λ method, bool_decide (RpcMethod_as_str method = value)) RpcMethod_ALL.

Record RawJsonRpcRequest := { rq_method : RpcMethod; rq_params : Value; rq_id : RpcId }.

Record ProtocolLimits := {
  pl_max_request_bytes : N;
  pl_max_depth : N;
  pl_max_method_bytes : N;
  pl_max_id_bytes : N;
  pl_max_string_bytes : N;
  pl_max_array_items : N;
  pl_max_object_fields : N;
}.

Definition ProtocolLimits_default : ProtocolLimits := {|
  pl_max_request_bytes := 1024 * 1024;
  pl_max_depth := 64;
  pl_max_method_bytes := 128;
  pl_max_id_bytes := 128;
  pl_max_string_bytes := 32 * 1024;
  pl_max_array_items := 4096;
  pl_max_object_fields := 256;
|}.

Record WireRequest := { wr_jsonrpc : string; wr_method : string; wr_params : Value; wr_id : Value }.

(** [serde_json::from_slice] at the types [parse_request] uses, with the
    category of a failure: whether it is a [Syntax] or [Eof] error. *)
Inductive wire_outcome := WireParsed (wire : WireRequest) | WireMalformed | WireMismatch.
Class RequestJson := {
  json_wire_request : list byte → wire_outcome;
  json_value : list byte → option Value;
}.

Fixpoint validate_json_value (limits : ProtocolLimits) (value : Value) (depth : N) : RpcResult unit :=
  if pl_max_depth limits <? depth then Err (JsonRpcError_resource_limit "JSON depth exceeded") else
  match value with
  | Str value =>
      if pl_max_string_bytes limits <? slen value
      then Err (JsonRpcError_resource_limit "string too large") else Ok tt
  | Array values =>
      if pl_max_array_items limits <? len values
      then Err (JsonRpcError_resource_limit "array too large") else
      (fix go values := match values with
       | [] => Ok tt
       | value :: values => validate_json_value limits value (depth + 1);; go values
       end) values
  | Object fields =>
      if pl_max_object_fields limits <? len fields
      then Err (JsonRpcError_resource_limit "object too large") else
      (fix go fields := match fields with
       | [] => Ok tt
       | (key, value) :: fields =>
           if pl_max_string_bytes limits <? slen key
           then Err (JsonRpcError_resource_limit "object key too large") else
           validate_json_value limits value (depth + 1);; go fields
       end) fields
  | _ => Ok tt
  end.

Definition parse_request `{RequestJson} (bytes : list byte) (limits : ProtocolLimits) :
    RpcResult RawJsonRpcRequest :=
  if pl_max_request_bytes limits <? len bytes
  then Err (JsonRpcError_resource_limit "request too large") else
  wire ← match json_wire_request bytes with
         | WireParsed wire => Ok wire
         | WireMalformed => Err JsonRpcError_parse_error
         | WireMismatch => Err (JsonRpcError_invalid_request "invalid envelope")
         end;
  value ← ok_or JsonRpcError_parse_error (json_value bytes);
  validate_json_value limits value 0;;
  if negb (bool_decide (wr_jsonrpc wire = JSON_RPC_VERSION))
  then Err (JsonRpcError_invalid_request "jsonrpc must be 2.0") else
  if (slen (wr_method wire) =? 0) || (pl_max_method_bytes limits <? slen (wr_method wire))
  then Err (JsonRpcError_invalid_request "invalid method") else
  method ← ok_or JsonRpcError_method_not_found (RpcMethod_from_str (wr_method wire));
  id ← match wr_id wire with
       | Num number =>
           n ← ok_or (JsonRpcError_invalid_request "id must be an integer") (as_i64 number);
           Ok (IdNumber n)
       | Str value =>
           if negb (slen value =? 0) && (slen value <=? pl_max_id_bytes limits)
           then Ok (IdString value) else Err (JsonRpcError_invalid_request "invalid id")
       | _ => Err (JsonRpcError_invalid_request "invalid id")
       end;
  Ok {| rq_method := method; rq_params := wr_params wire; rq_id := id |}.

(** ** Identifiers

    [JobId] and [SessionId] are strings; deserializing does not check them. *)

Definition is_ascii_digit (b : N) : bool := (48 <=? b) && (b <=? 57).
Definition is_ascii_alphanumeric (b : N) : bool :=
  is_ascii_digit b || ((65 <=? b) && (b <=? 90)) || ((97 <=? b) && (b <=? 122)).
Definition is_ascii_hexdigit (b : N) : bool :=
  is_ascii_digit b || ((65 <=? b) && (b <=? 70)) || ((97 <=? b) && (b <=? 102)).
Definition is_ascii_graphic (b : N) : bool := (33 <=? b) && (b <=? 126).

(** The checks of [validated_id!]. *)
Definition validated_id (prefix value : string) : RpcResult string :=
  if (slen value <? slen prefix + 8) || (96 <? slen value) || negb (String.prefix prefix value) ||
     negb (forallb (λ b, is_ascii_alphanumeric b || (b =? 45)) (sbytes value))
  then Err (JsonRpcError_invalid_params "invalid identifier") else Ok value.

Abbreviation JobId := string.
Abbreviation SessionId := string.
Definition JobId_new (value : string) : RpcResult JobId := validated_id "job-" value.
Definition SessionId_new (value : string) : RpcResult SessionId := validated_id "session-" value.

(** ** Jobs *)

Inductive ApiJobState := Queued | Running | Cancelling | Completed | Failed | Cancelled.

#[export] Instance ApiJobState_eq_dec : EqDecision ApiJobState.
Proof. solve_decision. Defined.

Definition is_terminal (state : ApiJobState) : bool :=
  match state with Completed | Failed | Cancelled => true | _ => false end.

Inductive JobPriority :=
  | InteractiveRead | InteractiveExtract | VerifyRequested
  | PackForeground | PackBackground | Benchmark.

#[export] Instance JobPriority_eq_dec : EqDecision JobPriority.
Proof. solve_decision. Defined.

Record JobLimits := {
  jl_max_threads : N;
  jl_max_memory : N;
  jl_max_temp : N;
  jl_max_output : N;
  jl_deadline_unix_ms : option N;
}.

Definition JobLimits_default : JobLimits := {|
  jl_max_threads := 1;
  jl_max_memory := 256 * 1024 * 1024;
  jl_max_temp := 1024 * 1024 * 1024;
  jl_max_output := 1024 * 1024 * 1024;
  jl_deadline_unix_ms := None;
|}.

(** A [PathBuf] is the bytes of a Unix path. *)
Abbreviation PathBuf := (list byte).

Record PathScope := { ps_read_roots : list PathBuf; ps_write_roots : list PathBuf }.

Inductive ApiProfile := Raw | Stream | Random | Balanced | ArchiveMax.

#[export] Instance ApiProfile_eq_dec : EqDecision ApiProfile.
Proof. solve_decision. Defined.

Record JobContext := {
  jc_capability_token : string;
  jc_idempotency_key : string;
  jc_limits : JobLimits;
  jc_path_scope : PathScope;
  jc_priority : JobPriority;
}.

Record JobAccepted := { ja_job_id : JobId; ja_state : ApiJobState; ja_idempotent_replay : bool }.

Record JobSnapshot := {
  js_job_id : JobId;
  js_state : ApiJobState;
  js_operation : RpcMethod;
  js_created_at_unix_ms : N;
  js_updated_at_unix_ms : N;
  js_result : option Value;
  js_error : option JsonRpcError;
}.

Record ProgressEvent := {
  pe_job_id : JobId;
  pe_sequence : N;
  pe_state : ApiJobState;
  pe_phase : string;
  pe_completed_units : N;
  pe_total_units : option N;
  pe_occurred_at_unix_ms : N;
}.

Record EventsResult := { ev_events : list ProgressEvent; ev_latest_sequence : N; ev_terminal : bool }.

Record ReadRangeResult := {
  rg_transfer_id : string;
  rg_path : PathBuf;
  rg_offset : N;
  rg_length : N;
  rg_blake3 : string;
  rg_expires_at_unix_ms : N;
}.

(** ** Which requests are accepted *)

Lemma RpcMethod_from_str_iff value method : RpcMethod_from_str value = Some method ↔ RpcMethod_as_str method = value.
Proof.
  unfold RpcMethod_from_str. split.
  - intros [_ Hm]%find_some. by apply bool_decide_eq_true in Hm.
  - intros <-. by destruct method.
Qed.

(** [v] occurs in [value] at a depth, where [value] is at depth [depth]. *)
Inductive occurs (v : Value) : Value → N → N → Prop :=
  | occurs_here depth : occurs v v depth depth
  | occurs_item values value depth d :
      value ∈ values → occurs v value (depth + 1) d → occurs v (Array values) depth d
  | occurs_field fields key value depth d :
      (key, value) ∈ fields → occurs v value (depth + 1) d → occurs v (Object fields) depth d.

(** A value itself, whatever is in it. *)
Definition item_within (limits : ProtocolLimits) (v : Value) : Prop :=
  match v with
  | Str s => slen s <= pl_max_string_bytes limits
  | Array values => len values <= pl_max_array_items limits
  | Object fields =>
      len fields <= pl_max_object_fields limits ∧
      Forall (λ field, slen field.1 <= pl_max_string_bytes limits) fields
  | _ => True
  end.

Definition within (limits : ProtocolLimits) (value : Value) (depth : N) : Prop :=
  ∀ v d, occurs v value depth d → d <= pl_max_depth limits ∧ item_within limits v.

(** Induction over values with their items. *)
Lemma Value_nested_ind (P : Value → Prop) :
  P Null → (∀ b, P (Bool b)) → (∀ n, P (Num n)) → (∀ s, P (Str s)) →
  (∀ values, Forall P values → P (Array values)) →
  (∀ fields, Forall (λ field, P field.2) fields → P (Object fields)) → ∀ v, P v.
Proof.
  intros Hnull Hbool Hnum Hstr Harr Hobj. fix IH 1. intros [|b|n|s|values|fields]; [done..| |].
  - apply Harr. induction values as [|v values IHl]; constructor; [apply IH|exact IHl].
  - apply Hobj. induction fields as [|[k v] fields IHl]; constructor; [apply IH|exact IHl].
Qed.

Lemma within_leaf limits v depth :
  (∀ values, v ≠ Array values) → (∀ fields, v ≠ Object fields) →
  within limits v depth ↔ depth <= pl_max_depth limits ∧ item_within limits v.
Proof.
  intros Ha Ho. split; [intros Hw; apply Hw; constructor|]. intros [Hd Hi] v' d Hocc.
  destruct Hocc as [|values value depth d _ _|fields key value depth d _ _]; [done|by destruct (Ha values)|by destruct (Ho fields)].
Qed.

Lemma within_array limits values depth :
  within limits (Array values) depth ↔
  depth <= pl_max_depth limits ∧ len values <= pl_max_array_items limits ∧
  Forall (λ v, within limits v (depth + 1)) values.
Proof.
  split.
  - intros Hw. destruct (Hw _ _ (occurs_here _ _)) as [? ?]. split; [done|]. split; [done|].
    apply Forall_forall. intros v Hv v' d Hocc. apply Hw. by eapply occurs_item.
  - intros (Hd & Hl & Hall) v d Hocc. inversion Hocc as [|? value ? ? Hin Ho|]; subst; [done|].
    rewrite Forall_forall in Hall. by apply (Hall value Hin).
Qed.

Lemma within_object limits fields depth :
  within limits (Object fields) depth ↔
  depth <= pl_max_depth limits ∧ len fields <= pl_max_object_fields limits ∧
  Forall (λ field, slen field.1 <= pl_max_string_bytes limits ∧ within limits field.2 (depth + 1)) fields.
Proof.
  split.
  - intros Hw. destruct (Hw _ _ (occurs_here _ _)) as [? [? Hk]]. split; [done|]. split; [done|].
    apply Forall_forall. intros [key v] Hv. split; [by apply (proj1 (Forall_forall _ _) Hk _ Hv)|].
    intros v' d Hocc. apply Hw. by eapply occurs_field.
  - intros (Hd & Hl & Hall) v d Hocc. inversion Hocc as [| |? key value ? ? Hin Ho]; subst.
    + split; [done|]. split; [done|]. eapply Forall_impl; [exact Hall|]. by intros ? [? _].
    + rewrite Forall_forall in Hall. by apply (Hall _ Hin).
Qed.

Lemma validate_json_value_Ok limits value depth :
  validate_json_value limits value depth = Ok tt ↔ within limits value depth.
Proof.
  revert depth. induction value as [|b|n|s|values IH|fields IH] using Value_nested_ind; intros depth;
    cbn [validate_json_value]; rewrite ?if_Err_Ok, ?N.ltb_ge.
  1-4: rewrite within_leaf by done; cbn; tauto.
  - rewrite within_array. apply and_iff_compat_l, and_iff_compat_l. induction IH as [|v values Hv _ IHl]; [done|].
    rewrite bind_Ok, Forall_cons, <-Hv, <-IHl. split; [by intros ([] & ? & ?)|]. intros []. by exists tt.
  - rewrite within_object. apply and_iff_compat_l, and_iff_compat_l. induction IH as [|[key v] fields Hv _ IHl]; [done|].
    cbn [fst snd] in *. rewrite if_Err_Ok, N.ltb_ge, bind_Ok, Forall_cons, <-Hv, <-IHl.
    split; [by intros (? & [] & ? & ?)|]. intros [[]]. split; [done|]. by exists tt.
Qed.

(** The identifier of a request, given the JSON value of its [id]. *)
Definition accepted_id (limits : ProtocolLimits) (value : Value) (id : RpcId) : Prop :=
  match id with
  | IdNumber n => ∃ number, value = Num number ∧ as_i64 number = Some n
  | IdString s => value = Str s ∧ 1 <= slen s <= pl_max_id_bytes limits
  end.

(** The daemon parses exactly the requests within the protocol's limits:
    a frame of at most the permitted size with the members of a request and
    no other, in whose value every item is at a permitted depth and every
    string, key, array and object within its bound, whose version is 2.0,
    whose method is one of the twelve names, and whose identifier is an
    integer of 64 bits or a short non-empty string. *)
Theorem parse_request_correct `{RequestJson} bytes limits request :
  parse_request bytes limits = Ok request ↔
  len bytes <= pl_max_request_bytes limits ∧
  ∃ wire value, json_wire_request bytes = WireParsed wire ∧ json_value bytes = Some value ∧
    within limits value 0 ∧ wr_jsonrpc wire = JSON_RPC_VERSION ∧
    wr_method wire = RpcMethod_as_str (rq_method request) ∧ slen (wr_method wire) <= pl_max_method_bytes limits ∧
    wr_params wire = rq_params request ∧ accepted_id limits (wr_id wire) (rq_id request).
Proof.
  unfold parse_request. rewrite if_Err_Ok, N.ltb_ge. apply and_iff_compat_l. split.
  - intros (wire & Hwire & Hr)%bind_Ok. destruct (json_wire_request bytes) as [w| |]; try done. injection Hwire as ->.
    apply bind_Ok in Hr as (value & Hvalue%ok_or_Ok & Hr). apply bind_Ok in Hr as ([] & Hval%validate_json_value_Ok & Hr).
    apply if_Err_Ok in Hr as [Hv Hr]. apply negb_false_iff, bool_decide_eq_true in Hv.
    apply if_Err_Ok in Hr as [Hm Hr]. apply orb_false_iff in Hm as [_ Hm%N.ltb_ge].
    apply bind_Ok in Hr as (method & Hmethod%ok_or_Ok%RpcMethod_from_str_iff & Hr).
    apply bind_Ok in Hr as (id & Hid & [= <-]). exists wire, value. cbn. split_and!; try done.
    destruct (wr_id wire) as [| |number|s| |]; try done.
    + apply bind_Ok in Hid as (n & Hn%ok_or_Ok & [= <-]). by exists number.
    + destruct (_ && _) eqn:Hs in Hid; [|done]. injection Hid as <-.
      apply andb_true_iff in Hs as [Hne%negb_true_iff%N.eqb_neq Hs%N.leb_le]. split; [done|]. lia.
  - intros (wire & value & -> & -> & Hw & Hver & Hm & Hml & Hp & Hid). cbn [mbind result_bind ok_or].
    rewrite (proj2 (validate_json_value_Ok _ _ _)) by done. cbn [mbind result_bind].
    rewrite bool_decide_true by done. cbn [negb].
    assert (slen (wr_method wire) =? 0 = false) as -> by (rewrite Hm; by destruct (rq_method request)).
    rewrite (proj2 (N.ltb_ge _ _)) by done. cbn [orb].
    rewrite (proj2 (RpcMethod_from_str_iff _ (rq_method request))) by done. cbn [mbind result_bind ok_or].
    destruct request as [method params [n|s]]; cbn in *; subst params.
    + destruct Hid as (number & -> & Hn). by rewrite Hn.
    + destruct Hid as [-> Hs]. rewrite (proj2 (N.eqb_neq _ _)) by lia. by rewrite (proj2 (N.leb_le _ _)) by lia.
Qed.
