(* ===== verification/DaemonLimits.v ===== *)
(** * Quotas and rates of the daemon ([crates/pithos-daemon/src/limits.rs])

    The quota on what a job may ask for, and the token bucket of a
    connection. *)

From S2P Require Import Prelude Core AgentApi.

Record QuotaPolicy := {
  maximum_job_limits : JobLimits;
  max_jobs_per_session : N;
  qp_max_events_per_job : N;
  max_read_range : N;
}.

Definition QuotaPolicy_default : QuotaPolicy := {|
  maximum_job_limits := {|
    jl_max_threads := 8;
    jl_max_memory := 4 * 1024 * 1024 * 1024;
    jl_max_temp := 16 * 1024 * 1024 * 1024;
    jl_max_output := 1024 * 1024 * 1024 * 1024;
    jl_deadline_unix_ms := None;
  |};
  max_jobs_per_session := 128;
  qp_max_events_per_job := 4096;
  max_read_range := 64 * 1024 * 1024;
|}.

Definition QuotaPolicy_validate (policy : QuotaPolicy) (requested : JobLimits) : RpcResult unit :=
  let maximum := maximum_job_limits policy in
  if (jl_max_threads requested =? 0) || (jl_max_threads maximum <? jl_max_threads requested) ||
     (jl_max_memory requested =? 0) || (jl_max_memory maximum <? jl_max_memory requested) ||
     (jl_max_temp maximum <? jl_max_temp requested) ||
     (jl_max_output requested =? 0) || (jl_max_output maximum <? jl_max_output requested)
  then Err (JsonRpcError_resource_limit "job quota exceeded") else Ok tt.

(** A token bucket in thousandths of a token. *)
Record ConnectionRateLimiter := {
  rate_per_second : N;
  capacity : N;
  tokens_milli : N;
  last_ms : N;
}.

Definition ConnectionRateLimiter_new (rate burst : N) : ConnectionRateLimiter := {|
  rate_per_second := N.max rate 1;
  capacity := N.max burst 1;
  tokens_milli := N.max burst 1 * 1000;
  last_ms := 0;
|}.

Definition ConnectionRateLimiter_allow (limiter : ConnectionRateLimiter) (now_ms : N) : bool * ConnectionRateLimiter :=
  let last := if last_ms limiter =? 0 then now_ms else last_ms limiter in
  let elapsed := saturating_sub now_ms last in
  let refill := saturating_mul elapsed (rate_per_second limiter) in
  let bucket := capacity limiter * 1000 in
  let tokens := N.min (saturating_add (tokens_milli limiter) refill) bucket in
  let '(allowed, tokens) := if tokens <? 1000 then (false, tokens) else (true, tokens - 1000) in
  (allowed, {| rate_per_second := rate_per_second limiter; capacity := capacity limiter;
               tokens_milli := tokens; last_ms := now_ms |}).

(** The requests of one connection. *)
Fixpoint ConnectionRateLimiter_run (limiter : ConnectionRateLimiter) (times : list N) : list bool * ConnectionRateLimiter :=
  match times with
  | [] => ([], limiter)
  | now_ms :: times =>
      let '(allowed, limiter) := ConnectionRateLimiter_allow limiter now_ms in
      let '(answers, limiter) := ConnectionRateLimiter_run limiter times in (allowed :: answers, limiter)
  end.

(** ** Quotas *)

Lemma QuotaPolicy_validate_iff policy requested :
  QuotaPolicy_validate policy requested = Ok tt ↔
  let maximum := maximum_job_limits policy in
  (1 <= jl_max_threads requested <= jl_max_threads maximum) ∧
  (1 <= jl_max_memory requested <= jl_max_memory maximum) ∧
  jl_max_temp requested <= jl_max_temp maximum ∧
  (1 <= jl_max_output requested <= jl_max_output maximum).
Proof.
  unfold QuotaPolicy_validate. cbv zeta. rewrite if_Err_Ok, !orb_false_iff, !N.eqb_neq, !N.ltb_ge. split.
  - intros [? _]. lia.
  - intros. split; [lia|done].
Qed.

(** ** The bucket *)

(** The milliseconds by which the clock went forward. *)
Fixpoint forward (last : N) (times : list N) : N :=
  match times with
  | [] => 0
  | now_ms :: times => (if last =? 0 then 0 else now_ms - last) + forward now_ms times
  end.

Definition allowed_count (answers : list bool) : N := len (List.filter id answers).

Record limiter_ok (limiter : ConnectionRateLimiter) : Prop := {
  limiter_rate : 1 <= rate_per_second limiter;
  limiter_capacity : 1 <= capacity limiter < 2 ^ 32;
  limiter_tokens : tokens_milli limiter <= capacity limiter * 1000;
}.

Lemma limiter_new_ok rate burst : burst < 2 ^ 32 → limiter_ok (ConnectionRateLimiter_new rate burst).
Proof. intros. split; cbn; lia. Qed.

(** The saturating operations are exact below the capacity. *)
Lemma allow_exact limiter now_ms :
  limiter_ok limiter →
  let elapsed := if last_ms limiter =? 0 then 0 else now_ms - last_ms limiter in
  let tokens := N.min (tokens_milli limiter + elapsed * rate_per_second limiter) (capacity limiter * 1000) in
  ConnectionRateLimiter_allow limiter now_ms =
  (1000 <=? tokens, {| rate_per_second := rate_per_second limiter; capacity := capacity limiter;
    tokens_milli := if 1000 <=? tokens then tokens - 1000 else tokens; last_ms := now_ms |}).
Proof.
  intros [Hr Hc Ht] elapsed tokens. unfold ConnectionRateLimiter_allow.
  assert (He : saturating_sub now_ms (if last_ms limiter =? 0 then now_ms else last_ms limiter) = elapsed).
  { unfold elapsed, saturating_sub. destruct (last_ms limiter =? 0); lia. }
  rewrite He.
  assert (Htok : N.min (saturating_add (tokens_milli limiter) (saturating_mul elapsed (rate_per_second limiter)))
    (capacity limiter * 1000) = tokens).
  { unfold tokens, saturating_add, saturating_mul. set (x := elapsed * rate_per_second limiter).
    assert (capacity limiter * 1000 <= u64_MAX) by lia. lia. }
  rewrite Htok, N.ltb_antisym. by destruct (1000 <=? tokens).
Qed.

Lemma allow_ok limiter now_ms : limiter_ok limiter → limiter_ok (ConnectionRateLimiter_allow limiter now_ms).2.
Proof.
  intros Hok. rewrite allow_exact by done. destruct Hok as [Hr Hc Ht]. cbn. split; cbn; try done.
  destruct (1000 <=? _); lia.
Qed.

Lemma run_bound limiter times :
  limiter_ok limiter →
  let '(answers, limiter') := ConnectionRateLimiter_run limiter times in
  limiter_ok limiter' ∧
  1000 * allowed_count answers + tokens_milli limiter' <=
    tokens_milli limiter + forward (last_ms limiter) times * rate_per_second limiter.
Proof.
  revert limiter. induction times as [|now_ms times IH]; intros limiter Hok; cbn [ConnectionRateLimiter_run].
  { split; [done|]. change (allowed_count []) with 0. lia. }
  pose proof (allow_ok limiter now_ms Hok) as Hok'. rewrite allow_exact in Hok' |- * by done. cbn [snd] in Hok'.
  specialize (IH _ Hok'). destruct (ConnectionRateLimiter_run _ times) as [answers limiter'].
  destruct IH as [Hok'' IH]. split; [done|]. cbn [tokens_milli last_ms rate_per_second forward] in *.
  revert IH. set (tokens := N.min _ _).
  assert (Hcount : ∀ b, allowed_count (b :: answers) = (if b : bool then 1 else 0) + allowed_count answers).
  { intros []; unfold allowed_count; cbn [List.filter id]; rewrite ?len_cons; lia. }
  rewrite Hcount.
  assert (Htok : tokens <= tokens_milli limiter +
    (if last_ms limiter =? 0 then 0 else now_ms - last_ms limiter) * rate_per_second limiter) by (unfold tokens; lia).
  rewrite N.mul_add_distr_r. destruct (N.leb_spec 1000 tokens); lia.
Qed.

(** C36: the rate limiter lets through at most the burst plus the rate times
    the time that passed, over every sequence of requests of a connection
    (the clock may stand still or go back), and it never starves a client that
    waits: a request that comes as long after the previous one as one token
    takes is allowed. *)
Theorem rate_limiter_correct rate burst times :
  rate < 2 ^ 32 → burst < 2 ^ 32 →
  let '(answers, limiter) := ConnectionRateLimiter_run (ConnectionRateLimiter_new rate burst) times in
  1000 * allowed_count answers <= 1000 * N.max burst 1 + forward 0 times * N.max rate 1 ∧
  ∀ now_ms, last_ms limiter ≠ 0 → 1000 <= (now_ms - last_ms limiter) * N.max rate 1 →
    (ConnectionRateLimiter_allow limiter now_ms).1 = true.
Proof.
  intros Hr Hb. pose proof (limiter_new_ok rate burst Hb) as Hok.
  pose proof (run_bound _ times Hok) as Hrun.
  assert (Hrate : rate_per_second (ConnectionRateLimiter_run (ConnectionRateLimiter_new rate burst) times).2 = N.max rate 1).
  { clear. assert (Hg : ∀ limiter, rate_per_second (ConnectionRateLimiter_run limiter times).2 = rate_per_second limiter);
      [|by rewrite Hg].
    induction times as [|now_ms times IH]; intros limiter; cbn [ConnectionRateLimiter_run]; [done|].
    destruct (ConnectionRateLimiter_allow limiter now_ms) as [b l] eqn:Ha. specialize (IH l).
    destruct (ConnectionRateLimiter_run l times). cbn in *. rewrite IH. unfold ConnectionRateLimiter_allow in Ha.
    destruct (_ <? 1000) in Ha; by injection Ha as <- <-. }
  destruct (ConnectionRateLimiter_run _ times) as [answers limiter]. destruct Hrun as [Hok' Hrun].
  cbn [ConnectionRateLimiter_new tokens_milli last_ms rate_per_second snd] in *. split; [lia|].
  intros now_ms Hl Hw. rewrite allow_exact by done. cbn. destruct Hok' as [_ Hc _]. rewrite Hrate.
  destruct (N.eqb_spec (last_ms limiter) 0); [done|]. apply N.leb_le. lia.
Qed.

Lemma rate_limiter_correct_witness :
  let '(answers, limiter) := ConnectionRateLimiter_run (ConnectionRateLimiter_new 1 2) [1000; 1000; 1000] in
  answers = [true; true; false] ∧ (ConnectionRateLimiter_allow limiter 2000).1 = true.
Proof.
  pose proof (rate_limiter_correct 1 2 [1000; 1000; 1000] ltac:(reflexivity) ltac:(reflexivity)) as Hr.
  cbn -[ConnectionRateLimiter_allow] in Hr |- *. split; [reflexivity|]. apply (proj2 Hr); [discriminate|discriminate].
Defined.
