(* ===== verification/FairScheduler.v ===== *)
(** * The daemon's fair queue ([crates/pithos-daemon/src/scheduler.rs])

    Six priority lanes with weighted credits, each a round robin over the
    sessions that have jobs in it.  The operations, the invariant, and the
    bounds on how long a job can be overtaken. *)

From S2P Require Import Prelude Core Bytes AgentApi.

Definition PRIORITY_WEIGHTS : list N := [8; 6; 4; 3; 2; 1].

(** [SessionId] and [JobId] are validated strings. *)
Record ScheduledJob := {
  sj_owner : string;
  sj_job_id : string;
  sj_priority : JobPriority;
  sj_deadline_unix_ms : option N;
}.

(** ** One lane *)

Record PriorityLane := {
  pl_sessions : gmap string (list ScheduledJob);
  pl_order : list string;
}.

Definition PriorityLane_default : PriorityLane := {| pl_sessions := ∅; pl_order := [] |}.

Definition PriorityLane_push (lane : PriorityLane) (job : ScheduledJob) : PriorityLane :=
  let owner := sj_owner job in
  {| pl_sessions := <[owner := default [] (pl_sessions lane !! owner) ++ [job]]> (pl_sessions lane);
     pl_order := match pl_sessions lane !! owner with
                 | None => pl_order lane ++ [owner]
                 | Some _ => pl_order lane
                 end |}.

(** [while let Some(owner) = self.order.pop_front()]: an iteration that does
    not return has made [order] shorter. *)
Fixpoint PriorityLane_pop_loop (sessions : gmap string (list ScheduledJob)) (order : list string) :
    option ScheduledJob * PriorityLane :=
  match order with
  | [] => (None, {| pl_sessions := sessions; pl_order := [] |})
  | owner :: order =>
      match sessions !! owner with
      | None => PriorityLane_pop_loop sessions order
      | Some [] => PriorityLane_pop_loop (delete owner sessions) order
      | Some [job] => (Some job, {| pl_sessions := delete owner sessions; pl_order := order |})
      | Some (job :: queue) =>
          (Some job, {| pl_sessions := <[owner := queue]> sessions; pl_order := order ++ [owner] |})
      end
  end.

Definition PriorityLane_pop (lane : PriorityLane) : option ScheduledJob * PriorityLane :=
  PriorityLane_pop_loop (pl_sessions lane) (pl_order lane).

Definition PriorityLane_is_empty (lane : PriorityLane) : bool := bool_decide (pl_order lane = []).

(** ** The scheduler *)

Record FairScheduler := {
  fs_lanes : list PriorityLane;
  fs_credits : list N;
  fs_cursor : nat;
  fs_len : N;
}.

Definition FairScheduler_default : FairScheduler := {|
  fs_lanes := replicate 6 PriorityLane_default;
  fs_credits := PRIORITY_WEIGHTS;
  fs_cursor := 0;
  fs_len := 0;
|}.

Definition priority_index (priority : JobPriority) : nat :=
  match priority with
  | InteractiveRead => 0
  | InteractiveExtract => 1
  | VerifyRequested => 2
  | PackForeground => 3
  | PackBackground => 4
  | Benchmark => 5
  end.

(** The operations answer [None] where the code would panic: an index out of
    range or an underflow. *)
Definition FairScheduler_push (st : FairScheduler) (job : ScheduledJob) : option FairScheduler :=
  let index := priority_index (sj_priority job) in
  lane ← fs_lanes st !! index;
  Some {| fs_lanes := <[index := PriorityLane_push lane job]> (fs_lanes st);
          fs_credits := fs_credits st; fs_cursor := fs_cursor st;
          fs_len := saturating_add (fs_len st) 1 |}.

(** One iteration of the [loop] of [pop]: the state, and the job to return if
    the iteration returns. *)
Definition pop_step (st : FairScheduler) : option (option ScheduledJob * FairScheduler) :=
  let reset := forallb (λ credit, credit =? 0) (fs_credits st) in
  let credits := if reset then PRIORITY_WEIGHTS else fs_credits st in
  let cursor := if reset then 0%nat else fs_cursor st in
  let next := ((cursor + 1) mod length (fs_lanes st))%nat in
  credit ← credits !! cursor;
  lane ← fs_lanes st !! cursor;
  if (credit =? 0) || PriorityLane_is_empty lane then
    Some (None, {| fs_lanes := fs_lanes st; fs_credits := <[cursor := 0]> credits;
                   fs_cursor := next; fs_len := fs_len st |})
  else
    let '(job, lane) := PriorityLane_pop lane in
    credit ← checked_sub credit 1;
    let st := {| fs_lanes := <[cursor := lane]> (fs_lanes st);
                 fs_credits := <[cursor := credit]> credits;
                 fs_cursor := if credit =? 0 then next else cursor; fs_len := fs_len st |} in
    match job with
    | None => Some (None, st)
    | Some job =>
        len ← checked_sub (fs_len st) 1;
        Some (Some job, {| fs_lanes := fs_lanes st; fs_credits := fs_credits st;
                           fs_cursor := fs_cursor st; fs_len := len |})
    end.

(** The loop: [None] also if it has not returned within [fuel] iterations. *)
Fixpoint pop_loop (fuel : nat) (st : FairScheduler) : option (ScheduledJob * FairScheduler) :=
  match fuel with
  | O => None
  | S fuel =>
      '(job, st) ← pop_step st;
      match job with Some job => Some (job, st) | None => pop_loop fuel st end
  end.

(** Twice around the lanes is enough. *)
Definition FairScheduler_pop (st : FairScheduler) : option (option ScheduledJob * FairScheduler) :=
  if fs_len st =? 0 then Some (None, st)
  else '(job, st) ← pop_loop 12 st; Some (Some job, st).

Definition FairScheduler_is_empty (st : FairScheduler) : bool := fs_len st =? 0.

(** [while let Some(job) = self.pop()]. *)
Fixpoint drain_loop (fuel : nat) (st : FairScheduler) (jobs : list ScheduledJob) :
    option (list ScheduledJob * FairScheduler) :=
  '(job, st) ← FairScheduler_pop st;
  match job with
  | None => Some (jobs, st)
  | Some job =>
      match fuel with O => None | S fuel => drain_loop fuel st (jobs ++ [job]) end
  end.

Definition FairScheduler_drain (st : FairScheduler) : option (list ScheduledJob * FairScheduler) :=
  drain_loop (N.to_nat (fs_len st)) st [].

(** ** Invariants *)

(** A lane's rotation lists exactly the sessions with jobs, each once. *)
Record lane_inv (p : nat) (lane : PriorityLane) : Prop := {
  lane_nodup : NoDup (pl_order lane);
  lane_dom : ∀ owner, owner ∈ pl_order lane ↔ is_Some (pl_sessions lane !! owner);
  lane_queues : ∀ owner queue, pl_sessions lane !! owner = Some queue →
    queue ≠ [] ∧ Forall (λ job, sj_owner job = owner ∧ priority_index (sj_priority job) = p) queue;
}.

(** The jobs [owner] has in a lane, oldest first. *)
Definition queue_of (lane : PriorityLane) (owner : string) : list ScheduledJob :=
  default [] (pl_sessions lane !! owner).

Definition lane_jobs (lane : PriorityLane) : list ScheduledJob :=
  concat (map (queue_of lane) (pl_order lane)).

Lemma lane_default_inv p : lane_inv p PriorityLane_default.
Proof.
  split; cbn.
  - constructor.
  - intros o. rewrite elem_of_nil, lookup_empty. split; [done|by intros []].
  - intros o q. by rewrite lookup_empty.
Qed.

Lemma lane_push_inv p lane job :
  lane_inv p lane → priority_index (sj_priority job) = p → lane_inv p (PriorityLane_push lane job).
Proof.
  intros [Hnd Hdom Hq] Hp. split; cbn.
  - destruct (pl_sessions lane !! sj_owner job) eqn:E; [done|].
    apply NoDup_app. split; [done|]. split; [|apply NoDup_singleton].
    intros o Ho ->%list_elem_of_singleton. apply Hdom in Ho as [? ?]. congruence.
  - intros o. destruct (decide (o = sj_owner job)) as [->|Hne].
    + rewrite lookup_insert_eq. split; [eauto|]. intros _.
      destruct (pl_sessions lane !! sj_owner job) eqn:E; [apply Hdom; eauto|].
      apply elem_of_app. right. by left.
    + rewrite lookup_insert_ne by done. rewrite <-Hdom.
      destruct (pl_sessions lane !! sj_owner job); [done|]. set_solver.
  - intros o q. destruct (decide (o = sj_owner job)) as [->|Hne].
    + rewrite lookup_insert_eq. intros [= <-]. split; [by destruct (default [] _)|].
      apply Forall_app. split; [|by repeat constructor].
      destruct (pl_sessions lane !! sj_owner job) eqn:E; [|constructor]. by apply Hq.
    + rewrite lookup_insert_ne by done. apply Hq.
Qed.

Lemma lane_push_queue lane job owner :
  queue_of (PriorityLane_push lane job) owner =
  queue_of lane owner ++ if decide (owner = sj_owner job) then [job] else [].
Proof.
  unfold queue_of. cbn. destruct (decide (owner = sj_owner job)) as [->|Hne].
  - by rewrite lookup_insert_eq.
  - by rewrite lookup_insert_ne, app_nil_r.
Qed.

(** The next session of the rotation gives its oldest job and, if it has
    more, goes to the end of the rotation. *)
Lemma lane_pop_spec p lane owner order :
  lane_inv p lane → pl_order lane = owner :: order →
  ∃ job lane', PriorityLane_pop lane = (Some job, lane') ∧ lane_inv p lane' ∧
    queue_of lane owner = job :: queue_of lane' owner ∧
    (∀ owner', owner' ≠ owner → queue_of lane' owner' = queue_of lane owner') ∧
    pl_order lane' = order ++ (if bool_decide (queue_of lane' owner = []) then [] else [owner]) ∧
    sj_owner job = owner ∧ priority_index (sj_priority job) = p.
Proof.
  intros [Hnd Hdom Hq] Ho. unfold PriorityLane_pop. rewrite Ho. cbn [PriorityLane_pop_loop].
  rewrite Ho in Hnd. apply NoDup_cons in Hnd as [Hn Hnd].
  destruct (proj1 (Hdom owner)) as [queue Hqueue]; [rewrite Ho; by left|].
  destruct (Hq _ _ Hqueue) as [Hne Hall]. rewrite Hqueue.
  destruct queue as [|job [|job2 queue]]; [done|..];
    apply Forall_cons in Hall as [[Hj1 Hj2] Hall]; eexists job, _; (split; [done|]).
  - split; [split; cbn|].
    + done.
    + intros o. destruct (decide (o = owner)) as [->|Hne'].
      * rewrite lookup_delete_eq. split; [done|by intros []].
      * rewrite lookup_delete_ne, <-Hdom, Ho by done. set_solver.
    + intros o q. rewrite lookup_delete_Some. intros [_ ?]. by apply Hq.
    + unfold queue_of. cbn. rewrite Hqueue, lookup_delete_eq. cbn. split; [done|].
      split; [intros o Hne'; by rewrite lookup_delete_ne|]. by rewrite app_nil_r.
  - split; [split; cbn|].
    + apply NoDup_app. split; [done|]. split; [|apply NoDup_singleton].
      by intros o Ho' ->%list_elem_of_singleton.
    + intros o. destruct (decide (o = owner)) as [->|Hne'].
      * rewrite lookup_insert_eq. split; [eauto|]. intros _. apply elem_of_app. right. by left.
      * rewrite lookup_insert_ne, <-Hdom, Ho by done. set_solver.
    + intros o q. destruct (decide (o = owner)) as [->|Hne'].
      * rewrite lookup_insert_eq. intros [= <-]. done.
      * rewrite lookup_insert_ne by done. apply Hq.
    + unfold queue_of. cbn. rewrite Hqueue, lookup_insert_eq. cbn. split; [done|].
      split; [intros o Hne'; by rewrite lookup_insert_ne|]. done.
Qed.

Lemma lane_jobs_ext lane lane' order :
  (∀ o, o ∈ order → queue_of lane' o = queue_of lane o) →
  concat (map (queue_of lane') order) = concat (map (queue_of lane) order).
Proof.
  induction order as [|o order IH]; intros Hq; [done|]. cbn.
  rewrite Hq, IH; [done|intros; apply Hq; by right|by left].
Qed.

Lemma lane_push_jobs p lane job :
  lane_inv p lane → lane_jobs (PriorityLane_push lane job) ≡ₚ job :: lane_jobs lane.
Proof.
  intros [Hnd Hdom Hq]. unfold lane_jobs at 1. cbn [PriorityLane_push pl_order].
  destruct (pl_sessions lane !! sj_owner job) as [queue|] eqn:E.
  - assert (sj_owner job ∈ pl_order lane) as Hin by (apply Hdom; eauto).
    apply list_elem_of_split in Hin as (l1 & l2 & Ho). unfold lane_jobs. rewrite Ho in *.
    apply NoDup_app in Hnd as (_ & Hd1 & [Hd2 _]%NoDup_cons).
    rewrite !map_app, !concat_app. cbn [map concat]. rewrite lane_push_queue, decide_True by done.
    rewrite (lane_jobs_ext lane (PriorityLane_push lane job) l1), (lane_jobs_ext lane (PriorityLane_push lane job) l2);
      [solve_Permutation|..]; intros o Hx; rewrite lane_push_queue, decide_False, app_nil_r; try done.
    + by intros ->.
    + intros ->. apply (Hd1 _ Hx). by left.
  - rewrite map_app, concat_app. cbn [map concat]. rewrite lane_push_queue, decide_True by done.
    rewrite lane_jobs_ext with (lane := lane).
    + assert (queue_of lane (sj_owner job) = []) as -> by (unfold queue_of; by rewrite E).
      cbn. fold (lane_jobs lane). solve_Permutation.
    + intros o Ho. rewrite lane_push_queue, decide_False, app_nil_r; [done|].
      intros ->. apply Hdom in Ho as [? ?]. congruence.
Qed.

Lemma lane_pop_jobs p lane owner order job lane' :
  lane_inv p lane → pl_order lane = owner :: order → PriorityLane_pop lane = (Some job, lane') →
  lane_jobs lane ≡ₚ job :: lane_jobs lane'.
Proof.
  intros Hi Ho Hpop. destruct (lane_pop_spec p lane owner order Hi Ho) as
    (job' & lane'' & Hpop' & _ & Hq & Hother & Horder & _).
  rewrite Hpop in Hpop'. injection Hpop' as <- <-.
  destruct Hi as [Hnd _ _]. rewrite Ho in Hnd. apply NoDup_cons in Hnd as [Hn _].
  unfold lane_jobs. rewrite Ho, Horder. cbn [map concat]. rewrite Hq, map_app, concat_app.
  rewrite (lane_jobs_ext lane lane' order) by (intros o Hx; apply Hother; by intros ->).
  cbn. constructor. case_bool_decide as He; cbn.
  - by rewrite He, app_nil_r.
  - rewrite app_nil_r. apply Permutation_app_comm.
Qed.

Lemma lane_empty_jobs p lane : lane_inv p lane → PriorityLane_is_empty lane = true ↔ lane_jobs lane = [].
Proof.
  intros [Hnd Hdom Hq]. unfold PriorityLane_is_empty. rewrite bool_decide_eq_true. unfold lane_jobs.
  split; [by intros ->|]. destruct (pl_order lane) as [|o order] eqn:Ho; [done|]. cbn.
  intros [He _]%app_eq_nil. destruct (proj1 (Hdom o)) as [q Hqo]; [by left|].
  unfold queue_of in He. rewrite Hqo in He. cbn in He. by destruct (Hq _ _ Hqo).
Qed.

(** ** The arbiter

    Which lane is served depends only on the credits, the cursor and which
    lanes are empty.  This is the control part of [pop_loop] alone; its state
    space is finite, and its properties are decided by evaluation. *)

Definition arbiter_step (credits : list N) (cursor : nat) (empty : list bool) :
    option (option nat * list N * nat) :=
  let reset := forallb (λ credit, credit =? 0) credits in
  let credits := if reset then PRIORITY_WEIGHTS else credits in
  let cursor := if reset then 0%nat else cursor in
  let next := ((cursor + 1) mod length empty)%nat in
  credit ← credits !! cursor;
  e ← empty !! cursor;
  if (credit =? 0) || e then Some (None, <[cursor := 0]> credits, next)
  else
    credit ← checked_sub credit 1;
    Some (Some cursor, <[cursor := credit]> credits, if credit =? 0 then next else cursor).

Fixpoint arbiter (fuel : nat) (credits : list N) (cursor : nat) (empty : list bool) :
    option (nat * list N * nat) :=
  match fuel with
  | O => None
  | S fuel =>
      '(served, credits, cursor) ← arbiter_step credits cursor empty;
      match served with Some p => Some (p, credits, cursor) | None => arbiter fuel credits cursor empty end
  end.

(** The reachable credits and cursors: all spent, or lanes before the cursor
    spent and lanes after it untouched. *)
Definition control_states : list (list N * nat) :=
  (replicate 6 0, 0%nat) ::
  concat (map (λ cursor,
    map (λ credit, (replicate cursor 0 ++ N.of_nat credit :: drop (S cursor) PRIORITY_WEIGHTS, cursor))
      (seq 1 (N.to_nat (default 0 (PRIORITY_WEIGHTS !! cursor))))) (seq 0 6)).

(** An upper bound on the number of jobs of other lanes that are served
    before lane [p], if it stays non-empty. *)
Definition wait_bound (credits : list N) (p : nat) : N :=
  if forallb (λ credit, credit =? 0) credits then sum (take p PRIORITY_WEIGHTS)
  else if default 0 (credits !! p) =? 0 then sum credits + sum (take p PRIORITY_WEIGHTS)
  else sum (take p credits).

Fixpoint bool_lists (n : nat) : list (list bool) :=
  match n with
  | O => [[]]
  | S n => map (cons true) (bool_lists n) ++ map (cons false) (bool_lists n)
  end.

Lemma elem_of_bool_lists l : l ∈ bool_lists (length l).
Proof.
  induction l as [|b l IH]; [by left|]. cbn [length bool_lists]. apply elem_of_app.
  destruct b; [left|right]; by apply list_elem_of_fmap_2.
Qed.

Definition arbiter_ok (state : list N * nat) (empty : list bool) : bool :=
  forallb (λ b, b) empty ||
  match arbiter 12 state.1 state.2 empty with
  | None => false
  | Some (p, credits, cursor) =>
      bool_decide (empty !! p = Some false) && bool_decide ((credits, cursor) ∈ control_states) &&
      forallb (λ q, bool_decide (q = p) || bool_decide (empty !! q ≠ Some false) ||
                    (wait_bound credits q <? wait_bound state.1 q)) (seq 0 6)
  end.

Lemma arbiter_check :
  forallb (λ state, forallb (arbiter_ok state) (bool_lists 6)) control_states = true.
Proof. vm_compute. reflexivity. Qed.

Lemma wait_bound_check :
  forallb (λ state, forallb (λ p, wait_bound state.1 p <=? 23) (seq 0 6)) control_states = true.
Proof. vm_compute. reflexivity. Qed.

Lemma arbiter_spec credits cursor empty :
  (credits, cursor) ∈ control_states → length empty = 6%nat → Exists (λ e, e = false) empty →
  ∃ p credits' cursor', arbiter 12 credits cursor empty = Some (p, credits', cursor') ∧
    empty !! p = Some false ∧ (credits', cursor') ∈ control_states ∧
    ∀ q, empty !! q = Some false → q ≠ p → wait_bound credits' q < wait_bound credits q.
Proof.
  intros Hs Hl He. pose proof arbiter_check as Hc. rewrite forallb_forall in Hc.
  specialize (Hc _ (proj1 (list_elem_of_In _ _) Hs)). rewrite forallb_forall in Hc.
  pose proof (elem_of_bool_lists empty) as Hb. rewrite Hl in Hb.
  specialize (Hc _ (proj1 (list_elem_of_In _ _) Hb)). unfold arbiter_ok in Hc.
  apply orb_true_iff in Hc as [Hc|Hc].
  { rewrite forallb_forall in Hc. apply Exists_exists in He as (e & Hx & ->).
    apply list_elem_of_In in Hx. by specialize (Hc _ Hx). }
  cbn [fst snd] in Hc. destruct (arbiter 12 credits cursor empty) as [[[p credits'] cursor']|]; [|done].
  apply andb_true_iff in Hc as [[Hp Hs']%andb_true_iff Hw].
  apply bool_decide_eq_true in Hp, Hs'. exists p, credits', cursor'.
  split; [done|]. split; [done|]. split; [done|]. intros q Hq Hne. rewrite forallb_forall in Hw.
  assert (Hin : In q (seq 0 6)).
  { apply in_seq. apply lookup_lt_Some in Hq. lia. }
  specialize (Hw q Hin). rewrite bool_decide_eq_false_2 in Hw by done.
  rewrite bool_decide_eq_false_2 in Hw by tauto. by apply N.ltb_lt in Hw.
Qed.

Lemma wait_bound_le credits cursor p :
  (credits, cursor) ∈ control_states → (p < 6)%nat → wait_bound credits p <= 23.
Proof.
  intros Hs Hp. pose proof wait_bound_check as Hc. rewrite forallb_forall in Hc.
  specialize (Hc _ (proj1 (list_elem_of_In _ _) Hs)). rewrite forallb_forall in Hc.
  apply N.leb_le, Hc, in_seq. lia.
Qed.

(** ** The scheduler's invariant *)

Definition all_jobs (st : FairScheduler) : list ScheduledJob := concat (map lane_jobs (fs_lanes st)).

Record fair_inv (st : FairScheduler) : Prop := {
  fair_lanes : length (fs_lanes st) = 6%nat;
  fair_lane : ∀ p lane, fs_lanes st !! p = Some lane → lane_inv p lane;
  fair_control : (fs_credits st, fs_cursor st) ∈ control_states;
  fair_len : fs_len st = len (all_jobs st);
}.

Definition emptiness (st : FairScheduler) : list bool := map PriorityLane_is_empty (fs_lanes st).

(** The state after lane [p] has been served. *)
Definition served (st : FairScheduler) (p : nat) (lane : PriorityLane) (credits : list N) (cursor : nat) :
    FairScheduler :=
  {| fs_lanes := <[p := lane]> (fs_lanes st); fs_credits := credits; fs_cursor := cursor;
     fs_len := fs_len st - 1 |}.

Lemma pop_step_arbiter st :
  (∀ p lane, fs_lanes st !! p = Some lane → lane_inv p lane) → 1 <= fs_len st →
  match arbiter_step (fs_credits st) (fs_cursor st) (emptiness st) with
  | None => True
  | Some (None, credits, cursor) =>
      pop_step st = Some (None, {| fs_lanes := fs_lanes st; fs_credits := credits;
                                   fs_cursor := cursor; fs_len := fs_len st |})
  | Some (Some p, credits, cursor) =>
      ∃ lane job lane', fs_lanes st !! p = Some lane ∧ PriorityLane_pop lane = (Some job, lane') ∧
        PriorityLane_is_empty lane = false ∧
        pop_step st = Some (Some job, served st p lane' credits cursor)
  end.
Proof.
  intros Hlane Hlen. unfold arbiter_step, pop_step, emptiness. rewrite length_map.
  set (credits := if forallb _ _ then PRIORITY_WEIGHTS else _).
  set (cursor := if forallb _ _ then 0%nat else _).
  destruct (credits !! cursor) as [credit|]; [|done]. cbn [mbind option_bind].
  rewrite list_lookup_fmap. destruct (fs_lanes st !! cursor) as [lane|] eqn:Hl; [|done].
  cbn [fmap option_fmap option_map mbind option_bind].
  destruct (N.eqb_spec credit 0); cbn [orb]; [done|].
  destruct (PriorityLane_is_empty lane) eqn:He; [done|].
  rewrite checked_sub_ok by lia. cbn [mbind option_bind].
  destruct (pl_order lane) as [|owner order] eqn:Ho.
  { unfold PriorityLane_is_empty in He. by rewrite Ho in He. }
  destruct (lane_pop_spec cursor lane owner order (Hlane _ _ Hl) Ho) as (job & lane' & Hpop & _).
  exists lane, job, lane'. split; [done|]. split; [done|]. split; [done|]. rewrite Hpop.
  cbn [mbind option_bind fs_len]. rewrite checked_sub_ok by done. done.
Qed.

Lemma pop_loop_arbiter fuel st p credits cursor :
  (∀ p lane, fs_lanes st !! p = Some lane → lane_inv p lane) → 1 <= fs_len st →
  arbiter fuel (fs_credits st) (fs_cursor st) (emptiness st) = Some (p, credits, cursor) →
  ∃ lane job lane', fs_lanes st !! p = Some lane ∧ PriorityLane_pop lane = (Some job, lane') ∧
    PriorityLane_is_empty lane = false ∧
    pop_loop fuel st = Some (job, served st p lane' credits cursor).
Proof.
  intros Hlane Hlen. revert st Hlane Hlen; induction fuel as [|fuel IH]; intros st Hlane Hlen; [done|].
  cbn [arbiter pop_loop]. pose proof (pop_step_arbiter st Hlane Hlen) as Hs.
  destruct (arbiter_step _ _ _) as [[[[q|] credits1] cursor1]|]; [..|done]; cbn [mbind option_bind].
  - intros [= <- <- <-]. destruct Hs as (lane & job & lane' & ? & ? & ? & ->).
    by exists lane, job, lane'.
  - intros Ha. rewrite Hs. cbn [mbind option_bind].
    apply (IH {| fs_lanes := fs_lanes st; fs_credits := credits1; fs_cursor := cursor1;
                 fs_len := fs_len st |}); done.
Qed.

Lemma all_jobs_update lanes p lane lane' jobs :
  lanes !! p = Some lane → lane_jobs lane ≡ₚ jobs ++ lane_jobs lane' →
  concat (map lane_jobs lanes) ≡ₚ jobs ++ concat (map lane_jobs (<[p := lane']> lanes)).
Proof.
  revert p; induction lanes as [|l lanes IH]; intros [|p] Hp Hj; try done.
  - injection Hp as ->. cbn. rewrite Hj. solve_Permutation.
  - change (<[S p := lane']> (l :: lanes)) with (l :: <[p := lane']> lanes). cbn.
    rewrite (IH p) by done. solve_Permutation.
Qed.

Lemma all_jobs_nonempty st :
  fair_inv st → fs_len st ≠ 0 → Exists (λ e, e = false) (emptiness st).
Proof.
  intros [_ Hlane _ Hlen] Hne. unfold emptiness. apply dec_stable. intros Hall.
  apply Hne. rewrite Hlen. unfold all_jobs. apply not_Exists_Forall in Hall; [|apply _].
  assert (concat (map lane_jobs (fs_lanes st)) = []) as ->; [|done].
  apply concat_nil_Forall, Forall_map, Forall_lookup.
  intros p lane Hp. apply (lane_empty_jobs p); [by apply Hlane|].
  rewrite Forall_lookup in Hall. specialize (Hall p (PriorityLane_is_empty lane)).
  rewrite list_lookup_fmap, Hp in Hall. specialize (Hall eq_refl). cbn in Hall.
  by destruct (PriorityLane_is_empty lane).
Qed.

(** The queue of one session in one lane. *)
Definition queue (st : FairScheduler) (p : nat) (owner : string) : list ScheduledJob :=
  default [] (lane ← fs_lanes st !! p; Some (queue_of lane owner)).

Definition order (st : FairScheduler) (p : nat) : list string :=
  default [] (pl_order <$> fs_lanes st !! p).

(** What serving session [owner] of lane [p] does. *)
Record pops (st st' : FairScheduler) (p : nat) (owner : string) (job : ScheduledJob) : Prop := {
  pops_priority : priority_index (sj_priority job) = p;
  pops_owner : sj_owner job = owner;
  pops_head : queue st p owner = job :: queue st' p owner;
  pops_others : ∀ p' owner', (p', owner') ≠ (p, owner) → queue st' p' owner' = queue st p' owner';
  pops_first : order st p = owner :: tail (order st p);
  pops_order : order st' p = tail (order st p) ++ (if bool_decide (queue st' p owner = []) then [] else [owner]);
  pops_other_orders : ∀ p', p' ≠ p → order st' p' = order st p';
  pops_wait : ∀ p', order st p' ≠ [] → p' ≠ p →
    wait_bound (fs_credits st') p' < wait_bound (fs_credits st) p';
}.

Lemma pop_spec st :
  fair_inv st → fs_len st ≠ 0 →
  ∃ job st' p owner, FairScheduler_pop st = Some (Some job, st') ∧ fair_inv st' ∧
    fs_len st' + 1 = fs_len st ∧ all_jobs st ≡ₚ job :: all_jobs st' ∧ pops st st' p owner job.
Proof.
  intros Hi Hne. pose proof (all_jobs_nonempty st Hi Hne) as Hex. destruct Hi as [Hl Hlane Hctl Hlen].
  destruct (arbiter_spec _ _ (emptiness st) Hctl) as (p & credits & cursor & Ha & Hep & Hctl' & Hw);
    [unfold emptiness; by rewrite length_map|done|].
  destruct (pop_loop_arbiter _ _ _ _ _ Hlane ltac:(lia) Ha) as (lane & job & lane' & Hp & Hpop & He & Hloop).
  destruct (pl_order lane) as [|owner ord] eqn:Ho.
  { unfold PriorityLane_is_empty in He. by rewrite Ho in He. }
  destruct (lane_pop_spec p lane owner ord (Hlane _ _ Hp) Ho) as
    (job' & lane'' & Hpop' & Hi' & Hq & Hother & Hord & Hown & Hprio).
  rewrite Hpop in Hpop'. injection Hpop' as <- <-.
  pose proof (lane_pop_jobs p lane owner ord job lane' (Hlane _ _ Hp) Ho Hpop) as Hjobs.
  pose proof (all_jobs_update _ _ _ _ [job] Hp Hjobs) as Hall. cbn [app] in Hall.
  assert (Hlt : (p < length (fs_lanes st))%nat) by by eapply lookup_lt_Some.
  exists job, (served st p lane' credits cursor), p, owner.
  unfold FairScheduler_pop. rewrite (proj2 (N.eqb_neq _ _) Hne), Hloop. cbn [mbind option_bind].
  assert (Hsame : ∀ p', p' ≠ p → fs_lanes (served st p lane' credits cursor) !! p' = fs_lanes st !! p').
  { intros p' Hp'. cbn. by rewrite list_lookup_insert_ne. }
  assert (Hnew : fs_lanes (served st p lane' credits cursor) !! p = Some lane').
  { cbn. by rewrite list_lookup_insert_eq. }
  split; [done|]. split; [split|split; [|split; [exact Hall|split]]].
  - cbn. by rewrite length_insert.
  - intros p' l Hp'. destruct (decide (p' = p)) as [->|Hne'].
    + rewrite Hnew in Hp'. by injection Hp' as <-.
    + rewrite Hsame in Hp' by done. by apply Hlane.
  - done.
  - cbn [served fs_len]. rewrite Hlen. unfold all_jobs, len. rewrite Hall. cbn [length served fs_lanes]. lia.
  - cbn. lia.
  - done.
  - done.
  - unfold queue. rewrite Hnew, Hp. done.
  - intros p' o' Hpo. unfold queue. destruct (decide (p' = p)) as [->|Hne']; [|by rewrite Hsame].
    rewrite Hnew, Hp. cbn. apply Hother. congruence.
  - unfold order. by rewrite Hp; cbn; rewrite Ho.
  - unfold order, queue. rewrite Hnew, Hp. cbn. by rewrite Ho, Hord.
  - intros p' Hne'. unfold order. by rewrite Hsame.
  - intros p' Ho' Hne'. cbn [served fs_credits]. apply Hw; [|done]. unfold order in Ho'.
    unfold emptiness. rewrite list_lookup_fmap. destruct (fs_lanes st !! p') as [l|]; [|done]. cbn in *.
    f_equal. unfold PriorityLane_is_empty. by apply bool_decide_eq_false.
Qed.

Lemma default_inv : fair_inv FairScheduler_default.
Proof.
  split; [done| |by apply (bool_decide_unpack _); vm_compute|done]. intros p lane Hp.
  apply (lookup_replicate_1 6 _ lane p) in Hp as [-> _]. apply lane_default_inv.
Qed.

Definition belongs (p : nat) (owner : string) (job : ScheduledJob) : Prop :=
  priority_index (sj_priority job) = p ∧ sj_owner job = owner.

Lemma priority_index_lt priority : (priority_index priority < 6)%nat.
Proof. destruct priority; cbn; lia. Qed.

Lemma push_spec st job :
  fair_inv st → fs_len st < u64_MAX →
  ∃ st', FairScheduler_push st job = Some st' ∧ fair_inv st' ∧ fs_len st' = fs_len st + 1 ∧
    all_jobs st' ≡ₚ job :: all_jobs st ∧ fs_credits st' = fs_credits st ∧
    (∀ p owner, queue st' p owner = queue st p owner ++
      (if decide (belongs p owner job) then [job] else [])) ∧
    (∀ p, order st p `prefix_of` order st' p).
Proof.
  intros [Hl Hlane Hctl Hlen] Hmax. unfold FairScheduler_push. set (p := priority_index _).
  pose proof (priority_index_lt (sj_priority job)) as Hp. fold p in Hp. rewrite <-Hl in Hp.
  destruct (lookup_lt_is_Some_2 _ _ Hp) as [lane Hlp]. rewrite Hlp. cbn [mbind option_bind].
  unfold saturating_add. rewrite N.min_l by lia.
  eexists. split; [done|]. set (st' := Build_FairScheduler _ _ _ _).
  assert (Hnew : fs_lanes st' !! p = Some (PriorityLane_push lane job)).
  { cbn. by rewrite list_lookup_insert_eq. }
  assert (Hsame : ∀ p', p' ≠ p → fs_lanes st' !! p' = fs_lanes st !! p').
  { intros p' Hne. cbn. by rewrite list_lookup_insert_ne. }
  assert (Hjobs : all_jobs st' ≡ₚ job :: all_jobs st).
  { pose proof (lane_push_jobs p lane job (Hlane _ _ Hlp)) as Hj.
    pose proof (all_jobs_update (fs_lanes st') p _ lane [job] Hnew Hj) as Hall.
    assert (<[p := lane]> (fs_lanes st') = fs_lanes st) as E.
    { cbn. by rewrite list_insert_insert_eq, list_insert_id. }
    by rewrite E in Hall. }
  split; [split; [cbn; by rewrite length_insert| |done|]|split; [done|split; [done|split; [done|split]]]].
  - intros p' l Hp'. destruct (decide (p' = p)) as [->|Hne].
    + rewrite Hnew in Hp'. injection Hp' as <-. apply lane_push_inv; [by apply Hlane|done].
    + rewrite Hsame in Hp' by done. by apply Hlane.
  - cbn [st' fs_len]. rewrite Hlen. unfold len. rewrite Hjobs. cbn [length]. lia.
  - intros p' owner. unfold queue, belongs. fold p. destruct (decide (p' = p)) as [->|Hne].
    + rewrite Hnew, Hlp. cbn. rewrite lane_push_queue. f_equal.
      destruct (decide (owner = sj_owner job)), (decide _); try done; naive_solver.
    + rewrite Hsame by done. rewrite decide_False by naive_solver. by rewrite app_nil_r.
  - intros p'. unfold order. destruct (decide (p' = p)) as [->|Hne]; [|by rewrite Hsame].
    rewrite Hnew, Hlp. cbn. destruct (pl_sessions lane !! _); [done|]. by apply prefix_app_r.
Qed.

(** ** Runs of pushes and pops *)

Inductive op := Push (job : ScheduledJob) | Pop.

(** The jobs that the pops return, in order. *)
Fixpoint fair_run (st : FairScheduler) (ops : list op) : option (list ScheduledJob * FairScheduler) :=
  match ops with
  | [] => Some ([], st)
  | Push job :: ops => st ← FairScheduler_push st job; fair_run st ops
  | Pop :: ops =>
      '(job, st) ← FairScheduler_pop st;
      '(jobs, st) ← fair_run st ops;
      Some (option_list job ++ jobs, st)
  end.

Definition pushed (ops : list op) : list ScheduledJob :=
  omap (λ o, match o with Push job => Some job | Pop => None end) ops.
Definition pop_count (ops : list op) : N :=
  len (omap (λ o, match o with Push _ => None | Pop => Some tt end) ops).

Lemma pop_empty st : fs_len st = 0 → FairScheduler_pop st = Some (None, st).
Proof. intros H. unfold FairScheduler_pop. by rewrite H. Qed.

Lemma fair_run_spec st ops :
  fair_inv st → fs_len st + len (pushed ops) <= u64_MAX →
  ∃ jobs st', fair_run st ops = Some (jobs, st') ∧ fair_inv st' ∧
    jobs ++ all_jobs st' ≡ₚ all_jobs st ++ pushed ops ∧
    ∀ p owner, filter (belongs p owner) jobs ++ queue st' p owner =
      queue st p owner ++ filter (belongs p owner) (pushed ops).
Proof.
  revert st; induction ops as [|[job|] ops IH]; intros st Hi Hlen; cbn [fair_run pushed omap list_omap] in *.
  - exists [], st. split; [done|]. split; [done|]. split; [by rewrite app_nil_r|].
    intros p owner. cbn. by rewrite app_nil_r.
  - fold (pushed ops) in *. rewrite len_cons in Hlen.
    destruct (push_spec st job Hi) as (st1 & -> & Hi1 & Hl & Hall & _ & Hq & _); [lia|].
    cbn [mbind option_bind]. destruct (IH st1 Hi1) as (jobs & st' & -> & Hi' & Hperm & Hfifo); [lia|].
    exists jobs, st'. split; [done|]. split; [done|]. split; [rewrite Hperm, Hall; solve_Permutation|].
    intros p owner. rewrite Hfifo, Hq, filter_cons, <-app_assoc. f_equal. by destruct (decide _).
  - fold (pushed ops) in *. destruct (decide (fs_len st = 0)) as [H0|Hne].
    { rewrite pop_empty by done. cbn [mbind option_bind].
      destruct (IH st Hi Hlen) as (jobs & st' & -> & ?). by exists jobs, st'. }
    destruct (pop_spec st Hi Hne) as (job & st1 & p1 & o1 & -> & Hi1 & Hl & Hall & Hpops).
    cbn [mbind option_bind]. destruct (IH st1 Hi1) as (jobs & st' & -> & Hi' & Hperm & Hfifo); [lia|].
    exists (job :: jobs), st'. split; [done|]. split; [done|]. split; [cbn; by rewrite Hperm, Hall|].
    intros p owner. rewrite filter_cons. destruct (decide (belongs p owner job)) as [Hb|Hb].
    + destruct Hb as [Hp Ho]. rewrite (pops_priority _ _ _ _ _ Hpops) in Hp.
      rewrite (pops_owner _ _ _ _ _ Hpops) in Ho. subst.
      rewrite (pops_head _ _ _ _ _ Hpops). cbn. by rewrite Hfifo.
    + rewrite Hfifo, (pops_others _ _ _ _ _ Hpops); [done|]. intros [= -> ->]. apply Hb.
      split; [by apply Hpops|by apply Hpops].
Qed.

Lemma order_nonempty st p : fair_inv st → order st p ≠ [] → fs_len st ≠ 0.
Proof.
  intros [_ Hlane _ Hlen] Ho H0. rewrite H0 in Hlen. unfold order in Ho.
  destruct (fs_lanes st !! p) as [lane|] eqn:Hp; [|done]. cbn in Ho.
  assert (all_jobs st = []) as Hj by (destruct (all_jobs st); [done|rewrite len_cons in Hlen; lia]).
  apply concat_nil_Forall in Hj. rewrite Forall_map, Forall_lookup in Hj.
  specialize (Hj p lane Hp). apply (lane_empty_jobs p) in Hj; [|by apply Hlane].
  unfold PriorityLane_is_empty in Hj. by apply bool_decide_eq_true in Hj.
Qed.

Lemma fair_run_progress st ops p k owner :
  fair_inv st → fs_len st + len (pushed ops) <= u64_MAX → order st p !! k = Some owner → (p < 6)%nat →
  24 * N.of_nat k + wait_bound (fs_credits st) p < pop_count ops →
  ∃ jobs st', fair_run st ops = Some (jobs, st') ∧ Exists (belongs p owner) jobs.
Proof.
  intros Hi Hlen Hk Hp6. revert st k Hi Hlen Hk.
  induction ops as [|[job|] ops IH]; intros st k Hi Hlen Hk Hw; cbn [fair_run pushed omap list_omap] in *.
  - change (pop_count []) with 0 in Hw. lia.
  - fold (pushed ops) in *. rewrite len_cons in Hlen.
    destruct (push_spec st job Hi) as (st1 & -> & Hi1 & Hl & _ & Hc & _ & Hpre); [lia|].
    cbn [mbind option_bind]. apply (IH st1 k Hi1); [lia| |by rewrite Hc].
    destruct (Hpre p) as [l ->]. by apply lookup_app_l_Some.
  - fold (pushed ops) in *. change (pop_count (Pop :: ops)) with (len (tt :: omap (λ o,
      match o with Push _ => None | Pop => Some tt end) ops)) in Hw.
    rewrite len_cons in Hw. fold (pop_count ops) in Hw.
    assert (Hone : order st p ≠ []) by (intros E; by rewrite E in Hk).
    pose proof (order_nonempty st p Hi Hone) as Hne.
    destruct (pop_spec st Hi Hne) as (job & st1 & p1 & o1 & -> & Hi1 & Hl & _ & Hpops).
    cbn [mbind option_bind].
    destruct (decide (p1 = p)) as [->|Hp1]; [destruct (decide (o1 = owner)) as [->|Ho1]|].
    + destruct (fair_run_spec st1 ops Hi1) as (jobs & st' & -> & _); [lia|].
      exists (job :: jobs), st'. split; [done|]. left. by destruct Hpops.
    + pose proof (pops_first _ _ _ _ _ Hpops) as Hf. rewrite Hf in Hk.
      destruct k as [|k]; [by injection Hk as ->|].
      destruct (IH st1 k Hi1) as (jobs & st' & -> & Hex); [lia| | |].
      * rewrite (pops_order _ _ _ _ _ Hpops). by apply lookup_app_l_Some.
      * pose proof (wait_bound_le _ _ p (fair_control _ Hi1) Hp6). lia.
      * exists (job :: jobs), st'. split; [done|by right].
    + destruct (IH st1 k Hi1) as (jobs & st' & -> & Hex); [lia| | |].
      * by rewrite (pops_other_orders _ _ _ _ _ Hpops).
      * pose proof (pops_wait _ _ _ _ _ Hpops p Hone ltac:(done)). lia.
      * exists (job :: jobs), st'. split; [done|by right].
Qed.

Lemma drain_spec st fuel jobs :
  fair_inv st → (N.to_nat (fs_len st) <= fuel)%nat →
  ∃ jobs' st', drain_loop fuel st jobs = Some (jobs ++ jobs', st') ∧ fair_inv st' ∧
    fs_len st' = 0 ∧ jobs' ≡ₚ all_jobs st.
Proof.
  revert st jobs; induction fuel as [|fuel IH]; intros st jobs Hi Hf; cbn [drain_loop].
  all: destruct (decide (fs_len st = 0)) as [H0|Hne].
  1, 3: rewrite pop_empty by done; exists [], st; rewrite app_nil_r; split; [done|]; split; [done|];
    split; [done|]; pose proof (fair_len _ Hi) as Hl; rewrite H0 in Hl;
    destruct (all_jobs st); [done|rewrite len_cons in Hl; lia].
  { lia. }
  destruct (pop_spec st Hi Hne) as (job & st1 & p & o & -> & Hi1 & Hl & Hall & _).
  cbn [mbind option_bind]. destruct (IH st1 (jobs ++ [job]) Hi1) as (jobs' & st' & -> & ? & ? & Hp); [lia|].
  exists (job :: jobs'), st'. rewrite <-app_assoc. split; [done|]. split; [done|]. split; [done|].
  by rewrite Hall, Hp.
Qed.

(** ** Properties *)

(** The queue neither loses, duplicates nor invents jobs, and is
    first-in first-out per session and priority: for any sequence of pushes
    and pops no operation panics or loops, the jobs popped and the jobs still
    queued are exactly the jobs pushed, and for each session and priority they
    are, in this order, the jobs pushed for it.  A pop answers [None] only
    when nothing is queued. *)
Theorem fair_queue_fifo (ops : list op) (Hlen : len (pushed ops) <= u64_MAX) :
  ∃ jobs st, fair_run FairScheduler_default ops = Some (jobs, st) ∧
    jobs ++ all_jobs st ≡ₚ pushed ops ∧
    (∀ p owner, filter (belongs p owner) jobs ++ queue st p owner = filter (belongs p owner) (pushed ops)) ∧
    (FairScheduler_pop st = Some (None, st) ∧ all_jobs st = [] ∨
     ∃ job st', FairScheduler_pop st = Some (Some job, st') ∧ all_jobs st ≡ₚ job :: all_jobs st').
Proof.
  destruct (fair_run_spec _ ops default_inv) as (jobs & st & Hrun & Hi & Hperm & Hfifo); [done|].
  exists jobs, st. split; [done|]. split; [done|]. split.
  - intros p owner. rewrite Hfifo. unfold queue. cbn.
    by do 6 (destruct p as [|p]; [done|]).
  - destruct (decide (fs_len st = 0)) as [H0|Hne].
    + left. split; [by apply pop_empty|]. pose proof (fair_len _ Hi) as Hl. rewrite H0 in Hl.
      destruct (all_jobs st); [done|rewrite len_cons in Hl; lia].
    + right. destruct (pop_spec st Hi Hne) as (job & st' & _ & _ & ? & _ & _ & ? & _).
      by exists job, st'.
Qed.

(** C20: no session starves: once [k] sessions are ahead of it in its lane's
    rotation, a session is served within [24 * (k + 1)] pops, whatever other
    jobs are pushed in the meantime. *)
Theorem fair_queue_no_starvation (before ops : list op) (jobs0 : list ScheduledJob)
    (st : FairScheduler) (p k : nat) (owner : string)
    (Hlen : len (pushed before) + len (pushed ops) <= u64_MAX)
    (Hrun : fair_run FairScheduler_default before = Some (jobs0, st))
    (Hk : order st p !! k = Some owner)
    (Hpops : 24 * (N.of_nat k + 1) <= pop_count ops) :
  ∃ jobs st', fair_run st ops = Some (jobs, st') ∧ Exists (belongs p owner) jobs.
Proof.
  destruct (fair_run_spec _ before default_inv) as (jobs' & st' & Hrun' & Hi & Hperm & _);
    [change (fs_len FairScheduler_default) with 0; lia|].
  rewrite Hrun in Hrun'. injection Hrun' as <- <-.
  assert (Hp : (p < 6)%nat).
  { unfold order in Hk. destruct (fs_lanes st !! p) eqn:E; [|done].
    apply lookup_lt_Some in E. by rewrite (fair_lanes _ Hi) in E. }
  apply fair_run_progress with k; try done.
  - rewrite (fair_len _ Hi). assert (len (all_jobs st) <= len (pushed before)); [|lia].
    unfold len. apply Permutation_length in Hperm. rewrite length_app in Hperm. cbn [app] in Hperm.
    change (all_jobs FairScheduler_default) with (@nil ScheduledJob) in Hperm. simpl in Hperm. lia.
  - pose proof (wait_bound_le _ _ p (fair_control _ Hi) Hp). lia.
Qed.

(** Draining returns every queued job once and leaves the queue empty. *)
Theorem fair_queue_drain (ops : list op) (jobs : list ScheduledJob) (st : FairScheduler)
    (Hlen : len (pushed ops) <= u64_MAX) (Hrun : fair_run FairScheduler_default ops = Some (jobs, st)) :
  ∃ drained st', FairScheduler_drain st = Some (drained, st') ∧
    jobs ++ drained ≡ₚ pushed ops ∧ FairScheduler_is_empty st' = true.
Proof.
  destruct (fair_run_spec _ ops default_inv) as (jobs' & st' & Hrun' & Hi & Hperm & _); [done|].
  rewrite Hrun in Hrun'. injection Hrun' as <- <-.
  destruct (drain_spec st (N.to_nat (fs_len st)) [] Hi) as (drained & st' & Hd & Hi' & H0 & Hp); [done|].
  exists drained, st'. split; [done|]. split; [by rewrite Hp|]. unfold FairScheduler_is_empty. by rewrite H0.
Qed.

Definition example_job (owner id : string) (priority : JobPriority) : ScheduledJob :=
  {| sj_owner := owner; sj_job_id := id; sj_priority := priority; sj_deadline_unix_ms := None |}.
(** Two interactive sessions and a benchmark. *)
Definition example_pushes : list op :=
  [Push (example_job "a" "1" InteractiveRead); Push (example_job "a" "2" InteractiveRead);
   Push (example_job "b" "3" InteractiveRead); Push (example_job "c" "4" Benchmark)].

Lemma fair_queue_fifo_witness :
  len (pushed (example_pushes ++ [Pop; Pop; Pop; Pop])) <= u64_MAX ∧
  ∃ jobs st, fair_run FairScheduler_default (example_pushes ++ [Pop; Pop; Pop; Pop]) = Some (jobs, st) ∧
    map sj_job_id jobs = ["1"; "3"; "2"; "4"]%string ∧
    jobs ++ all_jobs st ≡ₚ pushed (example_pushes ++ [Pop; Pop; Pop; Pop]).
Proof.
  assert (Hlen : len (pushed (example_pushes ++ [Pop; Pop; Pop; Pop])) <= u64_MAX) by by vm_compute.
  split; [exact Hlen|].
  destruct (fair_queue_fifo (example_pushes ++ [Pop; Pop; Pop; Pop]) Hlen) as (jobs & st & Hrun & Hp & _).
  exists jobs, st. split; [exact Hrun|]. split; [|exact Hp].
  vm_compute in Hrun. injection Hrun as <- <-. vm_compute. reflexivity.
Defined.

Lemma fair_queue_no_starvation_witness :
  ∃ st, fair_run FairScheduler_default example_pushes = Some ([], st) ∧
    order st 5 !! 0%nat = Some "c"%string ∧
    ∃ jobs st', fair_run st (replicate 24 Pop) = Some (jobs, st') ∧ Exists (belongs 5 "c") jobs.
Proof.
  evar (st : FairScheduler).
  assert (Hrun : fair_run FairScheduler_default example_pushes = Some ([], st)).
  { unfold st. vm_compute. reflexivity. }
  assert (Hk : order st 5 !! 0%nat = Some "c"%string) by (vm_compute; reflexivity).
  exists st. split; [exact Hrun|]. split; [exact Hk|].
  apply (fair_queue_no_starvation example_pushes (replicate 24 Pop) [] st 5 0 "c"); try assumption;
    by vm_compute.
Defined.

Lemma fair_queue_drain_witness :
  ∃ st, fair_run FairScheduler_default example_pushes = Some ([], st) ∧
    ∃ drained st', FairScheduler_drain st = Some (drained, st') ∧
      [] ++ drained ≡ₚ pushed example_pushes ∧ FairScheduler_is_empty st' = true.
Proof.
  evar (st : FairScheduler).
  assert (Hrun : fair_run FairScheduler_default example_pushes = Some ([], st)).
  { unfold st. vm_compute. reflexivity. }
  exists st. split; [exact Hrun|].
  apply (fair_queue_drain example_pushes [] st); [by vm_compute|exact Hrun].
Defined.
