(* ===== verification/Paths.v ===== *)
(** * Archive paths ([crates/pithos-format/src/lib.rs],
    [crates/pithos-io/src/lib.rs])

    Stored paths and link targets, their conversion from and to paths of the
    operating system, and the checks that keep them inside the extraction
    root.  The model is the Unix build: an [OsStr] is a byte string.  The
    [std::path] and UTF-8 functions of the standard library that the code
    uses are defined first. *)

From S2P Require Import Prelude Core Bytes.

(** ** [std::path] on Unix *)

Abbreviation OsString := (list byte).

Definition slash : byte := Byte.x2f.
Definition backslash : byte := Byte.x5c.
Definition nul : byte := Byte.x00.
Definition dot : OsString := [Byte.x2e].
Definition dot_dot : OsString := [Byte.x2e; Byte.x2e].

#[export] Instance byte_eq_dec : EqDecision byte := Byte.byte_eq_dec.

Inductive Component :=
  | RootDir
  | CurDir
  | ParentDir
  | Normal (name : OsString).

(** The pieces between separators; never an empty list. *)
Fixpoint split_slash (path : list byte) : list OsString :=
  match path with
  | [] => [[]]
  | b :: path =>
      let parts := split_slash path in
      if decide (b = slash) then [] :: parts
      else match parts with p :: ps => (b :: p) :: ps | [] => [[b]] end
  end.

Definition parse_part (part : OsString) : option Component :=
  if decide (part = []) then None
  else if decide (part = dot) then None
  else if decide (part = dot_dot) then Some ParentDir
  else Some (Normal part).

(** [Path::components]: repeated separators and inner [.] are skipped, a
    leading [.] of a relative path is [CurDir]. *)
Definition path_components (path : list byte) : list Component :=
  let parts := split_slash path in
  if decide (head path = Some slash) then RootDir :: omap parse_part parts
  else match parts with
       | first :: rest =>
           (if decide (first = dot) then [CurDir] else option_list (parse_part first)) ++
           omap parse_part rest
       | [] => []
       end.

(** [PathBuf::push]. *)
Definition path_push (path name : list byte) : list byte :=
  if decide (head name = Some slash) then name
  else if decide (path = [] ∨ last path = Some slash) then path ++ name
  else path ++ slash :: name.

(** Equality of paths compares their components. *)
#[export] Instance Component_eq_dec : EqDecision Component.
Proof. solve_decision. Defined.
Definition PathBuf_eqb (p q : list byte) : bool := bool_decide (path_components p = path_components q).

(** [Path::starts_with]. *)
Definition Path_starts_with (path base : list byte) : bool :=
  bool_decide (path_components base `prefix_of` path_components path).

(** [Path::parent] and [Path::file_name]; a path is rebuilt from its
    components, which gives an equal path. *)
Definition component_name (c : Component) : list byte :=
  match c with RootDir => [slash] | CurDir => dot | ParentDir => dot_dot | Normal name => name end.
Definition path_of_components (cs : list Component) : list byte := fold_left path_push (map component_name cs) [].
Definition Path_parent (path : list byte) : option (list byte) :=
  match last (path_components path) with
  | None | Some RootDir => None
  | Some _ => Some (path_of_components (removelast (path_components path)))
  end.
Definition Path_file_name (path : list byte) : option (list byte) :=
  match last (path_components path) with Some (Normal name) => Some name | _ => None end.
(** [path.parent().unwrap_or_else(|| Path::new("."))]. *)
Definition parent_or_dot (path : list byte) : list byte := default dot (Path_parent path).

(** [std::str::from_utf8] succeeds (the Unicode table of well-formed byte
    sequences). *)
Definition between (lo hi : N) (b : byte) : bool := (lo <=? byte_val b) && (byte_val b <=? hi).
Definition continuation : byte → bool := between 0x80 0xBF.

Fixpoint utf8_valid (l : list byte) : bool :=
  match l with
  | [] => true
  | b0 :: l =>
      if byte_val b0 <? 0x80 then utf8_valid l
      else match l with
      | [] => false
      | b1 :: l =>
          if between 0xC2 0xDF b0 then continuation b1 && utf8_valid l
          else match l with
          | [] => false
          | b2 :: l =>
              if between 0xE0 0xEF b0 then
                (if byte_val b0 =? 0xE0 then between 0xA0 0xBF b1
                 else if byte_val b0 =? 0xED then between 0x80 0x9F b1 else continuation b1) &&
                continuation b2 && utf8_valid l
              else match l with
              | [] => false
              | b3 :: l =>
                  between 0xF0 0xF4 b0 &&
                  (if byte_val b0 =? 0xF0 then between 0x90 0xBF b1
                   else if byte_val b0 =? 0xF4 then between 0x80 0x8F b1 else continuation b1) &&
                  continuation b2 && continuation b3 && utf8_valid l
              end
          end
      end
  end.

(** ** Stored paths *)

Inductive PathEncoding := Utf8 | UnixBytes | WindowsUtf16Le.

#[export] Instance PathEncoding_eq_dec : EqDecision PathEncoding.
Proof. solve_decision. Defined.

(** [encoding as u8]. *)
Definition PathEncoding_as_u8 (e : PathEncoding) : byte :=
  match e with Utf8 => Byte.x00 | UnixBytes => Byte.x01 | WindowsUtf16Le => Byte.x02 end.

Record PathComponent := { pc_encoding : PathEncoding; pc_bytes : list byte }.

Definition PathComponent_from_os_str (value : OsString) : PathComponent :=
  if utf8_valid value then {| pc_encoding := Utf8; pc_bytes := value |}
  else {| pc_encoding := UnixBytes; pc_bytes := value |}.

Definition validate_normal_component (value : OsString) : Result unit :=
  match path_components value with
  | [Normal _] => Ok tt
  | _ => Err UnsafePath
  end.

Definition contains (b : byte) (l : list byte) : bool := bool_decide (b ∈ l).

Definition PathComponent_to_os_string (c : PathComponent) : Result OsString :=
  let text := pc_bytes c in
  value ←
    match pc_encoding c with
    | Utf8 =>
        if negb (utf8_valid text) then Err InvalidPathEncoding else
        if bool_decide (text = []) || (contains slash text || contains backslash text) ||
           bool_decide (text = dot) || bool_decide (text = dot_dot)
        then Err UnsafePath else Ok text
    | UnixBytes =>
        if bool_decide (text = []) || contains slash text || contains nul text
        then Err UnsafePath else Ok text
    | WindowsUtf16Le => Err InvalidPathEncoding
    end;
  validate_normal_component value;;
  Ok value.

Record ArchivePath := { ap_components : list PathComponent }.

(** One component of [ArchivePath::from_relative]. *)
Definition from_relative_step (components : list PathComponent) (component : Component) :
    Result (list PathComponent) :=
  match component with
  | Normal value => Ok (components ++ [PathComponent_from_os_str value])
  | CurDir => Ok components
  | ParentDir | RootDir => Err UnsafePath
  end.

Definition ArchivePath_from_relative (path : list byte) : Result ArchivePath :=
  components ← try_fold from_relative_step [] (path_components path);
  if bool_decide (components = []) then Err UnsafePath else Ok {| ap_components := components |}.

Definition ArchivePath_to_path_buf (p : ArchivePath) : Result (list byte) :=
  if bool_decide (ap_components p = []) then Err UnsafePath else
  try_fold (λ path component,
    value ← PathComponent_to_os_string component; Ok (path_push path value)) [] (ap_components p).

Definition ArchivePath_sort_key (p : ArchivePath) : list byte :=
  concat (map (λ c,
    PathEncoding_as_u8 (pc_encoding c) :: u64_le (len (pc_bytes c)) ++ pc_bytes c) (ap_components p)).

Definition ArchivePath_encoded_len (p : ArchivePath) : N :=
  sum (map (λ c, len (pc_bytes c)) (ap_components p)).

Inductive LinkComponent := LinkParent | LinkNormal (c : PathComponent).

Record LinkTarget := { lt_components : list LinkComponent }.

Definition link_from_relative_step (components : list LinkComponent) (component : Component) :
    Result (list LinkComponent) :=
  match component with
  | Normal value => Ok (components ++ [LinkNormal (PathComponent_from_os_str value)])
  | ParentDir => Ok (components ++ [LinkParent])
  | CurDir => Ok components
  | RootDir => Err UnsafeSymlink
  end.

Definition LinkTarget_from_relative (path : list byte) : Result LinkTarget :=
  components ← try_fold link_from_relative_step [] (path_components path);
  if bool_decide (components = []) then Err UnsafeSymlink else Ok {| lt_components := components |}.

Definition LinkTarget_to_path_buf (t : LinkTarget) : Result (list byte) :=
  try_fold (λ path component,
    match component with
    | LinkParent => Ok (path_push path dot_dot)
    | LinkNormal value => value ← PathComponent_to_os_string value; Ok (path_push path value)
    end) [] (lt_components t).

(** The loop over the target's components, from [depth] directories below
    the root. *)
Fixpoint resolves_loop (components : list LinkComponent) (depth : N) : bool :=
  match components with
  | [] => true
  | LinkParent :: components => if depth =? 0 then false else resolves_loop components (depth - 1)
  | LinkNormal _ :: components => resolves_loop components (depth + 1)
  end.

Definition LinkTarget_resolves_within (t : LinkTarget) (link_path : ArchivePath) : bool :=
  resolves_loop (lt_components t) (saturating_sub (len (ap_components link_path)) 1).

(** [pithos_io::sanitize_relative_path]. *)
Definition sanitize_step (clean : list byte) (component : Component) : Result (list byte) :=
  match component with
  | Normal c => Ok (path_push clean c)
  | ParentDir | RootDir => Err UnsafePath
  | CurDir => Ok clean
  end.

Definition sanitize_relative_path (path : list byte) : Result (list byte) :=
  clean ← try_fold sanitize_step [] (path_components path);
  if bool_decide (clean = []) then Err UnsafePath else Ok clean.

(** ** Lemmas on paths *)

(** A name of one directory entry. *)
Definition plain_name (name : list byte) : Prop :=
  name ≠ [] ∧ slash ∉ name ∧ name ≠ dot ∧ name ≠ dot_dot.

Lemma split_nonempty path : split_slash path ≠ [].
Proof. destruct path as [|b path]; cbn; [done|]. destruct (decide _); [done|]. by destruct (split_slash path). Qed.

Lemma split_no_slash name : slash ∉ name → split_slash name = [name].
Proof.
  induction name as [|b name IH]; [done|]. intros [Hb Hn]%not_elem_of_cons. cbn.
  rewrite decide_False by done. by rewrite IH.
Qed.

Lemma split_app path name : split_slash (path ++ slash :: name) = split_slash path ++ split_slash name.
Proof.
  induction path as [|b path IH]; cbn; [by rewrite decide_True|].
  rewrite IH. destruct (decide (b = slash)); [done|].
  pose proof (split_nonempty path). by destruct (split_slash path).
Qed.

Lemma split_parts path part : part ∈ split_slash path → slash ∉ part.
Proof.
  revert part; induction path as [|b path IH]; intros part; cbn.
  - intros ->%list_elem_of_singleton. apply not_elem_of_nil.
  - destruct (decide (b = slash)) as [->|Hb].
    + intros [->|?]%elem_of_cons; [apply not_elem_of_nil|by apply IH].
    + pose proof (split_nonempty path). destruct (split_slash path) as [|p ps]; [done|].
      intros [->|Hin]%elem_of_cons; [|apply IH; by right].
      apply not_elem_of_cons. split; [done|]. apply IH. by left.
Qed.

Lemma parse_plain name : plain_name name → parse_part name = Some (Normal name).
Proof.
  intros (? & _ & ? & ?). unfold parse_part. by rewrite !decide_False.
Qed.

Lemma parse_part_Normal part name :
  slash ∉ part → parse_part part = Some (Normal name) → part = name ∧ plain_name name.
Proof.
  intros Hs. unfold parse_part. destruct (decide (part = [])); [done|].
  destruct (decide (part = dot)); [done|]. destruct (decide (part = dot_dot)); [done|].
  by intros [= <-].
Qed.

(** Every normal component of a path is the name of one entry. *)
Lemma components_plain path name : Normal name ∈ path_components path → plain_name name.
Proof.
  assert (Hom : ∀ parts, (∀ part, part ∈ parts → slash ∉ part) →
    Normal name ∈ omap (M := list) parse_part parts → plain_name name).
  { intros parts Hp (part & Hin & Hn)%list_elem_of_omap. by apply parse_part_Normal in Hn as [_ ?]; [|apply Hp]. }
  unfold path_components. pose proof (split_parts path) as Hsp. destruct (decide _).
  - intros [?|Hin]%elem_of_cons; [done|]. by apply (Hom (split_slash path)).
  - destruct (split_slash path) as [|first rest]; [by intros ?%not_elem_of_nil|].
    intros [Hin|Hin]%elem_of_app; [|apply (Hom rest); [intros; apply Hsp; by right|done]].
    destruct (decide (first = dot)); [by apply list_elem_of_singleton in Hin|].
    destruct (parse_part first) as [c|] eqn:E; [|by apply not_elem_of_nil in Hin].
    apply list_elem_of_singleton in Hin as <-.
    by apply parse_part_Normal in E as [_ ?]; [|apply Hsp; left].
Qed.

Lemma head_plain name : plain_name name → head name ≠ Some slash.
Proof. intros (_ & Hs & _) Hh. destruct name as [|b name]; [done|]. injection Hh as ->. apply Hs. by left. Qed.
Lemma last_plain name : plain_name name → last name ≠ Some slash.
Proof. intros (_ & Hs & _) Hl. apply Hs, last_Some_elem_of. done. Qed.

(** The path that [push] builds from plain names. *)
Definition joined (names : list (list byte)) : list byte := fold_left path_push names [].

Lemma joined_snoc names name : joined (names ++ [name]) = path_push (joined names) name.
Proof. unfold joined. by rewrite fold_left_app. Qed.

Lemma push_plain path name :
  plain_name name →
  path_push path name =
  if decide (path = [] ∨ last path = Some slash) then path ++ name else path ++ slash :: name.
Proof. intros Hn. unfold path_push. rewrite decide_False; [done|]. by apply head_plain. Qed.

Lemma joined_spec names :
  Forall plain_name names → names ≠ [] →
  split_slash (joined names) = names ∧ joined names ≠ [] ∧
  head (joined names) ≠ Some slash ∧ last (joined names) ≠ Some slash.
Proof.
  intros Hn Hne. induction names as [|n names IH] using rev_ind; [done|].
  apply Forall_app in Hn as [Hn Hx]. rewrite Forall_singleton in Hx.
  rewrite joined_snoc, push_plain by done.
  destruct (decide (names = [])) as [->|Hnames].
  - rewrite decide_True by by left. cbn [app]. unfold joined. cbn [fold_left app].
    split; [by apply split_no_slash; destruct Hx as (_ & ? & _)|].
    split; [by destruct Hx|]. split; [by apply head_plain|by apply last_plain].
  - destruct IH as (Hs & Hj & Hh & Hl); [done|done|]. rewrite decide_False by tauto.
    split; [|split; [|split]].
    + rewrite split_app, Hs, split_no_slash; [done|]. by destruct Hx as (_ & ? & _).
    + by destruct (joined names).
    + by destruct (joined names).
    + rewrite last_app_cons. destruct n as [|b n]; [by destruct Hx|]. rewrite last_cons_cons.
      by apply last_plain.
Qed.

Lemma joined_components names :
  Forall plain_name names → names ≠ [] → path_components (joined names) = map Normal names.
Proof.
  intros Hn Hne. destruct (joined_spec names Hn Hne) as (Hs & _ & Hh & _).
  unfold path_components. rewrite decide_False, Hs by done.
  destruct names as [|n names]; [done|]. apply Forall_cons in Hn as [Hx Hn]. cbn [map].
  rewrite decide_False by by destruct Hx as (_ & _ & ? & _). rewrite parse_plain by done. cbn. f_equal.
  clear -Hn. induction Hn as [|m ms Hm _ IH]; [done|]. cbn. by rewrite parse_plain, IH.
Qed.

Lemma single_component value :
  slash ∉ value → validate_normal_component value = Ok tt ↔ plain_name value.
Proof.
  intros Hs. unfold validate_normal_component, path_components.
  rewrite split_no_slash by done. rewrite (decide_False (P := head value = Some slash)).
  2: { destruct value as [|b value]; [done|]. intros [= ->]. apply Hs. by left. }
  cbn [omap list_omap]. rewrite app_nil_r. split.
  - destruct (decide (value = dot)); [done|].
    destruct (parse_part value) as [[]|] eqn:E; try done. intros _.
    by apply parse_part_Normal in E as [-> ?].
  - intros Hp. rewrite decide_False by by destruct Hp as (_ & _ & ? & _). by rewrite parse_plain.
Qed.

Lemma to_os_string_Ok c value :
  PathComponent_to_os_string c = Ok value → value = pc_bytes c ∧ plain_name value.
Proof.
  unfold PathComponent_to_os_string, contains. intros Hv. res_inv.
  match goal with u : unit |- _ => destruct u | _ => idtac end.
  match goal with H : match pc_encoding c with _ => _ end = Ok _ |- _ => rename H into Hc end.
  assert (Hs : value = pc_bytes c ∧ slash ∉ value).
  { destruct (pc_encoding c); [| |done].
    - destruct (utf8_valid _); [|done]. cbn [negb] in Hc.
      match type of Hc with (if ?b then _ else _) = _ => destruct b eqn:E; [done|] end. by invres.
    - match type of Hc with (if ?b then _ else _) = _ => destruct b eqn:E; [done|] end. by invres. }
  destruct Hs as [-> Hs]. split; [done|]. by apply single_component.
Qed.

(** The names that come back from [from_os_str] unless they contain a
    backslash (in a valid UTF-8 name) or a NUL (in any other). *)
Definition restorable_name (name : list byte) : Prop :=
  if utf8_valid name then backslash ∉ name else nul ∉ name.

Lemma from_os_str_restorable name :
  plain_name name →
  PathComponent_to_os_string (PathComponent_from_os_str name) = Ok name ↔ restorable_name name.
Proof.
  intros Hp. assert (Hs : slash ∉ name) by by destruct Hp as (_ & ? & _).
  unfold PathComponent_to_os_string, PathComponent_from_os_str, restorable_name, contains.
  destruct (utf8_valid name) eqn:Hu; cbn [pc_encoding pc_bytes]; rewrite ?Hu; cbn [negb].
  - rewrite (bool_decide_eq_false_2 (name = [])) by by destruct Hp as (? & _).
    rewrite (bool_decide_eq_false_2 (slash ∈ name)) by done.
    rewrite (bool_decide_eq_false_2 (name = dot)), (bool_decide_eq_false_2 (name = dot_dot)) by
      by destruct Hp as (_ & _ & ? & ?).
    cbn [orb]. rewrite !orb_false_r. case_bool_decide as Hb; cbn [mbind result_bind].
    + split; [done|]. by intros ?.
    + by rewrite (proj2 (single_component name Hs)).
  - rewrite (bool_decide_eq_false_2 (name = [])) by by destruct Hp as (? & _).
    rewrite (bool_decide_eq_false_2 (slash ∈ name)) by done. cbn [orb].
    case_bool_decide as Hb; cbn [mbind result_bind].
    + split; [done|]. by intros ?.
    + by rewrite (proj2 (single_component name Hs)).
Qed.

(** ** Conversions *)

(** The names of the normal components. *)
Definition names_of (components : list Component) : list (list byte) :=
  omap (λ c, match c with Normal name => Some name | _ => None end) components.

Definition relative (components : list Component) : Prop :=
  Forall (λ c, c ≠ RootDir ∧ c ≠ ParentDir) components.

Lemma from_relative_fold acc components :
  match try_fold from_relative_step acc components with
  | Ok out => relative components ∧ out = acc ++ map PathComponent_from_os_str (names_of components)
  | Err e => ¬ relative components ∧ e = UnsafePath
  end.
Proof.
  unfold relative. revert acc; induction components as [|c components IH]; intros acc; cbn [try_fold].
  { split; [constructor|]. by rewrite app_nil_r. }
  destruct c as [| | |name]; cbn [from_relative_step mbind result_bind].
  1, 3: split; [inversion 1; naive_solver|done].
  - specialize (IH acc). destruct (try_fold _ _ _); rewrite Forall_cons; naive_solver.
  - specialize (IH (acc ++ [PathComponent_from_os_str name])).
    destruct (try_fold _ _ _); rewrite Forall_cons; [|naive_solver].
    destruct IH as [? ->]. rewrite <-app_assoc. naive_solver.
Qed.

Lemma names_plain path : Forall plain_name (names_of (path_components path)).
Proof.
  apply Forall_forall. intros name (c & Hc & Hn)%list_elem_of_omap.
  destruct c as [| | |n]; try done. injection Hn as ->. by eapply components_plain.
Qed.

Lemma to_path_buf_fold path components out :
  try_fold (λ path component,
    value ← PathComponent_to_os_string component; Ok (path_push path value)) path components = Ok out →
  Forall plain_name (map pc_bytes components) ∧ out = fold_left path_push (map pc_bytes components) path.
Proof.
  revert path; induction components as [|c components IH]; intros path; cbn [try_fold map fold_left].
  { intros [= ->]. done. }
  intros Hf. res_inv. match goal with H : PathComponent_to_os_string _ = _ |- _ =>
    apply to_os_string_Ok in H as [-> Hp] end.
  match goal with H : try_fold _ _ _ = _ |- _ => apply IH in H as [? ->] end.
  split; [by constructor|done].
Qed.

Lemma to_path_buf_names path names :
  Forall plain_name names → Forall restorable_name names →
  try_fold (λ path component,
    value ← PathComponent_to_os_string component; Ok (path_push path value)) path
    (map PathComponent_from_os_str names) = Ok (fold_left path_push names path).
Proof.
  intros Hp Hr. revert path; induction Hp as [|n names Hn Hp IH]; intros path; [done|].
  apply Forall_cons in Hr as [Hrn Hr]. cbn [map try_fold fold_left].
  rewrite (proj2 (from_os_str_restorable n Hn) Hrn). cbn [mbind result_bind]. by apply IH.
Qed.

Lemma names_of_Normal names : names_of (map Normal names) = names.
Proof. unfold names_of. induction names as [|n names IH]; [done|]. cbn. by rewrite IH. Qed.

Lemma relative_Normal names : relative (map Normal names).
Proof. apply Forall_map, Forall_true. by intros. Qed.

(** ** Link resolution *)

(** Follows a target from the directory [dir] (its names, innermost first);
    [None] when a [..] leaves the root. *)
Fixpoint resolve (dir : list (list byte)) (target : list LinkComponent) : option (list (list byte)) :=
  match target with
  | [] => Some dir
  | LinkParent :: target =>
      match dir with [] => None | _ :: dir => resolve dir target end
  | LinkNormal c :: target => resolve (pc_bytes c :: dir) target
  end.

Lemma resolves_loop_spec target dir : resolves_loop target (len dir) = true ↔ is_Some (resolve dir target).
Proof.
  revert dir; induction target as [|[|c] target IH]; intros dir; cbn [resolves_loop resolve].
  - split; [eauto|done].
  - destruct dir as [|d dir].
    + rewrite len_nil. cbn. split; [done|by intros []].
    + rewrite len_cons, (proj2 (N.eqb_neq _ _)) by lia. rewrite N.add_comm, N.add_sub. apply IH.
  - rewrite <-IH, len_cons, N.add_comm. done.
Qed.

(** ** Sort keys *)

Definition component_key (c : PathComponent) : list byte :=
  PathEncoding_as_u8 (pc_encoding c) :: u64_le (len (pc_bytes c)) ++ pc_bytes c.

Lemma component_key_inj c1 c2 k1 k2 :
  len (pc_bytes c1) <= u64_MAX → len (pc_bytes c2) <= u64_MAX →
  component_key c1 ++ k1 = component_key c2 ++ k2 → c1 = c2 ∧ k1 = k2.
Proof.
  intros H1 H2. unfold component_key. cbn [app]. intros E.
  assert (He := f_equal head E). assert (Hk := f_equal tail E). cbn [head tail] in He, Hk.
  rewrite <-!app_assoc in Hk. apply app_inj_1 in Hk as [Hlen Hk]; [|by rewrite !length_u64_le].
  apply le_split_inj in Hlen; [|cbn; lia..].
  apply app_inj_1 in Hk as [Hb Hk]; [|unfold len in Hlen; lia].
  split; [|done]. destruct c1 as [[] b1], c2 as [[] b2]; cbn in *; first [discriminate He|by subst].
Qed.

(** ** Properties *)

Definition stored_lengths (p : ArchivePath) : Prop :=
  Forall (λ c, len (pc_bytes c) <= u64_MAX) (ap_components p).

(** The sort key determines the path, so that sorting entries by it
    detects every duplicate and never confuses two paths. *)
Theorem ArchivePath_sort_key_injective (p1 p2 : ArchivePath)
    (H1 : stored_lengths p1) (H2 : stored_lengths p2)
    (Hkey : ArchivePath_sort_key p1 = ArchivePath_sort_key p2) : p1 = p2.
Proof.
  destruct p1 as [c1], p2 as [c2]. unfold ArchivePath_sort_key, stored_lengths in *. cbn in *. f_equal.
  change (concat (map component_key c1) = concat (map component_key c2)) in Hkey.
  revert c2 H2 Hkey; induction H1 as [|c c1 Hc Hc1 IH]; intros c2 H2 Hkey.
  - destruct c2 as [|c' c2]; [done|discriminate Hkey].
  - destruct c2 as [|c' c2]; [discriminate Hkey|]. apply Forall_cons in H2 as [Hc' H2].
    cbn [map concat] in Hkey. apply component_key_inj in Hkey as [-> Hk]; [|done..].
    f_equal. by apply IH.
Qed.

(** A stored path is restored as exactly its components below the
    current directory: when [to_path_buf] succeeds, the operating system
    reads its result as the stored names in order, each a plain name, with no
    root, parent or current-directory component: the path cannot escape. *)
Theorem ArchivePath_to_path_buf_safe (p : ArchivePath) (path : list byte)
    (Hpath : ArchivePath_to_path_buf p = Ok path) :
  path_components path = map (λ c, Normal (pc_bytes c)) (ap_components p) ∧
  Forall (λ c, plain_name (pc_bytes c)) (ap_components p) ∧ path ≠ [].
Proof.
  unfold ArchivePath_to_path_buf in Hpath. case_bool_decide as Hne; [done|].
  apply to_path_buf_fold in Hpath as [Hp ->]. fold (joined (map pc_bytes (ap_components p))).
  assert (Hm : map pc_bytes (ap_components p) ≠ []) by by destruct (ap_components p).
  rewrite joined_components, map_map by done. split; [done|]. split; [by rewrite Forall_map in Hp|].
  by apply joined_spec.
Qed.

(** [from_relative] accepts exactly the relative paths without [..] that
    name something, drops the [.] components and keeps the names; and the
    stored path is restored to the same names if none contains a backslash
    (UTF-8 names) or a NUL (other names). *)
Theorem ArchivePath_from_relative_correct (path : list byte) :
  match ArchivePath_from_relative path with
  | Ok p =>
      relative (path_components path) ∧ names_of (path_components path) ≠ [] ∧
      map pc_bytes (ap_components p) = names_of (path_components path) ∧
      (Forall restorable_name (names_of (path_components path)) →
        ∃ restored, ArchivePath_to_path_buf p = Ok restored ∧
          path_components restored = map Normal (names_of (path_components path)) ∧
          ArchivePath_from_relative restored = Ok p)
  | Err e =>
      e = UnsafePath ∧
      (¬ relative (path_components path) ∨ names_of (path_components path) = [])
  end.
Proof.
  unfold ArchivePath_from_relative at 1. pose proof (from_relative_fold [] (path_components path)) as Hf.
  destruct (try_fold _ _ _) as [out|e]; [|naive_solver]. destruct Hf as [Hr ->]. cbn [app mbind result_bind].
  set (names := names_of (path_components path)).
  assert (Hp : Forall plain_name names) by apply names_plain.
  case_bool_decide as Hne; [by destruct names; auto|].
  assert (Hn : names ≠ []) by by intros E; rewrite E in Hne. cbn [ap_components].
  split; [done|]. split; [done|]. split.
  { rewrite map_map. clear. induction names as [|n names IH]; [done|]. cbn. rewrite IH.
    unfold PathComponent_from_os_str. by destruct (utf8_valid n). }
  intros Hres. exists (joined names). unfold ArchivePath_to_path_buf, ArchivePath_from_relative.
  cbn [ap_components]. rewrite bool_decide_eq_false_2 by done.
  rewrite to_path_buf_names, joined_components by done. split; [done|]. split; [done|].
  pose proof (from_relative_fold [] (map Normal names)) as Hf.
  destruct (try_fold _ _ _) as [out|e]; [|by destruct Hf as [[] _]; apply relative_Normal].
  destruct Hf as [_ ->]. cbn [app mbind result_bind]. rewrite names_of_Normal.
  by rewrite bool_decide_eq_false_2.
Qed.

(** C40: [resolves_within] decides whether following the target, one component
    at a time from the directory that holds the link, ever leaves the root. *)
Theorem LinkTarget_resolves_within_correct (t : LinkTarget) (link : ArchivePath) :
  LinkTarget_resolves_within t link = true ↔
  is_Some (resolve (tail (reverse (map pc_bytes (ap_components link)))) (lt_components t)).
Proof.
  rewrite <-resolves_loop_spec. unfold LinkTarget_resolves_within, saturating_sub.
  replace (len (tail (reverse (map pc_bytes (ap_components link))))) with
    (len (ap_components link) - 1); [done|].
  rewrite <-(len_map pc_bytes). unfold len. rewrite <-length_reverse.
  destruct (reverse _); simpl; lia.
Qed.

Lemma sanitize_fold clean components :
  match try_fold sanitize_step clean components with
  | Ok out => relative components ∧ out = fold_left path_push (names_of components) clean
  | Err e => ¬ relative components ∧ e = UnsafePath
  end.
Proof.
  unfold relative. revert clean; induction components as [|c components IH]; intros clean; cbn [try_fold].
  { split; [constructor|done]. }
  destruct c as [| | |name]; cbn [sanitize_step mbind result_bind].
  1, 3: split; [inversion 1; naive_solver|done].
  - specialize (IH clean). destruct (try_fold _ _ _); rewrite Forall_cons; naive_solver.
  - specialize (IH (path_push clean name)).
    destruct (try_fold _ _ _); rewrite Forall_cons; [|naive_solver]. naive_solver.
Qed.

(** [sanitize_relative_path] returns the path's names joined by single
    separators, and fails with [UnsafePath] exactly when the path is absolute,
    has a [..], or names nothing. *)
Theorem sanitize_relative_path_correct (path : list byte) :
  match sanitize_relative_path path with
  | Ok clean =>
      relative (path_components path) ∧
      path_components clean = map Normal (names_of (path_components path)) ∧
      sanitize_relative_path clean = Ok clean
  | Err e =>
      e = UnsafePath ∧
      (¬ relative (path_components path) ∨ names_of (path_components path) = [])
  end.
Proof.
  unfold sanitize_relative_path at 1. pose proof (sanitize_fold [] (path_components path)) as Hf.
  destruct (try_fold _ _ _) as [out|e]; [|naive_solver]. destruct Hf as [Hr ->].
  set (names := names_of (path_components path)). fold (joined names).
  assert (Hp : Forall plain_name names) by apply names_plain. cbn [mbind result_bind].
  destruct (decide (names = [])) as [->|Hn]; [by rewrite bool_decide_eq_true_2; auto|].
  destruct (joined_spec names Hp Hn) as (_ & Hne & _). rewrite bool_decide_eq_false_2 by done.
  split; [done|]. split; [by apply joined_components|].
  unfold sanitize_relative_path. rewrite joined_components by done.
  pose proof (sanitize_fold [] (map Normal names)) as Hf.
  destruct (try_fold _ _ _) as [out|e]; [|by destruct Hf as [[] _]; apply relative_Normal].
  destruct Hf as [_ ->]. rewrite names_of_Normal. fold (joined names). cbn [mbind result_bind].
  by rewrite bool_decide_eq_false_2.
Qed.

Definition bytes_of (s : string) : list byte := String.list_byte_of_string s.
Definition utf8_component (s : string) : PathComponent := {| pc_encoding := Utf8; pc_bytes := bytes_of s |}.
Definition example_path : ArchivePath := {| ap_components := [utf8_component "docs"; utf8_component "a.txt"] |}.

Lemma ArchivePath_sort_key_injective_witness :
  stored_lengths example_path ∧ example_path = {| ap_components := map utf8_component ["docs"; "a.txt"]%string |}.
Proof.
  assert (H : stored_lengths example_path) by (repeat constructor; by vm_compute).
  split; [exact H|]. apply ArchivePath_sort_key_injective; [exact H|exact H|reflexivity].
Defined.

Lemma ArchivePath_to_path_buf_safe_witness :
  ArchivePath_to_path_buf example_path = Ok (bytes_of "docs/a.txt") ∧
  path_components (bytes_of "docs/a.txt") = [Normal (bytes_of "docs"); Normal (bytes_of "a.txt")].
Proof.
  assert (H : ArchivePath_to_path_buf example_path = Ok (bytes_of "docs/a.txt")) by (vm_compute; reflexivity).
  split; [exact H|]. apply (ArchivePath_to_path_buf_safe example_path _ H).
Defined.

Lemma ArchivePath_from_relative_correct_witness :
  ArchivePath_from_relative (bytes_of "./docs//a.txt") = Ok example_path ∧
  Forall restorable_name (names_of (path_components (bytes_of "./docs//a.txt"))) ∧
  ∃ restored, ArchivePath_to_path_buf example_path = Ok restored ∧
    path_components restored = map Normal (names_of (path_components (bytes_of "./docs//a.txt"))) ∧
    ArchivePath_from_relative restored = Ok example_path.
Proof.
  assert (H : ArchivePath_from_relative (bytes_of "./docs//a.txt") = Ok example_path) by (vm_compute; reflexivity).
  assert (Hr : Forall restorable_name (names_of (path_components (bytes_of "./docs//a.txt")))).
  { repeat constructor; unfold restorable_name; cbn; apply (bool_decide_unpack _); vm_compute; exact I. }
  split; [exact H|]. split; [exact Hr|].
  assert (Hc := ArchivePath_from_relative_correct (bytes_of "./docs//a.txt")). rewrite H in Hc.
  exact (proj2 (proj2 (proj2 Hc)) Hr).
Defined.

(** A UTF-8 name with a backslash is stored but not restored. *)
Lemma backslash_name_not_restored :
  ∃ p, ArchivePath_from_relative (bytes_of "a\b") = Ok p ∧ ArchivePath_to_path_buf p = Err UnsafePath.
Proof. eexists. split; vm_compute; reflexivity. Qed.
