(* ===== verification/FileTree.v ===== *)
(** * A Unix file system

    Directories, regular files with their inodes and symbolic links, the
    resolution of paths, and the functions of [std::fs] that the engine calls
    on the output side.  Every call may also fail for a reason of its own. *)

From S2P Require Import Prelude Core Effects Bytes Paths.

#[export] Instance byte_countable : Countable byte.
Proof.
  refine (inj_countable Byte.to_N Byte.of_N _). intros b. apply Byte.of_to_N.
Defined.

Abbreviation Name := (list byte).

Inductive Node :=
  | DirNode
  | FileNode (inode : N)
  | LinkNode (target : list byte).

Record Inode := { in_content : list byte; in_mode : option N }.

(** The nodes by their physical path, the names from the root; the root
    itself has no entry.  A mode is [None] until it is set. *)
Record Files := {
  ft_nodes : gmap (list Name) Node;
  ft_inodes : gmap N Inode;
  ft_cwd : list Name;
}.

Definition node_at (files : Files) (path : list Name) : option Node :=
  match path with [] => Some DirNode | _ => ft_nodes files !! path end.

(** ** Path resolution *)

(** What a path denotes: an existing node, or a missing entry of an existing
    directory. *)
Inductive Place := At (path : list Name) (node : Node) | Missing (path : list Name).

(** [OtherKind] covers ENOTDIR and ELOOP. *)
Fixpoint walk (links : nat) (files : Files) (follow : bool) :=
  fix go (dir : list Name) (components : list Component) : result ErrorKind Place :=
  match components with
  | [] => Ok (At dir DirNode)
  | RootDir :: rest => go [] rest
  | CurDir :: rest => go dir rest
  | ParentDir :: rest => go (removelast dir) rest
  | Normal name :: rest =>
      let path := dir ++ [name] in
      match node_at files path with
      | None => if bool_decide (rest = []) then Ok (Missing path) else Err NotFound
      | Some DirNode => go path rest
      | Some (FileNode inode) => if bool_decide (rest = []) then Ok (At path (FileNode inode)) else Err OtherKind
      | Some (LinkNode target) =>
          if bool_decide (rest = []) && negb follow then Ok (At path (LinkNode target)) else
          match links with
          | O => Err OtherKind
          | S links => walk links files follow dir (path_components target ++ rest)
          end
      end
  end.

(** The number of links that Linux follows in one resolution. *)
Definition MAXSYMLINKS : nat := 40.

Definition resolve_place (files : Files) (follow : bool) (path : list byte) : result ErrorKind Place :=
  if bool_decide (path = []) then Err NotFound
  else walk MAXSYMLINKS files follow (ft_cwd files) (path_components path).

(** ** Updates *)

Definition set_node (files : Files) (path : list Name) (node : Node) : Files := {|
  ft_nodes := <[path := node]> (ft_nodes files); ft_inodes := ft_inodes files; ft_cwd := ft_cwd files |}.
Definition set_inode (files : Files) (inode : N) (value : Inode) : Files := {|
  ft_nodes := ft_nodes files; ft_inodes := <[inode := value]> (ft_inodes files); ft_cwd := ft_cwd files |}.

(** An inode number not in use. *)
Definition fresh_inode (files : Files) : N := fresh (dom (ft_inodes files)).

(** The nodes at and below [path] move to [path']. *)
Definition moved_key (path path' key : list Name) : list Name :=
  if bool_decide (take (length path) key = path) then path' ++ drop (length path) key else key.
Definition move_nodes (files : Files) (path path' : list Name) : Files := {|
  ft_nodes := list_to_map (prod_map (moved_key path path') id <$> map_to_list (ft_nodes files)); ft_inodes := ft_inodes files; ft_cwd := ft_cwd files |}.
Definition remove_nodes (files : Files) (path : list Name) : Files := {|
  ft_nodes := filter (λ entry, take (length path) entry.1 ≠ path) (ft_nodes files);
  ft_inodes := ft_inodes files; ft_cwd := ft_cwd files |}.

(** A directory without entries. *)
Definition is_empty_dir (files : Files) (path : list Name) : bool :=
  forallb (λ entry, negb (bool_decide (take (length path) entry.1 = path)) || bool_decide (entry.1 = path))
    (map_to_list (ft_nodes files)).

(** The names in a directory. *)
Definition dir_names (fs : Files) (dir : list Name) : list Name :=
  omap (λ entry, match drop (length dir) entry.1 with
                 | [name] => if bool_decide (take (length dir) entry.1 = dir) then Some name else None
                 | _ => None
                 end) (map_to_list (ft_nodes fs)).

(** ** The calls *)

(** The failures of the disk, for which the program has no case of its own,
    and the names that [tempfile] makes up. *)
Class Disturb (E : Type) := {
  io_fails : E → bool * E;
  temporary_name : E → Name * E;
}.

(** The made-up names are alphanumeric. *)
Class DisturbLaws (E : Type) `{Disturb E} : Prop :=
  temporary_name_plain : ∀ e, slash ∉ (temporary_name e).1.

Section calls.
Context {E : Type} `{Env E} `{Disturb E}.

Definition FS : Type := Files * E.

#[export] Instance FS_env : Env FS := {|
  env_checkpoint s := let '(r, e) := env_checkpoint s.2 in (r, (s.1, e));
  env_reserve n s := let '(r, e) := env_reserve n s.2 in (r, (s.1, e));
|}.

Definition io : M FS unit := λ s,
  let '(fails, e) := io_fails s.2 in (if fails then Err (Io OtherKind) else Ok tt, (s.1, e)).
Definition files : M FS Files := λ s, (Ok s.1, s).
Definition put_files (fs : Files) : M FS unit := λ s, (Ok tt, (fs, s.2)).
Definition lift_io {A} (r : result ErrorKind A) : M FS A :=
  lift match r with Ok v => Ok v | Err kind => Err (Io kind) end.

Definition locate (follow : bool) (path : list byte) : M FS Place :=
  io;;
  fs ← files;
  lift_io (resolve_place fs follow path).

(** The path ends with a slash or with [/.]. *)
Definition ends_open (path : list byte) : bool :=
  match last (split_slash path) with Some part => bool_decide (part = [] ∨ part = dot) | None => false end.

(** [lstat] and [realpath]: such an ending follows a last link and demands a
    directory. *)
Definition stat (follow : bool) (path : list byte) : M FS (list Name * Node) :=
  place ← locate (follow || ends_open path) path;
  match place with
  | At at_ DirNode => mret (at_, DirNode)
  | At at_ node => if ends_open path then fail (Io OtherKind) else mret (at_, node)
  | Missing _ => fail (Io NotFound)
  end.

(** [fs::symlink_metadata], the type of the node. *)
Definition symlink_metadata (path : list byte) : M FS Node :=
  '(_, node) ← stat false path;
  mret node.

(** [fs::canonicalize]: the absolute path without links. *)
Definition physical (path : list Name) : list byte := path_of_components (RootDir :: map Normal path).
Definition canonicalize (path : list byte) : M FS (list byte) :=
  '(at_, _) ← stat true path;
  mret (physical at_).

(** [Path::is_dir], which follows links and takes a failure for [false]. *)
Definition path_is_dir (path : list byte) : M FS bool := λ s,
  match locate true path s with
  | (Ok (At _ DirNode), s) => (Ok true, s)
  | (_, s) => (Ok false, s)
  end.

(** [fs::create_dir]. *)
Definition create_dir (path : list byte) : M FS unit :=
  place ← locate false path;
  match place with
  | At _ _ => fail (Io AlreadyExists)
  | Missing at_ => fs ← files; put_files (set_node fs at_ DirNode)
  end.

Definition catch {A} (m : M FS A) (handler : PithosError → M FS A) : M FS A := λ s,
  match m s with
  | (Ok v, s) => (Ok v, s)
  | (Err e, s) => handler e s
  end.

(** An existing directory is accepted. *)
Definition or_is_dir (path : list byte) (e : PithosError) : M FS unit :=
  is_dir ← path_is_dir path;
  if (is_dir : bool) then mret tt else fail e.

(** [fs::create_dir_all]: after a failure with [NotFound] the parent is
    created first. *)
Fixpoint create_dir_all_loop (fuel : nat) (path : list byte) : M FS unit :=
  if bool_decide (path = []) then mret tt else
  catch (create_dir path) (λ e,
    if negb (bool_decide (e = Io NotFound)) then or_is_dir path e else
    match Path_parent path with
    | None => fail (Io OtherKind)
    | Some parent =>
        match fuel with
        | O => fail out_of_fuel
        | Datatypes.S fuel => create_dir_all_loop fuel parent;; catch (create_dir path) (or_is_dir path)
        end
    end).
(** Every call has one component less. *)
Definition create_dir_all (path : list byte) : M FS unit :=
  create_dir_all_loop (length (path_components path)) path.

(** [OpenOptions::new().write(true).create_new(true).open]: the inode that
    the handle writes to. *)
Definition create_new (path : list byte) : M FS N :=
  place ← locate false path;
  match place with
  | At _ _ => fail (Io AlreadyExists)
  | Missing at_ =>
      fs ← files;
      let inode := fresh_inode fs in
      put_files (set_inode (set_node fs at_ (FileNode inode)) inode {| in_content := []; in_mode := None |});;
      mret inode
  end.

(** [write_all] at the end of an open file. *)
Definition file_write_all (inode : N) (bytes : list byte) : M FS unit :=
  io;;
  fs ← files;
  match ft_inodes fs !! inode with
  | Some value =>
      put_files (set_inode fs inode {| in_content := in_content value ++ bytes; in_mode := in_mode value |})
  | None => fail (Io OtherKind)
  end.

Definition sync_all : M FS unit := io.

(** [File::open] of a regular file, and what it holds. *)
Definition open_file (path : list byte) : M FS (list byte) :=
  place ← locate true path;
  fs ← files;
  match place with
  | At _ (FileNode inode) =>
      match ft_inodes fs !! inode with Some value => mret (in_content value) | None => fail (Io OtherKind) end
  | At _ _ => fail (Io OtherKind)
  | Missing _ => fail (Io NotFound)
  end.

(** [fs::read_dir]; the order of the names is that of the tree's map. *)
Definition read_dir (path : list byte) : M FS (list Name) :=
  place ← locate true path;
  fs ← files;
  match place with
  | At dir DirNode => mret (dir_names fs dir)
  | At _ _ => fail (Io OtherKind)
  | Missing _ => fail (Io NotFound)
  end.

(** [fs::read_link]. *)
Definition read_link (path : list byte) : M FS (list byte) :=
  place ← locate (ends_open path) path;
  match place with
  | At _ (LinkNode target) => mret target
  | At _ _ => fail (Io OtherKind)
  | Missing _ => fail (Io NotFound)
  end.

(** [File::open] of a directory. *)
Definition open_dir (path : list byte) : M FS unit :=
  place ← locate true path;
  match place with At _ _ => mret tt | Missing _ => fail (Io NotFound) end.

(** [fs::hard_link], which follows neither path. *)
Definition hard_link (original link : list byte) : M FS unit :=
  source ← locate false original;
  place ← locate false link;
  match source, place with
  | Missing _, _ => fail (Io NotFound)
  | At _ DirNode, _ => fail (Io OtherKind)
  | At _ node, Missing at_ => fs ← files; put_files (set_node fs at_ node)
  | At _ _, At _ _ => fail (Io AlreadyExists)
  end.

(** [std::os::unix::fs::symlink]. *)
Definition symlink (target link : list byte) : M FS unit :=
  place ← locate false link;
  match place with
  | At _ _ => fail (Io AlreadyExists)
  | Missing at_ => fs ← files; put_files (set_node fs at_ (LinkNode target))
  end.

(** [fs::set_permissions] of a file; the mode of a directory is not
    modelled. *)
Definition set_permissions (path : list byte) (mode : N) : M FS unit :=
  place ← locate true path;
  fs ← files;
  match place with
  | At _ (FileNode inode) =>
      match ft_inodes fs !! inode with
      | Some value => put_files (set_inode fs inode {| in_content := in_content value; in_mode := Some mode |})
      | None => fail (Io OtherKind)
      end
  | At _ _ => mret tt
  | Missing _ => fail (Io NotFound)
  end.

(** [fs::rename] of a directory: the target is missing or an empty directory,
    and is not inside the source; a directory may be renamed to itself. *)
Definition rename_dir (from to : list byte) : M FS unit :=
  source ← locate false from;
  place ← locate false to;
  fs ← files;
  match source with
  | At path DirNode =>
      match place with
      | Missing path' =>
          if bool_decide (take (length path) path' = path) then fail (Io OtherKind)
          else put_files (move_nodes fs path path')
      | At path' DirNode =>
          if bool_decide (path' = path) then mret tt else
          if bool_decide (take (length path) path' = path) || negb (is_empty_dir fs path')
          then fail (Io OtherKind) else put_files (move_nodes (remove_nodes fs path') path path')
      | At _ _ => fail (Io OtherKind)
      end
  | At _ _ => fail (Io OtherKind)
  | Missing _ => fail (Io NotFound)
  end.

(** [tempfile::Builder::new().prefix(_).tempdir_in(parent)]: a new directory
    whose name starts with the prefix. *)
Definition tempdir_in (prefix : Name) (parent : list byte) : M FS (list byte) :=
  name ← (λ s, let '(name, e) := temporary_name s.2 in (Ok name, (s.1, e)));
  let path := path_push parent (prefix ++ name) in
  create_dir path;;
  mret path.

(** The drop of a [TempDir]: everything at and below it is removed, unless
    the disk fails or it is gone. *)
Definition remove_dir_all (path : list byte) : M FS unit :=
  place ← locate false path;
  match place with
  | At at_ DirNode => fs ← files; put_files (remove_nodes fs at_)
  | _ => fail (Io OtherKind)
  end.

(** The body of a function whose local [TempDir] is dropped at the end. *)
Definition with_tempdir {A} (path : list byte) (body : M FS A) : M FS A := λ s,
  let '(r, s) := body s in
  let '(_, s) := remove_dir_all path s in (r, s).

(** [tempfile::NamedTempFile::new_in]: the path and the inode of a new file. *)
Definition tempfile_in (parent : list byte) : M FS (list byte * N) :=
  name ← (λ s, let '(name, e) := temporary_name s.2 in (Ok name, (s.1, e)));
  let path := path_push parent (String.list_byte_of_string ".tmp" ++ name) in
  inode ← create_new path;
  mret (path, inode).

(** [NamedTempFile::persist_noclobber]: the file moves to a path where there
    is nothing. *)
Definition persist_noclobber (from to : list byte) : M FS unit :=
  source ← locate false from;
  place ← locate false to;
  match source, place with
  | At path node, Missing path' =>
      fs ← files;
      put_files {| ft_nodes := <[path' := node]> (delete path (ft_nodes fs)); ft_inodes := ft_inodes fs;
                   ft_cwd := ft_cwd fs |}
  | At _ _, At _ _ => fail (Io AlreadyExists)
  | Missing _, _ => fail (Io NotFound)
  end.

(** The drop of a [NamedTempFile] that was not persisted. *)
Definition remove_file (path : list byte) : M FS unit :=
  place ← locate false path;
  match place with
  | At _ DirNode | Missing _ => fail (Io OtherKind)
  | At at_ _ =>
      fs ← files;
      put_files {| ft_nodes := delete at_ (ft_nodes fs); ft_inodes := ft_inodes fs; ft_cwd := ft_cwd fs |}
  end.
Definition with_tempfile {A} (path : list byte) (body : M FS A) : M FS A := λ s,
  let '(r, s) := body s in
  let '(_, s) := remove_file path s in (r, s).
End calls.
Arguments FS : clear implicits.
