(* ===== verification/FileWalk.v ===== *)
(** * Lemmas on paths and their resolution

    Components of composed paths, and where [walk] arrives in a well-formed
    tree and in the trees that grow out of it. *)

From S2P Require Import Prelude Core Effects Bytes Paths FileTree.

(** ** Components of composed paths *)

Lemma omap_nil_part : omap (M := list) parse_part [[]] = [].
Proof. done. Qed.

Lemma components_push path name :
  path ≠ [] → head name ≠ Some slash →
  path_components (path_push path name) = path_components path ++ omap parse_part (split_slash name).
Proof.
  intros Hp Hn. unfold path_push. rewrite decide_False by done.
  assert (Hsep : ∀ q, (q ≠ [] ∨ head path = Some slash) → (path = q ∨ path = q ++ [slash]) →
    path_components (q ++ slash :: name) = path_components path ++ omap parse_part (split_slash name)).
  { intros q Hq Hpath. unfold path_components. rewrite split_app.
    assert (Hs : omap parse_part (split_slash path) = omap parse_part (split_slash q)).
    { destruct Hpath as [->| ->]; [done|]. by rewrite split_app, omap_app, app_nil_r. }
    assert (Hh : head (q ++ slash :: name) = head path).
    { destruct Hpath as [->| ->]; destruct q as [|b q]; try done. }
    rewrite Hh. destruct (decide (head path = Some slash)) as [Hr|Hr].
    { cbn [app]. by rewrite omap_app, Hs. }
    destruct Hq as [Hq|]; [|done].
    assert (Hf : ∃ first rest rest', split_slash q = first :: rest ∧ split_slash path = first :: rest' ∧
      omap parse_part rest = omap parse_part rest').
    { pose proof (split_nonempty q). destruct (split_slash q) as [|first rest] eqn:E; [done|].
      destruct Hpath as [->| ->]; [rewrite E; eauto 6|]. rewrite split_app, E. cbn [app].
      exists first, rest, (rest ++ [[]]). by rewrite omap_app, app_nil_r. }
    destruct Hf as (first & rest & rest' & -> & -> & Ho). cbn [app]. by rewrite omap_app, Ho, app_assoc. }
  destruct (decide (path = [] ∨ last path = Some slash)) as [[|Hl]|Hl]; [done| |].
  - apply last_Some in Hl as [q ->]. rewrite <-app_assoc. cbn [app]. apply Hsep; [|by right].
    destruct q; [by right|by left].
  - apply Hsep; by left.
Qed.

Lemma omap_plain names : Forall plain_name names → omap (M := list) parse_part names = map Normal names.
Proof. induction 1 as [|n names Hn _ IH]; [done|]. cbn. by rewrite parse_plain, IH. Qed.

(** A path below [path] by plain names. *)
Lemma components_join path names :
  path ≠ [] → Forall plain_name names → names ≠ [] →
  path_components (path_push path (joined names)) = path_components path ++ map Normal names.
Proof.
  intros Hp Hn Hne. destruct (joined_spec names Hn Hne) as (Hs & _ & Hh & _).
  by rewrite components_push, Hs, omap_plain.
Qed.

Lemma components_push_name path name :
  plain_name name → path_components (path_push path name) = path_components path ++ [Normal name].
Proof.
  intros Hn. assert (Hs : Forall plain_name [name]) by by apply Forall_singleton.
  assert (Hj : joined [name] = name) by (unfold joined; cbn [fold_left]; rewrite push_plain by done; by rewrite decide_True by by left).
  destruct (decide (path = [])) as [->|Hp].
  - exact (joined_components [name] Hs ltac:(done)).
  - rewrite <-Hj at 1. by apply components_join.
Qed.

Lemma ends_open_push path name : head name ≠ Some slash → ends_open (path_push path name) = ends_open name.
Proof.
  intros Hn. assert (Hs : ∀ q, ends_open (q ++ slash :: name) = ends_open name).
  { intros q. unfold ends_open. rewrite split_app, last_app. destruct (last (split_slash name)) eqn:Hl; [done|].
    apply last_None in Hl. by apply split_nonempty in Hl. }
  unfold path_push. rewrite decide_False by done. destruct (decide _) as [[->|Hl]|]; [done| |apply Hs].
  apply last_Some in Hl as [q ->]. rewrite <-app_assoc. apply Hs.
Qed.

Lemma ends_open_joined names : Forall plain_name names → names ≠ [] → ends_open (joined names) = false.
Proof.
  intros Hp Hne. destruct (joined_spec names Hp Hne) as [Hs _]. unfold ends_open. rewrite Hs.
  destruct names as [|n names _] using rev_ind; [done|]. rewrite last_snoc.
  apply Forall_app in Hp as [_ [(? & ? & ? & ?) _]%Forall_cons]. apply bool_decide_eq_false_2. by intros [?|?].
Qed.

Lemma ends_open_name path name : plain_name name → ends_open (path_push path name) = false.
Proof.
  intros Hn. rewrite ends_open_push by by apply head_plain. rewrite <-(ends_open_joined [name]); [|by apply Forall_singleton|done].
  f_equal. unfold joined. cbn [fold_left]. rewrite push_plain by done. by rewrite decide_True by by left.
Qed.

(** The components that some path has. *)
Definition inner_component (c : Component) : Prop :=
  match c with RootDir | CurDir => False | ParentDir => True | Normal name => plain_name name end.
Definition valid_components (cs : list Component) : Prop :=
  match cs with
  | [] => True
  | c :: cs => (c = RootDir ∨ c = CurDir ∨ inner_component c) ∧ Forall inner_component cs
  end.

Lemma parse_part_inner part c : slash ∉ part → parse_part part = Some c → inner_component c.
Proof.
  intros Hs. destruct c as [| | |name]; cbn; try done.
  1, 2: unfold parse_part; do 3 (destruct (decide _); [done|]); done.
  intros Hp. by apply parse_part_Normal in Hp as [_ ?].
Qed.

Lemma path_components_valid path : valid_components (path_components path).
Proof.
  pose proof (split_parts path) as Hsp. unfold path_components.
  assert (Hom : ∀ parts, (∀ part, part ∈ parts → slash ∉ part) →
    Forall inner_component (omap (M := list) parse_part parts)).
  { intros parts Hp. apply Forall_forall. intros c (part & Hin & Hc)%list_elem_of_omap.
    eapply parse_part_inner; [|exact Hc]. by apply Hp. }
  destruct (decide _). { cbn. split; [by left|by apply Hom]. }
  destruct (split_slash path) as [|first rest]; [done|].
  assert (Hr : Forall inner_component (omap (M := list) parse_part rest)) by (apply Hom; intros; apply Hsp; by right).
  destruct (decide (first = dot)); [cbn; split; [by right; left|done]|].
  destruct (parse_part first) as [c|] eqn:E; cbn.
  - split; [|done]. right. right. eapply parse_part_inner; [|exact E]. apply Hsp. by left.
  - destruct (omap _ rest) as [|c cs]; [done|]. apply Forall_cons in Hr as [? ?]. split; [by right; right|done].
Qed.

Lemma valid_prefix cs cs' : cs `prefix_of` cs' → valid_components cs' → valid_components cs.
Proof.
  intros [k ->]. destruct cs as [|c cs]; [done|]. cbn. by intros [? [? _]%Forall_app].
Qed.

Lemma removelast_snoc {A} (l : list A) x : removelast (l ++ [x]) = l.
Proof. rewrite removelast_app by done. cbn. by rewrite app_nil_r. Qed.

Lemma path_of_snoc cs c : path_of_components (cs ++ [c]) = path_push (path_of_components cs) (component_name c).
Proof. unfold path_of_components. by rewrite map_app, fold_left_app. Qed.

Lemma path_push_nonempty path name : name ≠ [] → path_push path name ≠ [].
Proof. intros Hn. unfold path_push. repeat destruct (decide _); [done| |]; by destruct path, name. Qed.

Lemma component_name_nonempty c : (c = RootDir ∨ c = CurDir ∨ inner_component c) → component_name c ≠ [].
Proof. intros [->|[->|Hc]]; [done..|]. destruct c; try done. by destruct Hc. Qed.

(** A path rebuilt from its components has these components. *)
Lemma path_of_components_spec cs :
  valid_components cs →
  path_components (path_of_components cs) = cs ∧ (path_of_components cs = [] ↔ cs = []).
Proof.
  induction cs as [|c cs IH] using rev_ind; [done|]. intros Hv.
  destruct IH as [IHc IHe]; [eapply valid_prefix; [|exact Hv]; by eexists|]. rewrite path_of_snoc.
  assert (Hc : c = RootDir ∨ c = CurDir ∨ inner_component c).
  { destruct cs as [|c0 cs]; [by destruct Hv|]. destruct Hv as [_ [_ [Hc _]%Forall_cons]%Forall_app].
    by right; right. }
  split.
  2: { split; [|by destruct cs]. intros E. exfalso. revert E. apply path_push_nonempty.
       by apply component_name_nonempty. }
  destruct (decide (cs = [])) as [->|Hcs].
  - cbn [app]. destruct Hc as [->|[->|Hc]]; [done..|]. destruct c as [| | |name]; try done.
    exact (components_push_name [] name Hc).
  - assert (Hic : inner_component c).
    { destruct cs as [|c0 cs]; [done|]. by destruct Hv as [_ [_ [? _]%Forall_cons]%Forall_app]. }
    destruct c as [| | |name]; try done; cbn [component_name].
    + rewrite components_push, IHc; [done|by rewrite IHe|done].
    + by rewrite components_push_name, IHc.
Qed.

Lemma Path_parent_snoc path cs c :
  path_components path = cs ++ [c] → c ≠ RootDir →
  Path_parent path = Some (path_of_components cs) ∧ path_components (path_of_components cs) = cs.
Proof.
  intros Hp Hc. unfold Path_parent. rewrite Hp, last_snoc, removelast_snoc.
  split; [by destruct c|]. apply path_of_components_spec. apply (valid_prefix _ (cs ++ [c])); [by eexists|].
  rewrite <-Hp. apply path_components_valid.
Qed.

(** ** Resolution *)

Section walk.
Implicit Types fs : Files.

Lemma walk_cons links fs follow dir c rest :
  walk links fs follow dir (c :: rest) =
  match c with
  | RootDir => walk links fs follow [] rest
  | CurDir => walk links fs follow dir rest
  | ParentDir => walk links fs follow (removelast dir) rest
  | Normal name =>
      let path := dir ++ [name] in
      match node_at fs path with
      | None => if bool_decide (rest = []) then Ok (Missing path) else Err NotFound
      | Some DirNode => walk links fs follow path rest
      | Some (FileNode inode) => if bool_decide (rest = []) then Ok (At path (FileNode inode)) else Err OtherKind
      | Some (LinkNode target) =>
          if bool_decide (rest = []) && negb follow then Ok (At path (LinkNode target)) else
          match links with
          | O => Err OtherKind
          | S links => walk links fs follow dir (path_components target ++ rest)
          end
      end
  end.
Proof. by destruct links, c. Qed.
Lemma walk_nil links fs follow dir : walk links fs follow dir [] = Ok (At dir DirNode).
Proof. by destruct links. Qed.

Lemma node_at_snoc fs d n : node_at fs (d ++ [n]) = ft_nodes fs !! (d ++ [n]).
Proof. by destruct d. Qed.

(** Every node of [fs] is in [fs']. *)
Definition nodes_kept fs fs' : Prop := ft_nodes fs ⊆ ft_nodes fs'.

#[export] Instance nodes_kept_preorder : PreOrder nodes_kept.
Proof. unfold nodes_kept. split; [by intros fs|]. intros fs1 fs2 fs3 H1 H2. by etrans. Qed.

Lemma node_at_kept fs fs' path node :
  nodes_kept fs fs' → node_at fs path = Some node → node_at fs' path = Some node.
Proof. intros Hk. destruct path; [done|]. cbn. intros Hn. by eapply lookup_weaken. Qed.

Lemma walk_kept fs fs' links follow dir cs path node :
  nodes_kept fs fs' → walk links fs follow dir cs = Ok (At path node) →
  walk links fs' follow dir cs = Ok (At path node).
Proof.
  intros Hk. revert dir cs. induction links as [links IHl] using lt_wf_ind. intros dir cs. revert dir.
  induction cs as [|c cs IH]; intros dir; [by rewrite !walk_nil|]. rewrite !walk_cons.
  destruct c as [| | |name]; auto. cbv zeta.
  destruct (node_at fs (dir ++ [name])) as [node'|] eqn:E; [|by case_bool_decide].
  rewrite (node_at_kept _ _ _ _ Hk E). destruct node' as [|inode|target]; [auto|done|].
  destruct (_ && _); [done|]. destruct links as [|links]; [done|]. apply IHl. lia.
Qed.

(** What the name [n] denotes in the directory [d]. *)
Definition entry_place fs (d : list Name) (n : Name) : Place :=
  match node_at fs (d ++ [n]) with None => Missing (d ++ [n]) | Some node => At (d ++ [n]) node end.

Lemma walk_app links fs follow dir cs d rest :
  walk links fs true dir cs = Ok (At d DirNode) → rest ≠ [] →
  ∃ links', walk links fs follow dir (cs ++ rest) = walk links' fs follow d rest.
Proof.
  intros Hw Hr. revert dir cs Hw. induction links as [links IHl] using lt_wf_ind. intros dir cs. revert dir.
  induction cs as [|c cs IH]; intros dir; cbn [app].
  { rewrite walk_nil. intros [= ->]. eauto. }
  rewrite !walk_cons. destruct c as [| | |name]; auto. cbv zeta.
  assert (Hne : bool_decide (cs ++ rest = []) = false) by (apply bool_decide_eq_false_2; by destruct cs).
  destruct (node_at fs (dir ++ [name])) as [[|inode|target]|]; [auto|by destruct (bool_decide (cs = []))| |by destruct (bool_decide (cs = []))].
  rewrite Hne. cbn [negb]. rewrite andb_false_r. cbn [andb]. destruct links as [|links]; [done|]. intros Hw. rewrite app_assoc.
  apply IHl; [lia|done].
Qed.

(** The last name of a path that is not followed. *)
Lemma walk_snoc links fs dir cs n place :
  walk links fs false dir (cs ++ [Normal n]) = Ok place ↔
  ∃ d, walk links fs true dir cs = Ok (At d DirNode) ∧ place = entry_place fs d n.
Proof.
  assert (Hlast : ∀ links d, walk links fs false d [Normal n] = Ok (entry_place fs d n)).
  { intros l d. rewrite walk_cons. cbv zeta. unfold entry_place. destruct (node_at fs (d ++ [n])) as [[]|]; try done.
    by rewrite walk_nil. }
  split.
  2: { intros (d & Hw & ->). destruct (walk_app _ _ false _ _ _ [Normal n] Hw ltac:(done)) as [l ->]. apply Hlast. }
  revert dir cs. induction links as [links IHl] using lt_wf_ind. intros dir cs. revert dir.
  induction cs as [|c cs IH]; intros dir; cbn [app].
  { rewrite Hlast, walk_nil. intros [= <-]. eauto. }
  rewrite !walk_cons. destruct c as [| | |name]; auto. cbv zeta.
  rewrite (bool_decide_eq_false_2 (cs ++ [Normal n] = [])) by (by destruct cs). cbn [andb].
  destruct (node_at fs (dir ++ [name])) as [[|inode|target]|]; [auto|done| |done].
  cbn [negb]. rewrite andb_false_r. destruct links as [|links]; [done|]. rewrite app_assoc. apply IHl. lia.
Qed.

(** ** Well-formed trees *)

(** Every node is in a directory. *)
Record wf_files fs : Prop := {
  wf_root : ft_nodes fs !! [] = None;
  wf_parent d n node : ft_nodes fs !! (d ++ [n]) = Some node → node_at fs d = Some DirNode;
  wf_cwd : node_at fs (ft_cwd fs) = Some DirNode;
}.

Lemma wf_prefix fs d e node : wf_files fs → node_at fs (d ++ e) = Some node → e ≠ [] → node_at fs d = Some DirNode.
Proof.
  intros Hwf. revert node. induction e as [|n e IH] using rev_ind; [done|]. intros node Hn _.
  rewrite app_assoc, node_at_snoc in Hn. apply (wf_parent _ Hwf) in Hn.
  destruct (decide (e = [])) as [->|He]; [by rewrite app_nil_r in Hn|]. by eapply IH.
Qed.

Lemma wf_removelast fs d : wf_files fs → node_at fs d = Some DirNode → node_at fs (removelast d) = Some DirNode.
Proof.
  intros Hwf Hd. destruct (decide (d = [])) as [->|Hne]; [done|].
  apply (wf_prefix _ _ [List.last d []] DirNode Hwf); [|done]. by rewrite <-app_removelast_last.
Qed.

(** Where a path arrives. *)
Definition place_ok fs (place : Place) : Prop :=
  match place with
  | At path node => node_at fs path = Some node
  | Missing path => node_at fs path = None ∧ ∃ d n, path = d ++ [n] ∧ node_at fs d = Some DirNode
  end.

Lemma walk_place fs links follow dir cs place :
  wf_files fs → node_at fs dir = Some DirNode → walk links fs follow dir cs = Ok place → place_ok fs place.
Proof.
  intros Hwf. revert dir cs. induction links as [links IHl] using lt_wf_ind. intros dir cs. revert dir.
  induction cs as [|c cs IH]; intros dir Hd.
  { rewrite walk_nil. by intros [= <-]. }
  rewrite walk_cons. destruct c as [| | |name]; [by apply IH|by apply IH|by apply IH, wf_removelast|]. cbv zeta.
  destruct (node_at fs (dir ++ [name])) as [[|inode|target]|] eqn:E.
  - by apply IH.
  - case_bool_decide; [|done]. by intros [= <-].
  - destruct (_ && _); [by intros [= <-]|]. destruct links as [|links]; [done|]. apply IHl; [lia|done].
  - case_bool_decide; [|done]. intros [= <-]. cbn. eauto.
Qed.

Lemma resolve_place_ok fs follow path place :
  wf_files fs → resolve_place fs follow path = Ok place → place_ok fs place.
Proof.
  intros Hwf. unfold resolve_place. case_bool_decide; [done|]. apply walk_place; [done|by apply wf_cwd].
Qed.

(** A name in a directory that a path leads to. *)
Lemma resolve_in fs1 fs above dir path n place :
  walk MAXSYMLINKS fs1 true (ft_cwd fs1) above = Ok (At dir DirNode) →
  nodes_kept fs1 fs → ft_cwd fs = ft_cwd fs1 → path ≠ [] → path_components path = above ++ [Normal n] →
  resolve_place fs false path = Ok place ↔ place = entry_place fs dir n.
Proof.
  intros Hdir Hk Hc Hp Hpc. unfold resolve_place. rewrite bool_decide_eq_false_2, Hpc, Hc, walk_snoc by done.
  rewrite (walk_kept _ _ _ _ _ _ _ _ Hk Hdir). split; [by intros (d & [= ->] & ->)|eauto].
Qed.

(** The name is followed only if it is a link. *)
Lemma walk_snoc_node links fs follow dir cs d n node :
  walk links fs true dir cs = Ok (At d DirNode) → node_at fs (d ++ [n]) = Some node →
  (∀ target, node ≠ LinkNode target) →
  walk links fs follow dir (cs ++ [Normal n]) = Ok (At (d ++ [n]) node).
Proof.
  intros Hw Hn Hl. destruct (walk_app _ _ follow _ _ _ [Normal n] Hw ltac:(done)) as [l ->].
  rewrite walk_cons. cbv zeta. rewrite Hn. destruct node as [|inode|target]; [by rewrite walk_nil|done|].
  by destruct (Hl target).
Qed.

Lemma walk_follow links fs dir cs p node :
  walk links fs false dir cs = Ok (At p node) → (∀ target, node ≠ LinkNode target) →
  walk links fs true dir cs = Ok (At p node).
Proof.
  intros Hw Hl. revert dir cs Hw. induction links as [links IHl] using lt_wf_ind. intros dir cs. revert dir.
  induction cs as [|c cs IH]; intros dir; [by rewrite !walk_nil|]. rewrite !walk_cons.
  destruct c as [| | |name]; auto. cbv zeta.
  destruct (node_at fs (dir ++ [name])) as [[|inode|target]|]; auto. cbn [negb].
  rewrite andb_false_r, andb_true_r. case_bool_decide as Hb.
  - intros [= <- <-]. by destruct (Hl target).
  - destruct links as [|links]; [done|]. apply IHl. lia.
Qed.

(** The missing entry becomes a directory. *)
Lemma walk_made links fs follow dir cs at_ :
  wf_files fs → node_at fs dir = Some DirNode → walk links fs false dir cs = Ok (Missing at_) →
  walk links (set_node fs at_ DirNode) follow dir cs = Ok (At at_ DirNode).
Proof.
  intros Hwf Hd Hw. destruct (walk_place _ _ _ _ _ _ Hwf Hd Hw) as (Hn & d & n & -> & _).
  assert (Hk : nodes_kept fs (set_node fs (d ++ [n]) DirNode)).
  { apply insert_subseteq. by rewrite node_at_snoc in Hn. }
  clear Hd. revert dir cs Hw. induction links as [links IHl] using lt_wf_ind. intros dir cs. revert dir.
  induction cs as [|c cs IH]; intros dir; [by rewrite walk_nil|]. rewrite !walk_cons.
  destruct c as [| | |name]; auto. cbv zeta.
  destruct (node_at fs (dir ++ [name])) as [node|] eqn:E.
  - rewrite (node_at_kept _ _ _ _ Hk E). destruct node as [|inode|target]; [auto|by case_bool_decide|].
    cbn [negb]. rewrite andb_true_r. case_bool_decide as Hb; [done|]. cbn [andb].
    destruct links as [|links]; [done|]. apply IHl. lia.
  - case_bool_decide as Hb; [|done]. intros [= He]. rewrite He.
    rewrite (node_at_snoc _ d n). cbn [set_node ft_nodes]. rewrite lookup_insert_eq. by subst cs; rewrite walk_nil.
Qed.

(** ** Plain names below a directory *)

(** No nonempty prefix of [ns] below [S] is a link, [ns] itself apart unless
    [full]. *)
Definition links_clear fs (S : list Name) (ns : list Name) (full : bool) : Prop :=
  ∀ q k target, q ≠ [] → ns = q ++ k → (full = true ∨ k ≠ []) → ft_nodes fs !! (S ++ q) ≠ Some (LinkNode target).

Lemma walk_names fs links follow S ns place :
  ns ≠ [] → links_clear fs S ns follow → walk links fs follow S (map Normal ns) = Ok place →
  place = match node_at fs (S ++ ns) with None => Missing (S ++ ns) | Some node => At (S ++ ns) node end.
Proof.
  revert S. induction ns as [|n ns IH]; intros S Hne Hc; [done|]. cbn [map]. rewrite walk_cons. cbv zeta.
  assert (Hs : S ++ n :: ns = (S ++ [n]) ++ ns) by by rewrite <-app_assoc.
  assert (Hb : bool_decide (map Normal ns = []) = bool_decide (ns = [])) by (by destruct ns).
  rewrite Hb, Hs. destruct (decide (ns = [])) as [->|Hns].
  - rewrite bool_decide_eq_true_2, app_nil_r by done. cbn [map].
    destruct (node_at fs (S ++ [n])) as [[|inode|target]|] eqn:E;
      [rewrite walk_nil; by intros [= <-]|by intros [= <-]| |by intros [= <-]].
    destruct follow; [|by intros [= <-]]. rewrite node_at_snoc in E.
    destruct (Hc [n] [] target); [done|done|by left|done].
  - rewrite bool_decide_eq_false_2 by done. cbn [andb].
    destruct (node_at fs (S ++ [n])) as [[|inode|target]|] eqn:E; [|done| |done].
    + apply IH; [done|]. intros q k target Hq -> Hk Hl.
      apply (Hc (n :: q) k target); [done..|]. by rewrite <-app_assoc in Hl.
    + rewrite node_at_snoc in E. destruct (Hc [n] ns target); [done|done|by right|done].
Qed.
End walk.
