(* ===== verification/FileGrowth.v ===== *)
(** * Trees that grow

    A small Hoare logic for computations on the file tree, the calls' rules in
    it, and the growth of a tree: what [create_dir_all] and the other creating
    calls add, and that they keep everything else. *)

From S2P Require Import Prelude Core Effects Bytes Paths FileTree FileWalk.

(** ** Growth *)

(** [fs'] is [fs] with new inodes and new nodes that satisfy [D]. *)
Record added (D : list Name → Node → Prop) (fs fs' : Files) : Prop := {
  added_nodes : nodes_kept fs fs';
  added_new key node : ft_nodes fs' !! key = Some node → ft_nodes fs !! key = Some node ∨ D key node;
  added_inodes : ft_inodes fs ⊆ ft_inodes fs';
  added_cwd : ft_cwd fs' = ft_cwd fs;
  added_wf : wf_files fs → wf_files fs';
}.

Lemma added_refl D fs : added D fs fs.
Proof. by split; auto. Qed.

Lemma added_trans D fs1 fs2 fs3 : added D fs1 fs2 → added D fs2 fs3 → added D fs1 fs3.
Proof.
  intros [Hn1 Hk1 Hi1 Hc1 Hw1] [Hn2 Hk2 Hi2 Hc2 Hw2]. split.
  - by etrans.
  - intros key node [Hk|]%Hk2; auto.
  - by etrans.
  - congruence.
  - auto.
Qed.

Lemma added_weaken (D D' : list Name → Node → Prop) fs fs' :
  (∀ key node, D key node → D' key node) → added D fs fs' → added D' fs fs'.
Proof. intros HD [Hn Hk Hi Hc Hw]. split; [done| |done..]. intros key node [?|?]%Hk; auto. Qed.

Lemma added_set_node (D : list Name → Node → Prop) fs d n node :
  node_at fs d = Some DirNode → node_at fs (d ++ [n]) = None → D (d ++ [n]) node →
  added D fs (set_node fs (d ++ [n]) node).
Proof.
  intros Hd Hnew HD. rewrite node_at_snoc in Hnew. split; [| |done|done|].
  - apply insert_subseteq. done.
  - cbn. intros key node' [[<- <-]|[_ ?]]%lookup_insert_Some; auto.
  - intros Hwf. assert (Hk : nodes_kept fs (set_node fs (d ++ [n]) node)) by by apply insert_subseteq.
    split; cbn.
    + rewrite lookup_insert_ne by by destruct d. by apply wf_root.
    + intros d' n' node' [[[-> ->]%app_inj_tail _]|[_ Hl]]%lookup_insert_Some.
      * by apply (node_at_kept fs).
      * apply (node_at_kept fs); [done|]. by eapply wf_parent.
    + apply (node_at_kept fs); [done|]. by apply wf_cwd.
Qed.

(** The inodes created since [fs] may change. *)
Lemma added_set_inode D fs fs' inode value :
  added D fs fs' → ft_inodes fs !! inode = None → added D fs (set_inode fs' inode value).
Proof.
  intros [Hn Hk Hi Hc Hw] Hnew. split; [done|done| |done|].
  - cbn. by apply insert_subseteq_r.
  - intros Hwf. destruct (Hw Hwf) as [Hr Hp Hd]. split; [done|exact Hp|exact Hd].
Qed.

(** ** A Hoare logic *)

Section triples.
Context {E : Type} `{Env E} `{Disturb E}.

(** From a tree that satisfies [P] a run of [m] returns [v] and a tree that
    satisfies [Q v], or it fails and the tree satisfies [X]. *)
Definition triple {A} (P : Files → Prop) (m : M (FS E) A) (Q : A → Files → Prop) (X : Files → Prop) : Prop :=
  ∀ s r s', P s.1 → m s = (r, s') → match r with Ok v => Q v s'.1 | Err _ => X s'.1 end.

Lemma triple_ret {A} (P X : Files → Prop) (v : A) (Q : A → Files → Prop) :
  (∀ fs, P fs → Q v fs) → triple P (mret v) Q X.
Proof. intros HQ s r s' HP [= <- <-]. auto. Qed.
Lemma triple_fail {A} (P X : Files → Prop) e (Q : A → Files → Prop) : (∀ fs, P fs → X fs) → triple P (fail e) Q X.
Proof. intros HX s r s' HP [= <- <-]. auto. Qed.
Lemma triple_bind {A B} P (m : M (FS E) A) Q (f : A → M (FS E) B) R X :
  triple P m Q X → (∀ v, triple (Q v) (f v) R X) → triple P (m ≫= f) R X.
Proof.
  intros Hm Hf s r s' HP. unfold mbind, M_bind. destruct (m s) as [[v|e] s1] eqn:E1.
  - apply Hf. exact (Hm _ _ _ HP E1).
  - intros [= <- <-]. exact (Hm _ _ _ HP E1).
Qed.
Lemma triple_conseq {A} (P P' : Files → Prop) (m : M (FS E) A) (Q Q' : A → Files → Prop) (X X' : Files → Prop) :
  triple P m Q X → (∀ fs, P' fs → P fs) → (∀ v fs, Q v fs → Q' v fs) → (∀ fs, X fs → X' fs) → triple P' m Q' X'.
Proof. intros Hm HP HQ HX s r s' HP' E1. specialize (Hm _ _ _ (HP _ HP') E1). destruct r; auto. Qed.
Lemma triple_pre {A} (P P' : Files → Prop) (m : M (FS E) A) Q X :
  triple P m Q X → (∀ fs, P' fs → P fs) → triple P' m Q X.
Proof. intros Hm HP. by eapply triple_conseq. Qed.
Lemma triple_catch {A} P (m : M (FS E) A) Q X Y handler :
  triple P m Q Y → (∀ e, triple Y (handler e) Q X) → triple P (catch m handler) Q X.
Proof.
  intros Hm Hh s r s' HP. unfold catch. destruct (m s) as [[v|e] s1] eqn:E1.
  - intros [= <- <-]. exact (Hm _ _ _ HP E1).
  - apply Hh. exact (Hm _ _ _ HP E1).
Qed.
Lemma triple_preserves {A} (P : Files → Prop) (m : M (FS E) A) (Q : A → Files → Prop) X :
  (∀ s, (m s).2.1 = s.1) → (∀ v fs, P fs → Q v fs) → (∀ fs, P fs → X fs) → triple P m Q X.
Proof. intros Hm HQ HX s r s' HP E1. specialize (Hm s). rewrite E1 in Hm. cbn in Hm. rewrite Hm. destruct r; auto. Qed.
Lemma triple_lift {A} (P X : Files → Prop) (r : Result A) :
  (∀ fs, P fs → X fs) → triple P (lift r) (λ v fs, r = Ok v ∧ P fs) X.
Proof. intros HX s r' s' HP [= -> <-]. destruct r'; auto. Qed.
Lemma triple_if {A} (b : bool) P (m1 m2 : M (FS E) A) Q X :
  (b = true → triple P m1 Q X) → (b = false → triple P m2 Q X) → triple P (if b then m1 else m2) Q X.
Proof. destruct b; auto. Qed.
Lemma triple_gen {A} (P : Files → Prop) (m : M (FS E) A) Q X :
  (∀ fs, P fs → triple (λ fs', fs' = fs) m Q X) → triple P m Q X.
Proof. intros Hm s r s' HP E1. by apply (Hm _ HP s r s'). Qed.

Lemma io_keeps s : (io s).2.1 = s.1.
Proof. unfold io. by destruct (io_fails s.2) as [[] e]. Qed.

#[export] Instance FS_unseen : Unseen (fst : FS E → Files).
Proof.
  split; intros.
  - cbn. by destruct (env_checkpoint s.2) as [r e].
  - cbn. by destruct (env_reserve n s.2) as [r e].
Qed.

Lemma triple_checkpoint (P X : Files → Prop) : (∀ fs, P fs → X fs) → triple P checkpoint (λ _, P) X.
Proof. intros HX. apply triple_preserves; [|auto|auto]. apply (preserves_checkpoint fst). Qed.
Lemma triple_io (P X : Files → Prop) : (∀ fs, P fs → X fs) → triple P io (λ _, P) X.
Proof. intros HX. apply triple_preserves; [apply io_keeps|auto|auto]. Qed.
Lemma triple_sync_all (P X : Files → Prop) : (∀ fs, P fs → X fs) → triple P sync_all (λ _, P) X.
Proof. apply triple_io. Qed.

Lemma triple_files (P X : Files → Prop) : triple P files (λ v fs, fs = v ∧ P v) X.
Proof. intros s r s' HP [= <- <-]. done. Qed.
Lemma triple_put (P X : Files → Prop) fs : triple (λ _, P fs) (put_files fs) (λ _, P) X.
Proof. intros s r s' HP [= <- <-]. done. Qed.

Lemma lift_io_Ok {A} (r : result ErrorKind A) (s s' : FS E) v : lift_io r s = (Ok v, s') → r = Ok v ∧ s' = s.
Proof. unfold lift_io. destruct r; by intros [= -> ->]. Qed.

Lemma triple_locate (P X : Files → Prop) follow path :
  (∀ fs, P fs → X fs) →
  triple P (locate follow path) (λ place fs, P fs ∧ resolve_place fs follow path = Ok place) X.
Proof.
  intros HX. eapply triple_bind; [by apply triple_io|]. intros ?. eapply triple_bind; [apply triple_files|].
  intros fs s r s' [Hs HP] E1. destruct r as [place|e].
  - apply lift_io_Ok in E1 as [? ->]. by rewrite Hs.
  - unfold lift_io, lift in E1. injection E1 as _ <-. rewrite Hs. auto.
Qed.

(** ** The creating calls *)

Lemma triple_create_dir (P X : Files → Prop) path :
  (∀ fs, P fs → X fs) →
  triple P (create_dir path)
    (λ _ fs', ∃ fs at_, P fs ∧ resolve_place fs false path = Ok (Missing at_) ∧ fs' = set_node fs at_ DirNode) X.
Proof.
  intros HX. eapply triple_bind; [by apply triple_locate|]. intros [|at_]; cbv beta.
  { apply triple_fail. naive_solver. }
  apply triple_gen. intros fs [HP Hr]. eapply triple_bind; [apply triple_files|]. intros v.
  intros s r s' [Hs <-] [= <- <-]. cbn. eauto.
Qed.

Lemma triple_create_new (P X : Files → Prop) path :
  (∀ fs, P fs → X fs) →
  triple P (create_new path)
    (λ inode fs', ∃ fs at_, P fs ∧ resolve_place fs false path = Ok (Missing at_) ∧ inode = fresh_inode fs ∧
       fs' = set_inode (set_node fs at_ (FileNode inode)) inode {| in_content := []; in_mode := None |}) X.
Proof.
  intros HX. eapply triple_bind; [by apply triple_locate|]. intros [|at_]; cbv beta.
  { apply triple_fail. naive_solver. }
  apply triple_gen. intros fs [HP Hr]. eapply triple_bind; [apply triple_files|]. intros v.
  intros s r s' [Hs <-] [= <- <-]. cbn. exists v, at_. eauto.
Qed.

Lemma triple_write_all (P X : Files → Prop) inode bytes :
  (∀ fs, P fs → X fs) →
  triple P (file_write_all inode bytes)
    (λ _ fs', ∃ fs value, P fs ∧ ft_inodes fs !! inode = Some value ∧
       fs' = set_inode fs inode {| in_content := in_content value ++ bytes; in_mode := in_mode value |}) X.
Proof.
  intros HX. eapply triple_bind; [by apply triple_io|]. intros ?. eapply triple_bind; [apply triple_files|].
  intros fs. cbv beta. destruct (ft_inodes fs !! inode) as [value|] eqn:Hv.
  - intros s r s' [Hs HP] [= <- <-]. cbn. eauto.
  - apply triple_fail. intros ? [-> HP]. auto.
Qed.

Lemma triple_hard_link (P X : Files → Prop) original link :
  (∀ fs, P fs → X fs) →
  triple P (hard_link original link)
    (λ _ fs', ∃ fs path node at_, P fs ∧ resolve_place fs false original = Ok (At path node) ∧ node ≠ DirNode ∧
       resolve_place fs false link = Ok (Missing at_) ∧ fs' = set_node fs at_ node) X.
Proof.
  intros HX. eapply triple_bind; [by apply triple_locate|]. intros source.
  eapply triple_bind; [apply triple_locate; naive_solver|]. intros place. cbv beta.
  destruct source as [path [|inode|target]|]; try (apply triple_fail; naive_solver);
    (destruct place as [|at_]; [apply triple_fail; naive_solver|]);
    intros s r s' [[HP Hs] Hl] [= <- <-]; cbn; eauto 10.
Qed.

Lemma triple_symlink (P X : Files → Prop) target link :
  (∀ fs, P fs → X fs) →
  triple P (symlink target link)
    (λ _ fs', ∃ fs at_, P fs ∧ resolve_place fs false link = Ok (Missing at_) ∧
       fs' = set_node fs at_ (LinkNode target)) X.
Proof.
  intros HX. eapply triple_bind; [by apply triple_locate|]. intros [|at_]; cbv beta.
  { apply triple_fail. naive_solver. }
  intros s r s' [HP Hr] [= <- <-]. cbn. eauto.
Qed.

Lemma triple_set_permissions (P X : Files → Prop) path mode :
  (∀ fs, P fs → X fs) →
  triple P (set_permissions path mode)
    (λ _ fs', ∃ fs at_ node, P fs ∧ resolve_place fs true path = Ok (At at_ node) ∧
       fs' = match node with
             | FileNode inode => default fs ((λ value, set_inode fs inode
                 {| in_content := in_content value; in_mode := Some mode |}) <$> ft_inodes fs !! inode)
             | _ => fs
             end) X.
Proof.
  intros HX. eapply triple_bind; [by apply triple_locate|]. intros place. eapply triple_bind; [apply triple_files|].
  intros fs. cbv beta. destruct place as [at_ node|]; [|apply triple_fail; naive_solver].
  destruct node as [|inode|target].
  - apply triple_ret. intros ? [-> [? ?]]. eauto 10.
  - destruct (ft_inodes fs !! inode) as [value|] eqn:Hv; [|apply triple_fail; naive_solver].
    intros s r s' [Hs [HP Hr]] [= <- <-]. cbn. exists fs, at_, (FileNode inode). by rewrite Hv.
  - apply triple_ret. intros ? [-> [? ?]]. eauto 10.
Qed.

Lemma triple_open_dir (P X : Files → Prop) path :
  (∀ fs, P fs → X fs) →
  triple P (open_dir path)
    (λ _ fs, P fs ∧ ∃ at_ node, resolve_place fs true path = Ok (At at_ node)) X.
Proof.
  intros HX. eapply triple_bind; [by apply triple_locate|].
  intros [at_ node|]; [apply triple_ret|apply triple_fail]; naive_solver.
Qed.

Lemma triple_path_is_dir (P X : Files → Prop) path :
  triple P (path_is_dir path)
    (λ b fs, P fs ∧ (b = true → ∃ at_, resolve_place fs true path = Ok (At at_ DirNode))) X.
Proof.
  intros s r s' HP. unfold path_is_dir. destruct (locate true path s) as [r1 s1] eqn:E1.
  pose proof (triple_locate P P true path ltac:(done) _ _ _ HP E1) as Hl.
  destruct r1 as [[at_ [|inode|target]|]|]; intros [= <- <-]; cbn in *; naive_solver.
Qed.

Lemma triple_or_is_dir (P X : Files → Prop) path e :
  (∀ fs, P fs → X fs) →
  triple P (or_is_dir path e) (λ _ fs, P fs ∧ ∃ at_, resolve_place fs true path = Ok (At at_ DirNode)) X.
Proof.
  intros HX. eapply triple_bind; [apply triple_path_is_dir|]. intros [|]; [apply triple_ret|apply triple_fail]; naive_solver.
Qed.

(** ** [create_dir_all] *)

Lemma Path_parent_prefix path parent :
  Path_parent path = Some parent → path_components parent `prefix_of` path_components path.
Proof.
  intros Hp. destruct (path_components path) as [|c cs _] eqn:Ec using rev_ind.
  { unfold Path_parent in Hp. by rewrite Ec in Hp. }
  destruct (decide (c = RootDir)) as [->|Hc].
  { unfold Path_parent in Hp. by rewrite Ec, last_snoc in Hp. }
  destruct (Path_parent_snoc _ _ _ Ec Hc) as [Hp' Hcs]. rewrite Hp' in Hp. injection Hp as <-.
  rewrite Hcs. by eexists.
Qed.

(** The directories it creates are the path and its ancestors. *)
Lemma triple_create_dir_all (I : Files → Prop) (final : Files → Prop) path :
  (∀ path' fs at_, path' ≠ [] → path_components path' `prefix_of` path_components path → I fs →
    resolve_place fs false path' = Ok (Missing at_) → I (set_node fs at_ DirNode)) →
  (∀ fs at_, I fs → resolve_place fs false path = Ok (Missing at_) → final (set_node fs at_ DirNode)) →
  (∀ fs at_, I fs → resolve_place fs true path = Ok (At at_ DirNode) → final fs) →
  triple I (create_dir_all path) (λ _ fs, I fs ∧ (path ≠ [] → final fs)) I.
Proof.
  unfold create_dir_all. generalize (length (path_components path)) as fuel. intros fuel.
  revert path final. induction fuel as [|fuel IH]; intros path final Hstep Hmade Hdir; cbn [create_dir_all_loop].
  all: case_bool_decide as Hp; [by apply triple_ret|].
  all: assert (Hcreate : triple I (create_dir path) (λ _ fs, I fs ∧ (path ≠ [] → final fs)) I) by
    (eapply triple_conseq; [by apply triple_create_dir|done| |done];
     intros ? fs' (fs & at_ & HI & Hr & ->); split; [by eapply Hstep|intros _; by eapply Hmade]).
  all: assert (Hor : ∀ e, triple I (or_is_dir path e) (λ _ fs, I fs ∧ (path ≠ [] → final fs)) I) by
    (intros e; eapply triple_conseq; [by apply (triple_or_is_dir I I)|done| |done];
     intros ? fs' (HI & at_ & Hr); split; [done|intros _; by eapply Hdir]).
  all: eapply triple_catch; [exact Hcreate|]; intros e; destruct (negb _); [apply Hor|].
  all: destruct (Path_parent path) as [parent|] eqn:Hpp; [|by apply triple_fail].
  { by apply triple_fail. }
  eapply triple_bind.
  - apply (IH parent (λ _, True)); [|done..]. intros path' fs at_ Hne Hpre. apply Hstep; [done|].
    etrans; [exact Hpre|by apply Path_parent_prefix].
  - intros ?. eapply triple_pre; [by eapply triple_catch|]. by intros fs [? _].
Qed.

(** The fuel of [create_dir_all] is enough: more changes nothing. *)
Lemma components_nil path : path_components path = [] → path = [].
Proof.
  destruct path as [|b path]; [done|]. unfold path_components. cbn [head].
  destruct (decide (Some b = Some slash)) as [|Hb]; [done|].
  assert (Hf : ∃ part parts, split_slash (b :: path) = (b :: part) :: parts).
  { cbn. rewrite decide_False by congruence. pose proof (split_nonempty path). destruct (split_slash path); eauto. }
  destruct Hf as (part & parts & ->). destruct (decide _) as [|Hd]; [done|]. unfold parse_part.
  destruct (decide (b :: part = [])); [done|]. destruct (decide (b :: part = dot)); [done|]. by destruct (decide _).
Qed.

Lemma create_dir_all_fuel fuel path s :
  (length (path_components path) <= fuel)%nat →
  create_dir_all_loop (S fuel) path s = create_dir_all_loop fuel path s.
Proof.
  revert path s. induction fuel as [|fuel IH]; intros path s Hf.
  { assert (path = []) as ->; [|done]. apply components_nil. by destruct (path_components path); [|cbn in Hf; lia]. }
  cbn [create_dir_all_loop]. case_bool_decide; [done|].
  unfold catch. destruct (create_dir path s) as [[u|e] s1]; [done|]. destruct (negb _); [done|].
  destruct (Path_parent path) as [parent|] eqn:Hp; [|done].
  assert (Hl : (length (path_components parent) <= fuel)%nat).
  { destruct (path_components path) as [|c cs _] eqn:Ec using rev_ind; [unfold Path_parent in Hp; by rewrite Ec in Hp|].
    destruct (decide (c = RootDir)) as [->|Hc]; [unfold Path_parent in Hp; by rewrite Ec, last_snoc in Hp|].
    destruct (Path_parent_snoc _ _ _ Ec Hc) as [Hp' Hcs]. rewrite Hp' in Hp. injection Hp as <-.
    rewrite Hcs. rewrite length_app in Hf. cbn in Hf. lia. }
  unfold mbind, M_bind. by rewrite <-(IH parent s1 Hl).
Qed.
End triples.
