(* ===== verification/FileMove.v ===== *)
(** * Renaming and removing directories

    What [move_nodes] and [remove_nodes] leave, and the rules of the calls
    that use them. *)

From S2P Require Import Prelude Core Effects Bytes Paths FileTree FileWalk FileGrowth.

(** [key] is [path] or below it. *)
Definition under (path key : list Name) : Prop := ∃ q, key = path ++ q.

Lemma under_take path key : take (length path) key = path ↔ under path key.
Proof.
  split.
  - intros Ht. exists (drop (length path) key). rewrite <-Ht at 1. by rewrite take_drop.
  - intros [q ->]. by rewrite take_app_length.
Qed.

Lemma remove_lookup fs path key :
  ft_nodes (remove_nodes fs path) !! key = if bool_decide (take (length path) key = path) then None else ft_nodes fs !! key.
Proof.
  cbn. case_bool_decide as Ht.
  - apply map_lookup_filter_None. right. intros node Hl. cbn. tauto.
  - destruct (ft_nodes fs !! key) as [node|] eqn:Hl.
    + by apply map_lookup_filter_Some.
    + apply map_lookup_filter_None. by left.
Qed.

Lemma remove_lookup_other fs path key : ¬ under path key → ft_nodes (remove_nodes fs path) !! key = ft_nodes fs !! key.
Proof. intros Hu. rewrite remove_lookup, bool_decide_eq_false_2; [done|]. by rewrite under_take. Qed.

(** Moving to a place with nothing at or below it. *)
Lemma move_lookup fs path path' key node :
  (∀ q, ft_nodes fs !! (path' ++ q) = None) →
  ft_nodes (move_nodes fs path path') !! key = Some node ↔
  (∃ q, key = path' ++ q ∧ ft_nodes fs !! (path ++ q) = Some node) ∨
  (¬ under path key ∧ ft_nodes fs !! key = Some node).
Proof.
  intros Hfree. cbn.
  assert (Hmoved : ∀ k, (∃ q, k = path ++ q ∧ moved_key path path' k = path' ++ q) ∨ (¬ under path k ∧ moved_key path path' k = k)).
  { intros k. unfold moved_key. case_bool_decide as Ht; rewrite under_take in Ht; [left|by right].
    destruct Ht as [q ->]. exists q. by rewrite drop_app_length. }
  rewrite <-elem_of_list_to_map.
  - rewrite list_elem_of_fmap. split.
    + intros ([k nd] & Heq & Hl%elem_of_map_to_list). cbn in Heq. injection Heq as -> ->.
      destruct (Hmoved k) as [(q & -> & ->)|[Hu ->]]; eauto.
    + intros [(q & -> & Hl)|[Hu Hl]].
      * exists (path ++ q, node). split; [|by apply elem_of_map_to_list]. cbn. f_equal.
        destruct (Hmoved (path ++ q)) as [(q' & Hq & ->)|[Hu _]]; [|by destruct Hu; eexists].
        by apply (inj (app path)) in Hq as ->.
      * exists (key, node). split; [|by apply elem_of_map_to_list]. cbn. f_equal.
        by destruct (Hmoved key) as [(q & -> & _)|[_ ->]]; [destruct Hu; eexists|].
  - rewrite <-list_fmap_compose. apply NoDup_fmap_2_strong; [|apply NoDup_map_to_list].
    intros [k1 n1] [k2 n2] Hl1%elem_of_map_to_list Hl2%elem_of_map_to_list. cbn. intros Heq.
    assert (Hk : k1 = k2).
    { destruct (Hmoved k1) as [(q1 & -> & Hm1)|[_ Hm1]], (Hmoved k2) as [(q2 & -> & Hm2)|[_ Hm2]];
        rewrite Hm1, Hm2 in Heq.
      - by apply (inj (app path')) in Heq as ->.
      - subst k2. by rewrite Hfree in Hl2.
      - subst k1. by rewrite Hfree in Hl1.
      - done. }
    subst k2. rewrite Hl1 in Hl2. by injection Hl2 as ->.
Qed.

(** The directory [path] of [fs] is at [path'] in [fs'], where there was
    nothing or an empty directory. *)
Record moved (fs : Files) (path path' : list Name) (fs' : Files) : Prop := {
  moved_free q node : ft_nodes fs !! (path' ++ q) = Some node → q = [] ∧ node = DirNode;
  moved_tree q node : ft_nodes fs' !! (path' ++ q) = Some node ↔ ft_nodes fs !! (path ++ q) = Some node;
  moved_gone q : ft_nodes fs' !! (path ++ q) = None;
  moved_other key : ¬ under path key → ¬ under path' key → ft_nodes fs' !! key = ft_nodes fs !! key;
  moved_inodes : ft_inodes fs' = ft_inodes fs;
  moved_cwd : ft_cwd fs' = ft_cwd fs;
}.

Lemma is_empty_dir_true fs path q node :
  is_empty_dir fs path = true → ft_nodes fs !! (path ++ q) = Some node → q = [].
Proof.
  unfold is_empty_dir. rewrite forallb_forall. intros He Hl%elem_of_map_to_list%list_elem_of_In.
  specialize (He _ Hl). cbn in He. rewrite take_app_length, bool_decide_eq_true_2 in He by done. cbn in He.
  apply bool_decide_eq_true in He. rewrite <-(app_nil_r path) in He at 2. by apply (inj (app path)) in He.
Qed.

Lemma missing_below_missing fs path q : wf_files fs → node_at fs path = None → ft_nodes fs !! (path ++ q) = None.
Proof.
  intros Hwf Hn. destruct (decide (q = [])) as [->|Hq].
  { rewrite app_nil_r. by destruct path. }
  destruct (ft_nodes fs !! (path ++ q)) as [node|] eqn:Hl; [|done].
  assert (Hd : node_at fs path = Some DirNode); [|congruence].
  apply (wf_prefix _ _ q node Hwf); [|done]. by destruct (path ++ q) eqn:Hk; [apply app_eq_nil in Hk as [_ ?]|].
Qed.

Lemma rename_moved fs base path' fs1 path :
  path ≠ path' → (∀ q node, ft_nodes fs !! (path' ++ q) = Some node → q = [] ∧ node = DirNode) →
  ¬ under path path' → ¬ under path' path →
  (∀ q, ft_nodes base !! (path' ++ q) = None) →
  (∀ key, ¬ under path' key → ft_nodes base !! key = ft_nodes fs !! key) →
  ft_inodes base = ft_inodes fs → ft_cwd base = ft_cwd fs →
  fs1 = move_nodes base path path' → moved fs path path' fs1.
Proof.
  intros Hne Hfree Hu Hu' Hnone Hsame Hi Hc ->.
  assert (Hdisj : ∀ q q', path ++ q ≠ path' ++ q').
  { intros q q' He. destruct (app_eq_inv _ _ _ _ He) as [(k & Hk & _)|(k & Hk & _)]; [by apply Hu'; eexists|by apply Hu; eexists]. }
  assert (Hbase : ∀ q, ft_nodes base !! (path ++ q) = ft_nodes fs !! (path ++ q)).
  { intros q. apply Hsame. intros [q' Hq]. by eapply Hdisj. }
  split; [done| | | |done|done].
  - intros q node. rewrite move_lookup by done. rewrite <-Hbase. split.
    + intros [(q' & Hq%(inj (app path')) & Hl)|[_ Hl]]; [by subst|by rewrite Hnone in Hl].
    + intros Hl. left. eauto.
  - intros q. apply eq_None_not_Some. intros [node Hl]. apply move_lookup in Hl as [(q' & Hq & _)|[Hn _]]; [|by destruct Hn; eexists|done].
    by eapply Hdisj.
  - intros key Hk Hk'. apply option_eq. intros node. rewrite move_lookup, <-(Hsame key Hk') by done. split.
    + intros [(q & -> & _)|[_ ?]]; [by destruct Hk'; eexists|done].
    + intros ?. by right.
Qed.

Section calls.
Context {E : Type} `{Env E} `{Disturb E}.

Lemma triple_rename_dir (P X : Files → Prop) from to :
  (∀ fs, P fs → wf_files fs) → (∀ fs, P fs → X fs) →
  triple P (rename_dir from to)
    (λ _ fs', ∃ fs path path', P fs ∧ resolve_place fs false from = Ok (At path DirNode) ∧
       (resolve_place fs false to = Ok (Missing path') ∨ resolve_place fs false to = Ok (At path' DirNode)) ∧
       (path' = path ∨ under path' path ∨ moved fs path path' fs')) X.
Proof.
  intros Hwf HX. eapply triple_bind; [by apply triple_locate|]. intros source.
  eapply triple_bind; [apply triple_locate; naive_solver|]. intros place.
  eapply triple_bind; [apply triple_files|]. intros fs. cbv beta.
  destruct source as [path [|inode|target]|]; try (apply triple_fail; naive_solver).
  destruct place as [path' [|inode|target]|path']; try (apply triple_fail; naive_solver).
  - case_bool_decide as Heq; [apply triple_ret; intros ? (-> & [HP Hs] & Hp); eauto 10|].
    destruct (_ || _) eqn:Hg; [apply triple_fail; naive_solver|].
    apply orb_false_iff in Hg as [Hu%bool_decide_eq_false He%negb_false_iff]. rewrite under_take in Hu.
    intros s r s' [Hfs [[HP Hs] Hp]] [= <- <-]. cbn. exists fs, path, path'. do 2 (split; [done|]). split; [by right|].
    destruct (decide (take (length path') path = path')) as [Hu'|Hu']; rewrite under_take in Hu'; [by right; left|].
    right. right. pose proof (resolve_place_ok _ _ _ _ (Hwf _ HP) Hp) as Hn. cbn in Hn.
    apply (rename_moved fs (remove_nodes fs path')); [done| |done|done| | |done|done|reflexivity].
    + intros q node Hl. pose proof (is_empty_dir_true _ _ _ _ He Hl) as ->. split; [done|].
      rewrite app_nil_r in Hl. destruct path'; [|cbn in Hn; congruence]. by rewrite (wf_root _ (Hwf _ HP)) in Hl.
    + intros q. rewrite remove_lookup, bool_decide_eq_true_2; [done|]. by rewrite take_app_length.
    + intros key Hk. by apply remove_lookup_other.
  - case_bool_decide as Hu; [apply triple_fail; naive_solver|]. rewrite under_take in Hu.
    intros s r s' [Hfs [[HP Hs] Hp]] [= <- <-]. cbn. exists fs, path, path'. do 2 (split; [done|]). split; [by left|].
    destruct (decide (take (length path') path = path')) as [Hu'|Hu']; rewrite under_take in Hu'; [by right; left|].
    right. right. pose proof (resolve_place_ok _ _ _ _ (Hwf _ HP) Hp) as [Hn _].
    pose proof (λ q, missing_below_missing fs path' q (Hwf _ HP) Hn) as Hnone.
    eapply (rename_moved _ fs); try done; [by intros ->; destruct Hu; exists []; rewrite app_nil_r|].
    intros q node. by rewrite Hnone.
Qed.

(** The drop of the temporary directory. *)
Lemma with_tempdir_run {A} path (body : M (FS E) A) s r s' :
  with_tempdir path body s = (r, s') →
  ∃ s1, body s = (r, s1) ∧
    (s'.1 = s1.1 ∨ ∃ at_, resolve_place s1.1 false path = Ok (At at_ DirNode) ∧ s'.1 = remove_nodes s1.1 at_).
Proof.
  unfold with_tempdir. destruct (body s) as [r1 s1]. destruct (remove_dir_all path s1) as [r2 s2] eqn:E2.
  intros [= <- <-]. exists s1. split; [done|].
  assert (Ht : triple (λ fs, fs = s1.1) (remove_dir_all path)
    (λ _ fs', ∃ at_, resolve_place s1.1 false path = Ok (At at_ DirNode) ∧ fs' = remove_nodes s1.1 at_) (λ fs, fs = s1.1)).
  { eapply triple_bind; [by apply triple_locate|]. intros place.
    destruct place as [at_ [|inode|target]|]; try (apply triple_fail; naive_solver).
    eapply triple_bind; [apply triple_files|]. intros fs. intros s0 r0 s0' [Hs0 [Hfs Hr]] [= <- <-]. cbn.
    exists at_. by rewrite <-Hfs. }
  specialize (Ht s1 r2 s2 eq_refl E2). destruct r2; [by right|by left].
Qed.

(** ** Temporary files *)

Lemma triple_tempfile_in `{!DisturbLaws E} (P X : Files → Prop) parent :
  (∀ fs, P fs → X fs) →
  triple P (tempfile_in parent)
    (λ spool fs', ∃ fs name at_, P fs ∧ slash ∉ name ∧
       spool.1 = path_push parent (String.list_byte_of_string ".tmp" ++ name) ∧
       resolve_place fs false spool.1 = Ok (Missing at_) ∧ spool.2 = fresh_inode fs ∧
       fs' = set_inode (set_node fs at_ (FileNode spool.2)) spool.2 {| in_content := []; in_mode := None |}) X.
Proof.
  intros HX. eapply (triple_bind _ _ (λ name fs, slash ∉ name ∧ P fs)).
  { intros s r s' HP Hr. pose proof (temporary_name_plain s.2) as Hn.
    destruct (temporary_name s.2) as [name e] eqn:Ht. injection Hr as <- <-. done. }
  intros name. eapply triple_bind; [apply triple_create_new; naive_solver|]. intros inode.
  apply triple_ret. intros fs' (fs & at_ & [Hn HP] & Hr & -> & ->). by exists fs, name, at_.
Qed.

Lemma triple_persist (P X : Files → Prop) from to :
  (∀ fs, P fs → X fs) →
  triple P (persist_noclobber from to)
    (λ _ fs', ∃ fs path node path', P fs ∧ resolve_place fs false from = Ok (At path node) ∧
       resolve_place fs false to = Ok (Missing path') ∧
       fs' = {| ft_nodes := <[path' := node]> (delete path (ft_nodes fs)); ft_inodes := ft_inodes fs;
                ft_cwd := ft_cwd fs |}) X.
Proof.
  intros HX. eapply triple_bind; [by apply triple_locate|]. intros source.
  eapply triple_bind; [apply triple_locate; naive_solver|]. intros place.
  destruct source as [path node|], place as [|path']; try (apply triple_fail; naive_solver).
  eapply triple_bind; [apply triple_files|]. intros fs.
  intros s r s' [Hfs [[HP Hs] Hp]] [= <- <-]. cbn. by exists fs, path, node, path'.
Qed.

(** The drop of the temporary file. *)
Lemma triple_with_tempfile {A} P (body : M (FS E) A) Q X path :
  triple P body Q X →
  let dropped (fs fs' : Files) := fs' = fs ∨
    ∃ at_ node, resolve_place fs false path = Ok (At at_ node) ∧ node ≠ DirNode ∧
      fs' = {| ft_nodes := delete at_ (ft_nodes fs); ft_inodes := ft_inodes fs; ft_cwd := ft_cwd fs |} in
  triple P (with_tempfile path body) (λ v fs', ∃ fs, Q v fs ∧ dropped fs fs') (λ fs', ∃ fs, X fs ∧ dropped fs fs').
Proof.
  intros Hb dropped s r s' HP. unfold with_tempfile. destruct (body s) as [r1 s1] eqn:E1.
  destruct (remove_file path s1) as [r2 s2] eqn:E2. intros [= <- <-]. specialize (Hb _ _ _ HP E1).
  assert (Ht : triple (λ fs, fs = s1.1) (remove_file path) (λ _ fs', dropped s1.1 fs') (λ fs, fs = s1.1)).
  { eapply triple_bind; [by apply triple_locate|]. intros place.
    destruct place as [at_ [|inode|target]|]; try (apply triple_fail; naive_solver).
    all: eapply triple_bind; [apply triple_files|]; intros fs s0 r0 s0' [Hs0 [Hfs Hr]] [= <- <-]; cbn.
    all: right; eexists at_, _; rewrite <-Hfs; split; [exact Hr|done]. }
  specialize (Ht s1 r2 s2 eq_refl E2).
  assert (Hd : dropped s1.1 s2.1) by (destruct r2; [exact Ht|by left]).
  destruct r1; by exists s1.1.
Qed.
End calls.

(** ** Deleting and renaming files that were added *)

Lemma delete_wf fs key node :
  wf_files fs → ft_nodes fs !! key = Some node → node ≠ DirNode → node_at fs (ft_cwd fs) = Some DirNode →
  wf_files {| ft_nodes := delete key (ft_nodes fs); ft_inodes := ft_inodes fs; ft_cwd := ft_cwd fs |}.
Proof.
  intros Hwf Hl Hn Hc.
  assert (Hdir : ∀ d, node_at fs d = Some DirNode → match d with [] => Some DirNode | _ => delete key (ft_nodes fs) !! d end = Some DirNode).
  { intros [|m d]; [done|]. cbn. intros Hd. rewrite lookup_delete_ne; [done|]. intros ->. congruence. }
  split; cbn.
  - rewrite lookup_delete_None. right. by apply wf_root.
  - intros d m node' [_ Hm]%lookup_delete_Some. apply Hdir. by eapply wf_parent.
  - by apply Hdir.
Qed.

Lemma added_delete D fs fs' key node :
  added D fs fs' → wf_files fs → ft_nodes fs !! key = None → ft_nodes fs' !! key = Some node → node ≠ DirNode →
  added (λ k nd, k ≠ key ∧ D k nd) fs {| ft_nodes := delete key (ft_nodes fs'); ft_inodes := ft_inodes fs'; ft_cwd := ft_cwd fs' |}.
Proof.
  intros [Hk Hn Hi Hc Hw] Hwf Hnone Hl Hd. split; cbn; [| |done|done|].
  - apply map_subseteq_spec. intros k nd Hs. cbn. rewrite lookup_delete_ne by congruence. by eapply lookup_weaken.
  - intros k nd [Hne Hs]%lookup_delete_Some. apply Hn in Hs as [?|?]; auto.
  - intros _. apply (delete_wf fs' key node); [by apply Hw|done|done|]. apply wf_cwd. by apply Hw.
Qed.
