(* ===== verification/Catalog.v ===== *)
(** * Reading and verifying an archive ([crates/pithos-engine/src/lib.rs])

    [read_catalog] with its checks on the header, the section directory, the
    entry, restore, index and group tables; [verify_open_file]; and the
    lookups that extraction uses.  A file is its byte content, which does not
    change while it is read.  The JSON of the metadata sections is parsed by
    code that serde derives, a parameter. *)

From S2P Require Import Prelude Core Effects Bytes Format Codecs Sorting Paths.

(** ** The metadata records ([crates/pithos-format/src/lib.rs]) *)

Inductive EntryKind :=
  | File (group_id : N)
  | Directory
  | Hardlink (target_entry_id : N)
  | Symlink (target : LinkTarget) (target_is_dir : bool).

Record EntryRecord := {
  er_entry_id : N;
  er_path : ArchivePath;
  er_size : N;
  er_modified_ns : Z;
  er_mode : N;
  er_blake3 : list byte;
  er_kind : EntryKind;
}.

Record GroupTableRecord := { gt_group : GroupRecord; gt_payload_offset : N }.

Record RestoreMapRecord := {
  rm_entry_id : N;
  rm_original_offset : N;
  rm_length : N;
  rm_group_id : N;
  rm_group_offset : N;
}.

Record CentralIndexRecord := { ci_path : ArchivePath; ci_entry_id : N; ci_group_id : option N }.

Record IntegrityRecord := { ir_entry_id : N; ir_blake3 : list byte }.

#[export] Instance PathComponent_eq_dec : EqDecision PathComponent.
Proof. solve_decision. Defined.
#[export] Instance ArchivePath_eq_dec : EqDecision ArchivePath.
Proof. solve_decision. Defined.
#[export] Instance LinkComponent_eq_dec : EqDecision LinkComponent.
Proof. solve_decision. Defined.
#[export] Instance LinkTarget_eq_dec : EqDecision LinkTarget.
Proof. solve_decision. Defined.
#[export] Instance EntryKind_eq_dec : EqDecision EntryKind.
Proof. solve_decision. Defined.
#[export] Instance EntryRecord_eq_dec : EqDecision EntryRecord.
Proof. solve_decision. Defined.
#[export] Instance GroupRecord_eq_dec : EqDecision GroupRecord.
Proof. solve_decision. Defined.
#[export] Instance GroupTableRecord_eq_dec : EqDecision GroupTableRecord.
Proof. solve_decision. Defined.
#[export] Instance RestoreMapRecord_eq_dec : EqDecision RestoreMapRecord.
Proof. solve_decision. Defined.
#[export] Instance CentralIndexRecord_eq_dec : EqDecision CentralIndexRecord.
Proof. solve_decision. Defined.
#[export] Instance IntegrityRecord_eq_dec : EqDecision IntegrityRecord.
Proof. solve_decision. Defined.

(** [serde_json::from_slice] at the five types of tables. *)
Class CatalogJson := {
  json_entries : list byte → option (list EntryRecord);
  json_groups : list byte → option (list GroupTableRecord);
  json_restore_map : list byte → option (list RestoreMapRecord);
  json_central_index : list byte → option (list CentralIndexRecord);
  json_integrity : list byte → option (list IntegrityRecord);
}.

Record VerificationReport := {
  vr_archive_bytes : N;
  vr_original_bytes : N;
  vr_entry_count : N;
  vr_file_count : N;
  vr_directory_count : N;
  vr_hardlink_count : N;
  vr_symlink_count : N;
  vr_group_count : N;
  vr_blake3_root : list byte;
}.

Record ParsedArchive := {
  pa_entries : list EntryRecord;
  pa_groups : list GroupTableRecord;
  pa_restore_map : list RestoreMapRecord;
  pa_codec_registry : option CodecRegistry;
  pa_report : VerificationReport;
  pa_payload_section : SectionDirectoryRecord;
  pa_footer_offset : N;
  pa_expected_root : list byte;
}.

Definition RAW_SECTION_TYPES : list SectionType :=
  [EntryTable; GroupTable; PayloadArea; RestoreMap; CentralIndex; IntegrityTree].

Definition section_name (section_type : SectionType) : string :=
  match section_type with
  | CodecRegistrySection => "CodecRegistry"
  | EntryTable => "EntryTable"
  | GroupTable => "GroupTable"
  | PayloadArea => "PayloadArea"
  | RestoreMap => "RestoreMap"
  | CentralIndex => "CentralIndex"
  | IntegrityTree => "IntegrityTree"
  | _ => "unsupported"
  end.

(** ** Reading the file *)

(** [seek(SeekFrom::Start(offset))] and [read_exact] of [length] bytes. *)
Definition read_exact (file : list byte) (offset length : N) : Result (list byte) :=
  if offset + length <=? len file then Ok (sub (N.to_nat offset) (N.to_nat length) file)
  else Err (Io UnexpectedEof).

Definition read_exact_vec (file : list byte) (offset length maximum : N) : Result (list byte) :=
  if maximum <? length then Err (ResourceLimit "metadata allocation") else
  length ← ok_or (ResourceLimit "usize") (usize_try_from length);
  read_exact file offset length.

Definition read_checked_section `{Crc32c} (file : list byte) (section : SectionDirectoryRecord)
    (limits : DecodeLimits) : Result (list byte) :=
  bytes ← read_exact_vec file (sd_offset section) (sd_length section) (max_metadata_bytes limits);
  if negb (crc32c bytes =? sd_crc32c section) then Err ChecksumMismatch else Ok bytes.

Definition read_json_section {T} `{Crc32c} (parse : list byte → option T) (file : list byte)
    (section : SectionDirectoryRecord) (limits : DecodeLimits) : Result T :=
  bytes ← read_exact_vec file (sd_offset section) (sd_length section) (max_metadata_bytes limits);
  if negb (crc32c bytes =? sd_crc32c section) then Err ChecksumMismatch else
  ok_or (InvalidMetadata "JSON section") (parse bytes).

(** ** Checks *)

Definition validate_header_limits (header : GlobalHeader) (file_length : N) (limits : DecodeLimits) :
    Result unit :=
  if negb (gh_flags header =? 0) then Err UnsupportedContainerVersion else
  if negb ((gh_section_count header =? REQUIRED_RAW_SECTIONS) ||
           (gh_section_count header =? REQUIRED_COMPRESSED_SECTIONS)) ||
     (max_sections limits <? gh_section_count header)
  then Err (ResourceLimit "section count") else
  if max_entries limits <? gh_entry_count header then Err (ResourceLimit "entry count") else
  if max_groups limits <? gh_group_count header then Err (ResourceLimit "group count") else
  if max_chunks limits <? gh_logical_chunk_count header then Err (ResourceLimit "chunk count") else
  if max_original_bytes limits <? gh_original_total_size header
  then Err (ResourceLimit "original bytes") else
  if file_length <=? gh_footer_offset header then Err InvalidRange else
  Ok tt.

(** The range of a section, within the directory's end and the footer. *)
Definition section_range (directory_end footer_offset : N) (record : SectionDirectoryRecord) :
    Result (N * N) :=
  end_ ← ok_or IntegerOverflow (checked_add (sd_offset record) (sd_length record));
  if (sd_offset record <? directory_end) || (footer_offset <? end_)
  then Err InvalidRange else Ok (sd_offset record, end_).

Definition compare_range (x y : N * N) : comparison :=
  match x.1 ?= y.1 with Eq => x.2 ?= y.2 | c => c end.

(** Sorting pairs of integers: equal elements are identical, so that an
    unstable sort and the insertion sort agree. *)
Definition validate_section_ranges (records : list SectionDirectoryRecord)
    (directory_end footer_offset : N) : Result unit :=
  ranges ← try_map (section_range directory_end footer_offset) records;
  _ ← try_map (λ '(a, b), if b.1 <? a.2 then Err OverlappingSections else Ok tt)
    (windows2 (insertion_sort compare_range ranges));
  Ok tt.

Definition validate_archive_path (path : ArchivePath) (limits : DecodeLimits) : Result unit :=
  if (max_path_components limits <? len (ap_components path)) ||
     (max_path_bytes limits <? ArchivePath_encoded_len path)
  then Err (ResourceLimit "path") else
  ArchivePath_to_path_buf path;;
  Ok tt.

Definition checked_total (current value : N) (limits : DecodeLimits) : Result N :=
  total ← ok_or IntegerOverflow (checked_add current value);
  if max_original_bytes limits <? total then Err (ResourceLimit "original bytes") else Ok total.

(** ** The section directory *)

Abbreviation Sections := (gmap N SectionDirectoryRecord).

(** One record of the directory. *)
Definition directory_step (section_map : Sections) (chunk : list byte) : Result Sections :=
  let record := SectionDirectoryRecord_decode chunk in
  if negb (sd_section_version record =? 1) || negb (sd_flags record =? 0) ||
     negb (sd_reserved record =? 0)
  then Err (InvalidMetadata "section flags/version") else
  section_type ← ok_or UnsupportedContainerVersion (SectionType_from_u16 (sd_section_type record));
  if negb (bool_decide (section_type ∈ RAW_SECTION_TYPES)) &&
     negb (bool_decide (section_type = CodecRegistrySection))
  then Err UnsupportedContainerVersion else
  if bool_decide (is_Some (section_map !! sd_section_type record)) then Err DuplicateSection else
  Ok (<[sd_section_type record := record]> section_map).

Definition required_section (sections : Sections) (section_type : SectionType) :
    Result SectionDirectoryRecord :=
  ok_or (MissingSection (section_name section_type)) (sections !! SectionType_as_u16 section_type).

(** [section_map.values()]. *)
Definition section_values (sections : Sections) : list SectionDirectoryRecord :=
  omap (λ key, sections !! key) (ascending (dom sections)).

(** From the start of [read_catalog] to the check of the section ranges:
    header, footer, directory length and sections. *)
Definition read_sections `{Crc32c} (file : list byte) (limits : DecodeLimits) :
    Result (GlobalHeader * Footer * N * Sections) :=
  let file_length := len file in
  if file_length <? N.of_nat (HEADER_LEN + FOOTER_LEN) then Err InvalidRange else
  header_bytes ← read_exact file 0 (N.of_nat HEADER_LEN);
  header ← GlobalHeader_decode header_bytes;
  validate_header_limits header file_length limits;;
  footer_bytes ← read_exact file (gh_footer_offset header) (N.of_nat FOOTER_LEN);
  footer ← Footer_decode footer_bytes;
  if negb (ft_archive_length footer =? file_length) || negb (ft_version footer =? 1) ||
     negb (bool_decide (checked_add (gh_footer_offset header) (N.of_nat FOOTER_LEN) = Some file_length))
  then Err (InvalidMetadata "footer") else
  directory_length ← ok_or IntegerOverflow
    (checked_mul (gh_section_count header) (N.of_nat SECTION_ENTRY_LEN));
  directory_end ← ok_or IntegerOverflow
    (checked_add (gh_section_directory_offset header) directory_length);
  if negb (gh_section_directory_offset header =? N.of_nat HEADER_LEN) ||
     (gh_footer_offset header <? directory_end)
  then Err InvalidRange else
  directory_bytes ← read_exact_vec file (gh_section_directory_offset header) directory_length
    (max_metadata_bytes limits);
  if negb (crc32c directory_bytes =? ft_directory_crc32c footer) then Err ChecksumMismatch else
  section_map ← try_fold directory_step ∅ (chunks_exact SECTION_ENTRY_LEN directory_bytes);
  _ ← try_map (required_section section_map) RAW_SECTION_TYPES;
  validate_section_ranges (section_values section_map) directory_end (gh_footer_offset header);;
  Ok (header, footer, directory_length, section_map).

(** ** The tables *)

Record Tables := {
  tb_entries : list EntryRecord;
  tb_groups : list GroupTableRecord;
  tb_restore_map : list RestoreMapRecord;
  tb_central_index : list CentralIndexRecord;
  tb_integrity : list IntegrityRecord;
  tb_codec_registry : option CodecRegistry;
  tb_payload_section : SectionDirectoryRecord;
}.

(** From the lookup of the sections to the check of the table counts. *)
Definition read_tables `{Crc32c} `{CatalogJson} (file : list byte) (limits : DecodeLimits)
    (header : GlobalHeader) (directory_length : N) (section_map : Sections) : Result Tables :=
  entry_section ← required_section section_map EntryTable;
  group_section ← required_section section_map GroupTable;
  restore_section ← required_section section_map RestoreMap;
  index_section ← required_section section_map CentralIndex;
  integrity_section ← required_section section_map IntegrityTree;
  payload_section ← required_section section_map PayloadArea;
  let codec_section := section_map !! SectionType_as_u16 CodecRegistrySection in
  if (gh_section_count header =? REQUIRED_RAW_SECTIONS) && bool_decide (is_Some codec_section) ||
     (gh_section_count header =? REQUIRED_COMPRESSED_SECTIONS) && bool_decide (codec_section = None)
  then Err (InvalidMetadata "codec registry section count") else
  let metadata_sections :=
    [entry_section; group_section; restore_section; index_section; integrity_section] ++
    option_list codec_section in
  aggregate_metadata ← try_fold (λ total section,
    ok_or IntegerOverflow (checked_add total (sd_length section))) directory_length metadata_sections;
  if max_metadata_bytes limits <? aggregate_metadata
  then Err (ResourceLimit "aggregate metadata") else
  entries ← read_json_section json_entries file entry_section limits;
  groups ← read_json_section json_groups file group_section limits;
  restore_map ← read_json_section json_restore_map file restore_section limits;
  central_index ← read_json_section json_central_index file index_section limits;
  integrity ← read_json_section json_integrity file integrity_section limits;
  codec_registry ←
    match codec_section with
    | Some section =>
        bytes ← read_checked_section file section limits;
        registry ← CodecRegistry_decode bytes 32;
        Ok (Some registry)
    | None => Ok None
    end;
  if negb (len entries =? gh_entry_count header) || negb (len groups =? gh_group_count header) ||
     negb (len restore_map =? gh_logical_chunk_count header) ||
     negb (len central_index =? len entries) || negb (len integrity =? len entries)
  then Err (InvalidMetadata "table counts") else
  Ok {| tb_entries := entries; tb_groups := groups; tb_restore_map := restore_map;
        tb_central_index := central_index; tb_integrity := integrity;
        tb_codec_registry := codec_registry; tb_payload_section := payload_section |}.

(** ** The entry table *)

Record EntryScan := {
  es_path_keys : list (list byte);
  es_original_size : N;
  es_file_count : N;
  es_directory_count : N;
  es_hardlink_count : N;
  es_symlink_count : N;
}.

Definition EntryScan_init : EntryScan := {|
  es_path_keys := []; es_original_size := 0; es_file_count := 0; es_directory_count := 0;
  es_hardlink_count := 0; es_symlink_count := 0 |}.

(** The [match &entry.kind] of the loop. *)
Definition entry_kind_step (tables : Tables) (limits : DecodeLimits) (scan : EntryScan)
    (entry : EntryRecord) : Result EntryScan :=
  match er_kind entry with
  | File group_id =>
      original_size ← checked_total (es_original_size scan) (er_size entry) limits;
      group ← ok_or (InvalidMetadata "entry group") (tb_groups tables !! N.to_nat group_id);
      if negb (gr_group_id (gt_group group) =? group_id)
      then Err (InvalidMetadata "entry group ID") else
      Ok {| es_path_keys := es_path_keys scan; es_original_size := original_size;
            es_file_count := es_file_count scan + 1;
            es_directory_count := es_directory_count scan;
            es_hardlink_count := es_hardlink_count scan; es_symlink_count := es_symlink_count scan |}
  | Directory =>
      if negb (er_size entry =? 0) then Err (InvalidMetadata "directory size") else
      Ok {| es_path_keys := es_path_keys scan; es_original_size := es_original_size scan;
            es_file_count := es_file_count scan;
            es_directory_count := es_directory_count scan + 1;
            es_hardlink_count := es_hardlink_count scan; es_symlink_count := es_symlink_count scan |}
  | Hardlink target_entry_id =>
      original_size ← checked_total (es_original_size scan) (er_size entry) limits;
      if er_entry_id entry <=? target_entry_id then Err (InvalidMetadata "hardlink ordering") else
      target ← ok_or (InvalidMetadata "hardlink target") (tb_entries tables !! N.to_nat target_entry_id);
      if negb (match er_kind target with File _ => true | _ => false end) ||
         negb (er_size target =? er_size entry) ||
         negb (bool_decide (er_blake3 target = er_blake3 entry))
      then Err (InvalidMetadata "hardlink target") else
      Ok {| es_path_keys := es_path_keys scan; es_original_size := original_size;
            es_file_count := es_file_count scan; es_directory_count := es_directory_count scan;
            es_hardlink_count := es_hardlink_count scan + 1;
            es_symlink_count := es_symlink_count scan |}
  | Symlink target _ =>
      if negb (LinkTarget_resolves_within target (er_path entry)) then Err UnsafeSymlink else
      LinkTarget_to_path_buf target;;
      Ok {| es_path_keys := es_path_keys scan; es_original_size := es_original_size scan;
            es_file_count := es_file_count scan; es_directory_count := es_directory_count scan;
            es_hardlink_count := es_hardlink_count scan;
            es_symlink_count := es_symlink_count scan + 1 |}
  end.

(** The index record an entry must have. *)
Definition index_of (entry : EntryRecord) : CentralIndexRecord := {|
  ci_path := er_path entry; ci_entry_id := er_entry_id entry;
  ci_group_id := match er_kind entry with File group_id => Some group_id | _ => None end |}.

Definition integrity_of (entry : EntryRecord) : IntegrityRecord :=
  {| ir_entry_id := er_entry_id entry; ir_blake3 := er_blake3 entry |}.

(** One iteration of [for (position, entry) in entries.iter().enumerate()].
    The index tables have as many records as there are entries, so that the
    lookups do not panic. *)
Definition entry_step (tables : Tables) (limits : DecodeLimits) (scan : EntryScan)
    (item : N * EntryRecord) : Result EntryScan :=
  let '(position, entry) := item in
  if negb (er_entry_id entry =? position) then Err (InvalidMetadata "entry id") else
  validate_archive_path (er_path entry) limits;;
  let key := ArchivePath_sort_key (er_path entry) in
  if bool_decide (key ∈ es_path_keys scan) then Err (InvalidMetadata "duplicate path") else
  scan ← entry_kind_step tables limits {|
    es_path_keys := key :: es_path_keys scan; es_original_size := es_original_size scan;
    es_file_count := es_file_count scan; es_directory_count := es_directory_count scan;
    es_hardlink_count := es_hardlink_count scan; es_symlink_count := es_symlink_count scan |} entry;
  index ← ok_or panic (tb_central_index tables !! N.to_nat position);
  integrity ← ok_or panic (tb_integrity tables !! N.to_nat position);
  if negb (bool_decide (index = index_of entry)) ||
     negb (bool_decide (integrity = integrity_of entry))
  then Err (InvalidMetadata "index/integrity") else Ok scan.

(** ** The restore map *)

(** One iteration of [for restore in &restore_map]; the state is the set of
    entries that have a restore record. *)
Definition restore_step (tables : Tables) (restored : list N) (restore : RestoreMapRecord) :
    Result (list N) :=
  entry ← ok_or (InvalidMetadata "restore entry") (tb_entries tables !! N.to_nat (rm_entry_id restore));
  match er_kind entry with
  | File group_id =>
      if negb (rm_entry_id restore =? er_entry_id entry) || negb (rm_original_offset restore =? 0) ||
         negb (rm_length restore =? er_size entry) || negb (rm_group_id restore =? group_id) ||
         bool_decide (rm_entry_id restore ∈ restored)
      then Err (InvalidMetadata "restore map entry")
      else Ok (rm_entry_id restore :: restored)
  | _ => Err (InvalidMetadata "restore entry kind")
  end.

(** ** The group table *)

(** The codec check of a group. *)
Definition group_codec (registry : option CodecRegistry) (group : GroupRecord) : Result unit :=
  match gr_codec_chain_id group, registry with
  | 0, None =>
      if negb (gr_chunk_count group =? 1) ||
         negb (gr_uncompressed_len group =? gr_compressed_len group)
      then Err (InvalidMetadata "RAW group") else Ok tt
  | 0, Some _ | _, None => Err UnsupportedCodec
  | chain_id, Some registry =>
      record ← ok_or UnsupportedCodec (CodecRegistry_chain registry chain_id);
      codec_id ← ok_or UnsupportedCodec (CodecId_from_u16 (cr_codec_id record));
      Codec_memory_bound codec_id (gr_uncompressed_len group) {| cfg_level := cr_level record |};;
      Ok tt
  end.

(** [restore_map.iter().filter(|restore| restore.group_id == group_id)]. *)
Definition mappings_of (restore_map : list RestoreMapRecord) (group_id : N) : list RestoreMapRecord :=
  List.filter (λ restore, rm_group_id restore =? group_id) restore_map.

Definition mapping_step (expected_offset : N) (restore : RestoreMapRecord) : Result N :=
  if negb (rm_group_offset restore =? expected_offset)
  then Err (InvalidMetadata "restore group order") else
  ok_or IntegerOverflow (checked_add expected_offset (rm_length restore)).

(** [group.compressed_len.checked_mul(ratio).is_some_and(|m| len > m)] for a
    non-empty payload. *)
Definition expands_too_much (limits : DecodeLimits) (group : GroupRecord) : bool :=
  negb (gr_compressed_len group =? 0) &&
  match checked_mul (gr_compressed_len group) (max_expansion_ratio limits) with
  | Some maximum => maximum <? gr_uncompressed_len group
  | None => false
  end.

(** One iteration of [for (position, record) in groups.iter().enumerate()],
    after the checkpoint; the state is the end of the previous group. *)
Definition group_step (tables : Tables) (limits : DecodeLimits) (payload_end previous_group_end : N)
    (item : N * GroupTableRecord) : Result N :=
  let '(position, record) := item in
  let group := gt_group record in
  if negb (gr_group_id group =? position) || negb (gr_version group =? 1) ||
     negb (gr_flags group =? 0) || negb (gr_descriptor_len group =? 0)
  then Err (InvalidMetadata "group header") else
  (if max_group_output limits <? gr_uncompressed_len group then Err (ResourceLimit "group output") else
   maximum ← ok_or IntegerOverflow (checked_add (max_group_output limits) (1024 * 1024));
   if maximum <? gr_compressed_len group then Err (ResourceLimit "group output") else Ok tt);;
  if expands_too_much limits group then Err (ResourceLimit "group expansion ratio") else
  group_codec (tb_codec_registry tables) group;;
  group_end ← ok_or IntegerOverflow (checked_add (gt_payload_offset record) (gr_compressed_len group));
  if (gt_payload_offset record <? sd_offset (tb_payload_section tables)) ||
     negb (gt_payload_offset record =? previous_group_end) || (payload_end <? group_end)
  then Err InvalidRange else
  let mappings := mappings_of (tb_restore_map tables) (gr_group_id group) in
  if negb (len mappings =? gr_chunk_count group) || bool_decide (mappings = [])
  then Err (InvalidMetadata "group chunk count") else
  expected_offset ← try_fold mapping_step 0 mappings;
  if negb (expected_offset =? gr_uncompressed_len group)
  then Err (InvalidMetadata "restore group length") else
  Ok group_end.

(** ** The catalog *)

Section catalog.
Context {S : Type} `{Env S} `{Crc32c} `{CatalogJson}.

(** From the entry loop to the end of [read_catalog]. *)
Definition check_tables (file_length : N) (limits : DecodeLimits) (header : GlobalHeader)
    (footer : Footer) (tables : Tables) : M S ParsedArchive :=
  scan ← lift (try_fold (entry_step tables limits) EntryScan_init (enumerate (tb_entries tables)));
  if negb (es_original_size scan =? gh_original_total_size header)
  then fail (InvalidMetadata "original size") else
  restored ← lift (try_fold (restore_step tables) [] (tb_restore_map tables));
  if negb (len restored =? es_file_count scan)
  then fail (InvalidMetadata "restore map file count") else
  let payload_section := tb_payload_section tables in
  payload_end ← lift (ok_or IntegerOverflow
    (checked_add (sd_offset payload_section) (sd_length payload_section)));
  previous_group_end ← fold_m (λ previous_group_end item,
      checkpoint;;
      lift (group_step tables limits payload_end previous_group_end item))
    (sd_offset payload_section) (enumerate (tb_groups tables));
  if negb (previous_group_end =? payload_end)
  then fail (InvalidMetadata "unreferenced payload bytes") else
  mret {|
    pa_entries := tb_entries tables;
    pa_groups := tb_groups tables;
    pa_restore_map := tb_restore_map tables;
    pa_codec_registry := tb_codec_registry tables;
    pa_report := {|
      vr_archive_bytes := file_length;
      vr_original_bytes := es_original_size scan;
      vr_entry_count := len (tb_entries tables);
      vr_file_count := es_file_count scan;
      vr_directory_count := es_directory_count scan;
      vr_hardlink_count := es_hardlink_count scan;
      vr_symlink_count := es_symlink_count scan;
      vr_group_count := len (tb_groups tables);
      vr_blake3_root := zeros 32 |};
    pa_payload_section := payload_section;
    pa_footer_offset := gh_footer_offset header;
    pa_expected_root := ft_blake3_root footer |}.

Definition read_catalog (file : list byte) (limits : DecodeLimits) : M S ParsedArchive :=
  checkpoint;;
  '(header, footer, directory_length, section_map) ← lift (read_sections file limits);
  tables ← lift (read_tables file limits header directory_length section_map);
  check_tables (len file) limits header footer tables.
End catalog.

(** ** Lookups of extraction *)

Definition file_source_entry (entry : EntryRecord) (entries : list EntryRecord) : Result EntryRecord :=
  match er_kind entry with
  | File _ => Ok entry
  | Hardlink target_entry_id =>
      ok_or (InvalidMetadata "hardlink target") (entries !! N.to_nat target_entry_id)
  | _ => Err (InvalidMetadata "file source")
  end.

Definition restore_for_entry (parsed : ParsedArchive) (entry_id : N) : Result RestoreMapRecord :=
  ok_or (InvalidMetadata "restore entry missing")
    (List.find (λ restore, rm_entry_id restore =? entry_id) (pa_restore_map parsed)).

Definition restored_slice (decoded_group : list byte) (restore : RestoreMapRecord)
    (offset length : N) : Result (list byte) :=
  entry_end ← ok_or IntegerOverflow (checked_add offset length);
  if rm_length restore <? entry_end then Err InvalidRange else
  start ← ok_or IntegerOverflow (checked_add (rm_group_offset restore) offset);
  end_ ← ok_or IntegerOverflow (checked_add start length);
  start ← ok_or IntegerOverflow (usize_try_from start);
  end_ ← ok_or IntegerOverflow (usize_try_from end_);
  (* [decoded_group.get(start..end)] *)
  if (end_ <? start) || (len decoded_group <? end_) then Err InvalidRange
  else Ok (sub (N.to_nat start) (N.to_nat (end_ - start)) decoded_group).

(** ** Decoding and verification *)

Definition IO_BUFFER_SIZE : N := 64 * 1024.

Section verify.
Context {S : Type} `{Env S} `{Crc32c} `{Blake3} `{Backends} `{CatalogJson}.

(** One iteration of the loop of [digest_range]: [file.read] of the wanted
    size at [position]; the hasher is the bytes it has been given. *)
Definition digest_step (file : list byte) (st : N * N * N * list byte) :
    M S (N * N * N * list byte) :=
  let '(position, remaining, crc, hashed) := st in
  checkpoint;;
  wanted ← lift (ok_or IntegerOverflow (usize_try_from (N.min remaining IO_BUFFER_SIZE)));
  let buffer := sub (N.to_nat position) (N.to_nat wanted) file in
  let read := len buffer in
  if read =? 0 then fail (Io UnexpectedEof) else
  mret (position + read, remaining - read, crc32c_append crc buffer, hashed ++ buffer).

Definition digest_range (file : list byte) (offset length : N) : M S (N * list byte) :=
  '(_, _, crc, hashed) ← while_m (Datatypes.S (List.length file)) (λ '(_, remaining, _, _), 0 <? remaining)
    (digest_step file) (offset, length, 0, []);
  mret (crc, blake3 hashed).

Definition group_codec_id (record : GroupTableRecord) (registry : option CodecRegistry) :
    Result CodecId :=
  if gr_codec_chain_id (gt_group record) =? 0 then
    if bool_decide (is_Some registry) then Err UnsupportedCodec else Ok Store
  else
    registry ← ok_or UnsupportedCodec registry;
    codec ← ok_or UnsupportedCodec (CodecRegistry_chain registry (gr_codec_chain_id (gt_group record)));
    ok_or UnsupportedCodec (CodecId_from_u16 (cr_codec_id codec)).

Definition decode_group (file : list byte) (record : GroupTableRecord)
    (registry : option CodecRegistry) (limits : DecodeLimits) : M S (list byte) :=
  checkpoint;;
  maximum_compressed ← lift (ok_or IntegerOverflow (checked_add (max_group_output limits) (1024 * 1024)));
  payload ← lift (read_exact_vec file (gt_payload_offset record)
    (gr_compressed_len (gt_group record)) maximum_compressed);
  if negb (crc32c payload =? gr_payload_crc32c (gt_group record)) then fail ChecksumMismatch else
  codec_id ← lift (group_codec_id record registry);
  _ ← lift (ok_or MemoryLimit (usize_try_from (gr_uncompressed_len (gt_group record))));
  decoded ← lift (default (Err out_of_fuel)
    (Codec_decode codec_id payload (gr_uncompressed_len (gt_group record))));
  checkpoint;;
  mret decoded.

(** The hash check of one restore record. *)
Definition verify_restore (parsed : ParsedArchive) (decoded : list byte) (restore : RestoreMapRecord) :
    Result unit :=
  entry ← ok_or (InvalidMetadata "restore entry") (pa_entries parsed !! N.to_nat (rm_entry_id restore));
  bytes ← restored_slice decoded restore 0 (rm_length restore);
  if negb (bool_decide (blake3 bytes = er_blake3 entry)) then Err HashMismatch else Ok tt.

Definition verify_open_file (file : list byte) (limits : DecodeLimits) : M S ParsedArchive :=
  parsed ← read_catalog file limits;
  '(payload_crc, _) ← digest_range file (sd_offset (pa_payload_section parsed))
    (sd_length (pa_payload_section parsed));
  if negb (payload_crc =? sd_crc32c (pa_payload_section parsed)) then fail ChecksumMismatch else
  for_each (λ group,
      checkpoint;;
      decoded ← decode_group file group (pa_codec_registry parsed) limits;
      _ ← lift (try_map (verify_restore parsed decoded)
        (mappings_of (pa_restore_map parsed) (gr_group_id (gt_group group))));
      mret tt) (pa_groups parsed);;
  '(_, root) ← digest_range file 0 (pa_footer_offset parsed);
  if negb (bool_decide (root = pa_expected_root parsed)) then fail HashMismatch else
  let report := pa_report parsed in
  mret {|
    pa_entries := pa_entries parsed; pa_groups := pa_groups parsed;
    pa_restore_map := pa_restore_map parsed; pa_codec_registry := pa_codec_registry parsed;
    pa_report := {|
      vr_archive_bytes := vr_archive_bytes report; vr_original_bytes := vr_original_bytes report;
      vr_entry_count := vr_entry_count report; vr_file_count := vr_file_count report;
      vr_directory_count := vr_directory_count report;
      vr_hardlink_count := vr_hardlink_count report;
      vr_symlink_count := vr_symlink_count report; vr_group_count := vr_group_count report;
      vr_blake3_root := root |};
    pa_payload_section := pa_payload_section parsed; pa_footer_offset := pa_footer_offset parsed;
    pa_expected_root := pa_expected_root parsed |}.
End verify.

(** ** Specification of a catalog *)

Definition is_file (e : EntryRecord) : bool := match er_kind e with File _ => true | _ => false end.
Definition is_directory (e : EntryRecord) : bool := match er_kind e with Directory => true | _ => false end.
Definition is_hardlink (e : EntryRecord) : bool := match er_kind e with Hardlink _ => true | _ => false end.
Definition is_symlink (e : EntryRecord) : bool :=
  match er_kind e with Symlink _ _ => true | _ => false end.

(** The bytes an entry adds to the original size. *)
Definition counted_size (e : EntryRecord) : N := if is_file e || is_hardlink e then er_size e else 0.

Definition count {A} (p : A → bool) (l : list A) : N := len (List.filter p l).

(** What [read_catalog] guarantees of the entry at [position]. *)
Definition entry_ok (entries : list EntryRecord) (groups : list GroupTableRecord)
    (limits : DecodeLimits) (position : N) (e : EntryRecord) : Prop :=
  er_entry_id e = position ∧ validate_archive_path (er_path e) limits = Ok tt ∧
  match er_kind e with
  | File group_id => ∃ record, groups !! N.to_nat group_id = Some record ∧
      gr_group_id (gt_group record) = group_id
  | Directory => er_size e = 0
  | Hardlink target_id => target_id < position ∧ ∃ target, entries !! N.to_nat target_id = Some target ∧
      is_file target = true ∧ er_size target = er_size e ∧ er_blake3 target = er_blake3 e
  | Symlink target _ => LinkTarget_resolves_within target (er_path e) = true ∧
      ∃ path, LinkTarget_to_path_buf target = Ok path
  end.

(** The restore record of a file entry. *)
Definition restore_ok (entries : list EntryRecord) (r : RestoreMapRecord) : Prop :=
  ∃ e group_id, entries !! N.to_nat (rm_entry_id r) = Some e ∧ er_entry_id e = rm_entry_id r ∧
    er_kind e = File group_id ∧ rm_group_id r = group_id ∧ rm_original_offset r = 0 ∧
    rm_length r = er_size e.

(** The files of one group lie end to end in its output. *)
Fixpoint mapped (start : N) (mappings : list RestoreMapRecord) (end_ : N) : Prop :=
  match mappings with
  | [] => start = end_
  | r :: mappings => rm_group_offset r = start ∧ mapped (start + rm_length r) mappings end_
  end.

(** The groups lie end to end in the payload area. *)
Fixpoint groups_ok (restore_map : list RestoreMapRecord) (limits : DecodeLimits) (position start : N)
    (groups : list GroupTableRecord) (end_ : N) : Prop :=
  match groups with
  | [] => start = end_
  | record :: groups =>
      let group := gt_group record in
      let mappings := mappings_of restore_map position in
      gr_group_id group = position ∧ gt_payload_offset record = start ∧
      gr_uncompressed_len group <= max_group_output limits ∧
      expands_too_much limits group = false ∧
      mappings ≠ [] ∧ len mappings = gr_chunk_count group ∧ mapped 0 mappings (gr_uncompressed_len group) ∧
      groups_ok restore_map limits (position + 1) (start + gr_compressed_len group) groups end_
  end.

Record catalog_ok (limits : DecodeLimits) (p : ParsedArchive) : Prop := {
  catalog_entries : ∀ i e, pa_entries p !! i = Some e →
    entry_ok (pa_entries p) (pa_groups p) limits (N.of_nat i) e;
  catalog_paths : NoDup (map er_path (pa_entries p));
  catalog_size : vr_original_bytes (pa_report p) = sum (map counted_size (pa_entries p)) ∧
    vr_original_bytes (pa_report p) <= max_original_bytes limits;
  catalog_counts : vr_entry_count (pa_report p) = len (pa_entries p) ∧
    vr_file_count (pa_report p) = count is_file (pa_entries p) ∧
    vr_directory_count (pa_report p) = count is_directory (pa_entries p) ∧
    vr_hardlink_count (pa_report p) = count is_hardlink (pa_entries p) ∧
    vr_symlink_count (pa_report p) = count is_symlink (pa_entries p);
  catalog_restore : Forall (restore_ok (pa_entries p)) (pa_restore_map p);
  catalog_restored : map rm_entry_id (pa_restore_map p) ≡ₚ
    map er_entry_id (List.filter is_file (pa_entries p));
  catalog_groups : groups_ok (pa_restore_map p) limits 0 (sd_offset (pa_payload_section p))
    (pa_groups p) (sd_offset (pa_payload_section p) + sd_length (pa_payload_section p));
}.

(** ** The entry loop *)

Definition bit (b : bool) : N := if b then 1 else 0.

Lemma count_cons {A} (p : A → bool) x l : count p (x :: l) = bit (p x) + count p l.
Proof. unfold count, bit. cbn. destruct (p x); [by rewrite len_cons|lia]. Qed.

Lemma entry_kind_step_Ok tables limits scan e scan' :
  entry_kind_step tables limits scan e = Ok scan' →
  (es_original_size scan <= max_original_bytes limits → es_original_size scan' <= max_original_bytes limits) ∧
  es_path_keys scan' = es_path_keys scan ∧
  es_original_size scan' = es_original_size scan + counted_size e ∧
  es_file_count scan' = es_file_count scan + bit (is_file e) ∧
  es_directory_count scan' = es_directory_count scan + bit (is_directory e) ∧
  es_hardlink_count scan' = es_hardlink_count scan + bit (is_hardlink e) ∧
  es_symlink_count scan' = es_symlink_count scan + bit (is_symlink e) ∧
  match er_kind e with
  | File group_id => ∃ record, tb_groups tables !! N.to_nat group_id = Some record ∧
      gr_group_id (gt_group record) = group_id
  | Directory => er_size e = 0
  | Hardlink target_id => target_id < er_entry_id e ∧
      ∃ target, tb_entries tables !! N.to_nat target_id = Some target ∧
      is_file target = true ∧ er_size target = er_size e ∧ er_blake3 target = er_blake3 e
  | Symlink target _ => LinkTarget_resolves_within target (er_path e) = true ∧
      ∃ path, LinkTarget_to_path_buf target = Ok path
  end.
Proof.
  unfold entry_kind_step, counted_size, is_file, is_directory, is_hardlink, is_symlink, checked_total.
  intros Hs. destruct (er_kind e) as [group_id| |target_id|target d]; invres; cbn; rewrite ?N.add_0_r;
    (split; [try done; lia|]); do 6 (split; [lia || done|]); eauto.
  split; [done|]. match goal with H : tb_entries tables !! _ = Some ?t |- _ => exists t end.
  split; [done|]. match goal with H : match er_kind ?t with _ => _ end = true |- _ => rewrite H end. done.
Qed.

Lemma entry_step_Ok tables limits scan position e scan' :
  entry_step tables limits scan (position, e) = Ok scan' →
  entry_ok (tb_entries tables) (tb_groups tables) limits position e ∧
  ArchivePath_sort_key (er_path e) ∉ es_path_keys scan ∧
  es_path_keys scan' = ArchivePath_sort_key (er_path e) :: es_path_keys scan ∧
  (es_original_size scan <= max_original_bytes limits → es_original_size scan' <= max_original_bytes limits) ∧
  es_original_size scan' = es_original_size scan + counted_size e ∧
  es_file_count scan' = es_file_count scan + bit (is_file e) ∧
  es_directory_count scan' = es_directory_count scan + bit (is_directory e) ∧
  es_hardlink_count scan' = es_hardlink_count scan + bit (is_hardlink e) ∧
  es_symlink_count scan' = es_symlink_count scan + bit (is_symlink e) ∧
  tb_central_index tables !! N.to_nat position = Some (index_of e) ∧
  tb_integrity tables !! N.to_nat position = Some (integrity_of e).
Proof.
  unfold entry_step. intros Hs. invres.
  match goal with H : entry_kind_step _ _ _ _ = Ok _ |- _ => apply entry_kind_step_Ok in H end.
  cbn in *. destruct_and!. unfold entry_ok.
  split; [|repeat match goal with |- _ ∧ _ => split end; first [done|congruence]].
  subst position. split; [done|]. by split.
Qed.

Lemma entries_fold tables limits scan i l scan' :
  try_fold (entry_step tables limits) scan (enumerate_from i l) = Ok scan' →
  NoDup (es_path_keys scan) →
  (∀ k e, l !! k = Some e → entry_ok (tb_entries tables) (tb_groups tables) limits (i + N.of_nat k) e) ∧
  NoDup (map (λ e, ArchivePath_sort_key (er_path e)) l) ∧
  (∀ e, e ∈ l → ArchivePath_sort_key (er_path e) ∉ es_path_keys scan) ∧
  (es_original_size scan <= max_original_bytes limits → es_original_size scan' <= max_original_bytes limits) ∧
  es_original_size scan' = es_original_size scan + sum (map counted_size l) ∧
  es_file_count scan' = es_file_count scan + count is_file l ∧
  es_directory_count scan' = es_directory_count scan + count is_directory l ∧
  es_hardlink_count scan' = es_hardlink_count scan + count is_hardlink l ∧
  es_symlink_count scan' = es_symlink_count scan + count is_symlink l.
Proof.
  revert scan i; induction l as [|e l IH]; intros scan i; cbn [enumerate_from try_fold map].
  { intros [= <-] Hnd. change (sum []) with 0.
    change (count is_file []) with 0. change (count is_directory []) with 0.
    change (count is_hardlink []) with 0. change (count is_symlink []) with 0. rewrite !N.add_0_r.
    split; [done|]. split; [constructor|]. split; [by intros ? ?%not_elem_of_nil|]. done. }
  intros (scan1 & Hs & Hf)%bind_Ok Hnd. apply entry_step_Ok in Hs as
    (Hok & Hfresh & Hkeys & Hmax & Hsize & Hfc & Hdc & Hhc & Hsc & _).
  destruct (IH scan1 (i + 1) Hf) as (Hall & Hnd' & Hfr' & Hmax' & Hsize' & Hfc' & Hdc' & Hhc' & Hsc').
  { rewrite Hkeys. by constructor. }
  rewrite !count_cons. unfold sum in *. cbn [foldr]. split; [|split; [|split]].
  - intros [|k] e' Hk; cbn in Hk; [injection Hk as <-; by rewrite N.add_0_r|].
    replace (i + N.of_nat (Datatypes.S k)) with (i + 1 + N.of_nat k) by lia. by apply Hall.
  - constructor; [|done]. intros (e' & He & Hin)%list_elem_of_fmap.
    apply (Hfr' e' Hin). rewrite Hkeys, <-He. by left.
  - intros e' [->|Hin]%elem_of_cons; [done|]. intros Hx. apply (Hfr' e' Hin). rewrite Hkeys. by right.
  - split; [auto|]. repeat split; lia.
Qed.

(** ** The restore loop *)

Lemma restore_step_Ok tables acc r acc' :
  restore_step tables acc r = Ok acc' →
  restore_ok (tb_entries tables) r ∧ rm_entry_id r ∉ acc ∧ acc' = rm_entry_id r :: acc.
Proof.
  unfold restore_step. intros Hs. invres.
  match goal with H : tb_entries tables !! _ = Some ?e |- _ => destruct (er_kind e) as [g| | |] eqn:Hk;
    try discriminate end.
  invres. split; [|done]. eexists _, g. repeat match goal with |- _ ∧ _ => split end; eauto; by rewrite Hk.
Qed.

Lemma restore_fold tables acc l acc' :
  try_fold (restore_step tables) acc l = Ok acc' → NoDup acc →
  Forall (restore_ok (tb_entries tables)) l ∧ NoDup acc' ∧ acc' ≡ₚ map rm_entry_id l ++ acc.
Proof.
  revert acc; induction l as [|r l IH]; intros acc; cbn [try_fold map].
  { by intros [= <-]. }
  intros (acc1 & Hs & Hf)%bind_Ok Hnd. apply restore_step_Ok in Hs as (Hok & Hn & ->).
  destruct (IH _ Hf) as (Hall & Hnd' & Hp); [by constructor|].
  split; [by constructor|]. split; [done|]. rewrite Hp. solve_Permutation.
Qed.

Lemma elem_of_list_filter {A} (p : A → bool) l x : x ∈ List.filter p l ↔ x ∈ l ∧ p x = true.
Proof. rewrite !list_elem_of_In. apply filter_In. Qed.

(** Every file entry has exactly one restore record. *)
Lemma restored_all tables restored :
  (∀ i e, tb_entries tables !! i = Some e → er_entry_id e = N.of_nat i) →
  Forall (restore_ok (tb_entries tables)) (tb_restore_map tables) → NoDup restored →
  restored ≡ₚ map rm_entry_id (tb_restore_map tables) →
  len restored = count is_file (tb_entries tables) →
  map rm_entry_id (tb_restore_map tables) ≡ₚ map er_entry_id (List.filter is_file (tb_entries tables)).
Proof.
  intros Hids Hall Hnd Hp Hlen. rewrite <-Hp.
  apply submseteq_length_Permutation.
  - apply NoDup_submseteq; [done|]. intros x. rewrite Hp. intros (r & -> & Hr)%list_elem_of_fmap.
    rewrite Forall_forall in Hall. destruct (Hall r Hr) as (e & g & He & <- & Hk & _).
    apply list_elem_of_fmap_2, elem_of_list_filter. split; [by eapply list_elem_of_lookup_2|].
    unfold is_file. by rewrite Hk.
  - rewrite length_map. unfold count, len in Hlen. lia.
Qed.

(** ** The group loop *)

Lemma mapping_fold start mappings end_ :
  try_fold mapping_step start mappings = Ok end_ → mapped start mappings end_.
Proof.
  revert start; induction mappings as [|r mappings IH]; intros start; cbn [try_fold mapped].
  { by intros [= ->]. }
  intros (mid & Hs & Hf)%bind_Ok. unfold mapping_step in Hs. invres. split; [done|]. by apply IH.
Qed.

Lemma group_step_Ok tables limits payload_end start position record end_ :
  group_step tables limits payload_end start (position, record) = Ok end_ →
  let group := gt_group record in
  let mappings := mappings_of (tb_restore_map tables) position in
  gr_group_id group = position ∧ gt_payload_offset record = start ∧
  gr_uncompressed_len group <= max_group_output limits ∧
  expands_too_much limits group = false ∧
  mappings ≠ [] ∧ len mappings = gr_chunk_count group ∧ mapped 0 mappings (gr_uncompressed_len group) ∧
  group_codec (tb_codec_registry tables) group = Ok tt ∧
  end_ = start + gr_compressed_len group ∧ end_ <= payload_end.
Proof.
  unfold group_step. intros Hs. res_inv. arith_inv. subst.
  repeat match goal with H : try_fold mapping_step _ _ = Ok _ |- _ => apply mapping_fold in H end.
  repeat match goal with |- _ ∧ _ => split end; try done; try lia; try congruence.
Qed.

Section catalog_proofs.
Context `{Crc32c} `{CatalogJson}.

Lemma group_fold tables limits payload_end start position groups end_ :
  run_calm (fold_m (λ previous_group_end item,
      checkpoint;; lift (group_step tables limits payload_end previous_group_end item)) start
    (enumerate_from position groups)) = Ok end_ →
  groups_ok (tb_restore_map tables) limits position start groups end_.
Proof.
  revert start position; induction groups as [|record groups IH]; intros start position;
    cbn [enumerate_from fold_m groups_ok]; [rewrite run_calm_ret; by intros [= ->]|].
  rewrite run_calm_bind. intros (mid & Hs & Hf)%bind_Ok.
  rewrite run_calm_bind, run_calm_checkpoint in Hs. cbn [mbind result_bind] in Hs.
  rewrite run_calm_lift in Hs. apply group_step_Ok in Hs. cbv zeta in Hs. destruct_and!. subst mid.
  repeat match goal with |- _ ∧ _ => split end; try done. by apply IH.
Qed.

Lemma check_tables_ok limits file_length header footer tables p :
  run_calm (check_tables file_length limits header footer tables) = Ok p → catalog_ok limits p.
Proof.
  unfold check_tables. intros Hc. calm_inv.
  match goal with H : try_fold (entry_step _ _) _ _ = Ok _ |- _ => rename H into He end.
  match goal with H : try_fold (restore_step _) _ _ = Ok _ |- _ => rename H into Hr end.
  match goal with H : run_calm (fold_m _ _ _) = Ok _ |- _ => rename H into Hg end.
  apply entries_fold in He as (Hents & Hpaths & _ & Hmax & Hsz & Hfc & Hdc & Hhc & Hsc); [|constructor].
  apply restore_fold in Hr as (Hall & Hnd & Hp); [|constructor]. rewrite app_nil_r in Hp.
  apply group_fold in Hg. cbn [EntryScan_init es_original_size es_file_count es_directory_count
    es_hardlink_count es_symlink_count] in *.
  assert (Hids : ∀ i e, tb_entries tables !! i = Some e → er_entry_id e = N.of_nat i).
  { intros i e Hi. by destruct (Hents i e Hi). }
  split; cbn [pa_entries pa_groups pa_restore_map pa_report pa_payload_section vr_original_bytes
    vr_entry_count vr_file_count vr_directory_count vr_hardlink_count vr_symlink_count]; try done.
  - by rewrite <-map_map in Hpaths; apply NoDup_fmap_1 in Hpaths.
  - split; [done|]. apply Hmax. lia.
  - eapply restored_all; eauto. lia.
Qed.

Lemma read_catalog_ok file limits p :
  run_calm (read_catalog file limits) = Ok p → catalog_ok limits p.
Proof.
  unfold read_catalog. rewrite run_calm_bind, run_calm_checkpoint. cbn [mbind result_bind].
  rewrite run_calm_bind, run_calm_lift. destruct (read_sections file limits) as [[[[h f] dl] m]|]; [|done].
  cbn [mbind result_bind]. rewrite run_calm_bind, run_calm_lift.
  destruct (read_tables _ _ _ _ _) as [t|]; [|done]. apply check_tables_ok.
Qed.

Lemma read_catalog_follows {S : Type} `{Env S} file limits :
  follows (read_catalog file limits) (run_calm (read_catalog file limits)).
Proof. unfold read_catalog, check_tables. follows_calm_run. Qed.
End catalog_proofs.

(** ** Using a catalog *)

Lemma groups_ok_lookup restore_map limits position start groups end_ i record :
  groups_ok restore_map limits position start groups end_ → groups !! i = Some record →
  gr_group_id (gt_group record) = position + N.of_nat i ∧
  gr_uncompressed_len (gt_group record) <= max_group_output limits ∧
  mapped 0 (mappings_of restore_map (position + N.of_nat i)) (gr_uncompressed_len (gt_group record)).
Proof.
  revert position start i; induction groups as [|g groups IH]; intros position start [|i]; cbn [groups_ok]; try done.
  - intros Hg [= ->]. destruct_and!. by rewrite N.add_0_r.
  - intros Hg Hi. destruct_and!. replace (position + N.of_nat (S i)) with (position + 1 + N.of_nat i) by lia.
    by eapply IH.
Qed.

Lemma mapped_within start mappings end_ r :
  mapped start mappings end_ → r ∈ mappings → rm_group_offset r + rm_length r <= end_.
Proof.
  revert start; induction mappings as [|r' mappings IH]; intros start; cbn [mapped];
    [by intros _ ?%not_elem_of_nil|].
  assert (Hle : ∀ s, mapped s mappings end_ → s <= end_).
  { clear. induction mappings as [|r mappings IH]; intros s; cbn [mapped]; [lia|].
    intros [_ Hm]. apply IH in Hm. lia. }
  intros [Hs Hm] [->|Hr]%elem_of_cons; [|by eapply IH]. apply Hle in Hm. lia.
Qed.

(** The whole slice of one record. *)
Definition slice_of (decoded : list byte) (r : RestoreMapRecord) : list byte :=
  sub (N.to_nat (rm_group_offset r)) (N.to_nat (rm_length r)) decoded.

(** The slices of a group's records make up its output. *)
Lemma mapped_concat start mappings end_ decoded :
  mapped start mappings end_ → len decoded = end_ →
  concat (map (slice_of decoded) mappings) = drop (N.to_nat start) decoded.
Proof.
  intros Hm Hl. revert start Hm; induction mappings as [|r mappings IH]; intros start; cbn [mapped map concat].
  - intros ->. rewrite drop_ge; [done|]. unfold len in Hl. lia.
  - intros [Hs Hm]. rewrite (IH _ Hm). unfold slice_of, sub. rewrite Hs.
    replace (N.to_nat (start + rm_length r)) with (N.to_nat start + N.to_nat (rm_length r))%nat by lia.
    by rewrite <-drop_drop, take_drop.
Qed.

Lemma restored_slice_Ok decoded r offset length :
  rm_group_offset r + rm_length r <= len decoded → len decoded <= u64_MAX → offset + length <= rm_length r →
  restored_slice decoded r offset length =
  Ok (sub (N.to_nat (rm_group_offset r + offset)) (N.to_nat length) decoded).
Proof.
  intros Hw Hd Ho. unfold restored_slice. calm_run. do 3 f_equal. lia.
Qed.

Lemma mappings_in restore_map g r : r ∈ mappings_of restore_map g ↔ r ∈ restore_map ∧ rm_group_id r = g.
Proof. unfold mappings_of. by rewrite elem_of_list_filter, N.eqb_eq. Qed.

(** The restore record and the group of a file entry. *)
Lemma file_lookups limits p i e g :
  catalog_ok limits p → pa_entries p !! i = Some e → er_kind e = File g →
  ∃ r record, restore_for_entry p (N.of_nat i) = Ok r ∧ pa_groups p !! N.to_nat g = Some record ∧
    r ∈ mappings_of (pa_restore_map p) g ∧ rm_length r = er_size e ∧ rm_entry_id r = N.of_nat i ∧
    gr_uncompressed_len (gt_group record) <= max_group_output limits ∧
    mapped 0 (mappings_of (pa_restore_map p) g) (gr_uncompressed_len (gt_group record)).
Proof.
  intros [Hents _ _ _ Hall Hperm Hgroups] Hi Hk.
  destruct (Hents i e Hi) as (Hid & _ & Hkind). rewrite Hk in Hkind. destruct Hkind as (record & Hg & Hgid).
  unfold restore_for_entry.
  destruct (List.find (λ r, rm_entry_id r =? N.of_nat i) (pa_restore_map p)) as [r|] eqn:Hf.
  - apply find_some in Hf as [Hr Hrid%N.eqb_eq]. apply list_elem_of_In in Hr.
    rewrite Forall_forall in Hall. destruct (Hall r Hr) as (e' & g' & He' & _ & Hk' & Hg' & _ & Hlen).
    rewrite Hrid, Nat2N.id, Hi in He'. injection He' as <-. rewrite Hk in Hk'. injection Hk' as <-.
    destruct (groups_ok_lookup _ _ _ _ _ _ _ _ Hgroups Hg) as (_ & Hmax & Hm).
    rewrite N.add_0_l, N2Nat.id in Hm. exists r, record.
    repeat match goal with |- _ ∧ _ => split end; try done. by apply mappings_in.
  - exfalso. assert (Hin : er_entry_id e ∈ map rm_entry_id (pa_restore_map p)).
    { rewrite Hperm. apply list_elem_of_fmap_2, elem_of_list_filter.
      split; [by eapply list_elem_of_lookup_2|]. unfold is_file. by rewrite Hk. }
    apply list_elem_of_fmap in Hin as (r & Hid' & Hr). rewrite list_elem_of_In in Hr.
    apply (find_none _ _ Hf) in Hr. apply N.eqb_neq in Hr. lia.
Qed.

(** ** Section ranges *)

Definition section_end (r : SectionDirectoryRecord) : N := sd_offset r + sd_length r.

(** [R] holds of the elements at any two different positions. *)
Definition pairwise {A} (R : A → A → Prop) (l : list A) : Prop :=
  ∀ i j x y, i ≠ j → l !! i = Some x → l !! j = Some y → R x y.

Lemma pairwise_perm {A} (R : A → A → Prop) l k : l ≡ₚ k → pairwise R k → pairwise R l.
Proof.
  intros (_ & f & Hf & Hl)%Permutation_inj Hk i j x y Hij Hi Hj.
  apply (Hk (f i) (f j)); [by intros ?%Hf|by rewrite <-Hl..].
Qed.

Lemma pairwise_cons {A} (R : A → A → Prop) x l :
  Symmetric R → pairwise R (x :: l) ↔ Forall (R x) l ∧ pairwise R l.
Proof.
  intros HR. split.
  - intros Hp. split.
    + apply Forall_lookup. intros j y Hj. apply (Hp 0%nat (Datatypes.S j)); done.
    + intros i j a b Hij Hi Hj. apply (Hp (Datatypes.S i) (Datatypes.S j)); [lia|done..].
  - intros [Hx Hp] [|i] [|j] a b Hij Hi Hj; cbn in *; try done.
    + injection Hi as <-. rewrite Forall_lookup in Hx. eauto.
    + injection Hj as <-. rewrite Forall_lookup in Hx. symmetry. eauto.
    + apply (Hp i j); [lia|done..].
Qed.

(** Two ranges that share no byte. *)
Definition disjoint_ranges (x y : N * N) : Prop := x.2 <= y.1 ∨ y.2 <= x.1.

#[export] Instance disjoint_ranges_symmetric : Symmetric disjoint_ranges.
Proof. unfold disjoint_ranges. intros x y ?; tauto. Qed.

#[export] Instance compare_range_preorder : TotalPreorder compare_range.
Proof.
  unfold compare_range. split.
  - intros [a b] [c d]; cbn. rewrite (N.compare_antisym a c). destruct (a ?= c); cbn; [|done..].
    apply N.compare_antisym.
  - intros [a b] [c d] [e f]; cbn.
    destruct (N.compare_spec a c), (N.compare_spec c e), (N.compare_spec a e); try done; try lia;
      destruct (N.compare_spec b d), (N.compare_spec d f), (N.compare_spec b f); done || lia.
Qed.

Lemma not_greater_range x y : x.1 <= x.2 → y.1 <= y.2 → not_greater compare_range x y →
  disjoint_ranges x y ↔ x.2 <= y.1.
Proof.
  unfold not_greater, compare_range, disjoint_ranges. intros Hx Hy Hn.
  destruct (N.compare_spec x.1 y.1); try done; [|lia].
  destruct (N.compare_spec x.2 y.2); try done; lia.
Qed.

(** Of ordered ranges it is enough to compare the neighbours. *)
Lemma windows_disjoint ranges :
  StronglySorted (not_greater compare_range) ranges → Forall (λ x, x.1 <= x.2) ranges →
  Forall (λ '(a, b), a.2 <= b.1) (windows2 ranges) ↔ pairwise disjoint_ranges ranges.
Proof.
  induction ranges as [|a ranges IH]; intros Hs Hw; [split; [by intros _ ?|constructor]|].
  apply StronglySorted_inv in Hs as [Hs Ha]. apply Forall_cons in Hw as [Haw Hw].
  rewrite pairwise_cons by apply _. rewrite <-(IH Hs Hw).
  destruct ranges as [|b ranges]; [split; repeat constructor|]. cbn [windows2].
  rewrite Forall_cons at 1. split; intros [Hab Hrest]; split; try done.
  - apply IH in Hrest; [|done..]. apply pairwise_cons in Hrest as [_ _]; [|apply _].
    apply StronglySorted_inv in Hs as [_ Hb]. apply Forall_cons in Hw as [Hbw Hw].
    constructor; [by left|]. rewrite Forall_forall in *. intros c Hc. left.
    specialize (Hb c Hc). unfold not_greater, compare_range in Hb.
    destruct (N.compare_spec b.1 c.1); try done; lia.
  - apply Forall_cons in Ha as [Ha _]. apply Forall_cons in Hab as [Hab _].
    apply Forall_cons in Hw as [Hbw _]. by apply not_greater_range.
Qed.

Lemma section_range_Ok directory_end footer_offset r range :
  footer_offset <= u64_MAX →
  section_range directory_end footer_offset r = Ok range ↔
  range = (sd_offset r, section_end r) ∧ directory_end <= sd_offset r ∧ section_end r <= footer_offset.
Proof.
  intros Hf. unfold section_range, section_end. split.
  - intros Hr. invres. auto.
  - intros (-> & Hd & He). rewrite checked_add_ok by lia. cbn.
    rewrite (proj2 (N.ltb_ge _ _)) by lia. rewrite (proj2 (N.ltb_ge _ _)) by lia. done.
Qed.

Lemma try_map_unit {A} (f : A → Result unit) l :
  (try_map f l ≫= λ _, Ok tt) = Ok tt ↔ Forall (λ a, f a = Ok tt) l.
Proof.
  induction l as [|a l IH]; cbn [try_map]; [split; [constructor|done]|].
  rewrite Forall_cons, <-IH. destruct (f a) as [[]|e]; cbn; [|split; [done|by intros [? _]]].
  destruct (try_map f l); cbn; naive_solver.
Qed.

Definition range_of (r : SectionDirectoryRecord) : N * N := (sd_offset r, section_end r).
Definition disjoint_sections (r1 r2 : SectionDirectoryRecord) : Prop :=
  disjoint_ranges (range_of r1) (range_of r2).

Lemma section_ranges_Ok directory_end footer_offset records ranges :
  footer_offset <= u64_MAX →
  try_map (section_range directory_end footer_offset) records = Ok ranges ↔
  ranges = map range_of records ∧
  Forall (λ r, directory_end <= sd_offset r ∧ section_end r <= footer_offset) records.
Proof.
  intros Hf. rewrite try_map_Ok. revert ranges.
  induction records as [|r records IH]; intros ranges.
  - split; [by inversion 1|intros [-> _]; constructor].
  - cbn [map]. rewrite Forall_cons. split.
    + inversion 1 as [|? b ? ? Hb Ht]; subst. apply section_range_Ok in Hb; [|done].
      apply IH in Ht. destruct Hb as (-> & Hb), Ht as (-> & Ht). done.
    + intros (-> & Hb & Ht). constructor; [by apply section_range_Ok|]. by apply IH.
Qed.

Lemma pairwise_map {A B} (R : B → B → Prop) (f : A → B) l :
  pairwise R (map f l) ↔ pairwise (λ x y, R (f x) (f y)) l.
Proof.
  split; intros Hp i j x y Hij Hi Hj.
  - apply (Hp i j _ _ Hij); rewrite list_lookup_fmap; [by rewrite Hi|by rewrite Hj].
  - rewrite list_lookup_fmap in Hi, Hj.
    apply fmap_Some in Hi as (x' & Hi & ->), Hj as (y' & Hj & ->). by apply (Hp i j).
Qed.

(** A section directory is accepted if and only if every section lies
    between the end of the directory and the footer, without overflow, and
    no two of its sections share a byte, whatever their order in the file. *)
Theorem validate_section_ranges_correct records directory_end footer_offset :
  footer_offset <= u64_MAX →
  validate_section_ranges records directory_end footer_offset = Ok tt ↔
  Forall (λ r, directory_end <= sd_offset r ∧ section_end r <= footer_offset) records ∧
  pairwise disjoint_sections records.
Proof.
  intros Hf. unfold validate_section_ranges.
  pose proof (section_ranges_Ok directory_end footer_offset records) as Hr.
  destruct (try_map _ records) as [ranges|e].
  2: { split; [done|]. intros [Hin _]. discriminate (proj2 (Hr (map range_of records) Hf) (conj eq_refl Hin)). }
  destruct (proj1 (Hr ranges Hf) eq_refl) as [-> Hin]. cbn [mbind result_bind].
  destruct (insertion_sort_stable compare_range (map range_of records)) as (Hs & Hp & _).
  rewrite try_map_unit. unfold disjoint_sections. rewrite <-pairwise_map.
  transitivity (pairwise disjoint_ranges (insertion_sort compare_range (map range_of records))).
  - rewrite <-windows_disjoint; [|done|].
    + apply Forall_iff. intros [a b]. destruct (N.ltb_spec b.1 a.2); split; intros; (done || lia).
    + rewrite Hp. apply Forall_map, Forall_true. intros r. unfold range_of, section_end; cbn. lia.
  - split; [intros Hx; split; [exact Hin|]|intros [_ Hx]]; (eapply pairwise_perm; [|exact Hx]);
      [by symmetry|done].
Qed.

Lemma validate_section_ranges_correct_witness :
  let a := {| sd_section_type := 2; sd_section_version := 1; sd_flags := 0; sd_offset := 140;
    sd_length := 20; sd_crc32c := 0; sd_reserved := 0 |} in
  let b := {| sd_section_type := 5; sd_section_version := 1; sd_flags := 0; sd_offset := 100;
    sd_length := 40; sd_crc32c := 0; sd_reserved := 0 |} in
  Forall (λ r, 96 <= sd_offset r ∧ section_end r <= 160) [a; b] ∧ pairwise disjoint_sections [a; b].
Proof. apply validate_section_ranges_correct; [done|]. vm_compute. reflexivity. Defined.

(** ** What [read_catalog] establishes *)

(** Where the payload area and the footer lie. *)
Definition archive_bounds (file : list byte) (p : ParsedArchive) : Prop :=
  N.of_nat HEADER_LEN <= sd_offset (pa_payload_section p) ∧
  section_end (pa_payload_section p) <= pa_footer_offset p ∧
  pa_footer_offset p + N.of_nat FOOTER_LEN = len file ∧
  vr_archive_bytes (pa_report p) = len file.

Lemma section_values_in (m : Sections) k r : m !! k = Some r → r ∈ section_values m.
Proof.
  intros Hk. unfold section_values. apply list_elem_of_omap. exists k. split; [|done].
  apply elem_of_ascending, elem_of_dom. eauto.
Qed.

Section catalog_theorems.
Context `{Crc32c} `{CatalogJson}.

Lemma read_sections_Ok file limits header footer dl m :
  read_sections file limits = Ok (header, footer, dl, m) →
  gh_footer_offset header + N.of_nat FOOTER_LEN = len file ∧
  ∀ k r, m !! k = Some r →
    N.of_nat HEADER_LEN <= sd_offset r ∧ section_end r <= gh_footer_offset header.
Proof.
  unfold read_sections. cbv zeta. intros Hr. res_inv. arith_inv.
  cbn [Format.gh_footer_offset] in *.
  match goal with H : validate_section_ranges _ _ _ = _ |- _ => rename H into Hv end.
  unfold validate_section_ranges in Hv. res_inv.
  match goal with H : try_map (section_range _ _) _ = Ok _ |- _ => apply section_ranges_Ok in H as [_ Hin]; [|lia] end.
  split; [lia|]. intros k r Hk%section_values_in. rewrite Forall_forall in Hin.
  destruct (Hin r Hk). split; [|done]. lia.
Qed.

Lemma read_catalog_bounds file limits p :
  run_calm (read_catalog file limits) = Ok p → archive_bounds file p.
Proof.
  unfold read_catalog. rewrite run_calm_bind, run_calm_checkpoint. cbn [mbind result_bind].
  rewrite run_calm_bind, run_calm_lift.
  destruct (read_sections file limits) as [[[[header footer] dl] m]|] eqn:Hs; [|done].
  cbn [mbind result_bind]. rewrite run_calm_bind, run_calm_lift.
  destruct (read_tables _ _ _ _ _) as [tables|] eqn:Ht; [|done]. cbn [mbind result_bind]. intros Hc.
  apply read_sections_Ok in Hs as [Hlen Hm].
  assert (Hp : m !! SectionType_as_u16 PayloadArea = Some (tb_payload_section tables)).
  { unfold read_tables in Ht. cbv zeta in Ht. unfold required_section in Ht. res_inv. done. }
  destruct (Hm _ _ Hp) as [Hlo Hhi].
  unfold check_tables in Hc. calm_inv. unfold archive_bounds. cbn. done.
Qed.
End catalog_theorems.

(** C10: a catalog that is accepted is well formed, whatever the environment:
    entry ids are positions, paths are valid, distinct and relative, files
    name their group, a hardlink names an earlier file of the same size and
    hash, symlinks stay inside the root, every file has exactly one restore
    record, the records of a group tile its output, the groups tile the
    payload area, which lies between directory and footer, and the reported
    totals are those of the entries. *)
Theorem read_catalog_correct {S : Type} `{Env S} `{Crc32c} `{CatalogJson} file limits s p s' :
  read_catalog file limits s = (Ok p, s') → catalog_ok limits p ∧ archive_bounds file p.
Proof.
  intros Hr. pose proof (follows_Ok_inv _ _ _ _ _ (read_catalog_follows file limits) Hr) as Hc.
  split; [by apply (read_catalog_ok file)|by apply (read_catalog_bounds file limits)].
Qed.

(** ** Restoring files from a catalog *)

Lemma sub_sub {A} a b o n (l : list A) : (o + n <= b)%nat → sub o n (sub a b l) = sub (a + o) n l.
Proof.
  intros Ho. unfold sub. rewrite skipn_firstn_comm, drop_drop, take_take. by rewrite Nat.min_l by lia.
Qed.

Lemma slice_of_length decoded r :
  rm_group_offset r + rm_length r <= len decoded → len (slice_of decoded r) = rm_length r.
Proof. intros Hw. unfold slice_of, len in *. rewrite length_sub; lia. Qed.

(** C11: in a well-formed catalog every file and every hardlink can be
    restored: the lookups of its source entry, restore record and group
    succeed, every range of it that lies within its size is the same range
    of its slice of the group's output, and together the slices of a group
    are the group's output: no byte is lost, duplicated or shared. *)
Theorem restored_files_correct limits p :
  catalog_ok limits p → max_group_output limits <= u64_MAX →
  (∀ i e, pa_entries p !! i = Some e → is_file e || is_hardlink e = true →
    ∃ src g r record, file_source_entry e (pa_entries p) = Ok src ∧ er_kind src = File g ∧
      restore_for_entry p (er_entry_id src) = Ok r ∧ pa_groups p !! N.to_nat g = Some record ∧
      ∀ decoded, len decoded = gr_uncompressed_len (gt_group record) →
        len (slice_of decoded r) = er_size e ∧
        ∀ offset length, offset + length <= er_size e →
          restored_slice decoded r offset length =
          Ok (sub (N.to_nat offset) (N.to_nat length) (slice_of decoded r))) ∧
  (∀ g record decoded, pa_groups p !! N.to_nat g = Some record →
    len decoded = gr_uncompressed_len (gt_group record) →
    concat (map (slice_of decoded) (mappings_of (pa_restore_map p) g)) = decoded).
Proof.
  intros Hok Hmax. split.
  - intros i e Hi Hk.
    assert (∃ j src g, file_source_entry e (pa_entries p) = Ok src ∧ pa_entries p !! j = Some src ∧
      er_kind src = File g ∧ er_size src = er_size e) as (j & src & g & Hsrc & Hj & Hg & Hsize).
    { destruct (catalog_entries _ _ Hok i e Hi) as (_ & _ & Hkind).
      unfold file_source_entry, is_file, is_hardlink in *.
      destruct (er_kind e) as [g| |t|t d] eqn:He; try discriminate; [by exists i, e, g|].
      destruct Hkind as (_ & target & Ht & Hf & Hs & _). rewrite Ht.
      destruct (er_kind target) as [g| | |] eqn:Hkt; try discriminate. by exists (N.to_nat t), target, g. }
    destruct (file_lookups _ _ _ _ _ Hok Hj Hg) as (r & record & Hr & Hrec & Hin & Hlen & _ & Hu & Hm).
    exists src, g, r, record. destruct (catalog_entries _ _ Hok j src Hj) as [-> _].
    split; [done|]. split; [done|]. split; [done|]. split; [done|]. intros decoded Hd.
    pose proof (mapped_within _ _ _ _ Hm Hin). split; [rewrite slice_of_length; lia|].
    intros offset length Ho. rewrite restored_slice_Ok by lia. unfold slice_of.
    rewrite sub_sub by lia. do 2 f_equal. lia.
  - intros g record decoded Hg Hd.
    destruct (groups_ok_lookup _ _ _ _ _ _ _ _ (catalog_groups _ _ Hok) Hg) as (_ & _ & Hm).
    rewrite N.add_0_l, N2Nat.id in Hm. by rewrite (mapped_concat _ _ _ decoded Hm Hd).
Qed.

(** ** Hashing a range of the file *)

Section digest.
Context `{Crc32c} `{Laws : !Crc32cLaws} `{Blake3}.

Lemma len_sub {A} off n (l : list A) : len (sub off n l) = N.min (N.of_nat n) (len l - N.of_nat off).
Proof. unfold sub, len. rewrite length_take, length_drop. lia. Qed.

Lemma sub_app_next {A} off n m (l : list A) : (n <= m)%nat →
  sub off n l ++ sub (off + n) (m - n) l = sub off m l.
Proof. intros Hn. rewrite <-sub_split. f_equal. lia. Qed.

(** The bytes hashed by the loop. *)
Definition digested (file : list byte) (position remaining crc : N) (hashed : list byte) :
    Result (N * N * N * list byte) :=
  let bytes := sub (N.to_nat position) (N.to_nat remaining) file in
  if (remaining =? 0) || (position + remaining <=? len file)
  then Ok (position + remaining, 0, crc32c_append crc bytes, hashed ++ bytes)
  else Err (Io UnexpectedEof).

Lemma digest_step_run {S} `{Env S} file position remaining crc hashed :
  0 < remaining →
  follows (digest_step file (position, remaining, crc, hashed))
    (let wanted := N.min remaining IO_BUFFER_SIZE in
     let buffer := sub (N.to_nat position) (N.to_nat wanted) file in
     if len buffer =? 0 then Err (Io UnexpectedEof)
     else Ok (position + len buffer, remaining - len buffer, crc32c_append crc buffer, hashed ++ buffer)).
Proof.
  intros Hr. unfold digest_step. apply follows_seq with tt; [apply follows_checkpoint|].
  apply follows_seq with (N.min remaining IO_BUFFER_SIZE).
  { rewrite usize_try_from_ok; [apply follows_lift|]. unfold IO_BUFFER_SIZE. lia. }
  cbv zeta. apply follows_if; intros _; [apply follows_fail|apply follows_ret].
Qed.

Lemma digested_next file position remaining crc hashed read :
  crc <= u32_MAX → read <= remaining → read <= len file - position → 0 < read →
  (read = N.min remaining IO_BUFFER_SIZE ∨ position + read = len file) →
  let buffer := sub (N.to_nat position) (N.to_nat read) file in
  digested file (position + read) (remaining - read) (crc32c_append crc buffer) (hashed ++ buffer) =
  digested file position remaining crc hashed.
Proof.
  intros Hc Hr Hf Hp Hend buffer. unfold digested.
  replace (position + read + (remaining - read)) with (position + remaining) by lia.
  rewrite (proj2 (N.eqb_neq remaining 0)) by lia. cbn [orb].
  destruct (N.leb_spec (position + remaining) (len file)) as [Hin|Hin].
  - rewrite orb_true_r. rewrite <-crc32c_append_app, <-app_assoc by done.
    unfold buffer. rewrite N2Nat.inj_add, N2Nat.inj_sub, sub_app_next by lia. done.
  - rewrite orb_false_r. rewrite (proj2 (N.eqb_neq _ _)); [done|]. unfold IO_BUFFER_SIZE in Hend. lia.
Qed.

Lemma digest_loop {S} `{Env S} file fuel position remaining crc hashed :
  (length file - N.to_nat position < fuel)%nat → crc <= u32_MAX →
  follows (while_m fuel (λ '(_, remaining, _, _), 0 <? remaining) (digest_step file)
    (position, remaining, crc, hashed)) (digested file position remaining crc hashed).
Proof.
  revert position remaining crc hashed.
  induction fuel as [|fuel IH]; intros position remaining crc hashed Hf Hc; [lia|].
  cbn [while_m]. destruct (N.ltb_spec 0 remaining) as [Hr|Hr].
  2: { unfold digested. replace remaining with 0 by lia. cbn. unfold sub.
    rewrite take_0, app_nil_r, crc32c_append_nil, N.add_0_r by done. apply follows_ret. }
  pose proof (digest_step_run file position remaining crc hashed Hr) as Hs. cbv zeta in Hs.
  set (wanted := N.min remaining IO_BUFFER_SIZE) in *.
  set (buffer := sub (N.to_nat position) (N.to_nat wanted) file) in *.
  assert (Hw : 0 < wanted <= remaining) by (unfold wanted, IO_BUFFER_SIZE; lia).
  assert (Hb : len buffer = N.min wanted (len file - position)) by (unfold buffer; rewrite len_sub; lia).
  destruct (N.eqb_spec (len buffer) 0) as [Hz|Hz].
  - unfold digested. rewrite (proj2 (N.eqb_neq remaining 0)) by lia.
    rewrite (proj2 (N.leb_gt _ _)) by lia. cbn [orb].
    by apply (follows_bind _ (Err (Io UnexpectedEof)) _ (λ _, Err (Io UnexpectedEof))).
  - eapply follows_seq; [exact Hs|].
    assert (Hbuf : buffer = sub (N.to_nat position) (N.to_nat (len buffer)) file).
    { unfold buffer at 1, sub. rewrite Hb. unfold len. destruct (N.le_gt_cases wanted (len file - position)).
      - f_equal. unfold len in *. lia.
      - unfold len in *. rewrite !take_ge; [done|rewrite length_drop; lia..]. }
    rewrite <-(digested_next file position remaining crc hashed (len buffer)), <-Hbuf by lia.
    apply IH; [unfold len in *; lia|apply crc32c_append_u32].
Qed.

(** The checksum and the hash of the range, when it lies in the file. *)
Lemma digest_range_follows {S} `{Env S} file offset length :
  follows (digest_range file offset length)
    (if (length =? 0) || (offset + length <=? len file)
     then let bytes := sub (N.to_nat offset) (N.to_nat length) file in Ok (crc32c bytes, blake3 bytes)
     else Err (Io UnexpectedEof)).
Proof.
  unfold digest_range.
  pose proof (digest_loop file (Datatypes.S (List.length file)) offset length 0 []) as Hl.
  unfold digested in Hl. destruct (_ || _).
  - eapply follows_seq; [apply Hl; lia|]. apply follows_ret.
  - apply (follows_bind _ (Err (Io UnexpectedEof)) _ (λ _, Err (Io UnexpectedEof))); [apply Hl; lia|done].
Qed.
End digest.

(** ** Verification *)

Lemma try_map_all {A} (f : A → Result unit) l us : try_map f l = Ok us → ∀ a, a ∈ l → f a = Ok tt.
Proof.
  intros Hm a Ha. pose proof (proj1 (try_map_unit f l)) as Hu. rewrite Hm in Hu.
  specialize (Hu eq_refl). rewrite Forall_forall in Hu. auto.
Qed.

Lemma run_calm_for_each {A} (f : A → M unit unit) l :
  run_calm (for_each f l) = Ok tt → ∀ a, a ∈ l → run_calm (f a) = Ok tt.
Proof.
  unfold for_each. induction l as [|b l IH]; cbn [fold_m]; [by intros _ a ?%not_elem_of_nil|].
  rewrite run_calm_bind. intros ([] & Hb & Hl)%bind_Ok a [->|Ha]%elem_of_cons; auto.
Qed.

(** The data of one restore record: its slice of its decoded group. *)
Definition restored `{Crc32c} `{Blake3} `{Backends} (file : list byte) (limits : DecodeLimits)
    (p : ParsedArchive) (r : RestoreMapRecord) (content : list byte) : Prop :=
  ∃ record decoded, pa_groups p !! N.to_nat (rm_group_id r) = Some record ∧
    run_calm (decode_group file record (pa_codec_registry p) limits) = Ok decoded ∧
    restored_slice decoded r 0 (rm_length r) = Ok content.

(** An archive whose every checksum and hash has been compared. *)
Record verified `{Crc32c} `{Blake3} `{Backends} (file : list byte) (limits : DecodeLimits)
    (p : ParsedArchive) : Prop := {
  verified_catalog : catalog_ok limits p;
  verified_bounds : archive_bounds file p;
  verified_payload : crc32c (sub (N.to_nat (sd_offset (pa_payload_section p)))
    (N.to_nat (sd_length (pa_payload_section p))) file) = sd_crc32c (pa_payload_section p);
  verified_files : ∀ r, r ∈ pa_restore_map p → ∃ e content,
    pa_entries p !! N.to_nat (rm_entry_id r) = Some e ∧
    restored file limits p r content ∧ blake3 content = er_blake3 e;
  verified_root : blake3 (sub 0 (N.to_nat (pa_footer_offset p)) file) = pa_expected_root p ∧
    vr_blake3_root (pa_report p) = pa_expected_root p;
}.

Section verify_proofs.
Context `{Crc32c} `{Laws : !Crc32cLaws} `{Blake3} `{Backends} `{CatalogJson}.

Lemma digest_range_run file offset length v :
  run_calm (digest_range file offset length) = Ok v →
  let bytes := sub (N.to_nat offset) (N.to_nat length) file in v = (crc32c bytes, blake3 bytes).
Proof.
  rewrite (follows_calm _ _ (digest_range_follows file offset length)).
  cbv zeta. destruct (_ || _); [by intros [= <-]|done].
Qed.

Lemma decode_group_follows {S} `{Env S} file record registry limits :
  follows (decode_group file record registry limits)
    (run_calm (decode_group file record registry limits)).
Proof. unfold decode_group. follows_calm_run. Qed.

Lemma digest_range_same {S} `{Env S} file offset length :
  follows (digest_range file offset length) (run_calm (digest_range file offset length)).
Proof.
  rewrite (follows_calm _ _ (digest_range_follows file offset length)). apply digest_range_follows.
Qed.

Lemma verify_open_file_follows {S} `{Env S} file limits :
  follows (verify_open_file file limits) (run_calm (verify_open_file file limits)).
Proof.
  unfold verify_open_file, for_each. apply follows_run_bind; [apply read_catalog_follows|]. intros p.
  apply follows_run_bind; [apply digest_range_same|]. intros [crc h]. destruct (negb _); [apply follows_fail|].
  apply follows_run_bind.
  - apply follows_run_fold. intros b a. apply follows_run_bind; [apply follows_checkpoint|]. intros _.
    apply follows_run_bind; [apply decode_group_follows|]. follows_calm_run.
  - intros _. apply follows_run_bind; [apply digest_range_same|]. follows_calm_run.
Qed.

Lemma restore_group limits p r :
  catalog_ok limits p → r ∈ pa_restore_map p →
  ∃ record, pa_groups p !! N.to_nat (rm_group_id r) = Some record ∧ record ∈ pa_groups p ∧
    r ∈ mappings_of (pa_restore_map p) (gr_group_id (gt_group record)).
Proof.
  intros Hok Hr. pose proof (catalog_restore _ _ Hok) as Hall. rewrite Forall_forall in Hall.
  destruct (Hall r Hr) as (e & g & He & _ & Hk & Hg & _).
  destruct (catalog_entries _ _ Hok _ _ He) as (_ & _ & Hkind). rewrite Hk in Hkind.
  destruct Hkind as (record & Hrec & Hid). exists record. rewrite Hg. split; [done|].
  split; [by eapply list_elem_of_lookup_2|]. apply mappings_in. by rewrite Hid.
Qed.

Lemma verify_open_file_ok file limits p :
  run_calm (verify_open_file file limits) = Ok p → verified file limits p.
Proof.
  unfold verify_open_file. intros Hv. rewrite run_calm_bind in Hv.
  apply bind_Ok in Hv as (q & Hcat & Hv).
  pose proof (read_catalog_ok _ _ _ Hcat) as Hok. pose proof (read_catalog_bounds _ _ _ Hcat) as Hb.
  rewrite run_calm_bind in Hv. apply bind_Ok in Hv as ([crc h] & Hd & Hv). apply digest_range_run in Hd.
  injection Hd as -> ->. rewrite run_calm_if in Hv. destruct (negb _) eqn:Hcrc; [done|]. arith_inv.
  rewrite run_calm_bind in Hv. apply bind_Ok in Hv as ([] & Hgroups & Hv).
  rewrite run_calm_bind in Hv. apply bind_Ok in Hv as ([crc' root] & Hroot & Hv).
  apply digest_range_run in Hroot. injection Hroot as _ ->. rewrite run_calm_if in Hv.
  destruct (negb _) eqn:Hr; [done|]. arith_inv. injection Hv as <-.
  split; cbn; [by destruct Hok; split|exact Hb|done| |done].
  intros r Hin. destruct (restore_group _ _ _ Hok Hin) as (record & Hrec & Hmem & Hmap).
  pose proof (run_calm_for_each _ _ Hgroups record Hmem) as Hg. cbv beta in Hg. calm_inv.
  match goal with H : try_map _ _ = Ok _ |- _ => pose proof (try_map_all _ _ _ H r Hmap) as Hvr end.
  unfold verify_restore in Hvr. invres. eexists _, _. split; [eassumption|].
  split; [|eassumption]. eexists record, _. cbn. eauto.
Qed.
End verify_proofs.

(** C3: an archive that passes verification is sound to its last byte,
    whatever the environment: its catalog is well formed, the checksum of
    the payload area is the one in the section directory, the BLAKE3 hash of
    everything before the footer is the root in the footer, and the data
    restored for every file has the hash its entry records. *)
Theorem verify_open_file_correct {S : Type} `{Env S} `{Crc32c} `{Laws : !Crc32cLaws} `{Blake3}
    `{Backends} `{CatalogJson} file limits s p s' :
  verify_open_file file limits s = (Ok p, s') → verified file limits p.
Proof.
  intros Hr. apply verify_open_file_ok.
  exact (follows_Ok_inv _ _ _ _ _ (verify_open_file_follows file limits) Hr).
Qed.

(** ** A sample archive

    A directory [d] with the file [d/f], a hardlink [d/g] to it and a symlink
    [d/s] to [f]: one stored group.  Hash and parser are concrete functions:
    the hash keeps the first 32 bytes, the parser knows the five tables. *)

Module Sample.
Definition text (l : list N) : list byte := map byte_of l.
Definition hash : Blake3 := λ data, take 32 (data ++ zeros 32).
#[export] Existing Instance crc32c_castagnoli.
#[export] Existing Instance hash.
#[export] Existing Instance framing_backends.

Definition path (names : list (list byte)) : ArchivePath :=
  {| ap_components := map (λ name, {| pc_encoding := Utf8; pc_bytes := name |}) names |}.
Definition content : list byte := text [104; 105].
Definition d := text [100].
Definition f := text [102].
Definition entry (id : N) (names : list (list byte)) (size : N) (bytes : list byte) (kind : EntryKind) :=
  {| er_entry_id := id; er_path := path names; er_size := size; er_modified_ns := 0; er_mode := 420;
     er_blake3 := hash bytes; er_kind := kind |}.
Definition entries : list EntryRecord := [
  entry 0 [d] 0 [] Directory;
  entry 1 [d; f] 2 content (File 0);
  entry 2 [d; text [103]] 2 content (Hardlink 1);
  entry 3 [d; text [115]] 1 f
    (Symlink {| lt_components := [LinkNormal {| pc_encoding := Utf8; pc_bytes := f |}] |} false)].
Definition group : GroupTableRecord := {|
  gt_group := {| gr_version := 1; gr_flags := 0; gr_group_id := 0; gr_codec_chain_id := 0;
    gr_chunk_count := 1; gr_uncompressed_len := 2; gr_compressed_len := 2; gr_descriptor_len := 0;
    gr_payload_crc32c := crc32c content |};
  gt_payload_offset := 288 |}.
Definition restore_map : list RestoreMapRecord := [
  {| rm_entry_id := 1; rm_original_offset := 0; rm_length := 2; rm_group_id := 0; rm_group_offset := 0 |}].

Definition table {T} (tag : N) (value : T) (bytes : list byte) : option T :=
  if bool_decide (bytes = text [tag]) then Some value else None.
#[export] Instance json : CatalogJson := {|
  json_entries := table 69 entries;
  json_groups := table 71 [group];
  json_restore_map := table 82 restore_map;
  json_central_index := table 73 (map index_of entries);
  json_integrity := table 84 (map integrity_of entries) |}.

Definition section (t : SectionType) (offset : N) (bytes : list byte) : SectionDirectoryRecord := {|
  sd_section_type := SectionType_as_u16 t; sd_section_version := 1; sd_flags := 0;
  sd_offset := offset; sd_length := len bytes; sd_crc32c := crc32c bytes; sd_reserved := 0 |}.
Definition body : list byte := content ++ text [69; 71; 82; 73; 84].
Definition directory : list byte := concat (map SectionDirectoryRecord_encode [
  section EntryTable 290 (text [69]); section GroupTable 291 (text [71]);
  section PayloadArea 288 content; section RestoreMap 292 (text [82]);
  section CentralIndex 293 (text [73]); section IntegrityTree 294 (text [84])]).
Definition header : GlobalHeader := {|
  gh_major := MAJOR_VERSION; gh_minor := MINOR_VERSION; gh_flags := 0; gh_archive_id := zeros 16;
  gh_original_total_size := 4; gh_entry_count := 4; gh_logical_chunk_count := 1; gh_group_count := 1;
  gh_section_directory_offset := 96; gh_footer_offset := 295; gh_section_count := 6 |}.
Definition contents : list byte := GlobalHeader_encode header ++ directory ++ body.
Definition archive : list byte := contents ++ Footer_encode {|
  ft_archive_length := 359; ft_blake3_root := hash contents;
  ft_directory_crc32c := crc32c directory; ft_version := 1 |}.
Definition limits : DecodeLimits := DecodeLimits_default.
Definition catalog : ParsedArchive :=
  match run_calm (read_catalog archive limits) with
  | Ok p => p
  | Err _ => {| pa_entries := []; pa_groups := []; pa_restore_map := []; pa_codec_registry := None;
      pa_report := {| vr_archive_bytes := 0; vr_original_bytes := 0; vr_entry_count := 0;
        vr_file_count := 0; vr_directory_count := 0; vr_hardlink_count := 0; vr_symlink_count := 0;
        vr_group_count := 0; vr_blake3_root := [] |};
      pa_payload_section := section PayloadArea 0 []; pa_footer_offset := 0; pa_expected_root := [] |}
  end.
End Sample.

#[local] Existing Instances crc32c_castagnoli framing_backends Sample.hash Sample.json.

Lemma sample_catalog_ok : catalog_ok Sample.limits Sample.catalog.
Proof. apply (read_catalog_ok Sample.archive). vm_compute. reflexivity. Qed.

Lemma read_catalog_correct_witness :
  catalog_ok Sample.limits Sample.catalog ∧ archive_bounds Sample.archive Sample.catalog.
Proof.
  apply (read_catalog_correct (S := unit) Sample.archive Sample.limits tt Sample.catalog tt).
  vm_compute. reflexivity.
Defined.

Lemma restored_files_correct_witness :
  ∃ src g r record, file_source_entry (Sample.entry 2 [Sample.d; Sample.text [103]] 2 Sample.content (Hardlink 1))
      (pa_entries Sample.catalog) = Ok src ∧ er_kind src = File g ∧
    restore_for_entry Sample.catalog (er_entry_id src) = Ok r ∧
    pa_groups Sample.catalog !! N.to_nat g = Some record ∧
    restored_slice Sample.content r 1 1 = Ok (Sample.text [105]).
Proof.
  destruct (proj1 (restored_files_correct Sample.limits Sample.catalog sample_catalog_ok ltac:(done)) 2%nat
    (Sample.entry 2 [Sample.d; Sample.text [103]] 2 Sample.content (Hardlink 1)))
    as (src & g & r & record & Hs & Hk & Hr & Hg & Hd);
    [vm_compute; reflexivity|reflexivity|].
  exists src, g, r, record. split; [exact Hs|]. split; [exact Hk|]. split; [exact Hr|]. split; [exact Hg|].
  assert (Hrec : record = Sample.group).
  { vm_compute in Hs. injection Hs as <-. cbn in Hk. injection Hk as <-. vm_compute in Hg. by injection Hg as <-. }
  subst record. destruct (Hd Sample.content eq_refl) as [_ Hsl]. rewrite (Hsl 1 1) by done.
  assert (Hr' : r = {| rm_entry_id := 1; rm_original_offset := 0; rm_length := 2; rm_group_id := 0;
    rm_group_offset := 0 |}).
  { vm_compute in Hs. injection Hs as <-. vm_compute in Hr. by injection Hr as <-. }
  subst r. reflexivity.
Defined.

Lemma verify_open_file_correct_witness :
  verified Sample.archive Sample.limits
    (match run_calm (verify_open_file Sample.archive Sample.limits) with
     | Ok p => p | Err _ => Sample.catalog end).
Proof.
  apply (verify_open_file_correct (Laws := crc32c_castagnoli_laws) (S := unit) Sample.archive
    Sample.limits tt _ tt).
  vm_compute. reflexivity.
Defined.
