(* ===== verification/Extract.v ===== *)
(** * Listing, inspecting and extracting from an archive
    ([crates/pithos-engine/src/lib.rs])

    [list_with_control], [inspect_with_control], [extract_to_writer_with_control]
    and [read_range_to_writer_with_control].  The archive is the result of
    [File::open]; the caller's writer is an effect. *)

From S2P Require Import Prelude Core Effects Bytes Format Codecs Paths Catalog.

(** ** [Path::to_string_lossy]: U+FFFD replaces each maximal invalid part *)

(** Whether the bytes start with a character, and the length of it or of the
    part to replace. *)
Definition utf8_char (l : list byte) : bool * nat :=
  match l with
  | [] => (true, 0%nat)
  | b0 :: rest =>
      let get i := default Byte.x00 (rest !! i) in
      if byte_val b0 <? 0x80 then (true, 1%nat)
      else if between 0xC2 0xDF b0 then
        if continuation (get 0%nat) then (true, 2%nat) else (false, 1%nat)
      else if between 0xE0 0xEF b0 then
        if (if byte_val b0 =? 0xE0 then between 0xA0 0xBF (get 0%nat)
            else if byte_val b0 =? 0xED then between 0x80 0x9F (get 0%nat)
            else continuation (get 0%nat))
        then if continuation (get 1%nat) then (true, 3%nat) else (false, 2%nat)
        else (false, 1%nat)
      else if between 0xF0 0xF4 b0 then
        if (if byte_val b0 =? 0xF0 then between 0x90 0xBF (get 0%nat)
            else if byte_val b0 =? 0xF4 then between 0x80 0x8F (get 0%nat)
            else continuation (get 0%nat))
        then
          if continuation (get 1%nat) then
            if continuation (get 2%nat) then (true, 4%nat) else (false, 3%nat)
          else (false, 2%nat)
        else (false, 1%nat)
      else (false, 1%nat)
  end.

Definition replacement : list byte := map byte_of [0xEF; 0xBF; 0xBD].

Fixpoint lossy_loop (fuel : nat) (l : list byte) : list byte :=
  match fuel, l with
  | Datatypes.S fuel, _ :: _ =>
      let '(valid, n) := utf8_char l in
      (if valid then take n l else replacement) ++ lossy_loop fuel (drop n l)
  | _, _ => []
  end.

Definition to_string_lossy (path : list byte) : list byte := lossy_loop (length path) path.

(** ** Summaries and reports *)

Inductive ArchiveEntryKind := FileKind | DirectoryKind | HardlinkKind | SymlinkKind.

Definition archive_entry_kind (kind : EntryKind) : ArchiveEntryKind :=
  match kind with
  | File _ => FileKind
  | Directory => DirectoryKind
  | Hardlink _ => HardlinkKind
  | Symlink _ _ => SymlinkKind
  end.

Record ArchiveEntrySummary := {
  es_entry_id : N;
  es_path : list byte;
  es_kind : ArchiveEntryKind;
  es_size : N;
  es_modified_ns : Z;
}.

Definition entry_summary (entry : EntryRecord) : Result ArchiveEntrySummary :=
  path ← ArchivePath_to_path_buf (er_path entry);
  Ok {| es_entry_id := er_entry_id entry; es_path := to_string_lossy path;
        es_kind := archive_entry_kind (er_kind entry); es_size := er_size entry;
        es_modified_ns := er_modified_ns entry |}.

Record ArchiveInspection := {
  ai_archive_bytes : N;
  ai_original_bytes : N;
  ai_entry_count : N;
  ai_file_count : N;
  ai_directory_count : N;
  ai_hardlink_count : N;
  ai_symlink_count : N;
  ai_group_count : N;
  ai_format_version : string;
  ai_metadata_verified : bool;
}.

Record ExtractReport := {
  xr_path : list byte;
  xr_bytes_written : N;
  xr_kind : ArchiveEntryKind;
}.

(** [to_path_buf().unwrap_or_default()]. *)
Definition extract_report (entry : EntryRecord) (bytes_written : N) : ExtractReport := {|
  xr_path := to_string_lossy
    (match ArchivePath_to_path_buf (er_path entry) with Ok path => path | Err _ => [] end);
  xr_bytes_written := bytes_written;
  xr_kind := archive_entry_kind (er_kind entry) |}.

Record ReadRangeReport := {
  rr_path : list byte;
  rr_offset : N;
  rr_length : N;
  rr_entry_size : N;
  rr_blake3 : list byte;
}.

(** ** The caller's writer *)

(** [output.write_all(bytes)]. *)
Class Output (S : Type) := write_all : list byte → S → Result unit * S.

(** [written s] is what the writer has been given; checkpoints and memory
    reservations do not write. *)
Class OutputLaws (S : Type) `{Env S} `{Output S} := {
  written : S → list byte;
  written_write : ∀ bytes s s', write_all bytes s = (Ok tt, s') → written s' = written s ++ bytes;
  written_checkpoint : ∀ s, written (env_checkpoint s).2 = written s;
  written_reserve : ∀ n s, written (env_reserve n s).2 = written s;
}.

(** A writer that collects, without aborts. *)
#[export] Instance collector_env : Env (list byte) :=
  {| env_checkpoint := λ s, (Ok tt, s); env_reserve := λ _ s, (true, s) |}.
#[export] Instance collector : Output (list byte) := λ bytes s, (Ok tt, s ++ bytes).
#[export, refine] Instance collector_laws : OutputLaws (list byte) := {| written := id |}.
Proof. all: done || by intros ??? [= <-]. Defined.

(** ** The operations *)

Section extract.
Context {S : Type} `{Env S} `{Output S} `{Crc32c} `{Blake3} `{Backends} `{CatalogJson}.

Definition list_with_control (archive : Result (list byte)) (limits : DecodeLimits) :
    M S (list ArchiveEntrySummary) :=
  checkpoint;;
  file ← lift archive;
  parsed ← read_catalog file limits;
  lift (try_map entry_summary (pa_entries parsed)).

Definition inspect_with_control (archive : Result (list byte)) (limits : DecodeLimits) :
    M S ArchiveInspection :=
  checkpoint;;
  file ← lift archive;
  parsed ← read_catalog file limits;
  let report := pa_report parsed in
  mret {|
    ai_archive_bytes := vr_archive_bytes report;
    ai_original_bytes := vr_original_bytes report;
    ai_entry_count := vr_entry_count report;
    ai_file_count := vr_file_count report;
    ai_directory_count := vr_directory_count report;
    ai_hardlink_count := vr_hardlink_count report;
    ai_symlink_count := vr_symlink_count report;
    ai_group_count := vr_group_count report;
    ai_format_version := "PAF 0.1-draft";
    ai_metadata_verified := true |}.

(** [parsed.entries.iter().find(|entry| entry.path == selector)]. *)
Definition find_entry (parsed : ParsedArchive) (selector : ArchivePath) : Result EntryRecord :=
  ok_or (InvalidMetadata "entry not found")
    (List.find (λ entry, bool_decide (er_path entry = selector)) (pa_entries parsed)).

(** [let EntryKind::File { group_id } = source.kind else { ... }] and the
    lookup of the group. *)
Definition source_group (parsed : ParsedArchive) (source : EntryRecord) (message : string) :
    Result GroupTableRecord :=
  match er_kind source with
  | File group_id => ok_or (InvalidMetadata "entry group") (pa_groups parsed !! N.to_nat group_id)
  | _ => Err (InvalidMetadata message)
  end.

Definition extract_to_writer_with_control (archive : Result (list byte)) (entry : list byte)
    (limits : DecodeLimits) : M S ExtractReport :=
  checkpoint;;
  selector ← lift (ArchivePath_from_relative entry);
  source_archive ← lift archive;
  parsed ← read_catalog source_archive limits;
  selected ← lift (find_entry parsed selector);
  source ← lift (file_source_entry selected (pa_entries parsed));
  group ← lift (source_group parsed source "stdout requires a file entry");
  restore ← lift (restore_for_entry parsed (er_entry_id source));
  decoded ← decode_group source_archive group (pa_codec_registry parsed) limits;
  bytes ← lift (restored_slice decoded restore 0 (rm_length restore));
  write_all bytes;;
  if negb (bool_decide (blake3 bytes = er_blake3 source)) then fail HashMismatch
  else mret (extract_report selected (er_size source)).

Definition read_range_to_writer_with_control (archive : Result (list byte)) (entry : list byte)
    (offset length : N) (limits : DecodeLimits) : M S ReadRangeReport :=
  checkpoint;;
  if max_group_output limits <? length then fail (ResourceLimit "range output") else
  selector ← lift (ArchivePath_from_relative entry);
  archive ← lift archive;
  parsed ← read_catalog archive limits;
  selected ← lift (find_entry parsed selector);
  source ← lift (file_source_entry selected (pa_entries parsed));
  end_ ← lift (ok_or IntegerOverflow (checked_add offset length));
  if er_size source <? end_ then fail InvalidRange else
  group ← lift (source_group parsed source "range requires a file entry");
  restore ← lift (restore_for_entry parsed (er_entry_id source));
  decoded ← decode_group archive group (pa_codec_registry parsed) limits;
  entry_bytes ← lift (restored_slice decoded restore 0 (rm_length restore));
  if negb (bool_decide (blake3 entry_bytes = er_blake3 source)) then fail HashMismatch else
  range_bytes ← lift (restored_slice decoded restore offset length);
  write_all range_bytes;;
  path ← lift (ArchivePath_to_path_buf (er_path selected));
  mret {| rr_path := to_string_lossy path; rr_offset := offset; rr_length := length;
          rr_entry_size := er_size source; rr_blake3 := blake3 range_bytes |}.
End extract.

(** ** Runs and what they write *)

#[export] Instance OutputLaws_unseen {S} `{OutputLaws S} : Unseen written.
Proof. split; [apply written_checkpoint|apply written_reserve]. Qed.

Section catalog_proofs.
Context {S T : Type} (obs : S → T) `{Env S} `{!Unseen obs} `{Crc32c} `{Blake3} `{Backends} `{CatalogJson}.

Lemma read_catalog_preserves file limits : preserves obs (read_catalog file limits).
Proof. unfold read_catalog, check_tables. preserves_run. Qed.
Lemma decode_group_preserves file record registry limits :
  preserves obs (decode_group file record registry limits).
Proof. unfold decode_group. preserves_run. Qed.
Lemma digest_range_preserves file offset length : preserves obs (digest_range file offset length).
Proof. unfold digest_range, digest_step. preserves_run. Qed.
Lemma verify_open_file_preserves file limits : preserves obs (verify_open_file file limits).
Proof.
  unfold verify_open_file, for_each.
  apply preserves_bind; [apply read_catalog_preserves|intros p].
  apply preserves_bind; [apply digest_range_preserves|intros [crc root]]. destruct (negb _); [apply preserves_fail|].
  apply preserves_bind; [apply preserves_fold; intros _ g|intros u].
  { apply preserves_bind; [by apply preserves_checkpoint|intros v].
    apply preserves_bind; [apply decode_group_preserves|intros decoded]. preserves_run. }
  apply preserves_bind; [apply digest_range_preserves|intros [crc' root']]. preserves_run.
Qed.
End catalog_proofs.

(** ** The selected entry and its source *)

Lemma find_entry_Ok p selector e :
  find_entry p selector = Ok e → ∃ i, pa_entries p !! i = Some e ∧ er_path e = selector.
Proof.
  unfold find_entry. rewrite ok_or_Ok. intros [Hin Hp]%find_some. apply list_elem_of_In in Hin.
  apply bool_decide_eq_true in Hp. apply list_elem_of_lookup in Hin as [i Hi]. eauto.
Qed.

(** What the lookups of a restored entry deliver. *)
Record sourced (limits : DecodeLimits) (p : ParsedArchive) (e src : EntryRecord)
    (record : GroupTableRecord) (r : RestoreMapRecord) : Prop := {
  sourced_size : er_size src = er_size e;
  sourced_hash : er_blake3 src = er_blake3 e;
  sourced_length : rm_length r = er_size e;
  sourced_restore : r ∈ pa_restore_map p;
  sourced_group : pa_groups p !! N.to_nat (rm_group_id r) = Some record;
}.

Lemma file_source_Ok limits p i e src :
  catalog_ok limits p → pa_entries p !! i = Some e → file_source_entry e (pa_entries p) = Ok src →
  ∃ j g, pa_entries p !! j = Some src ∧ er_entry_id src = N.of_nat j ∧ er_kind src = File g ∧
    er_size src = er_size e ∧ er_blake3 src = er_blake3 e.
Proof.
  intros Hok Hi Hs. destruct (catalog_entries _ _ Hok i e Hi) as (Hid & _ & Hkind).
  unfold file_source_entry in Hs. destruct (er_kind e) as [g| |t|t d] eqn:He; try discriminate.
  - injection Hs as <-. by exists i, g.
  - destruct Hkind as (_ & target & Ht & Hf & Hsz & Hh). rewrite Ht in Hs. injection Hs as <-.
    destruct (catalog_entries _ _ Hok _ _ Ht) as (Hid' & _). unfold is_file in Hf.
    destruct (er_kind target) as [g| | |] eqn:Hk; try discriminate. by exists (N.to_nat t), g.
Qed.

Lemma sourced_lookups limits p i e src record r message :
  catalog_ok limits p → pa_entries p !! i = Some e → file_source_entry e (pa_entries p) = Ok src →
  source_group p src message = Ok record → restore_for_entry p (er_entry_id src) = Ok r →
  sourced limits p e src record r.
Proof.
  intros Hok Hi Hs Hg Hr. destruct (file_source_Ok _ _ _ _ _ Hok Hi Hs) as (j & g & Hj & Hid & Hk & Hsz & Hh).
  destruct (file_lookups _ _ _ _ _ Hok Hj Hk) as (r' & record' & Hr' & Hrec & Hin & Hlen & _).
  rewrite Hid, Hr' in Hr. injection Hr as ->. apply mappings_in in Hin as [Hin Hgid].
  unfold source_group in Hg. rewrite Hk, Hrec in Hg. injection Hg as ->.
  split; try done; congruence.
Qed.

Lemma restored_slice_length decoded r offset length bytes :
  restored_slice decoded r offset length = Ok bytes → len bytes = length.
Proof.
  unfold restored_slice. intros Hr. invres. rewrite len_sub. lia.
Qed.

Lemma restored_slice_range decoded r offset length content bytes :
  restored_slice decoded r 0 (rm_length r) = Ok content →
  restored_slice decoded r offset length = Ok bytes →
  bytes = sub (N.to_nat offset) (N.to_nat length) content.
Proof.
  unfold restored_slice. intros Hc Hb. invres. rewrite sub_sub by lia. f_equal; lia.
Qed.

(** [content] is the data of the entry [e], which [path] selects. *)
Record selected_content `{Crc32c} `{Blake3} `{Backends} `{CatalogJson} (file : list byte)
    (limits : DecodeLimits) (path : list byte) (e : EntryRecord) (content : list byte) : Prop := {
  selected_catalog : ∃ p, run_calm (read_catalog file limits) = Ok p ∧ catalog_ok limits p ∧
    e ∈ pa_entries p ∧ ∃ r, r ∈ pa_restore_map p ∧ restored file limits p r content;
  selected_path : ArchivePath_from_relative path = Ok (er_path e);
  selected_length : len content = er_size e;
  selected_hash : blake3 content = er_blake3 e;
}.

Section selected.
Context {S : Type} `{Env S} `{Crc32c} `{Blake3} `{Backends} `{CatalogJson}.

Lemma selected_content_intro file limits (s s1 s2 s3 : S) p path selector e src record r decoded
    bytes message :
  read_catalog file limits s = (Ok p, s1) → ArchivePath_from_relative path = Ok selector →
  find_entry p selector = Ok e → file_source_entry e (pa_entries p) = Ok src →
  source_group p src message = Ok record → restore_for_entry p (er_entry_id src) = Ok r →
  decode_group file record (pa_codec_registry p) limits s2 = (Ok decoded, s3) →
  restored_slice decoded r 0 (rm_length r) = Ok bytes → blake3 bytes = er_blake3 src →
  selected_content file limits path e bytes ∧ er_size src = er_size e ∧ rm_length r = er_size e.
Proof.
  intros Hcat Hpath Hfind Hsrc Hgroup Hr Hdec Hsl Hh.
  pose proof (follows_Ok_inv _ _ _ _ _ (read_catalog_follows file limits) Hcat) as Hc.
  pose proof (follows_Ok_inv _ _ _ _ _ (decode_group_follows file record _ limits) Hdec) as Hd.
  pose proof (read_catalog_ok _ _ _ Hc) as Hok.
  apply find_entry_Ok in Hfind as (i & Hi & <-).
  destruct (sourced_lookups _ _ _ _ _ _ _ _ Hok Hi Hsrc Hgroup Hr) as [Hsz Hhash Hlen Hin Hg].
  split; [|done]. split; [|done| |congruence].
  - exists p. repeat match goal with |- _ ∧ _ => split end; [done..|by eapply list_elem_of_lookup_2|].
    exists r. split; [done|]. by exists record, decoded.
  - apply restored_slice_length in Hsl. congruence.
Qed.
End selected.

(** C5: if extracting an entry to a writer succeeds, whatever the
    environment, the writer has received exactly the data of the entry the
    path selects (restored from a well-formed catalog, of the recorded size
    and hash) after what it already had, and the report is about that entry. *)
Theorem extract_to_writer_correct {S : Type} `{OutputLaws S} `{Crc32c} `{Blake3} `{Backends}
    `{CatalogJson} archive path limits (s s' : S) report :
  extract_to_writer_with_control archive path limits s = (Ok report, s') →
  ∃ file e content, archive = Ok file ∧ selected_content file limits path e content ∧
    written s' = written s ++ content ∧ report = extract_report e (er_size e).
Proof.
  unfold extract_to_writer_with_control. intros Hx. m_inv.
  arith_inv. match goal with
  | Hc : read_catalog ?f limits ?s1 = (Ok ?p, ?s2), Hd : decode_group _ _ _ _ ?s2 = (Ok _, ?s3),
    Hw : write_all ?b ?s3 = (Ok ?u, _) |- _ =>
      exists f; destruct u; rename Hc into Hcat; rename Hd into Hdec; rename Hw into Hwrite
  end.
  destruct (selected_content_intro _ _ _ _ _ _ _ path _ _ _ _ _ _ _ _ Hcat ltac:(eassumption) ltac:(eassumption)
    ltac:(eassumption) ltac:(eassumption) ltac:(eassumption) Hdec ltac:(eassumption) ltac:(eassumption))
    as (Hsel & Hsz & _).
  eexists _, _. split; [done|]. split; [exact Hsel|]. rewrite (written_write _ _ _ Hwrite), Hsz.
  rewrite (preserves_Ok written _ _ _ _ (decode_group_preserves written _ _ _ _) Hdec).
  rewrite (preserves_Ok written _ _ _ _ (read_catalog_preserves written _ _) Hcat).
  match goal with H : checkpoint s = _ |- _ => rewrite (preserves_Ok written _ _ _ _ (preserves_checkpoint written) H) end. done.
Qed.


(** ** Extraction of a verified archive *)

Lemma collector_run {A} (m : M (list byte) A) v out :
  preserves written m → follows m (Ok v) → m out = (Ok v, out).
Proof.
  intros Hs Hf. specialize (Hs out). specialize (Hf out). destruct (m out) as [r out']; cbn in *.
  destruct Hf as [->|(e & _ & [(s & s' & Ha)|(_ & n & s & s' & Ha)])]; [by subst|discriminate..].
Qed.

Lemma M_bind_run {S A B} (m : M S A) (f : A → M S B) s v s1 :
  m s = (Ok v, s1) → (m ≫= f) s = f v s1.
Proof. intros E. unfold mbind, M_bind. by rewrite E. Qed.

(** Run the collector up to the next result that is not known. *)
Ltac m_run out :=
  repeat (cbv beta; first
  [ rewrite (M_bind_run (@checkpoint (list byte) collector_env) _ out tt out eq_refl)
  | rewrite (M_bind_run (lift (Ok _)) _ out _ out eq_refl)
  | rewrite (M_bind_run (@write_all (list byte) collector _) _ out tt _ eq_refl)
  | match goal with H : ?m out = (Ok _, out) |- _ => rewrite (M_bind_run m _ out _ _ H) end ]);
  cbv beta.

Lemma find_entry_unique p i e :
  NoDup (map er_path (pa_entries p)) → pa_entries p !! i = Some e → find_entry p (er_path e) = Ok e.
Proof.
  intros Hnd Hi. unfold find_entry. apply ok_or_Ok.
  destruct (List.find _ (pa_entries p)) as [e'|] eqn:Hf.
  - apply find_some in Hf as [Hin Hp]. apply bool_decide_eq_true in Hp.
    apply list_elem_of_In, list_elem_of_lookup in Hin as [j Hj].
    assert (i = j) as <-; [|congruence].
    eapply NoDup_lookup; [exact Hnd|rewrite list_lookup_fmap, Hi; done|].
    rewrite list_lookup_fmap, Hj. cbn. congruence.
  - apply list_elem_of_lookup_2, list_elem_of_In in Hi. apply (find_none _ _ Hf) in Hi.
    by apply bool_decide_eq_false in Hi.
Qed.

(** The catalog of a verified archive is the one that was read, up to the
    root in its report. *)
Lemma verify_open_file_catalog `{Crc32c} `{Blake3} `{Backends} `{CatalogJson} file limits p :
  run_calm (verify_open_file file limits) = Ok p →
  ∃ q, run_calm (read_catalog file limits) = Ok q ∧ pa_entries q = pa_entries p ∧
    pa_groups q = pa_groups p ∧ pa_restore_map q = pa_restore_map p ∧
    pa_codec_registry q = pa_codec_registry p.
Proof.
  unfold verify_open_file. rewrite run_calm_bind. intros (q & Hq & Hv)%bind_Ok. exists q. split; [done|].
  rewrite run_calm_bind in Hv. apply bind_Ok in Hv as ([crc h] & _ & Hv). rewrite run_calm_if in Hv.
  destruct (negb _); [done|]. rewrite run_calm_bind in Hv. apply bind_Ok in Hv as ([] & _ & Hv).
  rewrite run_calm_bind in Hv. apply bind_Ok in Hv as ([crc' root] & _ & Hv).
  rewrite run_calm_if in Hv. destruct (negb _); [done|]. by injection Hv as <-.
Qed.

Section verified_extraction.
Context `{Crc32c} `{Laws : !Crc32cLaws} `{Blake3} `{Backends} `{CatalogJson}.

(** Everything an extraction computes before it writes. *)
Record extraction (file : list byte) (limits : DecodeLimits) (q : ParsedArchive) (e src : EntryRecord)
    (record : GroupTableRecord) (r : RestoreMapRecord) (decoded content : list byte) : Prop := {
  extraction_catalog : run_calm (read_catalog file limits) = Ok q;
  extraction_ok : catalog_ok limits q;
  extraction_find : find_entry q (er_path e) = Ok e;
  extraction_path : ∃ path, ArchivePath_to_path_buf (er_path e) = Ok path;
  extraction_source : file_source_entry e (pa_entries q) = Ok src;
  extraction_group : ∀ message, source_group q src message = Ok record;
  extraction_restore : restore_for_entry q (er_entry_id src) = Ok r;
  extraction_decode :
    run_calm (decode_group file record (pa_codec_registry q) limits) = Ok decoded;
  extraction_slice : restored_slice decoded r 0 (rm_length r) = Ok content;
  extraction_hash : blake3 content = er_blake3 src;
  extraction_src_size : er_size src = er_size e;
  extraction_src_hash : er_blake3 src = er_blake3 e;
  extraction_length : rm_length r = er_size e;
}.

Lemma verified_extraction_exists file limits p i e :
  run_calm (verify_open_file file limits) = Ok p →
  pa_entries p !! i = Some e → is_file e || is_hardlink e = true →
  ∃ q src record r decoded content, extraction file limits q e src record r decoded content.
Proof.
  intros Hv Hi Hk. pose proof (verify_open_file_ok _ _ _ Hv) as [Hokp _ _ Hfiles _].
  destruct (verify_open_file_catalog _ _ _ Hv) as (q & Hq & He & Hg & Hr & Hreg).
  pose proof (read_catalog_ok _ _ _ Hq) as Hok. rewrite <-He in Hi.
  assert (∃ src, file_source_entry e (pa_entries q) = Ok src) as (src & Hsrc).
  { destruct (catalog_entries _ _ Hok i e Hi) as (_ & _ & Hkind). unfold file_source_entry, is_file, is_hardlink in *.
    destruct (er_kind e); try discriminate; [eauto|]. destruct Hkind as (_ & t & Ht & _). rewrite Ht. eauto. }
  destruct (file_source_Ok _ _ _ _ _ Hok Hi Hsrc) as (j & g & Hj & Hid & Hkg & Hsz & Hh).
  destruct (file_lookups _ _ _ _ _ Hok Hj Hkg) as (r & record & Hrest & Hrec & Hin & Hlen & Hrid & _).
  apply mappings_in in Hin as [Hin Hgid].
  destruct (Hfiles r ltac:(by rewrite <-Hr)) as (e' & content & He' & (record' & decoded & Hrec' & Hdec & Hsl) & Hhash).
  rewrite Hgid, <-Hg, Hrec in Hrec'. injection Hrec' as <-.
  rewrite Hrid, Nat2N.id, <-He, Hj in He'. injection He' as <-. rewrite <-Hreg in Hdec.
  exists q, src, record, r, decoded, content. destruct (catalog_entries _ _ Hok i e Hi) as (_ & Hpath & _).
  split; try done; try congruence.
  - eapply find_entry_unique; [apply (catalog_paths _ _ Hok)|exact Hi].
  - unfold validate_archive_path in Hpath. clear Hk. invres. eauto.
  - intros message. unfold source_group. by rewrite Hkg, Hrec.
Qed.

Lemma extract_run file limits path q e src record r decoded content out :
  extraction file limits q e src record r decoded content →
  ArchivePath_from_relative path = Ok (er_path e) →
  extract_to_writer_with_control (Ok file) path limits out =
  (Ok (extract_report e (er_size e)), out ++ content).
Proof.
  intros [Hcat _ Hf _ Hs Hg Hr Hdec Hsl Hh Hsz _ _] Hp. unfold extract_to_writer_with_control.
  pose proof (collector_run _ q out (read_catalog_preserves written file limits)
    ltac:(rewrite <-Hcat; apply read_catalog_follows)) as Hc.
  pose proof (collector_run _ decoded out (decode_group_preserves written file record (pa_codec_registry q) limits)
    ltac:(rewrite <-Hdec; apply decode_group_follows)) as Hd.
  m_run out. rewrite Hp. m_run out. rewrite Hf. m_run out. rewrite Hs. m_run out. rewrite Hg. m_run out.
  rewrite Hr. m_run out. rewrite Hsl. m_run out.
  rewrite bool_decide_true by done. by rewrite Hsz.
Qed.

Lemma read_range_run file limits path offset length q e src record r decoded content out :
  extraction file limits q e src record r decoded content →
  ArchivePath_from_relative path = Ok (er_path e) →
  offset + length <= er_size e → length <= max_group_output limits → er_size e <= u64_MAX →
  let range := sub (N.to_nat offset) (N.to_nat length) content in
  ∃ report, rr_blake3 report = blake3 range ∧
    read_range_to_writer_with_control (Ok file) path offset length limits out =
    (Ok report, out ++ range).
Proof.
  intros [Hcat _ Hf [pb Hpb] Hs Hg Hr Hdec Hsl Hh Hsz _ Hlen] Hp Ho Hmax Hu range.
  unfold read_range_to_writer_with_control.
  pose proof (collector_run _ q out (read_catalog_preserves written file limits)
    ltac:(rewrite <-Hcat; apply read_catalog_follows)) as Hc.
  pose proof (collector_run _ decoded out (decode_group_preserves written file record (pa_codec_registry q) limits)
    ltac:(rewrite <-Hdec; apply decode_group_follows)) as Hd.
  assert (Hrange : restored_slice decoded r offset length = Ok range).
  { unfold restored_slice in *. invres. calm_run. unfold range. rewrite sub_sub by lia.
    do 2 f_equal; lia. }
  m_run out. rewrite (proj2 (N.ltb_ge _ _)) by lia. rewrite Hp. m_run out. rewrite Hf. m_run out.
  rewrite Hs. m_run out. rewrite checked_add_ok by lia. cbn [ok_or]. m_run out.
  rewrite (proj2 (N.ltb_ge _ _)) by lia. rewrite Hg. m_run out. rewrite Hr. m_run out.
  rewrite Hsl. m_run out. rewrite bool_decide_true by done. cbn [negb]. rewrite Hrange. m_run out.
  rewrite Hpb. m_run out. eexists. split; [|reflexivity]. done.
Qed.
End verified_extraction.

(** C4: in an archive that passes verification every file and every
    hardlink can be extracted and read: selecting it by a path that encodes to
    its own writes exactly its data, of the recorded size and hash, and every
    range within its size reads as that range of the same data. *)
Theorem verified_archives_extract `{Crc32c} `{Laws : !Crc32cLaws} `{Blake3} `{Backends}
    `{CatalogJson} file limits p e path :
  run_calm (verify_open_file file limits) = Ok p →
  e ∈ pa_entries p → is_file e || is_hardlink e = true → ArchivePath_from_relative path = Ok (er_path e) →
  ∃ content, len content = er_size e ∧ blake3 content = er_blake3 e ∧
    (∀ out, extract_to_writer_with_control (Ok file) path limits out =
      (Ok (extract_report e (er_size e)), out ++ content)) ∧
    (∀ offset length out, offset + length <= er_size e → length <= max_group_output limits →
      ∃ report, read_range_to_writer_with_control (Ok file) path offset length limits out =
      (Ok report, out ++ sub (N.to_nat offset) (N.to_nat length) content)).
Proof.
  intros Hv [i Hi]%list_elem_of_lookup Hk Hp.
  destruct (verified_extraction_exists _ _ _ _ _ Hv Hi Hk) as (q & src & record & r & decoded & content & Hx).
  exists content. pose proof Hx as [Hcat Hok _ _ _ _ _ Hdec Hsl Hh Hsz Hhash Hlen].
  split; [apply restored_slice_length in Hsl; congruence|]. split; [congruence|].
  split; [intros out; by eapply extract_run|]. intros offset length out Ho Hm.
  assert (er_size e <= u64_MAX).
  { unfold restored_slice in Hsl. invres. lia. }
  destruct (read_range_run _ _ _ offset length _ _ _ _ _ _ _ out Hx Hp Ho Hm) as (report & _ & Hr); eauto.
Qed.

(** ** On the sample archive *)

#[local] Existing Instances crc32c_castagnoli framing_backends Sample.hash Sample.json.

Lemma extract_to_writer_correct_witness :
  ∃ file e content, @Ok PithosError _ Sample.archive = Ok file ∧
    selected_content file Sample.limits (Sample.text [100; 47; 102]) e content ∧
    written (Sample.text [1; 104; 105]) = written (Sample.text [1]) ++ content ∧
    {| xr_path := Sample.text [100; 47; 102]; xr_bytes_written := 2; xr_kind := FileKind |} =
    extract_report e (er_size e).
Proof.
  apply (extract_to_writer_correct (S := list byte) (Ok Sample.archive) (Sample.text [100; 47; 102])
    Sample.limits (Sample.text [1]) (Sample.text [1; 104; 105])).
  vm_compute. reflexivity.
Defined.


Lemma verified_archives_extract_witness :
  let e := Sample.entry 2 [Sample.d; Sample.text [103]] 2 Sample.content (Hardlink 1) in
  ∃ content, len content = 2 ∧ blake3 content = er_blake3 e ∧
    (∀ out, extract_to_writer_with_control (Ok Sample.archive) (Sample.text [100; 47; 103]) Sample.limits out =
      (Ok (extract_report e 2), out ++ content)) ∧
    (∀ offset length out, offset + length <= 2 → length <= max_group_output Sample.limits →
      ∃ report, read_range_to_writer_with_control (Ok Sample.archive) (Sample.text [100; 47; 103])
        offset length Sample.limits out =
      (Ok report, out ++ sub (N.to_nat offset) (N.to_nat length) content)).
Proof.
  pose (p := match run_calm (verify_open_file Sample.archive Sample.limits) with
     | Ok p => p | Err _ => Sample.catalog end).
  apply (verified_archives_extract (Laws := crc32c_castagnoli_laws) Sample.archive Sample.limits p
    (Sample.entry 2 [Sample.d; Sample.text [103]] 2 Sample.content (Hardlink 1)) (Sample.text [100; 47; 103])).
  - vm_compute. reflexivity.
  - apply list_elem_of_lookup. exists 2%nat. vm_compute. reflexivity.
  - reflexivity.
  - vm_compute. reflexivity.
Defined.
