(* ===== verification/Unpack.v ===== *)
(** * Unpacking and extracting to disk ([crates/pithos-engine/src/lib.rs],
    [crates/pithos-io/src/lib.rs])

    [unpack_with_control_and_temp_limit] restores all entries of a verified
    archive in a staging directory that it renames to the output at the end;
    [extract_with_control_and_limits] restores one entry. *)

From S2P Require Import Prelude Core Effects Bytes Format Codecs Paths FileTree Catalog Extract.

Section unpack.
Context {E : Type} `{Env E} `{Disturb E} `{Crc32c} `{Blake3} `{Backends} `{CatalogJson}.

Definition path_entry_exists (path : list byte) : M (FS E) bool :=
  catch (symlink_metadata path;; mret true)
    (λ e, if bool_decide (e = Io NotFound) then mret false else fail e).

Definition apply_file_mode (path : list byte) (mode : N) : M (FS E) unit := set_permissions path mode.

Definition create_symlink (target destination : list byte) (target_is_dir : bool) : M (FS E) unit :=
  symlink target destination.

Definition sync_parent (path : list byte) : M (FS E) unit :=
  match Path_parent path with
  | Some parent => open_dir parent;; sync_all
  | None => mret tt
  end.

(** [if let Some(parent) = destination.parent() { fs::create_dir_all(parent)?; }] *)
Definition create_parent (destination : list byte) : M (FS E) unit :=
  match Path_parent destination with Some parent => create_dir_all parent | None => mret tt end.

(** ** Unpacking *)

(** [staging.path().join(entry.path.to_path_buf()?)] *)
Definition staged_path (staging : list byte) (entry : EntryRecord) : Result (list byte) :=
  path ← ArchivePath_to_path_buf (er_path entry);
  Ok (path_push staging path).

(** The bodies of the four loops over the entries. *)
Definition unpack_directory (staging : list byte) (entry : EntryRecord) : M (FS E) unit :=
  checkpoint;;
  destination ← lift (staged_path staging entry);
  create_dir_all destination.

(** The collected [HashMap] of groups; a later record replaces an earlier
    one. *)
Definition groups_by_id (parsed : ParsedArchive) : gmap N GroupTableRecord :=
  list_to_map (reverse ((λ record, (gr_group_id (gt_group record), record)) <$> pa_groups parsed)).

Definition unpack_file (archive : list byte) (parsed : ParsedArchive) (limits : DecodeLimits)
    (staging : list byte) (entry : EntryRecord) : M (FS E) unit :=
  checkpoint;;
  match er_kind entry with
  | File group_id =>
      group ← lift (ok_or (InvalidMetadata "grupo ausente") (groups_by_id parsed !! group_id));
      restore ← lift (restore_for_entry parsed (er_entry_id entry));
      destination ← lift (staged_path staging entry);
      create_parent destination;;
      output ← create_new destination;
      decoded ← decode_group archive group (pa_codec_registry parsed) limits;
      bytes ← lift (restored_slice decoded restore 0 (rm_length restore));
      file_write_all output bytes;;
      if negb (bool_decide (blake3 bytes = er_blake3 entry)) then fail HashMismatch else
      sync_all;;
      apply_file_mode destination (er_mode entry)
  | _ => mret tt
  end.

Definition unpack_hardlink (parsed : ParsedArchive) (staging : list byte) (entry : EntryRecord) : M (FS E) unit :=
  checkpoint;;
  match er_kind entry with
  | Hardlink target_entry_id =>
      target ← lift (ok_or (InvalidMetadata "hardlink inválido") (pa_entries parsed !! N.to_nat target_entry_id));
      destination ← lift (staged_path staging entry);
      create_parent destination;;
      original ← lift (staged_path staging target);
      hard_link original destination
  | _ => mret tt
  end.

Definition unpack_symlink (staging : list byte) (entry : EntryRecord) : M (FS E) unit :=
  checkpoint;;
  match er_kind entry with
  | Symlink target target_is_dir =>
      if negb (LinkTarget_resolves_within target (er_path entry)) then fail UnsafeSymlink else
      destination ← lift (staged_path staging entry);
      create_parent destination;;
      target_path ← lift (LinkTarget_to_path_buf target);
      create_symlink target_path destination target_is_dir
  | _ => mret tt
  end.

(** The four loops: directories, files, hardlinks, symlinks. *)
Definition unpack_entries (archive : list byte) (parsed : ParsedArchive) (limits : DecodeLimits)
    (staging : list byte) : M (FS E) unit :=
  for_each (unpack_directory staging) (List.filter is_directory (pa_entries parsed));;
  for_each (unpack_file archive parsed limits staging) (List.filter is_file (pa_entries parsed));;
  for_each (unpack_hardlink parsed staging) (List.filter is_hardlink (pa_entries parsed));;
  for_each (unpack_symlink staging) (List.filter is_symlink (pa_entries parsed)).

Definition unpack_prefix : Name := String.list_byte_of_string ".pithos-unpack-".

Definition unpack_with_control_and_temp_limit (archive output_dir : list byte) (limits : DecodeLimits)
    (max_temp_bytes : N) : M (FS E) unit :=
  checkpoint;;
  exists_ ← path_entry_exists output_dir;
  if (exists_ : bool) then fail OutputExists else
  file ← open_file archive;
  parsed ← verify_open_file file limits;
  if max_temp_bytes <? vr_original_bytes (pa_report parsed)
  then fail (ResourceLimit "unpack temporary bytes") else
  let output_parent := parent_or_dot output_dir in
  create_dir_all output_parent;;
  staging ← tempdir_in unpack_prefix output_parent;
  with_tempdir staging
    (unpack_entries file parsed limits staging;;
     checkpoint;;
     rename_dir staging output_dir;;
     sync_parent output_dir).

Definition unpack_with_control (archive output_dir : list byte) (limits : DecodeLimits) : M (FS E) unit :=
  unpack_with_control_and_temp_limit archive output_dir limits (max_original_bytes limits).

(** ** Extracting one entry *)

(** The body of [for component in parent.components()]. *)
Definition parent_step (current : list byte) (component : Component) : M (FS E) (list byte) :=
  let current := path_push current (component_name component) in
  catch
    (node ← symlink_metadata current;
     match node with
     | LinkNode _ => fail UnsafePath
     | DirNode => mret tt
     | FileNode _ => fail (InvalidMetadata "extract parent")
     end)
    (λ e, if bool_decide (e = Io NotFound) then create_dir current else fail e);;
  mret current.

Definition prepare_extract_parent (output_root : list byte) (archive_path : ArchivePath) : M (FS E) unit :=
  create_dir_all output_root;;
  node ← symlink_metadata output_root;
  match node with
  | LinkNode _ => fail UnsafePath
  | _ =>
      relative ← lift (ArchivePath_to_path_buf archive_path);
      match Path_parent relative with
      | None => mret tt
      | Some parent => fold_m parent_step output_root (path_components parent);; mret tt
      end
  end.

(** [pithos_io::create_atomic_spool] and [atomic_commit]. *)
Definition create_atomic_spool (dest_dir : list byte) : M (FS E) (list byte * N) :=
  create_dir_all dest_dir;;
  tempfile_in dest_dir.

Definition atomic_commit (temp_file target_path : list byte) : M (FS E) unit :=
  create_parent target_path;;
  sync_all;;
  catch (persist_noclobber temp_file target_path)
    (λ e, if bool_decide (e = Io AlreadyExists) then fail OutputExists else fail e);;
  sync_all;;
  sync_parent target_path.

Definition extract_with_control_and_limits (archive entry output_dir : list byte) (limits : DecodeLimits)
    (max_output_bytes max_temp_bytes : N) : M (FS E) ExtractReport :=
  checkpoint;;
  selector ← lift (ArchivePath_from_relative entry);
  file ← open_file archive;
  parsed ← read_catalog file limits;
  entry ← lift (find_entry parsed selector);
  relative ← lift (ArchivePath_to_path_buf (er_path entry));
  let destination := path_push output_dir relative in
  match er_kind entry with
  | Directory =>
      checkpoint;;
      prepare_extract_parent output_dir (er_path entry);;
      exists_ ← path_entry_exists destination;
      if (exists_ : bool) then fail OutputExists else
      create_dir_all destination;;
      mret (extract_report entry 0)
  | Symlink target target_is_dir =>
      checkpoint;;
      prepare_extract_parent output_dir (er_path entry);;
      exists_ ← path_entry_exists destination;
      if (exists_ : bool) then fail OutputExists else
      if negb (LinkTarget_resolves_within target (er_path entry)) then fail UnsafeSymlink else
      target_path ← lift (LinkTarget_to_path_buf target);
      create_symlink target_path destination target_is_dir;;
      mret (extract_report entry (er_size entry))
  | File _ | Hardlink _ =>
      source ← lift (file_source_entry entry (pa_entries parsed));
      group ← lift (source_group parsed source "file source");
      restore ← lift (restore_for_entry parsed (er_entry_id source));
      if max_output_bytes <? er_size source then fail (ResourceLimit "extract output bytes") else
      if max_temp_bytes <? gr_compressed_len (gt_group group) then fail (ResourceLimit "extract temporary bytes") else
      prepare_extract_parent output_dir (er_path entry);;
      exists_ ← path_entry_exists destination;
      if (exists_ : bool) then fail OutputExists else
      '(spool, inode) ← create_atomic_spool (parent_or_dot destination);
      with_tempfile spool
        (decoded ← decode_group file group (pa_codec_registry parsed) limits;
         bytes ← lift (restored_slice decoded restore 0 (rm_length restore));
         file_write_all inode bytes;;
         if negb (bool_decide (blake3 bytes = er_blake3 source)) then fail HashMismatch else
         checkpoint;;
         atomic_commit spool destination;;
         apply_file_mode destination (er_mode entry);;
         mret (extract_report entry (er_size source)))
  end.

Definition extract_with_control (archive entry output_dir : list byte) (limits : DecodeLimits) : M (FS E) ExtractReport :=
  extract_with_control_and_limits archive entry output_dir limits (max_group_output limits) (max_group_output limits).
End unpack.
