(* ===== verification/UnpackTree.v ===== *)
(** * The tree that an unpacked archive leaves

    What the four loops of [unpack] build below the staging directory: nothing
    else, and every entry. *)

From S2P Require Import Prelude Core Effects Bytes Format Codecs Paths FileTree FileWalk FileGrowth Catalog Extract Unpack.

(** The names of an entry, from the root of the archive. *)
Definition entry_names (e : EntryRecord) : list Name := map pc_bytes (ap_components (er_path e)).

(** No symlink entry is above another entry. *)
Definition links_are_leaves (entries : list EntryRecord) : Prop :=
  ∀ l e k, l ∈ entries → e ∈ entries → is_symlink l = true → entry_names e = entry_names l ++ k → k = [].

(** The same as a test. *)
Definition links_are_leaves_b (entries : list EntryRecord) : bool :=
  forallb (λ l, negb (is_symlink l) || forallb (λ e,
    negb (bool_decide (take (length (entry_names l)) (entry_names e) = entry_names l)) ||
    bool_decide (drop (length (entry_names l)) (entry_names e) = [])) entries) entries.

Lemma links_are_leaves_intro entries : links_are_leaves_b entries = true → links_are_leaves entries.
Proof.
  unfold links_are_leaves_b. rewrite forallb_forall. intros Hb l e k Hl%list_elem_of_In He%list_elem_of_In Hs Hn.
  specialize (Hb l Hl). rewrite Hs in Hb. cbn [negb orb] in Hb. rewrite forallb_forall in Hb. specialize (Hb e He).
  rewrite Hn, take_app_length, drop_app_length, bool_decide_eq_true_2 in Hb by done. by apply bool_decide_eq_true in Hb.
Qed.

(** An entry of [p] that is restored below the directory [root] of the tree. *)
Definition entry_restored `{Crc32c} `{Blake3} `{Backends} (file : list byte) (limits : DecodeLimits)
    (p : ParsedArchive) (root : list Name) (fs : Files) (e : EntryRecord) : Prop :=
  let node := ft_nodes fs !! (root ++ entry_names e) in
  match er_kind e with
  | Directory => node = Some DirNode
  | File _ => ∃ inode r content, node = Some (FileNode inode) ∧ restore_for_entry p (er_entry_id e) = Ok r ∧
      restored file limits p r content ∧ blake3 content = er_blake3 e ∧
      ft_inodes fs !! inode = Some {| in_content := content; in_mode := Some (er_mode e) |}
  | Hardlink id => ∃ inode target, node = Some (FileNode inode) ∧ pa_entries p !! N.to_nat id = Some target ∧
      ft_nodes fs !! (root ++ entry_names target) = Some (FileNode inode)
  | Symlink target _ => ∃ path, LinkTarget_to_path_buf target = Ok path ∧ node = Some (LinkNode path)
  end.

(** A node below the root belongs to an entry or is a directory above one. *)
Definition may_hold (links : bool) (entries : list EntryRecord) (q : list Name) (node : Node) : Prop :=
  ∃ e k, e ∈ entries ∧ entry_names e = q ++ k ∧
    match node with
    | DirNode => True
    | FileNode _ => k = [] ∧ is_file e || is_hardlink e = true
    | LinkNode _ => k = [] ∧ is_symlink e = true ∧ links = true
    end.

Lemma staged_path_Ok staging e path :
  staged_path staging e = Ok path →
  path = path_push staging (joined (entry_names e)) ∧ Forall plain_name (entry_names e) ∧ entry_names e ≠ [].
Proof.
  unfold staged_path. intros (q & Hq & [= <-])%bind_Ok.
  destruct (ArchivePath_to_path_buf_safe _ _ Hq) as (_ & Hp & _). split; [|split].
  - unfold ArchivePath_to_path_buf in Hq. case_bool_decide as Hne; [done|].
    apply to_path_buf_fold in Hq as [_ ->]. done.
  - by apply Forall_map.
  - unfold ArchivePath_to_path_buf in Hq. case_bool_decide as Hne; [done|]. unfold entry_names. by destruct (ap_components _).
Qed.

Lemma walk_prefix_found fs links follow dir pre rest d node path :
  walk links fs true dir (pre ++ rest) = Ok (At d node) → walk links fs follow dir pre ≠ Ok (Missing path).
Proof.
  revert dir pre. induction links as [links IHl] using lt_wf_ind. intros dir pre. revert dir.
  induction pre as [|c pre IH]; intros dir; cbn [app]; [by rewrite (walk_nil _ _ follow)|].
  rewrite !walk_cons. destruct c as [| | |name]; auto. cbv zeta.
  destruct (node_at fs (dir ++ [name])) as [[|inode|target]|]; [auto|by destruct (bool_decide (pre = []))| |].
  - cbn [negb]. rewrite andb_false_r. destruct (_ && _); [done|]. destruct links as [|links]; [done|].
    rewrite app_assoc. apply IHl. lia.
  - by destruct (bool_decide (pre ++ rest = [])).
Qed.

Section staged.
Context `{Crc32c} `{Blake3} `{Backends} `{CatalogJson}.
Variables (staging : list byte) (root : list Name) (entries : list EntryRecord).
Hypothesis Hstaging : staging ≠ [].
Hypothesis Hleaves : links_are_leaves entries.

(** The staging path leads to [root]. *)
Definition staged_at (fs : Files) : Prop :=
  wf_files fs ∧ walk MAXSYMLINKS fs true (ft_cwd fs) (path_components staging) = Ok (At root DirNode).

Variable fs0 : Files.
Hypothesis Hfs0 : staged_at fs0.
Hypothesis Hempty : ∀ q node, q ≠ [] → ft_nodes fs0 !! (root ++ q) ≠ Some node.

(** What the loops may have added to the tree with the empty staging
    directory. *)
Definition may_add (links : bool) (key : list Name) (node : Node) : Prop :=
  ∃ q, q ≠ [] ∧ key = root ++ q ∧ may_hold links entries q node.
Definition grown (links : bool) (fs : Files) : Prop := added (may_add links) fs0 fs.

Lemma grown_staged links fs : grown links fs → staged_at fs.
Proof.
  intros [Hn _ _ Hc Hw]. destruct Hfs0 as [Hwf Hs]. split; [auto|]. rewrite Hc. by eapply walk_kept.
Qed.

Lemma grown_links fs : grown false fs → grown true fs.
Proof.
  apply added_weaken. intros key node (q & Hq & Hk & e & k & He & Hn & Hh). exists q. split; [done|]. split; [done|].
  exists e, k. destruct node; naive_solver.
Qed.

Lemma grown_lookup links fs q node :
  grown links fs → q ≠ [] → ft_nodes fs !! (root ++ q) = Some node → may_hold links entries q node.
Proof.
  intros Hg Hq [Hl|(q' & _ & Heq & Hh)]%(added_new _ _ _ Hg); [by destruct (Hempty q node)|].
  by apply (inj (app root)) in Heq as ->.
Qed.

(** The prefixes of an entry's names are not links. *)
Lemma grown_clear links fs e ns k full :
  grown links fs → e ∈ entries → entry_names e = ns ++ k → (full = true → links = false ∨ k ≠ []) →
  links_clear fs root ns full.
Proof.
  intros Hg He Hns Hfull q k' target Hq -> Hk' Hl.
  destruct (grown_lookup _ _ _ _ Hg Hq Hl) as (l & kl & Hl' & Hnl & -> & Hlink & ->). rewrite app_nil_r in Hnl.
  rewrite <-app_assoc in Hns. rewrite <-Hnl in Hns.
  apply (Hleaves l e _ Hl' He Hlink) in Hns. apply app_eq_nil in Hns as [-> ->]. naive_solver.
Qed.

(** Where the path of some names below the staging directory leads. *)
Lemma resolve_staged fs follow path ns place :
  staged_at fs → path ≠ [] → path_components path = path_components staging ++ map Normal ns → ns ≠ [] →
  links_clear fs root ns follow → resolve_place fs follow path = Ok place →
  place = match node_at fs (root ++ ns) with None => Missing (root ++ ns) | Some node => At (root ++ ns) node end.
Proof.
  intros [Hwf Hw] Hp Hcs Hns Hclear Hr. unfold resolve_place in Hr. rewrite bool_decide_eq_false_2, Hcs in Hr by done.
  destruct (walk_app _ _ follow _ _ _ (map Normal ns) Hw ltac:(by destruct ns)) as [links Hl]. rewrite Hl in Hr.
  by eapply walk_names.
Qed.

Lemma joined_path ns :
  Forall plain_name ns → ns ≠ [] →
  path_push staging (joined ns) ≠ [] ∧
  path_components (path_push staging (joined ns)) = path_components staging ++ map Normal ns.
Proof.
  intros Hp Hns. split; [|by apply components_join]. apply path_push_nonempty. by apply joined_spec.
Qed.

(** A new node at the names of an entry or at a prefix of them. *)
Lemma grown_set links fs follow path e q k node :
  grown links fs → q ≠ [] → e ∈ entries → entry_names e = q ++ k → resolve_place fs follow path = Ok (Missing (root ++ q)) →
  match node with
  | DirNode => True
  | FileNode _ => k = [] ∧ is_file e || is_hardlink e = true
  | LinkNode _ => k = [] ∧ is_symlink e = true ∧ links = true
  end → added (may_add links) fs (set_node fs (root ++ q) node).
Proof.
  intros Hg Hq He Hns Hr Hnode. destruct (grown_staged _ _ Hg) as [Hwf _].
  destruct (resolve_place_ok _ _ _ _ Hwf Hr) as (Hnone & d & n & Hdn & Hd). rewrite Hdn in Hnone |- *.
  apply added_set_node; [done..|]. rewrite <-Hdn. exists q. split; [done|]. split; [done|]. exists e, k. done.
Qed.

(** ** The loops *)

Context {E : Type} `{Env E} `{Disturb E}.

(** A fact that survives the growth of the tree. *)
Definition stable (K : Files → Prop) : Prop := ∀ D fs fs', added D fs fs' → K fs → K fs'.
Definition good (links : bool) (K : Files → Prop) (fs : Files) : Prop := grown links fs ∧ K fs.

Lemma good_added links K fs fs' : stable K → good links K fs → added (may_add links) fs fs' → good links K fs'.
Proof. intros HK [Hg Hk] Ha. split; [by eapply added_trans|by eapply HK]. Qed.

Lemma triple_follows {A} (P X : Files → Prop) (m : M (FS E) A) r :
  follows m r → preserves fst m → (∀ fs, P fs → X fs) → triple P m (λ v fs, P fs ∧ r = Ok v) X.
Proof.
  intros Hf Hp HX s r' s' HP E1. specialize (Hp s). rewrite E1 in Hp. cbn in Hp. rewrite Hp.
  destruct r' as [v|e]; [|auto]. split; [done|]. exact (follows_Ok_inv _ _ _ _ _ Hf E1).
Qed.

(** A prefix of the staging path is never missing; a longer prefix leads
    below the staging directory. *)
Lemma missing_below links fs path e ns k k' at_ :
  grown links fs → path ≠ [] → e ∈ entries → entry_names e = ns ++ k →
  path_components staging ++ map Normal ns = path_components path ++ k' →
  resolve_place fs false path = Ok (Missing at_) →
  ∃ q k, q ≠ [] ∧ at_ = root ++ q ∧ entry_names e = q ++ k.
Proof.
  intros Hg Hp He Hns Hpre Hr. destruct (grown_staged _ _ Hg) as [Hwf Hw].
  assert (Hc : (∃ k2, path_components staging = path_components path ++ k2) ∨
    ∃ q, q ≠ [] ∧ path_components path = path_components staging ++ map Normal q ∧ ∃ k, entry_names e = q ++ k).
  { destruct (app_eq_inv _ _ _ _ Hpre) as [(k2 & Hk2 & Hk3)|(k2 & Hk2 & Hk3)].
    - left. eauto.
    - destruct (decide (k2 = [])) as [->|Hne].
      + left. exists []. by rewrite Hk2, !app_nil_r.
      + right. apply map_eq_app in Hk3 as (q & q' & -> & <- & <-). exists q.
        split; [by intros ->|]. split; [done|]. exists (q' ++ k). by rewrite app_assoc. }
  destruct Hc as [[k2 Hk2]|(q & Hq & Hcs & k2 & Hk2)].
  - unfold resolve_place in Hr. rewrite bool_decide_eq_false_2 in Hr by done. rewrite Hk2 in Hw.
    by destruct (walk_prefix_found _ _ false _ _ _ _ _ at_ Hw).
  - exists q, k2. split; [done|]. split; [|done].
    pose proof (resolve_staged fs false path q _ (conj Hwf Hw) Hp Hcs Hq
      ltac:(by eapply grown_clear) Hr) as Hpl.
    destruct (node_at fs (root ++ q)); by simplify_eq.
Qed.

Lemma staged_create_dir_all links K path e ns k :
  stable K → e ∈ entries → entry_names e = ns ++ k → links = false ∨ k ≠ [] →
  path_components path = path_components staging ++ map Normal ns →
  triple (good links K) (create_dir_all path)
    (λ _ fs, good links K fs ∧ (path ≠ [] → ns ≠ [] → ft_nodes fs !! (root ++ ns) = Some DirNode)) (good links K).
Proof.
  intros HK He Hns Hlk Hcs.
  assert (Hmade : ∀ path' k' fs at_, path' ≠ [] → path_components path = path_components path' ++ k' → good links K fs →
    resolve_place fs false path' = Ok (Missing at_) → good links K (set_node fs at_ DirNode)).
  { intros path' k' fs at_ Hp Hpre Hg Hr. pose proof Hg as [Hgr _]. rewrite Hcs in Hpre.
    destruct (missing_below _ _ _ _ _ _ _ _ Hgr Hp He Hns Hpre Hr) as (q & k2 & Hq & -> & Hq2).
    eapply good_added; [done|exact Hg|]. by eapply (grown_set _ _ _ _ e q k2). }
  eapply triple_conseq; [apply (triple_create_dir_all (good links K)
    (λ fs, path ≠ [] → ns ≠ [] → ft_nodes fs !! (root ++ ns) = Some DirNode))| | |]; [| | |done| |done].
  - intros path' fs at_ Hp [k' Hk']. by eapply Hmade.
  - intros fs at_ [Hg _] Hr Hp Hne.
    pose proof (resolve_staged fs false path ns _ (grown_staged _ _ Hg) Hp Hcs Hne
      ltac:(eapply grown_clear; [exact Hg|exact He|exact Hns|done]) Hr) as Hpl.
    destruct (node_at fs (root ++ ns)); [done|]. injection Hpl as ->. apply lookup_insert_eq.
  - intros fs at_ [Hg _] Hr Hp Hne.
    pose proof (resolve_staged fs true path ns _ (grown_staged _ _ Hg) Hp Hcs Hne
      ltac:(eapply grown_clear; [exact Hg|exact He|exact Hns|done]) Hr) as Hpl.
    destruct (node_at fs (root ++ ns)) eqn:Hn; [|done]. injection Hpl as -> <-.
    destruct (root ++ ns) eqn:Hrn; [by apply app_eq_nil in Hrn as [_ ->]|exact Hn].
  - intros u fs [Hg Hf]. split; [done|]. intros Hp. by apply Hf.
Qed.

(** The destination of an entry. *)
Definition destination_of (e : EntryRecord) : list byte := path_push staging (joined (entry_names e)).

Definition plain_entry (e : EntryRecord) : Prop := Forall plain_name (entry_names e) ∧ entry_names e ≠ [].

Lemma triple_destination {B} (P X : Files → Prop) e (f : list byte → M (FS E) B) Q :
  (∀ fs, P fs → X fs) → (plain_entry e → triple P (f (destination_of e)) Q X) →
  triple P (lift (staged_path staging e) ≫= f) Q X.
Proof.
  intros HX Hf. eapply triple_bind; [by apply triple_lift|]. intros path. apply triple_gen. intros fs [Hp HP].
  apply staged_path_Ok in Hp as (-> & Hp & Hne). eapply triple_pre; [by apply Hf|]. by intros ? ->.
Qed.

Lemma destination_components e :
  plain_entry e → destination_of e ≠ [] ∧
  path_components (destination_of e) = path_components staging ++ map Normal (entry_names e).
Proof. intros [Hp Hne]. by apply joined_path. Qed.

Lemma destination_place links fs e place :
  plain_entry e → e ∈ entries → grown links fs →
  resolve_place fs false (destination_of e) = Ok place →
  place = match ft_nodes fs !! (root ++ entry_names e) with
          | None => Missing (root ++ entry_names e)
          | Some node => At (root ++ entry_names e) node
          end.
Proof.
  intros Hpl He Hg Hr. destruct (destination_components _ Hpl) as [Hd Hcs]. destruct Hpl as [_ Hne].
  rewrite (resolve_staged fs false _ _ place (grown_staged _ _ Hg) Hd Hcs Hne
    ltac:(eapply (grown_clear _ _ e _ []); [exact Hg|exact He|by rewrite app_nil_r|done]) Hr).
  by destruct (root ++ entry_names e) eqn:Hn; [apply app_eq_nil in Hn as [_ ?]|].
Qed.

Lemma staged_create_parent links K e :
  stable K → e ∈ entries → plain_entry e →
  triple (good links K) (create_parent (destination_of e)) (λ _, good links K) (good links K).
Proof.
  intros HK He Hpl. destruct (destination_components _ Hpl) as [Hd Hcs]. destruct Hpl as [_ Hne].
  destruct (entry_names e) as [|n ns _] eqn:Hns using rev_ind; [done|].
  rewrite map_app, app_assoc in Hcs. destruct (Path_parent_snoc _ _ _ Hcs ltac:(done)) as [Hp Hpc].
  unfold create_parent. rewrite Hp. eapply triple_conseq.
  - by apply (staged_create_dir_all links K _ e ns [n]); [| | |right|].
  - done.
  - by intros u fs [? _].
  - done.
Qed.

Lemma triple_calm {A} (P X : Files → Prop) (m : M (FS E) A) (m0 : M unit A) :
  follows m (run_calm m0) → preserves fst m → (∀ fs, P fs → X fs) →
  triple P m (λ v fs, P fs ∧ run_calm m0 = Ok v) X.
Proof. apply triple_follows. Qed.

Lemma fresh_inode_new fs : ft_inodes fs !! fresh_inode fs = None.
Proof. apply not_elem_of_dom. exact (is_fresh (dom (ft_inodes fs))). Qed.

(** Directories. *)
Lemma staged_directory K e :
  stable K → e ∈ entries →
  triple (good false K) (unpack_directory staging e)
    (λ _ fs, good false K fs ∧ ft_nodes fs !! (root ++ entry_names e) = Some DirNode) (good false K).
Proof.
  intros HK He. eapply triple_bind; [by apply triple_checkpoint|]. intros u.
  apply triple_destination; [done|]. intros Hpl. destruct (destination_components _ Hpl) as [Hd Hcs].
  eapply triple_conseq.
  - apply (staged_create_dir_all false K _ e (entry_names e) []); [done|done|by rewrite app_nil_r|by left|done].
  - done.
  - intros u' fs [Hg Hf]. split; [done|]. apply Hf; [done|]. by destruct Hpl.
  - done.
Qed.

(** A new file while its content is written. *)
Definition writing (K : Files → Prop) (e : EntryRecord) (inode : N) (value : Inode) (fs : Files) : Prop :=
  ∃ fs1, good false K fs1 ∧ ft_inodes fs1 !! inode = None ∧
    added (may_add false) fs1 (set_node fs1 (root ++ entry_names e) (FileNode inode)) ∧
    fs = set_inode (set_node fs1 (root ++ entry_names e) (FileNode inode)) inode value.

Lemma writing_good K e inode value fs : stable K → writing K e inode value fs → good false K fs.
Proof.
  intros HK (fs1 & Hg & Hi & Ha & ->). eapply good_added; [done|exact Hg|]. by apply added_set_inode.
Qed.

Lemma set_inode_twice fs i v v' : set_inode (set_inode fs i v) i v' = set_inode fs i v'.
Proof. unfold set_inode. cbn. by rewrite insert_insert_eq. Qed.

Lemma writing_set K e inode value value' fs :
  writing K e inode value fs → writing K e inode value' (set_inode fs inode value').
Proof. intros (fs1 & Hg & Hi & Ha & ->). exists fs1. by rewrite set_inode_twice. Qed.

Lemma writing_inode K e inode value fs : writing K e inode value fs → ft_inodes fs !! inode = Some value.
Proof. intros (fs1 & _ & _ & _ & ->). apply lookup_insert_eq. Qed.
Lemma writing_node K e inode value fs :
  writing K e inode value fs → ft_nodes fs !! (root ++ entry_names e) = Some (FileNode inode).
Proof. intros (fs1 & _ & _ & _ & ->). apply lookup_insert_eq. Qed.

Lemma staged_create_new K e :
  stable K → e ∈ entries → is_file e = true → plain_entry e →
  triple (good false K) (create_new (destination_of e))
    (λ inode, writing K e inode {| in_content := []; in_mode := None |}) (good false K).
Proof.
  intros HK He Hfile Hpl. eapply triple_conseq; [by apply triple_create_new|done| |done].
  intros inode fs (fs1 & at_ & Hg & Hr & -> & ->). pose proof Hg as [Hgr _]. exists fs1.
  pose proof (destination_place _ _ _ _ Hpl He Hgr Hr) as Hp. destruct (ft_nodes fs1 !! _); [done|]. injection Hp as ->.
  split; [done|]. split; [apply fresh_inode_new|]. split; [|done]. destruct Hpl as [_ Hne].
  eapply (grown_set _ _ false _ e _ []); [done..|by rewrite app_nil_r|exact Hr|]. by rewrite Hfile.
Qed.

Variables (file : list byte) (limits : DecodeLimits) (p : ParsedArchive).
Hypothesis Hcatalog : catalog_ok limits p.
Hypothesis Hentries : pa_entries p = entries.

Lemma groups_by_id_lookup g record :
  groups_by_id p !! g = Some record → pa_groups p !! N.to_nat g = Some record.
Proof.
  unfold groups_by_id. intros Hl. apply elem_of_list_to_map_2, elem_of_reverse, list_elem_of_fmap in Hl
    as (record' & [= -> ->] & [i Hi]%list_elem_of_lookup).
  destruct (groups_ok_lookup _ _ _ _ _ _ _ _ (catalog_groups _ _ Hcatalog) Hi) as (-> & _).
  by rewrite N.add_0_l, Nat2N.id.
Qed.

Lemma file_restored e g record r decoded content :
  e ∈ entries → er_kind e = File g → groups_by_id p !! g = Some record →
  restore_for_entry p (er_entry_id e) = Ok r →
  run_calm (decode_group file record (pa_codec_registry p) limits) = Ok decoded →
  restored_slice decoded r 0 (rm_length r) = Ok content → restored file limits p r content.
Proof.
  rewrite <-Hentries. intros [i Hi]%list_elem_of_lookup Hk Hg Hr Hd Hs.
  destruct (catalog_entries _ _ Hcatalog _ _ Hi) as [Hid _].
  destruct (file_lookups _ _ _ _ _ Hcatalog Hi Hk) as (r' & record' & Hr' & _ & Hin & _).
  rewrite Hid, Hr' in Hr. injection Hr as ->. apply mappings_in in Hin as [_ Hg'].
  exists record, decoded. rewrite Hg'. split; [by apply groups_by_id_lookup|done].
Qed.

(** Files. *)
Lemma staged_file K e :
  stable K → e ∈ entries → is_file e = true →
  triple (good false K) (unpack_file file p limits staging e)
    (λ _ fs, good false K fs ∧ entry_restored file limits p root fs e) (good false K).
Proof.
  intros HK He Hfile. eapply triple_bind; [by apply triple_checkpoint|]. intros u.
  unfold is_file in Hfile. destruct (er_kind e) as [|g| |] eqn:Hk; try done.
  eapply triple_bind; [by apply triple_lift|]. intros record.
  eapply triple_bind; [apply triple_lift; naive_solver|]. intros r.
  apply triple_gen. intros fs2 (Hr & Hrec & Hg2). apply ok_or_Ok in Hrec.
  apply (triple_pre (good false K)); [|by intros ? ->]. clear fs2 Hg2.
  apply triple_destination; [done|]. intros Hpl.
  eapply triple_bind; [by apply staged_create_parent|]. intros u1.
  assert (Hf : is_file e = true) by (unfold is_file; by rewrite Hk).
  eapply triple_bind; [by apply staged_create_new|]. intros inode.
  assert (Hwg : ∀ value fs, writing K e inode value fs → good false K fs) by (intros; by eapply writing_good).
  eapply triple_bind.
  { apply triple_calm; [apply decode_group_follows|apply (decode_group_preserves fst)|apply Hwg]. }
  intros decoded. eapply triple_bind; [apply triple_lift; naive_solver|]. intros content.
  apply triple_gen. intros fs3 (Hs & Hw3 & Hd).
  pose proof (file_restored _ _ _ _ _ _ He Hk Hrec Hr Hd Hs) as Hres.
  eapply triple_bind.
  { apply (triple_pre (writing K e inode {| in_content := []; in_mode := None |})); [|by intros ? ->].
    by apply triple_write_all; eauto. }
  intros u2. apply (triple_pre (writing K e inode {| in_content := content; in_mode := None |})).
  2: { intros fs (fs1 & value & Hw & Hv & ->). rewrite (writing_inode _ _ _ _ _ Hw) in Hv. injection Hv as <-.
       by eapply writing_set. }
  apply triple_if; [intros _; apply triple_fail, Hwg|]. intros Hh.
  apply negb_false_iff, bool_decide_eq_true in Hh.
  eapply triple_bind; [by apply triple_sync_all; eauto|]. intros u3.
  eapply triple_conseq; [apply triple_set_permissions; apply Hwg| | |done]; [done|].
  intros u4 fs (fs1 & at_ & node & Hw & Hrs & ->).
  destruct (destination_components _ Hpl) as [Hdn Hcs]. pose proof Hpl as [_ Hne].
  destruct (Hwg _ _ Hw) as [Hgr _].
  pose proof (resolve_staged fs1 true _ _ _ (grown_staged _ _ Hgr) Hdn Hcs Hne
    ltac:(eapply (grown_clear _ _ e _ []); [exact Hgr|exact He|by rewrite app_nil_r|by left]) Hrs) as Hpl1.
  pose proof (writing_node _ _ _ _ _ Hw) as Hn. destruct (root ++ entry_names e) as [|k0 key] eqn:Hkey;
    [by apply app_eq_nil in Hkey as [_ ?]|]. unfold node_at in Hpl1. rewrite Hn in Hpl1. injection Hpl1 as -> ->.
  rewrite (writing_inode _ _ _ _ _ Hw). cbn [fmap option_fmap option_map default].
  pose proof (writing_set K e inode _ {| in_content := content; in_mode := Some (er_mode e) |} _ Hw) as Hw'.
  split; [by eapply Hwg|]. unfold entry_restored. rewrite Hk.
  exists inode, r, content. split; [by eapply writing_node|]. do 3 (split; [done|]).
  by eapply writing_inode.
Qed.

(** Hardlinks. *)
Lemma staged_hardlink K e :
  stable K → e ∈ entries → is_hardlink e = true →
  triple (good false K) (unpack_hardlink p staging e)
    (λ _ fs, good false K fs ∧ entry_restored file limits p root fs e) (good false K).
Proof.
  intros HK He Hlink. eapply triple_bind; [by apply triple_checkpoint|]. intros u.
  unfold is_hardlink in Hlink. destruct (er_kind e) as [| |id|] eqn:Hk; try done.
  eapply triple_bind; [by apply triple_lift|]. intros target.
  apply triple_gen. intros fs2 [Ht Hg2]. apply ok_or_Ok in Ht.
  apply (triple_pre (good false K)); [clear fs2 Hg2|by intros ? ->].
  apply triple_destination; [done|]. intros Hpl.
  eapply triple_bind; [by apply staged_create_parent|]. intros u1.
  apply triple_destination; [done|]. intros Hplt.
  eapply triple_conseq; [by apply triple_hard_link|done| |done].
  intros u2 fs (fs1 & path & node & at_ & Hg & Hrs & Hnode & Hrd & ->). pose proof Hg as [Hgr _].
  assert (Htin : target ∈ entries) by (rewrite <-Hentries; by eapply list_elem_of_lookup_2).
  pose proof (destination_place _ _ _ _ Hplt Htin Hgr Hrs) as Hp1.
  destruct (ft_nodes fs1 !! (root ++ entry_names target)) as [node'|] eqn:Hn; [|done]. injection Hp1 as -> ->.
  pose proof (destination_place _ _ _ _ Hpl He Hgr Hrd) as Hp2.
  destruct (ft_nodes fs1 !! (root ++ entry_names e)) eqn:Hnone; [done|]. injection Hp2 as ->.
  destruct (grown_lookup _ _ _ _ Hgr (proj2 Hplt) Hn) as (e' & k' & _ & _ & Hh).
  destruct node' as [|inode|]; [done| |by destruct Hh as (_ & _ & ?)].
  assert (Ha : added (may_add false) fs1 (set_node fs1 (root ++ entry_names e) (FileNode inode))).
  { eapply (grown_set _ _ false _ e _ []); [exact Hgr|by destruct Hpl|done|by rewrite app_nil_r|exact Hrd|].
    split; [done|]. unfold is_hardlink. rewrite Hk. by rewrite orb_true_r. }
  split; [by eapply good_added|]. unfold entry_restored. rewrite Hk. exists inode, target.
  split; [apply lookup_insert_eq|]. split; [done|]. cbn. rewrite lookup_insert_ne by congruence. done.
Qed.

(** Symlinks. *)
Lemma staged_symlink K e :
  stable K → e ∈ entries → is_symlink e = true →
  triple (good true K) (unpack_symlink staging e)
    (λ _ fs, good true K fs ∧ entry_restored file limits p root fs e) (good true K).
Proof.
  intros HK He Hlink. eapply triple_bind; [by apply triple_checkpoint|]. intros u.
  pose proof Hlink as Hl. unfold is_symlink in Hlink. destruct (er_kind e) as [| | |target is_dir] eqn:Hk; try done.
  apply triple_if; [intros _; by apply triple_fail|]. intros _.
  apply triple_destination; [done|]. intros Hpl.
  eapply triple_bind; [by apply staged_create_parent|]. intros u1.
  eapply triple_bind; [by apply triple_lift|]. intros path. apply triple_gen. intros fs2 [Ht Hg2].
  apply (triple_pre (good true K)); [clear fs2 Hg2|by intros ? ->].
  eapply triple_conseq; [by apply triple_symlink|done| |done].
  intros u2 fs (fs1 & at_ & Hg & Hrd & ->). pose proof Hg as [Hgr _].
  pose proof (destination_place _ _ _ _ Hpl He Hgr Hrd) as Hp2.
  destruct (ft_nodes fs1 !! (root ++ entry_names e)) eqn:Hnone; [done|]. injection Hp2 as ->.
  assert (Ha : added (may_add true) fs1 (set_node fs1 (root ++ entry_names e) (LinkNode path))).
  { eapply (grown_set _ _ false _ e _ []); [exact Hgr|by destruct Hpl|done|by rewrite app_nil_r|exact Hrd|done]. }
  split; [by eapply good_added|]. unfold entry_restored. rewrite Hk. exists path.
  split; [done|]. apply lookup_insert_eq.
Qed.

(** ** All entries *)

Lemma entry_restored_stable e : stable (λ fs, entry_restored file limits p root fs e).
Proof.
  intros D fs fs' Ha. assert (Hn : ∀ key node, ft_nodes fs !! key = Some node → ft_nodes fs' !! key = Some node).
  { intros key node Hl. eapply lookup_weaken; [exact Hl|apply Ha]. }
  unfold entry_restored. destruct (er_kind e); [|apply Hn|naive_solver..].
  intros (inode & r & content & Hl & ? & ? & ? & Hi). exists inode, r, content.
  split; [by apply Hn|]. do 3 (split; [done|]). eapply lookup_weaken; [exact Hi|apply Ha].
Qed.

Lemma triple_entries links (f : EntryRecord → M (FS E) unit) (done_ : EntryRecord → Files → Prop) l K :
  (∀ e, stable (done_ e)) →
  (∀ e K, e ∈ l → stable K → triple (good links K) (f e) (λ _ fs, good links K fs ∧ done_ e fs) (good links K)) →
  stable K →
  triple (good links K) (for_each f l)
    (λ _, good links (λ fs, K fs ∧ ∀ e, e ∈ l → done_ e fs)) (good links (λ _, True)).
Proof.
  intros Hdone. revert K. induction l as [|e l IH]; intros K Hf HK.
  { apply triple_ret. intros fs [Hg Hk]. split; [done|]. split; [done|]. by intros e ?%not_elem_of_nil. }
  unfold for_each. cbn [fold_m]. eapply triple_bind.
  - eapply triple_conseq; [apply (Hf e K); [left|done]|done|done|]. intros fs [? _]. done.
  - intros []. eapply triple_conseq; [apply (IH (λ fs, K fs ∧ done_ e fs))| | |done].
    + intros e' K' He'. apply Hf. by right.
    + intros D fs fs' Ha [? ?]. split; [by eapply HK|by eapply Hdone].
    + intros fs [[? ?] ?]. done.
    + intros u fs [Hg [[? ?] Hl]]. split; [done|]. split; [done|]. by intros e' [->|?]%elem_of_cons; [|apply Hl].
Qed.

Lemma triple_entries_sub links (sel : EntryRecord → bool) (f : EntryRecord → M (FS E) unit) K :
  (∀ e K, e ∈ entries → sel e = true → stable K →
    triple (good links K) (f e) (λ _ fs, good links K fs ∧ entry_restored file limits p root fs e) (good links K)) →
  stable K →
  triple (good links K) (for_each f (List.filter sel entries))
    (λ _, good links (λ fs, K fs ∧ ∀ e, e ∈ entries → sel e = true → entry_restored file limits p root fs e))
    (good links (λ _, True)).
Proof.
  intros Hf HK. eapply triple_conseq.
  - apply (triple_entries links f (λ e fs, entry_restored file limits p root fs e)).
    + apply entry_restored_stable.
    + intros e K' [He Hsel]%elem_of_list_filter. by apply Hf.
    + exact HK.
  - done.
  - intros u fs [Hg [Hk Hall]]. split; [done|]. split; [done|]. intros e He Hsel. apply Hall.
    by apply elem_of_list_filter.
  - done.
Qed.

Definition restored_kind (sel : EntryRecord → bool) (fs : Files) : Prop :=
  ∀ e, e ∈ entries → sel e = true → entry_restored file limits p root fs e.

Lemma restored_kind_stable sel K : stable K → stable (λ fs, K fs ∧ restored_kind sel fs).
Proof.
  intros HK D fs fs' Ha [Hk Hr]. split; [by eapply HK|]. intros e He Hs.
  eapply entry_restored_stable; [exact Ha|]. by apply Hr.
Qed.

(** The four loops restore every entry and add nothing else. *)
Lemma triple_unpack_entries :
  triple (λ fs, fs = fs0) (unpack_entries file p limits staging)
    (λ _ fs, grown true fs ∧ ∀ e, e ∈ entries → entry_restored file limits p root fs e) (grown true).
Proof.
  unfold unpack_entries. rewrite Hentries.
  assert (Hx : ∀ fs, good false (λ _, True) fs → grown true fs) by (intros fs [Hg _]; by apply grown_links).
  set (K1 := λ fs, True ∧ restored_kind is_directory fs).
  set (K2 := λ fs, K1 fs ∧ restored_kind is_file fs).
  set (K3 := λ fs, K2 fs ∧ restored_kind is_hardlink fs).
  assert (HT : stable (λ _, True)) by done.
  assert (HK1 : stable K1) by by apply restored_kind_stable.
  assert (HK2 : stable K2) by by apply restored_kind_stable.
  assert (HK3 : stable K3) by by apply restored_kind_stable.
  eapply triple_bind.
  { eapply triple_conseq; [apply (triple_entries_sub false is_directory); [|exact HT]| | |exact Hx].
    - intros e K He Hd HK. eapply triple_conseq; [by apply staged_directory|done| |done].
      intros u fs [Hg Hn]. split; [done|]. unfold entry_restored. unfold is_directory in Hd. by destruct (er_kind e).
    - intros fs ->. split; [apply added_refl|done].
    - intros u fs Hg. exact Hg. }
  intros u1. eapply triple_bind.
  { eapply triple_conseq; [apply (triple_entries_sub false is_file _ K1); [|exact HK1]| | |exact Hx]; try done.
    intros e K He Hd HK. by apply staged_file. }
  intros u2. eapply triple_bind.
  { eapply triple_conseq; [apply (triple_entries_sub false is_hardlink _ K2); [|exact HK2]| | |exact Hx]; try done.
    intros e K He Hd HK. by apply staged_hardlink. }
  intros u3. eapply triple_conseq; [apply (triple_entries_sub true is_symlink _ K3); [|exact HK3]| | |]; cbv beta.
  - intros e K He Hd HK. by apply staged_symlink.
  - intros fs [Hg Hk]. split; [by apply grown_links|exact Hk].
  - intros u fs (Hg & (((_ & Hd) & Hf) & Hh) & Hs). split; [done|]. intros e He.
    specialize (Hd e He). specialize (Hf e He). specialize (Hh e He). specialize (Hs e He).
    unfold is_directory, is_file, is_hardlink, is_symlink in *. destruct (er_kind e) eqn:Hk; auto.
  - by intros fs [Hg _].
Qed.
End staged.
