(* ===== verification/UnpackSafety.v ===== *)
(** * Unpacking is all or nothing

    The theorems on [unpack]: the output directory is the complete tree or
    there is none, and the cases where this fails. *)

From S2P Require Import Prelude Core Effects Bytes Format Codecs Paths FileTree FileWalk FileGrowth FileMove.
From S2P Require Import Catalog Extract Unpack UnpackTree.

(** The archive [p] is restored below [root], with nothing else there. *)
Record tree_restored `{Crc32c} `{Blake3} `{Backends} (file : list byte) (limits : DecodeLimits)
    (p : ParsedArchive) (root : list Name) (fs : Files) : Prop := {
  tree_root : node_at fs root = Some DirNode;
  tree_entries e : e ∈ pa_entries p → entry_restored file limits p root fs e;
  tree_only q node : q ≠ [] → ft_nodes fs !! (root ++ q) = Some node → may_hold true (pa_entries p) q node;
}.

Lemma not_under_sibling d x y : x ≠ y → ¬ under (d ++ [x]) (d ++ [y]).
Proof. intros Hne [q Hq]. rewrite <-app_assoc in Hq. apply (inj (app d)) in Hq. by injection Hq as ->. Qed.

(** Where the output and the staging directory lie: two names in the same
    existing directory, the second one new. *)
Record site (output staging : list byte) (above : list Component) (dir : list Name) (x tmp : Name) (fs1 : Files) : Prop := {
  site_output_ne : output ≠ [];
  site_staging_ne : staging ≠ [];
  site_output : path_components output = above ++ [Normal x];
  site_staging : path_components staging = above ++ [Normal tmp];
  site_wf : wf_files fs1;
  site_dir : walk MAXSYMLINKS fs1 true (ft_cwd fs1) above = Ok (At dir DirNode);
  site_new : node_at fs1 (dir ++ [tmp]) = None;
  site_names : x ≠ tmp;
}.
Arguments site_wf {_ _ _ _ _ _ _}.
Arguments site_dir {_ _ _ _ _ _ _}.
Arguments site_staging {_ _ _ _ _ _ _}.

Section publish.
Context `{Crc32c} `{Blake3} `{Backends} `{CatalogJson}.
Context {output staging : list byte} {above : list Component} {dir : list Name} {x tmp : Name} {fs1 : Files}.
Context (Hsite : site output staging above dir x tmp fs1).

Let root := dir ++ [tmp].
Let dest := dir ++ [x].
Let fs0 := set_node fs1 root DirNode.

Lemma resolve_sibling fs path n place :
  nodes_kept fs1 fs → ft_cwd fs = ft_cwd fs1 → path ≠ [] → path_components path = above ++ [Normal n] →
  resolve_place fs false path = Ok place ↔ place = entry_place fs dir n.
Proof.
  apply resolve_in, Hsite.
Qed.

Lemma dir_node : node_at fs1 dir = Some DirNode.
Proof. exact (walk_place _ _ _ _ _ _ (site_wf Hsite) (wf_cwd _ (site_wf Hsite)) (site_dir Hsite)). Qed.

Lemma staging_added : added (λ key node, key = root ∧ node = DirNode) fs1 fs0.
Proof. apply added_set_node; [apply dir_node|apply Hsite|done]. Qed.

Lemma staging_at : staged_at staging root fs0.
Proof.
  destruct staging_added as [Hk _ _ Hc Hw]. split; [apply Hw, Hsite|]. rewrite (site_staging Hsite), Hc.
  destruct (walk_app _ _ true _ _ _ [Normal tmp] (walk_kept _ _ _ _ _ _ _ _ Hk (site_dir Hsite)) ltac:(done)) as [l ->].
  assert (Hn : node_at fs0 (dir ++ [tmp]) = Some DirNode) by (rewrite node_at_snoc; apply lookup_insert_eq).
  rewrite walk_cons. cbv zeta. by rewrite Hn, walk_nil.
Qed.

Lemma nothing_below q : ft_nodes fs1 !! (root ++ q) = None.
Proof. apply missing_below_missing; apply Hsite. Qed.

Lemma staging_empty q node : q ≠ [] → ft_nodes fs0 !! (root ++ q) ≠ Some node.
Proof.
  intros Hq Hl. cbn in Hl. rewrite lookup_insert_ne in Hl.
  - by rewrite nothing_below in Hl.
  - intros He. apply Hq. rewrite <-(app_nil_r root) in He at 1. by apply (inj (app root)) in He.
Qed.

Context {entries : list EntryRecord}.

Lemma grown_old fs2 : grown root entries fs0 true fs2 → added (λ key _, under root key) fs1 fs2.
Proof.
  intros Hg. eapply added_trans.
  - eapply added_weaken; [|apply staging_added]. intros key node [-> _]. exists []. by rewrite app_nil_r.
  - eapply added_weaken; [|exact Hg]. intros key node (q & _ & -> & _). by exists q.
Qed.

(** What the removal of the staging directory leaves. *)
Lemma removed_old fs2 : grown root entries fs0 true fs2 →
  nodes_kept fs1 (remove_nodes fs2 root) ∧
  ∀ key node, ft_nodes (remove_nodes fs2 root) !! key = Some node → ft_nodes fs1 !! key = Some node.
Proof.
  intros Hg. destruct (grown_old _ Hg) as [Hk Hn _ _ _]. split.
  - apply map_subseteq_spec. intros key node Hl. rewrite remove_lookup_other; [by eapply lookup_weaken|].
    intros [q ->]. by rewrite nothing_below in Hl.
  - intros key node Hl. rewrite remove_lookup in Hl. case_bool_decide as Hu; [done|].
    rewrite under_take in Hu. by apply Hn in Hl as [?|?].
Qed.

Lemma moved_kept fs2 fs3 : grown root entries fs0 true fs2 → moved fs2 root dest fs3 → nodes_kept fs1 fs3.
Proof.
  intros Hg Hm. destruct (grown_old _ Hg) as [Hk _ _ _ _]. apply map_subseteq_spec. intros key node Hl.
  assert (Hur : ¬ under root key) by (intros [q ->]; by rewrite nothing_below in Hl).
  assert (Hl2 : ft_nodes fs2 !! key = Some node) by by eapply lookup_weaken.
  destruct (decide (take (length dest) key = dest)) as [Hd|Hd]; rewrite under_take in Hd.
  - destruct Hd as [q ->]. destruct (moved_free _ _ _ _ Hm _ _ Hl2) as [-> ->]. apply Hm.
    rewrite app_nil_r. eapply lookup_weaken; [|apply Hg]. apply lookup_insert_eq.
  - by rewrite (moved_other _ _ _ _ Hm).
Qed.

Lemma moved_only fs2 fs3 key node :
  grown root entries fs0 true fs2 → moved fs2 root dest fs3 → ft_nodes fs3 !! key = Some node →
  ft_nodes fs1 !! key = Some node ∨ under dest key.
Proof.
  intros Hg Hm Hl. destruct (decide (take (length dest) key = dest)) as [Hd|Hd]; rewrite under_take in Hd; [by right|].
  destruct (decide (take (length root) key = root)) as [Hr|Hr]; rewrite under_take in Hr.
  - destruct Hr as [q ->]. by rewrite (moved_gone _ _ _ _ Hm) in Hl.
  - rewrite (moved_other _ _ _ _ Hm) in Hl by done. destruct (grown_old _ Hg) as [_ Hn _ _ _].
    apply Hn in Hl as [?|?]; [by left|done].
Qed.

Lemma moved_restored file limits p fs2 fs3 :
  pa_entries p = entries → grown root entries fs0 true fs2 →
  (∀ e, e ∈ entries → entry_restored file limits p root fs2 e) → moved fs2 root dest fs3 →
  tree_restored file limits p dest fs3 ∧ resolve_place fs3 false output = Ok (At dest DirNode).
Proof.
  intros Hp Hg He Hm.
  assert (Hd : ft_nodes fs3 !! dest = Some DirNode).
  { rewrite <-(app_nil_r dest). apply Hm. rewrite app_nil_r. eapply lookup_weaken; [|apply Hg]. apply lookup_insert_eq. }
  assert (Hd' : node_at fs3 dest = Some DirNode) by (unfold dest; by rewrite node_at_snoc).
  split; [split|].
  - done.
  - rewrite Hp. intros e Hin. specialize (He e Hin). unfold entry_restored in *.
    rewrite (moved_inodes _ _ _ _ Hm). destruct (er_kind e).
    + destruct He as (inode & r & content & Hl & ?). exists inode, r, content. split; [by apply Hm|done].
    + by apply Hm.
    + destruct He as (inode & t & Hl & ? & ?). exists inode, t. split; [by apply Hm|]. split; [done|by apply Hm].
    + destruct He as (path & ? & ?). exists path. split; [done|by apply Hm].
  - intros q node Hq Hl. apply Hm in Hl. rewrite Hp.
    eapply grown_lookup; [|exact Hg|exact Hq|exact Hl]. apply staging_empty.
  - apply (resolve_sibling _ _ x); [by eapply moved_kept| |apply Hsite|apply Hsite|].
    + rewrite (moved_cwd _ _ _ _ Hm). apply grown_old in Hg. apply Hg.
    + unfold entry_place. fold dest. by rewrite Hd'.
Qed.

(** The removal of the staging directory does nothing once it has moved. *)
Lemma moved_no_staging fs2 fs3 at_ node :
  grown root entries fs0 true fs2 → moved fs2 root dest fs3 → resolve_place fs3 false staging ≠ Ok (At at_ node).
Proof.
  intros Hg Hm. rewrite (resolve_sibling _ _ tmp); [|by eapply moved_kept| |apply Hsite|apply Hsite].
  - unfold entry_place. rewrite node_at_snoc. fold root. pose proof (moved_gone _ _ _ _ Hm []) as Hn.
    rewrite app_nil_r in Hn. by rewrite Hn.
  - rewrite (moved_cwd _ _ _ _ Hm). apply grown_old in Hg. apply Hg.
Qed.
End publish.

(** ** The program *)

(** The archive is a regular file with this content. *)
Definition archive_holds (fs : Files) (archive file : list byte) : Prop :=
  ∃ at_ inode value, resolve_place fs true archive = Ok (At at_ (FileNode inode)) ∧
    ft_inodes fs !! inode = Some value ∧ in_content value = file.

Section unpack.
Context {E : Type} `{Env E} `{Disturb E} `{!DisturbLaws E} `{Crc32c} `{!Crc32cLaws} `{Blake3} `{Backends} `{CatalogJson}.

Lemma triple_open_file (P X : Files → Prop) path :
  (∀ fs, P fs → X fs) → triple P (open_file path) (λ file fs, P fs ∧ archive_holds fs path file) X.
Proof.
  intros HX. eapply triple_bind; [by apply triple_locate|]. intros place.
  eapply triple_bind; [apply triple_files|]. intros fs. cbv beta.
  destruct place as [at_ [|inode|target]|]; try (apply triple_fail; naive_solver).
  destruct (ft_inodes fs !! inode) as [value|] eqn:Hv; [|apply triple_fail; naive_solver].
  apply triple_ret. intros ? (-> & HP & Hr). split; [done|]. by exists at_, inode, value.
Qed.

Lemma triple_path_entry_exists (P X : Files → Prop) path :
  (∀ fs, P fs → X fs) → triple P (path_entry_exists path) (λ _, P) X.
Proof.
  intros HX. eapply triple_catch with (Y := P).
  - eapply (triple_bind _ _ (λ _, P)); [|intros; by apply triple_ret]. unfold symlink_metadata.
    eapply (triple_bind _ _ (λ _, P)); [|intros [? ?]; by apply triple_ret]. eapply triple_bind; [by apply triple_locate|].
    intros [at_ [|inode|target]|]; try destruct (ends_open path); (apply triple_ret || apply triple_fail); naive_solver.
  - intros e. destruct (bool_decide _); [by apply triple_ret|by apply triple_fail].
Qed.

Lemma triple_sync_parent (P X : Files → Prop) path :
  (∀ fs, P fs → X fs) → triple P (sync_parent path) (λ _, P) X.
Proof.
  intros HX. unfold sync_parent. destruct (Path_parent path) as [parent|]; [|by apply triple_ret].
  eapply triple_bind; [by apply triple_open_dir|]. intros u.
  eapply triple_pre; [by apply triple_sync_all|]. by intros fs [? _].
Qed.

(** The staging directory became the output. *)
Definition published (file : list byte) (limits : DecodeLimits) (p : ParsedArchive)
    (root dest : list Name) (fs0 fs : Files) : Prop :=
  ∃ fs2, grown root (pa_entries p) fs0 true fs2 ∧
    (∀ e, e ∈ pa_entries p → entry_restored file limits p root fs2 e) ∧ moved fs2 root dest fs.

Lemma triple_publish file limits p output staging above dir x tmp fs1 :
  site output staging above dir x tmp fs1 → catalog_ok limits p → links_are_leaves (pa_entries p) →
  let root := dir ++ [tmp] in let dest := dir ++ [x] in let fs0 := set_node fs1 root DirNode in
  triple (λ fs, fs = fs0)
    (unpack_entries file p limits staging;; checkpoint;; rename_dir staging output;; sync_parent output)
    (λ _, published file limits p root dest fs0)
    (λ fs, grown root (pa_entries p) fs0 true fs ∨ published file limits p root dest fs0 fs).
Proof.
  intros Hsite Hcat Hleaves root dest fs0.
  pose proof (staging_at Hsite) as Hat. pose proof (staging_empty Hsite) as Hempty.
  eapply triple_bind.
  { eapply triple_conseq; [by apply (triple_unpack_entries staging root (pa_entries p) (site_staging_ne _ _ _ _ _ _ _ Hsite)
      Hleaves fs0 Hat Hempty file limits p)|done|done|]. intros fs Hg. by left. }
  intros u1. eapply triple_bind; [apply triple_checkpoint; intros fs [? _]; by left|]. intros u2.
  eapply triple_bind; [|intros u3; apply triple_sync_parent; intros fs Hp; by right].
  eapply triple_conseq; [apply (triple_rename_dir
    (λ fs, grown root (pa_entries p) fs0 true fs ∧
      ∀ e, e ∈ pa_entries p → entry_restored file limits p root fs e)
    (λ fs, grown root (pa_entries p) fs0 true fs))| | |].
  - intros fs [Hg _]. apply Hg, Hat.
  - by intros fs [Hg _].
  - done.
  - intros u fs3 (fs2 & path & path' & [Hg Hall] & Hfrom & Hto & Hm).
    pose proof (grown_old Hsite _ Hg) as [Hk _ _ Hc _].
    apply (resolve_sibling Hsite _ _ tmp) in Hfrom; [|done|done|apply Hsite|apply Hsite].
    assert (Hp' : path' = dest).
    { destruct Hto as [Hto|Hto]; (apply (resolve_sibling Hsite _ _ x) in Hto; [|done|done|apply Hsite|apply Hsite]);
        unfold entry_place in Hto; by destruct (node_at fs2 (dir ++ [x])); simplify_eq. }
    assert (Hp : path = root) by (unfold entry_place in Hfrom; by destruct (node_at fs2 (dir ++ [tmp])); simplify_eq).
    subst path path'. destruct Hm as [Hm|[Hm|Hm]].
    + apply (inj (app dir)) in Hm. injection Hm as Hm. by destruct (site_names _ _ _ _ _ _ _ Hsite).
    + apply not_under_sibling in Hm; [done|]. apply Hsite.
    + by exists fs2.
  - intros fs Hg. by left.
Qed.

Lemma triple_tempdir_in (P X : Files → Prop) prefix parent :
  (∀ fs, P fs → X fs) →
  triple P (tempdir_in prefix parent)
    (λ staging fs', ∃ fs name at_, P fs ∧ slash ∉ name ∧ staging = path_push parent (prefix ++ name) ∧
       resolve_place fs false staging = Ok (Missing at_) ∧ fs' = set_node fs at_ DirNode) X.
Proof.
  intros HX. eapply (triple_bind _ _ (λ name fs, slash ∉ name ∧ P fs)).
  { intros s r s' HP Hr. pose proof (temporary_name_plain s.2) as Hn.
    destruct (temporary_name s.2) as [name e] eqn:Ht. injection Hr as <- <-. done. }
  intros name. eapply triple_bind; [apply triple_create_dir; naive_solver|]. intros u.
  apply triple_ret. intros fs' (fs & at_ & [Hn HP] & Hr & ->). by exists fs, name, at_.
Qed.

Lemma triple_with_tempdir {A} P (body : M (FS E) A) Q X path :
  triple P body Q X →
  let dropped (fs fs' : Files) := fs' = fs ∨
    ∃ at_, resolve_place fs false path = Ok (At at_ DirNode) ∧ fs' = remove_nodes fs at_ in
  triple P (with_tempdir path body) (λ v fs', ∃ fs, Q v fs ∧ dropped fs fs') (λ fs', ∃ fs, X fs ∧ dropped fs fs').
Proof.
  intros Hb dropped s r s' HP (s1 & E1 & Hd)%with_tempdir_run. specialize (Hb _ _ _ HP E1).
  destruct r; exists s1.1; done.
Qed.

Lemma staging_name_plain name : slash ∉ name → plain_name (unpack_prefix ++ name).
Proof.
  intros Hn. split; [done|]. split; [|done]. intros [Hp|?]%elem_of_app; [|done]. revert Hp.
  apply (bool_decide_unpack _). by vm_compute.
Qed.

(** ** The outcome *)

(** The output is the whole archive, and nothing else but directories was
    added. *)
Record unpacked (archive output file : list byte) (limits : DecodeLimits) (max_temp_bytes : N) (fs fs' : Files)
    (p : ParsedArchive) (root : list Name) : Prop := {
  unpacked_archive : archive_holds fs archive file;
  unpacked_verified : run_calm (verify_open_file file limits) = Ok p;
  unpacked_bytes : vr_original_bytes (pa_report p) <= max_temp_bytes;
  unpacked_place : resolve_place fs' false output = Ok (At root DirNode);
  unpacked_tree : tree_restored file limits p root fs';
  unpacked_only key node : ft_nodes fs' !! key = Some node →
    ft_nodes fs !! key = Some node ∨ node = DirNode ∨ under root key;
}.

(** Nothing was added but directories and one temporary directory's
    content. *)
Definition leftovers (fs fs' : Files) : Prop :=
  ∃ temporary, ∀ key node, ft_nodes fs' !! key = Some node →
    ft_nodes fs !! key = Some node ∨ node = DirNode ∨
    ∃ d name, temporary = d ++ [unpack_prefix ++ name] ∧ under temporary key.

Definition kept (fs fs' : Files) : Prop :=
  nodes_kept fs fs' ∧ ft_inodes fs ⊆ ft_inodes fs' ∧ ft_cwd fs' = ft_cwd fs.

Lemma added_kept D fs fs' : added D fs fs' → kept fs fs'.
Proof. intros [? _ ? ? _]. done. Qed.

Lemma added_leftovers fs fs1 : added (λ _ node, node = DirNode) fs fs1 → leftovers fs fs1.
Proof. intros Ha. exists []. intros key node [?| ->]%(added_new _ _ _ Ha); auto. Qed.

(** From the tree in which the staging directory was created to the end. *)
Lemma triple_staged archive file limits p output max_temp_bytes fs fs1 staging above dir x name :
  archive_holds fs archive file → run_calm (verify_open_file file limits) = Ok p →
  vr_original_bytes (pa_report p) <= max_temp_bytes → links_are_leaves (pa_entries p) →
  added (λ _ node, node = DirNode) fs fs1 →
  site output staging above dir x (unpack_prefix ++ name) fs1 →
  triple (λ fs', fs' = set_node fs1 (dir ++ [unpack_prefix ++ name]) DirNode)
    (with_tempdir staging
      (unpack_entries file p limits staging;; checkpoint;; rename_dir staging output;; sync_parent output))
    (λ _ fs', kept fs fs' ∧ unpacked archive output file limits max_temp_bytes fs fs' p (dir ++ [x]))
    (λ fs', kept fs fs' ∧
       (unpacked archive output file limits max_temp_bytes fs fs' p (dir ++ [x]) ∨ leftovers fs fs')).
Proof.
  intros Hfile Hv Hmax Hleaves Ha Hsite. pose proof (verify_open_file_ok _ _ _ Hv) as [Hcat _ _ _ _].
  destruct (added_kept _ _ _ Ha) as (Hk & Hi & Hc).
  set (root := dir ++ [unpack_prefix ++ name]). set (dest := dir ++ [x]).
  assert (Hpub : ∀ fs2 fs3, published file limits p root dest (set_node fs1 root DirNode) fs2 →
    (fs3 = fs2 ∨ ∃ at_, resolve_place fs2 false staging = Ok (At at_ DirNode) ∧ fs3 = remove_nodes fs2 at_) →
    kept fs fs3 ∧ unpacked archive output file limits max_temp_bytes fs fs3 p dest).
  { intros fs2 fs3 (fsg & Hg & Hall & Hm) [->|(at_ & Hr & _)]; [|by destruct (moved_no_staging Hsite _ _ _ _ Hg Hm Hr)].
    destruct (moved_restored Hsite file limits p _ _ eq_refl Hg Hall Hm) as [Htree Hplace].
    pose proof (grown_old Hsite _ Hg) as [_ _ Hig Hcg _]. split.
    - split; [|split].
      + etrans; [exact Hk|]. exact (moved_kept Hsite _ _ Hg Hm).
      + rewrite (moved_inodes _ _ _ _ Hm). by etrans.
      + rewrite (moved_cwd _ _ _ _ Hm). congruence.
    - split; [done|done|done|done|done|]. intros key node [Hl|Hu]%(moved_only Hsite _ _ _ _ Hg Hm); [|by right; right].
      apply (added_new _ _ _ Ha) in Hl as [?| ->]; auto. }
  eapply triple_conseq; [apply triple_with_tempdir; by apply (triple_publish file limits p _ _ _ _ _ _ fs1 Hsite)|done| |].
  { intros u fs3 (fs2 & Hp & Hd). by eapply Hpub. }
  intros fs3 (fs2 & [Hg|Hp] & Hd); [|by destruct (Hpub _ _ Hp Hd); auto].
  pose proof (grown_old Hsite _ Hg) as [Hkg Hng Hig Hcg _]. destruct (removed_old Hsite _ Hg) as [Hkr Hnr].
  assert (Hd' : fs3 = fs2 ∨ fs3 = remove_nodes fs2 root).
  { destruct Hd as [->|(at_ & Hr & ->)]; [by left|right]. f_equal.
    apply (resolve_sibling Hsite _ _ (unpack_prefix ++ name)) in Hr; [|done|done|apply Hsite|apply Hsite].
    unfold entry_place in Hr. by destruct (node_at fs2 _); simplify_eq. }
  split; [|right; exists root; intros key node Hl; destruct Hd' as [->| ->]].
  - destruct Hd' as [->| ->]; (split; [|split; [by etrans|cbn; congruence]]); by etrans.
  - apply Hng in Hl as [Hl|Hu]; [|right; right; by exists dir, name].
    apply (added_new _ _ _ Ha) in Hl as [?| ->]; auto.
  - apply Hnr in Hl. apply (added_new _ _ _ Ha) in Hl as [?| ->]; auto.
Qed.

Lemma above_parent output above x :
  path_components output = above ++ [Normal x] →
  path_components (parent_or_dot output) = above.
Proof. intros Hc. unfold parent_or_dot. by destruct (Path_parent_snoc _ _ _ Hc ltac:(done)) as [-> ?]. Qed.

Lemma triple_unpack archive output limits max_temp_bytes fs x :
  wf_files fs → Path_file_name output = Some x → (∀ name, x ≠ unpack_prefix ++ name) →
  (∀ file p, archive_holds fs archive file → run_calm (verify_open_file file limits) = Ok p →
    links_are_leaves (pa_entries p)) →
  let done_ fs' := ∃ file p root, unpacked archive output file limits max_temp_bytes fs fs' p root in
  triple (λ fs', fs' = fs) (unpack_with_control_and_temp_limit archive output limits max_temp_bytes)
    (λ _ fs', kept fs fs' ∧ done_ fs') (λ fs', kept fs fs' ∧ (done_ fs' ∨ leftovers fs fs')).
Proof.
  intros Hwf Hx Hprefix Hleaves done_.
  assert (Hsame : kept fs fs ∧ (done_ fs ∨ leftovers fs fs)).
  { split; [split; [done|done]|right]. apply added_leftovers, added_refl. }
  assert (HX : ∀ fs', fs' = fs → kept fs fs' ∧ (done_ fs' ∨ leftovers fs fs')) by by intros fs' ->.
  assert (Hout : ∃ above, path_components output = above ++ [Normal x]).
  { unfold Path_file_name in Hx. destruct (last (path_components output)) as [[]|] eqn:Hl; try done.
    injection Hx as ->. apply last_Some in Hl as [above Hl]. eauto. }
  destruct Hout as [above Hoc]. assert (Hne : output ≠ []).
  { intros ->. by destruct above. }
  pose proof (above_parent _ _ _ Hoc) as Hpc.
  eapply triple_bind; [by apply triple_checkpoint|]. intros u1.
  eapply triple_bind; [by apply triple_path_entry_exists|]. intros [|]; [by apply triple_fail|].
  eapply triple_bind; [by apply triple_open_file|]. intros file. apply triple_gen. intros fs' [-> Hfile].
  eapply triple_bind; [apply triple_calm; [apply verify_open_file_follows|apply (verify_open_file_preserves fst)|done]|].
  intros p. apply triple_gen. intros fs' [-> Hv]. apply triple_if; [intros _; by apply triple_fail|].
  intros Hmax%N.ltb_ge. specialize (Hleaves _ _ Hfile Hv).
  eapply triple_bind.
  { eapply triple_conseq; [apply (triple_create_dir_all (added (λ _ node, node = DirNode) fs) (λ _, True))| | |].
    - intros path' fs1 at_ _ _ Ha Hr. eapply added_trans; [exact Ha|].
      destruct (resolve_place_ok _ _ _ _ (added_wf _ _ _ Ha Hwf) Hr) as (Hn & d & n & -> & Hd).
      by apply added_set_node.
    - done.
    - done.
    - intros fs' ->. apply added_refl.
    - intros u2 fs' [Ha _]. exact Ha.
    - intros fs1 Ha. split; [by eapply added_kept|right]. by apply added_leftovers. }
  intros u2. eapply triple_bind.
  { apply triple_tempdir_in. intros fs1 Ha. split; [by eapply added_kept|right]. by apply added_leftovers. }
  intros staging. apply triple_gen. intros fs0 (fs1 & name & at_ & Ha & Hn & Hs & Hr & ->).
  assert (Hsc : path_components staging = above ++ [Normal (unpack_prefix ++ name)]).
  { rewrite Hs, components_push_name, Hpc; [done|]. by apply staging_name_plain. }
  assert (Hsne : staging ≠ []) by (rewrite Hs; by apply path_push_nonempty).
  unfold resolve_place in Hr. rewrite bool_decide_eq_false_2, Hsc in Hr by done.
  apply walk_snoc in Hr as (dir & Hdir & Hat). unfold entry_place in Hat.
  destruct (node_at fs1 (dir ++ [unpack_prefix ++ name])) eqn:Hnew; [done|]. injection Hat as ->.
  eapply triple_conseq.
  - apply (triple_staged archive file limits p output max_temp_bytes fs fs1 staging above dir x name); try done.
    split; try done. by apply (added_wf _ _ _ Ha).
  - done.
  - intros u3 fs' [? ?]. split; [done|]. by exists file, p, (dir ++ [x]).
  - intros fs' [? [?|?]]; (split; [done|]); [left; by exists file, p, (dir ++ [x])|by right].
Qed.
End unpack.

(** C7: unpacking is all or nothing.  Whatever the disk, the checkpoints and
    the archive do, and whatever [unpack] returns, the existing tree and its
    files are kept; and either the output is a directory that holds exactly the
    entries of a verified archive (every file with the bytes of its recorded
    hash and its mode, every hardlink on the file of its target, every symlink
    with its target, and no other node but the directories above them), or
    nothing was added but directories and the content of one temporary
    directory, and then [unpack] did not return [Ok].  This holds for archives
    in which no symlink is above another entry. *)
Theorem unpack_all_or_nothing {E : Type} `{Env E} `{Hdisk : Disturb E} `{Hdisklaws : !DisturbLaws E}
    `{Hcrc : Crc32c} `{Hcrclaws : !Crc32cLaws} `{Hblake : Blake3} `{Hback : Backends} `{Hjson : CatalogJson}
    archive output limits max_temp_bytes fs (e : E) x r fs' e' :
  wf_files fs → Path_file_name output = Some x → (∀ name, x ≠ unpack_prefix ++ name) →
  (∀ file p, archive_holds fs archive file → run_calm (verify_open_file file limits) = Ok p →
    links_are_leaves (pa_entries p)) →
  unpack_with_control_and_temp_limit archive output limits max_temp_bytes (fs, e) = (r, (fs', e')) →
  kept fs fs' ∧
  ((∃ file p root, unpacked archive output file limits max_temp_bytes fs fs' p root) ∨
   (r ≠ Ok tt ∧ leftovers fs fs')).
Proof.
  intros Hwf Hx Hprefix Hleaves Hrun.
  pose proof (triple_unpack archive output limits max_temp_bytes fs x Hwf Hx Hprefix Hleaves (fs, e) _ _ eq_refl Hrun) as Ht.
  destruct r as [u|err]; naive_solver.
Qed.
