(* ===== verification/ExtractSafety.v ===== *)
(** * Extracting an entry to disk

    [extract_with_control_and_limits] creates one node below the output
    directory, never through a link below it, and replaces nothing. *)

From S2P Require Import Prelude Core Effects Bytes Format Codecs Paths FileTree FileWalk FileGrowth FileMove.
From S2P Require Import Catalog Extract Unpack UnpackTree UnpackSafety.

Section prepare.
Context {E : Type} `{Env E} `{Disturb E}.

Lemma triple_symlink_metadata (P X : Files → Prop) path :
  (∀ fs, P fs → X fs) →
  triple P (symlink_metadata path)
    (λ node fs, P fs ∧ ∃ at_, resolve_place fs (ends_open path) path = Ok (At at_ node)) X.
Proof.
  intros HX. apply (triple_bind _ _ (λ '(at_, node) fs, P fs ∧ resolve_place fs (ends_open path) path = Ok (At at_ node))).
  - eapply triple_bind; [by apply triple_locate|]. intros [at_ [|inode|target]|]; cbn [orb].
    all: destruct (ends_open path); (apply triple_ret || apply triple_fail); naive_solver.
  - intros [at_ node]. apply triple_ret. naive_solver.
Qed.

Definition only_dirs (fs fs' : Files) : Prop := added (λ _ node, node = DirNode) fs fs'.

Lemma only_dirs_made fs fs1 follow path at_ :
  wf_files fs → only_dirs fs fs1 → resolve_place fs1 follow path = Ok (Missing at_) →
  only_dirs fs (set_node fs1 at_ DirNode).
Proof.
  intros Hwf Ha Hr. eapply added_trans; [exact Ha|].
  destruct (resolve_place_ok _ _ _ _ (added_wf _ _ _ Ha Hwf) Hr) as (Hn & d & n & -> & Hd). by apply added_set_node.
Qed.

(** [create_dir_all] leaves a directory. *)
Lemma triple_create_dir_all_any fs path :
  wf_files fs →
  triple (only_dirs fs) (create_dir_all path)
    (λ _ fs', only_dirs fs fs' ∧ (path ≠ [] → ∃ at_, resolve_place fs' true path = Ok (At at_ DirNode)))
    (only_dirs fs).
Proof.
  intros Hwf. eapply triple_conseq; [apply (triple_create_dir_all (only_dirs fs)
    (λ fs', ∃ at_, resolve_place fs' true path = Ok (At at_ DirNode)))|done|done|done].
  - intros path' fs1 at_ _ _ Ha Hr. by eapply only_dirs_made.
  - intros fs1 at_ Ha Hr. exists at_. unfold resolve_place in *. case_bool_decide; [done|].
    pose proof (added_wf _ _ _ Ha Hwf) as Hwf1. apply (walk_made _ fs1); [done|exact (wf_cwd _ Hwf1)|done].
  - intros fs1 at_ Ha Hr. by exists at_.
Qed.

(** The output directory is [root], and [names] lead to directories below
    it. *)
Definition reached (output : list byte) (root names : list Name) (fs : Files) : Prop :=
  walk MAXSYMLINKS fs true (ft_cwd fs) (path_components output ++ map Normal names) = Ok (At (root ++ names) DirNode).

Lemma reached_kept output root names fs fs' :
  nodes_kept fs fs' → ft_cwd fs' = ft_cwd fs → reached output root names fs → reached output root names fs'.
Proof. unfold reached. intros Hk ->. by apply walk_kept. Qed.

Lemma reached_place output root names n path fs place :
  reached output root names fs → path ≠ [] → path_components path = path_components output ++ map Normal (names ++ [n]) →
  resolve_place fs false path = Ok place ↔ place = entry_place fs (root ++ names) n.
Proof.
  intros Hr Hp Hpc. eapply resolve_in; [exact Hr|done|done|done|]. by rewrite Hpc, map_app, app_assoc.
Qed.

Lemma reached_next output root names n fs :
  reached output root names fs → node_at fs ((root ++ names) ++ [n]) = Some DirNode →
  reached output root (names ++ [n]) fs.
Proof.
  intros Hr Hn. unfold reached. rewrite map_app, !app_assoc. by apply walk_snoc_node.
Qed.

Lemma joined_below output names :
  output ≠ [] → Forall plain_name names →
  fold_left path_push names output ≠ [] ∧
  path_components (fold_left path_push names output) = path_components output ++ map Normal names.
Proof.
  intros Ho. induction names as [|n names IH] using rev_ind; intros Hp.
  { cbn. by rewrite app_nil_r. }
  apply Forall_app in Hp as [Hp Hn]. rewrite Forall_singleton in Hn. destruct (IH Hp) as [Hne Hpc].
  rewrite fold_left_app. cbn [fold_left]. split; [apply path_push_nonempty; by destruct Hn|].
  by rewrite components_push_name, Hpc, map_app, app_assoc.
Qed.

(** Where the loop over the parent's components is. *)
Definition at_parent (fs : Files) (output : list byte) (root names : list Name) (fs' : Files) : Prop :=
  only_dirs fs fs' ∧ reached output root [] fs' ∧ reached output root names fs'.

(** One step of the loop over the parent's components. *)
Lemma triple_parent_step fs output root names n :
  wf_files fs → output ≠ [] → Forall plain_name (names ++ [n]) →
  triple (at_parent fs output root names)
    (parent_step (fold_left path_push names output) (Normal n))
    (λ current fs', current = fold_left path_push (names ++ [n]) output ∧ at_parent fs output root (names ++ [n]) fs')
    (only_dirs fs).
Proof.
  intros Hwf Ho Hp. destruct (joined_below output (names ++ [n]) Ho Hp) as [Hne Hpc].
  rewrite fold_left_app in Hne, Hpc. cbn [fold_left] in Hne, Hpc.
  assert (Hopen : ends_open (path_push (fold_left path_push names output) n) = false).
  { apply ends_open_name. by apply Forall_app in Hp as [_ [? _]%Forall_cons]. }
  unfold parent_step. cbn [component_name]. set (current := path_push _ n) in *.
  assert (Hcreate : triple (at_parent fs output root names) (create_dir current)
    (λ _, at_parent fs output root (names ++ [n])) (only_dirs fs)).
  { eapply triple_conseq; [apply (triple_create_dir (at_parent fs output root names) (only_dirs fs)); by intros fs' [? _]|done| |done].
    intros u fs' (fs1 & at_ & (Ha & Hr0 & Hr) & Hm & ->).
    pose proof (only_dirs_made _ _ _ _ _ Hwf Ha Hm) as Ha'. split; [done|].
    apply (reached_place _ _ _ n _ _ _ Hr Hne Hpc) in Hm. unfold entry_place in Hm.
    destruct (node_at fs1 ((root ++ names) ++ [n])) eqn:Hn; [done|]. injection Hm as ->.
    assert (Hk : nodes_kept fs1 (set_node fs1 ((root ++ names) ++ [n]) DirNode)) by
      (apply insert_subseteq; by rewrite node_at_snoc in Hn).
    split; [by eapply reached_kept|]. apply reached_next; [by eapply reached_kept|].
    rewrite node_at_snoc. apply lookup_insert_eq. }
  eapply triple_bind.
  - eapply (triple_catch _ _ (λ _, at_parent fs output root (names ++ [n])) _ (at_parent fs output root names)).
    + eapply triple_bind; [by apply triple_symlink_metadata|].
      intros [|inode|target]; [|apply triple_fail; by intros fs' [? _]..]. apply triple_ret.
      intros fs' ((Ha & Hr0 & Hr) & at_ & Hm). rewrite Hopen in Hm. split; [exact Ha|]. split; [exact Hr0|].
      apply (reached_place _ _ _ n _ _ _ Hr Hne Hpc) in Hm. unfold entry_place in Hm.
      destruct (node_at fs' ((root ++ names) ++ [n])) eqn:Hn; [|done]. injection Hm as -> <-. by apply reached_next.
    + intros e. destruct (bool_decide _); [exact Hcreate|]. apply triple_fail. by intros fs' [? _].
  - intros u. apply triple_ret. intros fs' Hf. by rewrite fold_left_app.
Qed.

Lemma triple_parent_steps fs output root done_ names :
  wf_files fs → output ≠ [] → Forall plain_name (done_ ++ names) →
  triple (at_parent fs output root done_)
    (fold_m parent_step (fold_left path_push done_ output) (map Normal names))
    (λ _, at_parent fs output root (done_ ++ names))
    (only_dirs fs).
Proof.
  intros Hwf Ho. revert done_. induction names as [|n names IH]; intros done_ Hp; cbn [map fold_m].
  { apply triple_ret. intros fs' Hf. by rewrite app_nil_r. }
  rewrite (app_assoc done_ [n] names : done_ ++ n :: names = _) in Hp |- *.
  eapply triple_bind.
  - apply triple_parent_step; [done|done|]. by apply Forall_app in Hp as [? _].
  - intros current. apply triple_gen. intros fs1 [-> Hf].
    eapply triple_pre; [by apply IH|]. by intros ? ->.
Qed.

(** The parent of the entry is a directory below the output directory. *)
Lemma triple_prepare fs output e names n :
  wf_files fs → output ≠ [] → entry_names e = names ++ [n] →
  triple (λ fs', fs' = fs) (prepare_extract_parent output (er_path e))
    (λ _ fs', ∃ root, at_parent fs output root names fs') (only_dirs fs).
Proof.
  intros Hwf Ho Hnames. eapply triple_bind.
  { eapply triple_pre; [by apply (triple_create_dir_all_any fs)|]. intros fs' ->. apply added_refl. }
  intros u1. eapply triple_bind; [apply triple_symlink_metadata; by intros fs' [? _]|].
  intros node. apply triple_gen. intros fs1 ([Ha Hd] & root & Hr).
  apply (triple_pre (λ fs', only_dirs fs fs' ∧ ∃ root, reached output root [] fs')).
  2: { intros ? ->. split; [exact Ha|]. destruct (Hd Ho) as [at_ Hat]. exists at_. unfold reached, resolve_place in *.
       rewrite bool_decide_eq_false_2 in Hat by done. cbn [map]. by rewrite !app_nil_r. }
  clear fs1 Ha Hd Hr root. destruct node as [|inode|target]; [| |apply triple_fail; by intros fs' [? _]].
  all: eapply triple_bind; [apply triple_lift; by intros fs' [? _]|]; intros relative.
  all: apply triple_gen; intros fs1 (Hrel & Ha & root & Hr).
  all: destruct (ArchivePath_to_path_buf_safe _ _ Hrel) as (Hpc & Hplain & _).
  all: assert (Hpc' : path_components relative = map Normal names ++ [Normal n]) by
    (rewrite Hpc; change (map Normal names ++ [Normal n]) with (map Normal names ++ map Normal [n]);
     rewrite <-map_app, <-Hnames; unfold entry_names; by rewrite map_map).
  all: destruct (Path_parent_snoc _ _ _ Hpc' ltac:(done)) as [-> Hparent]; rewrite Hparent.
  all: assert (Hp : Forall plain_name names) by
    (assert (Hall : Forall plain_name (entry_names e)) by (by apply Forall_map); rewrite Hnames in Hall;
     by apply Forall_app in Hall as [? _]).
  all: eapply triple_bind; [eapply triple_pre; [exact (triple_parent_steps fs output root [] names Hwf Ho Hp)|by intros ? ->]|].
  all: intros u2; apply triple_ret; intros fs' Hf; by exists root.
Qed.
End prepare.

(** ** The atomic file *)

Section spool.
Context {E : Type} `{Env E} `{Disturb E} `{!DisturbLaws E}.
Context (output : list byte) (root names : list Name) (n : Name) (fs1 : Files).
Hypothesis Hwf : wf_files fs1.
Hypothesis Houtput : output ≠ [].
Hypothesis Hreached : reached output root names fs1.
Hypothesis Hplain : Forall plain_name (names ++ [n]).

Let dir := root ++ names.
Let dest := dir ++ [n].

(** [fs1] with directories and with other nodes at [keys]. *)
Definition with_files (keys : list (list Name)) (fs : Files) : Prop :=
  added (λ key node, node = DirNode ∨ key ∈ keys) fs1 fs.
(** [fs1] with directories and with other nodes below the output directory. *)
Definition inside (fs : Files) : Prop := added (λ key node, node = DirNode ∨ under root key) fs1 fs.

Lemma with_files_inside keys fs : (∀ key, key ∈ keys → under root key) → with_files keys fs → inside fs.
Proof. intros Hk. apply added_weaken. intros key node [?|?]; [by left|right; auto]. Qed.

Lemma dir_under m : under root (dir ++ [m]).
Proof. exists (names ++ [m]). unfold dir. by rewrite app_assoc. Qed.

Lemma dir_place keys fs path m place :
  with_files keys fs → path ≠ [] → path_components path = path_components output ++ map Normal names ++ [Normal m] →
  resolve_place fs false path = Ok place ↔ place = entry_place fs dir m.
Proof.
  intros [Hk _ _ Hc _] Hp Hpc. eapply resolve_in; [exact Hreached|done|done|done|]. by rewrite Hpc, app_assoc.
Qed.

Definition destination : list byte := path_push output (joined (names ++ [n])).

Lemma destination_spec :
  destination ≠ [] ∧ path_components destination = path_components output ++ map Normal names ++ [Normal n] ∧
  path_components (parent_or_dot destination) = path_components output ++ map Normal names.
Proof.
  assert (Hc : path_components destination = path_components output ++ map Normal names ++ [Normal n]).
  { unfold destination. rewrite components_join, map_app by (done || by destruct names). done. }
  split; [|split; [done|]].
  - apply path_push_nonempty. apply joined_spec; [done|by destruct names].
  - rewrite app_assoc in Hc. by apply above_parent in Hc.
Qed.

Lemma destination_open : ends_open destination = false.
Proof.
  assert (Hne : names ++ [n] ≠ []) by by intros [_ ?]%app_nil. destruct (joined_spec _ Hplain Hne) as (_ & _ & Hh & _).
  unfold destination. rewrite ends_open_push by done. by apply ends_open_joined.
Qed.

(** The file [inode] at [key] with this content. *)
Definition holds_file (key : list Name) (inode : N) (value : Inode) (fs : Files) : Prop :=
  ft_nodes fs !! key = Some (FileNode inode) ∧ ft_inodes fs !! inode = Some value ∧ ft_inodes fs1 !! inode = None.

Lemma holds_set key inode value value' keys fs :
  with_files keys fs → holds_file key inode value fs →
  with_files keys (set_inode fs inode value') ∧ holds_file key inode value' (set_inode fs inode value').
Proof.
  intros Hw (Hn & Hi & Hnew). split; [by apply added_set_inode|]. split; [done|]. split; [apply lookup_insert_eq|done].
Qed.

(** Creating directories on the way to the destination changes neither. *)
Lemma triple_dirs keys key inode value path :
  triple (λ fs, with_files keys fs ∧ holds_file key inode value fs) (create_dir_all path)
    (λ _ fs, with_files keys fs ∧ holds_file key inode value fs) (with_files keys).
Proof.
  eapply triple_conseq; [apply (triple_create_dir_all
    (λ fs, with_files keys fs ∧ holds_file key inode value fs) (λ _, True))|done|naive_solver|naive_solver]; [|done..].
  intros path' fs at_ _ _ [Hw (Hn & Hi & Hnew)] Hr.
  destruct (resolve_place_ok _ _ _ _ (added_wf _ _ _ Hw Hwf) Hr) as (Hnone & d & m & -> & Hd).
  assert (Ha : added (λ _ node, node = DirNode) fs (set_node fs (d ++ [m]) DirNode)) by by apply added_set_node.
  split.
  - eapply added_trans; [exact Hw|]. eapply added_weaken; [|exact Ha]. by left.
  - split; [|by split]. eapply lookup_weaken; [exact Hn|apply Ha].
Qed.

Lemma triple_spool (P : Files → Prop) :
  (∀ fs, P fs → with_files [] fs) →
  triple P (create_atomic_spool (parent_or_dot destination))
    (λ spool fs, ∃ tmp, spool.1 ≠ [] ∧
       path_components spool.1 = path_components output ++ map Normal names ++ [Normal tmp] ∧
       ft_nodes fs1 !! (dir ++ [tmp]) = None ∧ with_files [dir ++ [tmp]] fs ∧
       holds_file (dir ++ [tmp]) spool.2 {| in_content := []; in_mode := None |} fs)
    (with_files []).
Proof.
  intros HP. destruct destination_spec as (_ & _ & Hpar). eapply (triple_bind _ _ (λ _, with_files [])).
  { eapply triple_conseq; [apply (triple_create_dir_all (with_files []) (λ _, True))|auto|naive_solver|done]; [|done..].
    intros path' fs at_ _ _ Hw Hr.
    destruct (resolve_place_ok _ _ _ _ (added_wf _ _ _ Hw Hwf) Hr) as (Hnone & d & m & -> & Hd).
    eapply added_trans; [exact Hw|]. apply added_set_node; [done|done|by left]. }
  intros u. eapply triple_conseq; [by apply (triple_tempfile_in (with_files []))|done| |done].
  intros spool fs' (fs & name & at_ & Hw & Hs & Hpath & Hr & Hi & ->).
  set (tmp := String.list_byte_of_string ".tmp" ++ name) in *.
  assert (Hp : plain_name tmp).
  { split; [done|]. split; [|by split]. intros [Hin|?]%elem_of_app; [|done]. revert Hin.
    apply (bool_decide_unpack _). by vm_compute. }
  assert (Hne : spool.1 ≠ []) by (rewrite Hpath; apply path_push_nonempty; by destruct Hp).
  assert (Hpc : path_components spool.1 = path_components output ++ map Normal names ++ [Normal tmp]).
  { by rewrite Hpath, components_push_name, Hpar, app_assoc. }
  apply (dir_place _ _ _ tmp _ Hw Hne Hpc) in Hr. unfold entry_place in Hr.
  destruct (node_at fs (dir ++ [tmp])) eqn:Hnone; [done|]. injection Hr as ->. exists tmp.
  assert (Hfresh : ft_inodes fs1 !! spool.2 = None).
  { rewrite Hi. apply eq_None_not_Some. intros [value Hv]. pose proof (fresh_inode_new fs) as Hf.
    rewrite (lookup_weaken _ _ _ _ Hv (added_inodes _ _ _ Hw)) in Hf. done. }
  split; [done|]. split; [done|]. split; [|split].
  - apply eq_None_not_Some. intros [node Hn]. rewrite node_at_snoc in Hnone.
    by rewrite (lookup_weaken _ _ _ _ Hn (added_nodes _ _ _ Hw)) in Hnone.
  - apply added_set_inode; [|done]. eapply added_trans; [eapply added_weaken; [|exact Hw]|].
    + intros key node [?|Hk]; [by left|by apply not_elem_of_nil in Hk].
    + apply added_set_node; [|done|right; by left]. apply (node_at_kept fs1); [apply Hw|].
      exact (walk_place _ _ _ _ _ _ Hwf (wf_cwd _ Hwf) Hreached).
  - split; [apply lookup_insert_eq|]. split; [apply lookup_insert_eq|done].
Qed.

(** The commit: the spool becomes the destination, where there was
    nothing. *)
Lemma triple_commit spool tmp inode value :
  spool ≠ [] → path_components spool = path_components output ++ map Normal names ++ [Normal tmp] →
  ft_nodes fs1 !! (dir ++ [tmp]) = None →
  triple (λ fs, with_files [dir ++ [tmp]] fs ∧ holds_file (dir ++ [tmp]) inode value fs)
    (atomic_commit spool destination)
    (λ _ fs, with_files [dest] fs ∧ holds_file dest inode value fs ∧ ft_nodes fs1 !! dest = None ∧ tmp ≠ n)
    (λ fs, with_files [dir ++ [tmp]] fs ∨ with_files [dest] fs).
Proof.
  intros Hne Hpc Hnone. destruct destination_spec as (Hdne & Hdc & _).
  set (S1 := λ fs, with_files [dir ++ [tmp]] fs ∧ holds_file (dir ++ [tmp]) inode value fs).
  assert (HX1 : ∀ fs, S1 fs → with_files [dir ++ [tmp]] fs ∨ with_files [dest] fs) by (intros fs [? _]; by left).
  eapply (triple_bind _ _ (λ _, S1)).
  { unfold create_parent. destruct (Path_parent destination) as [parent|].
    - eapply triple_conseq; [apply triple_dirs|done|done|]. intros fs Hw. by left.
    - by apply triple_ret. }
  intros u1. eapply triple_bind; [by apply triple_sync_all|]. intros u2.
  set (S2 := λ fs, with_files [dest] fs ∧ holds_file dest inode value fs ∧ ft_nodes fs1 !! dest = None ∧ tmp ≠ n).
  eapply (triple_bind _ _ (λ _, S2)).
  - eapply (triple_catch _ _ _ _ S1).
    2: { intros e. destruct (bool_decide _); by apply triple_fail. }
    eapply triple_conseq; [by apply (triple_persist S1 S1)|done| |done].
    intros u3 fs' (fs & path & node & path' & [Hw (Hn & Hi & Hnew)] & Hs & Hd & ->).
    apply (dir_place _ _ _ tmp _ Hw Hne Hpc) in Hs. unfold entry_place in Hs.
    rewrite node_at_snoc, Hn in Hs. injection Hs as -> ->.
    apply (dir_place _ _ _ n _ Hw Hdne Hdc) in Hd. unfold entry_place in Hd.
    destruct (node_at fs (dir ++ [n])) eqn:Hdn; [done|]. injection Hd as ->. fold dest. rewrite node_at_snoc in Hdn.
    assert (Htn : tmp ≠ n) by (intros ->; congruence).
    assert (Hd1 : ft_nodes fs1 !! dest = None).
    { apply eq_None_not_Some. intros [nd Hl]. pose proof (lookup_weaken _ _ _ _ Hl (added_nodes _ _ _ Hw)).
      unfold dest in *. congruence. }
    set (base := {| ft_nodes := delete (dir ++ [tmp]) (ft_nodes fs); ft_inodes := ft_inodes fs; ft_cwd := ft_cwd fs |}).
    assert (Ha : added (λ key nd, key ≠ dir ++ [tmp] ∧ (nd = DirNode ∨ key ∈ [dir ++ [tmp]])) fs1 base).
    { by apply (added_delete _ _ _ _ (FileNode inode)). }
    split; [change (with_files [dest] (set_node base dest (FileNode inode)))|split; [|done]].
    + eapply (added_trans _ _ base); [eapply added_weaken; [|exact Ha]|].
      * intros key nd [Hk [?|Hin]]; [by left|]. by apply list_elem_of_singleton in Hin.
      * apply (added_set_node _ base dir n (FileNode inode)); [|rewrite node_at_snoc; cbn|right; by left].
        -- apply (node_at_kept fs1); [apply Ha|]. exact (walk_place _ _ _ _ _ _ Hwf (wf_cwd _ Hwf) Hreached).
        -- rewrite lookup_delete_None. by right.
    + split; [apply lookup_insert_eq|by split].
  - intros u3. eapply triple_bind; [apply triple_sync_all; intros fs [? _]; by right|]. intros u4.
    apply triple_sync_parent. intros fs [? _]. by right.
Qed.

(** Setting the mode of the file at the destination. *)
Lemma triple_mode inode value mode :
  triple (λ fs, with_files [dest] fs ∧ holds_file dest inode value fs) (apply_file_mode destination mode)
    (λ _ fs, with_files [dest] fs ∧
       holds_file dest inode {| in_content := in_content value; in_mode := Some mode |} fs) (with_files [dest]).
Proof.
  destruct destination_spec as (Hdne & Hdc & _).
  eapply triple_conseq; [apply (triple_set_permissions
    (λ fs, with_files [dest] fs ∧ holds_file dest inode value fs) (with_files [dest])); by intros fs [? _]|done| |done].
  intros u fs' (fs & at_ & node & [Hw Hh] & Hr & ->). pose proof Hh as (Hn & Hi & Hnew).
  unfold resolve_place in Hr. rewrite bool_decide_eq_false_2, Hdc in Hr by done.
  rewrite (app_assoc _ (map Normal names)) in Hr.
  rewrite (walk_snoc_node _ _ true _ _ dir n (FileNode inode)) in Hr.
  - injection Hr as <- <-. rewrite Hi. cbn [fmap option_fmap option_map default]. by apply (holds_set _ _ value).
  - destruct Hw as [Hk _ _ Hc _]. rewrite Hc. by eapply walk_kept.
  - by rewrite node_at_snoc.
  - done.
Qed.

(** The drop of the spool. *)
Lemma dropped_inside spool tmp fs fs' :
  spool ≠ [] → path_components spool = path_components output ++ map Normal names ++ [Normal tmp] →
  ft_nodes fs1 !! (dir ++ [tmp]) = None → inside fs →
  (fs' = fs ∨ ∃ at_ node, resolve_place fs false spool = Ok (At at_ node) ∧ node ≠ DirNode ∧
      fs' = {| ft_nodes := delete at_ (ft_nodes fs); ft_inodes := ft_inodes fs; ft_cwd := ft_cwd fs |}) →
  inside fs'.
Proof.
  intros Hne Hpc Hnone Hin [->|(at_ & node & Hr & Hnode & ->)]; [done|]. pose proof Hin as [Hk _ _ Hc _].
  apply (resolve_in fs1 fs (path_components output ++ map Normal names) dir _ tmp) in Hr;
    [|done|done|done|done|by rewrite <-app_assoc].
  unfold entry_place in Hr. destruct (node_at fs (dir ++ [tmp])) as [nd|] eqn:Hn; [|done]. injection Hr as -> ->.
  rewrite node_at_snoc in Hn. eapply added_weaken; [|by apply (added_delete _ _ _ _ nd Hin)]. by intros key nd' [_ ?].
Qed.

(** Once it is committed there is nothing to drop. *)
Lemma dropped_committed spool tmp fs fs' :
  spool ≠ [] → path_components spool = path_components output ++ map Normal names ++ [Normal tmp] →
  ft_nodes fs1 !! (dir ++ [tmp]) = None → tmp ≠ n → with_files [dest] fs →
  (fs' = fs ∨ ∃ at_ node, resolve_place fs false spool = Ok (At at_ node) ∧ node ≠ DirNode ∧
      fs' = {| ft_nodes := delete at_ (ft_nodes fs); ft_inodes := ft_inodes fs; ft_cwd := ft_cwd fs |}) →
  fs' = fs.
Proof.
  intros Hne Hpc Hnone Htn Hw [->|(at_ & node & Hr & Hnode & ->)]; [done|exfalso].
  apply (dir_place _ _ _ tmp _ Hw Hne Hpc) in Hr.
  unfold entry_place in Hr. destruct (node_at fs (dir ++ [tmp])) as [nd|] eqn:Hn; [|done]. injection Hr as -> ->.
  rewrite node_at_snoc in Hn. apply (added_new _ _ _ Hw) in Hn as [Hn|[?|Hk]]; [congruence|done|].
  apply list_elem_of_singleton in Hk. apply (inj (app dir)) in Hk. by injection Hk.
Qed.
End spool.

(** ** The outcome *)

(** Nothing is lost, and what is new but directories is below the output
    directory. *)
Definition contained (output : list byte) (fs fs' : Files) : Prop :=
  kept fs fs' ∧ ∀ key node, ft_nodes fs' !! key = Some node →
    ft_nodes fs !! key = Some node ∨ node = DirNode ∨
    ∃ root, resolve_place fs' true output = Ok (At root DirNode) ∧ under root key.

(** The node of an extracted entry. *)
Definition entry_extracted `{Crc32c} `{Blake3} `{Backends} `{CatalogJson} (file : list byte) (limits : DecodeLimits)
    (path : list byte) (e : EntryRecord) (key : list Name) (fs : Files) : Prop :=
  match er_kind e with
  | Directory => ft_nodes fs !! key = Some DirNode
  | Symlink target _ => LinkTarget_resolves_within target (er_path e) = true ∧
      ∃ target_path, LinkTarget_to_path_buf target = Ok target_path ∧ ft_nodes fs !! key = Some (LinkNode target_path)
  | File _ | Hardlink _ => ∃ inode content, selected_content file limits path e content ∧
      ft_nodes fs !! key = Some (FileNode inode) ∧
      ft_inodes fs !! inode = Some {| in_content := content; in_mode := Some (er_mode e) |}
  end.

(** The selected entry is at its names below the output directory, where
    there was nothing. *)
Record extracted `{Crc32c} `{Blake3} `{Backends} `{CatalogJson} (archive path output : list byte)
    (limits : DecodeLimits) (fs fs' : Files) (file : list byte) (e : EntryRecord) (root : list Name) : Prop := {
  extracted_archive : archive_holds fs archive file;
  extracted_entry : ∃ p, run_calm (read_catalog file limits) = Ok p ∧ find_entry p (er_path e) = Ok e;
  extracted_path : ArchivePath_from_relative path = Ok (er_path e);
  extracted_root : resolve_place fs' true output = Ok (At root DirNode);
  extracted_new : ft_nodes fs !! (root ++ entry_names e) = None;
  extracted_node : entry_extracted file limits path e (root ++ entry_names e) fs';
  extracted_only key node : ft_nodes fs' !! key = Some node →
    ft_nodes fs !! key = Some node ∨ node = DirNode ∨ key = root ++ entry_names e;
}.

Lemma reached_root output root fs fs' :
  output ≠ [] → reached output root [] fs → nodes_kept fs fs' → ft_cwd fs' = ft_cwd fs →
  resolve_place fs' true output = Ok (At root DirNode).
Proof.
  intros Ho Hr Hk Hc. pose proof (reached_kept _ _ _ _ _ Hk Hc Hr) as Hr'. unfold reached in Hr'. cbn [map] in Hr'.
  rewrite !app_nil_r in Hr'. unfold resolve_place. by rewrite bool_decide_eq_false_2.
Qed.

Lemma inside_contained fs fs1 fs' output root names :
  output ≠ [] → at_parent fs output root names fs1 → inside root fs1 fs' → contained output fs fs'.
Proof.
  intros Ho (Ha & Hr0 & Hr) Hin. pose proof Hin as [Hk Hn Hi Hc _]. destruct (added_kept _ _ _ Ha) as (Hk1 & Hi1 & Hc1).
  split; [split; [by etrans|split; [by etrans|congruence]]|].
  intros key node [Hl|[->|Hu]]%Hn; [|by right; left|].
  - apply (added_new _ _ _ Ha) in Hl as [?| ->]; auto.
  - right. right. exists root. split; [|done]. exact (reached_root _ _ _ _ Ho Hr0 Hk Hc).
Qed.

Lemma only_dirs_contained output fs fs' : only_dirs fs fs' → contained output fs fs'.
Proof. intros Ha. split; [by eapply added_kept|]. intros key node [?| ->]%(added_new _ _ _ Ha); auto. Qed.

Section extract.
Context {E : Type} `{Env E} `{Disturb E} `{!DisturbLaws E} `{Crc32c} `{Blake3} `{Backends} `{CatalogJson}.

Lemma entry_absent path (s s' : FS E) at_ node :
  ends_open path = false → path_entry_exists path s = (Ok false, s') → resolve_place s.1 false path ≠ Ok (At at_ node).
Proof.
  intros Ho Hr Hp. revert Hr. unfold path_entry_exists, catch, symlink_metadata, stat, locate, io, files, lift_io, lift.
  unfold mbind, M_bind, mret, M_ret, fail. rewrite Ho. destruct (io_fails s.2) as [[] e]; cbn; [by case_bool_decide|].
  rewrite Hp. by destruct node.
Qed.

Lemma triple_entry_absent (P X : Files → Prop) path :
  ends_open path = false → (∀ fs, P fs → X fs) →
  triple P (path_entry_exists path)
    (λ b fs, P fs ∧ (b = false → ∀ at_ node, resolve_place fs false path ≠ Ok (At at_ node))) X.
Proof.
  intros Ho HX s r s' HP Hr.
  pose proof (triple_path_entry_exists (λ fs, fs = s.1) (λ fs, fs = s.1) path ltac:(done) s r s' eq_refl Hr) as Hs.
  destruct r as [b|e]; rewrite Hs; [|by apply HX]. split; [done|]. intros -> at_ node. by eapply entry_absent.
Qed.

Context (output : list byte) (root names : list Name) (n : Name) (fs fs1 : Files) (e : EntryRecord).
Hypothesis Hwf : wf_files fs.
Hypothesis Houtput : output ≠ [].
Hypothesis Hparent : at_parent fs output root names fs1.
Hypothesis Hplain : Forall plain_name (names ++ [n]).
Hypothesis Hnames : entry_names e = names ++ [n].

Let dest := destination output names n.

Lemma parent_wf : wf_files fs1.
Proof. destruct Hparent as [Ha _]. by apply (added_wf _ _ _ Ha). Qed.
Lemma parent_reached : reached output root names fs1.
Proof. by destruct Hparent as (_ & _ & ?). Qed.

Lemma key_eq : (root ++ names) ++ [n] = root ++ entry_names e.
Proof. by rewrite Hnames, <-app_assoc. Qed.

Lemma same_contained : contained output fs fs1.
Proof. destruct Hparent as [Ha _]. by apply only_dirs_contained. Qed.

(** An absent entry is missing from its directory. *)
Lemma absent_missing :
  (∀ at_ node, resolve_place fs1 false dest ≠ Ok (At at_ node)) → ft_nodes fs1 !! (root ++ entry_names e) = None.
Proof.
  intros Hno. destruct (destination_spec output root names n fs1 Houtput parent_reached Hplain) as (Hne & Hpc & _).
  destruct (ft_nodes fs1 !! (root ++ entry_names e)) as [node|] eqn:Hl; [|done].
  destruct (Hno ((root ++ names) ++ [n]) node). apply (dir_place output root names fs1 parent_reached [] fs1 _ n).
  - apply added_refl.
  - done.
  - done.
  - unfold entry_place. by rewrite node_at_snoc, key_eq, Hl.
Qed.

Lemma extracted_intro archive path limits file p fs' :
  archive_holds fs archive file → run_calm (read_catalog file limits) = Ok p → find_entry p (er_path e) = Ok e →
  ArchivePath_from_relative path = Ok (er_path e) →
  ft_nodes fs1 !! (root ++ entry_names e) = None → with_files fs1 [root ++ entry_names e] fs' →
  entry_extracted file limits path e (root ++ entry_names e) fs' →
  extracted archive path output limits fs fs' file e root ∧ contained output fs fs'.
Proof.
  intros Hfile Hp Hf Hpath Hnew Hw Hnode. destruct Hparent as (Ha & Hr0 & _).
  assert (Hin : inside root fs1 fs').
  { eapply with_files_inside; [|exact Hw]. intros key ->%list_elem_of_singleton. by eexists. }
  split; [|by eapply inside_contained]. pose proof Hw as [Hk Hn _ Hc _].
  split; [done|by exists p|done|exact (reached_root _ _ _ _ Houtput Hr0 Hk Hc)| |done|].
  - apply eq_None_not_Some. intros [node Hl].
    by rewrite (lookup_weaken _ _ _ _ Hl (added_nodes _ _ _ Ha)) in Hnew.
  - intros key node [Hl|[->|Hkey]]%Hn; [|by right; left|].
    + apply (added_new _ _ _ Ha) in Hl as [?| ->]; auto.
    + right. right. by apply list_elem_of_singleton in Hkey.
Qed.

Variables (archive path file : list byte) (limits : DecodeLimits) (p : ParsedArchive).
Hypothesis Hfile : archive_holds fs archive file.
Hypothesis Hcatalog : run_calm (read_catalog file limits) = Ok p.
Hypothesis Hfind : find_entry p (er_path e) = Ok e.
Hypothesis Hpath : ArchivePath_from_relative path = Ok (er_path e).

Definition outcome (fs' : Files) : Prop :=
  extracted archive path output limits fs fs' file e root ∧ contained output fs fs'.

Lemma triple_extract_directory :
  er_kind e = Directory → ft_nodes fs1 !! (root ++ entry_names e) = None →
  triple (λ fs', fs' = fs1) (create_dir_all dest) (λ _, outcome) (contained output fs).
Proof.
  intros Hk Hnew. pose proof parent_wf as Hwf1. pose proof parent_reached as Hreach.
  destruct (destination_spec output root names n fs1 Houtput Hreach Hplain) as (Hne & Hpc & _). fold dest in Hne, Hpc.
  eapply triple_conseq; [apply (triple_create_dir_all_any fs1 dest Hwf1)|intros fs' ->; apply added_refl| |].
  - intros u fs' [Ha Hd]. destruct (Hd Hne) as [at_ Hat].
    eapply extracted_intro; try done.
    { eapply added_weaken; [|exact Ha]. by left. }
    unfold entry_extracted. rewrite Hk.
    unfold resolve_place in Hat. rewrite bool_decide_eq_false_2, Hpc, app_assoc in Hat by done.
    pose proof (reached_kept _ _ _ _ _ (added_nodes _ _ _ Ha) (added_cwd _ _ _ Ha) Hreach) as Hr'.
    destruct (walk_app _ _ true _ _ _ [Normal n] Hr' ltac:(done)) as [links Hl]. rewrite Hl in Hat.
    rewrite walk_cons in Hat. cbv zeta in Hat. rewrite node_at_snoc, key_eq in Hat.
    destruct (ft_nodes fs' !! (root ++ entry_names e)) as [node|] eqn:Hn; [|done].
    by destruct (added_new _ _ _ Ha _ _ Hn) as [Hn1| ->]; [rewrite Hn1 in Hnew|].
  - intros fs' Ha. eapply inside_contained; [done|exact Hparent|]. eapply added_weaken; [|exact Ha]. by left.
Qed.

Lemma triple_extract_symlink target is_dir target_path :
  er_kind e = Symlink target is_dir → LinkTarget_resolves_within target (er_path e) = true →
  LinkTarget_to_path_buf target = Ok target_path → ft_nodes fs1 !! (root ++ entry_names e) = None →
  triple (λ fs', fs' = fs1) (symlink target_path dest) (λ _, outcome) (contained output fs).
Proof.
  intros Hk Hin Ht Hnew. pose proof parent_wf as Hwf1. pose proof parent_reached as Hreach.
  destruct (destination_spec output root names n fs1 Houtput Hreach Hplain) as (Hne & Hpc & _).
  eapply triple_conseq; [apply (triple_symlink (λ fs', fs' = fs1) (λ fs', fs' = fs1)); done|done| |].
  - intros u fs' (fs2 & at_ & -> & Hr & ->).
    apply (dir_place output root names fs1 Hreach [] fs1 _ n) in Hr; [|apply added_refl|done|done].
    unfold entry_place in Hr. rewrite node_at_snoc, key_eq, Hnew in Hr. injection Hr as ->.
    eapply extracted_intro; try done.
    + rewrite <-key_eq. apply added_set_node.
      * exact (walk_place _ _ _ _ _ _ Hwf1 (wf_cwd _ Hwf1) Hreach).
      * by rewrite node_at_snoc, key_eq.
      * right. by left.
    + unfold entry_extracted. rewrite Hk. split; [done|]. exists target_path. split; [done|]. apply lookup_insert_eq.
  - intros fs' ->. apply same_contained.
Qed.

(** A calm run as a run in the state without a state. *)
Lemma calm_run {A} (m : M unit A) v : run_calm m = Ok v → m tt = (Ok v, tt).
Proof. unfold run_calm. destruct (m tt) as [r []]. cbn. by intros ->. Qed.

Lemma triple_extract_file src record r message :
  is_file e || is_hardlink e = true →
  file_source_entry e (pa_entries p) = Ok src → source_group p src message = Ok record →
  restore_for_entry p (er_entry_id src) = Ok r →
  triple (λ fs', fs' = fs1)
    ('(spool, inode) ← create_atomic_spool (parent_or_dot dest);
     with_tempfile spool
       (decoded ← decode_group file (record) (pa_codec_registry p) limits;
        bytes ← lift (restored_slice decoded r 0 (rm_length r));
        file_write_all inode bytes;;
        if negb (bool_decide (blake3 bytes = er_blake3 src)) then fail HashMismatch else
        checkpoint;;
        atomic_commit spool dest;;
        apply_file_mode dest (er_mode e);;
        mret (extract_report e (er_size src))))
    (λ report fs', report = extract_report e (er_size e) ∧ outcome fs') (contained output fs).
Proof.
  intros Hk Hsrc Hgroup Hr. pose proof parent_wf as Hwf1. pose proof parent_reached as Hreach.
  assert (HX : ∀ fs', inside root fs1 fs' → contained output fs fs') by (intros fs'; by eapply inside_contained).
  assert (Hin : ∀ m fs', with_files fs1 [(root ++ names) ++ [m]] fs' → inside root fs1 fs').
  { intros m fs'. apply with_files_inside. intros key ->%list_elem_of_singleton. exists (names ++ [m]). by rewrite <-app_assoc. }
  eapply triple_bind.
  { eapply triple_conseq; [by apply (triple_spool output root names n fs1 Hwf1 Houtput Hreach Hplain (λ fs', fs' = fs1));
      intros fs' ->; apply added_refl|done|done|].
    intros fs' Hw. apply HX. eapply with_files_inside; [|exact Hw]. by intros key ?%not_elem_of_nil. }
  intros [spool inode]. apply triple_gen. intros fs2 (tmp & Hne & Hpc & Hnone & Hw2 & Hh2). cbn [fst snd] in *.
  set (S1 := λ value fs', with_files fs1 [(root ++ names) ++ [tmp]] fs' ∧ holds_file fs1 ((root ++ names) ++ [tmp]) inode value fs').
  assert (HS1 : ∀ value fs', S1 value fs' → inside root fs1 fs') by (intros value fs' [? _]; by eapply Hin).
  eapply triple_pre with (P := S1 {| in_content := []; in_mode := None |}); [|by intros ? ->]. clear fs2 Hw2 Hh2.
  eapply triple_conseq; [eapply (triple_with_tempfile _ _ (λ report fs', report = extract_report e (er_size e) ∧
    outcome fs' ∧ with_files fs1 [(root ++ names) ++ [n]] fs' ∧ tmp ≠ n) (inside root fs1) spool)|done| |].
  - eapply triple_bind.
    { apply triple_calm; [apply decode_group_follows|apply (decode_group_preserves fst)|apply HS1]. }
    intros decoded. eapply triple_bind; [apply triple_lift; intros fs' [? _]; by eapply HS1|]. intros bytes.
    apply triple_gen. intros fs2 (Hsl & Hs2 & Hdec).
    eapply triple_bind.
    { apply (triple_pre (S1 {| in_content := []; in_mode := None |})); [|by intros ? ->].
      apply triple_write_all. apply HS1. }
    intros u1. apply (triple_pre (S1 {| in_content := bytes; in_mode := None |})).
    2: { intros fs' (fs3 & value & [Hw Hh] & Hv & ->). pose proof Hh as (_ & Hi & _).
         rewrite Hi in Hv. injection Hv as <-. by apply (holds_set _ _ _ {| in_content := []; in_mode := None |}). }
    apply triple_if; [intros _; apply triple_fail, HS1|]. intros Hh%negb_false_iff%bool_decide_eq_true.
    destruct (selected_content_intro file limits tt tt tt tt p path (er_path e) e src record r decoded bytes message)
      as (Hsel & Hsz & _); try done; [by apply calm_run|by apply calm_run|].
    eapply triple_bind; [apply triple_checkpoint, HS1|]. intros u2.
    eapply triple_bind.
    { eapply triple_conseq; [apply (triple_commit output root names n fs1 Hwf1 Houtput Hreach Hplain spool tmp inode
        {| in_content := bytes; in_mode := None |} Hne Hpc Hnone)|done|done|]. intros fs' [Hw|Hw]; by eapply Hin. }
    intros u3. apply triple_gen. intros fs3 (Hw3 & Hh3 & Hnew & Htn).
    eapply triple_bind.
    { eapply triple_conseq; [apply (triple_mode output root names n fs1 Houtput Hreach Hplain inode
        {| in_content := bytes; in_mode := None |} (er_mode e))|by intros fs' ->|done|apply Hin]. }
    intros u4. apply triple_ret. intros fs' [Hw (Hn & Hi & _)]. cbn [in_content] in Hi. rewrite Hsz.
    split; [done|]. split; [|done]. rewrite key_eq in Hw, Hn, Hnew.
    eapply extracted_intro; try done. unfold entry_extracted. unfold is_file, is_hardlink in Hk.
    destruct (er_kind e); try done; by exists inode, bytes.
  - intros report fs' (fs2 & (-> & Ho & Hw & Htn) & Hd).
    by rewrite (dropped_committed output root names n fs1 Hreach spool tmp fs2 fs' Hne Hpc Hnone Htn Hw Hd).
  - intros fs' (fs2 & Hi & Hd). apply HX.
    exact (dropped_inside output root names fs1 Hwf1 Hreach spool tmp fs2 fs' Hne Hpc Hnone Hi Hd).
Qed.
End extract.

Lemma triple_extract {E : Type} `{Env E} `{Disturb E} `{!DisturbLaws E} `{Crc32c} `{Blake3} `{Backends} `{CatalogJson}
    archive path output limits max_output_bytes max_temp_bytes fs :
  wf_files fs → output ≠ [] →
  triple (λ fs', fs' = fs) (extract_with_control_and_limits archive path output limits max_output_bytes max_temp_bytes)
    (λ report fs', ∃ file e root, outcome output root fs e archive path file limits fs' ∧
       report = extract_report e (match er_kind e with Directory => 0 | _ => er_size e end))
    (contained output fs).
Proof.
  intros Hwf Ho.
  assert (HX : ∀ fs', fs' = fs → contained output fs fs') by (intros fs' ->; apply only_dirs_contained, added_refl).
  assert (HD : ∀ fs', only_dirs fs fs' → contained output fs fs') by (intros fs'; apply only_dirs_contained).
  eapply triple_bind; [by apply triple_checkpoint|]. intros u1.
  eapply triple_bind; [by apply triple_lift|]. intros selector. apply triple_gen. intros fs' [Hsel ->].
  eapply triple_bind; [by apply triple_open_file|]. intros file. apply triple_gen. intros fs' [-> Hfile].
  eapply triple_bind; [apply triple_calm; [apply read_catalog_follows|apply (read_catalog_preserves fst)|done]|].
  intros p. apply triple_gen. intros fs' [-> Hcat].
  eapply triple_bind; [by apply triple_lift|]. intros e. apply triple_gen. intros fs' [Hfind ->].
  assert (Hse : selector = er_path e) by (by destruct (find_entry_Ok _ _ _ Hfind) as (? & _ & ?)). subst selector.
  eapply triple_bind; [by apply triple_lift|]. intros relative. apply triple_gen. intros fs' [Hrel ->].
  destruct (staged_path_Ok output e (path_push output relative)) as (Hdest & Hplain & Hne).
  { unfold staged_path. by rewrite Hrel. }
  destruct (exists_last Hne) as (names & n & Hnames). rewrite Hdest, Hnames in *.
  fold (destination output names n). clear Hdest relative Hrel.
  (* the parent is prepared and the destination is new *)
  assert (Hnew : ∀ (body : M (FS E) ExtractReport) Q,
    (∀ root fs1, at_parent fs output root names fs1 → ft_nodes fs1 !! (root ++ entry_names e) = None →
      triple (λ fs', fs' = fs1) body Q (contained output fs)) →
    triple (λ fs', fs' = fs) (prepare_extract_parent output (er_path e);;
      exists_ ← path_entry_exists (destination output names n);
      if (exists_ : bool) then fail OutputExists else body) Q (contained output fs)).
  { intros body Q Hb. eapply triple_bind.
    { eapply triple_conseq; [by apply (triple_prepare fs output e names n)|done|done|done]. }
    intros u2. apply triple_gen. intros fs1 (root & Hp).
    assert (HX1 : ∀ fs', fs' = fs1 → contained output fs fs').
    { intros fs' ->. destruct Hp as [Ha _]. by apply HD. }
    eapply triple_bind; [apply triple_entry_absent; [by apply destination_open|done]|].
    intros exists_. apply triple_gen. intros fs' [-> Habs].
    destruct exists_; [by apply triple_fail|]. apply (Hb root); [exact Hp|].
    by apply (absent_missing output root names n fs fs1 e Ho Hp Hplain Hnames), Habs. }
  destruct (er_kind e) as [g| |id|target is_dir] eqn:Hk.
  1, 3: eapply triple_bind; [by apply triple_lift|]; intros src; apply triple_gen; intros fs' [Hsrc ->].
  1, 2: eapply triple_bind; [by apply triple_lift|]; intros record; apply triple_gen; intros fs' [Hgroup ->].
  1, 2: eapply triple_bind; [by apply triple_lift|]; intros r; apply triple_gen; intros fs' [Hr ->].
  1, 2: apply triple_if; [intros _; by apply triple_fail|]; intros _.
  1, 2: apply triple_if; [intros _; by apply triple_fail|]; intros _.
  1, 2: apply Hnew; intros root fs1 Hp _.
  1, 2: eapply triple_conseq; [eapply (triple_extract_file output root names n fs fs1 e Hwf Ho Hp Hplain Hnames archive path
    file limits p Hfile Hcat Hfind Hsel src record r); try done; unfold is_file, is_hardlink; by rewrite Hk|done| |done].
  1, 2: intros report fs' [-> Hout]; exists file, e, root; by rewrite Hk.
  - eapply triple_bind; [by apply triple_checkpoint|]. intros u2. apply Hnew. intros root fs1 Hp Hl.
    eapply triple_bind; [by apply (triple_extract_directory output root names n fs fs1 e Hwf Ho Hp Hplain Hnames archive path
      file limits p Hfile Hcat Hfind Hsel Hk Hl)|].
    intros u3. apply triple_ret. intros fs' Hout. exists file, e, root. by rewrite Hk.
  - eapply triple_bind; [by apply triple_checkpoint|]. intros u2. apply Hnew. intros root fs1 Hp Hl.
    assert (HX1 : ∀ fs', fs' = fs1 → contained output fs fs') by (intros fs' ->; destruct Hp as [Ha _]; by apply HD).
    apply triple_if; [intros _; by apply triple_fail|]. intros Hin%negb_false_iff.
    eapply triple_bind; [by apply triple_lift|]. intros target_path. apply triple_gen. intros fs' [Ht ->].
    eapply triple_bind; [by apply (triple_extract_symlink output root names n fs fs1 e Hwf Ho Hp Hplain Hnames archive path
      file limits p Hfile Hcat Hfind Hsel target is_dir target_path Hk Hin Ht Hl)|].
    intros u3. apply triple_ret. intros fs' Hout. exists file, e, root. by rewrite Hk.
Qed.

(** C8: extracting an entry to disk stays inside the output directory and
    replaces nothing.  Whatever the disk and the archive do, existing nodes and
    files are kept, and every new node that is not a directory lies physically
    below the directory the output path leads to, even if the archive or the
    disk has symlinks there.  On success exactly the entry that the path
    selects is at its names below that directory, where there was nothing: a
    directory, a symlink that resolves within, or a file with the data and the
    mode the catalog records; everything else that is new is a directory. *)
Theorem extract_contained {E : Type} `{Env E} `{Hdisk : Disturb E} `{Hdisklaws : !DisturbLaws E}
    `{Hcrc : Crc32c} `{Hblake : Blake3} `{Hback : Backends} `{Hjson : CatalogJson}
    archive path output limits max_output_bytes max_temp_bytes fs (e : E) r fs' e' :
  wf_files fs → output ≠ [] →
  extract_with_control_and_limits archive path output limits max_output_bytes max_temp_bytes (fs, e) = (r, (fs', e')) →
  contained output fs fs' ∧
  ∀ report, r = Ok report → ∃ file entry root,
    extracted archive path output limits fs fs' file entry root ∧
    report = extract_report entry (match er_kind entry with Directory => 0 | _ => er_size entry end).
Proof.
  intros Hwf Ho Hrun.
  pose proof (triple_extract archive path output limits max_output_bytes max_temp_bytes fs Hwf Ho (fs, e) _ _ eq_refl Hrun) as Ht.
  destruct r as [report|err]; [|done]. destruct Ht as (file & entry & root & [Hout Hc] & ->).
  split; [exact Hc|]. intros report [= <-]. by exists file, entry, root.
Qed.
