(* ===== verification/UnpackExamples.v ===== *)
(** * Unpacking concrete archives

    The sample archive on a small disk, an archive whose links leave the
    output directory, and an output path without a directory. *)

From S2P Require Import Prelude Core Effects Bytes Format Codecs Paths FileTree FileWalk FileGrowth FileMove.
From S2P Require Import Catalog Extract Unpack UnpackTree UnpackSafety ExtractSafety.

#[local] Existing Instances crc32c_castagnoli framing_backends Sample.hash.

(** A disk without failures on which every temporary name is [t]. *)
#[local] Instance quiet_disk : Disturb unit :=
  {| io_fails := λ u, (false, u); temporary_name := λ u, (bytes_of "t", u) |}.
#[local] Instance quiet_disk_laws : DisturbLaws unit.
Proof. intros u. apply (bool_decide_unpack _). by vm_compute. Qed.

Module Disk.
(** The directories [/h] and [/x], the working directory [/h] and the archive
    [/z]. *)
Definition start (archive : list byte) : Files := {|
  ft_nodes := {[ [bytes_of "h"] := DirNode; [bytes_of "x"] := DirNode; [bytes_of "z"] := FileNode 0 ]};
  ft_inodes := {[ 0 := {| in_content := archive; in_mode := None |} ]};
  ft_cwd := [bytes_of "h"];
|}.

Lemma start_wf archive : wf_files (start archive).
Proof.
  split; [done| |done]. intros d n node Hl. assert (d = []) as ->; [|done]. revert Hl. cbn.
  rewrite !lookup_insert_Some, lookup_singleton_Some.
  intros [[Hk _]|[_ [[Hk _]|[_ [Hk _]]]]]; destruct d as [|? [|]]; by simplify_eq/=.
Qed.

Lemma start_holds archive file : archive_holds (start archive) (bytes_of "/z") file → file = archive.
Proof.
  intros (at_ & inode & value & Hr & Hi & <-). vm_compute in Hr. injection Hr as <- <-.
  cbn in Hi. by injection Hi as <-.
Qed.

Definition unpack `{CatalogJson} (archive : list byte) (output : string) : Result unit * Files :=
  let '(r, (fs, _)) := unpack_with_control (bytes_of "/z") (bytes_of output) Sample.limits (start archive, tt) in
  (r, fs).

Definition extract `{CatalogJson} (archive : list byte) (entry output : string) : Result ExtractReport * Files :=
  let '(r, (fs, _)) := extract_with_control (bytes_of "/z") (bytes_of entry) (bytes_of output) Sample.limits (start archive, tt) in
  (r, fs).
End Disk.

#[local] Instance Ok_inj {E A} : Inj (=) (=) (@Ok E A).
Proof. by intros a b [=]. Qed.

Section sample.
#[local] Existing Instance Sample.json.

Definition sample_outcome : Result unit * Files := Disk.unpack Sample.archive "/h/o".

Lemma sample_leaves file p :
  archive_holds (Disk.start Sample.archive) (bytes_of "/z") file →
  run_calm (verify_open_file file Sample.limits) = Ok p → links_are_leaves (pa_entries p).
Proof.
  intros ->%Disk.start_holds Hv. apply links_are_leaves_intro.
  destruct (verify_open_file_catalog _ _ _ Hv) as (q & Hq & <- & _).
  assert (Hs : run_calm (read_catalog Sample.archive Sample.limits) = Ok Sample.catalog) by by vm_compute.
  rewrite Hs in Hq. apply (inj Ok) in Hq as <-. by vm_compute.
Qed.

Lemma unpack_all_or_nothing_witness :
  sample_outcome.1 = Ok tt ∧
  ∃ file p root, unpacked (bytes_of "/z") (bytes_of "/h/o") file Sample.limits
    (max_original_bytes Sample.limits) (Disk.start Sample.archive) sample_outcome.2 p root.
Proof.
  assert (Hr : sample_outcome.1 = Ok tt) by by vm_compute. split; [exact Hr|].
  destruct (unpack_all_or_nothing (Hcrclaws := crc32c_castagnoli_laws) (bytes_of "/z") (bytes_of "/h/o") Sample.limits
    (max_original_bytes Sample.limits) (Disk.start Sample.archive) tt (bytes_of "o") (Ok tt) sample_outcome.2 tt)
    as [_ [H|[H _]]]; [apply Disk.start_wf|reflexivity|intros name; by vm_compute|exact sample_leaves|by vm_compute|exact H|].
  by destruct H.
Defined.

(** The hardlink [d/g] extracted to the new directory [o]. *)
Definition sample_extract : Result ExtractReport * Files := Disk.extract Sample.archive "d/g" "o".

Lemma extract_contained_witness :
  contained (bytes_of "o") (Disk.start Sample.archive) sample_extract.2 ∧
  ∃ file entry root, extracted (bytes_of "/z") (bytes_of "d/g") (bytes_of "o") Sample.limits
    (Disk.start Sample.archive) sample_extract.2 file entry root.
Proof.
  assert (Hr : is_ok sample_extract.1 = true) by by vm_compute.
  destruct sample_extract.1 as [report|] eqn:Ho; [|discriminate Hr].
  destruct (extract_contained (bytes_of "/z") (bytes_of "d/g") (bytes_of "o") Sample.limits
    (max_group_output Sample.limits) (max_group_output Sample.limits) (Disk.start Sample.archive) tt (Ok report) sample_extract.2 tt)
    as [Hc He]; [apply Disk.start_wf|done|rewrite <-Ho; by vm_compute|].
  split; [exact Hc|]. destruct (He report eq_refl) as (file & entry & root & Hx & _). by exists file, entry, root.
Defined.
End sample.

(** ** Links that leave the output directory *)

Module Escape.
Definition link (id : N) (names : list string) (target : list LinkComponent) : EntryRecord :=
  Sample.entry id (map bytes_of names) 0 [] (Symlink {| lt_components := target |} false).
Definition name (s : string) : LinkComponent := LinkNormal (utf8_component s).

(** [a/b] leads to the root, so that [a/b/c] is a link at the root that leads
    two levels above it, and [c/d] is created there. *)
Definition entries : list EntryRecord := [
  link 0 ["a"; "b"]%string [LinkParent];
  link 1 ["a"; "b"; "c"]%string [LinkParent; LinkParent; name "x"];
  link 2 ["c"; "d"]%string [name "y"]].

#[export] Instance json : CatalogJson := {|
  json_entries := Sample.table 69 entries;
  json_groups := Sample.table 71 [];
  json_restore_map := Sample.table 82 [];
  json_central_index := Sample.table 73 (map index_of entries);
  json_integrity := Sample.table 84 (map integrity_of entries) |}.

Definition directory : list byte := concat (map SectionDirectoryRecord_encode [
  Sample.section EntryTable 288 (Sample.text [69]); Sample.section GroupTable 289 (Sample.text [71]);
  Sample.section PayloadArea 288 []; Sample.section RestoreMap 290 (Sample.text [82]);
  Sample.section CentralIndex 291 (Sample.text [73]); Sample.section IntegrityTree 292 (Sample.text [84])]).
Definition header : GlobalHeader := {|
  gh_major := MAJOR_VERSION; gh_minor := MINOR_VERSION; gh_flags := 0; gh_archive_id := zeros 16;
  gh_original_total_size := 0; gh_entry_count := 3; gh_logical_chunk_count := 0; gh_group_count := 0;
  gh_section_directory_offset := 96; gh_footer_offset := 293; gh_section_count := 6 |}.
Definition contents : list byte := GlobalHeader_encode header ++ directory ++ Sample.text [69; 71; 82; 73; 84].
Definition archive : list byte := contents ++ Footer_encode {|
  ft_archive_length := 357; ft_blake3_root := Sample.hash contents;
  ft_directory_crc32c := crc32c directory; ft_version := 1 |}.
End Escape.

#[local] Existing Instance Escape.json.

(** C9: an archive that passes verification, all of whose link targets
    [resolves_within] accepts, can create nodes outside the output directory:
    the check follows a target's names without the links that the archive
    itself restores above it.  Here unpacking [/h/o] returns [Ok], leaves the
    link [/h/o/c] to a directory outside and creates the link [/x/d]. *)
Theorem unpack_escapes_through_links :
  is_ok (run_calm (verify_open_file Escape.archive Sample.limits)) = true ∧
  Forall (λ e, ∃ target is_dir, er_kind e = Symlink target is_dir ∧ LinkTarget_resolves_within target (er_path e) = true)
    Escape.entries ∧
  ∃ files, Disk.unpack Escape.archive "/h/o" = (Ok tt, files) ∧
    ft_nodes files !! map bytes_of ["h"; "o"; "c"]%string = Some (LinkNode (bytes_of "../../x")) ∧
    ft_nodes files !! map bytes_of ["x"; "d"]%string = Some (LinkNode (bytes_of "y")) ∧
    ft_nodes (Disk.start Escape.archive) !! map bytes_of ["x"; "d"]%string = None ∧
    ¬ under (map bytes_of ["h"; "o"]%string) (map bytes_of ["x"; "d"]%string).
Proof.
  split; [by vm_compute|]. split.
  { repeat constructor; do 2 eexists; (split; [reflexivity|by vm_compute]). }
  eexists. split; [vm_compute; reflexivity|]. split; [by vm_compute|]. split; [by vm_compute|].
  split; [by vm_compute|]. intros [q Hq]. discriminate (f_equal head Hq).
Qed.

(** ** An output path without a directory *)

(** An output path of one name, such as [out], makes every run fail: its
    parent is the empty path, which [sync_parent] cannot open, although the
    output has been renamed into place by then. *)
Theorem unpack_bare_name_fails {E : Type} `{Env E} `{Hdisk : Disturb E} `{Hcrc : Crc32c} `{Hblake : Blake3}
    `{Hback : Backends} `{Hjson : CatalogJson} archive output limits max_temp_bytes (s : FS E) :
  Path_parent output = Some [] →
  (unpack_with_control_and_temp_limit archive output limits max_temp_bytes s).1 ≠ Ok tt.
Proof.
  intros Hp. assert (Ht : triple (λ _, True) (unpack_with_control_and_temp_limit archive output limits max_temp_bytes)
    (λ _ _, False) (λ _, True)).
  { assert (Hany : ∀ A (m : M (FS E) A), triple (λ _, True) m (λ _ _, True) (λ _, True)) by (intros A m u r u' _ _; by destruct r).
    assert (Hthen : ∀ A B (m : M (FS E) A) (f : A → M (FS E) B),
      (∀ v, triple (λ _, True) (f v) (λ _ _, False) (λ _, True)) → triple (λ _, True) (m ≫= f) (λ _ _, False) (λ _, True)).
    { intros A B m f Hf. by eapply triple_bind; [apply Hany|]. }
    apply Hthen. intros u1. apply Hthen. intros [|]; [by apply triple_fail|]. apply Hthen. intros file.
    apply Hthen. intros p. apply triple_if; [intros _; by apply triple_fail|]. intros _.
    apply Hthen. intros u2. apply Hthen. intros staging.
    eapply triple_conseq; [apply triple_with_tempdir; do 3 (apply Hthen; intros ?)|done|by intros v fs (? & [] & _)|done].
    unfold sync_parent. rewrite Hp. eapply triple_bind; [by apply (triple_open_dir _ (λ _, True))|]. intros u3.
    intros u r u' [_ (at_ & node & Hr)]. done. }
  specialize (Ht s). destruct (unpack_with_control_and_temp_limit _ _ _ _ s) as [r s'].
  cbn. intros ->. exact (Ht _ _ I eq_refl).
Qed.

Lemma unpack_bare_name_fails_witness :
  Path_parent (bytes_of "out") = Some [] ∧
  (Disk.unpack Escape.archive "out").1 ≠ Ok tt.
Proof.
  split; [reflexivity|].
  pose proof (unpack_bare_name_fails (bytes_of "/z") (bytes_of "out") Sample.limits
    (max_original_bytes Sample.limits) (Disk.start Escape.archive, tt) eq_refl) as Hr.
  intros Ho. apply Hr. revert Ho. unfold Disk.unpack, unpack_with_control.
  by destruct (unpack_with_control_and_temp_limit _ _ _ _ _) as [r [fs u]].
Defined.

(** The output is there nevertheless. *)
Example bare_name_published :
  (Disk.unpack Escape.archive "out").1 = Err (Io NotFound) ∧
  ft_nodes (Disk.unpack Escape.archive "out").2 !! map bytes_of ["h"; "out"; "c"]%string = Some (LinkNode (bytes_of "../../x")).
Proof. vm_compute. split; reflexivity. Qed.
