(* ===== verification/Inputs.v ===== *)
(** * Reading input files and writing the spool
    ([crates/pithos-engine/src/lib.rs])

    The file system that packing reads from is an interface: its answers may
    change at any time.  [copy_input_file], [read_source_bytes] and their
    callers, which detect such changes; and the temporary file the archive is
    assembled in. *)

From S2P Require Import Prelude Core Effects Bytes Paths Catalog.

(** ** The file system *)

(** [fs::Metadata]: the length, the modification time in nanoseconds since
    the epoch if the platform has it, and the mode. *)
Record Metadata := { md_len : N; md_modified : option Z; md_mode : N }.

(** [same_file::Handle]: device and inode, which its equality compares. *)
Abbreviation Identity := (N * N)%type.

Class FileSystem (S : Type) := {
  fs_metadata : list byte → S → Result Metadata * S;
  (** [same_file::Handle::from_path(path).ok()]. *)
  fs_identity : list byte → S → option Identity * S;
  (** [File::open], and [read] of a file with a buffer of the given size. *)
  fs_open : list byte → S → Result N * S;
  fs_read : N → N → S → Result (list byte) * S;
  (** The outcome of an operation on the spool. *)
  fs_spool : S → Result unit * S;
}.

(** An effect that cannot fail. *)
Definition observe {S A} (f : S → A * S) : M S A := λ s, let '(a, s) := f s in (Ok a, s).

Definition same_file_metadata (expected actual : Metadata) : bool :=
  (md_len expected =? md_len actual) && bool_decide (md_modified expected = md_modified actual).

Definition modified_ns (metadata : Metadata) : Z :=
  match md_modified metadata with
  | None => 0
  | Some t => if (0 <=? t)%Z then Z.min t i64_MAX else - Z.min (- t) i64_MAX
  end.

Definition metadata_mode (metadata : Metadata) : N := md_mode metadata.

(** ** The spool *)

(** The content of a temporary file and the position in it. *)
Record Spool := { sl_bytes : list byte; sl_position : N }.

Definition spool_new : Spool := {| sl_bytes := []; sl_position := 0 |}.

(** [write_all] at the position: bytes between the end of the file and the
    position become zeros, and nothing happens without bytes. *)
Definition spool_put (bytes : list byte) (spool : Spool) : Spool :=
  let position := N.to_nat (sl_position spool) in
  {| sl_bytes :=
       if bool_decide (bytes = []) then sl_bytes spool
       else take position (sl_bytes spool ++ zeros (position - length (sl_bytes spool))) ++ bytes ++
            drop (position + length bytes) (sl_bytes spool);
     sl_position := sl_position spool + len bytes |}.

Section spool.
Context {S : Type} `{FileSystem S}.

(** [seek(SeekFrom::Start(offset))] and [write_all(bytes)]. *)
Definition spool_seek (offset : N) (spool : Spool) : M S Spool :=
  fs_spool;; mret {| sl_bytes := sl_bytes spool; sl_position := offset |}.
Definition spool_write (bytes : list byte) (spool : Spool) : M S Spool :=
  fs_spool;; mret (spool_put bytes spool).
End spool.

(** ** Copying one input file into the spool *)

Record CopyState := {
  cs_done : bool;
  cs_spool : Spool;
  cs_payload_crc : N;
  cs_written : N;
  cs_crc : N;
  cs_hashed : list byte;
}.

(** A source file of the compressed profiles. *)
Record CompressedSource := {
  src_entry_id : N;
  src_path : list byte;
  src_size : N;
  src_hash : list byte;
  src_modified : option Z;
  src_identity : option Identity;
}.

Section inputs.
Context {S : Type} `{Env S} `{FileSystem S} `{Crc32c} `{Blake3}.

(** One iteration of the [loop] of [copy_input_file]. *)
Definition copy_step (source expected_length : N) (st : CopyState) : M S CopyState :=
  checkpoint;;
  buffer ← fs_read source IO_BUFFER_SIZE;
  let read := len buffer in
  if read =? 0 then mret {| cs_done := true; cs_spool := cs_spool st;
    cs_payload_crc := cs_payload_crc st; cs_written := cs_written st; cs_crc := cs_crc st;
    cs_hashed := cs_hashed st |} else
  written ← lift (ok_or IntegerOverflow (checked_add (cs_written st) read));
  if expected_length <? written then fail InputChanged else
  spool ← spool_write buffer (cs_spool st);
  mret {| cs_done := false; cs_spool := spool;
          cs_payload_crc := crc32c_append (cs_payload_crc st) buffer; cs_written := written;
          cs_crc := crc32c_append (cs_crc st) buffer; cs_hashed := cs_hashed st ++ buffer |}.

(** Every iteration but the last writes at least one byte, and at most
    [expected_length] are written. *)
Definition copy_input_file (path : list byte) (initial_metadata : Metadata)
    (initial_identity : option Identity) (destination : Spool) (payload_crc : N) :
    M S (N * list byte * N * Spool * N) :=
  let expected_length := md_len initial_metadata in
  current_metadata ← fs_metadata path;
  identity ← (if same_file_metadata initial_metadata current_metadata
              then observe (fs_identity path) else fail InputChanged);
  if negb (bool_decide (identity = initial_identity)) then fail InputChanged else
  source ← fs_open path;
  st ← while_m (Datatypes.S (Datatypes.S (N.to_nat expected_length))) (λ st, negb (cs_done st))
    (copy_step source expected_length)
    {| cs_done := false; cs_spool := destination; cs_payload_crc := payload_crc; cs_written := 0;
       cs_crc := 0; cs_hashed := [] |};
  final_metadata ← fs_metadata path;
  if negb (cs_written st =? expected_length) then fail InputChanged else
  if negb (same_file_metadata initial_metadata final_metadata) then fail InputChanged else
  identity ← observe (fs_identity path);
  if negb (bool_decide (identity = initial_identity)) then fail InputChanged else
  mret (cs_written st, blake3 (cs_hashed st), cs_crc st, cs_spool st, cs_payload_crc st).

(** ** Reading a source into memory *)

(** One iteration of the [loop] of [read_source_bytes]; [written] is what
    has been appended to the output. *)
Definition read_step (file : N) (source : CompressedSource) (st : bool * list byte) :
    M S (bool * list byte) :=
  checkpoint;;
  checkpoint;;
  buffer ← fs_read file IO_BUFFER_SIZE;
  if len buffer =? 0 then mret (true, st.2) else
  let written := st.2 ++ buffer in
  if src_size source <? len written then fail InputChanged else mret (false, written).

(** The bytes appended to [output]. *)
Definition read_source_bytes (source : CompressedSource) (verify_hash : bool) : M S (list byte) :=
  initial ← fs_metadata (src_path source);
  if negb (md_len initial =? src_size source) then fail InputChanged else
  if negb (bool_decide (md_modified initial = src_modified source)) then fail InputChanged else
  identity ← observe (fs_identity (src_path source));
  if negb (bool_decide (identity = src_identity source)) then fail InputChanged else
  file ← fs_open (src_path source);
  '(_, written) ← while_m (Datatypes.S (Datatypes.S (N.to_nat (src_size source)))) (λ '(finished, _), negb finished)
    (read_step file source) (false, []);
  final_metadata ← fs_metadata (src_path source);
  if negb (len written =? src_size source) then fail InputChanged else
  if negb (md_len final_metadata =? src_size source) then fail InputChanged else
  if negb (bool_decide (md_modified final_metadata = src_modified source)) then fail InputChanged else
  identity ← observe (fs_identity (src_path source));
  if negb (bool_decide (identity = src_identity source)) then fail InputChanged else
  if verify_hash && negb (bool_decide (blake3 written = src_hash source)) then fail InputChanged else
  mret written.

Definition read_verified_source (source : CompressedSource) : M S (list byte) :=
  bytes ← read_source_bytes source true;
  if negb (bool_decide (blake3 bytes = src_hash source)) then fail InputChanged else mret bytes.

Definition hash_input_file (path : list byte) (initial_metadata : Metadata)
    (initial_identity : option Identity) : M S (N * list byte) :=
  current_metadata ← fs_metadata path;
  identity ← (if same_file_metadata initial_metadata current_metadata
              then observe (fs_identity path) else fail InputChanged);
  if negb (bool_decide (identity = initial_identity)) then fail InputChanged else
  bytes ← read_source_bytes {|
    src_entry_id := 0; src_path := path; src_size := md_len initial_metadata;
    src_hash := zeros 32; src_modified := md_modified initial_metadata;
    src_identity := initial_identity |} false;
  mret (len bytes, blake3 bytes).
End inputs.
