(* ===== verification/Memory.v ===== *)
(** * A file system in memory

    Files with fixed contents and identities, whose open files are the list of
    what is left to read from them: the environment of the concrete runs. *)

From S2P Require Import Prelude Core Effects Bytes Paths Catalog Inputs.

Section memory.
Variable content : list byte → list byte.
Variable identity : list byte → option Identity.

(** What is left to read from each open file. *)
Record Open := { open_files : list (list byte) }.

#[export] Instance memory_env : Env Open := {|
  env_checkpoint := λ s, (Ok tt, s);
  env_reserve := λ _ s, (true, s) |}.

Definition memory_metadata (path : list byte) : Metadata :=
  {| md_len := len (content path); md_modified := Some 7%Z; md_mode := 420 |}.

#[export] Instance memory_files : FileSystem Open := {|
  fs_metadata := λ path s, (Ok (memory_metadata path), s);
  fs_identity := λ path s, (identity path, s);
  fs_open := λ path s,
    (Ok (len (open_files s)), {| open_files := open_files s ++ [content path] |});
  fs_read := λ h n s,
    match open_files s !! N.to_nat h with
    | Some rest => (Ok (take (N.to_nat n) rest),
        {| open_files := <[N.to_nat h := drop (N.to_nat n) rest]> (open_files s) |})
    | None => (Err (Io OtherKind), s)
    end;
  fs_spool := λ s, (Ok tt, s) |}.
End memory.
