(* ===== verification/Stable.v ===== *)
(** * The spool, and files that do not change while they are read

    What the spool holds after seeking and writing; the interface of an environment in which every file has fixed contents,
    and what the copying and reading loops of packing deliver in it. *)

From S2P Require Import Prelude Core Effects Bytes Paths Catalog Inputs Memory.

(** ** The spool *)

(** The spool holds [body] from [start] on, with zeros before it, and is
    positioned at its end. *)
Definition holds (start : N) (body : list byte) (spool : Spool) : Prop :=
  sl_position spool = start + len body ∧
  sl_bytes spool = if bool_decide (body = []) then [] else zeros (N.to_nat start) ++ body.

Lemma holds_seek start : holds start [] {| sl_bytes := sl_bytes spool_new; sl_position := start |}.
Proof. split; [cbn; rewrite len_nil; lia|done]. Qed.

Lemma zeros_app n m : zeros n ++ zeros m = zeros (n + m).
Proof. unfold zeros. by rewrite replicate_add. Qed.
Lemma length_zeros n : length (zeros n) = n.
Proof. unfold zeros. apply length_replicate. Qed.

Lemma take_drop_pad n (l : list byte) : (length l <= n)%nat → take n (l ++ zeros (n - length l)) = l ++ zeros (n - length l).
Proof. intros. rewrite take_ge; [done|]. rewrite length_app, length_zeros. lia. Qed.

Lemma holds_put start body bytes spool :
  holds start body spool → holds start (body ++ bytes) (spool_put bytes spool).
Proof.
  intros [Hp Hb]. unfold holds, spool_put; cbn. rewrite Hp, len_app. split; [lia|].
  destruct (decide (bytes = [])) as [->|Hne].
  { rewrite bool_decide_true by done. by rewrite app_nil_r. }
  rewrite (bool_decide_false (bytes = [])) by done.
  rewrite (bool_decide_false (body ++ bytes = [])) by (intros [_ ?]%app_eq_nil; done).
  rewrite Hb. unfold len. replace (N.to_nat (start + N.of_nat (length body)))
    with (N.to_nat start + length body)%nat by lia.
  destruct (decide (body = [])) as [->|Hb'].
  - rewrite bool_decide_true by done. cbn [length app drop]. rewrite drop_nil, app_nil_r.
    rewrite Nat.sub_0_r, Nat.add_0_r, take_ge by (rewrite length_zeros; lia). done.
  - rewrite bool_decide_false by done.
    rewrite (take_ge _ (_ + _)), drop_ge; rewrite ?length_app, ?length_zeros; try lia.
    rewrite Nat.sub_diag. change (zeros 0) with (@nil byte). by rewrite !app_nil_r, <-app_assoc.
Qed.

(** The final state: header and directory in front, the footer behind. *)
Lemma sealed_bytes start body spool head dir foot :
  holds start body spool → len head + len dir = start → head ≠ [] → dir ≠ [] → foot ≠ [] →
  let spool := spool_put dir (spool_put head {| sl_bytes := sl_bytes spool; sl_position := 0 |}) in
  sl_bytes spool = head ++ dir ++ body ∧
  sl_bytes (spool_put foot {| sl_bytes := sl_bytes spool; sl_position := start + len body |}) =
  head ++ dir ++ body ++ foot.
Proof.
  intros [_ Hb] Hs Hh Hd Hf spool'.
  assert (Hl : sl_bytes spool' = head ++ dir ++ body).
  { unfold spool', spool_put. cbn [sl_bytes sl_position]. rewrite !(bool_decide_false (_ = [])) by done.
    change (N.to_nat 0) with 0%nat. rewrite !take_0, N.add_0_l, Nat.add_0_l, !app_nil_l. unfold len in *.
    rewrite Nat2N.id, take_app_le, take_app_length' by (rewrite ?length_app; lia). f_equal. f_equal.
    rewrite drop_app_ge, drop_drop by lia. replace (length head + (length head + length dir - length head))%nat
      with (N.to_nat start) by lia.
    destruct (decide (body = [])) as [->|Hne].
    - rewrite bool_decide_true in Hb by done. by rewrite Hb, drop_nil.
    - rewrite bool_decide_false in Hb by done. rewrite Hb. apply drop_app_length'. symmetry; apply length_zeros. }
  split; [exact Hl|]. clearbody spool'. unfold spool_put. cbn [sl_bytes sl_position]. rewrite Hl.
  rewrite bool_decide_false by done. unfold len in *.
  rewrite (take_ge _ (N.to_nat _)), drop_ge; rewrite ?length_app, ?length_zeros; try lia.
  replace (_ - _)%nat with 0%nat by lia. change (zeros 0) with (@nil byte). by rewrite !app_nil_r, <-!app_assoc.
Qed.

(** ** Files that do not change

    [remaining h s] is what is left to read from the open file [h]: reads
    consume it, other effects keep it. *)

Class StableFiles (S : Type) `{Env S} `{FileSystem S} := {
  contents : list byte → list byte;
  remaining : N → S → list byte;
  open_stable : ∀ path s h s', fs_open path s = (Ok h, s') → remaining h s' = contents path;
  read_stable : ∀ h n s bytes s', 0 < n → fs_read h n s = (Ok bytes, s') →
    remaining h s = bytes ++ remaining h s' ∧ (bytes = [] → remaining h s = []);
  checkpoint_stable : ∀ h s, remaining h (env_checkpoint s).2 = remaining h s;
  spool_stable : ∀ h s, remaining h (fs_spool s).2 = remaining h s;
}.

Section copying.
Context {S : Type} `{StableFiles S} `{Crc32c} `{Laws : !Crc32cLaws} `{Blake3}.

Lemma checkpoint_remaining h s v s' : checkpoint s = (Ok v, s') → remaining h s' = remaining h s.
Proof. intros E. pose proof (checkpoint_stable h s) as Hc. unfold checkpoint in E. by rewrite E in Hc. Qed.
Lemma spool_remaining h s v s' : fs_spool s = (Ok v, s') → remaining h s' = remaining h s.
Proof. intros E. pose proof (spool_stable h s) as Hc. by rewrite E in Hc. Qed.

Lemma spool_write_run h bytes spool s spool' s' :
  spool_write bytes spool s = (Ok spool', s') →
  spool' = spool_put bytes spool ∧ remaining h s' = remaining h s.
Proof.
  unfold spool_write. intros Hr. m_inv. split; [done|]. by eapply spool_remaining.
Qed.

(** What the copying loop maintains. *)
Record copying (h : N) (path : list byte) (spool : Spool) (crc : N) (st : CopyState) (s : S) : Prop := {
  copying_data : contents path = cs_hashed st ++ remaining h s;
  copying_done : cs_done st = true → remaining h s = [];
  copying_written : cs_written st = len (cs_hashed st);
  copying_crc : cs_crc st = crc32c (cs_hashed st);
  copying_payload : cs_payload_crc st = crc32c_append crc (cs_hashed st);
  copying_spool : ∀ start body, holds start body spool → holds start (body ++ cs_hashed st) (cs_spool st);
}.

Lemma copy_step_run h path spool crc expected st s st' s' :
  crc <= u32_MAX → copying h path spool crc st s → cs_done st = false →
  copy_step h expected st s = (Ok st', s') → copying h path spool crc st' s'.
Proof.
  intros Hcrc [Hd Hdone Hw Hc Hp Hs] Hnd. unfold copy_step. intros Hr. m_inv.
  match goal with H : checkpoint s = (Ok _, ?s1) |- _ => apply (checkpoint_remaining h) in H; rename H into Hck end.
  match goal with H : fs_read h _ _ = (Ok ?b, ?s1) |- _ => rename b into buffer; rename s1 into sr;
    apply read_stable in H as [Hread Hend]; [|done] end.
  rewrite Hck in *. destruct (len buffer =? 0) eqn:E; m_inv.
  - arith_inv. assert (buffer = []) as -> by (apply length_zero_iff_nil; unfold len in E; lia).
    cbn in Hread. specialize (Hend eq_refl). split; cbn; auto; congruence.
  - invres. match goal with H : spool_write _ _ _ = (Ok _, _) |- _ => apply (spool_write_run h) in H as [-> Hsp] end.
    split; cbn; [|done|rewrite len_app; lia| | |].
    + by rewrite Hsp, Hd, Hread, app_assoc.
    + unfold crc32c in *. rewrite Hc. by rewrite crc32c_append_app by lia.
    + rewrite Hp. by rewrite crc32c_append_app by done.
    + intros start body Hh. rewrite app_assoc. by apply holds_put, Hs.
Qed.

Lemma copy_input_file_Ok path md identity spool crc s n hash file_crc spool' crc' s' :
  crc <= u32_MAX →
  copy_input_file path md identity spool crc s = (Ok (n, hash, file_crc, spool', crc'), s') →
  n = len (contents path) ∧ n = md_len md ∧ hash = blake3 (contents path) ∧
  file_crc = crc32c (contents path) ∧ crc' = crc32c_append crc (contents path) ∧
  ∀ start body, holds start body spool → holds start (body ++ contents path) spool'.
Proof.
  intros Hcrc. unfold copy_input_file. cbv zeta. intros Hr. m_inv.
  match goal with H : fs_open path _ = (Ok ?h, _) |- _ => rename h into handle; apply open_stable in H; rename H into Ho end.
  match goal with H : while_m _ _ _ _ _ = _ |- _ =>
    apply (while_m_inv (copying handle path spool crc)) in H as [[Hd Hdone Hw Hc Hp Hs] Hend] end.
  - apply negb_false_iff in Hend. specialize (Hdone Hend). rewrite Hdone, app_nil_r in Hd. invres.
    rewrite <-Hd in *. repeat match goal with |- _ ∧ _ => split end; try done; lia.
  - intros st sa st' sb Hi Hnd Hstep. eapply copy_step_run; try done. by apply negb_true_iff.
  - split; cbn; try done.
    + unfold crc32c. by rewrite crc32c_append_nil.
    + by rewrite crc32c_append_nil.
    + intros start body Hh. by rewrite app_nil_r.
Qed.
End copying.

(** ** Reading a source into memory *)

Section reading.
Context {S : Type} `{StableFiles S} `{Blake3}.

Lemma read_source_bytes_Ok source verify s bytes s' :
  read_source_bytes source verify s = (Ok bytes, s') →
  bytes = contents (src_path source) ∧ len bytes = src_size source.
Proof.
  unfold read_source_bytes. intros Hr. m_inv.
  match goal with Ho : fs_open _ _ = (Ok ?h, _) |- _ => rename h into handle; apply open_stable in Ho; rename Ho into Hopen end.
  match goal with Hw : while_m _ _ _ _ _ = _ |- _ =>
    apply (while_m_inv (λ '(finished, written) s, contents (src_path source) = written ++ remaining handle s ∧
      (finished = true → remaining handle s = []))) in Hw end.
  - match goal with Hw : (_ ∧ _) ∧ _ = true |- _ => idtac | Hw : _ ∧ negb ?x = false |- _ =>
      destruct Hw as [[Hd Hdone] Hend] end.
    apply negb_false_iff in Hend. rewrite (Hdone Hend), app_nil_r in Hd. arith_inv. split; [done|].
    done.
  - intros [f written] sa [f' written'] sb [Hd Hdone] Hnf Hstep. unfold read_step in Hstep. m_inv.
    repeat match goal with Hc : checkpoint _ = (Ok _, _) |- _ => apply (checkpoint_remaining handle) in Hc end.
    match goal with Hx : fs_read handle _ _ = (Ok ?b, ?s1) |- _ => rename b into buffer;
      apply read_stable in Hx as [Hread Hempty]; [|done] end.
    destruct (len buffer =? 0) eqn:E; m_inv; cbn [fst snd] in *.
    + arith_inv. assert (buffer = []) as -> by (apply length_zero_iff_nil; unfold len in E; lia).
      cbn in Hread. specialize (Hempty eq_refl). split; [congruence|]. intros _. congruence.
    + split; [|done]. rewrite <-app_assoc, <-Hread. congruence.
  - cbn. done.
Qed.

Lemma read_verified_source_Ok source s bytes s' :
  read_verified_source source s = (Ok bytes, s') →
  bytes = contents (src_path source) ∧ len bytes = src_size source.
Proof. unfold read_verified_source. intros Hr. m_inv. by eapply read_source_bytes_Ok. Qed.

Lemma hash_input_file_Ok path md identity s n hash s' :
  hash_input_file path md identity s = (Ok (n, hash), s') →
  n = len (contents path) ∧ n = md_len md ∧ hash = blake3 (contents path).
Proof.
  unfold hash_input_file. intros Hr. m_inv.
  match goal with Hx : read_source_bytes _ _ _ = _ |- _ => apply read_source_bytes_Ok in Hx as [-> Hl] end.
  done.
Qed.
End reading.

(** ** The file system in memory *)

Definition memory_stable content identity : @StableFiles Open memory_env (memory_files content identity).
Proof.
  refine {| contents := content; remaining := λ h s, default [] (open_files s !! N.to_nat h) |}.
  - intros path s h s' [= <- <-]. cbn. unfold len. by rewrite Nat2N.id, list_lookup_middle.
  - intros h n s bytes s' Hn. cbn. destruct (open_files s !! N.to_nat h) as [rest|] eqn:E; [|done].
    intros [= <- <-]. cbn. rewrite list_lookup_insert_eq by (by eapply lookup_lt_Some). cbn.
    rewrite take_drop. split; [done|]. intros Ht. destruct rest; [done|].
    destruct (N.to_nat n) eqn:En; [lia|done].
  - done.
  - done.
Defined.
