(* ===== verification/Pack.v ===== *)
(** * Packing an archive ([crates/pithos-engine/src/lib.rs])

    [pack_with_limits_and_control] (the RAW profile) and
    [pack_compressed_with_limits] from the scanned inputs to the committed
    archive, the choice of the codec of a group, and the resource estimate.
    The scan of the input directories and the choice of the destination are
    the caller's. *)

From S2P Require Import Prelude Core Effects Bytes Format Codecs.
From S2P Require Import Planner Sorting TaskScheduler Paths Catalog Inputs.

(** ** Limits *)

Record PackLimits := {
  pl_max_input_bytes : N;
  pl_max_memory_bytes : N;
  pl_max_temp_bytes : N;
  pl_max_output_bytes : N;
  pl_max_metadata_bytes : N;
  pl_max_entries : N;
}.

Definition PackLimits_default : PackLimits := {|
  pl_max_input_bytes := max_original_bytes DecodeLimits_default;
  pl_max_memory_bytes := u64_MAX;
  pl_max_temp_bytes := u64_MAX;
  pl_max_output_bytes := u64_MAX;
  pl_max_metadata_bytes := max_metadata_bytes DecodeLimits_default;
  pl_max_entries := max_entries DecodeLimits_default;
|}.

(** The [decode_limits] of both profiles, which differ in [max_group_output]. *)
Definition pack_decode_limits (pack_limits : PackLimits) (group_output : N) : DecodeLimits :=
  let defaults := DecodeLimits_default in {|
    max_entries := N.min (pl_max_entries pack_limits) (max_entries defaults);
    max_groups := N.min (pl_max_entries pack_limits) (max_groups defaults);
    max_chunks := N.min (pl_max_entries pack_limits) (max_chunks defaults);
    max_original_bytes := pl_max_input_bytes pack_limits;
    max_group_output := group_output;
    max_dependency_depth := max_dependency_depth defaults;
    max_rule_depth := max_rule_depth defaults;
    max_rules := max_rules defaults;
    max_expansion_ratio := max_expansion_ratio defaults;
    max_metadata_bytes := N.min (pl_max_metadata_bytes pack_limits) (max_metadata_bytes defaults);
    max_path_bytes := max_path_bytes defaults;
    max_path_components := max_path_components defaults;
    max_sections := max_sections defaults;
  |}.

Definition raw_decode_limits (pack_limits : PackLimits) : DecodeLimits :=
  pack_decode_limits pack_limits
    (N.min (pl_max_input_bytes pack_limits) (max_group_output DecodeLimits_default)).
Definition compressed_decode_limits (pack_limits : PackLimits) : DecodeLimits :=
  pack_decode_limits pack_limits (max_group_output DecodeLimits_default).

(** The check of the budgets, the same in both profiles. *)
Definition pack_budget (pack_limits : PackLimits) : Result unit :=
  if (pl_max_temp_bytes pack_limits =? 0) || (pl_max_output_bytes pack_limits =? 0) ||
     (pl_max_metadata_bytes pack_limits =? 0) || (pl_max_entries pack_limits =? 0)
  then Err (ResourceLimit "pack budget") else Ok tt.

(** ** What the scan delivers *)

Inductive ScannedKind :=
  | ScannedFile
  | ScannedDirectory
  | ScannedSymlink (target : LinkTarget) (target_is_dir : bool).

Record ScannedEntry := {
  se_source : list byte;
  se_archive_path : ArchivePath;
  se_sort_key : list byte;
  se_metadata : Metadata;
  se_identity : option Identity;
  se_kind : ScannedKind;
}.

(** [serde_json::to_vec] at the types that are written; parsing inverts it. *)
Class SerdeJson := {
  json_parser :: CatalogJson;
  write_entries : list EntryRecord → option (list byte);
  write_groups : list GroupTableRecord → option (list byte);
  write_restore_map : list RestoreMapRecord → option (list byte);
  write_central_index : list CentralIndexRecord → option (list byte);
  write_integrity : list IntegrityRecord → option (list byte);
  write_link_target : LinkTarget → option (list byte);
}.

Class SerdeJsonLaws `{SerdeJson} : Prop := {
  entries_inverse : ∀ v b, write_entries v = Some b → json_entries b = Some v;
  groups_inverse : ∀ v b, write_groups v = Some b → json_groups b = Some v;
  restore_map_inverse : ∀ v b, write_restore_map v = Some b → json_restore_map b = Some v;
  central_index_inverse : ∀ v b, write_central_index v = Some b → json_central_index b = Some v;
  integrity_inverse : ∀ v b, write_integrity v = Some b → json_integrity b = Some v;
}.

Definition serialize {T} (write : T → option (list byte)) (value : T) : Result (list byte) :=
  ok_or (InvalidMetadata "serialization") (write value).

(** ** Codecs of a profile and of a group *)

Definition profile_codecs (profile : CompressionProfile) : list CodecId :=
  match profile with
  | Raw => [Store]
  | Stream | Random => [Store; Zstd]
  | Balanced | ArchiveMax => [Store; Zstd; Brotli; Lzma2]
  end.

(** The largest memory bound of the candidates. *)
Definition codec_memory_of (candidates : list CodecId) (length : N) : Result N :=
  try_fold (λ maximum codec_id,
    bound ← Codec_memory_bound codec_id length (CodecConfig_deterministic_default codec_id);
    Ok (N.max maximum bound)) 0 candidates.

Record PackResourceEstimate := {
  pe_estimated_memory : N;
  pe_estimated_temp : N;
  pe_output_upper_bound : N;
}.

Definition ENTRY_OUTPUT_OVERHEAD : N := 1024 * 1024.
Definition FIXED_OUTPUT_OVERHEAD : N := 16 * 1024 * 1024.
Definition SCAN_ENTRY_MEMORY : N := 512.

Definition estimate_pack_resources (profile : CompressionProfile)
    (input_bytes max_file_bytes entry_count : N) : Result PackResourceEstimate :=
  metadata_upper_bound ← ok_or IntegerOverflow
    (value ← checked_mul entry_count ENTRY_OUTPUT_OVERHEAD; checked_add value FIXED_OUTPUT_OVERHEAD);
  output_upper_bound ← ok_or IntegerOverflow (checked_add input_bytes metadata_upper_bound);
  scan_memory ← ok_or IntegerOverflow
    (value ← checked_mul entry_count SCAN_ENTRY_MEMORY; checked_add value IO_BUFFER_SIZE);
  if bool_decide (profile = Raw) then
    Ok {| pe_estimated_memory := scan_memory; pe_estimated_temp := output_upper_bound;
          pe_output_upper_bound := output_upper_bound |}
  else
  let target := solid_group_target profile in
  let largest_group := N.max max_file_bytes (N.min input_bytes target) in
  codec_memory ← codec_memory_of (profile_codecs profile) largest_group;
  selected_output_bound ← ok_or IntegerOverflow (checked_add largest_group (ENTRY_OUTPUT_OVERHEAD + 2));
  estimated_memory ← ok_or IntegerOverflow (checked_add codec_memory selected_output_bound);
  estimated_temp ← ok_or IntegerOverflow (checked_add input_bytes output_upper_bound);
  Ok {| pe_estimated_memory := N.max estimated_memory scan_memory;
        pe_estimated_temp := estimated_temp; pe_output_upper_bound := output_upper_bound |}.

(** [sources.get(first_item..first_item + item_count)]. *)
Definition group_members (sources : list CompressedSource) (plan : SolidGroupPlan) :
    Result (list CompressedSource) :=
  end_ ← ok_or IntegerOverflow (checked_add (sg_first_item plan) (sg_item_count plan));
  if len sources <? end_ then Err (InvalidMetadata "solid group member range")
  else Ok (sub (N.to_nat (sg_first_item plan)) (N.to_nat (sg_item_count plan)) sources).

Section encode_group.
Context {S : Type} `{Env S} `{FileSystem S} `{Crc32c} `{Blake3} `{Backends}.

Abbreviation Candidate := (CodecId * CandidateCost * list byte)%type.

(** One iteration of [for codec_id in candidates], on the whole input. *)
Definition candidate_step (input : list byte) (best : option Candidate) (codec_id : CodecId) :
    M S (option Candidate) :=
  checkpoint;;
  checkpoint;;
  '(stats, encoded) ← lift (Codec_encode codec_id input (CodecConfig_deterministic_default codec_id));
  let cost := {| cc_payload := output_bytes stats; cc_codec_descriptor := 16;
    cc_group_descriptor := 48; cc_index_delta := 0; cc_integrity := 4; cc_padding := 0 |} in
  replace ← lift
    (match best with
     | None => Ok true
     | Some (best_id, best_cost, _) =>
         total ← CandidateCost_total cost;
         best_total ← CandidateCost_total best_cost;
         Ok ((total <? best_total) ||
             ((total =? best_total) && (CodecId_as_u16 codec_id <? CodecId_as_u16 best_id)))
     end);
  mret (if (replace : bool) then Some (codec_id, cost, encoded) else best).

Definition encode_solid_group (members : list CompressedSource) (candidates : list CodecId) :
    M S (list byte) :=
  input_length ← lift (try_fold (λ total source,
    ok_or IntegerOverflow (checked_add total (src_size source))) 0 members);
  _ ← lift (ok_or MemoryLimit (usize_try_from input_length));
  input ← fold_m (λ input source,
    checkpoint;;
    checkpoint;;
    bytes ← read_verified_source source;
    mret (input ++ bytes)) [] members;
  best ← fold_m (candidate_step input) None candidates;
  '(codec_id, _, payload) ← lift (ok_or UnsupportedCodec best);
  mret (u16_le (CodecId_as_u16 codec_id) ++ payload).
End encode_group.

(** ** Entries *)

Abbreviation Hardlinks := (gmap Identity (N * N * list byte)).

Definition DIRECTORY_LABEL : list byte :=
  map byte_of [100; 105; 114; 101; 99; 116; 111; 114; 121].

(** The file branch finds an earlier name of the same file. *)
Definition hardlink_of (hardlinks : Hardlinks) (identity : option Identity) : option (N * N * list byte) :=
  key ← identity; hardlinks !! key.

Definition remember (hardlinks : Hardlinks) (identity : option Identity) (value : N * N * list byte) :
    Hardlinks :=
  match identity with Some key => <[key := value]> hardlinks | None => hardlinks end.

Definition new_entry (entry_id : N) (scanned : ScannedEntry) (size : N) (hash : list byte)
    (kind : EntryKind) : EntryRecord := {|
  er_entry_id := entry_id; er_path := se_archive_path scanned; er_size := size;
  er_modified_ns := modified_ns (se_metadata scanned); er_mode := metadata_mode (se_metadata scanned);
  er_blake3 := hash; er_kind := kind |}.

(** The record of a section that has been written, and the spool. *)
Definition section_record (section_type : SectionType) (offset : N) (length crc : N) :
    SectionDirectoryRecord := {|
  sd_section_type := SectionType_as_u16 section_type; sd_section_version := 1; sd_flags := 0;
  sd_offset := offset; sd_length := length; sd_crc32c := crc; sd_reserved := 0 |}.

Definition compare_section (x y : SectionDirectoryRecord) : comparison :=
  sd_section_type x ?= sd_section_type y.

Record RawState := {
  rs_spool : Spool;
  rs_entries : list EntryRecord;
  rs_groups : list GroupTableRecord;
  rs_restore_map : list RestoreMapRecord;
  rs_hardlinks : Hardlinks;
  rs_payload_crc : N;
  rs_original_total_size : N;
}.

Record CompressedState := {
  ct_entries : list EntryRecord;
  ct_sources : list CompressedSource;
  ct_hardlinks : Hardlinks;
  ct_original_total_size : N;
}.

Section pack.
Context {S : Type} `{Env S} `{FileSystem S} `{Crc32c} `{Blake3} `{Backends} `{SerdeJson}.

Definition write_section (spool : Spool) (section_type : SectionType) (bytes : list byte) :
    M S (SectionDirectoryRecord * Spool) :=
  let offset := sl_position spool in
  spool ← spool_write bytes spool;
  mret (section_record section_type offset (len bytes) (crc32c bytes), spool).

(** The [ScannedKind::Symlink] branch of both profiles. *)
Definition symlink_entry (target : LinkTarget) (target_is_dir : bool) :
    Result (N * list byte * EntryKind) :=
  serialized ← serialize write_link_target target;
  Ok (len serialized, blake3 serialized, Symlink target target_is_dir).

(** The size check of a file in both profiles. *)
Definition add_original (total expected_size : N) (limits : DecodeLimits) : Result N :=
  total ← ok_or IntegerOverflow (checked_add total expected_size);
  if max_original_bytes limits <? total then Err (ResourceLimit "tamanho original") else Ok total.

(** ** The RAW profile *)

(** A file that is not a hardlink: its bytes become a group of their own. *)
Definition raw_copy (limits : DecodeLimits) (archive_budget entry_id : N) (scanned : ScannedEntry)
    (st : RawState) : M S (RawState * (N * list byte * EntryKind)) :=
  let expected_size := md_len (se_metadata scanned) in
  if max_group_output limits <? expected_size then fail (ResourceLimit "tamanho do grupo") else
  let group_id := len (rs_groups st) in
  let payload_offset := sl_position (rs_spool st) in
  if match checked_add payload_offset expected_size with
     | Some end_ => archive_budget <? end_ | None => true end
  then fail (ResourceLimit "archive output") else
  '(actual_size, file_hash, file_crc, spool, payload_crc) ← copy_input_file (se_source scanned)
    (se_metadata scanned) (se_identity scanned) (rs_spool st) (rs_payload_crc st);
  let group := {| gr_version := 1; gr_flags := 0; gr_group_id := group_id; gr_codec_chain_id := 0;
    gr_chunk_count := 1; gr_uncompressed_len := actual_size; gr_compressed_len := actual_size;
    gr_descriptor_len := 0; gr_payload_crc32c := file_crc |} in
  mret ({|
    rs_spool := spool; rs_entries := rs_entries st;
    rs_groups := rs_groups st ++ [{| gt_group := group; gt_payload_offset := payload_offset |}];
    rs_restore_map := rs_restore_map st ++ [{| rm_entry_id := entry_id; rm_original_offset := 0;
      rm_length := actual_size; rm_group_id := group_id; rm_group_offset := 0 |}];
    rs_hardlinks := remember (rs_hardlinks st) (se_identity scanned) (entry_id, actual_size, file_hash);
    rs_payload_crc := payload_crc; rs_original_total_size := rs_original_total_size st |},
    (actual_size, file_hash, File group_id)).

(** One iteration of [for scanned_entry in scanned]. *)
Definition raw_step (limits : DecodeLimits) (archive_budget : N) (st : RawState)
    (scanned : ScannedEntry) : M S RawState :=
  checkpoint;;
  let entry_id := len (rs_entries st) in
  '(st, (size, hash, kind)) ←
    match se_kind scanned with
    | ScannedDirectory => mret (st, (0, blake3 DIRECTORY_LABEL, Directory))
    | ScannedSymlink target target_is_dir =>
        value ← lift (symlink_entry target target_is_dir);
        mret (st, value)
    | ScannedFile =>
        total ← lift (add_original (rs_original_total_size st) (md_len (se_metadata scanned)) limits);
        let st := {| rs_spool := rs_spool st; rs_entries := rs_entries st; rs_groups := rs_groups st;
          rs_restore_map := rs_restore_map st; rs_hardlinks := rs_hardlinks st;
          rs_payload_crc := rs_payload_crc st; rs_original_total_size := total |} in
        match hardlink_of (rs_hardlinks st) (se_identity scanned) with
        | Some (target_entry_id, target_size, target_hash) =>
            mret (st, (target_size, target_hash, Hardlink target_entry_id))
        | None => raw_copy limits archive_budget entry_id scanned st
        end
    end;
  mret {| rs_spool := rs_spool st;
          rs_entries := rs_entries st ++ [new_entry entry_id scanned size hash kind];
          rs_groups := rs_groups st; rs_restore_map := rs_restore_map st;
          rs_hardlinks := rs_hardlinks st; rs_payload_crc := rs_payload_crc st;
          rs_original_total_size := rs_original_total_size st |}.

(** Header, directory and footer around the sections, the verification of
    the result, and its publication. *)
Definition seal_archive (spool : Spool) (sections : list SectionDirectoryRecord)
    (metadata_sections : list (list byte)) (original_total_size entry_count chunk_count group_count
    section_count : N) (limits : DecodeLimits) : M S (list byte) :=
  let sections := insertion_sort compare_section sections in
  let footer_offset := sl_position spool in
  let archive_id := take 16 (blake3 (concat metadata_sections)) in
  let header := {|
    gh_major := gh_major (GlobalHeader_new archive_id);
    gh_minor := gh_minor (GlobalHeader_new archive_id);
    gh_flags := gh_flags (GlobalHeader_new archive_id);
    gh_archive_id := archive_id;
    gh_original_total_size := original_total_size;
    gh_entry_count := entry_count;
    gh_logical_chunk_count := chunk_count;
    gh_group_count := group_count;
    gh_section_directory_offset := gh_section_directory_offset (GlobalHeader_new archive_id);
    gh_footer_offset := footer_offset;
    gh_section_count := section_count |} in
  let directory_bytes := concat (map SectionDirectoryRecord_encode sections) in
  spool ← spool_seek 0 spool;
  spool ← spool_write (GlobalHeader_encode header) spool;
  spool ← spool_write directory_bytes spool;
  fs_spool;;
  '(_, root) ← digest_range (sl_bytes spool) 0 footer_offset;
  archive_length ← lift (ok_or IntegerOverflow (checked_add footer_offset (N.of_nat FOOTER_LEN)));
  let footer := {| ft_archive_length := archive_length; ft_blake3_root := root;
    ft_directory_crc32c := crc32c directory_bytes; ft_version := 1 |} in
  spool ← spool_seek footer_offset spool;
  spool ← spool_write (Footer_encode footer) spool;
  fs_spool;;
  fs_spool;;
  verify_open_file (sl_bytes spool) limits;;
  checkpoint;;
  fs_spool;;
  mret (sl_bytes spool).

(** From the end of the loop. *)
Definition raw_finish (limits : DecodeLimits) (archive_budget payload_start : N) (st : RawState) :
    M S (list byte) :=
  let payload_end := sl_position (rs_spool st) in
  payload_length ← lift (ok_or IntegerOverflow (checked_sub payload_end payload_start));
  let central_index := map index_of (rs_entries st) in
  let integrity := map integrity_of (rs_entries st) in
  entry_bytes ← lift (serialize write_entries (rs_entries st));
  group_bytes ← lift (serialize write_groups (rs_groups st));
  restore_bytes ← lift (serialize write_restore_map (rs_restore_map st));
  index_bytes ← lift (serialize write_central_index central_index);
  integrity_bytes ← lift (serialize write_integrity integrity);
  let metadata := [entry_bytes; group_bytes; restore_bytes; index_bytes; integrity_bytes] in
  _ ← lift (try_map (λ bytes, if max_metadata_bytes limits <? len bytes
    then Err (ResourceLimit "seção de metadados") else Ok tt) metadata);
  metadata_total ← lift (try_fold (λ total bytes,
    ok_or IntegerOverflow (checked_add total (len bytes))) 0 metadata);
  if max_metadata_bytes limits <? metadata_total then fail (ResourceLimit "aggregate metadata") else
  expected_archive_length ← lift (ok_or IntegerOverflow
    (length ← checked_add payload_end metadata_total; checked_add length (N.of_nat FOOTER_LEN)));
  if archive_budget <? expected_archive_length then fail (ResourceLimit "archive output") else
  '(entry_section, spool) ← write_section (rs_spool st) EntryTable entry_bytes;
  '(group_section, spool) ← write_section spool GroupTable group_bytes;
  let payload_section :=
    section_record PayloadArea payload_start payload_length (rs_payload_crc st) in
  '(restore_section, spool) ← write_section spool RestoreMap restore_bytes;
  '(index_section, spool) ← write_section spool CentralIndex index_bytes;
  '(integrity_section, spool) ← write_section spool IntegrityTree integrity_bytes;
  seal_archive spool
    [entry_section; group_section; payload_section; restore_section; index_section; integrity_section]
    metadata (rs_original_total_size st) (len (rs_entries st)) (len (rs_groups st))
    (len (rs_groups st)) REQUIRED_RAW_SECTIONS limits.

(** [pack_with_limits_and_control] after the scan; the result is the
    archive that has been committed. *)
Definition pack_raw (pack_limits : PackLimits) (scanned : list ScannedEntry) : M S (list byte) :=
  let limits := raw_decode_limits pack_limits in
  let archive_budget := N.min (pl_max_temp_bytes pack_limits) (pl_max_output_bytes pack_limits) in
  fs_spool;;
  directory_length ← lift (ok_or IntegerOverflow
    (checked_mul REQUIRED_RAW_SECTIONS (N.of_nat SECTION_ENTRY_LEN)));
  payload_start ← lift (ok_or IntegerOverflow (checked_add (N.of_nat HEADER_LEN) directory_length));
  if archive_budget <? payload_start then fail (ResourceLimit "archive output") else
  spool ← spool_seek payload_start spool_new;
  st ← fold_m (raw_step limits archive_budget) {|
    rs_spool := spool; rs_entries := []; rs_groups := []; rs_restore_map := []; rs_hardlinks := ∅;
    rs_payload_crc := 0; rs_original_total_size := 0 |} scanned;
  raw_finish limits archive_budget payload_start st.
End pack.

(** ** The compressed profiles *)

(** [execute_scheduled] under a schedule: whether the token was cancelled,
    whether the pool could be built, and what happens next at each point.
    [None] is a schedule that ends before the loop returns. *)
Definition execute_scheduled (tasks : list ScheduledTask) (config : SchedulerConfig)
    (schedule : bool * bool * list choice) : option (Result (list SpoolHandle)) :=
  let '(cancelled, pool_built, choices) := schedule in
  match execute_start tasks config cancelled pool_built with
  | Err e => Some (Err e)
  | Ok st =>
      st ← sched_run tasks config st choices;
      match sc_phase st with Returned r => Some r | _ => None end
  end.

(** The part of the environment that the worker pool adds: the schedule, the
    state in which the worker of a group starts, and the number of workers. *)
Class WorkerPool (S : Type) := {
  pool_workers : S → N * S;
  pool_is_dir : S → Result bool * S;
  pool_schedule : S → (bool * bool * list choice) * S;
  worker_state : S → N → S;
}.

Section pack_compressed.
Context {S : Type} `{Env S} `{FileSystem S} `{WorkerPool S} `{Crc32c} `{Blake3} `{Backends} `{SerdeJson}.

(** One iteration of [for scanned_entry in scanned]. *)
Definition compressed_step (limits : DecodeLimits) (st : CompressedState) (scanned : ScannedEntry) :
    M S CompressedState :=
  checkpoint;;
  let entry_id := len (ct_entries st) in
  let metadata := se_metadata scanned in
  '(st, (size, hash, kind)) ←
    match se_kind scanned with
    | ScannedDirectory => mret (st, (0, blake3 DIRECTORY_LABEL, Directory))
    | ScannedSymlink target target_is_dir =>
        value ← lift (symlink_entry target target_is_dir);
        mret (st, value)
    | ScannedFile =>
        total ← lift (add_original (ct_original_total_size st) (md_len metadata) limits);
        match hardlink_of (ct_hardlinks st) (se_identity scanned) with
        | Some (target_entry_id, target_size, target_hash) =>
            mret ({| ct_entries := ct_entries st; ct_sources := ct_sources st;
                     ct_hardlinks := ct_hardlinks st; ct_original_total_size := total |},
                  (target_size, target_hash, Hardlink target_entry_id))
        | None =>
            if max_group_output limits <? md_len metadata
            then fail (ResourceLimit "tamanho do grupo") else
            '(actual_size, file_hash) ← hash_input_file (se_source scanned) metadata (se_identity scanned);
            let source := {| src_entry_id := entry_id; src_path := se_source scanned;
              src_size := actual_size; src_hash := file_hash; src_modified := md_modified metadata;
              src_identity := se_identity scanned |} in
            mret ({| ct_entries := ct_entries st; ct_sources := ct_sources st ++ [source];
                     ct_hardlinks := remember (ct_hardlinks st) (se_identity scanned)
                       (entry_id, actual_size, file_hash);
                     ct_original_total_size := total |},
                  (actual_size, file_hash, File u64_MAX))
        end
    end;
  mret {| ct_entries := ct_entries st ++ [new_entry entry_id scanned size hash kind];
          ct_sources := ct_sources st; ct_hardlinks := ct_hardlinks st;
          ct_original_total_size := ct_original_total_size st |}.

Definition with_kind (entry : EntryRecord) (kind : EntryKind) : EntryRecord := {|
  er_entry_id := er_entry_id entry; er_path := er_path entry; er_size := er_size entry;
  er_modified_ns := er_modified_ns entry; er_mode := er_mode entry; er_blake3 := er_blake3 entry;
  er_kind := kind |}.

(** One iteration of [for source in members]: the entry learns its group,
    and the restore map grows. *)
Definition member_step (group_id : N) (st : list EntryRecord * list RestoreMapRecord * N)
    (source : CompressedSource) : Result (list EntryRecord * list RestoreMapRecord * N) :=
  let '(entries, restore_map, group_offset) := st in
  let id := N.to_nat (src_entry_id source) in
  entry ← ok_or panic (entries !! id);
  next_offset ← ok_or IntegerOverflow (checked_add group_offset (src_size source));
  Ok (<[id := with_kind entry (File group_id)]> entries,
      restore_map ++ [{| rm_entry_id := src_entry_id source; rm_original_offset := 0;
        rm_length := src_size source; rm_group_id := group_id; rm_group_offset := group_offset |}],
      next_offset).

(** One iteration of the first [for (group_id, plan) in plans]. *)
Definition assign_group_step (sources : list CompressedSource)
    (st : list EntryRecord * list RestoreMapRecord) (item : N * SolidGroupPlan) :
    Result (list EntryRecord * list RestoreMapRecord) :=
  let '(entries, restore_map) := st in
  let '(group_id, plan) := item in
  members ← group_members sources plan;
  '(entries, restore_map, group_offset) ← try_fold (member_step group_id) (entries, restore_map, 0) members;
  if negb (group_offset =? sg_uncompressed_len plan)
  then Err (InvalidMetadata "solid group plan length") else Ok (entries, restore_map).

(** One iteration of the loop that builds the tasks; [worker] is the state
    in which the group's worker runs its closure.  The closure's token is
    one of the checkpoints of [encode_solid_group]. *)
Definition group_task (sources : list CompressedSource) (candidates : list CodecId)
    (worker : N → S) (item : N * SolidGroupPlan) : Result ScheduledTask :=
  let '(group_id, plan) := item in
  members ← group_members sources plan;
  output_bound ← ok_or IntegerOverflow (checked_add (sg_uncompressed_len plan) (1024 * 1024 + 2));
  codec_memory ← codec_memory_of candidates (sg_uncompressed_len plan);
  Ok {| st_task_id := group_id; st_priority := PackForeground; st_dependencies := [];
        st_resources := {| re_input_bytes := 0; re_scratch_bytes := codec_memory;
          re_output_bound := output_bound |};
        st_action := λ cancelled,
          if (cancelled : bool) then Err Cancelled
          else (encode_solid_group members candidates (worker group_id)).1 |}.

(** [SpoolHandle::read_all]. *)
Definition SpoolHandle_read_all (handle : SpoolHandle) : M S (list byte) :=
  fs_spool;;
  _ ← lift (ok_or IntegerOverflow (usize_try_from (sp_len handle)));
  mret (sp_file handle).

(** One iteration of [for encoded in &encoded_groups]. *)
Definition encoded_step (plans : list SolidGroupPlan)
    (st : Spool * list GroupTableRecord * gset N * N) (encoded : SpoolHandle) :
    M S (Spool * list GroupTableRecord * gset N * N) :=
  let '(spool, groups, used_codecs, payload_crc) := st in
  checkpoint;;
  envelope ← SpoolHandle_read_all encoded;
  if len envelope <? 2 then fail (InvalidMetadata "encoded group envelope") else
  let codec_id_raw := le_combine (take 2 envelope) in
  codec_id ← lift (ok_or UnsupportedCodec (CodecId_from_u16 codec_id_raw));
  let payload := drop 2 envelope in
  let payload_offset := sl_position spool in
  spool ← spool_write payload spool;
  let group_crc := crc32c payload in
  let payload_crc := crc32c_append payload_crc payload in
  plan ← lift (ok_or (InvalidMetadata "encoded group ID") (plans !! N.to_nat (sp_task_id encoded)));
  compressed_len ← lift (ok_or IntegerOverflow (u64_try_from (len payload)));
  chunk_count ← lift (ok_or IntegerOverflow (u32_try_from (sg_item_count plan)));
  let group := {| gr_version := 1; gr_flags := 0; gr_group_id := sp_task_id encoded;
    gr_codec_chain_id := CodecId_as_u16 codec_id + 1; gr_chunk_count := chunk_count;
    gr_uncompressed_len := sg_uncompressed_len plan; gr_compressed_len := compressed_len;
    gr_descriptor_len := 0; gr_payload_crc32c := group_crc |} in
  mret (spool, groups ++ [{| gt_group := group; gt_payload_offset := payload_offset |}],
        {[ codec_id_raw ]} ∪ used_codecs, payload_crc).

(** The registry of the codecs in use, in ascending order. *)
Definition registry_record (codec_id : N) : Result CodecRegistryRecord :=
  id ← ok_or UnsupportedCodec (CodecId_from_u16 codec_id);
  Ok {| cr_chain_id := codec_id + 1; cr_codec_id := codec_id; cr_codec_version := CODEC_VERSION_V1;
        cr_level := cfg_level (CodecConfig_deterministic_default id); cr_flags := CODEC_FLAG_REQUIRED |}.

Definition used_registry (used_codecs : gset N) : Result CodecRegistry :=
  try_map registry_record (ascending used_codecs).

(** From the end of the encoding to the committed archive. *)
Definition compressed_finish (pack_limits : PackLimits) (limits : DecodeLimits)
    (payload_start : N) (entries : list EntryRecord) (restore_map : list RestoreMapRecord)
    (original_total_size : N) (encoded_groups : list SpoolHandle)
    (written : Spool * list GroupTableRecord * gset N * N) : M S (list byte) :=
  let '(spool, groups, used_codecs, payload_crc) := written in
  let payload_end := sl_position spool in
  payload_length ← lift (ok_or IntegerOverflow (checked_sub payload_end payload_start));
  registry ← lift (used_registry used_codecs);
  registry_bytes ← lift (CodecRegistry_encode registry);
  let central_index := map index_of entries in
  let integrity := map integrity_of entries in
  entry_bytes ← lift (serialize write_entries entries);
  group_bytes ← lift (serialize write_groups groups);
  restore_bytes ← lift (serialize write_restore_map restore_map);
  index_bytes ← lift (serialize write_central_index central_index);
  integrity_bytes ← lift (serialize write_integrity integrity);
  let metadata := [registry_bytes; entry_bytes; group_bytes; restore_bytes; index_bytes; integrity_bytes] in
  metadata_total ← lift (try_fold (λ total bytes,
    length ← ok_or IntegerOverflow (u64_try_from (len bytes));
    if max_metadata_bytes limits <? length then Err (ResourceLimit "seção de metadados") else
    ok_or IntegerOverflow (checked_add total length)) 0 metadata);
  if max_metadata_bytes limits <? metadata_total then fail (ResourceLimit "aggregate metadata") else
  expected_archive_length ← lift (ok_or IntegerOverflow
    (length ← checked_add payload_end metadata_total; checked_add length (N.of_nat FOOTER_LEN)));
  if pl_max_output_bytes pack_limits <? expected_archive_length
  then fail (ResourceLimit "archive output") else
  encoded_temp ← lift (try_fold (λ total group,
    ok_or IntegerOverflow (checked_add total (sp_len group))) 0 encoded_groups);
  if match checked_add encoded_temp expected_archive_length with
     | Some peak => pl_max_temp_bytes pack_limits <? peak | None => true end
  then fail TemporarySpaceLimit else
  '(registry_section, spool) ← write_section spool CodecRegistrySection registry_bytes;
  '(entry_section, spool) ← write_section spool EntryTable entry_bytes;
  '(group_section, spool) ← write_section spool GroupTable group_bytes;
  let payload_section := section_record PayloadArea payload_start payload_length payload_crc in
  '(restore_section, spool) ← write_section spool RestoreMap restore_bytes;
  '(index_section, spool) ← write_section spool CentralIndex index_bytes;
  '(integrity_section, spool) ← write_section spool IntegrityTree integrity_bytes;
  seal_archive spool
    [registry_section; entry_section; group_section; payload_section; restore_section;
     index_section; integrity_section]
    metadata original_total_size (len entries) (len restore_map) (len groups)
    REQUIRED_COMPRESSED_SECTIONS limits.

(** [pack_compressed_with_limits] after the scan. *)
Definition pack_compressed (profile : CompressionProfile) (pack_limits : PackLimits)
    (scanned : list ScannedEntry) : M S (list byte) :=
  let limits := compressed_decode_limits pack_limits in
  st ← fold_m (compressed_step limits) {|
    ct_entries := []; ct_sources := []; ct_hardlinks := ∅; ct_original_total_size := 0 |} scanned;
  let sources := ct_sources st in
  plans ← lift (plan_solid_groups profile (map src_size sources));
  '(entries, restore_map) ← lift (try_fold (assign_group_step sources) (ct_entries st, []) (enumerate plans));
  let candidates := profile_codecs profile in
  fs_spool;;
  workers ← observe pool_workers;
  let memory_budget := N.max 1 (N.min (pl_max_memory_bytes pack_limits) (2 * 1024 * 1024 * 1024)) in
  is_dir ← pool_is_dir;
  config ← lift (SchedulerConfig_new (N.min workers 8) memory_budget (Ok is_dir));
  worker ← observe (λ s, (worker_state s, s));
  tasks ← lift (try_map (group_task sources candidates worker) (enumerate plans));
  schedule ← observe pool_schedule;
  encoded_groups ← lift (default (Err out_of_fuel) (execute_scheduled tasks config schedule));
  checkpoint;;
  directory_length ← lift (ok_or IntegerOverflow
    (checked_mul REQUIRED_COMPRESSED_SECTIONS (N.of_nat SECTION_ENTRY_LEN)));
  payload_start ← lift (ok_or IntegerOverflow (checked_add (N.of_nat HEADER_LEN) directory_length));
  fs_spool;;
  spool ← spool_seek payload_start spool_new;
  written ← fold_m (encoded_step plans) (spool, [], ∅, 0) encoded_groups;
  compressed_finish pack_limits limits payload_start entries restore_map (ct_original_total_size st)
    encoded_groups written.
End pack_compressed.

(** [pack_with_limits_and_control]: the checks before the scan, the scan, and
    the profile.  [exists_] is the outcome of [path_entry_exists]. *)
Definition pack_with_limits_and_control {S : Type} `{Env S} `{FileSystem S} `{WorkerPool S} `{Crc32c}
    `{Blake3} `{Backends} `{SerdeJson} (profile : CompressionProfile) (input_count : N)
    (exists_ : M S bool) (scan_inputs : DecodeLimits → M S (list ScannedEntry))
    (pack_limits : PackLimits) : M S (list byte) :=
  checkpoint;;
  if input_count =? 0 then fail (InvalidMetadata "nenhuma entrada") else
  output_exists ← exists_;
  if (output_exists : bool) then fail OutputExists else
  lift (pack_budget pack_limits);;
  if bool_decide (profile = Raw) then
    scanned ← scan_inputs (raw_decode_limits pack_limits);
    pack_raw pack_limits scanned
  else
    scanned ← scan_inputs (compressed_decode_limits pack_limits);
    pack_compressed profile pack_limits scanned.
