(* ===== verification/Scan.v ===== *)
(** * The scan of the inputs of a pack ([scan_inputs] of
    [crates/pithos-engine/src/lib.rs])

    A walk over the file tree below the inputs, within a memory budget, that
    delivers the entries of an archive in the order of their keys. *)

From S2P Require Import Prelude Core Effects Bytes Paths FileTree Catalog Sorting Orders Inputs Pack.

(** ** Budget *)

Definition SCANNED_ENTRY_MEMORY_OVERHEAD : N := 512.
Definition PENDING_CHILD_MEMORY_OVERHEAD : N := 128.

Record ScanBudget := {
  sb_max_entries : N;
  sb_max_bytes : N;
  sb_retained_entries : N;
  sb_retained_bytes : N;
  sb_transient_bytes : N;
}.

Definition ScanBudget_new (limits : DecodeLimits) : ScanBudget := {|
  sb_max_entries := max_entries limits;
  sb_max_bytes := max_metadata_bytes limits;
  sb_retained_entries := 0;
  sb_retained_bytes := 0;
  sb_transient_bytes := 0 |}.

Definition set_transient (self : ScanBudget) (bytes : N) : ScanBudget := {|
  sb_max_entries := sb_max_entries self; sb_max_bytes := sb_max_bytes self;
  sb_retained_entries := sb_retained_entries self; sb_retained_bytes := sb_retained_bytes self;
  sb_transient_bytes := bytes |}.
Definition set_retained (self : ScanBudget) (entries bytes : N) : ScanBudget := {|
  sb_max_entries := sb_max_entries self; sb_max_bytes := sb_max_bytes self;
  sb_retained_entries := entries; sb_retained_bytes := bytes;
  sb_transient_bytes := sb_transient_bytes self |}.

Definition ScanBudget_ensure_pending_slot (self : ScanBudget) (pending : N) : Result unit :=
  total ← ok_or IntegerOverflow (checked_add (sb_retained_entries self) pending);
  if sb_max_entries self <=? total then Err (ResourceLimit "entry count") else Ok tt.

Definition ScanBudget_reserve_transient (self : ScanBudget) (bytes : N) : Result ScanBudget :=
  total ← ok_or IntegerOverflow (checked_add (sb_retained_bytes self) (sb_transient_bytes self));
  next ← ok_or IntegerOverflow (checked_add total bytes);
  if sb_max_bytes self <? next then Err (ResourceLimit "scan memory") else
  transient ← ok_or IntegerOverflow (checked_add (sb_transient_bytes self) bytes);
  Ok (set_transient self transient).

Definition ScanBudget_release_transient (self : ScanBudget) (bytes : N) : ScanBudget :=
  set_transient self (saturating_sub (sb_transient_bytes self) bytes).

(** [and_then(|total| total.checked_add(term))], term by term. *)
Definition checked_sum (terms : list N) : option N :=
  foldl (λ total term, t ← total; checked_add t term) (Some 0) terms.

(** What an entry is charged. *)
Definition entry_charge (source : list byte) (archive_path : ArchivePath) (sort_key : list byte) (kind_bytes : N) :
    option N :=
  checked_sum [SCANNED_ENTRY_MEMORY_OVERHEAD; len source; ArchivePath_encoded_len archive_path;
               len (ap_components archive_path) * 32; len sort_key; kind_bytes].

Definition ScanBudget_retain_entry (self : ScanBudget) (source : list byte) (archive_path : ArchivePath)
    (sort_key : list byte) (kind_bytes : N) : Result ScanBudget :=
  if sb_max_entries self <=? sb_retained_entries self then Err (ResourceLimit "entry count") else
  bytes ← ok_or IntegerOverflow (entry_charge source archive_path sort_key kind_bytes);
  total ← ok_or IntegerOverflow (checked_add (sb_retained_bytes self) (sb_transient_bytes self));
  next ← ok_or IntegerOverflow (checked_add total bytes);
  if sb_max_bytes self <? next then Err (ResourceLimit "scan memory") else
  retained ← ok_or IntegerOverflow (checked_add (sb_retained_bytes self) bytes);
  Ok (set_retained self (sb_retained_entries self + 1) retained).

(** [u64::try_from(path.as_os_str().len())], which succeeds on 64 bits. *)
Definition encoded_path_len (path : list byte) : N := len path.

Definition link_target_memory_bytes (target : LinkTarget) : Result N :=
  try_fold (λ total component,
    let bytes := match component with LinkParent => 1 | LinkNormal c => len (pc_bytes c) end in
    total ← ok_or IntegerOverflow (checked_add total 32);
    ok_or IntegerOverflow (checked_add total bytes)) 0 (lt_components target).

(** ** Calls *)

(** The attributes of a node that the tree does not have: the length of what
    is no file, the modification time and the mode. *)
Class Attributes (E : Type) := attributes : list Name → E → (N * option Z * N) * E.

Definition node_is_dir (node : Node) : bool := match node with DirNode => true | _ => false end.

Record PendingChild := { ch_path : list byte; ch_sort_key : list byte; ch_memory_charge : N }.

Definition scanned_entry (source : list byte) (archive_path : ArchivePath) (metadata : Metadata)
    (identity : option Identity) (kind : ScannedKind) : ScannedEntry := {|
  se_source := source; se_archive_path := archive_path; se_sort_key := ArchivePath_sort_key archive_path;
  se_metadata := metadata; se_identity := identity; se_kind := kind |}.

Section scan.
Context {E : Type} `{Env E} `{Disturb E} `{Attributes E}.

(** [fs::symlink_metadata], with all attributes. *)
Definition scan_metadata (path : list byte) : M (FS E) (Node * Metadata) :=
  '(at_, node) ← stat false path;
  fs ← files;
  '(length, modified, mode) ← observe (λ s : FS E, let '(a, e) := attributes at_ s.2 in (a, (s.1, e)));
  mret (node, {|
    md_len := match node with
              | FileNode inode => match ft_inodes fs !! inode with Some value => len (in_content value) | None => length end
              | _ => length
              end;
    md_modified := modified; md_mode := mode |}).

(** [same_file::Handle::from_path(path).ok()]: the device and the inode. *)
Definition file_identity (path : list byte) : M (FS E) (option Identity) := λ s,
  match locate true path s with
  | (Ok (At _ (FileNode inode)), s) => (Ok (Some (0, inode)), s)
  | (_, s) => (Ok None, s)
  end.

(** [fs::metadata(path)?.is_dir()]. *)
Definition is_dir_followed (path : list byte) : M (FS E) bool :=
  '(_, node) ← stat true path;
  mret (node_is_dir node).

(** ** The walk *)

Variable limits : DecodeLimits.
Abbreviation Scanned := (list ScannedEntry * ScanBudget)%type.

(** The body of the loop over [fs::read_dir]. *)
Definition collect_child (directory : list byte) (acc : list PendingChild * ScanBudget) (name : Name) :
    M (FS E) (list PendingChild * ScanBudget) :=
  let '(children, budget) := acc in
  checkpoint;;
  lift (ScanBudget_ensure_pending_slot budget (len children));;
  io;;
  let path := path_push directory name in
  name ← lift (ok_or UnsafePath (Path_file_name path));
  archive_path ← lift (ArchivePath_from_relative name);
  let sort_key := ArchivePath_sort_key archive_path in
  memory_charge ← lift (ok_or IntegerOverflow
    (checked_sum [PENDING_CHILD_MEMORY_OVERHEAD; encoded_path_len path; len sort_key]));
  budget ← lift (ScanBudget_reserve_transient budget memory_charge);
  mret (children ++ [{| ch_path := path; ch_sort_key := sort_key; ch_memory_charge := memory_charge |}], budget).

(** [scan_node] of a child, at one level less. *)
Variable scan_child : list byte → list byte → Scanned → M (FS E) Scanned.

Definition scan_one (archive_prefix : list byte) (acc : Scanned) (child : PendingChild) : M (FS E) Scanned :=
  checkpoint;;
  name ← lift (ok_or UnsafePath (Path_file_name (ch_path child)));
  let archive_path := path_push archive_prefix name in
  '(entries, budget) ← scan_child (ch_path child) archive_path acc;
  mret (entries, ScanBudget_release_transient budget (ch_memory_charge child)).

(** [sort_unstable_by]: the names of a directory differ, so that no two keys
    are equal. *)
Definition scan_directory_children (directory archive_prefix : list byte) (acc : Scanned) : M (FS E) Scanned :=
  let '(entries, budget) := acc in
  names ← read_dir directory;
  '(children, budget) ← fold_m (collect_child directory) ([], budget) names;
  let children := insertion_sort (compare_on ch_sort_key compare_bytes) children in
  fold_m (scan_one archive_prefix) (entries, budget) children.
End scan.

Section scan_node.
Context {E : Type} `{Env E} `{Disturb E} `{Attributes E}.
Variables (limits : DecodeLimits) (root_scope : list byte).

Definition scan_link (source : list byte) (archive_path : ArchivePath) (metadata : Metadata)
    (acc : list ScannedEntry * ScanBudget) : M (FS E) (list ScannedEntry * ScanBudget) :=
  let '(entries, budget) := acc in
  target_path ← read_link source;
  target ← lift (LinkTarget_from_relative target_path);
  if negb (LinkTarget_resolves_within target archive_path) then fail UnsafeSymlink else
  canonical_target ← canonicalize source;
  if negb (Path_starts_with canonical_target root_scope) then fail UnsafeSymlink else
  target_is_dir ← is_dir_followed source;
  kind_bytes ← lift (link_target_memory_bytes target);
  budget ← lift (ScanBudget_retain_entry budget source archive_path (ArchivePath_sort_key archive_path) kind_bytes);
  mret (entries ++ [scanned_entry source archive_path metadata None (ScannedSymlink target target_is_dir)], budget).

(** The depth of the walk is bounded by the limit on the components of a
    path. *)
Fixpoint scan_node (fuel : nat) (source relative : list byte) (acc : list ScannedEntry * ScanBudget) :
    M (FS E) (list ScannedEntry * ScanBudget) :=
  checkpoint;;
  '(node, metadata) ← scan_metadata source;
  archive_path ← lift (ArchivePath_from_relative relative);
  lift (validate_archive_path archive_path limits);;
  let sort_key := ArchivePath_sort_key archive_path in
  match node with
  | LinkNode _ => scan_link source archive_path metadata acc
  | DirNode =>
      let '(entries, budget) := acc in
      budget ← lift (ScanBudget_retain_entry budget source archive_path sort_key 0);
      let entries := entries ++ [scanned_entry source archive_path metadata None ScannedDirectory] in
      match fuel with
      | O => fail out_of_fuel
      | S fuel => scan_directory_children (scan_node fuel) source relative (entries, budget)
      end
  | FileNode _ =>
      let '(entries, budget) := acc in
      identity ← file_identity source;
      budget ← lift (ScanBudget_retain_entry budget source archive_path sort_key 0);
      mret (entries ++ [scanned_entry source archive_path metadata identity ScannedFile], budget)
  end.
End scan_node.

Section scan_inputs.
Context {E : Type} `{Env E} `{Disturb E} `{Attributes E}.
Variable limits : DecodeLimits.

Definition scan_fuel : nat := N.to_nat (max_path_components limits).

(** The body of the loop over the inputs. *)
Definition scan_input (single_directory : bool) (acc : list ScannedEntry * ScanBudget) (input : list byte) :
    M (FS E) (list ScannedEntry * ScanBudget) :=
  checkpoint;;
  node ← symlink_metadata input;
  root_scope ← canonicalize (if node_is_dir node then input else parent_or_dot input);
  if single_directory
  then scan_directory_children (scan_node limits root_scope scan_fuel) input [] acc
  else
    name ← lift (ok_or UnsafePath (Path_file_name input));
    scan_node limits root_scope scan_fuel input name acc.

(** Of entries with equal keys, which [sort_unstable_by] may order in any way,
    there is an error. *)
Definition scan_inputs (inputs : list (list byte)) : M (FS E) (list ScannedEntry) :=
  let budget := ScanBudget_new limits in
  if max_entries limits <? len inputs then fail (ResourceLimit "entry count") else
  single_directory ← (match inputs with
                      | [input] => node ← symlink_metadata input; mret (node_is_dir node)
                      | _ => mret false
                      end);
  '(entries, _) ← fold_m (scan_input single_directory) ([], budget) inputs;
  let entries := insertion_sort (compare_on se_sort_key compare_bytes) entries in
  if existsb (λ pair, bool_decide (se_sort_key pair.1 = se_sort_key pair.2)) (windows2 entries)
  then fail (InvalidMetadata "duplicate input path") else
  mret entries.
End scan_inputs.
