(* ===== verification/Encoding.v ===== *)
(** * Encoding a solid group ([crates/pithos-engine/src/lib.rs])

    [encode_solid_group] reads the members of a group and keeps the cheapest
    encoding of their concatenation. *)

From S2P Require Import Prelude Core Effects Bytes Format Codecs Planner Paths Catalog Inputs Memory Stable Pack.

(** The order by which candidates replace each other. *)
Definition no_better (id : CodecId) (payload : list byte) (other : CodecId) (encoded : list byte) : Prop :=
  len payload < len encoded ∨ len payload = len encoded ∧ CodecId_as_u16 id <= CodecId_as_u16 other.

Section encoding.
Context {S : Type} `{Env S} `{FileSystem S} `{Crc32c} `{Blake3} `{Backends}.

Definition encodes (id : CodecId) (input payload : list byte) : Prop :=
  ∃ st, Codec_encode id input (CodecConfig_deterministic_default id) = Ok (st, payload).

Definition candidate_cost (length : N) : CandidateCost := {|
  cc_payload := length; cc_codec_descriptor := 16; cc_group_descriptor := 48; cc_index_delta := 0;
  cc_integrity := 4; cc_padding := 0 |}.

Lemma candidate_total length total :
  CandidateCost_total (candidate_cost length) = Ok total → total = length + 68.
Proof.
  rewrite CandidateCost_total_spec. cbn. destruct (_ <=? _); [|done]. intros [= <-]. lia.
Qed.

(** The best of the candidates seen so far. *)
Definition best_of (input : list byte) (seen : list CodecId)
    (best : option (CodecId * CandidateCost * list byte)) : Prop :=
  match best with
  | None => seen = []
  | Some (id, cost, payload) => id ∈ seen ∧ cost = candidate_cost (len payload) ∧ encodes id input payload ∧
      ∀ other, other ∈ seen → ∃ encoded, encodes other input encoded ∧ no_better id payload other encoded
  end.

Lemma best_of_first input seen id payload :
  seen = [] → encodes id input payload →
  best_of input (seen ++ [id]) (Some (id, candidate_cost (len payload), payload)).
Proof.
  intros -> He. cbn. split; [by left|]. split; [done|]. split; [done|].
  intros other ->%list_elem_of_singleton. exists payload. split; [done|]. by right.
Qed.

Lemma best_of_replace input seen id0 cost0 payload0 id payload :
  best_of input seen (Some (id0, cost0, payload0)) → encodes id input payload →
  no_better id payload id0 payload0 →
  best_of input (seen ++ [id]) (Some (id, candidate_cost (len payload), payload)).
Proof.
  intros (_ & _ & _ & Hall) He Hb. cbn. split; [apply elem_of_app; right; by left|].
  split; [done|]. split; [done|]. intros other [Ho| ->%list_elem_of_singleton]%elem_of_app.
  - destruct (Hall _ Ho) as (encoded & ? & Hn). exists encoded. split; [done|].
    unfold no_better in *. lia.
  - exists payload. split; [done|]. by right.
Qed.

Lemma best_of_keep input seen id0 cost0 payload0 id payload :
  best_of input seen (Some (id0, cost0, payload0)) → encodes id input payload →
  no_better id0 payload0 id payload →
  best_of input (seen ++ [id]) (Some (id0, cost0, payload0)).
Proof.
  intros (Hin & Hc & He0 & Hall) He Hb. cbn. split; [apply elem_of_app; by left|].
  split; [done|]. split; [done|]. intros other [Ho| ->%list_elem_of_singleton]%elem_of_app; eauto.
Qed.

Lemma candidate_step_run input seen best id s best' s' :
  best_of input seen best → candidate_step input best id s = (Ok best', s') →
  best_of input (seen ++ [id]) best'.
Proof.
  intros Hb. unfold candidate_step. intros Hr. m_inv.
  match goal with Hx : Codec_encode _ _ _ = Ok (?st, ?p) |- _ =>
    pose proof (Codec_encode_stats _ _ _ _ _ Hx) as Hst; rename p into payload;
    assert (He : encodes id input payload) by (by eexists) end.
  rewrite Hst in *. fold (candidate_cost (len payload)) in *.
  destruct best as [[[id0 cost0] payload0]|].
  - match goal with Hx : (_ ≫= _) = Ok ?b |- _ => rename b into replace; rename Hx into Hrep end.
    pose proof Hb as (_ & -> & _). apply bind_Ok in Hrep as (total & Ht & Hrep).
    apply bind_Ok in Hrep as (total0 & Ht0 & Hrep). apply candidate_total in Ht as ->, Ht0 as ->.
    injection Hrep as <-. destruct (_ || _) eqn:E; m_inv.
    + eapply best_of_replace; [exact Hb|done|]. unfold no_better.
      apply orb_true_iff in E as [E|E]; arith_inv; lia.
    + eapply best_of_keep; [exact Hb|done|]. unfold no_better.
      apply orb_false_iff in E as [E1 [E2|E2]%andb_false_iff]; arith_inv; lia.
  - invres. by apply best_of_first.
Qed.

Lemma candidates_run input candidates s best s' :
  fold_m (candidate_step input) None candidates s = (Ok best, s') → best_of input candidates best.
Proof.
  intros Hf. apply (fold_m_inv (λ seen best _, best_of input seen best) _ []) in Hf; [done| |done].
  intros seen id b s1 b' s1' _ Hb Hr. by eapply candidate_step_run.
Qed.
(** The concatenation of the members. *)
Lemma members_run `{!StableFiles S} members input s s' :
  fold_m (λ input source, checkpoint;; checkpoint;; bytes ← read_verified_source source; mret (input ++ bytes))
    [] members s = (Ok input, s') →
  input = concat (map (λ source, contents (src_path source)) members) ∧
  Forall (λ source, len (contents (src_path source)) = src_size source) members.
Proof.
  intros Hf. apply (fold_m_inv (λ done_ input _, input = concat (map (λ source, contents (src_path source)) done_) ∧
    Forall (λ source, len (contents (src_path source)) = src_size source) done_) _ []) in Hf; [done| |done].
  intros done_ source acc s1 acc' s2 _ [-> Hall] Hr. m_inv.
  match goal with Hx : read_verified_source _ _ = _ |- _ => apply read_verified_source_Ok in Hx as [-> Hl] end.
  split; [by rewrite map_app, concat_app; cbn; rewrite app_nil_r|]. apply Forall_app. split; [done|].
  by constructor.
Qed.

Lemma encode_solid_group_run `{!StableFiles S} members candidates s envelope s' :
  encode_solid_group members candidates s = (Ok envelope, s') →
  let input := concat (map (λ source, contents (src_path source)) members) in
  Forall (λ source, len (contents (src_path source)) = src_size source) members ∧
  ∃ id payload, envelope = u16_le (CodecId_as_u16 id) ++ payload ∧ id ∈ candidates ∧
    encodes id input payload ∧
    ∀ other, other ∈ candidates → ∃ encoded, encodes other input encoded ∧ no_better id payload other encoded.
Proof.
  intros Hr. unfold encode_solid_group in Hr. m_inv.
  match goal with Hx : fold_m (candidate_step _) _ _ _ = _ |- _ => apply candidates_run in Hx as Hbest end.
  match goal with Hx : fold_m _ [] members _ = _ |- _ => apply members_run in Hx as [-> Hall] end.
  split; [done|]. invres. cbn in Hbest. destruct Hbest as (Hin & _ & He & Hmin). eexists _, _. eauto.
Qed.
End encoding.

(** C12: the encoding of a solid group.  If encoding succeeds, whatever the
    environment does, over files that do not change, the envelope names one
    of the profile's codecs, its payload is that codec's encoding of the
    members' concatenated bytes and decodes to them, and no candidate encodes
    shorter: ties go to the smallest codec identifier, so that with STORE
    among the candidates a group never grows. *)
Theorem encode_solid_group_correct {S : Type} `{StableFiles S} `{Crc32c} `{Blake3} `{BackendLaws}
    members candidates (s s' : S) envelope :
  encode_solid_group members candidates s = (Ok envelope, s') →
  let input := concat (map (λ source, contents (src_path source)) members) in
  ∃ id payload, envelope = u16_le (CodecId_as_u16 id) ++ payload ∧ id ∈ candidates ∧
    encodes id input payload ∧
    (len input <= u64_MAX - N.of_nat COPY_BUFFER_SIZE → Codec_decode id payload (len input) = Some (Ok input)) ∧
    (∀ other, other ∈ candidates → ∃ encoded, encodes other input encoded ∧ no_better id payload other encoded) ∧
    (Store ∈ candidates → len payload <= len input).
Proof.
  intros Hr input. apply encode_solid_group_run in Hr as (_ & id & payload & -> & Hin & [st He] & Hmin).
  exists id, payload. split; [done|]. split; [done|]. split; [by exists st|]. split; [|split; [done|]].
  - intros Hl. eapply Codec_decode_encode; [apply _|exact He|done].
  - intros Hs. destruct (Hmin _ Hs) as (encoded & [st' Hst] & Hn).
    assert (encoded = input) as -> by (unfold Codec_encode, StoreCodec_encode in Hst; by res_inv).
    unfold no_better in Hn. lia.
Qed.

(** ** A sample group *)

(** Two files that together are one long run of zeros, and a compressor that
    has a short code for it. *)
Module EncodedSample.

Definition run : list byte := zeros 12.

Definition pack_run (tag : N) (input : list byte) (level : Z) : Result (list byte) :=
  Ok (if bool_decide (input = run) then [byte_of tag] else byte_of 1 :: input).

Definition unpack_run (tag : N) (data : list byte) : list byte * option PithosError :=
  match data with
  | [] => ([], Some InvalidRange)
  | b :: rest => (if bool_decide (b = byte_of tag) then run else rest, None)
  end.

Definition backends : Backends := {|
  zstd_encode_all := pack_run 2; zstd_decoder := unpack_run 2;
  brotli_compress := pack_run 3; brotli_decompressor := unpack_run 3;
  lzma_encode_all := pack_run 4; xz_decoder := unpack_run 4 |}.

Lemma unpack_pack tag input level data :
  byte_of tag ≠ byte_of 1 → pack_run tag input level = Ok data → unpack_run tag data = (input, None).
Proof.
  intros Ht. unfold pack_run, unpack_run. case_bool_decide as E; intros [= <-].
  - by rewrite bool_decide_true, E.
  - by rewrite bool_decide_false by congruence.
Qed.

Lemma backends_laws : @BackendLaws backends.
Proof. split; intros input level data; by apply unpack_pack. Qed.

Definition name (k : N) : list byte := [byte_of k].
Definition content (path : list byte) : list byte :=
  if bool_decide (path = name 1) then zeros 5 else if bool_decide (path = name 2) then zeros 7 else [].
Definition inode (path : list byte) : option Identity := None.

Definition source (k : N) : CompressedSource := {|
  src_entry_id := k; src_path := name k; src_size := len (content (name k));
  src_hash := take 32 (content (name k) ++ zeros 32); src_modified := Some 7%Z; src_identity := None |}.

End EncodedSample.

Lemma encode_solid_group_correct_witness :
  let input := zeros 12 in
  ∃ id payload, u16_le 1 ++ [byte_of 2] = u16_le (CodecId_as_u16 id) ++ payload ∧ id ∈ [Store; Zstd] ∧
    @encodes EncodedSample.backends id input payload ∧
    (len input <= u64_MAX - N.of_nat COPY_BUFFER_SIZE →
      @Codec_decode EncodedSample.backends id payload (len input) = Some (Ok input)) ∧
    (∀ other, other ∈ [Store; Zstd] → ∃ encoded,
      @encodes EncodedSample.backends other input encoded ∧ no_better id payload other encoded) ∧
    (Store ∈ [Store; Zstd] → len payload <= len input).
Proof.
  pose (hash := (λ data, take 32 (data ++ zeros 32)) : Blake3).
  apply (@encode_solid_group_correct Open memory_env
    (memory_files EncodedSample.content EncodedSample.inode)
    (memory_stable EncodedSample.content EncodedSample.inode) crc32c_castagnoli hash
    EncodedSample.backends EncodedSample.backends_laws
    [EncodedSample.source 1; EncodedSample.source 2] [Store; Zstd]
    {| open_files := [] |} {| open_files := [[]; []] |} (u16_le 1 ++ [byte_of 2])).
  vm_compute. reflexivity.
Defined.
