(* ===== verification/Seal.v ===== *)
(** * What a packed archive contains

    The layout of the file that [seal_archive] writes, and the proof that
    [read_catalog] finds in it the tables that were written: reading inverts
    writing. *)

From S2P Require Import Prelude Core Effects Bytes Format Codecs Planner.
From S2P Require Import Sorting TaskScheduler Paths Catalog Inputs Stable Pack.

(** ** Reading the sections back *)

Lemma read_exact_Ok file offset length bytes :
  read_exact file offset length = Ok bytes →
  offset + length <= len file ∧ bytes = sub (N.to_nat offset) (N.to_nat length) file.
Proof. unfold read_exact. destruct (N.leb_spec (offset + length) (len file)); [|done]. by intros [= <-]. Qed.

Lemma read_exact_vec_Ok file offset length maximum bytes :
  read_exact_vec file offset length maximum = Ok bytes →
  offset + length <= len file ∧ bytes = sub (N.to_nat offset) (N.to_nat length) file.
Proof. unfold read_exact_vec. intros Hr. invres. by apply read_exact_Ok. Qed.

Lemma directory_step_Ok m chunk m' :
  directory_step m chunk = Ok m' →
  let r := SectionDirectoryRecord_decode chunk in
  m !! sd_section_type r = None ∧ m' = <[sd_section_type r := r]> m.
Proof.
  unfold directory_step. intros Hs. res_inv. arith_inv. split; [|done].
  by apply eq_None_not_Some.
Qed.

Lemma directory_fold m secs m' :
  Forall SectionDirectoryRecord_wf secs →
  try_fold directory_step m (map SectionDirectoryRecord_encode secs) = Ok m' →
  (∀ k r, m !! k = Some r → m' !! k = Some r) ∧
  ∀ r, r ∈ secs → m' !! sd_section_type r = Some r.
Proof.
  intros Hwf. revert m; induction Hwf as [|s secs Hs Hwf IH]; intros m; cbn [map try_fold].
  { intros [= <-]. split; [done|]. by intros r ?%not_elem_of_nil. }
  intros (m1 & Hstep & Hf)%bind_Ok. apply directory_step_Ok in Hstep as [Hnone ->].
  rewrite SectionDirectoryRecord_decode_encode in Hnone, Hf by done.
  destruct (IH _ Hf) as [Hkeep Hin]. split.
  - intros k r Hk. apply Hkeep. rewrite lookup_insert_ne; [done|]. congruence.
  - intros r [->|Hr]%elem_of_cons; [|by apply Hin]. apply Hkeep. apply lookup_insert_eq.
Qed.

Lemma directory_length (secs : list SectionDirectoryRecord) :
  length (concat (map SectionDirectoryRecord_encode secs)) = (length secs * SECTION_ENTRY_LEN)%nat.
Proof.
  induction secs as [|s secs IH]; [done|]. cbn [map concat]. rewrite length_app, IH. reflexivity.
Qed.

(** The file of a header, its directory, and the sections in [body]. *)
Record layout `{Crc32c} (header : GlobalHeader) (secs : list SectionDirectoryRecord)
    (body foot archive : list byte) : Prop := {
  layout_bytes : archive = GlobalHeader_encode header ++
    concat (map SectionDirectoryRecord_encode secs) ++ body ++ foot;
  layout_header : GlobalHeader_wf header ∧ header_version_ok header = true;
  layout_sections : Forall SectionDirectoryRecord_wf secs;
  layout_count : gh_section_count header = len secs;
  layout_start : gh_section_directory_offset header = N.of_nat HEADER_LEN;
}.

Section read_back.
Context `{Crc32c} `{Laws : !Crc32cLaws}.

Lemma layout_read_sections header secs body foot archive limits h f dl m :
  layout header secs body foot archive → read_sections archive limits = Ok (h, f, dl, m) →
  h = header ∧ ∀ r, r ∈ secs → m !! sd_section_type r = Some r.
Proof.
  intros [Harch [Hwf Hv] Hsecs Hcount Hstart]. unfold read_sections. cbv zeta. intros Hr.
  pose proof (GlobalHeader_encode_length _ Hwf) as Hhl.
  apply if_Err_Ok in Hr as [_ Hr]. apply bind_Ok in Hr as (hb & Hhb & Hr).
  apply read_exact_Ok in Hhb as [_ ->]. apply bind_Ok in Hr as (h' & Hh & Hr).
  assert (sub 0 (N.to_nat (N.of_nat HEADER_LEN)) archive = GlobalHeader_encode header) as Hsub.
  { rewrite Nat2N.id, Harch. by apply sub_app_fst. }
  change (N.to_nat 0) with 0%nat in Hh. rewrite Hsub, GlobalHeader_decode_encode_aux in Hh by done.
  injection Hh as <-. apply bind_Ok in Hr as (? & _ & Hr). apply bind_Ok in Hr as (fb & _ & Hr).
  apply bind_Ok in Hr as (f' & _ & Hr). apply if_Err_Ok in Hr as [_ Hr].
  apply bind_Ok in Hr as (dl' & Hdl & Hr). apply bind_Ok in Hr as (de & _ & Hr).
  apply if_Err_Ok in Hr as [_ Hr]. apply bind_Ok in Hr as (db & Hdb & Hr).
  apply read_exact_vec_Ok in Hdb as [_ ->]. apply if_Err_Ok in Hr as [_ Hr].
  apply bind_Ok in Hr as (m' & Hm & Hr). apply bind_Ok in Hr as (? & _ & Hr).
  apply bind_Ok in Hr as (? & _ & Hr). injection Hr as <- _ _ <-. split; [done|].
  apply ok_or_Ok, checked_mul_Some in Hdl as [-> _]. rewrite Hstart, Hcount in Hm.
  replace (sub _ _ archive) with (concat (map SectionDirectoryRecord_encode secs)) in Hm.
  - rewrite chunks_exact_concat in Hm; [by apply directory_fold in Hm as [_ ?]|by vm_compute; lia|].
    apply Forall_map, Forall_true. intros r. reflexivity.
  - rewrite Nat2N.id, Harch, sub_app_skip by (rewrite Hhl; done).
    rewrite Hhl, Nat.sub_diag. symmetry. apply sub_app_fst. rewrite directory_length. unfold len. lia.
Qed.

(** The bytes of a section in the body. *)
Definition located (secs : list SectionDirectoryRecord) (archive : list byte)
    (section_type : SectionType) (bytes : list byte) : Prop :=
  ∃ r, r ∈ secs ∧ sd_section_type r = SectionType_as_u16 section_type ∧
    sub (N.to_nat (sd_offset r)) (N.to_nat (sd_length r)) archive = bytes.

Lemma located_read {T} `{CatalogJson} secs archive limits (m : Sections) section_type bytes
    (parse : list byte → option T) section v w :
  (∀ r, r ∈ secs → m !! sd_section_type r = Some r) → located secs archive section_type bytes →
  required_section m section_type = Ok section → parse bytes = Some v →
  read_json_section parse archive section limits = Ok w → w = v.
Proof.
  intros Hm (r & Hr & Ht & Hb) Hs Hp. unfold required_section in Hs. apply ok_or_Ok in Hs.
  rewrite <-Ht, (Hm r Hr) in Hs. injection Hs as <-. unfold read_json_section.
  intros (b & Hrd & Hw)%bind_Ok. apply read_exact_vec_Ok in Hrd as [_ ->]. rewrite Hb in Hw.
  destruct (negb _); [done|]. rewrite Hp in Hw. by injection Hw as <-.
Qed.
End read_back.

(** The tables whose serializations the sections hold. *)
Record stored `{Crc32c} `{SerdeJson} (secs : list SectionDirectoryRecord) (archive : list byte)
    (entries : list EntryRecord) (groups : list GroupTableRecord) (restore_map : list RestoreMapRecord)
    (registry : option CodecRegistry) : Prop := {
  stored_entries : ∃ b, write_entries entries = Some b ∧ located secs archive EntryTable b;
  stored_groups : ∃ b, write_groups groups = Some b ∧ located secs archive GroupTable b;
  stored_restore : ∃ b, write_restore_map restore_map = Some b ∧ located secs archive RestoreMap b;
  stored_registry :
    match registry with
    | None => len secs = REQUIRED_RAW_SECTIONS
    | Some records => len secs = REQUIRED_COMPRESSED_SECTIONS ∧
        ∃ b, CodecRegistry_decode b 32 = Ok records ∧ located secs archive CodecRegistrySection b
    end;
}.

Section read_tables.
Context `{Crc32c} `{Laws : !Crc32cLaws} `{SerdeJson} `{JsonLaws : !SerdeJsonLaws}.

Lemma stored_read_registry secs archive registry limits (m : Sections) header reg :
  gh_section_count header = len secs →
  (∀ r, r ∈ secs → m !! sd_section_type r = Some r) →
  match registry with
  | None => len secs = REQUIRED_RAW_SECTIONS
  | Some records => len secs = REQUIRED_COMPRESSED_SECTIONS ∧
      ∃ b, CodecRegistry_decode b 32 = Ok records ∧ located secs archive CodecRegistrySection b
  end →
  let codec_section := m !! SectionType_as_u16 CodecRegistrySection in
  (gh_section_count header =? REQUIRED_RAW_SECTIONS) && bool_decide (is_Some codec_section) ||
  (gh_section_count header =? REQUIRED_COMPRESSED_SECTIONS) && bool_decide (codec_section = None) = false →
  match codec_section with
  | Some section =>
      bytes ← read_checked_section archive section limits;
      registry ← CodecRegistry_decode bytes 32;
      Ok (Some registry)
  | None => Ok None
  end = Ok reg → reg = registry.
Proof.
  intros Hc Hm Hreg codec_section Hcount Hread. rewrite Hc in Hcount.
  destruct registry as [records|].
  - destruct Hreg as (_ & b & Hdec & r & Hr & Ht & Hb). unfold codec_section in *.
    rewrite <-Ht, (Hm r Hr) in Hread. unfold read_checked_section in Hread. res_inv.
    match goal with H : read_exact_vec _ _ _ _ = Ok _ |- _ => apply read_exact_vec_Ok in H as [_ ->] end.
    congruence.
  - rewrite Hreg in Hcount. rewrite N.eqb_refl in Hcount. cbn [andb] in Hcount.
    apply orb_false_iff in Hcount as [Hcount _]. apply bool_decide_eq_false in Hcount.
    destruct codec_section; [destruct Hcount; eauto|]. by injection Hread as <-.
Qed.

Lemma stored_read_tables header secs body foot archive entries groups restore_map registry limits dl
    (m : Sections) tables :
  layout header secs body foot archive →
  stored secs archive entries groups restore_map registry →
  (∀ r, r ∈ secs → m !! sd_section_type r = Some r) →
  read_tables archive limits header dl m = Ok tables →
  tb_entries tables = entries ∧ tb_groups tables = groups ∧ tb_restore_map tables = restore_map ∧
  tb_codec_registry tables = registry.
Proof.
  intros Hl [(eb & He & Hle) (gb & Hg & Hlg) (rb & Hr & Hlr) Hreg] Hm Ht.
  unfold read_tables in Ht. cbv zeta in Ht. res_inv.
  repeat match goal with
  | H : required_section m EntryTable = Ok _, H' : read_json_section json_entries _ _ _ = Ok _ |- _ =>
      apply (located_read _ _ _ _ _ _ _ _ _ _ Hm Hle H (entries_inverse _ _ He)) in H'
  | H : required_section m GroupTable = Ok _, H' : read_json_section json_groups _ _ _ = Ok _ |- _ =>
      apply (located_read _ _ _ _ _ _ _ _ _ _ Hm Hlg H (groups_inverse _ _ Hg)) in H'
  | H : required_section m RestoreMap = Ok _, H' : read_json_section json_restore_map _ _ _ = Ok _ |- _ =>
      apply (located_read _ _ _ _ _ _ _ _ _ _ Hm Hlr H (restore_map_inverse _ _ Hr)) in H'
  end.
  cbn. subst. split; [done|]. split; [done|]. split; [done|].
  eapply stored_read_registry; [apply (layout_count _ _ _ _ _ Hl)|exact Hm|exact Hreg|eassumption|eassumption].
Qed.

(** Reading inverts writing. *)
Lemma stored_read_catalog header secs body foot archive entries groups restore_map registry limits p :
  layout header secs body foot archive →
  stored secs archive entries groups restore_map registry →
  run_calm (read_catalog archive limits) = Ok p →
  pa_entries p = entries ∧ pa_groups p = groups ∧ pa_restore_map p = restore_map ∧
  pa_codec_registry p = registry.
Proof.
  intros Hl Hs. unfold read_catalog. rewrite run_calm_bind, run_calm_checkpoint. cbn [mbind result_bind].
  rewrite run_calm_bind, run_calm_lift.
  destruct (read_sections archive limits) as [[[[h f] dl] m]|] eqn:Hr; [|done].
  destruct (layout_read_sections _ _ _ _ _ _ _ _ _ _ Hl Hr) as [-> Hm].
  cbn [mbind result_bind]. rewrite run_calm_bind, run_calm_lift.
  destruct (read_tables _ _ _ _ _) as [tables|] eqn:Ht; [|done]. cbn [mbind result_bind].
  destruct (stored_read_tables _ _ _ _ _ _ _ _ _ _ _ _ _ Hl Hs Hm Ht) as (<- & <- & <- & <-).
  unfold check_tables. intros Hc. calm_inv. done.
Qed.
End read_tables.

(** ** Sealing *)

Lemma spool_seek_Ok {S} `{FileSystem S} offset spool s spool' s' :
  spool_seek offset spool s = (Ok spool', s') → spool' = {| sl_bytes := sl_bytes spool; sl_position := offset |}.
Proof. unfold spool_seek. intros Hr. by m_inv. Qed.
Lemma spool_write_Ok {S} `{FileSystem S} bytes spool s spool' s' :
  spool_write bytes spool s = (Ok spool', s') → spool' = spool_put bytes spool.
Proof. unfold spool_write. intros Hr. by m_inv. Qed.

Lemma put_nonempty off src buf : src ≠ [] → put off src buf ≠ [].
Proof. unfold put. intros Hs. destruct src; [done|]. by destruct (take off buf). Qed.

Lemma Footer_encode_nonempty `{Crc32c} f : Footer_encode f ≠ [].
Proof. unfold Footer_encode. cbv zeta. apply put_nonempty. done. Qed.

Lemma located_in_body `{Crc32c} header secs body foot archive start section_type pre bytes post crc :
  layout header secs body foot archive → body = pre ++ bytes ++ post →
  start = N.of_nat HEADER_LEN + N.of_nat (length secs * SECTION_ENTRY_LEN) →
  section_record section_type (start + len pre) (len bytes) crc ∈ secs →
  located secs archive section_type bytes.
Proof.
  intros [Ha [Hwf _] _ _ _] -> -> Hin. eexists. split; [exact Hin|]. split; [done|]. cbn [section_record sd_offset sd_length].
  rewrite Ha, app_assoc, sub_app_skip.
  - rewrite length_app, directory_length, (GlobalHeader_encode_length _ Hwf). unfold len.
    rewrite <-!app_assoc. apply sub_app_here; lia.
  - rewrite length_app, directory_length, (GlobalHeader_encode_length _ Hwf). unfold len. lia.
Qed.

#[export] Instance compare_section_preorder : TotalPreorder compare_section.
Proof.
  unfold compare_section. split.
  - intros x y. apply N.compare_antisym.
  - intros x y z. rewrite !N.compare_gt_iff. lia.
Qed.

Lemma sorted_perm sections : insertion_sort compare_section sections ≡ₚ sections.
Proof. apply insertion_sort_stable; apply _. Qed.
Lemma sorted_length sections : length (insertion_sort compare_section sections) = length sections.
Proof. apply Permutation_length, sorted_perm. Qed.

Lemma sorted_located `{Crc32c} header sections body foot archive start section_type pre bytes post crc :
  layout header (insertion_sort compare_section sections) body foot archive → body = pre ++ bytes ++ post →
  start = N.of_nat HEADER_LEN + N.of_nat (length sections * SECTION_ENTRY_LEN) →
  section_record section_type (start + len pre) (len bytes) crc ∈ sections →
  located (insertion_sort compare_section sections) archive section_type bytes.
Proof.
  intros Hl Hb Hs Hin. eapply located_in_body; [exact Hl|exact Hb|by rewrite sorted_length|].
  subst start. by rewrite sorted_perm.
Qed.

Section seal.
Context {S : Type} `{Env S} `{FileSystem S} `{Crc32c} `{Laws : !Crc32cLaws} `{Blake3}
  `{BLaws : !Blake3Laws} `{Backends} `{SerdeJson}.

Lemma write_section_Ok spool section_type bytes s r spool' s' start body :
  write_section spool section_type bytes s = (Ok (r, spool'), s') → holds start body spool →
  r = section_record section_type (start + len body) (len bytes) (crc32c bytes) ∧
  holds start (body ++ bytes) spool'.
Proof.
  unfold write_section. intros Hr Hh. m_inv.
  match goal with H : spool_write _ _ _ = _ |- _ => apply spool_write_Ok in H; subst end.
  destruct Hh as [Hp Hb]. rewrite Hp. split; [done|]. by apply holds_put.
Qed.

Lemma section_record_wf section_type offset length crc :
  offset <= u64_MAX → length <= u64_MAX → crc <= u32_MAX →
  SectionDirectoryRecord_wf (section_record section_type offset length crc).
Proof. intros. unfold SectionDirectoryRecord_wf. destruct section_type; cbn; repeat split; lia. Qed.

Lemma seal_archive_Ok spool sections metadata total ec cc gc sc limits s archive s' body :
  seal_archive spool sections metadata total ec cc gc sc limits s = (Ok archive, s') →
  holds (N.of_nat HEADER_LEN + N.of_nat (length sections * SECTION_ENTRY_LEN)) body spool →
  sections ≠ [] → Forall SectionDirectoryRecord_wf sections → sc = len sections →
  total <= u64_MAX → ec <= u64_MAX → cc <= u64_MAX → gc <= u64_MAX → sc <= u32_MAX →
  ∃ header foot p, layout header (insertion_sort compare_section sections) body foot archive ∧
    run_calm (verify_open_file archive limits) = Ok p.
Proof.
  intros Hr Hh Hne Hwf Hsc Ht He Hc Hg Hs32. unfold seal_archive in Hr. cbv zeta in Hr. m_inv.
  repeat match goal with
  | H : spool_seek _ _ _ = (Ok _, _) |- _ => apply spool_seek_Ok in H; subst
  | H : spool_write _ _ _ = (Ok _, _) |- _ => apply spool_write_Ok in H; subst
  end.
  match goal with H : verify_open_file (sl_bytes (spool_put (Footer_encode ?f) _)) _ ?s0 = (Ok ?p, _),
      _ : digest_range (sl_bytes (spool_put ?dir (spool_put (GlobalHeader_encode ?h) _))) _ _ _ = _ |- _ =>
    rename H into Hv; set (footer := f) in *; set (header := h) in *; set (directory := dir) in *;
    exists header, (Footer_encode footer), p end.
  pose proof Hh as [Hpos _].
  assert (Hhwf : GlobalHeader_wf header ∧ header_version_ok header = true).
  { split; [|done]. repeat split; cbn [header gh_major gh_minor gh_flags gh_archive_id gh_original_total_size gh_entry_count gh_logical_chunk_count gh_group_count gh_section_directory_offset gh_footer_offset gh_section_count GlobalHeader_new]; unfold MAJOR_VERSION, MINOR_VERSION, HEADER_LEN; try lia.
    - rewrite length_take, blake3_length. done.
    - rewrite Hpos in *. invres. lia. }
  assert (Hlen : len (GlobalHeader_encode header) + len directory =
    N.of_nat HEADER_LEN + N.of_nat (length sections * SECTION_ENTRY_LEN)).
  { unfold len, directory. rewrite (GlobalHeader_encode_length _ (proj1 Hhwf)), directory_length.
    by rewrite sorted_length. }
  destruct (sealed_bytes _ _ _ (GlobalHeader_encode header) directory (Footer_encode footer) Hh Hlen) as [_ Hb].
  - intros E. apply (f_equal length) in E. rewrite (GlobalHeader_encode_length _ (proj1 Hhwf)) in E. done.
  - intros E. apply (f_equal length) in E. unfold directory in E. rewrite directory_length in E.
    rewrite sorted_length in E. destruct sections; done.
  - apply Footer_encode_nonempty.
  - rewrite Hpos in *. split; [|exact (follows_Ok_inv _ _ _ _ _ (verify_open_file_follows _ limits) Hv)].
    split; [exact Hb|exact Hhwf| | |done].
    + by rewrite sorted_perm.
    + cbn. unfold len. by rewrite sorted_length.
Qed.
End seal.
