(* ===== verification/RoundTrip.v ===== *)
(** * Packing and extracting are inverse

    When files do not change while they are packed, an archive that packing
    commits passes verification, and extracting an entry from it writes
    exactly the bytes of the file it came from. *)

From S2P Require Import Prelude Core Effects Bytes Format Codecs Planner Sorting TaskScheduler.
From S2P Require Import Paths Catalog Extract Inputs Memory Stable Pack Seal.

(** ** Entries and the files they come from *)

Definition describes (e : EntryRecord) (scanned : ScannedEntry) : Prop :=
  er_path e = se_archive_path scanned ∧ er_modified_ns e = modified_ns (se_metadata scanned) ∧
  er_mode e = metadata_mode (se_metadata scanned).

(** [e] was made for [scanned]; [data] relates a file entry and its bytes. *)
Definition entry_from (data : EntryRecord → list byte → Prop) (content : list byte → list byte)
    (entries : list EntryRecord) (e : EntryRecord) (scanned : ScannedEntry) : Prop :=
  describes e scanned ∧
  match se_kind scanned with
  | ScannedDirectory => er_kind e = Directory
  | ScannedSymlink target target_is_dir => er_kind e = Symlink target target_is_dir
  | ScannedFile =>
      is_file e = true ∧ data e (content (se_source scanned)) ∨
      ∃ t target, er_kind e = Hardlink t ∧ entries !! N.to_nat t = Some target ∧
        is_file target = true ∧ data target (content (se_source scanned))
  end.

(** Names of one file have the same bytes. *)
Definition consistent (content : list byte → list byte) (scanned : list ScannedEntry) : Prop :=
  ∀ a b key, a ∈ scanned → b ∈ scanned → se_identity a = Some key → se_identity b = Some key →
    content (se_source a) = content (se_source b).

(** The hardlink table leads to entries with the right bytes. *)
Definition remembered (data : EntryRecord → list byte → Prop) (content : list byte → list byte)
    (entries : list EntryRecord) (scanned : list ScannedEntry) (hardlinks : Hardlinks) : Prop :=
  ∀ key t size hash, hardlinks !! key = Some (t, size, hash) →
    ∃ se target, se ∈ scanned ∧ se_identity se = Some key ∧ entries !! N.to_nat t = Some target ∧
      is_file target = true ∧ data target (content (se_source se)).

Lemma entry_from_mono (data data' : EntryRecord → list byte → Prop) content entries entries' e scanned :
  (∀ e c, data e c → data' e c) → (∀ i e, entries !! i = Some e → entries' !! i = Some e) →
  entry_from data content entries e scanned → entry_from data' content entries' e scanned.
Proof.
  intros Hd He [Hdesc Hk]. split; [done|]. destruct (se_kind scanned); try done.
  destruct Hk as [[? ?]|(t & target & ? & ? & ? & ?)]; [left; eauto|right; exists t, target; eauto 6].
Qed.

Lemma remembered_mono (data data' : EntryRecord → list byte → Prop) content entries entries' scanned hardlinks :
  (∀ e c, data e c → data' e c) → (∀ i e, entries !! i = Some e → entries' !! i = Some e) →
  remembered data content entries scanned hardlinks → remembered data' content entries' scanned hardlinks.
Proof.
  intros Hd He Hr key t size hash Hk. destruct (Hr _ _ _ _ Hk) as (se & target & ? & ? & ? & ? & ?).
  exists se, target. eauto 8.
Qed.

Lemma Forall2_entry_from_mono (data data' : EntryRecord → list byte → Prop) content entries entries' es scanned :
  (∀ e c, data e c → data' e c) → (∀ i e, entries !! i = Some e → entries' !! i = Some e) →
  Forall2 (entry_from data content entries) es scanned →
  Forall2 (entry_from data' content entries') es scanned.
Proof. intros Hd He Hf. eapply Forall2_impl; [exact Hf|]. intros e se. by apply entry_from_mono. Qed.

Lemma lookup_app_keep {A} (l k : list A) i x : l !! i = Some x → (l ++ k) !! i = Some x.
Proof. apply lookup_app_l_Some. Qed.

(** ** Extracting from an archive that passes verification *)

Section delivery.
Context `{Crc32c} `{Laws : !Crc32cLaws} `{Blake3} `{Backends} `{CatalogJson}.

(** Extracting [e] by any path that selects it writes [c], and reading a
    range of it writes that range of [c]. *)
Definition delivers (archive : list byte) (limits : DecodeLimits) (e : EntryRecord) (c : list byte) : Prop :=
  er_size e = len c ∧ er_blake3 e = blake3 c ∧
  ∀ path, ArchivePath_from_relative path = Ok (er_path e) →
  (∀ out, extract_to_writer_with_control (Ok archive) path limits out =
    (Ok (extract_report e (len c)), out ++ c)) ∧
  (∀ offset length out, offset + length <= len c → length <= max_group_output limits →
    ∃ report, read_range_to_writer_with_control (Ok archive) path offset length limits out =
    (Ok report, out ++ sub (N.to_nat offset) (N.to_nat length) c)).

(** The slice of the group's output that belongs to the file entry [j]. *)
Definition slice_is (archive : list byte) (limits : DecodeLimits) (p : ParsedArchive) (j : nat)
    (e : EntryRecord) (c : list byte) : Prop :=
  ∃ g, er_kind e = File g ∧ ∀ record r decoded,
    pa_groups p !! N.to_nat g = Some record → r ∈ mappings_of (pa_restore_map p) g →
    rm_entry_id r = N.of_nat j →
    gr_uncompressed_len (gt_group record) <= max_group_output limits →
    mapped 0 (mappings_of (pa_restore_map p) g) (gr_uncompressed_len (gt_group record)) →
    len (mappings_of (pa_restore_map p) g) = gr_chunk_count (gt_group record) →
    run_calm (decode_group archive record (pa_codec_registry p) limits) = Ok decoded →
    slice_of decoded r = c.

Lemma restored_slice_of decoded r content :
  restored_slice decoded r 0 (rm_length r) = Ok content → content = slice_of decoded r.
Proof. unfold restored_slice, slice_of. intros Hr. invres. f_equal; lia. Qed.

Lemma catalog_chunk_count limits p g record :
  catalog_ok limits p → pa_groups p !! N.to_nat g = Some record →
  len (mappings_of (pa_restore_map p) g) = gr_chunk_count (gt_group record).
Proof.
  intros Hok Hg. pose proof (catalog_groups _ _ Hok) as Hgs.
  enough (∀ position start groups i, groups_ok (pa_restore_map p) limits position start groups
    (sd_offset (pa_payload_section p) + sd_length (pa_payload_section p)) → groups !! i = Some record →
    len (mappings_of (pa_restore_map p) (position + N.of_nat i)) = gr_chunk_count (gt_group record)) as Hall.
  { rewrite <-(Hall _ _ _ _ Hgs Hg). f_equal. f_equal. lia. }
  clear. intros position start groups; revert position start; induction groups as [|g groups IH];
    intros position start [|i]; cbn [groups_ok]; try done.
  - intros Hg [= ->]. destruct_and!. by rewrite N.add_0_r.
  - intros Hg Hi. destruct_and!. replace (position + N.of_nat (S i)) with (position + 1 + N.of_nat i) by lia.
    by eapply IH.
Qed.

Lemma verified_delivers archive limits p i j e src c :
  run_calm (verify_open_file archive limits) = Ok p → pa_entries p !! i = Some e →
  is_file e || is_hardlink e = true → file_source_entry e (pa_entries p) = Ok src →
  pa_entries p !! j = Some src → slice_is archive limits p j src c → delivers archive limits e c.
Proof.
  intros Hv Hi Hk Hsrc Hj (g & Hg & Hslice).
  destruct (verified_extraction_exists _ _ _ _ _ Hv Hi Hk) as (q & src' & record & r & decoded & content & Hx).
  destruct (verify_open_file_catalog _ _ _ Hv) as (q' & Hq & He & Hgs & Hr & Hreg).
  pose proof Hx as [Hcat Hok _ _ Hs Hgroup Hrest Hdec Hsl Hh Hsz Hhash Hlen].
  rewrite Hcat in Hq. injection Hq as <-. rewrite He, Hsrc in Hs. injection Hs as <-.
  rewrite <-He in Hj. rewrite <-Hr, <-Hreg, <-Hgs in Hslice.
  destruct (file_lookups _ _ _ _ _ Hok Hj Hg) as (r' & record' & Hr' & Hrec & Hin & Hl & Hid & Hmax & Hm).
  destruct (catalog_entries _ _ Hok _ _ Hj) as (Hsid & _).
  rewrite Hsid, Hr' in Hrest. injection Hrest as ->.
  pose proof (Hgroup "") as Hrec'. unfold source_group in Hrec'. rewrite Hg, Hrec in Hrec'. injection Hrec' as ->.
  pose proof (Hslice _ _ _ Hrec Hin Hid Hmax Hm (catalog_chunk_count _ _ _ _ Hok Hrec) Hdec) as Hc.
  pose proof (restored_slice_of _ _ _ Hsl) as Hcontent. pose proof (restored_slice_length _ _ _ _ _ Hsl) as Hlc.
  rewrite Hc in Hcontent. subst content.
  assert (Hsize : er_size e = len c) by congruence.
  split; [done|]. split; [congruence|]. intros path Hp. split.
  - intros out. rewrite <-Hsize. by eapply extract_run.
  - intros offset length out Ho Hm'. assert (er_size e <= u64_MAX).
    { unfold restored_slice in Hsl. invres. lia. }
    destruct (read_range_run _ _ _ offset length _ _ _ _ _ _ _ out Hx Hp ltac:(lia) Hm') as (report & _ & ?); eauto.
Qed.

(** What packing promises of the entry made for [scanned]. *)
Definition packed_entry (content : list byte → list byte) (archive : list byte) (limits : DecodeLimits)
    (e : EntryRecord) (scanned : ScannedEntry) : Prop :=
  describes e scanned ∧
  match se_kind scanned with
  | ScannedDirectory => er_kind e = Directory
  | ScannedSymlink target target_is_dir => er_kind e = Symlink target target_is_dir
  | ScannedFile => is_file e || is_hardlink e = true ∧
      delivers archive limits e (content (se_source scanned))
  end.

Lemma verified_packed (data : EntryRecord → list byte → Prop) content archive limits p scanned :
  run_calm (verify_open_file archive limits) = Ok p →
  (∀ j e c, pa_entries p !! j = Some e → data e c → slice_is archive limits p j e c) →
  Forall2 (entry_from data content (pa_entries p)) (pa_entries p) scanned →
  Forall2 (packed_entry content archive limits) (pa_entries p) scanned.
Proof.
  intros Hv Hdata. rewrite !Forall2_lookup. intros Hf i. specialize (Hf i).
  destruct (pa_entries p !! i) as [e|] eqn:Hi; inversion Hf as [? se He|]; subst; [|constructor].
  constructor. destruct He as [Hdesc Hk]. split; [done|]. destruct (se_kind se); [|done|done].
  destruct Hk as [[Hfile Hd]|(t & target & Hkind & Ht & Hfile & Hd)].
  - rewrite Hfile. split; [done|]. eapply verified_delivers; [done|exact Hi|by rewrite Hfile| |exact Hi|by apply Hdata].
    unfold file_source_entry, is_file in *. by destruct (er_kind e).
  - assert (Hh : is_hardlink e = true) by (unfold is_hardlink; by rewrite Hkind).
    rewrite Hh, orb_true_r. split; [done|].
    eapply verified_delivers; [done|exact Hi|by rewrite Hh, orb_true_r| |exact Ht|by apply Hdata].
    unfold file_source_entry. by rewrite Hkind, Ht.
Qed.
End delivery.

(** ** The RAW profile *)

Definition raw_group (id offset : N) (block : list byte) (crc : N) : GroupTableRecord := {|
  gt_group := {| gr_version := 1; gr_flags := 0; gr_group_id := id; gr_codec_chain_id := 0;
    gr_chunk_count := 1; gr_uncompressed_len := len block; gr_compressed_len := len block;
    gr_descriptor_len := 0; gr_payload_crc32c := crc |};
  gt_payload_offset := offset |}.

(** One group per block, end to end from [offset]. *)
Fixpoint raw_groups `{Crc32c} (id offset : N) (blocks : list (list byte)) : list GroupTableRecord :=
  match blocks with
  | [] => []
  | block :: blocks =>
      raw_group id offset block (crc32c block) :: raw_groups (id + 1) (offset + len block) blocks
  end.

Lemma raw_groups_snoc `{Crc32c} id offset blocks block :
  raw_groups id offset (blocks ++ [block]) =
  raw_groups id offset blocks ++
  [raw_group (id + len blocks) (offset + len (concat blocks)) block (crc32c block)].
Proof.
  revert id offset; induction blocks as [|b blocks IH]; intros id offset; cbn [raw_groups app concat].
  - by rewrite !len_nil, !N.add_0_r.
  - rewrite IH. rewrite len_cons, len_app. do 4 f_equal; lia.
Qed.

Lemma raw_groups_length `{Crc32c} id offset blocks : length (raw_groups id offset blocks) = length blocks.
Proof. revert id offset; induction blocks as [|b blocks IH]; intros id offset; cbn; auto. Qed.

Lemma raw_groups_lookup `{Crc32c} id offset blocks k block :
  blocks !! k = Some block →
  raw_groups id offset blocks !! k =
  Some (raw_group (id + N.of_nat k) (offset + len (concat (take k blocks))) block (crc32c block)).
Proof.
  revert id offset k; induction blocks as [|b blocks IH]; intros id offset [|k]; cbn; try done.
  - intros [= ->]. change (len []) with 0. by rewrite !N.add_0_r.
  - intros Hk. rewrite (IH _ _ _ Hk), len_app. do 2 f_equal; lia.
Qed.

(** A block lies in the concatenation. *)
Lemma block_at (blocks : list (list byte)) k block :
  blocks !! k = Some block →
  sub (length (concat (take k blocks))) (length block) (concat blocks) = block.
Proof.
  intros Hk. rewrite <-(take_drop_middle blocks k block Hk) at 2. rewrite concat_app. cbn [concat].
  by apply sub_app_here.
Qed.

Definition raw_data (blocks : list (list byte)) (e : EntryRecord) (c : list byte) : Prop :=
  ∃ g, er_kind e = File g ∧ blocks !! N.to_nat g = Some c.

Ltac raw_fields :=
  cbn [rs_spool rs_entries rs_groups rs_restore_map rs_hardlinks rs_payload_crc rs_original_total_size].

Section raw.
Context {S : Type} `{StableFiles S} `{Crc32c} `{Laws : !Crc32cLaws} `{Blake3} `{BLaws : !Blake3Laws}
  `{Backends} `{SerdeJson} `{JLaws : !SerdeJsonLaws}.

Record raw_inv (start : N) (all done_ : list ScannedEntry) (st : RawState)
    (blocks : list (list byte)) : Prop := {
  raw_spool : holds start (concat blocks) (rs_spool st);
  raw_table : rs_groups st = raw_groups 0 start blocks;
  raw_crc : rs_payload_crc st = crc32c (concat blocks);
  raw_entries : Forall2 (entry_from (raw_data blocks) contents (rs_entries st)) (rs_entries st) done_;
  raw_links : remembered (raw_data blocks) contents (rs_entries st) all (rs_hardlinks st);
  raw_total : rs_original_total_size st <= u64_MAX;
  raw_count : len blocks <= len (rs_entries st);
}.

Lemma raw_data_app blocks more e c : raw_data blocks e c → raw_data (blocks ++ more) e c.
Proof. intros (g & Hk & Hb). exists g. split; [done|]. by apply lookup_app_keep. Qed.

(** An entry that brings no data. *)
Lemma raw_inv_plain start all done_ st blocks total e scanned :
  raw_inv start all done_ st blocks → total <= u64_MAX →
  entry_from (raw_data blocks) contents (rs_entries st) e scanned →
  raw_inv start all (done_ ++ [scanned]) {|
    rs_spool := rs_spool st; rs_entries := rs_entries st ++ [e]; rs_groups := rs_groups st;
    rs_restore_map := rs_restore_map st; rs_hardlinks := rs_hardlinks st;
    rs_payload_crc := rs_payload_crc st; rs_original_total_size := total |} blocks.
Proof.
  intros [Hsp Htb Hcrc Hents Hlinks _ Hc] Ht He. split; cbn; try done.
  - apply Forall2_app; [|constructor; [|constructor]].
    + eapply Forall2_entry_from_mono; [done|apply lookup_app_keep|done].
    + eapply entry_from_mono; [done|apply lookup_app_keep|done].
  - eapply remembered_mono; [done|apply lookup_app_keep|done].
  - rewrite len_app. lia.
Qed.

(** A file whose bytes become a group. *)
Lemma raw_inv_file start all done_ st blocks total scanned spool crc group size hash restore :
  raw_inv start all done_ st blocks → total <= u64_MAX → scanned ∈ all → se_kind scanned = ScannedFile →
  let block := contents (se_source scanned) in
  let entry_id := len (rs_entries st) in
  holds start (concat blocks ++ block) spool → crc = crc32c_append (rs_payload_crc st) block →
  group = raw_group (len blocks) (start + len (concat blocks)) block (crc32c block) →
  raw_inv start all (done_ ++ [scanned]) {|
    rs_spool := spool;
    rs_entries := rs_entries st ++ [new_entry entry_id scanned size hash (File (len blocks))];
    rs_groups := rs_groups st ++ [group]; rs_restore_map := restore;
    rs_hardlinks := remember (rs_hardlinks st) (se_identity scanned) (entry_id, size, hash);
    rs_payload_crc := crc; rs_original_total_size := total |} (blocks ++ [block]).
Proof.
  intros [Hsp Htb Hcrc Hents Hlinks _ Hc] Ht Hin Hkind block entry_id Hh -> ->.
  set (e := new_entry _ _ _ _ _).
  assert (Hdata : raw_data (blocks ++ [block]) e block).
  { exists (len blocks). split; [done|]. unfold len. rewrite Nat2N.id. by apply list_lookup_middle. }
  split; cbn.
  - by rewrite concat_app, concat_cons, app_nil_r.
  - by rewrite Htb, raw_groups_snoc, N.add_0_l.
  - rewrite Hcrc, concat_app, concat_cons, app_nil_r. unfold crc32c. by rewrite crc32c_append_app by lia.
  - apply Forall2_app; [|constructor; [|constructor]].
    + eapply Forall2_entry_from_mono; [apply raw_data_app|apply lookup_app_keep|done].
    + split; [done|]. rewrite Hkind. by left.
  - intros key t sz h Hk. unfold remember in Hk. destruct (se_identity scanned) as [id|] eqn:Hid.
    2: { eapply remembered_mono; [apply raw_data_app|apply lookup_app_keep|exact Hlinks|exact Hk]. }
    destruct (decide (key = id)) as [->|Hne].
    + rewrite lookup_insert_eq in Hk. injection Hk as <- <- <-. exists scanned, e.
      split; [done|]. split; [done|]. split; [|done]. unfold entry_id, len. rewrite Nat2N.id.
      by apply list_lookup_middle.
    + rewrite lookup_insert_ne in Hk by done.
      eapply remembered_mono; [apply raw_data_app|apply lookup_app_keep|exact Hlinks|exact Hk].
  - done.
  - rewrite !len_app, len_cons, (len_cons e), !len_nil. lia.
Qed.

Lemma add_original_Ok total size limits v : add_original total size limits = Ok v → v <= u64_MAX.
Proof. unfold add_original. intros Hr. invres. lia. Qed.

Lemma raw_step_run limits budget start all done_ st s scanned st' s' blocks :
  consistent contents all → scanned ∈ all → start <= u64_MAX →
  raw_inv start all done_ st blocks →
  raw_step limits budget st scanned s = (Ok st', s') →
  ∃ blocks', raw_inv start all (done_ ++ [scanned]) st' blocks'.
Proof.
  intros Hcons Hin Hstart Hi. unfold raw_step. intros Hr. m_inv.
  destruct (se_kind scanned) eqn:Hkind.
  - apply M_bind_Ok in Hm0 as (total & s2 & Htot & Hk). injection Htot as Htot <-.
    apply add_original_Ok in Htot. unfold hardlink_of in Hk. cbn [rs_hardlinks] in Hk.
    destruct (se_identity scanned ≫= _) as [[[t size] hash]|] eqn:Hlink.
    + m_inv. exists blocks. raw_fields. eapply raw_inv_plain; [exact Hi|done|]. split; [done|]. rewrite Hkind. right.
      apply bind_Some in Hlink as (key & Hid & Hlink).
      destruct (raw_links _ _ _ _ _ Hi _ _ _ _ Hlink) as (se & target & Hse & Hid' & Ht & Hf & Hd).
      exists t, target. rewrite (Hcons _ _ _ Hin Hse Hid Hid'). done.
    + unfold raw_copy in Hk. cbv zeta in Hk. cbn [rs_spool rs_groups rs_entries rs_hardlinks rs_payload_crc
        rs_restore_map rs_original_total_size] in Hk. m_inv.
      match goal with H : copy_input_file _ _ _ _ _ _ = (Ok _, _) |- _ =>
        apply copy_input_file_Ok in H as (-> & _ & -> & -> & -> & Hsp) end.
      2: { rewrite (raw_crc _ _ _ _ _ Hi). apply crc32c_append_u32. }
      destruct (raw_spool _ _ _ _ _ Hi) as [Hpos _].
      assert (Hlen : len (rs_groups st) = len blocks).
      { rewrite (raw_table _ _ _ _ _ Hi). unfold len. by rewrite raw_groups_length. }
      exists (blocks ++ [contents (se_source scanned)]). rewrite Hlen, Hpos.
      raw_fields. eapply raw_inv_file; try done. by apply Hsp, (raw_spool _ _ _ _ _ Hi).
  - m_inv. exists blocks. eapply raw_inv_plain; [exact Hi|apply (raw_total _ _ _ _ _ Hi)|].
    split; [done|]. by rewrite Hkind.
  - m_inv. unfold symlink_entry in *. invres.
    exists blocks. eapply raw_inv_plain; [exact Hi|apply (raw_total _ _ _ _ _ Hi)|].
    split; [done|]. by rewrite Hkind.
Qed.

Lemma raw_fold_run limits budget start scanned st s st' s' :
  consistent contents scanned → start <= u64_MAX → raw_inv start scanned [] st [] →
  fold_m (raw_step limits budget) st scanned s = (Ok st', s') →
  ∃ blocks, raw_inv start scanned scanned st' blocks.
Proof.
  intros Hcons Hstart Hi Hf.
  apply (fold_m_inv (λ done_ st _, ∃ blocks, raw_inv start scanned done_ st blocks) _ []) in Hf; [exact Hf| |eauto].
  intros done_ a b s1 b' s1' Ha [blocks Hb] Hstep. by eapply raw_step_run.
Qed.

Lemma sum_metadata_Ok (l : list (list byte)) total v :
  try_fold (λ total bytes, ok_or IntegerOverflow (checked_add total (len bytes))) total l = Ok v →
  v = total + sum (map len l).
Proof.
  revert total; induction l as [|b l IH]; intros total; cbn [try_fold map].
  { intros [= <-]. change (sum []) with 0. lia. }
  intros (t & Ht & Hf)%bind_Ok. apply IH in Hf. invres. change (sum (?x :: ?y)) with (x + sum y). unfold sum in *. cbn. lia.
Qed.

Lemma raw_finish_run limits budget st s archive s' all blocks :
  raw_inv 288 all all st blocks → len all <= usize_MAX →
  raw_finish limits budget 288 st s = (Ok archive, s') →
  ∃ header secs rest foot p, layout header secs (concat blocks ++ rest) foot archive ∧
    stored secs archive (rs_entries st) (rs_groups st) (rs_restore_map st) None ∧
    length secs = 6%nat ∧ run_calm (verify_open_file archive limits) = Ok p.
Proof.
  intros Hi Hall. unfold raw_finish. cbv zeta. intros Hr. m_inv. unfold serialize in *. invres.
  pose proof Hi as [Hh Htb Hcrc Hents _ Htot Hcount]. pose proof (raw_spool _ _ _ _ _ Hi) as [Hpos _].
  pose proof (Forall2_length _ _ _ Hents) as Hel.
  assert (Hgl : len (rs_groups st) = len blocks) by (rewrite Htb; unfold len; by rewrite raw_groups_length).
  repeat match goal with
  | Hw : write_section _ _ _ _ = (Ok (_, ?sp), _), Hx : holds 288 _ _ |- _ =>
      eapply write_section_Ok in Hw; [|exact Hx]; destruct Hw as [-> Hw]; clear Hx
  end.
  match goal with Hx : holds 288 ?b _ |- _ => rename Hx into Hbody end.
  apply bind_Some in Hm7 as (total & [-> Hend]%checked_add_Some & [_ Hmax]%checked_add_Some).
  rewrite Hpos in *. rewrite !len_app in *.
  match type of Hr with seal_archive _ ?l _ _ _ _ _ _ _ _ = _ =>
    assert (Hwf : Forall SectionDirectoryRecord_wf l) end.
  { repeat apply Forall_cons_2; try apply Forall_nil_2; apply section_record_wf; try apply crc32c_append_u32;
      try lia. rewrite Hcrc. apply crc32c_append_u32. }
  apply (seal_archive_Ok _ _ _ _ _ _ _ _ _ _ _ _ _) with (1 := Hr) in Hbody; try done; try (unfold len in *; lia).
  destruct Hbody as (header & foot & p & Hl & Hv).
  match type of Hl with layout _ (insertion_sort _ ?l) _ _ _ => set (sections := l) in * end.
  assert (Hloc : ∀ t pre bytes post crc,
    ((((concat blocks ++ v0) ++ v1) ++ v2) ++ v3) ++ v4 = pre ++ bytes ++ post →
    section_record t (288 + len pre) (len bytes) crc ∈ sections →
    located (insertion_sort compare_section sections) archive t bytes).
  { intros t pre bytes post crc Heq Hin. eapply sorted_located; [exact Hl|exact Heq| |exact Hin]. done. }
  exists header, (insertion_sort compare_section sections), (v0 ++ v1 ++ v2 ++ v3 ++ v4), foot, p.
  split; [by rewrite !app_assoc|]. rewrite sorted_length. split; [|done]. split.
  - exists v0. split; [done|]. apply (Hloc _ (concat blocks) _ (v1 ++ v2 ++ v3 ++ v4) (crc32c v0)).
    + by rewrite <-!app_assoc.
    + apply list_elem_of_here.
  - exists v1. split; [done|]. apply (Hloc _ (concat blocks ++ v0) _ (v2 ++ v3 ++ v4) (crc32c v1)).
    + by rewrite <-!app_assoc.
    + rewrite len_app. apply elem_of_cons; right. apply list_elem_of_here.
  - exists v2. split; [done|]. apply (Hloc _ ((concat blocks ++ v0) ++ v1) _ (v3 ++ v4) (crc32c v2)).
    + by rewrite <-!app_assoc.
    + rewrite !len_app. do 3 (apply elem_of_cons; right). apply list_elem_of_here.
  - unfold len. by rewrite sorted_length.
Qed.

(** A block in the archive is what decoding its group yields. *)
Lemma decode_stored archive record limits decoded :
  gr_codec_chain_id (gt_group record) = 0 →
  gr_compressed_len (gt_group record) = gr_uncompressed_len (gt_group record) →
  run_calm (decode_group archive record None limits) = Ok decoded →
  decoded = sub (N.to_nat (gt_payload_offset record)) (N.to_nat (gr_uncompressed_len (gt_group record))) archive.
Proof.
  intros Hz Hlen. unfold decode_group, group_codec_id. rewrite Hz, Hlen. intros Hd. cbn in Hd. calm_inv.
  match goal with Hr : read_exact_vec _ _ _ _ = Ok _ |- _ => apply read_exact_vec_Ok in Hr as [Hb ->] end.
  match goal with Hx : default _ _ = Ok _ |- _ => rename Hx into Hdec end.
  unfold Codec_decode, StoreCodec_decode in Hdec. rewrite (store_decode_loop_correct (R := list byte)) in Hdec by lia.
  cbn [default] in Hdec. destruct (_ <=? _) in Hdec; [|done]. injection Hdec as <-.
  cbn [stream cursor_stream id app]. unfold sub. rewrite take_take. f_equal. lia.
Qed.

Lemma raw_slice header secs blocks rest foot archive limits p j e c :
  layout header secs (concat blocks ++ rest) foot archive → length secs = 6%nat →
  pa_groups p = raw_groups 0 288 blocks → pa_codec_registry p = None →
  raw_data blocks e c → slice_is archive limits p j e c.
Proof.
  intros [Harch [Hwf _] _ _ _] Hsecs Hg Hreg (g & Hk & Hb). exists g. split; [done|].
  intros record r decoded Hrec Hin Hid Hmax Hm Hcount Hdec.
  rewrite Hg, (raw_groups_lookup _ _ _ _ _ Hb) in Hrec. injection Hrec as <-.
  rewrite Hreg in Hdec. apply decode_stored in Hdec; [|done|done].
  cbn [raw_group gt_group gt_payload_offset gr_uncompressed_len gr_chunk_count] in *.
  assert (Hd : decoded = c).
  { rewrite Hdec, Harch, app_assoc, sub_app_skip; rewrite length_app, directory_length,
      (GlobalHeader_encode_length _ Hwf), Hsecs; unfold len; [|cbn; lia].
    rewrite <-app_assoc. rewrite <-(take_drop_middle blocks _ c Hb) at 2. rewrite concat_app. cbn [concat].
    rewrite <-!app_assoc. apply sub_app_here; cbn; lia. }
  destruct (mappings_of (pa_restore_map p) g) as [|r1 [|r2 ms]] eqn:Hms.
  { by apply not_elem_of_nil in Hin. }
  2: { unfold len in Hcount. cbn in Hcount. lia. }
  apply list_elem_of_singleton in Hin as ->. cbn [mapped] in Hm. destruct Hm as [H0' Hm].
  unfold slice_of, sub. rewrite H0', Hd. change (N.to_nat 0) with 0%nat. rewrite drop_0, take_ge; [done|]. unfold len in Hm. lia.
Qed.
End raw.

(** C1: the RAW profile loses nothing.  If packing the scanned inputs
    succeeds, whatever the environment does, and the contents of the files
    do not change while they are read, then the committed archive passes
    verification; it has one entry per input, in order, with its path, time,
    mode and kind; and extracting or reading the entry of a file, also of one
    that was recorded as a hardlink, delivers exactly the file's contents. *)
Theorem pack_raw_correct {S : Type} `{StableFiles S} `{Crc32c} `{Laws : !Crc32cLaws} `{Blake3}
    `{BLaws : !Blake3Laws} `{Backends} `{SerdeJson} `{JLaws : !SerdeJsonLaws} pack_limits scanned
    archive (s s' : S) :
  pack_raw pack_limits scanned s = (Ok archive, s') →
  consistent contents scanned → len scanned <= usize_MAX →
  let limits := raw_decode_limits pack_limits in
  ∃ p, run_calm (verify_open_file archive limits) = Ok p ∧
    Forall2 (packed_entry contents archive limits) (pa_entries p) scanned.
Proof.
  intros Hr Hcons Hlen. unfold pack_raw in Hr. cbv zeta in Hr. m_inv. invres.
  match goal with H : spool_seek _ _ _ = _ |- _ => apply spool_seek_Ok in H; subst end.
  match goal with H : fold_m _ _ _ _ = (Ok ?st, _) |- _ =>
    eapply (raw_fold_run _ _ 288) in H as [blocks Hi] end; [|done|done|].
  2: { split; cbn; try done; unfold crc32c; by rewrite crc32c_append_nil. }
  eapply raw_finish_run in Hr as (header & secs & rest & foot & p & Hl & Hst & Hsecs & Hv); [|exact Hi|done].
  exists p. split; [done|].
  destruct (verify_open_file_catalog _ _ _ Hv) as (q & Hq & He & Hg & Hmap & Hreg).
  destruct (stored_read_catalog _ _ _ _ _ _ _ _ _ _ _ Hl Hst Hq) as (He' & Hg' & Hmap' & Hreg').
  eapply (verified_packed (raw_data blocks)); [done| |].
  - intros j e c _ Hd. eapply raw_slice; [exact Hl|done| |congruence|done].
    rewrite <-Hg, Hg'. apply (raw_table _ _ _ _ _ Hi).
  - rewrite <-He, He'. apply (raw_entries _ _ _ _ _ Hi).
Qed.

(** ** A packed sample *)

#[local] Existing Instances crc32c_castagnoli crc32c_castagnoli_laws framing_backends Sample.hash memory_env.

(** The archive of [Sample], packed: a directory, a file under two names and
    a symlink, with a serializer for their tables. *)
Module PackedSample.
Definition text := Sample.text.
Definition source : list byte := text [115].
Definition contents_of (path : list byte) : list byte :=
  if bool_decide (path = source) then text [104; 105] else [].
Definition inode (path : list byte) : option Identity :=
  if bool_decide (path = source) then Some (1, 2) else None.
#[export] Instance files : FileSystem Open := memory_files contents_of inode.
#[export] Instance stable : StableFiles Open := memory_stable contents_of inode.

Definition scanned_entry (src : list byte) (names : list (list byte)) (kind : ScannedKind) : ScannedEntry := {|
  se_source := src; se_archive_path := Sample.path names; se_sort_key := concat names;
  se_metadata := memory_metadata contents_of src; se_identity := inode src; se_kind := kind |}.
Definition target : LinkTarget :=
  {| lt_components := [LinkNormal {| pc_encoding := Utf8; pc_bytes := Sample.f |}] |}.
Definition scanned : list ScannedEntry := [
  scanned_entry [] [Sample.d] ScannedDirectory;
  scanned_entry source [Sample.d; Sample.f] ScannedFile;
  scanned_entry source [Sample.d; text [103]] ScannedFile;
  scanned_entry [] [Sample.d; text [115]] (ScannedSymlink target false)].

Definition entry (id : N) (names : list (list byte)) (size : N) (bytes : list byte) (kind : EntryKind) :=
  {| er_entry_id := id; er_path := Sample.path names; er_size := size; er_modified_ns := 7;
     er_mode := 420; er_blake3 := Sample.hash bytes; er_kind := kind |}.
Definition entries : list EntryRecord := [
  entry 0 [Sample.d] 0 DIRECTORY_LABEL Directory;
  entry 1 [Sample.d; Sample.f] 2 Sample.content (File 0);
  entry 2 [Sample.d; text [103]] 2 Sample.content (Hardlink 1);
  entry 3 [Sample.d; text [115]] 1 (text [76]) (Symlink target false)].

Definition put {T} `{EqDecision T} (tag : N) (value v : T) : option (list byte) :=
  if bool_decide (v = value) then Some (text [tag]) else None.

(** The serializer for given tables. *)
Definition json_for (groups : list GroupTableRecord) (entries : list EntryRecord)
    (restore_map : list RestoreMapRecord) : SerdeJson := {|
  json_parser := {|
    json_entries := Sample.table 69 entries;
    json_groups := Sample.table 71 groups;
    json_restore_map := Sample.table 82 restore_map;
    json_central_index := Sample.table 73 (map index_of entries);
    json_integrity := Sample.table 84 (map integrity_of entries) |};
  write_entries := put 69 entries;
  write_groups := put 71 groups;
  write_restore_map := put 82 restore_map;
  write_central_index := put 73 (map index_of entries);
  write_integrity := put 84 (map integrity_of entries);
  write_link_target := λ t, Some (text [76]) |}.

Lemma put_inverse {T} `{EqDecision T} tag (value v : T) b :
  put tag value v = Some b → Sample.table tag value b = Some v.
Proof.
  unfold put, Sample.table. case_bool_decide as E; [|done]. intros [= <-]. subst v.
  by rewrite bool_decide_true.
Qed.

#[export] Instance json_for_laws groups entries restore_map :
  @SerdeJsonLaws (json_for groups entries restore_map).
Proof. split; intros v b; apply put_inverse. Qed.

#[export] Instance json : SerdeJson := json_for [Sample.group] entries Sample.restore_map.
#[export] Instance hash_laws : @Blake3Laws Sample.hash.
Proof. intros data. unfold blake3, Sample.hash. rewrite length_take, length_app, length_zeros. lia. Qed.

Definition archive : list byte :=
  match (pack_raw PackLimits_default scanned {| open_files := [] |}).1 with Ok a => a | Err _ => [] end.
End PackedSample.

#[local] Existing Instances PackedSample.json PackedSample.files PackedSample.stable PackedSample.hash_laws
  PackedSample.json_for_laws.

Lemma packed_sample_consistent : consistent PackedSample.contents_of PackedSample.scanned.
Proof.
  intros a b key Ha Hb Hka Hkb.
  assert (Hall : Forall (λ e, se_identity e = Some key → PackedSample.contents_of (se_source e) = Sample.content)
    PackedSample.scanned).
  { repeat apply Forall_cons_2; try apply Forall_nil_2; done. }
  rewrite Forall_forall in Hall. by rewrite (Hall a Ha Hka), (Hall b Hb Hkb).
Qed.

Lemma pack_raw_correct_witness :
  let limits := raw_decode_limits PackLimits_default in
  ∃ p, run_calm (verify_open_file PackedSample.archive limits) = Ok p ∧
    Forall2 (packed_entry PackedSample.contents_of PackedSample.archive limits) (pa_entries p)
      PackedSample.scanned.
Proof.
  apply (pack_raw_correct (S := Open) (H1 := PackedSample.stable) PackLimits_default PackedSample.scanned PackedSample.archive
    {| open_files := [] |} {| open_files := [[]] |}).
  - vm_compute. reflexivity.
  - apply packed_sample_consistent.
  - vm_compute. discriminate.
Defined.
