(* ===== verification/Compressed.v ===== *)
(** * Packing with compression and extracting are inverse

    The compressed profiles: the files of a group are concatenated, encoded by
    a worker with the cheapest codec and written one group after the other.
    When files do not change while they are packed, extraction delivers their
    contents. *)

From S2P Require Import Prelude Core Effects Bytes Format Codecs Planner Sorting TaskScheduler Paths.
From S2P Require Import Catalog Extract Inputs Memory Stable Pack Encoding Seal RoundTrip.

(** ** Entries and sources *)

(** The source of a file entry, and its bytes. *)
Definition source_data (content : list byte → list byte) (sources : list CompressedSource)
    (e : EntryRecord) (c : list byte) : Prop :=
  ∃ source, source ∈ sources ∧ src_entry_id source = er_entry_id e ∧ content (src_path source) = c.

(** A source belongs to a file entry and has the size of its contents. *)
Definition source_of (content : list byte → list byte) (entries : list EntryRecord)
    (source : CompressedSource) : Prop :=
  (∃ e, entries !! N.to_nat (src_entry_id source) = Some e ∧ is_file e = true) ∧
  src_size source = len (content (src_path source)).

Ltac compressed_fields := cbn [ct_entries ct_sources ct_hardlinks ct_original_total_size].

Section entries.

Context {S : Type} `{StableFiles S} `{Crc32c} `{Blake3} `{Backends} `{SerdeJson}.

Record compressed_inv (all done_ : list ScannedEntry) (st : CompressedState) : Prop := {
  ci_entries : Forall2 (entry_from (source_data contents (ct_sources st)) contents (ct_entries st))
    (ct_entries st) done_;
  ci_links : remembered (source_data contents (ct_sources st)) contents (ct_entries st) all (ct_hardlinks st);
  ci_sources : Forall (source_of contents (ct_entries st)) (ct_sources st);
  ci_distinct : NoDup (map src_entry_id (ct_sources st));
  ci_positions : ∀ i e, ct_entries st !! i = Some e → er_entry_id e = N.of_nat i;
  ci_total : ct_original_total_size st <= u64_MAX;
  ci_count : len (ct_sources st) <= len (ct_entries st);
}.

Lemma source_data_app content sources more e c :
  source_data content sources e c → source_data content (sources ++ more) e c.
Proof. intros (source & Hin & ? & ?). exists source. split; [apply elem_of_app; by left|done]. Qed.

Lemma source_of_app content entries more source :
  source_of content entries source → source_of content (entries ++ more) source.
Proof. intros [(e & He & ?) ?]. split; [|done]. exists e. split; [|done]. by apply lookup_app_keep. Qed.

Lemma positions_app entries e :
  (∀ i e, entries !! i = Some e → er_entry_id e = N.of_nat i) → er_entry_id e = len entries →
  ∀ i e', (entries ++ [e]) !! i = Some e' → er_entry_id e' = N.of_nat i.
Proof.
  intros Hp He i e' [Hi|[Hl Hi]]%lookup_app_Some; [by apply Hp|].
  destruct (i - length entries)%nat eqn:Hd; [|done]. injection Hi as <-. rewrite He. unfold len. lia.
Qed.

Lemma compressed_inv_plain all done_ st total e scanned :
  compressed_inv all done_ st → total <= u64_MAX → er_entry_id e = len (ct_entries st) →
  entry_from (source_data contents (ct_sources st)) contents (ct_entries st) e scanned →
  compressed_inv all (done_ ++ [scanned]) {|
    ct_entries := ct_entries st ++ [e]; ct_sources := ct_sources st; ct_hardlinks := ct_hardlinks st;
    ct_original_total_size := total |}.
Proof.
  intros [Hents Hlinks Hsrc Hnd Hpos _ Hc] Ht Hid He. split; compressed_fields; try done.
  - apply Forall2_app; [|constructor; [|constructor]].
    + eapply Forall2_entry_from_mono; [done|apply lookup_app_keep|done].
    + eapply entry_from_mono; [done|apply lookup_app_keep|done].
  - eapply remembered_mono; [done|apply lookup_app_keep|done].
  - eapply Forall_impl; [exact Hsrc|]. intros source. apply source_of_app.
  - by apply positions_app.
  - rewrite len_app. lia.
Qed.

Lemma compressed_inv_file all done_ st total scanned source hash :
  compressed_inv all done_ st → total <= u64_MAX → scanned ∈ all → se_kind scanned = ScannedFile →
  let entry_id := len (ct_entries st) in
  src_entry_id source = entry_id → src_path source = se_source scanned →
  src_size source = len (contents (se_source scanned)) →
  compressed_inv all (done_ ++ [scanned]) {|
    ct_entries := ct_entries st ++ [new_entry entry_id scanned (src_size source) hash (File u64_MAX)];
    ct_sources := ct_sources st ++ [source];
    ct_hardlinks := remember (ct_hardlinks st) (se_identity scanned) (entry_id, src_size source, hash);
    ct_original_total_size := total |}.
Proof.
  intros [Hents Hlinks Hsrc Hnd Hpos _ Hc] Ht Hin Hkind entry_id Hid Hpath Hsize.
  set (e := new_entry _ _ _ _ _).
  assert (Hdata : source_data contents (ct_sources st ++ [source]) e (contents (se_source scanned))).
  { exists source. split; [apply elem_of_app; right; by left|]. by rewrite Hpath. }
  assert (Hlast : (ct_entries st ++ [e]) !! N.to_nat entry_id = Some e).
  { unfold entry_id, len. rewrite Nat2N.id. by apply list_lookup_middle. }
  split; compressed_fields; try done.
  - apply Forall2_app; [|constructor; [|constructor]].
    + eapply Forall2_entry_from_mono; [apply source_data_app|apply lookup_app_keep|done].
    + split; [done|]. rewrite Hkind. by left.
  - intros key t sz h Hk. unfold remember in Hk. destruct (se_identity scanned) as [id|] eqn:Hse.
    2: { eapply remembered_mono; [apply source_data_app|apply lookup_app_keep|exact Hlinks|exact Hk]. }
    destruct (decide (key = id)) as [->|Hne].
    + rewrite lookup_insert_eq in Hk. injection Hk as <- <- <-. by exists scanned, e.
    + rewrite lookup_insert_ne in Hk by done.
      eapply remembered_mono; [apply source_data_app|apply lookup_app_keep|exact Hlinks|exact Hk].
  - apply Forall_app. split; [eapply Forall_impl; [exact Hsrc|]; intros x; apply source_of_app|].
    constructor; [|constructor]. split; [|by rewrite Hpath]. exists e. by rewrite Hid.
  - rewrite map_app. apply NoDup_app. split; [done|]. split; [|apply NoDup_singleton].
    intros i Hi ->%list_elem_of_singleton. apply list_elem_of_fmap in Hi as (x & Hx & Hxin).
    rewrite Forall_forall in Hsrc. destruct (Hsrc x Hxin) as [(e' & He' & _) _].
    apply lookup_lt_Some in He'. rewrite <-Hx, Hid in He'. unfold entry_id, len in He'. lia.
  - by apply positions_app.
  - rewrite !len_app, !len_cons, len_nil. lia.
Qed.

Lemma compressed_step_run limits all done_ st s scanned st' s' :
  consistent contents all → scanned ∈ all → compressed_inv all done_ st →
  compressed_step limits st scanned s = (Ok st', s') → compressed_inv all (done_ ++ [scanned]) st'.
Proof.
  intros Hcons Hin Hi. unfold compressed_step. intros Hr. m_inv.
  destruct (se_kind scanned) eqn:Hkind.
  - apply M_bind_Ok in Hm0 as (total & s2 & Htot & Hk). injection Htot as Htot <-.
    apply add_original_Ok in Htot. destruct (hardlink_of _ _) as [[[t size] hash]|] eqn:Hlink.
    + m_inv. compressed_fields. eapply compressed_inv_plain; [exact Hi|done..|]. split; [done|]. rewrite Hkind. right.
      apply bind_Some in Hlink as (key & Hid & Hlink).
      destruct (ci_links _ _ _ Hi _ _ _ _ Hlink) as (se & target & Hse & Hid' & Ht & Hf & Hd).
      exists t, target. rewrite (Hcons _ _ _ Hin Hse Hid Hid'). done.
    + m_inv. match goal with Hx : hash_input_file _ _ _ _ = _ |- _ => apply hash_input_file_Ok in Hx as (-> & _ & ->) end.
      compressed_fields.
      match goal with |- context [ct_sources st ++ [?source]] => apply (compressed_inv_file _ _ _ _ _ source) end; done.
  - m_inv. compressed_fields. eapply compressed_inv_plain; [exact Hi|apply (ci_total _ _ _ Hi)|done|].
    split; [done|]. by rewrite Hkind.
  - m_inv. unfold symlink_entry in *. invres. compressed_fields.
    eapply compressed_inv_plain; [exact Hi|apply (ci_total _ _ _ Hi)|done|]. split; [done|]. by rewrite Hkind.
Qed.

Lemma compressed_fold_run limits scanned s st' s' :
  consistent contents scanned →
  fold_m (compressed_step limits) {| ct_entries := []; ct_sources := []; ct_hardlinks := ∅;
    ct_original_total_size := 0 |} scanned s = (Ok st', s') → compressed_inv scanned scanned st'.
Proof.
  intros Hcons Hf.
  apply (fold_m_inv (λ done_ st _, compressed_inv scanned done_ st) _ []) in Hf; [exact Hf| |].
  - intros done_ a b s1 b' s1' Ha Hb Hstep. by eapply compressed_step_run.
  - split; compressed_fields; try done; constructor.
Qed.

End entries.

(** ** Groups and the restore map *)

(** The entries have learned their groups; nothing else about them changed. *)
Definition regrouped : relation (list EntryRecord) :=
  Forall2 (λ e e', e' = e ∨ ∃ g, is_file e = true ∧ e' = with_kind e (File g)).

Lemma regrouped_refl entries : regrouped entries entries.
Proof. apply Forall_Forall2_diag, Forall_true. intros e. by left. Qed.

Lemma regrouped_trans l1 l2 l3 : regrouped l1 l2 → regrouped l2 l3 → regrouped l1 l3.
Proof.
  unfold regrouped. rewrite !Forall2_lookup. intros H12 H23 i. specialize (H12 i). specialize (H23 i).
  destruct (l1 !! i), (l2 !! i), (l3 !! i); inversion_clear H12 as [? ? H1|]; inversion_clear H23 as [? ? H2|];
    constructor; destruct H1 as [->|(g & Hf & ->)], H2 as [->|(g' & Hf' & ->)]; eauto 6.
Qed.

Lemma regrouped_insert entries i e g :
  entries !! i = Some e → is_file e = true → regrouped entries (<[i := with_kind e (File g)]> entries).
Proof.
  intros Hi Hf. unfold regrouped. apply Forall2_same_length_lookup_2; [by rewrite length_insert|].
  intros j x y Hx Hy. destruct (decide (i = j)) as [<-|Hne].
  - rewrite list_lookup_insert_eq in Hy by (by eapply lookup_lt_Some). right. exists g. split; congruence.
  - rewrite list_lookup_insert_ne in Hy by done. left. congruence.
Qed.

Lemma regrouped_lookup entries entries' i e :
  regrouped entries entries' → entries !! i = Some e →
  ∃ e', entries' !! i = Some e' ∧ is_file e' = is_file e ∧ er_entry_id e' = er_entry_id e ∧
    (is_file e = false → e' = e).
Proof.
  intros Hr Hi. destruct (Forall2_lookup_l _ _ _ _ _ Hr Hi) as (e' & Hi' & [->|(g & Hf & ->)]).
  - by exists e.
  - exists (with_kind e (File g)). rewrite Hf. done.
Qed.

Lemma regrouped_entry_from content sources entries entries' e e' scanned :
  regrouped entries entries' → (e' = e ∨ ∃ g, is_file e = true ∧ e' = with_kind e (File g)) →
  entry_from (source_data content sources) content entries e scanned →
  entry_from (source_data content sources) content entries' e' scanned.
Proof.
  intros Hr He [Hdesc Hk]. split; [by destruct He as [->|(g & _ & ->)]|].
  assert (Hd : is_file e = true → source_data content sources e (content (se_source scanned)) →
    is_file e' = true ∧ source_data content sources e' (content (se_source scanned))).
  { intros Hf Hd. by destruct He as [->|(g & _ & ->)]. }
  assert (Hother : is_file e = false → e' = e).
  { intros Hf. destruct He as [->|(g & Hf' & _)]; [done|congruence]. }
  destruct (se_kind scanned).
  - destruct Hk as [[Hf Hsd]|(t & target & Hkind & Ht & Hf & Hsd)]; [left; by apply Hd|right].
    rewrite Hother by (unfold is_file; by rewrite Hkind).
    destruct (regrouped_lookup _ _ _ _ Hr Ht) as (target' & Ht' & Hf' & Hid & _).
    exists t, target'. split; [done|]. split; [done|]. split; [congruence|].
    destruct Hsd as (source & Hin & Hsid & Hc). exists source. split; [done|]. split; congruence.
  - rewrite Hother; [done|]. unfold is_file. by rewrite Hk.
  - rewrite Hother; [done|]. unfold is_file. by rewrite Hk.
Qed.

(** The restore records of the members of a group. *)
Fixpoint member_records (group_id offset : N) (members : list CompressedSource) : list RestoreMapRecord :=
  match members with
  | [] => []
  | source :: members =>
      {| rm_entry_id := src_entry_id source; rm_original_offset := 0; rm_length := src_size source;
         rm_group_id := group_id; rm_group_offset := offset |} ::
      member_records group_id (offset + src_size source) members
  end.

Lemma length_member_records group_id offset members :
  length (member_records group_id offset members) = length members.
Proof. revert offset; induction members as [|m members IH]; intros offset; cbn; auto. Qed.

Lemma member_records_in group_id offset members r :
  r ∈ member_records group_id offset members →
  ∃ pre source post, members = pre ++ source :: post ∧ rm_group_id r = group_id ∧
    rm_entry_id r = src_entry_id source ∧ rm_length r = src_size source ∧
    rm_group_offset r = offset + sum (map src_size pre).
Proof.
  revert offset; induction members as [|m members IH]; intros offset; cbn [member_records].
  { by intros ?%not_elem_of_nil. }
  intros [->|Hr]%elem_of_cons.
  - exists [], m, members. cbn. repeat split; lia.
  - destruct (IH _ Hr) as (pre & source & post & -> & Hg & Hid & Hl & Ho). exists (m :: pre), source, post.
    repeat split; try done. rewrite Ho. cbn [map]. change (sum (?x :: ?y)) with (x + sum y). lia.
Qed.

Lemma member_fold group_id entries restore_map offset members entries' restore_map' offset' :
  Forall (λ source, ∃ e, entries !! N.to_nat (src_entry_id source) = Some e ∧ is_file e = true) members →
  try_fold (member_step group_id) (entries, restore_map, offset) members =
  Ok (entries', restore_map', offset') →
  regrouped entries entries' ∧ restore_map' = restore_map ++ member_records group_id offset members ∧
  offset' = offset + sum (map src_size members).
Proof.
  intros Hall Hf. revert entries restore_map offset Hall Hf.
  induction members as [|m members IH]; intros entries restore_map offset Hall; cbn [try_fold map member_records].
  { intros [= <- <- <-]. change (sum []) with 0. rewrite app_nil_r, N.add_0_r. split; [apply regrouped_refl|done]. }
  intros ([[entries1 map1] offset1] & Hstep & Hf)%bind_Ok. unfold member_step in Hstep.
  apply Forall_cons in Hall as [(e & He & Hfile) Hall]. rewrite He in Hstep. cbn [ok_or mbind result_bind] in Hstep.
  apply bind_Ok in Hstep as (next & Hnext & Hstep). apply ok_or_Ok, checked_add_Some in Hnext as [-> _].
  injection Hstep as <- <- <-.
  apply IH in Hf as (Hr & -> & ->).
  - rewrite <-app_assoc. split; [|split; [done|change (sum (?x :: ?y)) with (x + sum y); lia]].
    eapply regrouped_trans; [|exact Hr]. by apply regrouped_insert.
  - eapply Forall_impl; [exact Hall|]. intros source (e' & He' & Hf').
    destruct (regrouped_lookup entries (<[N.to_nat (src_entry_id m) := with_kind e (File group_id)]> entries) _ _
      ltac:(by apply regrouped_insert) He') as (e'' & ? & ? & _). exists e''. split; [done|congruence].
Qed.

Lemma group_members_Ok sources plan members :
  group_members sources plan = Ok members →
  members = sub (N.to_nat (sg_first_item plan)) (N.to_nat (sg_item_count plan)) sources ∧
  len members = sg_item_count plan.
Proof.
  unfold group_members. intros Hm. invres. split; [done|]. rewrite len_sub. lia.
Qed.

(** What the loop over the plans leaves. *)
Record assigned (sources : list CompressedSource) (plans : list (N * SolidGroupPlan))
    (entries entries' : list EntryRecord) (restore_map : list RestoreMapRecord) : Prop := {
  assigned_entries : regrouped entries entries';
  assigned_restore : ∀ r, r ∈ restore_map → ∃ plan members, (rm_group_id r, plan) ∈ plans ∧
    group_members sources plan = Ok members ∧ r ∈ member_records (rm_group_id r) 0 members;
  assigned_plans : Forall (λ '(_, plan), ∃ members, group_members sources plan = Ok members ∧
    sum (map src_size members) = sg_uncompressed_len plan) plans;
  assigned_count : len restore_map = sum (map (λ '(_, plan), sg_item_count plan) plans);
}.

Lemma assign_fold sources done_ plans entries0 entries restore_map entries' restore_map' :
  Forall (λ source, ∃ e, entries0 !! N.to_nat (src_entry_id source) = Some e ∧ is_file e = true) sources →
  assigned sources done_ entries0 entries restore_map →
  try_fold (assign_group_step sources) (entries, restore_map) plans = Ok (entries', restore_map') →
  assigned sources (done_ ++ plans) entries0 entries' restore_map'.
Proof.
  intros Hall. revert done_ entries restore_map; induction plans as [|[g plan] plans IH];
    intros done_ entries restore_map Ha; cbn [try_fold].
  { intros [= <- <-]. by rewrite app_nil_r. }
  intros ([entries1 map1] & Hstep & Hf)%bind_Ok. unfold assign_group_step in Hstep.
  apply bind_Ok in Hstep as (members & Hm & Hstep). apply bind_Ok in Hstep as ([[entries2 map2] offset] & Hfold & Hstep).
  destruct (negb _) eqn:Hlen; [done|]. injection Hstep as -> ->. arith_inv.
  destruct (group_members_Ok _ _ _ Hm) as [Hsub Hcount]. destruct Ha as [He Hr Hp Hc].
  apply member_fold in Hfold as (He' & -> & ->).
  2: { rewrite Hsub. unfold sub. apply Forall_take, Forall_drop. eapply Forall_impl; [exact Hall|].
    intros source (e & He1 & Hfile). destruct (regrouped_lookup _ _ _ _ He He1) as (e' & ? & ? & _).
    exists e'. split; [done|congruence]. }
  change (done_ ++ (g, plan) :: plans) with (done_ ++ [(g, plan)] ++ plans). rewrite app_assoc.
  apply (IH (done_ ++ [(g, plan)])) in Hf; [exact Hf|].
  split.
  - by eapply regrouped_trans.
  - intros r [Hin|Hin]%elem_of_app.
    + destruct (Hr r Hin) as (plan' & members' & Hpl & ? & ?). exists plan', members'.
      split; [apply elem_of_app; by left|done].
    + destruct (member_records_in _ _ _ _ Hin) as (? & ? & ? & _ & Hg & _). rewrite Hg. exists plan, members.
      split; [apply elem_of_app; right; by left|]. split; [done|]. by rewrite <-Hg at 1; rewrite Hg.
  - apply Forall_app. split; [done|]. constructor; [|constructor]. exists members. split; [done|].
    rewrite N.add_0_l in Hlen. done.
  - rewrite len_app, Hc, map_app, sum_app. f_equal. unfold len at 1. rewrite length_member_records.
    fold (len members). rewrite Hcount. cbn. unfold sum; cbn. lia.
Qed.

(** ** The encoded groups *)

Lemma enumerate_lookup {A} (l : list A) k : enumerate l !! k = (λ x, (N.of_nat k, x)) <$> l !! k.
Proof.
  unfold enumerate. enough (∀ i, enumerate_from i l !! k = (λ x, (i + N.of_nat k, x)) <$> l !! k) as Hi by apply Hi.
  revert k; induction l as [|x l IH]; intros [|k] i; cbn; try done.
  - by rewrite N.add_0_r.
  - rewrite IH. destruct (l !! k); [|done]. cbn. do 2 f_equal. lia.
Qed.

Lemma length_enumerate {A} (l : list A) : length (enumerate l) = length l.
Proof. unfold enumerate. generalize 0. induction l as [|x l IH]; intros i; cbn; auto. Qed.

(** The identifiers of [n] tasks. *)
Definition task_ids (n : nat) : list N := map N.of_nat (seq 0 n).

Lemma task_ids_sorted n : StronglySorted N.le (task_ids n).
Proof.
  unfold task_ids. generalize 0%nat. induction n as [|n IH]; intros k; cbn; constructor; [done|].
  apply Forall_map, Forall_forall. intros x Hx. apply elem_of_seq in Hx. lia.
Qed.

Lemma task_ids_lookup n k : (k < n)%nat → task_ids n !! k = Some (N.of_nat k).
Proof. intros Hk. unfold task_ids. rewrite list_lookup_fmap, lookup_seq_lt by done. done. Qed.

Lemma handles_in_order tasks config schedule handles n :
  map st_task_id tasks = task_ids n →
  len tasks <= usize_MAX → 0 < sc_workers config <= usize_MAX → sc_memory_budget config <= u64_MAX →
  execute_scheduled tasks config schedule = Some (Ok handles) →
  length handles = n ∧ ∀ k handle, handles !! k = Some handle →
    sp_task_id handle = N.of_nat k ∧ ∃ task during, tasks !! k = Some task ∧
      st_action task during = Ok (sp_file handle).
Proof.
  intros Hids Hlen Hw Hb. unfold execute_scheduled. destruct schedule as [[cancelled pool] cs].
  destruct (execute_start _ _ _ _) as [st0|] eqn:Hstart; [|done]. intros (st & Hrun & Hp)%bind_Some.
  destruct (sc_phase st) eqn:Hphase; try done. injection Hp as ->.
  destruct (execute_returned _ _ _ _ _ _ _ _ Hlen Hw Hb Hstart Hrun Hphase) as (Hperm & Hsorted & Hall).
  assert (Hhid : map sp_task_id handles = task_ids n).
  { apply (StronglySorted_unique N.le); [|apply task_ids_sorted|by rewrite Hperm, Hids].
    clear -Hsorted. induction Hsorted as [|h hs Hs IH Hf]; cbn; constructor; [done|].
    apply Forall_map. eapply Forall_impl; [exact Hf|]. intros x. unfold not_greater, compare_spool.
    by rewrite N.compare_gt_iff, N.nlt_ge. }
  assert (Hn : length handles = n).
  { rewrite <-(length_map sp_task_id), Hhid. unfold task_ids. by rewrite length_map, length_seq. }
  split; [done|]. intros k handle Hk. pose proof (lookup_lt_Some _ _ _ Hk) as Hlt. rewrite Hn in Hlt.
  assert (Hid : sp_task_id handle = N.of_nat k).
  { apply (f_equal (lookup k)) in Hhid. rewrite list_lookup_fmap, Hk, task_ids_lookup in Hhid by done.
    by injection Hhid. }
  split; [done|]. destruct (Forall_lookup_1 _ _ _ _ Hall Hk) as (task & during & Hin & Ht & Ha & _).
  exists task, during. split; [|done]. apply list_elem_of_lookup in Hin as [j Hj].
  apply (f_equal (lookup j)) in Hids. rewrite list_lookup_fmap, Hj in Hids. cbn in Hids.
  assert (Hjn : (j < n)%nat).
  { destruct (decide (j < n)%nat) as [|Hge]; [done|]. unfold task_ids in Hids.
    rewrite list_lookup_fmap, lookup_seq_ge in Hids by lia. done. }
  rewrite task_ids_lookup in Hids by done. injection Hids as Hids. assert (j = k) as -> by lia. done.
Qed.

Section encoding_tasks.

Context {S : Type} `{StableFiles S} `{Crc32c} `{Blake3} `{Backends}.

Lemma group_tasks_Ok sources candidates worker plans tasks :
  try_map (group_task sources candidates worker) (enumerate plans) = Ok tasks →
  map st_task_id tasks = task_ids (length plans) ∧
  ∀ k task, tasks !! k = Some task → ∃ plan members, plans !! k = Some plan ∧
    group_members sources plan = Ok members ∧
    ∀ during out, st_action task during = Ok out →
      (encode_solid_group members candidates (worker (N.of_nat k))).1 = Ok out.
Proof.
  intros Hf%try_map_Ok.
  assert (Hall : ∀ k task, tasks !! k = Some task → ∃ plan members, plans !! k = Some plan ∧
    st_task_id task = N.of_nat k ∧ group_members sources plan = Ok members ∧
    ∀ during out, st_action task during = Ok out →
      (encode_solid_group members candidates (worker (N.of_nat k))).1 = Ok out).
  { intros k task Hk. destruct (Forall2_lookup_r _ _ _ _ _ Hf Hk) as ([id plan] & Hp & Ht).
    rewrite enumerate_lookup in Hp. destruct (plans !! k) as [plan'|] eqn:Hpk; [|done]. injection Hp as <- <-.
    unfold group_task in Ht. apply bind_Ok in Ht as (members & Hm & Ht). apply bind_Ok in Ht as (ob & _ & Ht).
    apply bind_Ok in Ht as (cm & _ & Ht). injection Ht as <-. exists plan', members.
    split; [done|]. split; [done|]. split; [done|]. cbn. intros [] out Ha; [done|exact Ha]. }
  split.
  - apply list_eq. intros k. rewrite list_lookup_fmap.
    pose proof (Forall2_length _ _ _ Hf) as Hl. rewrite length_enumerate in Hl.
    destruct (tasks !! k) as [task|] eqn:Hk.
    + destruct (Hall k task Hk) as (plan & _ & Hp & Hid & _). cbn. rewrite task_ids_lookup, Hid; [done|].
      by eapply lookup_lt_Some.
    + cbn. symmetry. apply lookup_ge_None. unfold task_ids. rewrite length_map, length_seq, Hl.
      by apply lookup_ge_None.
  - intros k task Hk. destruct (Hall k task Hk) as (plan & members & ? & _ & ? & ?). by exists plan, members.
Qed.

(** A handle holds the envelope of its group. *)
Definition envelope_of (sources : list CompressedSource) (plan : SolidGroupPlan) (envelope : list byte) : Prop :=
  ∃ members id payload, group_members sources plan = Ok members ∧
    Forall (λ source, len (contents (src_path source)) = src_size source) members ∧
    envelope = u16_le (CodecId_as_u16 id) ++ payload ∧
    encodes id (concat (map (λ source, contents (src_path source)) members)) payload.

Lemma handles_envelopes sources candidates worker plans tasks config schedule handles :
  try_map (group_task sources candidates worker) (enumerate plans) = Ok tasks →
  len plans <= usize_MAX → 0 < sc_workers config <= usize_MAX → sc_memory_budget config <= u64_MAX →
  execute_scheduled tasks config schedule = Some (Ok handles) →
  length handles = length plans ∧ ∀ k handle, handles !! k = Some handle →
    sp_task_id handle = N.of_nat k ∧ ∃ plan, plans !! k = Some plan ∧ envelope_of sources plan (sp_file handle).
Proof.
  intros Ht Hlen Hw Hb Hx. apply group_tasks_Ok in Ht as [Hids Htasks].
  assert (Htl : length tasks = length plans).
  { rewrite <-(length_map st_task_id), Hids. unfold task_ids. by rewrite length_map, length_seq. }
  destruct (handles_in_order _ _ _ _ _ Hids ltac:(unfold len in *; lia) Hw Hb Hx) as [Hn Hh].
  split; [done|]. intros k handle Hk. destruct (Hh k handle Hk) as (Hid & task & during & Htk & Ha).
  split; [done|]. destruct (Htasks k task Htk) as (plan & members & Hp & Hm & Henc). exists plan. split; [done|].
  apply Henc in Ha. destruct (encode_solid_group members candidates (worker (N.of_nat k))) as [r s'] eqn:E.
  cbn in Ha. subst r. apply encode_solid_group_run in E as (Hall & id & payload & -> & _ & He & _).
  by exists members, id, payload.
Qed.

End encoding_tasks.

(** ** Writing the payloads *)

(** The codec and the payload of an envelope. *)
Definition envelope_parts (envelope : list byte) (id : CodecId) (payload : list byte) : Prop :=
  CodecId_from_u16 (le_combine (take 2 envelope)) = Some id ∧ payload = drop 2 envelope.

Lemma envelope_parts_join id payload id' payload' :
  envelope_parts (u16_le (CodecId_as_u16 id) ++ payload) id' payload' → id' = id ∧ payload' = payload.
Proof.
  intros [Hid Hp]. rewrite take_app_length' in Hid by (by rewrite length_u16_le).
  rewrite drop_app_length' in Hp by (by rewrite length_u16_le). split; [|done].
  unfold u16_le in Hid. rewrite le_combine_split in Hid by (by destruct id). destruct id; by injection Hid.
Qed.

Lemma from_u16_as_u16 n id : CodecId_from_u16 n = Some id → n = CodecId_as_u16 id.
Proof. intros Hn. destruct n as [|[[]|[]|]]; cbn in Hn; try discriminate; by injection Hn as <-. Qed.

Definition compressed_group (k : N) (offset : N) (plan : SolidGroupPlan) (id : CodecId) (chunks : N)
    (payload : list byte) (crc : N) : GroupTableRecord := {|
  gt_group := {| gr_version := 1; gr_flags := 0; gr_group_id := k;
    gr_codec_chain_id := CodecId_as_u16 id + 1; gr_chunk_count := chunks;
    gr_uncompressed_len := sg_uncompressed_len plan; gr_compressed_len := len payload;
    gr_descriptor_len := 0; gr_payload_crc32c := crc |};
  gt_payload_offset := offset |}.

Section writing.

Context {S : Type} `{Env S} `{FileSystem S} `{Crc32c} `{Laws : !Crc32cLaws} `{Blake3} `{Backends} `{SerdeJson}.

Record encoded_inv (plans : list SolidGroupPlan) (start : N) (handles : list SpoolHandle)
    (written : Spool * list GroupTableRecord * gset N * N) (payloads : list (list byte)) : Prop := {
  ei_spool : holds start (concat payloads) written.1.1.1;
  ei_crc : written.2 = crc32c (concat payloads);
  ei_length : length written.1.1.2 = length handles ∧ length payloads = length handles;
  ei_groups : ∀ k handle, handles !! k = Some handle → ∃ id payload plan chunks crc,
    envelope_parts (sp_file handle) id payload ∧ payloads !! k = Some payload ∧
    plans !! N.to_nat (sp_task_id handle) = Some plan ∧ CodecId_as_u16 id ∈ written.1.2 ∧
    written.1.1.2 !! k = Some (compressed_group (sp_task_id handle) (start + len (concat (take k payloads)))
      plan id chunks payload crc);
}.

Lemma take_app_lookup {A} (l k : list (list A)) i x : l !! i = Some x → take i (l ++ k) = take i l.
Proof. intros Hi. apply take_app_le. apply lookup_lt_Some in Hi. lia. Qed.

Lemma encoded_step_run plans start handles written payloads handle s written' s' :
  encoded_inv plans start handles written payloads →
  encoded_step plans written handle s = (Ok written', s') →
  ∃ payloads', encoded_inv plans start (handles ++ [handle]) written' payloads'.
Proof.
  destruct written as [[[spool groups] used] crc]. intros [Hh Hcrc [Hgl Hpl] Hall]. cbn [fst snd] in *.
  unfold encoded_step, SpoolHandle_read_all. intros Hr. m_inv.
  repeat match goal with Hx : spool_write _ _ _ = _ |- _ => apply spool_write_Ok in Hx; subst end.
  match goal with Hx : ok_or UnsupportedCodec _ = Ok ?i |- _ => rename i into id; apply ok_or_Ok in Hx; rename Hx into Hid end.
  match goal with Hx : ok_or _ (plans !! _) = Ok ?p |- _ => rename p into plan; apply ok_or_Ok in Hx; rename Hx into Hplan end.
  repeat match goal with Hx : ok_or IntegerOverflow _ = Ok _ |- _ => apply ok_or_Ok in Hx end. arith_inv.
  set (payload := drop 2 (sp_file handle)) in *. pose proof Hh as [Hpos _].
  exists (payloads ++ [payload]). split; cbn [fst snd].
  - rewrite concat_app, concat_cons, app_nil_r. by apply holds_put.
  - rewrite concat_app, concat_cons, app_nil_r. unfold crc32c. by rewrite crc32c_append_app by lia.
  - rewrite !length_app. cbn. lia.
  - intros k handle' [Hk|[Hge Hk]]%lookup_app_Some.
    + destruct (Hall k handle' Hk) as (id' & payload' & plan' & chunks & c & Hparts & Hp & Hpl' & Hu & Hg).
      exists id', payload', plan', chunks, c. split; [done|]. split; [by apply lookup_app_keep|]. split; [done|].
      split; [set_solver|]. rewrite (take_app_lookup _ _ _ _ Hp). by apply lookup_app_keep.
    + destruct (k - length handles)%nat eqn:Hd; [|done]. injection Hk as <-.
      assert (k = length handles) as -> by lia. exists id, payload, plan, (sg_item_count plan), (crc32c payload).
      split; [done|]. split; [rewrite <-Hpl; by apply list_lookup_middle|]. split; [done|].
      rewrite <-(from_u16_as_u16 _ _ Hid). split; [set_solver|].
      rewrite <-Hgl at 1. rewrite list_lookup_middle by done. rewrite <-Hpl, take_app_length, Hpos. unfold compressed_group. by rewrite <-(from_u16_as_u16 _ _ Hid).
Qed.

Lemma encoded_fold_run plans start handles spool s written s' :
  holds start [] spool →
  fold_m (encoded_step plans) (spool, [], ∅, 0) handles s = (Ok written, s') →
  ∃ payloads, encoded_inv plans start handles written payloads.
Proof.
  intros Hh Hf.
  apply (fold_m_inv (λ done_ written _, ∃ payloads, encoded_inv plans start done_ written payloads) _ []) in Hf; [exact Hf| |].
  - intros done_ a b s1 b' s1' _ [payloads Hb] Hstep. by eapply encoded_step_run.
  - exists []. split; cbn; [exact Hh|unfold crc32c; by rewrite crc32c_append_nil|done|done].
Qed.

End writing.

(** ** The registry *)

Lemma registry_record_Ok codec_id r :
  registry_record codec_id = Ok r → ∃ id, codec_id = CodecId_as_u16 id ∧ r = {|
    cr_chain_id := CodecId_as_u16 id + 1; cr_codec_id := CodecId_as_u16 id; cr_codec_version := CODEC_VERSION_V1;
    cr_level := cfg_level (CodecConfig_deterministic_default id); cr_flags := CODEC_FLAG_REQUIRED |}.
Proof.
  unfold registry_record. intros (id & Hid & [= <-])%bind_Ok. apply ok_or_Ok, from_u16_as_u16 in Hid as ->. by exists id.
Qed.

Lemma used_registry_size used registry : used_registry used = Ok registry → len registry <= 4.
Proof.
  unfold used_registry. intros Hf%try_map_Ok.
  unfold len. rewrite <-(Forall2_length _ _ _ Hf).
  assert (Hsub : ascending used ⊆+ [0; 1; 2; 3]).
  { apply NoDup_submseteq; [apply NoDup_ascending|]. intros x [k Hk]%list_elem_of_lookup.
    destruct (Forall2_lookup_l _ _ _ _ _ Hf Hk) as (r & _ & (id & -> & _)%registry_record_Ok).
    destruct id; set_solver. }
  apply submseteq_length in Hsub. cbn in Hsub. lia.
Qed.

(** Reading inverts writing. *)
Lemma used_registry_decode used registry b :
  used_registry used = Ok registry → CodecRegistry_encode registry = Ok b →
  CodecRegistry_decode b 32 = Ok registry.
Proof.
  intros Hu He. apply CodecRegistry_decode_complete. split; [done|].
  assert (Hall : Forall (λ r, CodecRegistryRecord_wf r ∧ CodecRegistryRecord_validate_for_decode r = Ok tt) registry).
  { unfold used_registry in Hu. apply try_map_Ok in Hu. apply Forall_lookup. intros i r Hi.
    destruct (Forall2_lookup_r _ _ _ _ _ Hu Hi) as (c & _ & (id & -> & ->)%registry_record_Ok).
    by destruct id; vm_compute. }
  apply Forall_and in Hall as [Hwf Hv]. split; [done|]. split; [|done].
  apply used_registry_size in Hu. lia.
Qed.

Lemma used_registry_chain used registry id :
  used_registry used = Ok registry → CodecId_as_u16 id ∈ used →
  ∃ r, CodecRegistry_chain registry (CodecId_as_u16 id + 1) = Some r ∧ cr_codec_id r = CodecId_as_u16 id.
Proof.
  unfold used_registry, CodecRegistry_chain. intros Hf%try_map_Ok Hin.
  destruct (List.find _ registry) as [r|] eqn:Hfind.
  - exists r. split; [done|]. apply find_some in Hfind as [Hr Hc]. apply N.eqb_eq in Hc.
    apply list_elem_of_In, list_elem_of_lookup in Hr as [i Hi].
    destruct (Forall2_lookup_r _ _ _ _ _ Hf Hi) as (c & _ & (id' & -> & ->)%registry_record_Ok).
    cbn in *. lia.
  - apply elem_of_ascending, list_elem_of_lookup in Hin as [i Hi].
    destruct (Forall2_lookup_l _ _ _ _ _ Hf Hi) as (r & Hr & (id' & Hid & ->)%registry_record_Ok).
    apply list_elem_of_lookup_2, list_elem_of_In in Hr. apply (find_none _ _ Hfind) in Hr. cbn in Hr.
    apply N.eqb_neq in Hr. lia.
Qed.

(** ** Sealing the archive *)

Section finishing.

Context {S : Type} `{StableFiles S} `{Crc32c} `{Laws : !Crc32cLaws} `{Blake3} `{BLaws : !Blake3Laws}
  `{Backends} `{SerdeJson} `{JLaws : !SerdeJsonLaws}.

Lemma compressed_finish_run pack_limits limits plans entries restore_map total handles spool groups used crc
    payloads s archive s' :
  compressed_finish pack_limits limits 320 entries restore_map total handles (spool, groups, used, crc) s =
    (Ok archive, s') →
  encoded_inv plans 320 handles (spool, groups, used, crc) payloads →
  total <= u64_MAX → len entries <= u64_MAX → len restore_map <= u64_MAX → len groups <= u64_MAX →
  ∃ registry header secs rest foot p, used_registry used = Ok registry ∧
    layout header secs (concat payloads ++ rest) foot archive ∧
    stored secs archive entries groups restore_map (Some registry) ∧ length secs = 7%nat ∧
    run_calm (verify_open_file archive limits) = Ok p.
Proof.
  intros Hr [Hh Hcrc _ _] Ht He Hm Hg. cbn [fst snd] in *. unfold compressed_finish in Hr. cbv zeta in Hr. m_inv.
  match goal with Hx : used_registry used = Ok ?reg |- _ => exists reg; rename Hx into Hused end.
  match goal with Hx : CodecRegistry_encode _ = Ok ?b |- _ =>
    pose proof (used_registry_decode _ _ _ Hused Hx) as Hdec; clear Hx end.
  unfold serialize in *. pose proof Hh as [Hpos _]. invres.
  repeat match goal with
  | Hw : write_section _ _ _ _ = (Ok (_, ?sp), _), Hx : holds 320 _ _ |- _ =>
      eapply write_section_Ok in Hw; [|exact Hx]; destruct Hw as [-> Hw]; clear Hx
  end.
  match goal with Hx : holds 320 ?b _ |- _ => rename Hx into Hbody end.
  match goal with Hx : _ ≫= _ = Some _ |- _ =>
    apply bind_Some in Hx as (sum_ & [-> Hend]%checked_add_Some & [_ Hmax]%checked_add_Some) end.
  rewrite Hpos in *. rewrite !len_app in *.
  match type of Hr with seal_archive _ ?l _ _ _ _ _ _ _ _ = _ =>
    assert (Hwf : Forall SectionDirectoryRecord_wf l) end.
  { repeat apply Forall_cons_2; try apply Forall_nil_2; apply section_record_wf; try apply crc32c_append_u32; lia. }
  apply (seal_archive_Ok _ _ _ _ _ _ _ _ _ _ _ _ _) with (1 := Hr) in Hbody; try done.
  destruct Hbody as (header & foot & p & Hl & Hv).
  match type of Hl with layout _ (insertion_sort _ ?l) _ _ _ => set (sections := l) in * end.
  assert (Hloc : ∀ t pre bytes post c,
    (((((concat payloads ++ v1) ++ v2) ++ v3) ++ v4) ++ v5) ++ v6 = pre ++ bytes ++ post →
    section_record t (320 + len pre) (len bytes) c ∈ sections →
    located (insertion_sort compare_section sections) archive t bytes).
  { intros t pre bytes post c Heq Hin. by eapply sorted_located; [exact Hl|exact Heq| |exact Hin]. }
  exists header, (insertion_sort compare_section sections), (v1 ++ v2 ++ v3 ++ v4 ++ v5 ++ v6), foot, p.
  split; [done|]. split; [by rewrite !app_assoc|]. rewrite sorted_length. split; [|done]. split.
  - exists v2. split; [done|]. apply (Hloc _ (concat payloads ++ v1) _ (v3 ++ v4 ++ v5 ++ v6) (crc32c v2)).
    + by rewrite <-!app_assoc.
    + rewrite !len_app. apply elem_of_cons; right. apply list_elem_of_here.
  - exists v3. split; [done|]. apply (Hloc _ ((concat payloads ++ v1) ++ v2) _ (v4 ++ v5 ++ v6) (crc32c v3)).
    + by rewrite <-!app_assoc.
    + rewrite !len_app. do 2 (apply elem_of_cons; right). apply list_elem_of_here.
  - exists v4. split; [done|]. apply (Hloc _ (((concat payloads ++ v1) ++ v2) ++ v3) _ (v5 ++ v6) (crc32c v4)).
    + by rewrite <-!app_assoc.
    + rewrite !len_app. do 4 (apply elem_of_cons; right). apply list_elem_of_here.
  - split; [unfold len; by rewrite sorted_length|]. exists v1. split; [done|].
    apply (Hloc _ (concat payloads) _ (v2 ++ v3 ++ v4 ++ v5 ++ v6) (crc32c v1)).
    + by rewrite <-!app_assoc.
    + apply list_elem_of_here.
Qed.

(** ** Decoding a group and slicing it *)

(** A payload lies where its group says. *)
Lemma payload_in_archive header secs payloads rest foot archive k payload :
  layout header secs (concat payloads ++ rest) foot archive → length secs = 7%nat →
  payloads !! k = Some payload →
  sub (N.to_nat (320 + len (concat (take k payloads)))) (length payload) archive = payload.
Proof.
  intros [Harch [Hwf _] _ _ _] Hsecs Hk.
  rewrite Harch, app_assoc, sub_app_skip; rewrite length_app, directory_length,
    (GlobalHeader_encode_length _ Hwf), Hsecs; unfold len; [|unfold SECTION_ENTRY_LEN, HEADER_LEN; lia].
  rewrite <-app_assoc. rewrite <-(take_drop_middle payloads _ payload Hk) at 2. rewrite concat_app. cbn [concat].
  rewrite <-!app_assoc. apply sub_app_here; unfold SECTION_ENTRY_LEN, HEADER_LEN; lia.
Qed.

Lemma decode_compressed `{BL : !BackendLaws} archive limits registry used k offset plan id chunks payload crc input decoded :
  used_registry used = Ok registry → CodecId_as_u16 id ∈ used →
  sub (N.to_nat offset) (length payload) archive = payload →
  encodes id input payload → sg_uncompressed_len plan = len input →
  len input <= u64_MAX - N.of_nat COPY_BUFFER_SIZE →
  run_calm (decode_group archive (compressed_group k offset plan id chunks payload crc) (Some registry) limits) =
    Ok decoded → decoded = input.
Proof.
  intros Hused Hin Hsub [st Henc] Hlen Hmax. unfold decode_group, compressed_group, group_codec_id.
  cbn [gt_group gt_payload_offset gr_compressed_len gr_codec_chain_id gr_uncompressed_len gr_payload_crc32c].
  rewrite (proj2 (N.eqb_neq _ _)) by lia.
  destruct (used_registry_chain _ _ _ Hused Hin) as (r & Hr & Hid). cbn [ok_or mbind result_bind]. rewrite Hr.
  cbn [ok_or mbind result_bind]. rewrite Hid. intros Hd. calm_inv.
  match goal with Hx : read_exact_vec _ _ _ _ = Ok _ |- _ => apply read_exact_vec_Ok in Hx as [_ ->] end.
  assert (sub (N.to_nat offset) (N.to_nat (len payload)) archive = payload) as Hp.
  { unfold len. by rewrite Nat2N.id. }
  rewrite Hp in *. rewrite Hlen in *.
  assert (CodecId_from_u16 (CodecId_as_u16 id) = Some id) as Hfrom by (by destruct id).
  rewrite Hfrom in *. match goal with Hx : Some id = Some _ |- _ => injection Hx as <- end.
  match goal with Hx : default _ _ = Ok _ |- _ => rewrite (Codec_decode_encode _ _ _ _ _ _ Henc Hmax) in Hx; by injection Hx end.
Qed.

End finishing.

Lemma concat_slice (content : list byte → list byte) pre source post :
  Forall (λ source, len (content (src_path source)) = src_size source) (pre ++ source :: post) →
  sub (N.to_nat (sum (map src_size pre))) (N.to_nat (src_size source))
    (concat (map (λ source, content (src_path source)) (pre ++ source :: post))) = content (src_path source).
Proof.
  intros Hall. apply Forall_app in Hall as [Hpre [Hs _]%Forall_cons].
  rewrite map_app, concat_app. cbn [map concat]. apply sub_app_here; [|rewrite <-Hs; unfold len; lia].
  clear Hs. induction Hpre as [|x pre Hx Hpre IH]; [done|]. cbn [map concat].
  change (sum (?x :: ?y)) with (x + sum y). rewrite length_app. unfold len in *. lia.
Qed.

Lemma NoDup_map_inj {A B} (f : A → B) l x y : NoDup (map f l) → x ∈ l → y ∈ l → f x = f y → x = y.
Proof.
  intros Hnd [i Hi]%list_elem_of_lookup [j Hj]%list_elem_of_lookup He.
  assert (i = j) as <-; [|congruence].
  eapply NoDup_lookup; [exact Hnd|rewrite list_lookup_fmap, Hi; done|]. rewrite list_lookup_fmap, Hj. cbn. congruence.
Qed.

(** ** The round trip *)

Section slices.

Context {S : Type} `{StableFiles S} `{Crc32c} `{Laws : !Crc32cLaws} `{Blake3} `{BLaws : !Blake3Laws}
  `{Backends} `{BL : !BackendLaws} `{SerdeJson} `{JLaws : !SerdeJsonLaws}.

Lemma compressed_slice header secs payloads rest foot archive limits p sources plans handles spool groups used crc
    registry entries restore_map entries0 j e c :
  layout header secs (concat payloads ++ rest) foot archive → length secs = 7%nat →
  used_registry used = Ok registry →
  encoded_inv plans 320 handles (spool, groups, used, crc) payloads →
  length handles = length plans →
  (∀ k handle, handles !! k = Some handle → sp_task_id handle = N.of_nat k ∧
    ∃ plan, plans !! k = Some plan ∧ envelope_of sources plan (sp_file handle)) →
  assigned sources (enumerate plans) entries0 entries restore_map →
  NoDup (map src_entry_id sources) → max_group_output limits <= u64_MAX - N.of_nat COPY_BUFFER_SIZE →
  pa_groups p = groups → pa_restore_map p = restore_map → pa_codec_registry p = Some registry →
  is_file e = true → er_entry_id e = N.of_nat j → source_data contents sources e c →
  slice_is archive limits p j e c.
Proof.
  intros Hl Hsecs Hused [_ _ [Hgl Hpl] Henc] Hhl Hhandles Ha Hnd Hmax Hg Hm Hreg Hf Hid (source & Hin & Hsid & Hc).
  cbn [fst snd] in *. unfold is_file in Hf. destruct (er_kind e) as [g| | |] eqn:Hk; try done.
  exists g. split; [done|]. intros record r decoded Hrec Hr Hrid Hmaxg _ _ Hdec.
  rewrite Hg in Hrec. rewrite Hm in Hr. apply mappings_in in Hr as [Hr Hrg]. rewrite Hreg in Hdec.
  destruct (assigned_restore _ _ _ _ _ Ha r Hr) as (plan & members & Hplan & Hmem & Hrin).
  rewrite Hrg in Hplan, Hrin. apply elem_of_enumerate in Hplan.
  destruct (member_records_in _ _ _ _ Hrin) as (pre & source' & post & Hmembers & _ & Hrs & Hrl & Hro).
  assert (source' = source) as ->.
  { apply (NoDup_map_inj src_entry_id sources); [done| |done|congruence].
    apply group_members_Ok in Hmem as [Hsub _]. eapply elem_of_subseteq; [|]. 2: { rewrite Hmembers in Hsub.
      assert (source' ∈ pre ++ source' :: post) as Hx by (apply elem_of_app; right; by left). exact Hx. }
    rewrite <-Hmembers, Hsub. unfold sub. intros x Hx%elem_of_take. destruct Hx as (i & Hx & _).
    rewrite lookup_drop in Hx. by eapply list_elem_of_lookup_2. }
  assert (∃ handle, handles !! N.to_nat g = Some handle) as [handle Hh].
  { apply lookup_lt_is_Some. rewrite Hhl. by eapply lookup_lt_Some. }
  destruct (Hhandles _ _ Hh) as (Htid & plan' & Hplan' & members' & id & payload & Hmem' & Hall & Hfile & Hencodes).
  assert (plan' = plan) as -> by congruence. assert (members' = members) as -> by congruence.
  destruct (Henc _ _ Hh) as (id' & payload' & plan'' & chunks & crc' & Hparts & Hpay & Hplan'' & Hu & Hgroup).
  rewrite Hfile in Hparts. apply envelope_parts_join in Hparts as [-> ->].
  rewrite Htid, Nat2N.id in Hplan''. assert (plan'' = plan) as -> by congruence.
  assert (record = compressed_group (sp_task_id handle) (320 + len (concat (take (N.to_nat g) payloads))) plan id
    chunks payload crc') as -> by congruence.
  set (input := concat (map (λ source, contents (src_path source)) members)) in *.
  assert (Hlen : sg_uncompressed_len plan = len input).
  { pose proof (assigned_plans _ _ _ _ _ Ha) as Hps. rewrite Forall_forall in Hps.
    destruct (Hps (g, plan)) as (members' & Hmem'' & Hsum); [by apply elem_of_enumerate|].
    assert (members' = members) as -> by congruence. rewrite <-Hsum. unfold input.
    clear -Hall. induction Hall as [|x l Hx Hall IH]; [done|]. cbn [map concat].
    change (sum (?x :: ?y)) with (x + sum y). rewrite len_app, IH. lia. }
  cbn [compressed_group gt_group gr_uncompressed_len] in Hmaxg.
  eapply decode_compressed in Hdec; [|exact Hused|exact Hu|by eapply payload_in_archive|exact Hencodes|exact Hlen|lia].
  subst decoded. unfold slice_of. rewrite Hro, Hrl, N.add_0_l. unfold input. rewrite Hmembers in *.
  rewrite concat_slice by done. done.
Qed.

End slices.

Lemma default_Ok {A} (e : PithosError) (r : option (Result A)) v : default (Err e) r = Ok v → r = Some (Ok v).
Proof. destruct r as [r|]; cbn; congruence. Qed.

Lemma regrouped_Forall2 content sources entries entries' scanned :
  regrouped entries entries' →
  Forall2 (entry_from (source_data content sources) content entries) entries scanned →
  Forall2 (entry_from (λ e c, is_file e = true ∧ source_data content sources e c) content entries') entries' scanned.
Proof.
  intros Hr. rewrite !Forall2_lookup. intros Hf i. specialize (Hf i).
  pose proof (proj1 (Forall2_lookup _ _ _) Hr i) as Hri.
  destruct (entries !! i) as [e|]; inversion Hri as [? e' He E1 E2|E1 E2]; subst.
  - inversion Hf as [? se Hse E3 E4|]; subst. constructor.
    destruct (regrouped_entry_from _ _ _ _ _ _ _ Hr He Hse) as [Hd Hk]. split; [done|].
    destruct (se_kind se); [|done|done].
    destruct Hk as [[? ?]|(t & target & ? & ? & ? & ?)]; [left; auto|right; exists t, target; auto 6].
  - inversion Hf; subst. constructor.
Qed.

(** C2: the compressed profiles lose nothing.  If packing the scanned inputs
    succeeds, whatever the environment and the interleaving of the workers
    do, and the contents of the files do not change while they are read, then
    the committed archive passes verification; it has one entry per input, in
    order, with its path, time, mode and kind; and extracting or reading the
    entry of a file, also of one recorded as a hardlink, delivers exactly the
    file's contents, whichever codec its group was encoded with. *)
Theorem pack_compressed_correct {S : Type} `{StableFiles S} `{WorkerPool S} `{Crc32c} `{Laws : !Crc32cLaws}
    `{Blake3} `{BLaws : !Blake3Laws} `{Backends} `{BL : !BackendLaws} `{SerdeJson} `{JLaws : !SerdeJsonLaws}
    profile pack_limits scanned archive (s s' : S) :
  pack_compressed profile pack_limits scanned s = (Ok archive, s') →
  consistent contents scanned → len scanned <= usize_MAX →
  let limits := compressed_decode_limits pack_limits in
  ∃ p, run_calm (verify_open_file archive limits) = Ok p ∧
    Forall2 (packed_entry contents archive limits) (pa_entries p) scanned.
Proof.
  intros Hr Hcons Hlen. unfold pack_compressed in Hr. cbv zeta in Hr. m_inv.
  match goal with
  | Hx : fold_m (compressed_step _) _ _ _ = (Ok ?v, _), Hp : plan_solid_groups _ _ = Ok ?pl,
    Ha : try_fold (assign_group_step _) _ _ = Ok (?en, ?rm), Hc : SchedulerConfig_new _ _ _ = Ok ?cf,
    Ht : try_map (group_task _ _ _) _ = Ok _, He : default _ (execute_scheduled _ _ _) = Ok ?hs,
    Hw : fold_m (encoded_step _) _ _ _ = (Ok ?wr, _) |- _ =>
      rename v into st; rename pl into plans; rename en into entries; rename rm into restore_map;
      rename hs into handles; rename cf into config; destruct wr as [[[spool groups] used] crc];
      rename Hx into Hfold; rename Hp into Hplans; rename Ha into Hassign; rename Hc into Hconfig;
      rename Ht into Htasks; rename He into Hexec; rename Hw into Hwritten
  end.
  apply compressed_fold_run in Hfold as [Hents _ Hsrc Hnd Hpos Htot Hcount]; [|done].
  pose proof (Forall2_length _ _ _ Hents) as Hel.
  destruct (tiles_count _ _ _ (plan_solid_groups_tiles _ _ _ Hplans)) as [Hitems Hgroups].
  rewrite len_map in Hitems, Hgroups.
  apply (assign_fold _ []) with (entries0 := ct_entries st) in Hassign.
  2: { eapply Forall_impl; [exact Hsrc|]. by intros x [? _]. }
  2: { split; [apply regrouped_refl|by intros r ?%not_elem_of_nil|constructor|done]. }
  cbn [app] in Hassign.
  assert (Hrm : len restore_map = len (ct_sources st)).
  { rewrite (assigned_count _ _ _ _ _ Hassign), <-Hitems. f_equal. unfold enumerate. generalize 0.
    clear. induction plans as [|pl plans IH]; intros i; cbn; [done|]. by rewrite IH. }
  apply default_Ok in Hexec.
  assert (Hbounds : 0 < sc_workers config <= usize_MAX ∧ sc_memory_budget config <= u64_MAX).
  { unfold SchedulerConfig_new in Hconfig. apply if_Err_Ok in Hconfig as [Hz Hconfig]. cbn in Hconfig.
    destruct (negb _); [done|]. injection Hconfig as <-. cbn. arith_inv. lia. }
  destruct (handles_envelopes _ _ _ _ _ _ _ _ Htasks ltac:(unfold len in *; lia) (proj1 Hbounds) (proj2 Hbounds) Hexec)
    as [Hhl Hhandles].
  invres. repeat match goal with Hx : spool_seek _ _ _ = _ |- _ => apply spool_seek_Ok in Hx; subst end.
  eapply (encoded_fold_run plans 320) in Hwritten as [payloads Henc]; [|apply holds_seek].
  destruct (compressed_finish_run _ _ _ _ _ _ _ _ _ _ _ _ _ _ _ Hr Henc Htot) as
    (registry & header & secs & rest & foot & p & Hused & Hl & Hst & Hsecs & Hv).
  1-3: pose proof (Forall2_length _ _ _ (assigned_entries _ _ _ _ _ Hassign)); destruct (ei_length _ _ _ _ _ Henc);
    cbn [fst snd] in *; unfold len in *; lia.
  exists p. split; [done|].
  destruct (verify_open_file_catalog _ _ _ Hv) as (q & Hq & He & Hg & Hmap & Hreg).
  destruct (stored_read_catalog _ _ _ _ _ _ _ _ _ _ _ Hl Hst Hq) as (He' & Hg' & Hm' & Hreg').
  pose proof (catalog_entries _ _ (verified_catalog _ _ _ (verify_open_file_ok _ _ _ Hv))) as Hids.
  eapply (verified_packed (λ e c, is_file e = true ∧ source_data contents (ct_sources st) e c)); [done| |].
  - intros j e c Hj [Hf Hd]. destruct (Hids _ _ Hj) as [Hid _].
    eapply compressed_slice; [exact Hl|exact Hsecs|exact Hused|exact Henc|exact Hhl|exact Hhandles|exact Hassign|exact Hnd|
      vm_compute; discriminate|congruence..|done|done|done].
  - rewrite <-He, He'. eapply regrouped_Forall2; [apply (assigned_entries _ _ _ _ _ Hassign)|exact Hents].
Qed.

(** ** A compressed sample *)

#[local] Existing Instances crc32c_castagnoli crc32c_castagnoli_laws EncodedSample.backends
  EncodedSample.backends_laws Sample.hash PackedSample.hash_laws memory_env.

(** Two files that are encoded together and a second name of the first, packed
    by one worker. *)
Module CompressedSample.

Definition inode (path : list byte) : option Identity :=
  if bool_decide (path = EncodedSample.name 1) then Some (1, 1) else None.
#[export] Instance files : FileSystem Open := memory_files EncodedSample.content inode.
#[export] Instance stable : StableFiles Open := memory_stable EncodedSample.content inode.

(** One task: dispatch it, wait for it, return. *)
#[export] Instance pool : WorkerPool Open := {|
  pool_workers := λ s, (1, s);
  pool_is_dir := λ s, (Ok true, s);
  pool_schedule := λ s,
    ((false, true, [Proceed; Proceed; Proceed; Proceed; Report 0 false false false (Ok tt); Proceed]), s);
  worker_state := λ s _, s |}.

Definition scanned_entry (src : list byte) (names : list (list byte)) (kind : ScannedKind) : ScannedEntry := {|
  se_source := src; se_archive_path := Sample.path names; se_sort_key := concat names;
  se_metadata := memory_metadata EncodedSample.content src; se_identity := inode src; se_kind := kind |}.

Definition scanned : list ScannedEntry := [
  scanned_entry [] [Sample.d] ScannedDirectory;
  scanned_entry (EncodedSample.name 1) [Sample.d; Sample.f] ScannedFile;
  scanned_entry (EncodedSample.name 2) [Sample.d; Sample.text [103]] ScannedFile;
  scanned_entry (EncodedSample.name 1) [Sample.d; Sample.text [104]] ScannedFile].

Definition entries : list EntryRecord := [
  PackedSample.entry 0 [Sample.d] 0 DIRECTORY_LABEL Directory;
  PackedSample.entry 1 [Sample.d; Sample.f] 5 (zeros 5) (File 0);
  PackedSample.entry 2 [Sample.d; Sample.text [103]] 7 (zeros 7) (File 0);
  PackedSample.entry 3 [Sample.d; Sample.text [104]] 5 (zeros 5) (Hardlink 1)].

Definition group : GroupTableRecord :=
  compressed_group 0 320 (SolidGroupPlan_new 0 2 12) Zstd 2 [byte_of 2] (crc32c [byte_of 2]).

Definition restore_map : list RestoreMapRecord := member_records 0 0 [EncodedSample.source 1; EncodedSample.source 2].

#[export] Instance json : SerdeJson := PackedSample.json_for [group] entries restore_map.

Definition archive : list byte :=
  match (pack_compressed Stream PackLimits_default scanned {| open_files := [] |}).1 with
  | Ok a => a | Err _ => [] end.

End CompressedSample.

#[local] Existing Instances CompressedSample.files CompressedSample.stable CompressedSample.pool
  CompressedSample.json PackedSample.json_for_laws.

Lemma compressed_sample_consistent : consistent EncodedSample.content CompressedSample.scanned.
Proof.
  intros a b key Ha Hb Hka Hkb.
  assert (Hall : Forall (λ e, se_identity e = Some key → EncodedSample.content (se_source e) = zeros 5)
    CompressedSample.scanned).
  { repeat apply Forall_cons_2; try apply Forall_nil_2; done. }
  rewrite Forall_forall in Hall. by rewrite (Hall a Ha Hka), (Hall b Hb Hkb).
Qed.

Lemma pack_compressed_correct_witness :
  let limits := compressed_decode_limits PackLimits_default in
  ∃ p, run_calm (verify_open_file CompressedSample.archive limits) = Ok p ∧
    Forall2 (packed_entry EncodedSample.content CompressedSample.archive limits) (pa_entries p)
      CompressedSample.scanned.
Proof.
  apply (pack_compressed_correct (S := Open) (H1 := CompressedSample.stable) Stream PackLimits_default
    CompressedSample.scanned CompressedSample.archive {| open_files := [] |} {| open_files := [[]; []] |}).
  - vm_compute. reflexivity.
  - apply compressed_sample_consistent.
  - vm_compute. discriminate.
Defined.
