(* ===== verification/Daemon.v ===== *)
(** * The daemon's monad and its disk

    Fallible stateful code of the daemon, the system calls that its stores
    use, and what a crash leaves of a published file. *)

From S2P Require Import Prelude Core Bytes Paths AgentApi.

(** [Result<A, JsonRpcError>] over a state. *)
Definition D (S A : Type) : Type := S → RpcResult A * S.

#[export] Instance D_ret {S} : MRet (D S) := λ A v s, (Ok v, s).
#[export] Instance D_bind {S} : MBind (D S) := λ A B f m s,
  match m s with
  | (Ok v, s) => f v s
  | (Err e, s) => (Err e, s)
  end.

Definition d_fail {S A} (e : JsonRpcError) : D S A := λ s, (Err e, s).
Definition d_lift {S A} (r : RpcResult A) : D S A := λ s, (r, s).
Definition d_get {S} : D S S := λ s, (Ok s, s).
Definition d_put {S} (s : S) : D S unit := λ _, (Ok tt, s).

(** A system call that succeeds or not, as [map_err(|_| error)]. *)
Definition d_call {S A} (error : JsonRpcError) (call : S → option A * S) : D S A := λ s,
  match call s with
  | (Some v, s) => (Ok v, s)
  | (None, s) => (Err error, s)
  end.

(** A call on the second part of a state. *)
Definition d_second {R W A} (m : D W A) : D (R * W) A := λ '(r, w),
  let '(v, w) := m w in (v, (r, w)).

Lemma D_bind_Ok {S A B} (m : D S A) (f : A → D S B) s v s' :
  (m ≫= f) s = (Ok v, s') ↔ ∃ a s1, m s = (Ok a, s1) ∧ f a s1 = (Ok v, s').
Proof. unfold mbind, D_bind. destruct (m s) as [[a|e] s1]; naive_solver. Qed.

(** ** The file of a store

    The calls that load and replace it.  A temporary file is represented by
    the bytes written to it. *)
Class Disk (W : Type) := {
  disk_open : PathBuf → W → result ErrorKind unit * W;
  disk_len : PathBuf → W → option N * W;
  disk_read_to_end : PathBuf → W → option (list byte) * W;
  disk_create_dir_all : PathBuf → W → option unit * W;
  disk_new_temporary : PathBuf → W → option unit * W;
  disk_write_all : list byte → W → option unit * W;
  disk_flush : W → option unit * W;
  disk_sync_all : W → option unit * W;
  disk_persist : list byte → PathBuf → W → option unit * W;
  disk_sync_dir : PathBuf → W → option unit * W;
}.

(** Only [persist] replaces the file at [path], and atomically: it leaves the
    temporary file's bytes there or, on failure, what there was.  Nobody else
    writes the file. *)
Class DiskLaws (W : Type) `{Disk W} (path : PathBuf) := {
  contents : W → option (list byte);
  disk_open_contents w : contents (disk_open path w).2 = contents w;
  disk_open_NotFound w : (disk_open path w).1 = Err NotFound → contents w = None;
  disk_len_contents w : contents (disk_len path w).2 = contents w;
  disk_read_contents w : contents (disk_read_to_end path w).2 = contents w;
  disk_read_Some w b : (disk_read_to_end path w).1 = Some b → contents w = Some b;
  disk_create_contents p w : contents (disk_create_dir_all p w).2 = contents w;
  disk_temporary_contents p w : contents (disk_new_temporary p w).2 = contents w;
  disk_write_contents b w : contents (disk_write_all b w).2 = contents w;
  disk_flush_contents w : contents (disk_flush w).2 = contents w;
  disk_sync_all_contents w : contents (disk_sync_all w).2 = contents w;
  disk_persist_Some b w : (disk_persist b path w).1 = Some tt → contents (disk_persist b path w).2 = Some b;
  disk_persist_None b w : (disk_persist b path w).1 = None → contents (disk_persist b path w).2 = contents w;
  disk_sync_dir_contents p w : contents (disk_sync_dir p w).2 = contents w;
}.
