(* ===== verification/DaemonPaths.v ===== *)
(** * Path authorization of the daemon ([crates/pithos-daemon/src/paths.rs])

    The roots that a session or a request may read and write, and the checks
    of a path against them, on the file system of [FileTree]. *)

From S2P Require Import Prelude Core Effects Bytes Paths FileTree Extract AgentApi Daemon.

(** [Path::strip_prefix], as the components that remain. *)
Definition strip_prefix (path base : PathBuf) : option (list Component) :=
  if Path_starts_with path base then Some (drop (length (path_components base)) (path_components path)) else None.

Definition path_denied : JsonRpcError := JsonRpcError_domain PermissionDenied "path is outside the allowed scope".
Definition unsafe_syntax : JsonRpcError := JsonRpcError_domain UnsafePathKind "unsafe path".

Definition reject_unsafe_syntax (path : PathBuf) : RpcResult unit :=
  if bool_decide (path = []) || (32 * 1024 <? len (to_string_lossy path)) then Err path_denied else
  if bool_decide (ParentDir ∈ path_components path) then Err unsafe_syntax else Ok tt.

(** [max_by_key(|root| root.components().count())] keeps the last maximum. *)
Definition longest_step (best : option PathBuf) (root : PathBuf) : option PathBuf :=
  match best with
  | Some best =>
      if (length (path_components best) <=? length (path_components root))%nat then Some root else Some best
  | None => Some root
  end.
Definition longest_root (roots : list PathBuf) : option PathBuf := fold_left longest_step roots None.

Record PathAuthorizer := { read_roots : list PathBuf; write_roots : list PathBuf }.

Definition PathAuthorizer_scope (self : PathAuthorizer) : PathScope :=
  {| ps_read_roots := read_roots self; ps_write_roots := write_roots self |}.

Section paths.
Context {E : Type} `{Env E} `{Disturb E}.

(** A call with [map_err], and one whose error is examined. *)
Definition d_fs {A} (error : JsonRpcError) (call : M (FS E) A) : D (FS E) A := λ s,
  let '(r, s) := call s in (match r with Ok v => Ok v | Err _ => Err error end, s).
Definition d_try {A} (call : M (FS E) A) : D (FS E) (result PithosError A) := λ s,
  let '(r, s) := call s in (Ok r, s).

Definition canonical_root (root : PathBuf) : D (FS E) PathBuf :=
  d_lift (reject_unsafe_syntax root);;
  node ← d_fs path_denied (symlink_metadata root);
  match node with
  | DirNode => d_fs path_denied (canonicalize root)
  | _ => d_fail path_denied
  end.

(** The collection into a [Result] stops at the first failure. *)
Fixpoint canonical_each (roots : list PathBuf) : D (FS E) (list PathBuf) :=
  match roots with
  | [] => mret []
  | root :: roots =>
      root ← canonical_root root;
      roots ← canonical_each roots;
      mret (root :: roots)
  end.
Definition canonical_roots (roots : list PathBuf) : D (FS E) (list PathBuf) :=
  if 64 <? len roots then d_fail (JsonRpcError_resource_limit "too many path roots") else canonical_each roots.

Definition PathAuthorizer_new (scope : PathScope) : D (FS E) PathAuthorizer :=
  if bool_decide (ps_read_roots scope = []) && bool_decide (ps_write_roots scope = []) then d_fail path_denied else
  read ← canonical_roots (ps_read_roots scope);
  write ← canonical_roots (ps_write_roots scope);
  mret {| read_roots := read; write_roots := write |}.

(** The loop over the components below the root. *)
Fixpoint reject_links (current : PathBuf) (components : list Component) : D (FS E) unit :=
  match components with
  | [] => mret tt
  | component :: components =>
      let current := path_push current (component_name component) in
      r ← d_try (symlink_metadata current);
      match r with
      | Ok (LinkNode _) => d_fail path_denied
      | Ok _ => reject_links current components
      | Err e => if bool_decide (e = Io NotFound) then mret tt else d_fail path_denied
      end
  end.

Definition reject_symlink_components (path : PathBuf) (roots : list PathBuf) : D (FS E) unit :=
  root ← d_lift (ok_or path_denied (longest_root (List.filter (Path_starts_with path) roots)));
  relative ← d_lift (ok_or path_denied (strip_prefix path root));
  reject_links root relative.

Definition PathAuthorizer_authorize_read (self : PathAuthorizer) (path : PathBuf) : D (FS E) PathBuf :=
  d_lift (reject_unsafe_syntax path);;
  canonical ← d_fs path_denied (canonicalize path);
  if negb (existsb (Path_starts_with canonical) (read_roots self)) then d_fail path_denied else
  reject_symlink_components canonical (read_roots self);;
  mret canonical.

(** Every iteration takes the parent, so that the components bound their
    number. *)
Fixpoint nearest_parent_loop (fuel : nat) (current : PathBuf) (missing : list (list byte)) : D (FS E) PathBuf :=
  r ← d_try (symlink_metadata current);
  match r with
  | Ok DirNode =>
      canonical ← d_fs path_denied (canonicalize current);
      mret (fold_left path_push (rev missing) canonical)
  | Ok _ => d_fail path_denied
  | Err e =>
      if negb (bool_decide (e = Io NotFound)) then d_fail path_denied else
      name ← d_lift (ok_or path_denied (Path_file_name current));
      parent ← d_lift (ok_or path_denied (Path_parent current));
      match fuel with
      | O => d_fail (JsonRpcError_domain Internal "model: out of fuel")
      | S fuel => nearest_parent_loop fuel parent (missing ++ [name])
      end
  end.
Definition canonicalize_nearest_parent (path : PathBuf) : D (FS E) PathBuf :=
  nearest_parent_loop (length (path_components path)) path [].

Definition PathAuthorizer_authorize_write (self : PathAuthorizer) (path : PathBuf) : D (FS E) PathBuf :=
  d_lift (reject_unsafe_syntax path);;
  parent ← d_lift (ok_or path_denied (Path_parent path));
  canonical_parent ← canonicalize_nearest_parent parent;
  if negb (existsb (Path_starts_with canonical_parent) (write_roots self)) then d_fail path_denied else
  reject_symlink_components canonical_parent (write_roots self);;
  name ← d_lift (ok_or path_denied (Path_file_name path));
  mret (path_push canonical_parent name).

Definition PathAuthorizer_grant (self : PathAuthorizer) (requested : PathScope) : D (FS E) PathAuthorizer :=
  requested ← PathAuthorizer_new requested;
  if existsb (λ root, negb (existsb (Path_starts_with root) (read_roots self))) (read_roots requested) ||
     existsb (λ root, negb (existsb (Path_starts_with root) (write_roots self))) (write_roots requested)
  then d_fail path_denied else mret requested.

Definition PathAuthorizer_revalidate_read (path : PathBuf) : D (FS E) unit :=
  d_lift (reject_unsafe_syntax path);;
  node ← d_fs path_denied (symlink_metadata path);
  match node with
  | LinkNode _ => d_fail path_denied
  | _ =>
      current ← d_fs path_denied (canonicalize path);
      if negb (PathBuf_eqb current path) then d_fail path_denied else mret tt
  end.

Definition PathAuthorizer_revalidate_write (path : PathBuf) : D (FS E) unit :=
  d_lift (reject_unsafe_syntax path);;
  parent ← d_lift (ok_or path_denied (Path_parent path));
  current_parent ← canonicalize_nearest_parent parent;
  if negb (PathBuf_eqb current_parent parent) then d_fail path_denied else
  r ← d_try (symlink_metadata path);
  match r with
  | Ok (LinkNode _) => d_fail path_denied
  | _ => mret tt
  end.
End paths.
