(* ===== verification/RealPaths.v ===== *)
(** * Canonical paths

    Absolute paths without links and what [lstat] and [realpath] find at
    them, and the nearest existing directory of a path. *)

From S2P Require Import Prelude Core Effects Bytes Paths FileTree FileWalk AgentApi DaemonPaths.

(** ** Canonical paths *)

Lemma physical_spec p : Forall plain_name p → path_components (physical p) = RootDir :: map Normal p ∧ physical p ≠ [].
Proof.
  intros Hp. assert (Hv : valid_components (RootDir :: map Normal p)).
  { split; [by left|]. apply Forall_map. eapply Forall_impl; [exact Hp|done]. }
  destruct (path_of_components_spec _ Hv) as [Hc He]. split; [done|]. intros Hn. by apply He in Hn.
Qed.

Lemma physical_snoc p n : physical (p ++ [n]) = path_push (physical p) n.
Proof.
  unfold physical. rewrite map_app. change (RootDir :: map Normal p ++ map Normal [n]) with ((RootDir :: map Normal p) ++ [Normal n]).
  by rewrite path_of_snoc.
Qed.

Lemma physical_push p ns : fold_left path_push ns (physical p) = physical (p ++ ns).
Proof.
  revert p. induction ns as [|n ns IH]; intros p; cbn [fold_left]; [by rewrite app_nil_r|].
  by rewrite <-physical_snoc, IH, <-app_assoc.
Qed.

(** Only the root ends with a slash. *)
Lemma physical_open p n : Forall plain_name (p ++ [n]) → ends_open (physical (p ++ [n])) = false.
Proof. intros [_ [? _]%Forall_cons]%Forall_app. rewrite physical_snoc. by apply ends_open_name. Qed.

Lemma prefix_names p q : map Normal q `prefix_of` map Normal p ↔ q `prefix_of` p.
Proof.
  split.
  - revert p. induction q as [|x q IH]; intros [|y p] Hpre; [apply prefix_nil..| |].
    { by apply prefix_nil_not in Hpre. }
    cbn [map] in Hpre. apply prefix_cons_inv_1 in Hpre as Hxy. injection Hxy as ->.
    apply prefix_cons, IH. by eapply prefix_cons_inv_2.
  - intros [k ->]. rewrite map_app. by eexists.
Qed.

Lemma starts_with_physical p q :
  Forall plain_name p → Forall plain_name q → Path_starts_with (physical p) (physical q) = bool_decide (q `prefix_of` p).
Proof.
  intros Hp Hq. unfold Path_starts_with. destruct (physical_spec p Hp) as [-> _]. destruct (physical_spec q Hq) as [-> _].
  apply bool_decide_ext. rewrite <-prefix_names. split; [by intros ?%prefix_cons_inv_2|by intros ?; apply prefix_cons].
Qed.

Lemma physical_eqb p q : Forall plain_name p → Forall plain_name q → PathBuf_eqb (physical p) (physical q) = bool_decide (p = q).
Proof.
  intros Hp Hq. unfold PathBuf_eqb. destruct (physical_spec p Hp) as [-> _]. destruct (physical_spec q Hq) as [-> _].
  apply bool_decide_ext. split; [|by intros ->]. intros [= He]. assert (Hpq : map Normal p `prefix_of` map Normal q) by by rewrite He.
  apply prefix_names in Hpq as [k ->]. rewrite map_app in He. apply (f_equal length) in He. rewrite length_app, !length_map in He.
  destruct k; [by rewrite app_nil_r|]. cbn in He. lia.
Qed.

(** ** Resolving them *)

(** A tree whose working directory has a path. *)
Record tree_ok (fs : Files) : Prop := {
  tree_wf : wf_files fs;
  tree_cwd : Forall plain_name (ft_cwd fs);
}.

Definition place_path (place : Place) : list Name := match place with At path _ | Missing path => path end.

Lemma components_Normal path : Forall (λ c, ∀ n, c = Normal n → plain_name n) (path_components path).
Proof. apply Forall_forall. intros c Hc n ->. by eapply components_plain. Qed.

Lemma walk_plain links fs follow dir cs place :
  Forall plain_name dir → Forall (λ c, ∀ n, c = Normal n → plain_name n) cs →
  walk links fs follow dir cs = Ok place → Forall plain_name (place_path place).
Proof.
  revert dir cs. induction links as [links IHl] using lt_wf_ind. intros dir cs. revert dir.
  induction cs as [|c cs IH]; intros dir Hd Hcs.
  { rewrite walk_nil. by intros [= <-]. }
  apply Forall_cons in Hcs as [Hc Hcs]. rewrite walk_cons. destruct c as [| | |name]; [by apply IH|by apply IH| |].
  { apply IH; [|done]. destruct dir as [|n dir _] using rev_ind; [done|]. rewrite removelast_snoc.
    by apply Forall_app in Hd as [? _]. }
  assert (Hdn : Forall plain_name (dir ++ [name])) by (apply Forall_app; split; [done|apply Forall_singleton; by apply Hc]).
  cbv zeta. destruct (node_at fs (dir ++ [name])) as [[|inode|target]|].
  - by apply IH.
  - case_bool_decide; [|done]. by intros [= <-].
  - destruct (_ && _); [by intros [= <-]|]. destruct links as [|links]; [done|]. apply IHl; [lia|done|].
    apply Forall_app. split; [apply components_Normal|done].
  - case_bool_decide; [|done]. by intros [= <-].
Qed.

Lemma resolve_plain fs follow path place :
  tree_ok fs → resolve_place fs follow path = Ok place → Forall plain_name (place_path place).
Proof.
  intros [_ Hc]. unfold resolve_place. case_bool_decide; [done|]. by apply walk_plain, components_Normal.
Qed.

Lemma walk_followed links fs dir cs p node :
  walk links fs true dir cs = Ok (At p node) → ∀ target, node ≠ LinkNode target.
Proof.
  revert dir cs. induction links as [links IHl] using lt_wf_ind. intros dir cs. revert dir.
  induction cs as [|c cs IH]; intros dir; [rewrite walk_nil; by intros [= <- <-]|]. rewrite walk_cons.
  destruct c as [| | |name]; [apply IH..|]. cbv zeta.
  destruct (node_at fs (dir ++ [name])) as [[|inode|target]|]; [apply IH| | |].
  - case_bool_decide; [|done]. by intros [= <- <-].
  - cbn [negb]. rewrite andb_false_r. destruct links as [|links]; [done|]. apply IHl. lia.
  - by case_bool_decide.
Qed.

Lemma walk_dirs links fs follow S ns :
  wf_files fs → node_at fs (S ++ ns) = Some DirNode → walk links fs follow S (map Normal ns) = Ok (At (S ++ ns) DirNode).
Proof.
  intros Hwf. revert S. induction ns as [|n ns IH]; intros S Hd; cbn [map].
  { rewrite walk_nil. by rewrite app_nil_r. }
  rewrite walk_cons. cbv zeta. replace (S ++ n :: ns) with ((S ++ [n]) ++ ns) in * by by rewrite <-app_assoc.
  assert (Hn : node_at fs (S ++ [n]) = Some DirNode).
  { destruct ns as [|n' ns]; [by rewrite app_nil_r in Hd|]. by eapply wf_prefix. }
  rewrite Hn. by apply IH.
Qed.

(** A node is found at its canonical path. *)
Lemma resolve_physical fs follow p node :
  tree_ok fs → Forall plain_name p → node_at fs p = Some node → (follow = true → ∀ target, node ≠ LinkNode target) →
  resolve_place fs follow (physical p) = Ok (At p node).
Proof.
  intros [Hwf _] Hp Hn Hl. unfold resolve_place. destruct (physical_spec p Hp) as [-> Hne].
  rewrite bool_decide_eq_false_2 by done. rewrite walk_cons.
  destruct p as [|n d _] using rev_ind; [cbn in Hn; cbn [map]; injection Hn as <-; by rewrite walk_nil|].
  assert (Hd : node_at fs d = Some DirNode) by by eapply wf_prefix.
  rewrite map_app. change (map Normal [n]) with [Normal n]. pose proof (walk_dirs MAXSYMLINKS fs true [] d Hwf Hd) as Hw. cbn [app] in Hw.
  destruct follow; [by apply walk_snoc_node; auto|]. apply walk_snoc. exists d. split; [done|]. unfold entry_place. by rewrite Hn.
Qed.

Lemma resolve_missing fs follow p n :
  tree_ok fs → Forall plain_name (p ++ [n]) → node_at fs p = Some DirNode → node_at fs (p ++ [n]) = None →
  resolve_place fs follow (physical (p ++ [n])) = Ok (Missing (p ++ [n])).
Proof.
  intros [Hwf _] Hp Hd Hn. unfold resolve_place. destruct (physical_spec _ Hp) as [-> Hne].
  rewrite bool_decide_eq_false_2 by done. rewrite walk_cons, map_app. change (map Normal [n]) with [Normal n].
  pose proof (walk_dirs MAXSYMLINKS fs true [] p Hwf Hd) as Hw. cbn [app] in Hw.
  destruct (walk_app _ _ follow _ _ _ [Normal n] Hw ltac:(done)) as [l ->]. rewrite walk_cons. cbv zeta. by rewrite Hn.
Qed.

(** ** Metadata *)

(** What [lstat] and [realpath] find. *)
Definition stat_of (fs : Files) (follow : bool) (path : PathBuf) : result ErrorKind (list Name * Node) :=
  match resolve_place fs (follow || ends_open path) path with
  | Ok (At at_ DirNode) => Ok (at_, DirNode)
  | Ok (At at_ node) => if ends_open path then Err OtherKind else Ok (at_, node)
  | Ok (Missing _) => Err NotFound
  | Err kind => Err kind
  end.

Lemma stat_of_resolve fs follow path at_ node :
  stat_of fs follow path = Ok (at_, node) → resolve_place fs (follow || ends_open path) path = Ok (At at_ node).
Proof.
  unfold stat_of. destruct (resolve_place _ _ _) as [[p [|i|t]|]|]; try destruct (ends_open path); naive_solver.
Qed.

Lemma stat_of_ok fs follow path at_ node :
  tree_ok fs → stat_of fs follow path = Ok (at_, node) →
  Forall plain_name at_ ∧ node_at fs at_ = Some node ∧ (follow = true → ∀ target, node ≠ LinkNode target).
Proof.
  intros Ht Hs%stat_of_resolve. split; [exact (resolve_plain _ _ _ _ Ht Hs)|].
  split; [exact (resolve_place_ok _ _ _ _ (tree_wf _ Ht) Hs)|]. intros ->. cbn [orb] in Hs. unfold resolve_place in Hs.
  case_bool_decide; [done|]. exact (walk_followed _ _ _ _ _ _ Hs).
Qed.

(** A directory found at the end of a path that is or is not followed. *)
Lemma stat_of_dir fs cs d :
  path_of_components cs ≠ [] → valid_components cs →
  stat_of fs false (path_of_components cs) = Ok (d, DirNode) →
  walk MAXSYMLINKS fs true (ft_cwd fs) cs = Ok (At d DirNode).
Proof.
  intros Hne Hv Hs%stat_of_resolve. unfold resolve_place in Hs. rewrite bool_decide_eq_false_2 in Hs by done.
  destruct (path_of_components_spec cs Hv) as [Hc _]. rewrite Hc in Hs.
  destruct (false || _); [done|]. by apply walk_follow in Hs.
Qed.

Lemma stat_of_physical fs follow p node :
  tree_ok fs → Forall plain_name p → node_at fs p = Some node → (follow = true → ∀ target, node ≠ LinkNode target) →
  stat_of fs follow (physical p) = Ok (p, node).
Proof.
  intros Ht Hp Hn Hl. unfold stat_of. destruct p as [|n p _] using rev_ind.
  - injection Hn as <-. by rewrite (resolve_physical _ _ [] DirNode).
  - rewrite physical_open, orb_false_r, (resolve_physical _ _ _ node) by done. by destruct node.
Qed.

(** A node at [d] which is no link, and nothing below it by [ms]. *)
Record backed (fs : Files) (d ms : list Name) (node : Node) : Prop := {
  backed_node : node_at fs d = Some node;
  backed_link : ∀ target, node ≠ LinkNode target;
  backed_dir : ms ≠ [] → node = DirNode;
  backed_missing : ∀ m, head ms = Some m → node_at fs (d ++ [m]) = None;
}.

Lemma stat_of_absent fs follow d m ms :
  tree_ok fs → Forall plain_name (d ++ m :: ms) → node_at fs d = Some DirNode → node_at fs (d ++ [m]) = None →
  stat_of fs follow (physical (d ++ m :: ms)) = Err NotFound.
Proof.
  intros Ht Hp Hd Hm. assert (Hr : resolve_place fs follow (physical (d ++ m :: ms)) = Err NotFound ∨
    ∃ p, resolve_place fs follow (physical (d ++ m :: ms)) = Ok (Missing p)).
  { unfold resolve_place. destruct (physical_spec _ Hp) as [-> Hne].
    rewrite bool_decide_eq_false_2 by done. rewrite walk_cons, map_app. cbn [map].
    pose proof (walk_dirs MAXSYMLINKS fs true [] d (tree_wf _ Ht) Hd) as Hw. cbn [app] in Hw.
    destruct (walk_app _ _ follow _ _ _ (Normal m :: map Normal ms) Hw ltac:(done)) as [l ->]. rewrite walk_cons. cbv zeta. rewrite Hm.
    case_bool_decide; eauto. }
  unfold stat_of. assert (Ho : ends_open (physical (d ++ m :: ms)) = false).
  { destruct ms as [|m' ms _] using rev_ind; [by apply physical_open|].
    rewrite app_comm_cons, app_assoc in Hp |- *. by apply physical_open. }
  rewrite Ho, orb_false_r. by destruct Hr as [-> |[p ->]].
Qed.

(** No name on the way is a link. *)
Lemma backed_prefix fs d ms node k :
  tree_ok fs → Forall plain_name (d ++ ms) → backed fs d ms node → k `prefix_of` d ++ ms →
  (∃ node', stat_of fs false (physical k) = Ok (k, node') ∧ ∀ target, node' ≠ LinkNode target) ∨
  stat_of fs false (physical k) = Err NotFound.
Proof.
  intros Ht Hp [Hn Hl Hd Hm] Hk. assert (Hpk : Forall plain_name k) by (destruct Hk as [r Hr]; rewrite Hr in Hp; by apply Forall_app in Hp as [? _]).
  destruct Hk as [r Hr]. apply app_eq_inv in Hr as [(e & -> & ->)|(e & -> & ->)].
  - left. destruct (decide (e = [])) as [->|He].
    + rewrite app_nil_r in Hn. exists node. split; [|done]. by apply stat_of_physical.
    + exists DirNode. split; [|done]. apply stat_of_physical; [done..| |done]. by eapply wf_prefix; [apply Ht|exact Hn|].
  - destruct e as [|m e].
    + left. exists node. rewrite app_nil_r in *. split; [|done]. by apply stat_of_physical.
    + right. apply stat_of_absent; [done..| |by apply Hm]. rewrite Hn. f_equal. by apply Hd.
Qed.

Lemma backed_ways fs d ms node k :
  tree_ok fs → backed fs d ms node → k `prefix_of` d ++ ms → k ≠ d → node_at fs k = Some DirNode ∨ node_at fs k = None.
Proof.
  intros Ht [Hn _ _ Hm] [r Hr] Hne. apply app_eq_inv in Hr as [(e & -> & ->)|(e & -> & ->)].
  - left. destruct (decide (e = [])) as [->|He]; [by rewrite app_nil_r in Hne|]. by eapply wf_prefix; [apply Ht|exact Hn|].
  - destruct e as [|m e]; [by rewrite app_nil_r in Hne|]. right. specialize (Hm m eq_refl).
    destruct e as [|m' e]; [done|]. destruct (node_at fs (d ++ m :: m' :: e)) as [node'|] eqn:Hk; [|done].
    change (d ++ m :: m' :: e) with (d ++ [m] ++ m' :: e) in Hk. rewrite app_assoc in Hk.
    apply wf_prefix in Hk; [|apply Ht|done]. congruence.
Qed.

Lemma resolve_same fs follow path path' :
  path_components path = path_components path' → path_components path ≠ [] → resolve_place fs follow path = resolve_place fs follow path'.
Proof.
  intros Hc Hne. unfold resolve_place. rewrite !bool_decide_eq_false_2, Hc; [done|by intros ->|intros ->; by rewrite Hc in Hne].
Qed.

(** ** The nearest parent *)

Lemma stat_of_nonempty fs follow path v : stat_of fs follow path = Ok v → path ≠ [].
Proof. unfold stat_of, resolve_place. by intros Hs ->. Qed.

Lemma stat_of_follow fs path d : stat_of fs false path = Ok (d, DirNode) → stat_of fs true path = Ok (d, DirNode).
Proof.
  intros Hs. pose proof (stat_of_nonempty _ _ _ _ Hs) as Hne. apply stat_of_resolve in Hs. unfold stat_of.
  cbn [orb] in Hs |- *. destruct (ends_open path); [by rewrite Hs|]. unfold resolve_place in *.
  rewrite bool_decide_eq_false_2 in * by done. by apply walk_follow in Hs as ->.
Qed.

Lemma valid_plain cs n : valid_components (cs ++ [Normal n]) → plain_name n.
Proof.
  destruct cs as [|c cs]; [by intros [[?|[?|?]] _]|]. by intros [_ [_ [? _]%Forall_cons]%Forall_app].
Qed.

Lemma stat_of_child fs cs d m :
  tree_ok fs → valid_components (cs ++ [Normal m]) → stat_of fs false (path_of_components cs) = Ok (d, DirNode) →
  stat_of fs false (path_of_components (cs ++ [Normal m])) = Err NotFound → node_at fs (d ++ [m]) = None.
Proof.
  intros Ht Hv Hs Hm. assert (Hvc : valid_components cs) by (eapply valid_prefix; [by eexists|exact Hv]).
  pose proof (stat_of_nonempty _ _ _ _ Hs) as Hne. pose proof (stat_of_dir _ _ _ Hne Hvc Hs) as Hw.
  pose proof (valid_plain _ _ Hv) as Hplain.
  destruct (path_of_components_spec _ Hv) as [Hc He]. unfold stat_of in Hm.
  rewrite path_of_snoc in Hm. cbn [component_name] in Hm. rewrite ends_open_name in Hm by done. cbn [orb] in Hm.
  assert (Hr : resolve_place fs false (path_push (path_of_components cs) m) = Ok (entry_place fs d m)).
  { unfold resolve_place. rewrite bool_decide_eq_false_2 by (apply path_push_nonempty; by destruct Hplain).
    rewrite path_of_snoc in Hc. cbn [component_name] in Hc. rewrite Hc. apply walk_snoc. by exists d. }
  rewrite Hr in Hm. unfold entry_place in Hm. by destruct (node_at fs (d ++ [m])) as [[]|].
Qed.

(** Where a write may go: the nearest existing directory [d] of the parent
    [cs] and the names [ms] below it that do not exist. *)
Record nearest (fs : Files) (cs : list Component) (d ms : list Name) : Prop := {
  nearest_dir : ∃ up, cs = up ++ map Normal ms ∧ stat_of fs false (path_of_components up) = Ok (d, DirNode);
  nearest_backed : backed fs d ms DirNode;
  nearest_plain : Forall plain_name (d ++ ms);
}.

Lemma nearest_absent fs up d m ms :
  valid_components (up ++ map Normal (m :: ms)) → stat_of fs false (path_of_components up) = Ok (d, DirNode) →
  node_at fs (d ++ [m]) = None → stat_of fs false (path_of_components (up ++ map Normal (m :: ms))) = Err NotFound.
Proof.
  intros Hv Hs Hm. assert (Hvu : valid_components up) by (eapply valid_prefix; [by eexists|exact Hv]).
  pose proof (stat_of_dir _ _ _ (stat_of_nonempty _ _ _ _ Hs) Hvu Hs) as Hw.
  unfold stat_of, resolve_place. destruct (path_of_components_spec _ Hv) as [-> He].
  rewrite bool_decide_eq_false_2 by (intros Hn; apply He in Hn; by apply app_nil in Hn as [_ ?]).
  destruct (walk_app _ _ (false || ends_open (path_of_components (up ++ map Normal (m :: ms)))) _ _ _ (map Normal (m :: ms)) Hw ltac:(done)) as [l ->].
  cbn [map]. rewrite walk_cons. cbv zeta. rewrite Hm. by case_bool_decide.
Qed.

(** A parent that exists is its own nearest directory; otherwise the nearest
    directory is that of the parent's parent. *)
Lemma nearest_cases fs cs d ms :
  valid_components cs → nearest fs cs d ms →
  (ms = [] ∧ stat_of fs false (path_of_components cs) = Ok (d, DirNode)) ∨
  (stat_of fs false (path_of_components cs) = Err NotFound ∧
   ∃ cs' ms' n, cs = cs' ++ [Normal n] ∧ ms = ms' ++ [n] ∧ nearest fs cs' d ms').
Proof.
  intros Hv [(up & -> & Hs) [Hn Hl Hd Hm] Hp]. destruct ms as [|n ms _] using rev_ind.
  { left. cbn [map]. by rewrite app_nil_r. }
  right. split.
  - destruct ms as [|m ms]; (eapply nearest_absent; [done|exact Hs|by apply Hm]).
  - exists (up ++ map Normal ms), ms, n. rewrite map_app, app_assoc. split; [done|]. split; [done|]. split.
    + by exists up.
    + split; [done|done|by intros|]. intros m Hh. apply Hm. by destruct ms.
    + rewrite app_assoc in Hp. by apply Forall_app in Hp as [? _].
Qed.

Lemma nearest_unique fs cs d ms d' ms' :
  valid_components cs → nearest fs cs d ms → nearest fs cs d' ms' → d' = d ∧ ms' = ms.
Proof.
  revert d ms d' ms'. induction cs as [|c cs IH] using rev_ind; intros d ms d' ms' Hv H1' H2'.
  all: destruct (nearest_cases _ _ _ _ Hv H1') as [[-> Hs1]|(Hs1 & cs1 & ms1 & n1 & E1 & -> & Hn1)].
  all: destruct (nearest_cases _ _ _ _ Hv H2') as [[-> Hs2]|(Hs2 & cs2 & ms2 & n2 & E2 & -> & Hn2)].
  all: try (split; congruence); try congruence.
  - by destruct cs1.
  - apply app_inj_tail in E1 as [-> [= ->]], E2 as [-> [= ->]].
    destruct (IH d ms1 d' ms2) as [-> ->]; try done. eapply valid_prefix; [by eexists|exact Hv].
Qed.

Lemma nearest_none fs cs d ms :
  valid_components cs → (∀ d, stat_of fs false (path_of_components cs) ≠ Ok (d, DirNode)) →
  stat_of fs false (path_of_components cs) ≠ Err NotFound → ¬ nearest fs cs d ms.
Proof. intros Hv Hd Hm Hn. destruct (nearest_cases _ _ _ _ Hv Hn) as [[_ ?]|[? _]]; [by eapply Hd|done]. Qed.
