(* ===== verification/ScanSafety.v ===== *)
(** * What the scan delivers

    A scan that returns lists every node at or below its inputs once, in the
    order of the keys, within its budget, and the links that it accepts stay
    inside of the input. *)

From S2P Require Import Prelude Core Effects Bytes Paths FileTree FileWalk FileGrowth Catalog Sorting Orders Inputs Pack.
From S2P Require Import AgentApi DaemonPaths RealPaths Scan.

(** ** Runs on a tree that does not change *)

Section yields.
Context {E : Type} `{Env E} `{Disturb E} `{Attributes E}.

(** An error that the environment raised, or one that is not the model's. *)
Definition proper (err : PithosError) : Prop :=
  err = out_of_fuel → ∃ s s' : FS E, env_checkpoint s = (Err err, s').

Definition yields {A} (m : M (FS E) A) (fs : Files) (R : A → Prop) : Prop :=
  ∀ e, (m (fs, e)).2.1 = fs ∧ match (m (fs, e)).1 with Ok a => R a | Err err => proper err end.

Lemma yields_weaken {A} (m : M (FS E) A) fs (R R' : A → Prop) : yields m fs R → (∀ a, R a → R' a) → yields m fs R'.
Proof. intros Hm HR e. destruct (Hm e) as [? Hr]. split; [done|]. destruct ((m (fs, e)).1); auto. Qed.

Lemma yields_bind {A B} (R : A → Prop) (m : M (FS E) A) (k : A → M (FS E) B) fs (Q : B → Prop) :
  yields m fs R → (∀ a, R a → yields (k a) fs Q) → yields (m ≫= k) fs Q.
Proof.
  intros Hm Hk e. destruct (Hm e) as [Hfs Hr]. unfold mbind, M_bind. destruct (m (fs, e)) as [[a|err] [fs' e']]; cbn in *; subst fs'.
  - exact (Hk a Hr e').
  - done.
Qed.

Lemma yields_ret {A} (v : A) fs (R : A → Prop) : R v → yields (mret v) fs R.
Proof. by intros Hv e. Qed.
Lemma yields_fail {A} err fs (R : A → Prop) : err ≠ out_of_fuel → yields (fail err) fs R.
Proof. intros He e. split; [done|]. by intros ->. Qed.
Lemma yields_lift {A} (r : Result A) fs (R : A → Prop) :
  (∀ a, r = Ok a → R a) → r ≠ Err out_of_fuel → yields (lift r) fs R.
Proof. intros Hr He e. split; [done|]. cbn. destruct r as [a|err]; [by apply Hr|]. by intros ->. Qed.
Lemma yields_if {A} (b : bool) (m1 m2 : M (FS E) A) fs R :
  (b = true → yields m1 fs R) → (b = false → yields m2 fs R) → yields (if b then m1 else m2) fs R.
Proof. destruct b; auto. Qed.

Lemma yields_checkpoint fs : yields checkpoint fs (λ _, True).
Proof.
  intros e. split; [apply (preserves_checkpoint fst (fs, e))|].
  destruct (checkpoint ((fs, e) : FS E)) as [r s'] eqn:Hc. cbn [fst]. destruct r as [[]|err]; [done|].
  intros _. by exists (fs, e), s'.
Qed.
Lemma yields_io fs : yields io fs (λ _, True).
Proof. intros e. unfold io. cbn [snd]. destruct (io_fails e) as [b e']. cbn. by destruct b. Qed.

(** A loop, with an invariant on what is done. *)
Lemma yields_fold {A B} (Inv : list A → B → Prop) (f : B → A → M (FS E) B) fs todo done_ acc :
  (∀ done_ a acc, a ∈ todo → Inv done_ acc → yields (f acc a) fs (Inv (done_ ++ [a]))) →
  Inv done_ acc → yields (fold_m f acc todo) fs (Inv (done_ ++ todo)).
Proof.
  revert done_ acc. induction todo as [|a todo IH]; intros done_ acc Hf Hi; cbn [fold_m].
  { rewrite app_nil_r. by apply yields_ret. }
  eapply yields_bind; [apply Hf; [by left|exact Hi]|]. intros acc' Hi'.
  replace (done_ ++ a :: todo) with ((done_ ++ [a]) ++ todo) by by rewrite <-app_assoc.
  apply IH; [|done]. intros d a' acc'' Hin. apply Hf. by right.
Qed.

(** ** The calls *)

Lemma yields_locate follow path fs : yields (locate follow path) fs (λ place, resolve_place fs follow path = Ok place).
Proof.
  unfold locate. eapply yields_bind; [apply yields_io|intros _ _].
  eapply (yields_bind (λ fs', fs' = fs)); [by intros e|intros fs' ->].
  intros e. unfold lift_io, lift. cbn. split; [done|]. by destruct (resolve_place fs follow path).
Qed.

Lemma yields_stat follow path fs :
  yields (stat follow path) fs (λ r, stat_of fs follow path = Ok r).
Proof.
  unfold stat. eapply yields_bind; [apply yields_locate|]. intros place Hp. unfold stat_of. rewrite Hp.
  destruct place as [p [|i|t]|p]; [by apply yields_ret| | |by apply yields_fail].
  all: destruct (ends_open path); [by apply yields_fail|by apply yields_ret].
Qed.

Lemma yields_symlink_metadata path fs :
  yields (symlink_metadata path) fs (λ node, ∃ at_, stat_of fs false path = Ok (at_, node)).
Proof.
  unfold symlink_metadata. eapply yields_bind; [apply yields_stat|]. intros [at_ node] Hs. apply yields_ret. by exists at_.
Qed.

Lemma yields_canonicalize path fs :
  yields (canonicalize path) fs (λ canonical, ∃ at_ node, stat_of fs true path = Ok (at_, node) ∧ canonical = physical at_).
Proof.
  unfold canonicalize. eapply yields_bind; [apply yields_stat|]. intros [at_ node] Hs. apply yields_ret. by exists at_, node.
Qed.

Lemma yields_is_dir path fs :
  yields (is_dir_followed path) fs (λ b, ∃ at_ node, stat_of fs true path = Ok (at_, node) ∧ b = node_is_dir node).
Proof.
  unfold is_dir_followed. eapply yields_bind; [apply yields_stat|]. intros [at_ node] Hs. apply yields_ret. by exists at_, node.
Qed.

Definition file_length (fs : Files) (node : Node) (length : N) : Prop :=
  ∀ inode value, node = FileNode inode → ft_inodes fs !! inode = Some value → length = len (in_content value).

Lemma yields_metadata path fs :
  yields (scan_metadata path) fs (λ '(node, metadata),
    (∃ at_, stat_of fs false path = Ok (at_, node)) ∧ file_length fs node (md_len metadata)).
Proof.
  unfold scan_metadata. eapply yields_bind; [apply yields_stat|]. intros [at_ node] Hs.
  eapply (yields_bind (λ fs', fs' = fs)); [by intros e|intros fs' ->].
  eapply (yields_bind (λ _, True)); [|intros [[length modified] mode] _].
  { intros e. unfold observe. cbn. by destruct (attributes at_ e). }
  apply yields_ret. split; [by exists at_|]. intros inode value -> Hi. cbn. by rewrite Hi.
Qed.

Lemma yields_identity path fs :
  yields (file_identity path) fs (λ identity,
    ∀ key, identity = Some key → ∃ at_ inode, resolve_place fs true path = Ok (At at_ (FileNode inode)) ∧ key = (0, inode)).
Proof.
  intros e. unfold file_identity. destruct (yields_locate true path fs e) as [Hfs Hr].
  destruct (locate true path (fs, e)) as [[place|err] s']; cbn in *; [|split; [done|done]].
  destruct place as [p [|inode|t]|p]; cbn; (split; [done|]); try done. intros key [= <-]. by exists p, inode.
Qed.

Lemma yields_read_link path fs :
  yields (read_link path) fs (λ target, ∃ at_, resolve_place fs (ends_open path) path = Ok (At at_ (LinkNode target))).
Proof.
  unfold read_link. eapply yields_bind; [apply yields_locate|]. intros [p [|i|t]|p] Hp; try by apply yields_fail.
  apply yields_ret. by exists p.
Qed.

Lemma yields_read_dir path fs :
  yields (read_dir path) fs (λ names, ∃ at_, resolve_place fs true path = Ok (At at_ DirNode) ∧ names = dir_names fs at_).
Proof.
  unfold read_dir. eapply yields_bind; [apply yields_locate|]. intros place Hp.
  eapply (yields_bind (λ fs', fs' = fs)); [by intros e|intros fs' ->].
  destruct place as [p [|i|t]|p]; try by apply yields_fail. apply yields_ret. by exists p.
Qed.
End yields.

(** ** The names of a directory *)

Lemma dir_names_spec fs dir name : name ∈ dir_names fs dir ↔ is_Some (ft_nodes fs !! (dir ++ [name])).
Proof.
  unfold dir_names. rewrite list_elem_of_omap. split.
  - intros ([key node] & Hin%elem_of_map_to_list & Hk). cbn [fst] in Hk.
    destruct (drop (length dir) key) as [|n [|]] eqn:Hd; try done. case_bool_decide as Ht; [|done]. injection Hk as ->.
    exists node. rewrite <-Ht at 1. by rewrite <-Hd, take_drop.
  - intros [node Hn]. exists (dir ++ [name], node). split; [by apply elem_of_map_to_list|]. cbn [fst].
    rewrite drop_app_length, take_app_length. by rewrite bool_decide_eq_true_2.
Qed.

Lemma dir_names_NoDup fs dir : NoDup (dir_names fs dir).
Proof.
  unfold dir_names. pose proof (NoDup_fst_map_to_list (ft_nodes fs)) as Hnd.
  induction (map_to_list (ft_nodes fs)) as [|[key node] l IH]; [constructor|]. cbn [fmap list_fmap fst] in Hnd.
  apply NoDup_cons in Hnd as [Hk Hnd]. cbn [omap list_omap fst].
  destruct (drop (length dir) key) as [|n [|]] eqn:Hd; try by apply IH. case_bool_decide as Ht; [|by apply IH].
  constructor; [|by apply IH]. intros ([key' node'] & Hin & Hk')%list_elem_of_omap. cbn [fst] in Hk'.
  destruct (drop (length dir) key') as [|n' [|]] eqn:Hd'; try done. case_bool_decide as Ht'; [|done]. injection Hk' as ->.
  apply Hk. apply list_elem_of_fmap. exists (key', node'). split; [|done]. cbn.
  by rewrite <-(take_drop (length dir) key), <-(take_drop (length dir) key'), Hd, Hd', Ht, Ht'.
Qed.

(** ** Errors of the pure functions *)

Lemma bind_Err {A B} (m : Result A) (f : A → Result B) e :
  (m ≫= f) = Err e → m = Err e ∨ ∃ a, m = Ok a ∧ f a = Err e.
Proof. destruct m as [a|e']; cbn; [right; by exists a|]. intros [= ->]. by left. Qed.

Lemma fold_proper {A B} (f : B → A → Result B) acc l :
  (∀ acc a, f acc a ≠ Err out_of_fuel) → try_fold f acc l ≠ Err out_of_fuel.
Proof.
  intros Hf. revert acc. induction l as [|a l IH]; intros acc; [done|]. cbn [try_fold].
  intros [He|(b & _ & He)]%bind_Err; [by apply Hf in He|by apply IH in He].
Qed.

Lemma from_relative_proper path : ArchivePath_from_relative path ≠ Err out_of_fuel.
Proof.
  intros He. pose proof (ArchivePath_from_relative_correct path) as Hc. rewrite He in Hc. by destruct Hc.
Qed.

Lemma to_os_string_proper c : PathComponent_to_os_string c ≠ Err out_of_fuel.
Proof.
  unfold PathComponent_to_os_string. intros [He|(value & _ & [He|(u & _ & He)]%bind_Err)]%bind_Err; try done.
  - destruct (pc_encoding c); repeat match type of He with context [if ?b then _ else _] => destruct b end; done.
  - unfold validate_normal_component in He. by repeat case_match.
Qed.

Lemma validate_proper path limits : validate_archive_path path limits ≠ Err out_of_fuel.
Proof.
  unfold validate_archive_path. destruct (_ || _); [done|]. intros [He|(p & _ & He)]%bind_Err; [|done].
  unfold ArchivePath_to_path_buf in He. case_bool_decide; [done|]. revert He. apply fold_proper.
  intros acc c [He|(v & _ & He)]%bind_Err; [by apply to_os_string_proper in He|done].
Qed.

Lemma link_proper path : LinkTarget_from_relative path ≠ Err out_of_fuel.
Proof.
  unfold LinkTarget_from_relative. intros [He|(cs & _ & He)]%bind_Err; [|by case_bool_decide].
  revert He. apply fold_proper. intros acc c. by destruct c.
Qed.

Lemma ok_or_proper {A} e (o : option A) : e ≠ out_of_fuel → ok_or e o ≠ Err out_of_fuel.
Proof. intros He. destruct o; [done|]. by intros [= ->]. Qed.

(** Binds of overflow checks. *)
Lemma overflow_proper {A B} (o : option A) (f : A → Result B) :
  (∀ a, f a ≠ Err out_of_fuel) → (a ← ok_or IntegerOverflow o; f a) ≠ Err out_of_fuel.
Proof. intros Hf. destruct o; [apply Hf|done]. Qed.

Lemma link_bytes_proper target : link_target_memory_bytes target ≠ Err out_of_fuel.
Proof.
  apply fold_proper. intros acc c. apply overflow_proper. intros a. by apply ok_or_proper.
Qed.

(** ** The budget *)

(** What an entry is charged. *)
Definition link_memory (target : LinkTarget) : N :=
  sum (map (λ c, 32 + match c with LinkParent => 1 | LinkNormal c => len (pc_bytes c) end) (lt_components target)).
Definition kind_memory (kind : ScannedKind) : N :=
  match kind with ScannedSymlink target _ => link_memory target | _ => 0 end.
Definition entry_memory (e : ScannedEntry) : N :=
  SCANNED_ENTRY_MEMORY_OVERHEAD + len (se_source e) + ArchivePath_encoded_len (se_archive_path e) +
  32 * len (ap_components (se_archive_path e)) + len (se_sort_key e) + kind_memory (se_kind e).

Lemma checked_sum_Some terms total : checked_sum terms = Some total → total = sum terms.
Proof.
  unfold checked_sum. assert (Hf : ∀ acc, foldl (λ total term, t ← total; checked_add t term) acc terms = Some total →
    ∃ t, acc = Some t ∧ total = t + sum terms).
  { induction terms as [|x terms IH]; intros acc Ht; [exists total; split; [done|unfold sum; cbn; lia]|]. cbn [foldl] in Ht.
    destruct (IH _ Ht) as (t & Hacc & ->). destruct acc as [a|]; [|done]. cbn in Hacc. apply checked_add_Some in Hacc as [-> _].
    exists a. split; [done|]. unfold sum. cbn [foldr]. lia. }
  intros Ht. destruct (Hf _ Ht) as (t & [= <-] & ->). done.
Qed.

Lemma link_bytes_Ok target bytes : link_target_memory_bytes target = Ok bytes → bytes = link_memory target.
Proof.
  unfold link_target_memory_bytes, link_memory.
  assert (Hf : ∀ cs acc, try_fold (λ total component,
    let bytes := match component with LinkParent => 1 | LinkNormal c => len (pc_bytes c) end in
    total ← ok_or IntegerOverflow (checked_add total 32);
    ok_or IntegerOverflow (checked_add total bytes)) acc cs = Ok bytes →
    bytes = acc + sum (map (λ c, 32 + match c with LinkParent => 1 | LinkNormal c => len (pc_bytes c) end) cs)).
  { induction cs as [|c cs IH]; intros acc; [intros [= ->]; unfold sum; cbn; lia|]. cbn [try_fold].
    intros (b & (t & [-> _]%ok_or_Ok%checked_add_Some & [-> _]%ok_or_Ok%checked_add_Some)%bind_Ok & Hr)%bind_Ok.
    apply IH in Hr as ->. unfold sum. cbn [map foldr]. lia. }
  intros Ht%Hf. done.
Qed.

(** The budget accounts for the entries and stays within its limits. *)
Record budget_ok (entries : list ScannedEntry) (budget : ScanBudget) : Prop := {
  bo_entries : sb_retained_entries budget = len entries;
  bo_count : sb_retained_entries budget <= sb_max_entries budget;
  bo_bytes : sb_retained_bytes budget = sum (map entry_memory entries);
  bo_memory : sb_retained_bytes budget + sb_transient_bytes budget <= sb_max_bytes budget;
}.

Record same_limits (budget budget' : ScanBudget) : Prop := {
  sl_entries : sb_max_entries budget' = sb_max_entries budget;
  sl_bytes : sb_max_bytes budget' = sb_max_bytes budget;
}.
#[export] Instance same_limits_preorder : PreOrder same_limits.
Proof. split; [done|]. intros b1 b2 b3 [] []. split; congruence. Qed.

Lemma retain_proper budget source archive_path sort_key bytes :
  ScanBudget_retain_entry budget source archive_path sort_key bytes ≠ Err out_of_fuel.
Proof.
  unfold ScanBudget_retain_entry. destruct (_ <=? _); [done|]. do 3 (apply overflow_proper; intros ?).
  destruct (_ <? _); [done|]. by apply overflow_proper.
Qed.

Lemma retain_Ok entries budget e kind_bytes budget' :
  budget_ok entries budget → kind_bytes = kind_memory (se_kind e) →
  ScanBudget_retain_entry budget (se_source e) (se_archive_path e) (se_sort_key e) kind_bytes = Ok budget' →
  budget_ok (entries ++ [e]) budget' ∧ same_limits budget budget' ∧ sb_transient_bytes budget' = sb_transient_bytes budget.
Proof.
  intros [He Hc Hb Hm] ->. unfold ScanBudget_retain_entry.
  destruct (N.leb_spec (sb_max_entries budget) (sb_retained_entries budget)); [done|].
  intros (bytes & Hbytes%ok_or_Ok & Hr)%bind_Ok. unfold entry_charge in Hbytes. apply checked_sum_Some in Hbytes.
  apply bind_Ok in Hr as (total & [-> _]%ok_or_Ok%checked_add_Some & Hr).
  apply bind_Ok in Hr as (next & [-> _]%ok_or_Ok%checked_add_Some & Hr). apply if_Err_Ok in Hr as [Hle%N.ltb_ge Hr].
  apply bind_Ok in Hr as (retained & [-> _]%ok_or_Ok%checked_add_Some & [= <-]).
  assert (Hmem : bytes = entry_memory e) by (rewrite Hbytes; unfold entry_memory, sum; cbn [foldr]; lia).
  split; [|done]. split; cbn [set_retained sb_retained_entries sb_max_entries sb_retained_bytes sb_transient_bytes sb_max_bytes].
  - unfold len in *. rewrite length_app. cbn. lia.
  - lia.
  - rewrite map_app, sum_app, <-Hb, Hmem. unfold sum. cbn [map foldr]. lia.
  - lia.
Qed.

(** ** Resolving what the walk visits *)

Lemma resolve_nonempty fs follow path place : resolve_place fs follow path = Ok place → path ≠ [].
Proof. unfold resolve_place. by intros Hr ->. Qed.

(** A node that is no link is found whether the path is followed or not. *)
Lemma stat_found fs path at_ node :
  stat_of fs false path = Ok (at_, node) → (∀ target, node ≠ LinkNode target) →
  resolve_place fs true path = Ok (At at_ node).
Proof.
  intros Hs Hl. apply stat_of_resolve in Hs. pose proof (resolve_nonempty _ _ _ _ Hs) as Hne. cbn [orb] in Hs.
  destruct (ends_open path); [done|]. unfold resolve_place in *. rewrite bool_decide_eq_false_2 in * by done.
  by apply walk_follow.
Qed.

Lemma stat_link fs path at_ target :
  tree_ok fs → stat_of fs false path = Ok (at_, LinkNode target) →
  ends_open path = false ∧ resolve_place fs false path = Ok (At at_ (LinkNode target)).
Proof.
  intros Ht Hs. unfold stat_of in Hs. cbn [orb] in Hs. destruct (ends_open path); [|split; [done|]].
  - destruct (resolve_place fs true path) as [[p [|i|t]|p]|]; discriminate Hs.
  - destruct (resolve_place fs false path) as [[p [|i|t]|p]|]; try discriminate Hs. by injection Hs as -> ->.
Qed.

(** The entry [n] of a directory. *)
Lemma stat_entry fs directory at_ n :
  resolve_place fs true directory = Ok (At at_ DirNode) → plain_name n →
  stat_of fs false (path_push directory n) =
    match node_at fs (at_ ++ [n]) with Some node => Ok (at_ ++ [n], node) | None => Err NotFound end.
Proof.
  intros Hr Hn. pose proof (resolve_nonempty _ _ _ _ Hr) as Hne. unfold stat_of. rewrite ends_open_name by done. cbn [orb].
  assert (Hp : resolve_place fs false (path_push directory n) = Ok (entry_place fs at_ n)).
  { unfold resolve_place in *. rewrite bool_decide_eq_false_2 in Hr by done.
    rewrite bool_decide_eq_false_2 by (apply path_push_nonempty; by destruct Hn).
    rewrite components_push_name by done. apply walk_snoc. by exists at_. }
  rewrite Hp. unfold entry_place. by destruct (node_at fs (at_ ++ [n])) as [[]|].
Qed.

Lemma push_file_name directory n : directory ≠ [] → plain_name n → Path_file_name (path_push directory n) = Some n.
Proof. intros Hd Hn. unfold Path_file_name. by rewrite components_push_name, last_snoc by done. Qed.

(** ** Stored paths *)

Definition stored_path (names : list Name) : ArchivePath := {| ap_components := map PathComponent_from_os_str names |}.

Lemma joined_one name : plain_name name → name = joined [name].
Proof. intros Hn. unfold joined. cbn [fold_left]. rewrite push_plain by done. by rewrite decide_True by by left. Qed.

(** The parent of a bare name is the empty path. *)
Lemma bare_parent name : plain_name name → Path_parent name = Some [].
Proof.
  intros Hn. unfold Path_parent. rewrite (joined_one name Hn), joined_components; [done|by apply Forall_singleton|done].
Qed.

Lemma from_relative_joined names :
  Forall plain_name names → names ≠ [] → ArchivePath_from_relative (joined names) = Ok (stored_path names).
Proof.
  intros Hn Hne. unfold ArchivePath_from_relative. rewrite joined_components by done.
  pose proof (from_relative_fold [] (map Normal names)) as Hf.
  destruct (try_fold _ _ _) as [out|e]; [|by destruct Hf as [[] _]; apply relative_Normal].
  destruct Hf as [_ ->]. rewrite names_of_Normal. cbn [app mbind result_bind].
  by rewrite bool_decide_eq_false_2 by by destruct names.
Qed.

(** ** What an entry says *)

Section spec.
Context (limits : DecodeLimits) (fs : Files).

(** The tree's names are those of a file system. *)
Definition names_ok : Prop := ∀ p node, ft_nodes fs !! p = Some node → Forall plain_name p.

(** [e] describes the node at [at_], under the name [rel]; a link stays
    inside of [root]. *)
Definition entry_for (root at_ rel : list Name) (e : ScannedEntry) : Prop :=
  se_archive_path e = stored_path rel ∧ se_sort_key e = ArchivePath_sort_key (stored_path rel) ∧
  validate_archive_path (stored_path rel) limits = Ok tt ∧
  ∃ node, stat_of fs false (se_source e) = Ok (at_, node) ∧
  match node with
  | DirNode => se_kind e = ScannedDirectory
  | FileNode inode =>
      se_kind e = ScannedFile ∧ (∀ key, se_identity e = Some key → key = (0, inode)) ∧
      file_length fs (FileNode inode) (md_len (se_metadata e))
  | LinkNode t =>
      ∃ target q node', LinkTarget_from_relative t = Ok target ∧
        LinkTarget_resolves_within target (stored_path rel) = true ∧
        stat_of fs true (se_source e) = Ok (q, node') ∧ root `prefix_of` q ∧
        se_kind e = ScannedSymlink target (node_is_dir node')
  end.

(** [new] has one entry for each of the paths [P] below [at_]. *)
Definition covers (root at_ rel : list Name) (P : list Name → Prop) (new : list ScannedEntry) : Prop :=
  ∃ qs, NoDup qs ∧ (∀ q, q ∈ qs ↔ P q ∧ is_Some (node_at fs (at_ ++ q))) ∧
    Forall2 (λ q e, entry_for root (at_ ++ q) (rel ++ q) e) qs new.

Definition starts_in (names : list Name) (q : list Name) : Prop := ∃ n q', n ∈ names ∧ q = n :: q'.

Lemma covers_nil root at_ rel : covers root at_ rel (starts_in []) [].
Proof.
  exists []. split; [constructor|]. split; [|constructor]. intros q. split; [by intros ?%elem_of_nil|].
  intros [(n & q' & Hn & _) _]. by apply elem_of_nil in Hn.
Qed.

Lemma covers_next root at_ rel names n new new' :
  n ∉ names → covers root at_ rel (starts_in names) new → covers root (at_ ++ [n]) (rel ++ [n]) (λ _, True) new' →
  covers root at_ rel (starts_in (names ++ [n])) (new ++ new').
Proof.
  intros Hn (qs & Hnd & Hqs & Hf) (qs' & Hnd' & Hqs' & Hf'). exists (qs ++ map (cons n) qs'). split; [|split].
  - apply NoDup_app. split; [done|]. split; [|apply NoDup_fmap_2; [by intros ? ? [=]|done]].
    intros q [(m & q' & Hm & ->) _]%Hqs (q'' & [= -> ->] & _)%list_elem_of_fmap. done.
  - intros q. rewrite elem_of_app, Hqs, list_elem_of_fmap. split.
    + intros [[(m & q' & Hm & ->) Hs]|(q' & -> & [_ Hs]%Hqs')].
      * split; [|done]. exists m, q'. split; [apply elem_of_app; by left|done].
      * rewrite <-app_assoc in Hs. split; [|done]. exists n, q'. split; [|done].
        apply elem_of_app. right. by apply list_elem_of_singleton.
    + intros [(m & q' & Hm & ->) Hs]. apply elem_of_app in Hm as [Hm|Hm]; [|apply list_elem_of_singleton in Hm as ->].
      * left. split; [by exists m, q'|done].
      * right. exists q'. split; [done|]. apply Hqs'. split; [done|]. by rewrite <-app_assoc.
  - apply Forall2_app; [done|]. apply Forall2_fmap_l. eapply Forall2_impl; [exact Hf'|].
    intros q e He. cbv beta in He. by rewrite <-!app_assoc in He.
Qed.

(** A directory and what is below it. *)
Lemma covers_directory root at_ rel e new :
  tree_ok fs → node_at fs at_ = Some DirNode → entry_for root at_ rel e →
  covers root at_ rel (starts_in (dir_names fs at_)) new → covers root at_ rel (λ _, True) (e :: new).
Proof.
  intros Ht Hd He (qs & Hnd & Hqs & Hf). exists ([] :: qs). split; [|split].
  - constructor; [|done]. by intros [(n & q' & _ & ?) _]%Hqs.
  - intros q. rewrite elem_of_cons, Hqs. split.
    + intros [->|[_ Hs]]; (split; [done|]); [|done]. rewrite app_nil_r. by exists DirNode.
    + intros [_ [node Hs]]. destruct q as [|n q]; [by left|]. right. split; [|by exists node]. exists n, q. split; [|done].
      apply dir_names_spec. replace (at_ ++ n :: q) with ((at_ ++ [n]) ++ q) in Hs by by rewrite <-app_assoc.
      rewrite <-node_at_snoc. destruct q as [|m q]; [rewrite app_nil_r in Hs; by exists node|]. exists DirNode.
      by eapply wf_prefix; [apply Ht|exact Hs|].
  - constructor; [by rewrite !app_nil_r|done].
Qed.

(** Nothing is below a file or a link. *)
Lemma covers_leaf root at_ rel e node :
  tree_ok fs → node_at fs at_ = Some node → node ≠ DirNode → entry_for root at_ rel e → covers root at_ rel (λ _, True) [e].
Proof.
  intros Ht Hn Hd He. exists [[]]. split; [by apply NoDup_singleton|]. split.
  - intros q. rewrite list_elem_of_singleton. split; [intros ->; split; [done|]; rewrite app_nil_r; by exists node|].
    intros [_ [node' Hs]]. destruct q as [|n q]; [done|]. rewrite (wf_prefix fs at_ (n :: q) node') in Hn; [|apply Ht|done|done].
    by injection Hn as <-.
  - constructor; [by rewrite !app_nil_r|constructor].
Qed.
End spec.

(** ** The walk *)

Section walk.
Context {E : Type} `{Env E} `{Disturb E} `{Attributes E}.
Context (limits : DecodeLimits) (fs : Files) (Ht : tree_ok fs) (Hnames : names_ok fs).

(** What a step of the walk does: it adds the entries of the paths [P] below
    [at_], and gives back what it reserved. *)
Definition scans (root at_ rel : list Name) (P : list Name → Prop) (acc acc' : list ScannedEntry * ScanBudget) : Prop :=
  ∃ new, acc'.1 = acc.1 ++ new ∧ covers limits fs root at_ rel P new ∧ budget_ok acc'.1 acc'.2 ∧
    same_limits acc.2 acc'.2 ∧ sb_transient_bytes acc'.2 = sb_transient_bytes acc.2.

Definition child_of (directory : list byte) (n : Name) : PendingChild :=
  let sort_key := ArchivePath_sort_key (stored_path [n]) in
  {| ch_path := path_push directory n; ch_sort_key := sort_key;
     ch_memory_charge := PENDING_CHILD_MEMORY_OVERHEAD + len (path_push directory n) + len sort_key |}.
Definition charges (children : list PendingChild) : N := sum (map ch_memory_charge children).

Lemma charges_app l k : charges (l ++ k) = charges l + charges k.
Proof. unfold charges. by rewrite map_app, sum_app. Qed.
Lemma charges_one c : charges [c] = ch_memory_charge c.
Proof. unfold charges, sum. cbn. lia. Qed.

Lemma reserve_proper budget bytes : ScanBudget_reserve_transient budget bytes ≠ Err out_of_fuel.
Proof.
  unfold ScanBudget_reserve_transient. do 2 (apply overflow_proper; intros ?). destruct (_ <? _); [done|].
  by apply overflow_proper.
Qed.
Lemma slot_proper budget pending : ScanBudget_ensure_pending_slot budget pending ≠ Err out_of_fuel.
Proof. unfold ScanBudget_ensure_pending_slot. apply overflow_proper. intros a. by destruct (_ <=? _). Qed.

Lemma collect_yields directory names budget :
  directory ≠ [] → Forall plain_name names → sb_retained_bytes budget + sb_transient_bytes budget <= sb_max_bytes budget →
  yields (fold_m (collect_child directory) ([], budget) names) fs (λ '(children, budget'),
    children = map (child_of directory) names ∧
    budget' = set_transient budget (sb_transient_bytes budget + charges children) ∧
    sb_retained_bytes budget' + sb_transient_bytes budget' <= sb_max_bytes budget').
Proof.
  intros Hd Hp Hb. apply (yields_fold (λ done_ '(children, budget'),
    children = map (child_of directory) done_ ∧
    budget' = set_transient budget (sb_transient_bytes budget + charges children) ∧
    sb_retained_bytes budget' + sb_transient_bytes budget' <= sb_max_bytes budget') _ _ _ []).
  - intros done_ n [children budget'] Hn (Hc & Hbud & Hle). assert (Hplain : plain_name n) by (by eapply Forall_forall in Hp).
    unfold collect_child. eapply yields_bind; [apply yields_checkpoint|intros _ _].
    eapply (yields_bind (λ _, True)); [apply yields_lift; [done|apply slot_proper]|intros _ _].
    eapply yields_bind; [apply yields_io|intros _ _]. cbv zeta.
    eapply (yields_bind (λ name, name = n)).
    { apply yields_lift; [|by apply ok_or_proper]. intros name. rewrite push_file_name by done. by intros [= ->]. }
    intros name ->. eapply (yields_bind (λ p, p = stored_path [n])).
    { apply yields_lift; [|apply from_relative_proper]. intros p Hpath.
      pose proof (joined_one n Hplain) as Hj.
      rewrite Hj, from_relative_joined in Hpath; [by injection Hpath as <-|by apply Forall_singleton|done]. }
    intros p ->. eapply (yields_bind (λ c, c = ch_memory_charge (child_of directory n))).
    { apply yields_lift; [|by apply ok_or_proper]. intros c Hsum%ok_or_Ok%checked_sum_Some. rewrite Hsum.
      unfold sum, encoded_path_len, child_of. cbn [foldr ch_memory_charge]. lia. }
    intros c ->. eapply (yields_bind (λ b, b = set_transient budget' (sb_transient_bytes budget' + ch_memory_charge (child_of directory n)) ∧
      sb_retained_bytes b + sb_transient_bytes b <= sb_max_bytes b)).
    { apply yields_lift; [|apply reserve_proper]. intros b. unfold ScanBudget_reserve_transient.
      intros (t & [-> _]%ok_or_Ok%checked_add_Some & (nx & [-> _]%ok_or_Ok%checked_add_Some & [Hl%N.ltb_ge Hr]%if_Err_Ok)%bind_Ok)%bind_Ok.
      apply bind_Ok in Hr as (tr & [-> _]%ok_or_Ok%checked_add_Some & [= <-]). split; [done|]. cbn [set_transient sb_retained_bytes sb_transient_bytes sb_max_bytes]. unfold child_of in *. cbn [ch_memory_charge] in *. lia. }
    intros b [-> Hle']. apply yields_ret. rewrite map_app, <-Hc. split; [done|]. split; [|done].
    rewrite Hbud. change [{| ch_path := path_push directory n; ch_sort_key := _; ch_memory_charge := _ |}] with [child_of directory n].
    rewrite charges_app, charges_one. unfold set_transient. cbn. f_equal. lia.
  - split; [done|]. split; [|done]. unfold charges, sum. cbn. rewrite N.add_0_r. by destruct budget.
Qed.

Lemma dir_names_plain dir : Forall plain_name (dir_names fs dir).
Proof.
  apply Forall_forall. intros n [node Hn]%dir_names_spec. by apply Hnames, Forall_app in Hn as [_ [? _]%Forall_cons].
Qed.

(** What a call for the child [n] of the directory has to do. *)
Definition scans_child scan_child (directory : list byte) (root at_ rel : list Name) (n : Name) : Prop :=
  ∀ acc, budget_ok acc.1 acc.2 →
    yields (scan_child (path_push directory n) (joined (rel ++ [n])) acc) fs
      (scans root (at_ ++ [n]) (rel ++ [n]) (λ _, True) acc).

(** In the loop over the children, with [todo] to go. *)
Definition scanning directory root at_ rel (done_ todo : list Name) (acc acc' : list ScannedEntry * ScanBudget) : Prop :=
  ∃ new, acc'.1 = acc.1 ++ new ∧ covers limits fs root at_ rel (starts_in done_) new ∧ budget_ok acc'.1 acc'.2 ∧
    same_limits acc.2 acc'.2 ∧
    sb_transient_bytes acc'.2 = sb_transient_bytes acc.2 + charges (map (child_of directory) todo).

Lemma children_fold scan_child directory root at_ rel acc todo : ∀ done_ acc',
  directory ≠ [] → Forall plain_name rel → Forall plain_name todo → NoDup (done_ ++ todo) →
  Forall (scans_child scan_child directory root at_ rel) todo →
  scanning directory root at_ rel done_ todo acc acc' →
  yields (fold_m (scan_one scan_child (joined rel)) acc' (map (child_of directory) todo)) fs
    (scanning directory root at_ rel (done_ ++ todo) [] acc).
Proof.
  induction todo as [|n todo IH]; intros done_ acc' Hd Hrel Hplain Hnd Hchild Hinv; cbn [map fold_m].
  { rewrite app_nil_r. by apply yields_ret. }
  apply Forall_cons in Hplain as [Hn Hplain], Hchild as [Hcn Hchild].
  replace (done_ ++ n :: todo) with ((done_ ++ [n]) ++ todo) in * by by rewrite <-app_assoc.
  eapply yields_bind; [|intros acc''; by apply IH].
  destruct acc' as [entries1 budget1], Hinv as (new & Happ & Hcov & Hok & Hsl & Htr). cbn [fst snd] in *.
  unfold scan_one. eapply yields_bind; [apply yields_checkpoint|intros _ _].
  eapply (yields_bind (λ name, name = n)).
  { apply yields_lift; [|by apply ok_or_proper]. intros name. unfold child_of. cbn [ch_path].
    rewrite push_file_name by done. by intros [= ->]. }
  intros name ->. cbv zeta. rewrite <-joined_snoc.
  eapply yields_bind; [by apply Hcn|]. intros [entries2 budget2] (new2 & Happ2 & Hcov2 & Hok2 & Hsl2 & Htr2).
  apply yields_ret. cbn [fst snd] in *. exists (new ++ new2). split; [by rewrite Happ2, Happ, app_assoc|].
  split; [|split; [|split; [destruct Hsl, Hsl2; split; cbn; congruence|]]].
  - apply covers_next; [|exact Hcov|exact Hcov2]. rewrite <-app_assoc in Hnd. apply NoDup_app in Hnd as (_ & Hni & _). intros Hin.
    apply (Hni n Hin). by left.
  - destruct Hok2 as [? ? ? Hm]. unfold ScanBudget_release_transient, saturating_sub, set_transient. split; [done..|].
    cbn [sb_retained_bytes sb_transient_bytes sb_max_bytes fst snd]. lia.
  - unfold ScanBudget_release_transient, saturating_sub, set_transient. cbn [sb_transient_bytes fst snd]. rewrite Htr2, Htr. cbn [map]. unfold charges, sum. cbn [map foldr]. lia.
Qed.

(** The children of a directory, if [scan_child] does its part. *)
Lemma children_yields scan_child directory root at_ rel acc :
  resolve_place fs true directory = Ok (At at_ DirNode) → Forall plain_name rel →
  Forall (scans_child scan_child directory root at_ rel) (dir_names fs at_) → budget_ok acc.1 acc.2 →
  yields (scan_directory_children scan_child directory (joined rel) acc) fs
    (scans root at_ rel (starts_in (dir_names fs at_)) acc).
Proof.
  intros Hr Hrel Hchild Hok. destruct acc as [entries budget]. cbn [fst snd] in Hok. unfold scan_directory_children.
  pose proof (resolve_nonempty _ _ _ _ Hr) as Hne.
  eapply yields_bind; [apply yields_read_dir|]. intros names (at' & Hr' & ->). rewrite Hr in Hr'. injection Hr' as <-.
  eapply yields_bind; [apply collect_yields; [done|apply dir_names_plain|apply Hok]|].
  intros [children budget1] (-> & Hb1 & Hle1). cbv zeta.
  destruct (insertion_sort_stable (compare_on ch_sort_key compare_bytes) (map (child_of directory) (dir_names fs at_)))
    as (_ & Hperm & _).
  destruct (Permutation_map_inv _ _ Hperm) as (names & Hsorted & Hnp). rewrite Hsorted in *. clear Hsorted.
  eapply yields_weaken; [apply (children_fold scan_child directory root at_ rel (entries, budget) names []); try done|].
  - rewrite <-Hnp. apply dir_names_plain.
  - rewrite app_nil_l, <-Hnp. apply dir_names_NoDup.
  - by rewrite <-Hnp.
  - exists []. cbn [fst snd]. split; [by rewrite app_nil_r|]. split; [apply covers_nil|]. subst budget1.
    destruct Hok as [? ? ? Hm]. split; [by split|split; [done|]].
    cbn [set_transient sb_transient_bytes]. f_equal. unfold charges. apply sum_perm, Permutation_map. by symmetry.
  - intros acc' (new & Happ & (qs & Hq & Hqs & Hf) & Hbo & Hsl & Htr). exists new. split; [done|].
    split; [|split; [done|split; [done|]]].
    + exists qs. split; [done|]. split; [|done]. intros q. rewrite Hqs. unfold starts_in. by setoid_rewrite Hnp.
    + rewrite Htr. unfold charges, sum. cbn. lia.
Qed.

Lemma scans_one root at_ rel node entries budget e bytes budget' :
  tree_ok fs → node_at fs at_ = Some node → node ≠ DirNode → entry_for limits fs root at_ rel e →
  budget_ok entries budget → bytes = kind_memory (se_kind e) →
  ScanBudget_retain_entry budget (se_source e) (se_archive_path e) (se_sort_key e) bytes = Ok budget' →
  scans root at_ rel (λ _, True) (entries, budget) (entries ++ [e], budget').
Proof.
  intros _ Hn Hd He Hok Hb Hr. destruct (retain_Ok _ _ _ _ _ Hok Hb Hr) as (? & ? & ?). exists [e]. split; [done|].
  split; [by eapply covers_leaf|done].
Qed.

Lemma link_yields root source rel at_ t metadata acc :
  Forall plain_name root → stat_of fs false source = Ok (at_, LinkNode t) → Forall plain_name rel →
  validate_archive_path (stored_path rel) limits = Ok tt → budget_ok acc.1 acc.2 →
  yields (scan_link (physical root) source (stored_path rel) metadata acc) fs (scans root at_ rel (λ _, True) acc).
Proof.
  intros Hroot Hs Hrel Hv Hok. destruct acc as [entries budget]. cbn [fst snd] in Hok. unfold scan_link.
  destruct (stat_link _ _ _ _ Ht Hs) as [Ho Hres]. destruct (stat_of_ok _ _ _ _ _ Ht Hs) as (_ & Hn & _).
  eapply yields_bind; [apply yields_read_link|]. intros t' (at' & Ht'). rewrite Ho, Hres in Ht'. injection Ht' as <- <-.
  eapply (yields_bind (λ target, LinkTarget_from_relative t = Ok target)); [apply yields_lift; [done|apply link_proper]|].
  intros target Htarget. apply yields_if; [by intros _; apply yields_fail|intros Hin%negb_false_iff].
  eapply yields_bind; [apply yields_canonicalize|]. intros canonical (q & node' & Hq & ->).
  apply yields_if; [by intros _; apply yields_fail|intros Hsw%negb_false_iff].
  destruct (stat_of_ok _ _ _ _ _ Ht Hq) as (Hqp & _ & _). rewrite starts_with_physical in Hsw by done.
  apply bool_decide_eq_true in Hsw.
  eapply yields_bind; [apply yields_is_dir|]. intros b (q' & node'' & Hq' & ->). rewrite Hq in Hq'. injection Hq' as <- <-.
  eapply (yields_bind (λ bytes, bytes = link_memory target)); [apply yields_lift; [apply link_bytes_Ok|apply link_bytes_proper]|].
  intros bytes ->.
  eapply (yields_bind (λ b, ScanBudget_retain_entry budget source (stored_path rel) (ArchivePath_sort_key (stored_path rel))
    (link_memory target) = Ok b)); [apply yields_lift; [done|apply retain_proper]|].
  intros b Hr. apply yields_ret. eapply scans_one; [done|exact Hn|done| |done|reflexivity|exact Hr].
  split; [done|]. split; [done|]. split; [done|]. exists (LinkNode t). split; [done|]. by exists target, q, node'.
Qed.

(** The walk below a directory, if there are levels left. *)
Definition descend (root_scope : list byte) (fuel : nat) (source relative : list byte) (acc : list ScannedEntry * ScanBudget) :
    M (FS E) (list ScannedEntry * ScanBudget) :=
  match fuel with
  | O => fail out_of_fuel
  | S fuel => scan_directory_children (scan_node limits root_scope fuel) source relative acc
  end.

Lemma node_step root fuel source rel at_ node acc :
  Forall plain_name root → stat_of fs false source = Ok (at_, node) → Forall plain_name rel → rel ≠ [] → budget_ok acc.1 acc.2 →
  (∀ acc, resolve_place fs true source = Ok (At at_ DirNode) → len rel <= max_path_components limits → budget_ok acc.1 acc.2 →
    yields (descend (physical root) fuel source (joined rel) acc) fs (scans root at_ rel (starts_in (dir_names fs at_)) acc)) →
  yields (scan_node limits (physical root) fuel source (joined rel) acc) fs (scans root at_ rel (λ _, True) acc).
Proof.
  intros Hroot Hs Hrel Hne Hok Hdesc. destruct acc as [entries budget]. cbn [fst snd] in Hok.
  assert (Hu : ∀ acc, scan_node limits (physical root) fuel source (joined rel) acc = (
    checkpoint;;
    '(node, metadata) ← scan_metadata source;
    archive_path ← lift (ArchivePath_from_relative (joined rel));
    lift (validate_archive_path archive_path limits);;
    match node with
    | LinkNode _ => scan_link (physical root) source archive_path metadata acc
    | DirNode =>
        let '(entries, budget) := acc in
        budget ← lift (ScanBudget_retain_entry budget source archive_path (ArchivePath_sort_key archive_path) 0);
        descend (physical root) fuel source (joined rel)
          (entries ++ [scanned_entry source archive_path metadata None ScannedDirectory], budget)
    | FileNode _ =>
        let '(entries, budget) := acc in
        identity ← file_identity source;
        budget ← lift (ScanBudget_retain_entry budget source archive_path (ArchivePath_sort_key archive_path) 0);
        mret (entries ++ [scanned_entry source archive_path metadata identity ScannedFile], budget)
    end)) by by destruct fuel.
  rewrite Hu. clear Hu. eapply yields_bind; [apply yields_checkpoint|intros _ _].
  eapply yields_bind; [apply yields_metadata|]. intros [node' metadata] [[at' Hs'] Hlen]. rewrite Hs in Hs'. injection Hs' as <- <-.
  eapply (yields_bind (λ p, p = stored_path rel)).
  { apply yields_lift; [|apply from_relative_proper]. rewrite from_relative_joined by done. by intros p [= <-]. }
  intros p ->. eapply (yields_bind (λ _, validate_archive_path (stored_path rel) limits = Ok tt)).
  { apply yields_lift; [by intros []|apply validate_proper]. }
  intros _ Hv. destruct (stat_of_ok _ _ _ _ _ Ht Hs) as (_ & Hn & _).
  assert (Hretain : ∀ e, se_source e = source → se_archive_path e = stored_path rel →
    se_sort_key e = ArchivePath_sort_key (stored_path rel) → kind_memory (se_kind e) = 0 →
    yields (lift (ScanBudget_retain_entry budget source (stored_path rel) (ArchivePath_sort_key (stored_path rel)) 0)) fs (λ b,
      ScanBudget_retain_entry budget (se_source e) (se_archive_path e) (se_sort_key e) 0 = Ok b)).
  { intros e -> -> -> _. apply yields_lift; [done|apply retain_proper]. }
  destruct node as [|inode|t].
  - eapply yields_bind; [by apply (Hretain (scanned_entry source (stored_path rel) metadata None ScannedDirectory))|].
    intros b Hr. destruct (retain_Ok _ _ _ _ _ Hok eq_refl Hr) as (Hok' & Hsl & Htr).
    assert (Hlen' : len rel <= max_path_components limits).
    { unfold validate_archive_path in Hv. destruct (N.ltb_spec (max_path_components limits) (len (ap_components (stored_path rel)))) as [|Hle]; [done|].
      unfold stored_path, len in *. cbn [ap_components] in Hle. by rewrite length_map in Hle. }
    eapply yields_weaken; [apply Hdesc; [by eapply stat_found|exact Hlen'|exact Hok']|].
    intros acc' (new & Happ & Hcov & Hok'' & Hsl' & Htr'). cbn [fst snd] in *.
    exists (scanned_entry source (stored_path rel) metadata None ScannedDirectory :: new).
    split; [by rewrite Happ, <-app_assoc|]. split; [|split; [done|split; [by trans b|by rewrite Htr']]].
    apply covers_directory; [done..| |done]. split; [done|]. split; [done|]. split; [done|]. by exists DirNode.
  - eapply yields_bind; [apply yields_identity|]. intros identity Hid.
    eapply yields_bind; [by apply (Hretain (scanned_entry source (stored_path rel) metadata identity ScannedFile))|].
    intros b Hr. apply yields_ret. eapply scans_one; [done|exact Hn|done| |done|reflexivity|exact Hr].
    split; [done|]. split; [done|]. split; [done|]. exists (FileNode inode). split; [done|]. split; [done|]. split; [|done].
    intros key Hkey. destruct (Hid key Hkey) as (at' & inode' & Hres & ->).
    rewrite (stat_found fs source at_ (FileNode inode) Hs ltac:(done)) in Hres. by injection Hres as _ ->.
  - by apply link_yields with t.
Qed.

Lemma child_at at_ n : n ∈ dir_names fs at_ → ∃ node, node_at fs (at_ ++ [n]) = Some node ∧ plain_name n.
Proof.
  intros Hin. pose proof (dir_names_plain at_) as Hp. apply Forall_forall with (x := n) in Hp; [|done].
  apply dir_names_spec in Hin as [node Hn]. exists node. by rewrite node_at_snoc.
Qed.

Lemma node_yields root fuel : ∀ source rel at_ node acc,
  Forall plain_name root → stat_of fs false source = Ok (at_, node) → Forall plain_name rel → rel ≠ [] →
  max_path_components limits < N.of_nat fuel + len rel → budget_ok acc.1 acc.2 →
  yields (scan_node limits (physical root) fuel source (joined rel) acc) fs (scans root at_ rel (λ _, True) acc).
Proof.
  induction fuel as [|fuel IH]; intros source rel at_ node acc Hroot Hs Hrel Hne Hfuel Hok; eapply node_step; try done.
  { intros acc' _ Hle. lia. }
  intros acc' Hr _ Hok'. apply children_yields; try done. apply Forall_forall. intros n (child & Hc & Hp)%child_at acc'' Hok''.
  apply IH with child; try done; [|by apply Forall_app; split; [|apply Forall_singleton]|by destruct rel|].
  - rewrite (stat_entry _ _ _ _ Hr Hp). by rewrite Hc.
  - unfold len in *. rewrite length_app. cbn. lia.
Qed.
End walk.

(** ** The inputs *)

Lemma strictly_sorted l :
  StronglySorted (not_greater (compare_on se_sort_key compare_bytes)) l →
  existsb (λ pair, bool_decide (se_sort_key pair.1 = se_sort_key pair.2)) (windows2 l) = false →
  StronglySorted (λ left right, compare_bytes (se_sort_key left) (se_sort_key right) = Lt) l.
Proof.
  induction 1 as [|a l Hs IH Ha]; [by constructor|]. destruct l as [|b l]; [by repeat constructor|].
  change (windows2 (a :: b :: l)) with ((a, b) :: windows2 (b :: l)). cbn [existsb fst snd].
  intros [Hab%bool_decide_eq_false Hno]%orb_false_iff. specialize (IH Hno). constructor; [done|].
  apply Forall_cons in Ha as [Hle _]. apply StronglySorted_inv in IH as [_ Hb].
  assert (Hlt : compare_bytes (se_sort_key a) (se_sort_key b) = Lt).
  { unfold not_greater, compare_on in Hle. destruct (compare_bytes _ _) eqn:Hc; [|done..].
    by apply (compare_Eq compare_bytes) in Hc. }
  constructor; [done|]. eapply Forall_impl; [exact Hb|]. intros c Hbc. cbv beta in Hbc.
  apply (compare_strict compare_bytes _ (se_sort_key b)); [done|by rewrite Hbc].
Qed.

Lemma file_name_plain path name : Path_file_name path = Some name → plain_name name.
Proof.
  unfold Path_file_name. destruct (last (path_components path)) as [[| | |n]|] eqn:Hl; try done. intros [= ->].
  apply (components_plain path). by apply last_Some_elem_of.
Qed.

Section inputs.
Context {E : Type} `{Env E} `{Disturb E} `{Attributes E}.
Context (limits : DecodeLimits) (fs : Files) (Ht : tree_ok fs) (Hnames : names_ok fs).

(** The entries of an input: all that is below it, when it is the only one
    and a directory, or else the input under its own name and all below. *)
Definition input_entries (single_directory : bool) (input : list byte) (new : list ScannedEntry) : Prop :=
  ∃ at_ node root scope,
    stat_of fs false input = Ok (at_, node) ∧
    stat_of fs true (if node_is_dir node then input else parent_or_dot input) = Ok (root, scope) ∧
    if single_directory then covers limits fs root at_ [] (λ below, below ≠ []) new
    else ∃ name, Path_file_name input = Some name ∧ covers limits fs root at_ [name] (λ _, True) new.

Definition only_directory (inputs : list (list byte)) : bool :=
  match inputs with
  | [input] => match stat_of fs false input with Ok (_, node) => node_is_dir node | Err _ => false end
  | _ => false
  end.

Record inputs_inv (single : bool) (done_ : list (list byte)) (acc : list ScannedEntry * ScanBudget) : Prop := {
  ii_entries : ∃ news, acc.1 = concat news ∧ Forall2 (input_entries single) done_ news;
  ii_budget : budget_ok acc.1 acc.2;
  ii_limits : same_limits (ScanBudget_new limits) acc.2;
}.

Lemma below_covers root at_ new :
  covers limits fs root at_ [] (starts_in (dir_names fs at_)) new → covers limits fs root at_ [] (λ below, below ≠ []) new.
Proof.
  intros (qs & Hnd & Hqs & Hf). exists qs. split; [done|]. split; [|done]. intros q. rewrite Hqs. split.
  - by intros [(n & q' & _ & ->) Hs].
  - intros [Hq [node Hs]]. split; [|by exists node]. destruct q as [|n q]; [done|]. exists n, q. split; [|done].
    apply dir_names_spec. replace (at_ ++ n :: q) with ((at_ ++ [n]) ++ q) in Hs by by rewrite <-app_assoc.
    rewrite <-node_at_snoc. destruct q as [|m q]; [rewrite app_nil_r in Hs; by exists node|]. exists DirNode.
    by eapply wf_prefix; [apply Ht|exact Hs|].
Qed.

Lemma input_yields single done_ acc input :
  (single = true → ∃ at_, stat_of fs false input = Ok (at_, DirNode)) → inputs_inv single done_ acc →
  yields (scan_input limits single acc input) fs (inputs_inv single (done_ ++ [input])).
Proof.
  intros Hsingle [(news & Happ & Hnews) Hok Hl].
  assert (Hnext : ∀ acc' new, acc'.1 = acc.1 ++ new → input_entries single input new → budget_ok acc'.1 acc'.2 →
    same_limits acc.2 acc'.2 → inputs_inv single (done_ ++ [input]) acc').
  { intros acc' new Happ' Hnew Hok' Hl'. split; [|done|by etrans]. exists (news ++ [new]).
    split; [by rewrite Happ', Happ, concat_app; cbn; rewrite app_nil_r|]. by apply Forall2_app; [|constructor]. }
  unfold scan_input. eapply yields_bind; [apply yields_checkpoint|intros _ _].
  eapply yields_bind; [apply yields_symlink_metadata|]. intros node [at_ Hs].
  eapply yields_bind; [apply yields_canonicalize|]. intros scope (root & rnode & Hr & ->).
  destruct (stat_of_ok _ _ _ _ _ Ht Hr) as (Hroot & _ & _). apply yields_if.
  - intros ->. destruct (Hsingle eq_refl) as [at' Hd]. rewrite Hs in Hd. injection Hd as <- ->.
    change [] with (joined []) at 1. assert (Hres : resolve_place fs true input = Ok (At at_ DirNode)) by exact (stat_found _ _ _ _ Hs ltac:(done)).
    eapply yields_weaken; [apply (children_yields limits fs Hnames _ input root at_ []); [done..| |done]|].
    + apply Forall_forall. intros n (child & Hc & Hp)%child_at acc'' Hok''; [|done..].
      apply node_yields with child; try done; [|by apply Forall_singleton|].
      * rewrite (stat_entry _ _ _ _ Hres Hp). by rewrite Hc.
      * unfold scan_fuel, len. cbn [app length]. lia.
    + intros acc' (new & Happ' & Hcov%below_covers & Hok' & Hl' & _). eapply Hnext; try done. by exists at_, DirNode, root, rnode.
  - intros ->. eapply (yields_bind (λ name, Path_file_name input = Some name)).
    { apply yields_lift; [|by apply ok_or_proper]. by intros name ?%ok_or_Ok. }
    intros name Hname. pose proof (file_name_plain _ _ Hname) as Hp.
    pose proof (joined_one name Hp) as Hj.
    rewrite Hj at 1. eapply yields_weaken; [apply (node_yields limits fs Ht Hnames root _ _ _ at_ node); [done|done| |done| |done]|].
    + by apply Forall_singleton.
    + unfold scan_fuel, len. cbn [app length]. lia.
    + intros acc' (new & Happ' & Hcov & Hok' & Hl' & _). eapply Hnext; try done. exists at_, node, root, rnode.
      split; [done|]. split; [done|]. by exists name.
Qed.

(** What a scan delivers. *)
Record scanned (inputs : list (list byte)) (entries : list ScannedEntry) : Prop := {
  sc_inputs : ∃ news, entries ≡ₚ concat news ∧ Forall2 (input_entries (only_directory inputs)) inputs news;
  sc_sorted : StronglySorted (λ left right, compare_bytes (se_sort_key left) (se_sort_key right) = Lt) entries;
  sc_count : len entries <= max_entries limits;
  sc_memory : sum (map entry_memory entries) <= max_metadata_bytes limits;
}.

Lemma scan_yields inputs : yields (scan_inputs limits inputs) fs (scanned inputs).
Proof.
  unfold scan_inputs. cbv zeta. apply yields_if; [by intros _; apply yields_fail|intros _].
  apply (yields_bind (λ single, single = only_directory inputs)).
  { destruct inputs as [|input [|]]; [by apply yields_ret| |by apply yields_ret].
    eapply yields_bind; [apply yields_symlink_metadata|]. intros node [at_ Hs]. apply yields_ret. cbn. by rewrite Hs. }
  intros single ->. eapply (yields_bind (inputs_inv (only_directory inputs) inputs)).
  { apply (yields_fold (inputs_inv (only_directory inputs)) _ _ _ []).
    - intros done_ input acc Hin Hinv. apply input_yields; [|done]. intros Hsingle.
      destruct inputs as [|input' [|]]; try done. apply list_elem_of_singleton in Hin as <-. cbn in Hsingle.
      destruct (stat_of fs false input) as [[at_ [| |]]|]; try done. by exists at_.
    - split; [by exists []|by split; [done|apply N.le_0_l|done|apply N.le_0_l]|done]. }
  intros [entries budget] [(news & Happ & Hnews) [Hent Hcount Hbytes Hmem] [Hle Hlb]]. cbn [fst snd] in *.
  destruct (insertion_sort_stable (compare_on se_sort_key compare_bytes) entries) as (Hsorted & Hperm & _).
  apply yields_if; [by intros _; apply yields_fail|intros Hdup]. apply yields_ret. split.
  - exists news. split; [by rewrite Hperm, Happ|done].
  - by apply strictly_sorted.
  - unfold len in *. rewrite Hperm, <-Hent. by rewrite Hle in Hcount.
  - rewrite (sum_perm _ _ (Permutation_map _ Hperm)), <-Hbytes. rewrite Hlb in Hmem. cbn [ScanBudget_new sb_max_bytes] in Hmem. lia.
Qed.
End inputs.

Section properties.
Context {E : Type} `{Env E} `{Disturb E} `{Attributes E}.

(** C13: a scan that returns does not change the tree and lists its inputs
    completely: for every input one entry for each node at or below it (only
    below it, when the input is the only one and a directory), under the path
    that the archive will store, which is within the limits, with the kind of
    the node, the identity and the length of a file, and the target of a
    link; a link that is listed leads to a place inside of its input's scope.
    The entries are in the strict order of their keys, so that no two have
    the same path. *)
Theorem scan_inputs_correct limits fs e inputs entries s' :
  tree_ok fs → names_ok fs → scan_inputs limits inputs (fs, e) = (Ok entries, s') →
  s'.1 = fs ∧
  (∃ news, entries ≡ₚ concat news ∧ Forall2 (input_entries limits fs (only_directory fs inputs)) inputs news) ∧
  StronglySorted (λ left right, compare_bytes (se_sort_key left) (se_sort_key right) = Lt) entries.
Proof.
  intros Ht Hn Hs. destruct (scan_yields limits fs Ht Hn inputs e) as [Hfs Hr]. rewrite Hs in *. by destruct Hr.
Qed.

(** C14: what a scan returns is within the limits: not more entries than
    [max_entries], and not more memory for them than [max_metadata_bytes],
    with the paths, the keys and the targets of links at their lengths. *)
Theorem scan_bounded limits fs e inputs entries s' :
  tree_ok fs → names_ok fs → scan_inputs limits inputs (fs, e) = (Ok entries, s') →
  len entries <= max_entries limits ∧ sum (map entry_memory entries) <= max_metadata_bytes limits.
Proof.
  intros Ht Hn Hs. destruct (scan_yields limits fs Ht Hn inputs e) as [_ Hr]. rewrite Hs in Hr. by destruct Hr.
Qed.

(** C15: the recursion of the scan ends: the limit on the components of a
    path bounds its depth, so that the fuel that the model gives it never
    runs out, whatever the tree and the inputs. *)
Theorem scan_inputs_ends limits fs e inputs s' :
  tree_ok fs → names_ok fs → (∀ s s' : FS E, env_checkpoint s ≠ (Err out_of_fuel, s')) →
  scan_inputs limits inputs (fs, e) ≠ (Err out_of_fuel, s').
Proof.
  intros Ht Hn Hcalm Hs. destruct (scan_yields limits fs Ht Hn inputs e) as [_ Hr]. rewrite Hs in Hr.
  destruct (Hr eq_refl) as (s & s'' & He). by apply Hcalm in He.
Qed.

(** C16: an input that is a bare name, of anything but a directory, is never
    packed: [parent] of the name is the empty path, not [None], so that the
    working directory is not taken for it, and [canonicalize] fails on the
    empty path. *)
Theorem scan_bare_name_fails limits fs e inputs name at_ node :
  tree_ok fs → names_ok fs → name ∈ inputs → plain_name name → stat_of fs false name = Ok (at_, node) → node ≠ DirNode →
  ∃ err s', scan_inputs limits inputs (fs, e) = (Err err, s') ∧ s'.1 = fs.
Proof.
  intros Ht Hn Hin Hp Hs Hd. destruct (scan_yields limits fs Ht Hn inputs e) as [Hfs Hr].
  destruct (scan_inputs limits inputs (fs, e)) as [[entries|err] s']; cbn in *; [|by exists err, s'].
  destruct Hr as [(news & _ & Hnews) _ _ _]. apply list_elem_of_lookup in Hin as [i Hi].
  destruct (Forall2_lookup_l _ _ _ _ _ Hnews Hi) as (new & _ & at' & node' & root & scope & Hs' & Hroot & _).
  rewrite Hs in Hs'. injection Hs' as <- <-. destruct node; [done| |].
  all: cbn [node_is_dir] in Hroot; unfold parent_or_dot in Hroot; rewrite bare_parent in Hroot by done; done.
Qed.
End properties.
