(* ===== verification/ScanExample.v ===== *)
(** * A scan of a small tree *)

From S2P Require Import Prelude Core Effects Bytes Paths FileTree FileWalk Catalog Sorting Orders Inputs Pack.
From S2P Require Import AgentApi DaemonPaths RealPaths Scan ScanSafety.

#[local] Instance steady : Disturb unit :=
  {| io_fails := λ u, (false, u); temporary_name := λ u, (bytes_of "t", u) |}.
#[local] Instance plain_attributes : Attributes unit := λ _ u, ((4096, Some 7%Z, 420), u).

Module ScanTree.
Definition names (s : list string) : list Name := map bytes_of s.

(** The directory [/d] with the file [f], the link [l] to it, and [s] with a
    second name of the file; [/d] is the working directory. *)
Definition files : Files := {|
  ft_nodes := {[ names ["d"] := DirNode; names ["d"; "s"] := DirNode;
                 names ["d"; "f"] := FileNode 0; names ["d"; "s"; "g"] := FileNode 0;
                 names ["d"; "l"] := LinkNode (bytes_of "s/g"); names ["x"] := LinkNode (bytes_of "/") ]};
  ft_inodes := {[ 0 := {| in_content := bytes_of "abc"; in_mode := None |} ]};
  ft_cwd := names ["d"];
|}.

Lemma every_scan_node (P : list Name * Node → Prop) : Forall P (map_to_list (ft_nodes files)) →
  ∀ p node, ft_nodes files !! p = Some node → P (p, node).
Proof. intros Hall p node Hl. rewrite Forall_forall in Hall. by apply Hall, elem_of_map_to_list. Qed.

Lemma scan_files_ok : tree_ok files.
Proof.
  split; [|by repeat constructor; try done; apply (bool_decide_unpack _); vm_compute]. split; [done| |done].
  intros d n node Hl. assert (Hd := every_scan_node (λ entry, node_at files (removelast entry.1) = Some DirNode)
    ltac:(vm_compute; repeat constructor) _ _ Hl). cbn [fst] in Hd. by rewrite removelast_snoc in Hd.
Qed.
Lemma scan_files_names : names_ok files.
Proof.
  intros p node Hl. apply (every_scan_node (λ entry, Forall plain_name entry.1)) in Hl; [done|].
  vm_compute map_to_list. repeat constructor; try done; by apply (bool_decide_unpack _); vm_compute.
Qed.

Definition limits : DecodeLimits := DecodeLimits_default.
End ScanTree.
Import ScanTree.

Definition keys (r : Result (list ScannedEntry)) : Result (list (list (list byte))) :=
  entries ← r; Ok (map (λ e, map pc_bytes (ap_components (se_archive_path e))) entries).

Example scan_directory : keys (scan_inputs limits [bytes_of "/d"] (files, tt)).1 =
  Ok [names ["f"]; names ["l"]; names ["s"]; names ["s"; "g"]].
Proof. by vm_compute. Qed.

(** Two inputs keep their own names; the link to [/] leaves its input. *)
Example scan_two : keys (scan_inputs limits [bytes_of "/d/s"; bytes_of "/d/f"] (files, tt)).1 =
  Ok [names ["f"]; names ["s"]; names ["s"; "g"]].
Proof. by vm_compute. Qed.
Example scan_same_name : (scan_inputs limits [bytes_of "/d/f"; bytes_of "/d/f"] (files, tt)).1 =
  Err (InvalidMetadata "duplicate input path").
Proof. by vm_compute. Qed.
Example scan_absolute_link : (scan_inputs limits [bytes_of "/x"] (files, tt)).1 = Err UnsafeSymlink.
Proof. by vm_compute. Qed.

(** A relative name works with a directory before it, and fails alone. *)
Example scan_dot_name : keys (scan_inputs limits [bytes_of "./f"] (files, tt)).1 = Ok [names ["f"]].
Proof. by vm_compute. Qed.
Example scan_bare_name : (scan_inputs limits [bytes_of "f"] (files, tt)).1 = Err (Io NotFound).
Proof. by vm_compute. Qed.

Definition entries : list ScannedEntry :=
  match (scan_inputs limits [bytes_of "/d"] (files, tt)).1 with Ok entries => entries | Err _ => [] end.
Lemma entries_run : scan_inputs limits [bytes_of "/d"] (files, tt) = (Ok entries, (files, tt)).
Proof. by vm_compute. Qed.

Lemma scan_inputs_correct_witness :
  StronglySorted (λ left right, compare_bytes (se_sort_key left) (se_sort_key right) = Lt) entries ∧
  ∃ new, entries ≡ₚ new ∧ input_entries limits files true (bytes_of "/d") new.
Proof.
  destruct (scan_inputs_correct limits files tt [bytes_of "/d"] entries (files, tt) scan_files_ok scan_files_names entries_run)
    as (_ & (news & Hp & Hnews) & Hs).
  split; [exact Hs|]. apply Forall2_cons_inv_l in Hnews as (new & rest & Hnew & Hrest & ->).
  apply Forall2_nil_inv_l in Hrest as ->. exists new. cbn [concat] in Hp. rewrite app_nil_r in Hp. by split.
Defined.

Lemma scan_bounded_witness : sum (map entry_memory entries) <= max_metadata_bytes limits.
Proof. apply (scan_bounded limits files tt [bytes_of "/d"] entries (files, tt) scan_files_ok scan_files_names entries_run). Defined.

Lemma scan_inputs_ends_witness : scan_inputs limits [bytes_of "/d"] (files, tt) ≠ (Err out_of_fuel, (files, tt)).
Proof. apply (scan_inputs_ends limits files tt); [apply scan_files_ok|apply scan_files_names|done]. Defined.

Lemma scan_bare_name_fails_witness :
  ∃ err s', scan_inputs limits [bytes_of "f"] (files, tt) = (Err err, s') ∧ s'.1 = files.
Proof.
  apply (scan_bare_name_fails limits files tt [bytes_of "f"] (bytes_of "f") (names ["d"; "f"]) (FileNode 0)).
  - apply scan_files_ok.
  - apply scan_files_names.
  - by left.
  - by apply (bool_decide_unpack _); vm_compute.
  - by vm_compute.
  - done.
Defined.
