(* ===== verification/PathSafety.v ===== *)
(** * The path checks of the daemon keep to their roots

    What [authorize_read] and [authorize_write] let through, that a grant
    never gives more than the granting authorizer has, and what revalidation
    means. *)

From S2P Require Import Prelude Core Effects Bytes Paths FileTree FileWalk Extract AgentApi Daemon DaemonPaths RealPaths.

(** ** Computations that read the tree *)

Section reading.
Context {E : Type} `{Env E} `{Disturb E}.

(** The file system does not fail. *)
Definition quiet : Prop := ∀ e : E, (io_fails e).1 = false.

(** The tree stays as it is, and the result is as [R] says or, if a call
    fails, a denial. *)
Definition answers {A} (m : D (FS E) A) (fs : Files) (R : RpcResult A → Prop) : Prop :=
  ∀ e, (m (fs, e)).2.1 = fs ∧ (R (m (fs, e)).1 ∨ ¬ quiet ∧ (m (fs, e)).1 = Err path_denied).

Lemma answers_weaken {A} (m : D (FS E) A) fs R R' : answers m fs R → (∀ r, R r → R' r) → answers m fs R'.
Proof. intros Hm HR e. destruct (Hm e) as [? [?|?]]; auto. Qed.

Lemma answers_bind {A B} R1 (m : D (FS E) A) (f : A → D (FS E) B) fs R :
  answers m fs R1 → (∀ a, R1 (Ok a) → answers (f a) fs R) → (∀ e, R1 (Err e) → R (Err e)) → answers (m ≫= f) fs R.
Proof.
  intros Hm Hf He e. destruct (Hm e) as [Hfs Hr]. unfold mbind, D_bind. destruct (m (fs, e)) as [[a|err] [fs' e']]; cbn in *; subst fs'.
  - destruct Hr as [Hr|[_ ?]]; [exact (Hf a Hr e')|done].
  - split; [done|]. destruct Hr as [Hr|[? [= ->]]]; [left; by apply He|by right].
Qed.

Lemma answers_lift {A} (r : RpcResult A) fs (R : RpcResult A → Prop) : R r → answers (d_lift r) fs R.
Proof. intros Hr e. split; [done|by left]. Qed.
Lemma answers_ret {A} (v : A) fs (R : RpcResult A → Prop) : R (Ok v) → answers (mret v) fs R.
Proof. apply answers_lift. Qed.
Lemma answers_fail {A} err fs (R : RpcResult A → Prop) : R (Err err) → answers (d_fail err) fs R.
Proof. apply answers_lift. Qed.

Lemma answers_lift_bind {A B} (r : RpcResult A) (f : A → D (FS E) B) fs R :
  (∀ a, r = Ok a → answers (f a) fs R) → (∀ err, r = Err err → R (Err err)) → answers (d_lift r ≫= f) fs R.
Proof.
  intros Hf He. apply (answers_bind (λ r', r' = r)); [by apply answers_lift|by intros; apply Hf|by intros; apply He].
Qed.

Lemma stat_run follow path fs (e : E) :
  ∃ e', stat follow path (fs, e) = (match stat_of fs follow path with Ok v => Ok v | Err kind => Err (Io kind) end, (fs, e')) ∨
    (¬ quiet ∧ stat follow path (fs, e) = (Err (Io OtherKind), (fs, e'))).
Proof.
  unfold stat, stat_of, locate, io, files, lift_io, lift, mbind, M_bind, mret, M_ret, fail. cbn [fst snd].
  destruct (io_fails e) as [b e'] eqn:Hio. exists e'. destruct b.
  - right. split; [|done]. intros Hq. specialize (Hq e). by rewrite Hio in Hq.
  - left. destruct (resolve_place _ _ _) as [[p [|i|t]|]|]; try destruct (ends_open path); done.
Qed.

(** The node's type, and what is done with an error. *)
Lemma answers_try {B} path (k : result PithosError Node → D (FS E) B) fs R :
  answers (k (match stat_of fs false path with Ok (_, node) => Ok node | Err kind => Err (Io kind) end)) fs R →
  k (Err (Io OtherKind)) = d_fail path_denied → answers (d_try (symlink_metadata path) ≫= k) fs R.
Proof.
  intros Hk Hd e. unfold mbind, D_bind, d_try, symlink_metadata, mbind, M_bind.
  destruct (stat_run false path fs e) as [e' [-> |[Hq ->]]].
  - destruct (stat_of fs false path) as [[p node]|kind]; apply Hk.
  - rewrite Hd. split; [done|]. by right.
Qed.

Lemma answers_metadata path fs :
  answers (d_fs path_denied (symlink_metadata path)) fs
    (λ r, r = match stat_of fs false path with Ok (_, node) => Ok node | Err _ => Err path_denied end).
Proof.
  intros e. unfold d_fs, symlink_metadata, mbind, M_bind.
  destruct (stat_run false path fs e) as [e' [-> |[Hq ->]]]; [|split; [done|by right]].
  split; destruct (stat_of fs false path) as [[p node]|kind]; [done..|by left|by left].
Qed.

Lemma answers_canonicalize path fs :
  answers (d_fs path_denied (canonicalize path)) fs
    (λ r, r = match stat_of fs true path with Ok (p, _) => Ok (physical p) | Err _ => Err path_denied end).
Proof.
  intros e. unfold d_fs, canonicalize, mbind, M_bind.
  destruct (stat_run true path fs e) as [e' [-> |[Hq ->]]]; [|split; [done|by right]].
  split; destruct (stat_of fs true path) as [[p node]|kind]; [done..|by left|by left].
Qed.

(** ** Roots *)

(** The roots of an authorizer are canonical. *)
Definition roots_ok (roots : list PathBuf) : Prop := ∀ root, root ∈ roots → ∃ q, Forall plain_name q ∧ root = physical q.
Record authorizer_ok (self : PathAuthorizer) : Prop := {
  authorizer_read : roots_ok (read_roots self);
  authorizer_write : roots_ok (write_roots self);
}.

(** [p] is at or below a root. *)
Definition permits (roots : list PathBuf) (p : list Name) : Prop :=
  ∃ q, Forall plain_name q ∧ physical q ∈ roots ∧ q `prefix_of` p.

Lemma existsb_permits roots p :
  roots_ok roots → Forall plain_name p → existsb (Path_starts_with (physical p)) roots = true ↔ permits roots p.
Proof.
  intros Hr Hp. rewrite existsb_exists. split.
  - intros (root & Hin%list_elem_of_In & Hs). destruct (Hr root Hin) as (q & Hq & ->).
    rewrite starts_with_physical in Hs by done. exists q. by apply bool_decide_eq_true in Hs.
  - intros (q & Hq & Hin & Hpre). exists (physical q). split; [by apply list_elem_of_In|].
    rewrite starts_with_physical by done. by apply bool_decide_eq_true.
Qed.

Lemma longest_root_in roots : roots ≠ [] → ∃ root, root ∈ roots ∧ longest_root roots = Some root.
Proof.
  unfold longest_root. induction roots as [|root roots IH] using rev_ind; [done|]. intros _. rewrite fold_left_app. cbn [fold_left].
  destruct (decide (roots = [])) as [->|Hne]; [exists root; split; [by apply list_elem_of_singleton|done]|].
  destruct (IH Hne) as (best & Hin & ->). cbn [longest_step].
  destruct (_ <=? _)%nat; eexists; (split; [|done]); apply elem_of_app; [right; by apply list_elem_of_singleton|by left].
Qed.

Lemma answers_links fs d ms node q r :
  tree_ok fs → Forall plain_name (d ++ ms) → backed fs d ms node → q ++ r = d ++ ms →
  answers (reject_links (physical q) (map Normal r)) fs (λ res, res = Ok tt).
Proof.
  intros Ht Hp Hb. revert q. induction r as [|n r IH]; intros q Hqr; cbn [map reject_links]; [by apply answers_ret|].
  cbn [component_name]. rewrite <-physical_snoc.
  assert (Hk : (q ++ [n]) ++ r = d ++ ms) by by rewrite <-app_assoc.
  apply answers_try; [|done]. destruct (backed_prefix fs d ms node (q ++ [n])) as [(node' & -> & Hl)| ->]; try done.
  - by exists r.
  - destruct node' as [| |t]; [by apply IH..|by destruct (Hl t)].
  - rewrite bool_decide_eq_true_2 by done. by apply answers_ret.
Qed.

(** What is permitted is not rejected. *)
Lemma answers_reject fs d ms node roots :
  tree_ok fs → Forall plain_name (d ++ ms) → backed fs d ms node → roots_ok roots → permits roots (d ++ ms) →
  answers (reject_symlink_components (physical (d ++ ms)) roots) fs (λ res, res = Ok tt).
Proof.
  intros Ht Hp Hb Hr Hperm. unfold reject_symlink_components.
  set (candidates := List.filter _ roots). assert (Hne : candidates ≠ []).
  { apply existsb_permits in Hperm; [|done..]. apply existsb_exists in Hperm as (root & Hin & Hs).
    assert (Hc : In root candidates) by by apply filter_In. by destruct candidates. }
  destruct (longest_root_in _ Hne) as (root & Hin & ->). cbn [ok_or].
  apply list_elem_of_In, filter_In in Hin as [Hin Hs]. apply list_elem_of_In in Hin.
  destruct (Hr root Hin) as (q & Hq & ->). rewrite starts_with_physical in Hs by done. apply bool_decide_eq_true in Hs as [r Hr'].
  apply answers_lift_bind; [intros _ [= <-]|done].
  assert (strip_prefix (physical (d ++ ms)) (physical q) = Some (map Normal r)) as ->.
  { unfold strip_prefix. rewrite starts_with_physical by done. rewrite bool_decide_eq_true_2 by by exists r.
    destruct (physical_spec _ Hp) as [-> _]. destruct (physical_spec _ Hq) as [-> _]. rewrite Hr', map_app. f_equal.
    change (RootDir :: map Normal q ++ map Normal r) with ((RootDir :: map Normal q) ++ map Normal r). by rewrite drop_app_length. }
  apply answers_lift_bind; [intros _ [= <-]|done]. by eapply answers_links.
Qed.

Lemma answers_nearest_loop fs fuel cs missing :
  tree_ok fs → valid_components (cs ++ map Normal (rev missing)) → (length cs <= fuel)%nat → Forall plain_name missing →
  (∀ m, last missing = Some m → stat_of fs false (path_of_components (cs ++ [Normal m])) = Err NotFound) →
  answers (nearest_parent_loop fuel (path_of_components cs) missing) fs
    (λ res, match res with
     | Ok canonical => ∃ d ms, nearest fs (cs ++ map Normal (rev missing)) d ms ∧ canonical = physical (d ++ ms)
     | Err _ => ∀ d ms, ¬ nearest fs cs d ms
     end).
Proof.
  intros Ht. revert cs missing. induction fuel as [|fuel IH]; intros cs missing Hv Hf Hp Hm; cbn [nearest_parent_loop].
  all: apply answers_try; [|done].
  all: destruct (stat_of fs false (path_of_components cs)) as [[d node]|kind] eqn:Hs.
  all: assert (Hvc : valid_components cs) by (eapply valid_prefix; [by eexists|exact Hv]).
  1, 3: destruct node as [|i|t]; [|apply answers_fail; intros d' ms'; apply nearest_none; [done|congruence..]|apply answers_fail; intros d' ms'; apply nearest_none; [done|congruence..]].
  1, 2: eapply answers_bind; [apply answers_canonicalize| |by rewrite (stat_of_follow _ _ _ Hs)].
  1, 2: rewrite (stat_of_follow _ _ _ Hs); intros canonical [= ->]; apply answers_ret.
  1, 2: rewrite physical_push; exists d, (rev missing); split; [|done].
  1, 2: destruct (stat_of_ok _ _ _ _ _ Ht Hs) as (Hd & Hn & _).
  1, 2: assert (Hback : ∀ m, head (rev missing) = Some m → node_at fs (d ++ [m]) = None) by
    (intros m Hhd; destruct missing as [|x missing _] using rev_ind; [done|]; rewrite rev_app_distr in Hhd, Hv;
     injection Hhd as <-; apply (stat_of_child fs cs); [done| |done|apply Hm; by rewrite last_snoc];
     eapply valid_prefix; [|exact Hv]; cbn [rev app map]; exists (map Normal (rev missing)); by rewrite <-app_assoc).
  1, 2: split; [by exists cs|by split|apply Forall_app; split; [done|by apply Forall_rev]].
  all: destruct (decide (kind = NotFound)) as [->|Hkind];
    [|rewrite bool_decide_eq_false_2 by (by intros [= ->]); apply answers_fail; intros d' ms'; apply nearest_none; [done|congruence..]].
  all: rewrite bool_decide_eq_true_2 by done; cbn [negb].
  all: destruct (path_of_components_spec cs Hvc) as [Hc _].
  all: apply answers_lift_bind.
  2, 4: intros err Herr d ms Hn; destruct (nearest_cases _ _ _ _ Hvc Hn) as [[_ ?]|(_ & cs' & ms' & n & -> & _ & _)]; [congruence|];
    unfold Path_file_name in Herr; rewrite Hc, last_snoc in Herr; done.
  all: intros name Hname.
  all: assert (Hcs : ∃ cs', cs = cs' ++ [Normal name]) by
    (unfold Path_file_name in Hname; rewrite Hc in Hname; destruct (last cs) as [[| | |n]|] eqn:Hl; try done;
     injection Hname as ->; by apply last_Some in Hl).
  all: destruct Hcs as [cs' ->].
  all: destruct (Path_parent_snoc _ _ _ Hc ltac:(done)) as [-> _]; cbn [ok_or].
  all: apply answers_lift_bind; [intros _ [= <-]|done].
  { rewrite length_app in Hf. cbn in Hf. lia. }
  pose proof (valid_plain _ _ Hvc) as Hplain.
  eapply answers_weaken; [apply IH|].
  - rewrite rev_app_distr, map_app. cbn [rev map app]. by rewrite <-app_assoc in Hv.
  - rewrite length_app in Hf. cbn in Hf. lia.
  - apply Forall_app. split; [done|by apply Forall_singleton].
  - intros m. rewrite last_snoc. intros [= <-]. exact Hs.
  - intros [canonical|err].
    + rewrite rev_app_distr, map_app. cbn [rev map app]. by rewrite <-app_assoc.
    + intros Hno d ms Hn. destruct (nearest_cases _ _ _ _ Hvc Hn) as [[_ ?]|(_ & cs1 & ms1 & n1 & E1 & _ & Hn1)]; [congruence|].
      apply app_inj_tail in E1 as [-> _]. by eapply Hno.
Qed.

Lemma answers_nearest fs cs :
  tree_ok fs → valid_components cs →
  answers (canonicalize_nearest_parent (path_of_components cs)) fs
    (λ res, match res with
     | Ok canonical => ∃ d ms, nearest fs cs d ms ∧ canonical = physical (d ++ ms)
     | Err _ => ∀ d ms, ¬ nearest fs cs d ms
     end).
Proof.
  intros Ht Hv. unfold canonicalize_nearest_parent. destruct (path_of_components_spec cs Hv) as [-> _].
  eapply answers_weaken; [apply (answers_nearest_loop fs _ cs []); [done|cbn; by rewrite app_nil_r|done|done|done]|].
  intros [canonical|err]; [|done]. cbn [rev map]. by rewrite app_nil_r.
Qed.

(** ** The operations *)

Definition readable (self : PathAuthorizer) (fs : Files) (path : PathBuf) (p : list Name) : Prop :=
  reject_unsafe_syntax path = Ok tt ∧ (∃ node, stat_of fs true path = Ok (p, node)) ∧ permits (read_roots self) p.

Lemma answers_read self fs path :
  tree_ok fs → authorizer_ok self →
  answers (PathAuthorizer_authorize_read self path) fs
    (λ res, match res with
     | Ok canonical => ∃ p, readable self fs path p ∧ canonical = physical p
     | Err _ => ∀ p, ¬ readable self fs path p
     end).
Proof.
  intros Ht [Hr _]. unfold PathAuthorizer_authorize_read.
  apply answers_lift_bind; [intros [] Hsyn|intros err Hsyn p (Hs & _); congruence].
  eapply answers_bind; [apply answers_canonicalize| |].
  2: { intros err He p (_ & [node Hs] & _). by rewrite Hs in He. }
  intros canonical He. destruct (stat_of fs true path) as [[p node]|] eqn:Hs; [|done]. injection He as ->.
  destruct (stat_of_ok _ _ _ _ _ Ht Hs) as (Hp & Hn & Hl). pose proof (existsb_permits _ p Hr Hp) as Hperm.
  destruct (existsb _ _); cbn [negb].
  - assert (Hb : backed fs p [] node) by (split; [done|by apply Hl|done|done]).
    assert (Hpp : permits (read_roots self) (p ++ [])) by (rewrite app_nil_r; by apply Hperm).
    eapply answers_bind.
    + pose proof (answers_reject fs p [] node (read_roots self) Ht) as Ha. rewrite app_nil_r in Ha, Hpp. by apply Ha.
    + intros []. intros _. apply answers_ret. exists p. rewrite app_nil_r in Hpp. split; [|done]. split; [done|]. split; [by exists node|done].
    + by intros.
  - apply answers_fail. intros p' (_ & [node' Hs'] & Hp'). rewrite Hs in Hs'. injection Hs' as <- <-. by apply Hperm in Hp'.
Qed.

Definition writable (self : PathAuthorizer) (fs : Files) (path : PathBuf) (d ms : list Name) (name : Name) : Prop :=
  reject_unsafe_syntax path = Ok tt ∧
  (∃ cs, path_components path = cs ++ [Normal name] ∧ nearest fs cs d ms) ∧ permits (write_roots self) (d ++ ms) ∧ plain_name name.

Lemma answers_write self fs path :
  tree_ok fs → authorizer_ok self →
  answers (PathAuthorizer_authorize_write self path) fs
    (λ res, match res with
     | Ok target => ∃ d ms name, writable self fs path d ms name ∧ target = physical (d ++ ms ++ [name])
     | Err _ => ∀ d ms name, ¬ writable self fs path d ms name
     end).
Proof.
  intros Ht [_ Hr]. unfold PathAuthorizer_authorize_write.
  apply answers_lift_bind; [intros [] Hsyn|intros err Hsyn d ms n [Hs _]; congruence].
  apply answers_lift_bind.
  2: { intros err Hp d ms n (_ & (cs & Hc & _) & _). destruct (Path_parent_snoc _ _ _ Hc ltac:(done)) as [Hpar _]. by rewrite Hpar in Hp. }
  intros parent Hpar. destruct (Path_parent path) as [parent'|] eqn:Hparent; [|done]. injection Hpar as ->.
  pose proof (path_components_valid path) as Hv.
  assert (Hcs : ∃ cs c, path_components path = cs ++ [c] ∧ parent = path_of_components cs).
  { unfold Path_parent in Hparent. destruct (last (path_components path)) as [c|] eqn:Hl; [|done].
    apply last_Some in Hl as [cs Hc]. exists cs, c. split; [done|]. rewrite Hc, removelast_snoc in Hparent.
    by destruct c; try done; injection Hparent. }
  destruct Hcs as (cs & c & Hc & ->). assert (Hvc : valid_components cs) by (apply (valid_prefix _ (path_components path)); [rewrite Hc; by eexists|exact Hv]).
  eapply answers_bind; [by apply answers_nearest| |].
  2: { intros err He d ms n (_ & (cs' & Hc' & Hn) & _). rewrite Hc in Hc'. apply app_inj_tail in Hc' as [-> _]. by eapply He. }
  intros canonical (d & ms & Hnear & ->). pose proof Hnear as [_ Hb Hplain].
  pose proof (existsb_permits _ _ Hr Hplain) as Hperm.
  assert (Hsame : ∀ d' ms' n, writable self fs path d' ms' n → c = Normal n ∧ d' = d ∧ ms' = ms ∧ permits (write_roots self) (d ++ ms)).
  { intros d' ms' n (_ & (cs' & Hc' & Hn) & Hp & _). rewrite Hc in Hc'. apply app_inj_tail in Hc' as [<- ->].
    by destruct (nearest_unique _ _ _ _ _ _ Hvc Hnear Hn) as [-> ->]. }
  destruct (existsb _ _); cbn [negb].
  - eapply answers_bind; [apply (answers_reject fs d ms DirNode); try done; by apply Hperm| |by intros].
    intros [] _. unfold Path_file_name. rewrite Hc, last_snoc.
    destruct c as [| | |name]; cbn [ok_or]; try (apply answers_lift_bind; [done|]; intros err _ d' ms' n (Hx & _)%Hsame; done).
    apply answers_lift_bind; [intros _ [= <-]|done].
    apply answers_ret. exists d, ms, name. rewrite app_assoc, physical_snoc. split; [|done].
    split; [done|]. split; [by exists cs|]. split; [by apply Hperm|]. eapply valid_plain. rewrite <-Hc. exact Hv.
  - apply answers_fail. intros d' ms' n (_ & _ & _ & Hp)%Hsame. by apply Hperm in Hp.
Qed.

(** ** Roots of a new authorizer *)

(** [root] names a directory, and [canonical] is its path. *)
Definition canonical_of (fs : Files) (root canonical : PathBuf) : Prop :=
  ∃ q, stat_of fs false root = Ok (q, DirNode) ∧ canonical = physical q.

Lemma canonical_roots_ok fs roots canonical : tree_ok fs → Forall2 (canonical_of fs) roots canonical → roots_ok canonical.
Proof.
  intros Ht. induction 1 as [|root c roots cs (q & Hs & ->) _ IH]; intros r Hin; [by apply not_elem_of_nil in Hin|].
  apply elem_of_cons in Hin as [->|Hin]; [|by apply IH]. exists q. split; [|done]. by destruct (stat_of_ok _ _ _ _ _ Ht Hs).
Qed.

Definition on_ok {A} (P : A → Prop) (res : RpcResult A) : Prop := match res with Ok v => P v | Err _ => True end.

Lemma answers_canonical_root fs root : answers (canonical_root root) fs (on_ok (canonical_of fs root)).
Proof.
  unfold canonical_root. apply answers_lift_bind; [intros [] _|done].
  eapply answers_bind; [apply answers_metadata| |done]. intros node Hn.
  destruct (stat_of fs false root) as [[q node']|] eqn:Hs; [|done]. injection Hn as ->.
  destruct node'; try (by apply answers_fail). eapply answers_weaken; [apply answers_canonicalize|].
  rewrite (stat_of_follow _ _ _ Hs). intros r ->. exists q. split; [exact Hs|done].
Qed.

Lemma answers_canonical_roots fs roots : answers (canonical_roots roots) fs (on_ok (Forall2 (canonical_of fs) roots)).
Proof.
  unfold canonical_roots. destruct (_ <? _); [by apply answers_fail|].
  induction roots as [|root roots IH]; cbn [canonical_each]; [apply answers_ret; constructor|].
  eapply answers_bind; [apply answers_canonical_root| |done]. intros c Hc.
  eapply answers_bind; [exact IH| |done]. intros cs Hcs. apply answers_ret. by constructor.
Qed.

Record made_from (fs : Files) (scope : PathScope) (self : PathAuthorizer) : Prop := {
  made_read : Forall2 (canonical_of fs) (ps_read_roots scope) (read_roots self);
  made_write : Forall2 (canonical_of fs) (ps_write_roots scope) (write_roots self);
}.

Lemma made_ok fs scope self : tree_ok fs → made_from fs scope self → authorizer_ok self.
Proof. intros Ht [Hr Hw]. split; by eapply canonical_roots_ok. Qed.

Lemma answers_new fs scope : answers (PathAuthorizer_new scope) fs (on_ok (made_from fs scope)).
Proof.
  unfold PathAuthorizer_new. destruct (_ && _); [by apply answers_fail|].
  eapply answers_bind; [apply answers_canonical_roots| |done]. intros read Hr.
  eapply answers_bind; [apply answers_canonical_roots| |done]. intros write Hw. by apply answers_ret.
Qed.

(** ** Grants *)

Definition below (roots allowed : list PathBuf) : Prop :=
  ∀ root, root ∈ roots → existsb (Path_starts_with root) allowed = true.

Lemma below_permits roots allowed p :
  roots_ok roots → roots_ok allowed → below roots allowed → permits roots p → permits allowed p.
Proof.
  intros Hr Ha Hb (q & Hq & Hin & Hpre). pose proof (Hb _ Hin) as Hx.
  apply (existsb_permits allowed q Ha Hq) in Hx as (q' & Hq' & Hin' & Hpre').
  exists q'. split; [done|]. split; [done|]. by etrans.
Qed.

Lemma answers_grant self fs scope :
  answers (PathAuthorizer_grant self scope) fs
    (on_ok (λ granted, made_from fs scope granted ∧ below (read_roots granted) (read_roots self) ∧
       below (write_roots granted) (write_roots self))).
Proof.
  unfold PathAuthorizer_grant. eapply answers_bind; [apply answers_new| |done]. intros granted Hm.
  assert (Hb : ∀ roots allowed, existsb (λ root, negb (existsb (Path_starts_with root) allowed)) roots = false → below roots allowed).
  { intros roots allowed Hno root Hin. destruct (existsb (Path_starts_with root) allowed) eqn:Hx; [done|].
    apply not_true_iff_false in Hno. destruct Hno. apply existsb_exists. exists root. by rewrite Hx, <-list_elem_of_In. }
  destruct (existsb _ (read_roots granted)) eqn:Hr; [by apply answers_fail|].
  destruct (existsb _ (write_roots granted)) eqn:Hw; [by apply answers_fail|].
  apply answers_ret. split; [done|]. split; by apply Hb.
Qed.

(** ** Revalidation *)

Lemma answers_try_any {B} path (k : result PithosError Node → D (FS E) B) fs R :
  answers (k (match stat_of fs false path with Ok (_, node) => Ok node | Err kind => Err (Io kind) end)) fs R →
  (¬ quiet → answers (k (Err (Io OtherKind))) fs R) → answers (d_try (symlink_metadata path) ≫= k) fs R.
Proof.
  intros Hk Hd e. unfold mbind, D_bind, d_try, symlink_metadata, mbind, M_bind.
  destruct (stat_run false path fs e) as [e' [-> |[Hq ->]]].
  - destruct (stat_of fs false path) as [[p node]|kind]; apply Hk.
  - by apply Hd.
Qed.

(** [path] is the canonical path of a node that is no link. *)
Definition physically (fs : Files) (path : PathBuf) (p : list Name) : Prop :=
  path_components path = RootDir :: map Normal p ∧ Forall plain_name p ∧
  ∃ node, node_at fs p = Some node ∧ ∀ target, node ≠ LinkNode target.

Lemma answers_revalidate_read fs path :
  tree_ok fs →
  answers (PathAuthorizer_revalidate_read path) fs
    (λ res, match res with
     | Ok _ => ∃ p, physically fs path p
     | Err _ => ∀ p, reject_unsafe_syntax path = Ok tt → path = physical p → ¬ physically fs path p
     end).
Proof.
  intros Ht. unfold PathAuthorizer_revalidate_read.
  apply answers_lift_bind; [intros [] Hsyn|intros err Hsyn p Hs; congruence].
  assert (Hphys : ∀ p, path = physical p → physically fs path p → ∀ follow, ∃ node, stat_of fs follow path = Ok (p, node) ∧
    ∀ target, node ≠ LinkNode target).
  { intros p -> (_ & Hp & node & Hn & Hl) follow. exists node. split; [|done]. by apply stat_of_physical. }
  eapply answers_bind; [apply answers_metadata| |].
  2: { intros err He p _ Hp Hx. destruct (Hphys p Hp Hx false) as (node & Hs & _). by rewrite Hs in He. }
  intros node Hn. assert (Hcont : answers
    (current ← d_fs path_denied (canonicalize path);
     if negb (PathBuf_eqb current path) then d_fail path_denied else mret tt) fs
    (λ res, match res with
     | Ok _ => ∃ p, physically fs path p
     | Err _ => ∀ p, reject_unsafe_syntax path = Ok tt → path = physical p → ¬ physically fs path p
     end)).
  { eapply answers_bind; [apply answers_canonicalize| |].
    2: { intros err He p _ Hp Hx. destruct (Hphys p Hp Hx true) as (node' & Hs & _). by rewrite Hs in He. }
    intros current Hcur. destruct (stat_of fs true path) as [[p node']|] eqn:Hs; [|done]. injection Hcur as ->.
    destruct (stat_of_ok _ _ _ _ _ Ht Hs) as (Hplain & Hnode & Hl). unfold PathBuf_eqb. case_bool_decide as Heq; cbn [negb].
    - apply answers_ret. exists p. destruct (physical_spec p Hplain) as [Hc _]. split; [by rewrite <-Heq|]. split; [done|].
      exists node'. split; [done|by apply Hl].
    - apply answers_fail. intros p' _ Hp Hx. destruct (Hphys p' Hp Hx true) as (node2 & Hs' & _). rewrite Hs in Hs'.
      injection Hs' as <- <-. by rewrite Hp in Heq. }
  destruct node as [|i|t]; [exact Hcont..|]. apply answers_fail. intros p _ Hp Hx.
  destruct (Hphys p Hp Hx false) as (node & Hs & Hl). rewrite Hs in Hn. injection Hn as <-. by destruct (Hl t).
Qed.

(** [path] is a canonical directory, or absent names below one, and a name. *)
Definition physical_target (fs : Files) (path : PathBuf) (d ms : list Name) (name : Name) : Prop :=
  path_components path = RootDir :: map Normal (d ++ ms ++ [name]) ∧ Forall plain_name (d ++ ms ++ [name]) ∧
  backed fs d ms DirNode.

Definition not_a_link (fs : Files) (p : list Name) : Prop := ∀ target, node_at fs p ≠ Some (LinkNode target).

Lemma unsafe_components path : reject_unsafe_syntax path = Ok tt → ParentDir ∉ path_components path.
Proof. unfold reject_unsafe_syntax. destruct (_ || _); [done|]. by case_bool_decide. Qed.

Lemma target_link fs d ms name at_ t :
  tree_ok fs → backed fs d ms DirNode → Forall plain_name (d ++ ms ++ [name]) →
  stat_of fs false (physical (d ++ ms ++ [name])) = Ok (at_, LinkNode t) → ¬ not_a_link fs (d ++ ms ++ [name]).
Proof.
  intros Ht [Hd _ _ Hm] Hp Hs Hno. destruct (node_at fs (d ++ ms ++ [name])) as [node|] eqn:Hn.
  - rewrite (stat_of_physical fs false _ node Ht Hp Hn) in Hs by done. injection Hs as _ ->. by destruct (Hno t).
  - destruct ms as [|m ms]; cbn [app] in *.
    + by rewrite (stat_of_absent fs false d name []) in Hs.
    + rewrite (stat_of_absent fs false d m) in Hs; [done|done|done|done|by apply Hm].
Qed.

Lemma answers_revalidate_write fs path :
  tree_ok fs →
  answers (PathAuthorizer_revalidate_write path) fs
    (λ res, match res with
     | Ok _ => ∃ d ms name, physical_target fs path d ms name ∧ (quiet → ends_open path = false → not_a_link fs (d ++ ms ++ [name]))
     | Err _ => ∀ d ms name, reject_unsafe_syntax path = Ok tt → path = physical (d ++ ms ++ [name]) →
         physical_target fs path d ms name → ¬ not_a_link fs (d ++ ms ++ [name])
     end).
Proof.
  intros Ht. unfold PathAuthorizer_revalidate_write.
  apply answers_lift_bind; [intros [] Hsyn|intros err Hsyn d ms n Hs; congruence].
  pose proof (path_components_valid path) as Hv. pose proof (unsafe_components _ Hsyn) as Hpar.
  apply answers_lift_bind.
  2: { intros err Hp d ms n _ -> (Hc & _). rewrite app_assoc, map_app, app_comm_cons in Hc.
       destruct (Path_parent_snoc _ _ _ Hc ltac:(done)) as [Hpp _]. by rewrite app_assoc, Hpp in Hp. }
  intros parent Hp. destruct (Path_parent path) as [parent'|] eqn:Hparent; [|done]. injection Hp as ->.
  assert (Hcs : ∃ cs c, path_components path = cs ++ [c] ∧ parent = path_of_components cs).
  { unfold Path_parent in Hparent. destruct (last (path_components path)) as [c|] eqn:Hl; [|done].
    apply last_Some in Hl as [cs Hc]. exists cs, c. split; [done|]. rewrite Hc, removelast_snoc in Hparent.
    by destruct c; try done; injection Hparent. }
  destruct Hcs as (cs & c & Hc & ->).
  assert (Hvc : valid_components cs) by (apply (valid_prefix _ (path_components path)); [rewrite Hc; by eexists|exact Hv]).
  destruct (path_of_components_spec cs Hvc) as [Hcc _].
  assert (Htarget : ∀ d ms n, physical_target fs path d ms n → cs = RootDir :: map Normal (d ++ ms) ∧ c = Normal n ∧ nearest fs cs d ms).
  { intros d ms n (Hc' & Hplain & Hb). rewrite Hc, app_assoc, map_app, app_comm_cons in Hc'. apply app_inj_tail in Hc' as [-> ->].
    split; [done|]. split; [done|]. rewrite app_assoc in Hplain. apply Forall_app in Hplain as [Hplain _]. split; [|done|done].
    exists (RootDir :: map Normal d). rewrite map_app. split; [done|]. apply Forall_app in Hplain as [Hd _].
    apply (stat_of_physical fs false d DirNode); [done|done|by apply Hb|done]. }
  eapply answers_bind; [by apply answers_nearest| |].
  2: { intros err He d ms n _ _ (_ & _ & Hn)%Htarget _. by eapply He. }
  intros canonical (d & ms & Hnear & ->). pose proof Hnear as [_ Hb Hplain]. destruct (physical_spec _ Hplain) as [Hdc _].
  unfold PathBuf_eqb. rewrite Hcc, Hdc. case_bool_decide as Heq; cbn [negb].
  2: { apply answers_fail. intros d' ms' n _ _ (-> & _ & Hn)%Htarget _.
       destruct (nearest_unique _ _ _ _ _ _ Hvc Hnear Hn) as [-> ->]. done. }
  assert (Hname : ∃ name, c = Normal name ∧ plain_name name).
  { rewrite Hc, <-Heq in Hv, Hpar. destruct Hv as [_ [_ [Hi _]%Forall_cons]%Forall_app]. destruct c as [| | |name]; try done; [|by exists name].
    destruct Hpar. apply elem_of_app. right. by apply list_elem_of_singleton. }
  destruct Hname as (name & -> & Hname).
  assert (Hok : physical_target fs path d ms name).
  { split; [by rewrite Hc, <-Heq, (app_assoc d), (map_app Normal (d ++ ms))|]. split; [|done]. rewrite app_assoc. apply Forall_app. split; [done|by apply Forall_singleton]. }
  assert (Hlink : ∀ target, ends_open path = false → node_at fs (d ++ ms ++ [name]) = Some (LinkNode target) →
    ∃ at_, stat_of fs false path = Ok (at_, LinkNode target)).
  { intros t Ho Hn. exists (d ++ ms ++ [name]). unfold stat_of. rewrite Ho. cbn [orb].
    destruct Hok as (Hpc & Hpl & _). destruct (physical_spec _ Hpl) as [Hpp _].
    rewrite (resolve_same fs false path (physical (d ++ ms ++ [name]))); [|by rewrite Hpp|by rewrite Hpc].
    by rewrite (resolve_physical _ _ _ (LinkNode t)). }
  apply answers_try_any.
  - destruct (stat_of fs false path) as [[at_ [|i|t]]|] eqn:Hs.
    3: { apply answers_fail. intros d' ms' n _ Hp Ht'%Htarget Hno. destruct Ht' as (_ & [= <-] & Hn).
         destruct (nearest_unique _ _ _ _ _ _ Hvc Hnear Hn) as [-> ->].
         rewrite Hp in Hs. exact (target_link fs d ms name at_ t Ht Hb (proj1 (proj2 Hok)) Hs Hno). }
    all: apply answers_ret; exists d, ms, name; (split; [exact Hok|]); intros _ Ho t Hn; destruct (Hlink t Ho Hn) as [at' [=]].
  - intros Hq. apply answers_ret. exists d, ms, name. by split.
Qed.

(** ** The theorems *)

Lemma answers_run {A} (m : D (FS E) A) (s : FS E) R res s' :
  answers m s.1 R → m s = (res, s') → s'.1 = s.1 ∧ (R res ∨ ¬ quiet ∧ res = Err path_denied).
Proof. intros Hm Hr. specialize (Hm s.2). by rewrite <-(surjective_pairing s), Hr in Hm. Qed.

Lemma answers_quiet {A} (m : D (FS E) A) (s : FS E) R : quiet → answers m s.1 R → R (m s).1.
Proof. intros Hq Hm. destruct (Hm s.2) as [_ [Hr|[? _]]]; [by rewrite <-(surjective_pairing s) in Hr|done]. Qed.



Lemma grant_readable self granted fs path p :
  authorizer_ok self → authorizer_ok granted → below (read_roots granted) (read_roots self) →
  readable granted fs path p → readable self fs path p.
Proof. intros [Hs _] [Hg _] Hb (? & ? & Hp). split; [done|]. split; [done|]. by apply (below_permits (read_roots granted)). Qed.

Lemma grant_writable self granted fs path d ms name :
  authorizer_ok self → authorizer_ok granted → below (write_roots granted) (write_roots self) →
  writable granted fs path d ms name → writable self fs path d ms name.
Proof.
  intros [_ Hs] [_ Hg] Hb (? & ? & Hp & ?). split; [done|]. split; [done|]. split; [|done].
  by apply (below_permits (write_roots granted)).
Qed.

Lemma stat_of_fun fs follow path p p' :
  (∃ node, stat_of fs follow path = Ok (p, node)) → (∃ node, stat_of fs follow path = Ok (p', node)) → p = p'.
Proof. intros [n Hn] [n' Hn']. congruence. Qed.

Lemma writable_fun self self' fs path d ms name d' ms' name' :
  writable self fs path d ms name → writable self' fs path d' ms' name' → d' = d ∧ ms' = ms ∧ name' = name.
Proof.
  intros (_ & (cs & Hc & Hn) & _) (_ & (cs' & Hc' & Hn') & _). pose proof (path_components_valid path) as Hv.
  rewrite Hc in Hc', Hv. apply app_inj_tail in Hc' as [<- [= <-]].
  destruct (nearest_unique fs cs d ms d' ms'); [|done..|done]. apply (valid_prefix _ (cs ++ [Normal name])); [by eexists|done].
Qed.

(** C33: a grant only narrows: its roots are the canonical paths of the
    requested directories, in the order requested, and on every later state of
    the file system whatever the grant authorizes for reading or writing, the
    granting authorizer authorizes with the same result. *)
Theorem grant_attenuates self scope granted (s s' : FS E) :
  tree_ok s.1 → authorizer_ok self → PathAuthorizer_grant self scope s = (Ok granted, s') →
  s'.1 = s.1 ∧ made_from s.1 scope granted ∧ authorizer_ok granted ∧
  ∀ later : FS E, tree_ok later.1 → quiet → ∀ path target,
    ((PathAuthorizer_authorize_read granted path later).1 = Ok target →
     (PathAuthorizer_authorize_read self path later).1 = Ok target) ∧
    ((PathAuthorizer_authorize_write granted path later).1 = Ok target →
     (PathAuthorizer_authorize_write self path later).1 = Ok target).
Proof.
  intros Ht Ha Hrun. destruct (answers_run _ _ _ _ _ (answers_grant self s.1 scope) Hrun) as [Hs [Hr|[_ ?]]]; [|done].
  destruct Hr as (Hm & Hbr & Hbw). pose proof (made_ok _ _ _ Ht Hm) as Hg.
  split; [done|]. split; [done|]. split; [done|]. intros later Hl Hq path target. split; intros Hgr.
  - pose proof (answers_quiet _ later _ Hq (answers_read granted later.1 path Hl Hg)) as H1'. rewrite Hgr in H1'.
    destruct H1' as (p & Hp & ->). pose proof (grant_readable _ _ _ _ _ Ha Hg Hbr Hp) as Hps.
    pose proof (answers_quiet _ later _ Hq (answers_read self later.1 path Hl Ha)) as H2'.
    destruct (PathAuthorizer_authorize_read self path later).1 as [c|]; [|by destruct (H2' p)].
    destruct H2' as (p' & Hp' & ->). by rewrite (stat_of_fun _ _ _ p p' (proj1 (proj2 Hp)) (proj1 (proj2 Hp'))).
  - pose proof (answers_quiet _ later _ Hq (answers_write granted later.1 path Hl Hg)) as H1'. rewrite Hgr in H1'.
    destruct H1' as (d & ms & n & Hw & ->). pose proof (grant_writable _ _ _ _ _ _ _ Ha Hg Hbw Hw) as Hws.
    pose proof (answers_quiet _ later _ Hq (answers_write self later.1 path Hl Ha)) as H2'.
    destruct (PathAuthorizer_authorize_write self path later).1 as [c|]; [|by destruct (H2' d ms n)].
    destruct H2' as (d' & ms' & n' & Hw' & ->). by destruct (writable_fun _ _ _ _ _ _ _ _ _ _ Hw Hw') as (-> & -> & ->).
Qed.

(** Revalidation before a job runs accepts for reading only a path that
    is still the canonical path of a node that is not a link, and for writing
    only a path whose ancestors are directories or missing and, if the disk
    does not fail, which is not a link itself; what has been authorized is
    accepted as long as the tree does not change. *)
Theorem revalidation_correct path (s : FS E) res s' :
  tree_ok s.1 →
  (PathAuthorizer_revalidate_read path s = (res, s') →
   s'.1 = s.1 ∧
   match res with
   | Ok _ => ∃ p, physically s.1 path p
   | Err _ => quiet → ∀ p, reject_unsafe_syntax path = Ok tt → path = physical p → ¬ physically s.1 path p
   end) ∧
  (PathAuthorizer_revalidate_write path s = (res, s') →
   s'.1 = s.1 ∧
   match res with
   | Ok _ => ∃ d ms name, physical_target s.1 path d ms name ∧
       (quiet → ends_open path = false → not_a_link s.1 (d ++ ms ++ [name]))
   | Err _ => quiet → ∀ d ms name, reject_unsafe_syntax path = Ok tt → path = physical (d ++ ms ++ [name]) →
       physical_target s.1 path d ms name → ¬ not_a_link s.1 (d ++ ms ++ [name])
   end).
Proof.
  intros Ht. split; intros Hrun.
  - destruct (answers_run _ _ _ _ _ (answers_revalidate_read s.1 path Ht) Hrun) as [Hs [Hr|[? ->]]]; (split; [done|]); [|done].
    by destruct res.
  - destruct (answers_run _ _ _ _ _ (answers_revalidate_write s.1 path Ht) Hrun) as [Hs [Hr|[? ->]]]; (split; [done|]); [|done].
    by destruct res.
Qed.
End reading.
