(* ===== verification/PathExample.v ===== *)
(** * Path checks on a small tree *)

From S2P Require Import Prelude Core Effects Bytes Paths FileTree FileWalk Extract AgentApi Daemon DaemonPaths RealPaths PathSafety.

#[local] Instance steady_disk : Disturb unit :=
  {| io_fails := λ u, (false, u); temporary_name := λ u, (bytes_of "t", u) |}.

Module Tree.
Definition names (s : list string) : list Name := map bytes_of s.

(** The directories [/s], [/s/a] and [/e], the file [/s/a/f], and the links
    [/s/l] to [a] and [/s/x] to [/e]. *)
Definition files : Files := {|
  ft_nodes := {[ names ["s"] := DirNode; names ["s"; "a"] := DirNode; names ["e"] := DirNode;
                 names ["s"; "a"; "f"] := FileNode 0;
                 names ["s"; "l"] := LinkNode (bytes_of "a"); names ["s"; "x"] := LinkNode (bytes_of "/e") ]};
  ft_inodes := {[ 0 := {| in_content := []; in_mode := None |} ]};
  ft_cwd := [];
|}.
Definition start : FS unit := (files, tt).

Lemma files_ok : tree_ok files.
Proof.
  split; [|constructor]. split; [done| |done]. intros d n node Hl.
  assert (Hin : (d ++ [n], node) ∈ map_to_list (ft_nodes files)) by by apply elem_of_map_to_list.
  assert (Hall : Forall (λ entry, node_at files (removelast entry.1) = Some DirNode) (map_to_list (ft_nodes files))) by
    (vm_compute; repeat constructor).
  rewrite Forall_forall in Hall. specialize (Hall _ Hin). cbn [fst] in Hall. by rewrite removelast_snoc in Hall.
Qed.

Definition authorizer : PathAuthorizer :=
  {| read_roots := [bytes_of "/s"]; write_roots := [bytes_of "/s/a"] |}.
Lemma authorizer_canonical : authorizer_ok authorizer.
Proof.
  split; intros root ->%list_elem_of_singleton; [exists (names ["s"])|exists (names ["s"; "a"])]; split; try done.
  all: repeat constructor; try done; by apply (bool_decide_unpack _); vm_compute.
Qed.
End Tree.
Import Tree.

(** The link inside the root is followed, the one that leaves it is denied. *)
Example read_inside : (PathAuthorizer_authorize_read authorizer (bytes_of "/s/l/f") start).1 = Ok (bytes_of "/s/a/f").
Proof. by vm_compute. Qed.
Example read_outside : (PathAuthorizer_authorize_read authorizer (bytes_of "/s/x") start).1 = Err path_denied.
Proof. by vm_compute. Qed.
Example read_dots : (PathAuthorizer_authorize_read authorizer (bytes_of "/s/a/../a/f") start).1 = Err unsafe_syntax.
Proof. by vm_compute. Qed.
Example write_new : (PathAuthorizer_authorize_write authorizer (bytes_of "/s/a/n/out") start).1 = Ok (bytes_of "/s/a/n/out").
Proof. by vm_compute. Qed.
Example write_link : (PathAuthorizer_authorize_write authorizer (bytes_of "/s/l/out") start).1 = Err path_denied.
Proof. by vm_compute. Qed.
(** A name without a directory is denied: its parent is the empty path. *)
Example write_bare : (PathAuthorizer_authorize_write authorizer (bytes_of "out") start).1 = Err path_denied.
Proof. by vm_compute. Qed.



Definition narrow : PathScope := {| ps_read_roots := [bytes_of "/s/a"]; ps_write_roots := [] |}.
Definition granted : PathAuthorizer := {| read_roots := [bytes_of "/s/a"]; write_roots := [] |}.

Lemma grant_attenuates_witness :
  authorizer_ok granted ∧
  (PathAuthorizer_authorize_read authorizer (bytes_of "/s/l/f") start).1 = Ok (bytes_of "/s/a/f").
Proof.
  destruct (grant_attenuates authorizer narrow granted start start) as (_ & _ & Hok & Hlater).
  - apply files_ok.
  - apply authorizer_canonical.
  - by vm_compute.
  - split; [exact Hok|]. apply (Hlater start).
    + apply files_ok.
    + by intros [].
    + by vm_compute.
Defined.

Lemma revalidation_correct_witness : ∃ p, physically files (bytes_of "/s/a/f") p.
Proof.
  destruct (revalidation_correct (bytes_of "/s/a/f") start (Ok tt) start files_ok) as [Hread _].
  apply Hread. by vm_compute.
Defined.
