(* ===== verification/JobStore.v ===== *)
(** * The daemon's job store ([crates/pithos-daemon/src/store.rs])

    The jobs of all sessions with their events and results, the index of
    idempotency keys, the operations on them, each of which commits a new
    state to disk before it takes effect, and the recovery after a restart. *)

From S2P Require Import Prelude Core Bytes Sorting Orders Paths AgentApi Daemon.

Definition STORE_SCHEMA_VERSION : N := 1.
Definition MAX_STORE_BYTES : N := 64 * 1024 * 1024.
Definition MAX_IDEMPOTENCY_KEY_BYTES : N := 256.
Definition MAX_EVENTS_PER_JOB : N := 4096.
Definition MAX_RETAINED_JOBS : N := 4096.
Definition PACK_PUBLICATION_MARKER_VERSION : N := 1.

Definition job_not_found : JsonRpcError := JsonRpcError_domain JobNotFound "job not found".
Definition internal (message : string) : JsonRpcError := JsonRpcError_domain Internal message.
Definition conflict (message : string) : JsonRpcError := JsonRpcError_domain JobConflict message.

(** ** Data *)

Record StorePolicy := { max_store_bytes : N; max_events_per_job : N; max_retained_jobs : N }.

Definition StorePolicy_default : StorePolicy := {|
  max_store_bytes := MAX_STORE_BYTES;
  max_events_per_job := MAX_EVENTS_PER_JOB;
  max_retained_jobs := MAX_RETAINED_JOBS;
|}.

Definition StorePolicy_validate (self : StorePolicy) : RpcResult StorePolicy :=
  if (max_store_bytes self =? 0) || (max_events_per_job self =? 0) || (max_retained_jobs self =? 0)
  then Err (internal "invalid job store policy") else Ok self.

Inductive StoredOperation :=
  | OpPack (inputs : list PathBuf) (output : PathBuf) (profile : ApiProfile)
  | OpUnpack (archive output : PathBuf)
  | OpList (archive : PathBuf)
  | OpInspect (archive : PathBuf)
  | OpExtract (archive entry output : PathBuf)
  | OpReadRange (archive entry : PathBuf) (offset length : N)
  | OpVerify (archive : PathBuf).

Record JobSubmission := {
  su_owner : SessionId;
  su_method : RpcMethod;
  su_priority : JobPriority;
  su_idempotency_key : string;
  su_params_hash : list byte;
  su_limits : JobLimits;
  su_operation : StoredOperation;
}.

Record ArchiveIdentity := { ai_length : N; ai_blake3 : list byte }.

#[export] Instance ArchiveIdentity_eq_dec : EqDecision ArchiveIdentity.
Proof. solve_decision. Defined.

Record PackPublicationMarker := {
  pm_marker_version : N;
  pm_job_id : JobId;
  pm_params_hash : list byte;
  pm_output : PathBuf;
  pm_output_was_absent : bool;
  pm_published_archive : option ArchiveIdentity;
}.

Record StoredJob := {
  sj_job_id : JobId;
  sj_owner : SessionId;
  sj_method : RpcMethod;
  sj_priority : JobPriority;
  sj_idempotency_key : string;
  sj_params_hash : list byte;
  sj_limits : JobLimits;
  sj_operation : StoredOperation;
  sj_state : ApiJobState;
  sj_created_at_unix_ms : N;
  sj_updated_at_unix_ms : N;
  sj_result : option Value;
  sj_error : option JsonRpcError;
  sj_events : list ProgressEvent;
  sj_next_sequence : N;
  sj_pack_publication : option PackPublicationMarker;
}.

(** Assignments to fields of a job. *)
Definition set_outcome (job : StoredJob) (state : ApiJobState) (result : option Value)
    (error : option JsonRpcError) : StoredJob := {|
  sj_job_id := sj_job_id job; sj_owner := sj_owner job; sj_method := sj_method job;
  sj_priority := sj_priority job; sj_idempotency_key := sj_idempotency_key job;
  sj_params_hash := sj_params_hash job; sj_limits := sj_limits job; sj_operation := sj_operation job;
  sj_state := state; sj_created_at_unix_ms := sj_created_at_unix_ms job;
  sj_updated_at_unix_ms := sj_updated_at_unix_ms job; sj_result := result; sj_error := error;
  sj_events := sj_events job; sj_next_sequence := sj_next_sequence job;
  sj_pack_publication := sj_pack_publication job |}.
Definition set_state (job : StoredJob) (state : ApiJobState) : StoredJob :=
  set_outcome job state (sj_result job) (sj_error job).
Definition set_history (job : StoredJob) (updated : N) (events : list ProgressEvent) (next_sequence : N) :
    StoredJob := {|
  sj_job_id := sj_job_id job; sj_owner := sj_owner job; sj_method := sj_method job;
  sj_priority := sj_priority job; sj_idempotency_key := sj_idempotency_key job;
  sj_params_hash := sj_params_hash job; sj_limits := sj_limits job; sj_operation := sj_operation job;
  sj_state := sj_state job; sj_created_at_unix_ms := sj_created_at_unix_ms job;
  sj_updated_at_unix_ms := updated; sj_result := sj_result job; sj_error := sj_error job;
  sj_events := events; sj_next_sequence := next_sequence;
  sj_pack_publication := sj_pack_publication job |}.
Definition set_publication (job : StoredJob) (marker : option PackPublicationMarker) : StoredJob := {|
  sj_job_id := sj_job_id job; sj_owner := sj_owner job; sj_method := sj_method job;
  sj_priority := sj_priority job; sj_idempotency_key := sj_idempotency_key job;
  sj_params_hash := sj_params_hash job; sj_limits := sj_limits job; sj_operation := sj_operation job;
  sj_state := sj_state job; sj_created_at_unix_ms := sj_created_at_unix_ms job;
  sj_updated_at_unix_ms := sj_updated_at_unix_ms job; sj_result := sj_result job; sj_error := sj_error job;
  sj_events := sj_events job; sj_next_sequence := sj_next_sequence job; sj_pack_publication := marker |}.
Definition set_published (marker : PackPublicationMarker) (identity : ArchiveIdentity) :
    PackPublicationMarker := {|
  pm_marker_version := pm_marker_version marker; pm_job_id := pm_job_id marker;
  pm_params_hash := pm_params_hash marker; pm_output := pm_output marker;
  pm_output_was_absent := pm_output_was_absent marker; pm_published_archive := Some identity |}.

Record PersistentState := {
  ps_schema_version : N;
  ps_next_job : N;
  ps_jobs : gmap string StoredJob;
  ps_idempotency : gmap string string;
}.

Definition PersistentState_default : PersistentState := {|
  ps_schema_version := STORE_SCHEMA_VERSION; ps_next_job := 1; ps_jobs := ∅; ps_idempotency := ∅ |}.

Definition set_jobs (state : PersistentState) (jobs : gmap string StoredJob) : PersistentState := {|
  ps_schema_version := ps_schema_version state; ps_next_job := ps_next_job state; ps_jobs := jobs;
  ps_idempotency := ps_idempotency state |}.

(** The mutexes hold the state and serialize the mutations; every operation
    below is one critical section. *)
Record JobRegistry := {
  jr_path : PathBuf;
  jr_state : PersistentState;
  jr_policy : StorePolicy;
  jr_closed : bool;
  jr_healthy : bool;
}.

(** The entries of a [BTreeMap] in the order of its keys. *)
Definition compare_string : string → string → comparison := compare_on String.list_byte_of_string compare_bytes.
Definition btree_list {A} (m : gmap string A) : list (string * A) :=
  insertion_sort (compare_on fst compare_string) (map_to_list m).

(** ** The environment *)

Class JobWorld (W : Type) := {
  world_unix_ms : W → N * W;
  world_symlink_metadata : PathBuf → W → result ErrorKind unit * W;
  world_is_file : PathBuf → W → bool * W;
  world_verify : PathBuf → W → option ArchiveIdentity * W;
}.

(** [serde_json::to_vec] and [from_slice] at [PersistentState]. *)
Class StoreJson := {
  store_to_vec : PersistentState → option (list byte);
  store_from_slice : list byte → option PersistentState;
}.

(** ** Validity of a state *)

Definition valid_identifier (value prefix : string) : bool :=
  (slen prefix + 8 <=? slen value) && (slen value <=? 96) && String.prefix prefix value &&
  forallb (λ b, is_ascii_alphanumeric b || (b =? 45)) (sbytes value).

Definition operation_method (operation : StoredOperation) : RpcMethod :=
  match operation with
  | OpPack _ _ _ => Pack
  | OpUnpack _ _ => Unpack
  | OpList _ => List
  | OpInspect _ => Inspect
  | OpExtract _ _ _ => Extract
  | OpReadRange _ _ _ _ => ReadRange
  | OpVerify _ => Verify
  end.

Definition idempotency_map_key (owner : SessionId) (key : string) : string :=
  (owner ++ ":" ++ key)%string.

Definition validate_idempotency_key (key : string) : RpcResult unit :=
  if (slen key =? 0) || (MAX_IDEMPOTENCY_KEY_BYTES <? slen key) ||
     negb (forallb is_ascii_graphic (sbytes key))
  then Err (JsonRpcError_invalid_params "invalid idempotency key") else Ok tt.

(** [u64::from_str_radix(_, 16)] on hexadecimal digits. *)
Definition hex_value (b : N) : N :=
  if is_ascii_digit b then b - 48 else if b <=? 70 then b - 55 else b - 87.
Definition from_hex (s : string) : N := fold_left (λ acc b, acc * 16 + hex_value b) (sbytes s) 0.

(** [strip_prefix]. *)
Definition strip_prefix (prefix s : string) : option string :=
  if String.prefix prefix s
  then Some (String.substring (String.length prefix) (String.length s - String.length prefix) s) else None.

Definition parse_job_number (job_id : JobId) : RpcResult N :=
  match strip_prefix "job-" job_id with
  | Some suffix =>
      if (slen suffix =? 16) && forallb is_ascii_hexdigit (sbytes suffix)
      then Ok (from_hex suffix) else Err (internal "job store job id is corrupt")
  | None => Err (internal "job store job id is corrupt")
  end.

Definition event_step (job : StoredJob) (previous : option N) (event : ProgressEvent) : RpcResult (option N) :=
  if negb (bool_decide (pe_job_id event = sj_job_id job)) || (pe_sequence event =? 0) ||
     match previous with Some sequence => pe_sequence event <=? sequence | None => false end
  then Err (internal "job store event sequence is corrupt") else Ok (Some (pe_sequence event)).

Definition validate_job_events (job : StoredJob) (policy : StorePolicy) (enforce_retention : bool) :
    RpcResult unit :=
  if bool_decide (sj_events job = []) ||
     (enforce_retention && (max_events_per_job policy <? len (sj_events job)))
  then Err (internal "job store event history is corrupt") else
  try_fold (event_step job) None (sj_events job);;
  last_event ← ok_or (internal "job store event history is corrupt") (last (sj_events job));
  expected_next ← ok_or (internal "job store event sequence is exhausted")
    (checked_add (pe_sequence last_event) 1);
  if negb (sj_next_sequence job =? expected_next) || negb (bool_decide (pe_state last_event = sj_state job))
  then Err (internal "job store event counter is corrupt") else Ok tt.

Definition is_some {A} (o : option A) : bool := match o with Some _ => true | None => false end.

Definition validate_job_result (job : StoredJob) : RpcResult unit :=
  let valid := match sj_state job with
               | Completed => is_some (sj_result job) && negb (is_some (sj_error job))
               | Failed => negb (is_some (sj_result job)) && is_some (sj_error job)
               | Cancelled => negb (is_some (sj_result job))
               | Queued | Running | Cancelling =>
                   negb (is_some (sj_result job)) && negb (is_some (sj_error job))
               end in
  if valid then Ok tt else Err (internal "job store result invariant is corrupt").

Definition validate_pack_publication_marker (job : StoredJob) : RpcResult unit :=
  match sj_pack_publication job with
  | None => Ok tt
  | Some marker =>
      match sj_operation job with
      | OpPack _ output _ =>
          if negb (pm_marker_version marker =? PACK_PUBLICATION_MARKER_VERSION) ||
             negb (bool_decide (pm_job_id marker = sj_job_id job)) ||
             negb (bool_decide (pm_params_hash marker = sj_params_hash job)) ||
             negb (PathBuf_eqb (pm_output marker) output) ||
             bool_decide (sj_state job = Queued) ||
             (is_some (pm_published_archive marker) && negb (pm_output_was_absent marker))
          then Err (internal "pack publication marker is corrupt") else Ok tt
      | _ => Err (internal "non-pack job has a publication marker")
      end
  end.

(** The body of [for (map_key, job) in &state.jobs]. *)
Definition job_check (state : PersistentState) (policy : StorePolicy) (enforce_retention : bool)
    (maximum_job_number : N) (entry : string * StoredJob) : RpcResult N :=
  let '(map_key, job) := entry in
  if negb (bool_decide (map_key = sj_job_id job)) ||
     negb (valid_identifier (sj_owner job) "session-") ||
     negb (bool_decide (sj_method job = operation_method (sj_operation job))) ||
     (jl_max_threads (sj_limits job) =? 0) || (jl_max_memory (sj_limits job) =? 0) ||
     (jl_max_output (sj_limits job) =? 0)
  then Err (internal "job store schema invariants are corrupt") else
  match validate_idempotency_key (sj_idempotency_key job) with
  | Err _ => Err (internal "job store idempotency key is corrupt")
  | Ok _ =>
      job_number ← parse_job_number (sj_job_id job);
      let index_key := idempotency_map_key (sj_owner job) (sj_idempotency_key job) in
      if negb (bool_decide (ps_idempotency state !! index_key = Some (sj_job_id job)))
      then Err (internal "job store idempotency index is corrupt") else
      validate_job_events job policy enforce_retention;;
      validate_job_result job;;
      validate_pack_publication_marker job;;
      Ok (N.max maximum_job_number job_number)
  end.

(** The body of [for (index_key, job_id) in &state.idempotency]. *)
Definition index_check (state : PersistentState) (_ : unit) (entry : string * string) : RpcResult unit :=
  let '(index_key, job_id) := entry in
  job ← ok_or (internal "job store idempotency index is corrupt") (ps_jobs state !! job_id);
  if negb (bool_decide (index_key = idempotency_map_key (sj_owner job) (sj_idempotency_key job)))
  then Err (internal "job store idempotency index is corrupt") else Ok tt.

Definition validate_state (state : PersistentState) (policy : StorePolicy) (enforce_retention : bool) :
    RpcResult unit :=
  if negb (ps_schema_version state =? STORE_SCHEMA_VERSION)
  then Err (internal "unsupported job store schema") else
  if enforce_retention && (max_retained_jobs policy <? N.of_nat (size (ps_jobs state)))
  then Err (JsonRpcError_resource_limit "job store retention capacity exceeded") else
  if (ps_next_job state =? 0) ||
     negb (N.of_nat (size (ps_idempotency state)) =? N.of_nat (size (ps_jobs state)))
  then Err (internal "job store counters or indices are corrupt") else
  maximum_job_number ← try_fold (job_check state policy enforce_retention) 0 (btree_list (ps_jobs state));
  if negb (bool_decide (ps_jobs state = ∅)) && (ps_next_job state <=? maximum_job_number)
  then Err (internal "job store next-job counter is corrupt") else
  try_fold (index_check state) tt (btree_list (ps_idempotency state)).

(** ** Events *)

Definition trim_event_history (job : StoredJob) (maximum_events : N) : StoredJob * bool :=
  let overflow := saturating_sub (len (sj_events job)) maximum_events in
  if overflow =? 0 then (job, false) else
  (set_history job (sj_updated_at_unix_ms job) (drop (N.to_nat overflow) (sj_events job)) (sj_next_sequence job),
   true).

Definition trim_retained_events (state : PersistentState) (policy : StorePolicy) : PersistentState * bool :=
  (set_jobs state ((λ job, (trim_event_history job (max_events_per_job policy)).1) <$> ps_jobs state),
   existsb (λ entry, (trim_event_history entry.2 (max_events_per_job policy)).2) (map_to_list (ps_jobs state))).

Section store.
Context {W : Type} `{Disk W} `{JobWorld W} `{StoreJson}.

Definition unix_ms : D W N := λ w, let '(now, w) := world_unix_ms w in (Ok now, w).

Definition append_event (job : StoredJob) (phase : string) (maximum_events : N) : D W StoredJob :=
  let sequence := sj_next_sequence job in
  next_sequence ← d_lift (ok_or (JsonRpcError_resource_limit "job event sequence exhausted")
    (checked_add sequence 1));
  now ← unix_ms;
  let event := {|
    pe_job_id := sj_job_id job; pe_sequence := sequence; pe_state := sj_state job; pe_phase := phase;
    pe_completed_units := if is_terminal (sj_state job) then 1 else 0; pe_total_units := Some 1;
    pe_occurred_at_unix_ms := now |} in
  mret (trim_event_history (set_history job now (sj_events job ++ [event]) next_sequence) maximum_events).1.

(** ** Publication of packed archives *)

Definition prepare_pack_publication_marker (job : StoredJob) : D W (option PackPublicationMarker) :=
  match sj_operation job with
  | OpPack _ output _ =>
      output_was_absent ← (λ w, match world_symlink_metadata output w with
        | (Ok _, w) => (Ok false, w)
        | (Err NotFound, w) => (Ok true, w)
        | (Err _, w) => (Err (internal "cannot inspect pack output before execution"), w)
        end);
      mret (Some {|
        pm_marker_version := PACK_PUBLICATION_MARKER_VERSION; pm_job_id := sj_job_id job;
        pm_params_hash := sj_params_hash job; pm_output := output;
        pm_output_was_absent := output_was_absent; pm_published_archive := None |})
  | _ => mret None
  end.

Definition verified_archive_identity (path : PathBuf) : D W ArchiveIdentity :=
  d_call (internal "pack output verification failed") (world_verify path).

Definition recover_pack_archive (job : StoredJob) (w : W) : option (PathBuf * ArchiveIdentity) * W :=
  match sj_operation job, sj_pack_publication job with
  | OpPack _ output _, Some marker =>
      match pm_published_archive marker with
      | None => (None, w)
      | Some expected =>
          if negb (pm_output_was_absent marker) then (None, w) else
          let '(is_file, w) := world_is_file output w in
          if negb is_file then (None, w) else
          match verified_archive_identity output w with
          | (Ok identity, w) =>
              if negb (bool_decide (identity = expected)) then (None, w) else (Some (output, identity), w)
          | (Err _, w) => (None, w)
          end
      end
  | _, _ => (None, w)
  end.

Definition require_recorded_pack_publication (job : StoredJob) : RpcResult unit :=
  match sj_operation job with
  | OpPack _ _ _ =>
      match sj_pack_publication job with
      | Some marker =>
          if pm_output_was_absent marker && is_some (pm_published_archive marker) then Ok tt
          else Err (internal "pack publication identity is not recorded")
      | None => Err (internal "pack publication identity is not recorded")
      end
  | _ => Ok tt
  end.

(** ** The file of the store *)

Definition load_state_with_policy (path : PathBuf) (policy : StorePolicy) : D W PersistentState := λ w,
  match disk_open path w with
  | (Err NotFound, w) => (Ok PersistentState_default, w)
  | (Err _, w) => (Err (internal "cannot open job store"), w)
  | (Ok _, w) =>
      (length ← d_call (internal "cannot inspect job store") (disk_len path);
       if max_store_bytes policy <? length
       then d_fail (JsonRpcError_resource_limit "job store too large") else
       d_lift (ok_or (JsonRpcError_resource_limit "job store too large") (usize_try_from length));;
       bytes ← d_call (internal "cannot read job store") (disk_read_to_end path);
       d_lift (ok_or (internal "job store is corrupt") (store_from_slice bytes))) w
  end.

Definition encode_state (state : PersistentState) (maximum : N) : RpcResult (list byte) :=
  bytes ← ok_or (internal "cannot encode job store") (store_to_vec state);
  if maximum <? len bytes then Err (JsonRpcError_resource_limit "job store size limit exceeded")
  else Ok bytes.

Definition publish_state (path : PathBuf) (bytes : list byte) : D W PathBuf :=
  let parent := parent_or_dot path in
  d_call (internal "cannot create state directory") (disk_create_dir_all parent);;
  d_call (internal "cannot create job store transaction") (disk_new_temporary parent);;
  d_call (internal "cannot write job store") (disk_write_all bytes);;
  d_call (internal "cannot sync job store") disk_flush;;
  d_call (internal "cannot sync job store") disk_sync_all;;
  d_call (internal "cannot commit job store") (disk_persist bytes path);;
  mret parent.

Definition sync_parent (parent : PathBuf) : D W unit :=
  d_call (internal "cannot sync state directory") (disk_sync_dir parent).

Definition persist_state_with_policy (path : PathBuf) (state : PersistentState) (policy : StorePolicy) :
    D W unit :=
  d_lift (validate_state state policy true);;
  bytes ← d_lift (encode_state state (max_store_bytes policy));
  parent ← publish_state path bytes;
  sync_parent parent.

(** ** Opening the store: recovery *)

(** The body of [for job in state.jobs.values_mut()]. *)
Definition recover_job (policy : StorePolicy) (job : StoredJob) : D W (StoredJob * bool) :=
  if is_terminal (sj_state job) then mret (job, false) else
  recovered_archive ← (λ w, let '(r, w) := recover_pack_archive job w in (Ok r, w));
  job ← match recovered_archive with
    | Some (archive, identity) =>
        let job := set_publication job (option_map (λ marker, set_published marker identity) (sj_pack_publication job)) in
        let job := set_outcome job Completed (Some (Object [("archive", Str (String.string_of_list_byte archive))])) None in
        append_event job "recovered_completed" (max_events_per_job policy)
    | None =>
        let job := set_outcome job Failed None
          (Some (JsonRpcError_domain Internal "job interrupted by daemon restart")) in
        append_event job "daemon_restarted" (max_events_per_job policy)
    end;
  mret (job, true).

Fixpoint recover_jobs (policy : StorePolicy) (entries : list (string * StoredJob))
    (jobs : gmap string StoredJob) (changed : bool) : D W (gmap string StoredJob * bool) :=
  match entries with
  | [] => mret (jobs, changed)
  | (key, job) :: entries =>
      '(job, job_changed) ← recover_job policy job;
      recover_jobs policy entries (<[key := job]> jobs) (changed || job_changed)
  end.

Definition open_with_policy (path : PathBuf) (policy : StorePolicy) : D W JobRegistry :=
  policy ← d_lift (StorePolicy_validate policy);
  state ← load_state_with_policy path policy;
  d_lift (validate_state state policy false);;
  let '(state, changed) := trim_retained_events state policy in
  '(jobs, changed) ← recover_jobs policy (btree_list (ps_jobs state)) (ps_jobs state) changed;
  let '(state, trimmed) := trim_retained_events (set_jobs state jobs) policy in
  let changed := changed || trimmed in
  d_lift (validate_state state policy true);;
  (if (changed : bool) then persist_state_with_policy path state policy else mret tt);;
  mret {| jr_path := path; jr_state := state; jr_policy := policy; jr_closed := false; jr_healthy := true |}.

(** ** Committing a state *)

Definition with_state (r : JobRegistry) (state : PersistentState) : JobRegistry := {|
  jr_path := jr_path r; jr_state := state; jr_policy := jr_policy r; jr_closed := jr_closed r;
  jr_healthy := jr_healthy r |}.
Definition with_healthy (r : JobRegistry) (healthy : bool) : JobRegistry := {|
  jr_path := jr_path r; jr_state := jr_state r; jr_policy := jr_policy r; jr_closed := jr_closed r;
  jr_healthy := healthy |}.
Definition with_closed (r : JobRegistry) (closed : bool) : JobRegistry := {|
  jr_path := jr_path r; jr_state := jr_state r; jr_policy := jr_policy r; jr_closed := closed;
  jr_healthy := jr_healthy r |}.

Definition registry : D (JobRegistry * W) JobRegistry := λ s, (Ok s.1, s).
Definition set_registry (f : JobRegistry → JobRegistry) : D (JobRegistry * W) unit :=
  λ '(r, w), (Ok tt, (f r, w)).

Definition commit_with_sync (state : PersistentState) (sync : PathBuf → D W unit) :
    D (JobRegistry * W) unit := λ s,
  match
    (r ← registry;
     d_lift (validate_state state (jr_policy r) true);;
     bytes ← d_lift (encode_state state (max_store_bytes (jr_policy r)));
     parent ← d_second (publish_state (jr_path r) bytes);
     set_registry (λ r, with_state r state);;
     d_second (sync parent)) s
  with
  | (Ok v, s) => (Ok v, s)
  | (Err e, (r, w)) => (Err e, (with_healthy r false, w))
  end.

Definition commit (state : PersistentState) : D (JobRegistry * W) unit :=
  r ← registry;
  commit_with_sync (trim_retained_events state (jr_policy r)).1 sync_parent.

Definition owned_job (state : PersistentState) (owner : SessionId) (job_id : JobId) : RpcResult StoredJob :=
  match ps_jobs state !! job_id with
  | Some job => if bool_decide (sj_owner job = owner) then Ok job else Err job_not_found
  | None => Err job_not_found
  end.

Definition require_healthy : D (JobRegistry * W) unit :=
  r ← registry;
  if negb (jr_healthy r) then d_fail (internal "job registry storage is unhealthy") else mret tt.

(** [update_owned]; the value is what the closure leaves in a variable of
    its caller. *)
Definition update_owned {A} (owner : SessionId) (job_id : JobId) (update : StoredJob → D W (StoredJob * A)) :
    D (JobRegistry * W) A :=
  require_healthy;;
  r ← registry;
  job ← d_lift (owned_job (jr_state r) owner job_id);
  '(job, value) ← d_second (update job);
  commit (set_jobs (jr_state r) (<[job_id := job]> (ps_jobs (jr_state r))));;
  mret value.

(** ** Operations *)

Definition hex_digit (n : N) : string :=
  String.String (Ascii.ascii_of_N (if n <? 10 then n + 48 else n + 87)) "".
(** [format!("{:016x}", n)]: the digits of [n], the most significant first. *)
Fixpoint hex_digits (k : nat) (n : N) : string :=
  match k with O => "" | S k => (hex_digits k (n / 16) ++ hex_digit (n mod 16))%string end.
Definition job_name (n : N) : string := ("job-" ++ hex_digits 16 n)%string.

Definition new_job (submission : JobSubmission) (job_id : JobId) (now : N) : StoredJob := {|
  sj_job_id := job_id; sj_owner := su_owner submission; sj_method := su_method submission;
  sj_priority := su_priority submission; sj_idempotency_key := su_idempotency_key submission;
  sj_params_hash := su_params_hash submission; sj_limits := su_limits submission;
  sj_operation := su_operation submission; sj_state := Queued; sj_created_at_unix_ms := now;
  sj_updated_at_unix_ms := now; sj_result := None; sj_error := None; sj_events := [];
  sj_next_sequence := 1; sj_pack_publication := None |}.

(** The jobs of a session that have not ended. *)
Definition nonterminal_of (owner : SessionId) (jobs : gmap string StoredJob) : nat :=
  length (filter (λ entry : string * StoredJob, sj_owner entry.2 = owner ∧ is_terminal (sj_state entry.2) = false)
    (map_to_list jobs)).

Definition submit_with_limit (submission : JobSubmission) (max_nonterminal_for_owner : N) :
    D (JobRegistry * W) JobAccepted :=
  r ← registry;
  if jr_closed r then d_fail (conflict "job registry is closed") else
  require_healthy;;
  d_lift (validate_idempotency_key (su_idempotency_key submission));;
  let state := jr_state r in
  let key := idempotency_map_key (su_owner submission) (su_idempotency_key submission) in
  match ps_idempotency state !! key with
  | Some existing_id =>
      existing ← d_lift (ok_or (internal "idempotency index is corrupt") (ps_jobs state !! existing_id));
      if negb (bool_decide (sj_params_hash existing = su_params_hash submission)) ||
         negb (bool_decide (sj_method existing = su_method submission)) ||
         negb (bool_decide (sj_priority existing = su_priority submission))
      then d_fail (conflict "idempotency key has different parameters") else
      mret {| ja_job_id := sj_job_id existing; ja_state := sj_state existing; ja_idempotent_replay := true |}
  | None =>
      if max_retained_jobs (jr_policy r) <=? N.of_nat (size (ps_jobs state))
      then d_fail (JsonRpcError_resource_limit "job retention capacity exceeded") else
      if max_nonterminal_for_owner <=? N.of_nat (nonterminal_of (su_owner submission) (ps_jobs state))
      then d_fail (JsonRpcError_resource_limit "session job quota exceeded") else
      job_id ← d_lift (JobId_new (job_name (ps_next_job state)));
      next_job ← d_lift (ok_or (JsonRpcError_resource_limit "job id space exhausted")
        (checked_add (ps_next_job state) 1));
      now ← d_second unix_ms;
      job ← d_second (append_event (new_job submission job_id now) "queued" (max_events_per_job (jr_policy r)));
      commit {| ps_schema_version := ps_schema_version state; ps_next_job := next_job;
                ps_jobs := <[job_id := job]> (ps_jobs state);
                ps_idempotency := <[key := job_id]> (ps_idempotency state) |};;
      mret {| ja_job_id := job_id; ja_state := Queued; ja_idempotent_replay := false |}
  end.

Definition submit (submission : JobSubmission) : D (JobRegistry * W) JobAccepted :=
  submit_with_limit submission usize_MAX.

Definition valid_transition (from to : ApiJobState) : bool :=
  match from, to with
  | Queued, (Running | Cancelled) => true
  | Running, (Cancelling | Completed | Failed) => true
  | Cancelling, (Cancelled | Failed) => true
  | _, _ => false
  end.

(** The closures that the operations pass to [update_owned]. *)
Definition transition_job (maximum_events : N) (state : ApiJobState) (phase : string) (job : StoredJob) :
    D W (StoredJob * unit) :=
  if negb (valid_transition (sj_state job) state)
  then d_fail (conflict "invalid job state transition") else
  job ← (if bool_decide (state = Running)
         then marker ← prepare_pack_publication_marker job; mret (set_publication job marker)
         else mret job);
  job ← append_event (set_state job state) phase maximum_events;
  mret (job, tt).

Definition transition (owner : SessionId) (job_id : JobId) (state : ApiJobState) (phase : string) :
    D (JobRegistry * W) unit :=
  r ← registry;
  update_owned owner job_id (transition_job (max_events_per_job (jr_policy r)) state phase).

Definition cancelled_error : JsonRpcError := JsonRpcError_domain CancelledKind "job cancelled".

Definition cancel_job (maximum_events : N) (job : StoredJob) : D W (StoredJob * ApiJobState) :=
  job ← match sj_state job with
    | Queued =>
        append_event (set_outcome job Cancelled (sj_result job) (Some cancelled_error)) "cancelled" maximum_events
    | Running => append_event (set_state job Cancelling) "cancelling" maximum_events
    | Cancelling | Cancelled => mret job
    | Completed | Failed => d_fail (conflict "terminal job cannot be cancelled")
    end;
  mret (job, sj_state job).

Definition request_cancel (owner : SessionId) (job_id : JobId) : D (JobRegistry * W) ApiJobState :=
  r ← registry;
  update_owned owner job_id (cancel_job (max_events_per_job (jr_policy r))).

Definition finish_cancelled_job (maximum_events : N) (job : StoredJob) : D W (StoredJob * unit) :=
  if negb (bool_decide (sj_state job = Cancelling)) then d_fail (conflict "job is not cancelling") else
  job ← append_event (set_outcome job Cancelled (sj_result job) (Some cancelled_error)) "cancelled" maximum_events;
  mret (job, tt).

Definition finish_cancelled (owner : SessionId) (job_id : JobId) : D (JobRegistry * W) unit :=
  r ← registry;
  update_owned owner job_id (finish_cancelled_job (max_events_per_job (jr_policy r))).

Definition complete_job (maximum_events : N) (result : Value) (job : StoredJob) : D W (StoredJob * unit) :=
  match sj_state job with
  | Queued | Running | Cancelling =>
      d_lift (require_recorded_pack_publication job);;
      job ← append_event (set_outcome job Completed (Some result) None) "completed" maximum_events;
      mret (job, tt)
  | _ => d_fail (conflict "job cannot complete from current state")
  end.

Definition complete (owner : SessionId) (job_id : JobId) (result : Value) : D (JobRegistry * W) unit :=
  r ← registry;
  update_owned owner job_id (complete_job (max_events_per_job (jr_policy r)) result).

Definition fail_job (maximum_events : N) (error : JsonRpcError) (job : StoredJob) : D W (StoredJob * unit) :=
  if is_terminal (sj_state job) then d_fail (conflict "terminal job is immutable") else
  let state := if bool_decide (je_kind error = CancelledKind) then Cancelled else Failed in
  job ← append_event (set_outcome job state None (Some error)) "failed" maximum_events;
  mret (job, tt).

Definition fail (owner : SessionId) (job_id : JobId) (error : JsonRpcError) : D (JobRegistry * W) unit :=
  r ← registry;
  update_owned owner job_id (fail_job (max_events_per_job (jr_policy r)) error).

Definition is_active (state : ApiJobState) : bool :=
  match state with Running | Cancelling => true | _ => false end.

(** The part of [record_pack_publication] before the archive is verified,
    outside of the mutation lock. *)
Definition publication_output (owner : SessionId) (job_id : JobId) : D (JobRegistry * W) PathBuf :=
  r ← registry;
  job ← d_lift (owned_job (jr_state r) owner job_id);
  if negb (is_active (sj_state job))
  then d_fail (conflict "pack publication cannot be recorded from current state") else
  match sj_operation job with
  | OpPack _ output _ => mret output
  | _ => d_fail (conflict "job is not a pack operation")
  end.

Definition record_job (maximum_events : N) (output : PathBuf) (identity : ArchiveIdentity) (job : StoredJob) :
    D W (StoredJob * unit) :=
  if negb (is_active (sj_state job))
  then d_fail (conflict "pack publication cannot be recorded from current state") else
  if negb (match sj_operation job with OpPack _ current _ => PathBuf_eqb current output | _ => false end)
  then d_fail (conflict "pack operation changed while publication was verified") else
  match sj_pack_publication job with
  | Some marker =>
      if negb (pm_output_was_absent marker) then d_fail (internal "pack publication marker is missing") else
      match pm_published_archive marker with
      | Some expected =>
          if bool_decide (expected = identity) then mret (job, tt) else
          d_fail (JsonRpcError_domain IntegrityMismatch "pack output identity changed")
      | None =>
          job ← append_event (set_publication job (Some (set_published marker identity))) "pack_published"
            maximum_events;
          mret (job, tt)
      end
  | None => d_fail (internal "pack publication marker is missing")
  end.

(** The part inside the lock. *)
Definition record_publication (owner : SessionId) (job_id : JobId) (output : PathBuf) (identity : ArchiveIdentity) :
    D (JobRegistry * W) unit :=
  r ← registry;
  update_owned owner job_id (record_job (max_events_per_job (jr_policy r)) output identity).

Definition record_pack_publication (owner : SessionId) (job_id : JobId) : D (JobRegistry * W) unit :=
  output ← publication_output owner job_id;
  identity ← d_second (verified_archive_identity output);
  record_publication owner job_id output identity.

(** The closure of [expire_deadline], whose flag says that the state is to be
    committed. *)
Definition expire_job (maximum_events : N) (job : StoredJob) : D W (StoredJob * (bool * bool)) :=
  match sj_state job with
  | Queued =>
      job ← append_event
        (set_outcome job Failed None (Some (JsonRpcError_resource_limit "job deadline exceeded")))
        "deadline_exceeded" maximum_events;
      mret (job, (false, true))
  | Running =>
      job ← append_event (set_state job Cancelling) "deadline_exceeded" maximum_events;
      mret (job, (true, true))
  | Cancelling => mret (job, (true, false))
  | Completed | Failed | Cancelled => mret (job, (false, false))
  end.

Definition expire_deadline (owner : SessionId) (job_id : JobId) : D (JobRegistry * W) bool :=
  require_healthy;;
  r ← registry;
  job ← d_lift (owned_job (jr_state r) owner job_id);
  '(job, (cancel_worker, changed)) ← d_second (expire_job (max_events_per_job (jr_policy r)) job);
  (if (changed : bool)
   then commit (set_jobs (jr_state r) (<[job_id := job]> (ps_jobs (jr_state r)))) else mret tt);;
  mret cancel_worker.

(** The body of the loop of [close_and_cancel_all]: the job, and whether it
    changed. *)
Definition close_job (maximum_events : N) (job : StoredJob) : D W (StoredJob * bool) :=
  match sj_state job with
  | Queued =>
      job ← append_event (set_outcome job Cancelled None
          (Some (JsonRpcError_domain CancelledKind "job cancelled during daemon shutdown")))
        "daemon_shutdown" maximum_events;
      mret (job, true)
  | Running =>
      job ← append_event (set_state job Cancelling) "daemon_shutdown" maximum_events;
      mret (job, true)
  | _ => mret (job, false)
  end.

Fixpoint close_jobs (maximum_events : N) (entries : list (string * StoredJob)) (jobs : gmap string StoredJob)
    (affected : list (SessionId * JobId)) (changed : bool) :
    D W (gmap string StoredJob * list (SessionId * JobId) * bool) :=
  match entries with
  | [] => mret (jobs, affected, changed)
  | (key, job) :: entries =>
      if is_terminal (sj_state job) then close_jobs maximum_events entries jobs affected changed else
      let affected := affected ++ [(sj_owner job, sj_job_id job)] in
      '(job, job_changed) ← close_job maximum_events job;
      close_jobs maximum_events entries (<[key := job]> jobs) affected (changed || job_changed)
  end.

Definition close_and_cancel_all : D (JobRegistry * W) (list (SessionId * JobId)) :=
  set_registry (λ r, with_closed r true);;
  r ← registry;
  '(jobs, affected, changed) ← d_second (close_jobs (max_events_per_job (jr_policy r))
    (btree_list (ps_jobs (jr_state r))) (ps_jobs (jr_state r)) [] false);
  (if (changed : bool) then commit (set_jobs (jr_state r) jobs) else mret tt);;
  mret affected.

(** ** Queries *)

Definition snapshot_of (job : StoredJob) : JobSnapshot := {|
  js_job_id := sj_job_id job; js_state := sj_state job; js_operation := sj_method job;
  js_created_at_unix_ms := sj_created_at_unix_ms job; js_updated_at_unix_ms := sj_updated_at_unix_ms job;
  js_result := sj_result job; js_error := sj_error job |}.

Definition snapshot (self : JobRegistry) (owner : SessionId) (job_id : JobId) : RpcResult JobSnapshot :=
  job ← owned_job (jr_state self) owner job_id;
  Ok (snapshot_of job).

Definition events (self : JobRegistry) (owner : SessionId) (job_id : JobId) (after_sequence : N) :
    RpcResult (list ProgressEvent) :=
  job ← owned_job (jr_state self) owner job_id;
  Ok (filter (λ event, after_sequence < pe_sequence event) (sj_events job)).

Definition operation (self : JobRegistry) (owner : SessionId) (job_id : JobId) :
    RpcResult (StoredOperation * JobLimits * JobPriority) :=
  job ← owned_job (jr_state self) owner job_id;
  Ok (sj_operation job, sj_limits job, sj_priority job).

Definition nonterminal_jobs (self : JobRegistry) : list (SessionId * JobId) :=
  map (λ entry, (sj_owner entry.2, sj_job_id entry.2))
    (filter (λ entry, is_terminal (sj_state entry.2) = false) (btree_list (ps_jobs (jr_state self)))).
End store.
