(* ===== verification/JobStoreInv.v ===== *)
(** * Well-formed job stores

    What [validate_state] accepts, as a record of properties, and that the
    changes the operations make to a job keep it well formed. *)

From S2P Require Import Prelude Core Bytes Sorting Orders Paths AgentApi Daemon JobStore.

(** ** Maps in the order of their keys *)

#[export] Instance compare_string_preorder : TotalPreorder compare_string.
Proof. unfold compare_string. apply _. Qed.

Lemma btree_list_perm {A} (m : gmap string A) : btree_list m ≡ₚ map_to_list m.
Proof. unfold btree_list. apply (insertion_sort_stable (compare_on fst compare_string)). Qed.

Lemma elem_of_btree_list {A} (m : gmap string A) k v : (k, v) ∈ btree_list m ↔ m !! k = Some v.
Proof. by rewrite btree_list_perm, elem_of_map_to_list. Qed.

Lemma Forall_btree_list {A} (P : string * A → Prop) (m : gmap string A) :
  Forall P (btree_list m) ↔ ∀ k v, m !! k = Some v → P (k, v).
Proof.
  rewrite btree_list_perm, Forall_forall. split; [intros HP k v Hk; by apply HP, elem_of_map_to_list|].
  intros HP [k v] Hk. by apply HP, elem_of_map_to_list.
Qed.

Lemma NoDup_btree_keys {A} (m : gmap string A) : NoDup (map fst (btree_list m)).
Proof. rewrite (Permutation_map fst (btree_list_perm m)). apply NoDup_fst_map_to_list. Qed.

(** ** Well-formed jobs *)

(** The sequence numbers increase. *)
Fixpoint increasing (l : list N) : Prop :=
  match l with
  | a :: (b :: _) as t => a < b ∧ increasing t
  | _ => True
  end.

Record wf_events (policy : StorePolicy) (retained : bool) (job : StoredJob) : Prop := {
  we_retained : retained = true → len (sj_events job) <= max_events_per_job policy;
  we_each : Forall (λ e, pe_job_id e = sj_job_id job ∧ pe_sequence e ≠ 0) (sj_events job);
  we_increasing : increasing (map pe_sequence (sj_events job));
  we_last : ∃ e, last (sj_events job) = Some e ∧ pe_state e = sj_state job ∧
    sj_next_sequence job = pe_sequence e + 1 ∧ pe_sequence e < u64_MAX;
}.

Definition wf_outcome (job : StoredJob) : Prop :=
  match sj_state job with
  | Completed => is_Some (sj_result job) ∧ sj_error job = None
  | Failed => sj_result job = None ∧ is_Some (sj_error job)
  | Cancelled => sj_result job = None
  | _ => sj_result job = None ∧ sj_error job = None
  end.

Definition wf_marker (job : StoredJob) : Prop :=
  match sj_pack_publication job with
  | None => True
  | Some marker =>
      ∃ inputs output profile, sj_operation job = OpPack inputs output profile ∧
        pm_marker_version marker = PACK_PUBLICATION_MARKER_VERSION ∧ pm_job_id marker = sj_job_id job ∧
        pm_params_hash marker = sj_params_hash job ∧ PathBuf_eqb (pm_output marker) output = true ∧
        sj_state job ≠ Queued ∧ (is_Some (pm_published_archive marker) → pm_output_was_absent marker = true)
  end.

Record wf_job (policy : StorePolicy) (retained : bool) (job : StoredJob) : Prop := {
  wj_owner : valid_identifier (sj_owner job) "session-" = true;
  wj_method : sj_method job = operation_method (sj_operation job);
  wj_limits : jl_max_threads (sj_limits job) ≠ 0 ∧ jl_max_memory (sj_limits job) ≠ 0 ∧
    jl_max_output (sj_limits job) ≠ 0;
  wj_key : validate_idempotency_key (sj_idempotency_key job) = Ok tt;
  wj_events : wf_events policy retained job;
  wj_outcome : wf_outcome job;
  wj_marker : wf_marker job;
}.

Definition job_key (job : StoredJob) : string := idempotency_map_key (sj_owner job) (sj_idempotency_key job).

Record wf_state (policy : StorePolicy) (retained : bool) (state : PersistentState) : Prop := {
  ws_schema : ps_schema_version state = STORE_SCHEMA_VERSION;
  ws_retained : retained = true → N.of_nat (size (ps_jobs state)) <= max_retained_jobs policy;
  ws_next : ps_next_job state ≠ 0;
  ws_size : size (ps_idempotency state) = size (ps_jobs state);
  ws_jobs : ∀ k job, ps_jobs state !! k = Some job →
    k = sj_job_id job ∧ wf_job policy retained job ∧ ps_idempotency state !! job_key job = Some k ∧
    ∃ n, parse_job_number k = Ok n ∧ n < ps_next_job state;
  ws_index : ∀ key k, ps_idempotency state !! key = Some k →
    ∃ job, ps_jobs state !! k = Some job ∧ key = job_key job;
}.

(** ** [validate_state] *)

Lemma is_some_true {A} (o : option A) : is_some o = true ↔ is_Some o.
Proof. destruct o; cbn; [split; [by eexists|done]|split; [done|by intros []]]. Qed.
Lemma is_some_false {A} (o : option A) : is_some o = false ↔ o = None.
Proof. by destruct o. Qed.

Lemma validate_outcome_Ok job : validate_job_result job = Ok tt ↔ wf_outcome job.
Proof.
  unfold validate_job_result, wf_outcome.
  destruct (sj_state job), (sj_result job), (sj_error job); cbn; split; try done; try (by intros []; eauto);
    intros; destruct_and?; try done; by (match goal with H : is_Some None |- _ => destruct H end).
Qed.

Lemma validate_marker_Ok job : validate_pack_publication_marker job = Ok tt ↔ wf_marker job.
Proof.
  unfold validate_pack_publication_marker, wf_marker. destruct (sj_pack_publication job) as [marker|]; [|done].
  destruct (sj_operation job) as [inputs output profile| | | | | |];
    try (split; [done|intros (? & ? & ? & ? & _); done]).
  rewrite if_Err_Ok, !orb_false_iff, !negb_false_iff, N.eqb_eq, !bool_decide_eq_true, bool_decide_eq_false.
  rewrite andb_false_iff, is_some_false, negb_false_iff. split.
  - intros ((((((? & ?) & ?) & ?) & ?) & Hp) & _). exists inputs, output, profile. split_and!; try done.
    intros [x Hx]. destruct Hp as [Hp|]; [by rewrite Hx in Hp|done].
  - intros (i & o & p & [= <- <- <-] & ? & ? & ? & ? & ? & Hp). split_and!; try done.
    destruct (pm_published_archive marker); [right; by apply Hp; eexists|by left].
Qed.

Lemma event_step_Ok job previous e m :
  event_step job previous e = Ok m ↔
  (pe_job_id e = sj_job_id job ∧ pe_sequence e ≠ 0) ∧ (∀ p, previous = Some p → p < pe_sequence e) ∧
  m = Some (pe_sequence e).
Proof.
  unfold event_step. rewrite if_Err_Ok, !orb_false_iff, negb_false_iff, bool_decide_eq_true, N.eqb_neq. split.
  - intros (((? & ?) & Hp) & [= <-]). split; [done|]. split; [|done]. intros p ->. by apply N.leb_gt in Hp.
  - intros (? & Hp & ->). split; [|done]. split; [done|]. destruct previous as [p|]; [apply N.leb_gt; auto|done].
Qed.

Lemma events_fold_Ok job previous l :
  (∃ m, try_fold (event_step job) previous l = Ok m) ↔
  Forall (λ e, pe_job_id e = sj_job_id job ∧ pe_sequence e ≠ 0) l ∧
  increasing (option_list previous ++ map pe_sequence l).
Proof.
  revert previous; induction l as [|e l IH]; intros previous; cbn [try_fold map].
  { rewrite app_nil_r. split; [|by eexists]. intros _. split; [done|]. by destruct previous. }
  rewrite Forall_cons. transitivity ((pe_job_id e = sj_job_id job ∧ pe_sequence e ≠ 0) ∧
    (∀ p, previous = Some p → p < pe_sequence e) ∧ ∃ m, try_fold (event_step job) (Some (pe_sequence e)) l = Ok m).
  - split.
    + intros (m & Hm). apply bind_Ok in Hm as (a & Ha & Hm). apply event_step_Ok in Ha as (? & ? & ->). eauto.
    + intros (? & ? & m & Hm). exists m. rewrite (proj2 (event_step_Ok job previous e _)) by done. done.
  - rewrite IH. cbn [option_list app]. destruct previous as [p|]; cbn [option_list app].
    + change (increasing (p :: pe_sequence e :: map pe_sequence l)) with
        (p < pe_sequence e ∧ increasing (pe_sequence e :: map pe_sequence l)). naive_solver.
    + naive_solver.
Qed.

Lemma validate_events_Ok job policy retained :
  validate_job_events job policy retained = Ok tt ↔ wf_events policy retained job.
Proof.
  unfold validate_job_events. rewrite if_Err_Ok, orb_false_iff, bool_decide_eq_false, andb_false_iff.
  rewrite bind_Ok. setoid_rewrite bind_Ok. split.
  - intros ((Hne & Hr) & m & Hm & last_event & Hl & Hrest).
    destruct (proj1 (events_fold_Ok job None (sj_events job))) as [He Hi]; [by eexists|].
    apply ok_or_Ok in Hl. apply bind_Ok in Hrest as (n & Hn & Hrest). apply ok_or_Ok, checked_add_Some in Hn as [-> Hn].
    apply if_Err_Ok in Hrest as [Hb _]. rewrite orb_false_iff, !negb_false_iff, N.eqb_eq, bool_decide_eq_true in Hb.
    split; [|done|done|exists last_event; naive_solver lia].
    intros ->. destruct Hr as [|Hr]; [done|]. by apply N.ltb_ge in Hr.
  - intros [Hr He Hi (e & Hl & Hs & Hn & Hu)]. split.
    { split; [intros Hnil; by rewrite Hnil in Hl|]. destruct retained; [right; apply N.ltb_ge; auto|by left]. }
    destruct (proj2 (events_fold_Ok job None (sj_events job))) as [m Hm]; [done|]. exists m. split; [done|].
    exists e. split; [by apply ok_or_Ok|]. rewrite checked_add_ok by lia. cbn [ok_or mbind result_bind]. rewrite Hn, Hs, N.eqb_refl.
    by rewrite bool_decide_true.
Qed.

Lemma job_check_Ok state policy retained n0 k job n :
  job_check state policy retained n0 (k, job) = Ok n ↔
  k = sj_job_id job ∧ wf_job policy retained job ∧ ps_idempotency state !! job_key job = Some k ∧
  ∃ m, parse_job_number k = Ok m ∧ n = N.max n0 m.
Proof.
  unfold job_check. rewrite if_Err_Ok, !orb_false_iff, !negb_false_iff, !bool_decide_eq_true, !N.eqb_neq. split.
  - intros ((((((-> & Ho) & Hm) & Ht) & Hmem) & Hout) & Hrest).
    destruct (validate_idempotency_key (sj_idempotency_key job)) as [[]|] eqn:Hkey; [|done].
    apply bind_Ok in Hrest as (m & Hnum & Hrest). apply if_Err_Ok in Hrest as [Hidx Hrest].
    rewrite negb_false_iff, bool_decide_eq_true in Hidx.
    apply bind_Ok in Hrest as ([] & He & Hrest). apply bind_Ok in Hrest as ([] & Hr & Hrest).
    apply bind_Ok in Hrest as ([] & Hmark & [= <-]).
    apply validate_events_Ok in He. apply validate_outcome_Ok in Hr. apply validate_marker_Ok in Hmark.
    split; [done|]. split; [by split|]. split; [done|]. by exists m.
  - intros (-> & [Ho Hm [Ht [Hmem Hout]] Hkey He Hr Hmark] & Hidx & m & Hnum & ->). split; [done|].
    rewrite Hkey, Hnum. cbn [mbind result_bind]. unfold job_key in Hidx. rewrite bool_decide_true by done. cbn [negb].
    rewrite (proj2 (validate_events_Ok _ _ _)) by done. cbn [mbind result_bind].
    rewrite (proj2 (validate_outcome_Ok _)) by done. cbn [mbind result_bind].
    by rewrite (proj2 (validate_marker_Ok _)) by done.
Qed.

Lemma jobs_fold_Ok state policy retained l n0 n :
  try_fold (job_check state policy retained) n0 l = Ok n ↔
  Forall (λ e, e.1 = sj_job_id e.2 ∧ wf_job policy retained e.2 ∧ ps_idempotency state !! job_key e.2 = Some e.1 ∧
    is_ok (parse_job_number e.1) = true) l ∧
  n = foldr N.max n0 (map (λ e, match parse_job_number e.1 with Ok m => m | Err _ => 0 end) l).
Proof.
  revert n0; induction l as [|[k job] l IH]; intros n0; cbn [try_fold map foldr].
  { split; [by intros [= <-]|by intros [_ ->]]. }
  rewrite bind_Ok, Forall_cons. setoid_rewrite IH. setoid_rewrite job_check_Ok. cbn [fst snd].
  assert (∀ m l', foldr N.max (N.max n0 m) l' = N.max m (foldr N.max n0 l')) as Hmax.
  { intros m l'. induction l' as [|x l' IH']; cbn; [lia|]. rewrite IH'. lia. }
  split.
  - intros (a & (? & ? & ? & m & Hm & ->) & Hl & ->). rewrite Hm, Hmax. done.
  - intros (((? & ? & ? & Hok) & Hl) & ->). destruct (parse_job_number k) as [m|] eqn:Hm; [|done].
    exists (N.max n0 m). rewrite Hmax. naive_solver.
Qed.

Lemma index_check_Ok state key k :
  index_check state tt (key, k) = Ok tt ↔ ∃ job, ps_jobs state !! k = Some job ∧ key = job_key job.
Proof.
  unfold index_check. rewrite bind_Ok. split.
  - intros (job & Hj & Hb). apply ok_or_Ok in Hj. apply if_Err_Ok in Hb as [Hb _].
    rewrite negb_false_iff, bool_decide_eq_true in Hb. eauto.
  - intros (job & Hj & ->). exists job. rewrite Hj. split; [done|]. by rewrite bool_decide_true.
Qed.

Lemma index_fold_Ok state l :
  try_fold (index_check state) tt l = Ok tt ↔
  Forall (λ e, ∃ job, ps_jobs state !! e.2 = Some job ∧ e.1 = job_key job) l.
Proof.
  induction l as [|[key k] l IH]; cbn [try_fold]; [done|]. rewrite bind_Ok, Forall_cons, <-IH. cbn [fst snd].
  rewrite <-index_check_Ok. split; [by intros ([] & ? & ?)|]. intros []. by exists tt.
Qed.

Lemma foldr_max_lt n0 l b : foldr N.max n0 l < b ↔ n0 < b ∧ Forall (λ x, x < b) l.
Proof.
  induction l as [|x l IH]; cbn; [naive_solver|]. rewrite Forall_cons.
  transitivity (x < b ∧ foldr N.max n0 l < b); [lia|]. rewrite IH. tauto.
Qed.

Lemma validate_state_Ok state policy retained :
  validate_state state policy retained = Ok tt ↔ wf_state policy retained state.
Proof.
  unfold validate_state. rewrite !if_Err_Ok, negb_false_iff, N.eqb_eq, orb_false_iff, negb_false_iff, N.eqb_neq, N.eqb_eq.
  rewrite bind_Ok. setoid_rewrite jobs_fold_Ok. setoid_rewrite if_Err_Ok. setoid_rewrite index_fold_Ok.
  split.
  - intros (Hs & Hr & (Hn & Hsize) & m & (Hjobs & ->) & Hnext & Hidx).
    rewrite Forall_btree_list in Hjobs. rewrite Forall_btree_list in Hidx. split; try done; [|lia|].
    + intros ->. apply N.ltb_ge in Hr. done.
    + intros k job Hk. destruct (Hjobs k job Hk) as (? & ? & ? & Hok). cbn [fst snd] in *. split_and!; try done.
      destruct (parse_job_number k) as [n|] eqn:Hnum; [|done]. exists n. split; [done|].
      apply andb_false_iff in Hnext as [Hnil|Hnext].
      { rewrite negb_false_iff, bool_decide_eq_true in Hnil. by rewrite Hnil, lookup_empty in Hk. }
      apply N.leb_gt, foldr_max_lt in Hnext as [_ Hnext]. rewrite Forall_map, Forall_forall in Hnext.
      specialize (Hnext (k, job)). cbn in Hnext. rewrite Hnum in Hnext. by apply Hnext, elem_of_btree_list.
  - intros [Hs Hr Hn Hsize Hjobs Hidx]. split; [done|].
    split; [destruct retained; [apply N.ltb_ge; auto|done]|]. split; [split; [done|lia]|].
    eexists. split; [split; [|reflexivity]|split].
    + apply Forall_btree_list. intros k job Hk. destruct (Hjobs k job Hk) as (? & ? & ? & n & Hnum & _). cbn [fst snd]. by rewrite Hnum.
    + destruct (decide (ps_jobs state = ∅)) as [He|He]; [by rewrite bool_decide_true|].
      apply andb_false_iff. right. apply N.leb_gt, foldr_max_lt. split; [lia|].
      apply Forall_map, Forall_forall. intros [k job] Hk%elem_of_btree_list. cbn.
      destruct (Hjobs k job Hk) as (_ & _ & _ & n & Hnum & ?). by rewrite Hnum.
    + apply Forall_btree_list. intros key k Hk. by apply Hidx.
Qed.

(** ** Changes of a job *)

(** The fields that never change. *)
Record same_job (job job' : StoredJob) : Prop := {
  sj_same_id : sj_job_id job' = sj_job_id job;
  sj_same_owner : sj_owner job' = sj_owner job;
  sj_same_method : sj_method job' = sj_method job;
  sj_same_priority : sj_priority job' = sj_priority job;
  sj_same_key : sj_idempotency_key job' = sj_idempotency_key job;
  sj_same_hash : sj_params_hash job' = sj_params_hash job;
  sj_same_limits : sj_limits job' = sj_limits job;
  sj_same_operation : sj_operation job' = sj_operation job;
  sj_same_created : sj_created_at_unix_ms job' = sj_created_at_unix_ms job;
}.

#[export] Instance same_job_refl : Reflexive same_job.
Proof. by intros job. Qed.
#[export] Instance same_job_trans : Transitive same_job.
Proof. intros j1 j2 j3 [] []. split; congruence. Qed.

(** The states a job moves through: forward, and out of a terminal state
    never. *)
Definition edge (from to : ApiJobState) : bool :=
  match from, to with
  | Queued, (Queued | Running | Completed | Failed | Cancelled) => true
  | Running, (Running | Cancelling | Completed | Failed | Cancelled) => true
  | Cancelling, (Cancelling | Completed | Failed | Cancelled) => true
  | _, _ => false
  end.

(** [append_event], given the time. *)
Definition appended (job : StoredJob) (phase : string) (maximum_events now : N) : StoredJob :=
  let event := {|
    pe_job_id := sj_job_id job; pe_sequence := sj_next_sequence job; pe_state := sj_state job; pe_phase := phase;
    pe_completed_units := if is_terminal (sj_state job) then 1 else 0; pe_total_units := Some 1;
    pe_occurred_at_unix_ms := now |} in
  (trim_event_history (set_history job now (sj_events job ++ [event]) (sj_next_sequence job + 1)) maximum_events).1.

Lemma trim_spec job maximum :
  (trim_event_history job maximum).1 = set_history job (sj_updated_at_unix_ms job)
    (drop (N.to_nat (len (sj_events job) - maximum)) (sj_events job)) (sj_next_sequence job).
Proof.
  unfold trim_event_history, saturating_sub. destruct (N.eqb_spec (len (sj_events job) - maximum) 0) as [->|]; [|done].
  by destruct job.
Qed.

Lemma trim_short job maximum : len (sj_events job) <= maximum → trim_event_history job maximum = (job, false).
Proof. intros Hl. unfold trim_event_history, saturating_sub. by rewrite (proj2 (N.eqb_eq _ _)) by lia. Qed.

Inductive job_change (maximum : N) (job : StoredJob) : StoredJob → Prop :=
  | change_none : job_change maximum job job
  | change_event assigned phase now :
      is_terminal (sj_state job) = false → same_job job assigned →
      sj_events assigned = sj_events job → sj_next_sequence assigned = sj_next_sequence job →
      edge (sj_state job) (sj_state assigned) = true → sj_next_sequence job + 1 <= u64_MAX →
      job_change maximum job (appended assigned phase maximum now).

Lemma appended_same job phase maximum now : same_job job (appended job phase maximum now).
Proof. unfold appended. rewrite trim_spec. by split. Qed.

Lemma appended_state job phase maximum now : sj_state (appended job phase maximum now) = sj_state job.
Proof. unfold appended. by rewrite trim_spec. Qed.

Lemma appended_result job phase maximum now :
  sj_result (appended job phase maximum now) = sj_result job ∧ sj_error (appended job phase maximum now) = sj_error job ∧
  sj_pack_publication (appended job phase maximum now) = sj_pack_publication job ∧
  sj_next_sequence (appended job phase maximum now) = sj_next_sequence job + 1.
Proof. unfold appended. by rewrite trim_spec. Qed.

Lemma change_same maximum job job' : job_change maximum job job' → same_job job job'.
Proof. destruct 1 as [|assigned phase now _ Hs _ _ _ _]; [done|]. etrans; [exact Hs|apply appended_same]. Qed.

Lemma edge_refl state : is_terminal state = false → edge state state = true.
Proof. by destruct state. Qed.

Lemma change_edge maximum job job' :
  job_change maximum job job' → job' = job ∨ edge (sj_state job) (sj_state job') = true.
Proof.
  destruct 1 as [|assigned phase now _ _ _ _ He _]; [by left|]. right. by rewrite appended_state.
Qed.

Lemma change_terminal maximum job job' :
  job_change maximum job job' → is_terminal (sj_state job) = true → job' = job.
Proof. destruct 1 as [|assigned phase now Ht]; [done|]. by rewrite Ht. Qed.

(** ** Well-formedness of a changed job *)

Lemma increasing_drop n l : increasing l → increasing (drop n l).
Proof.
  revert n; induction l as [|a l IH]; intros [|n] Hi; try done. cbn [drop]. apply IH. destruct l; [done|apply Hi].
Qed.

Lemma increasing_snoc l x : increasing l → (∀ y, last l = Some y → y < x) → increasing (l ++ [x]).
Proof.
  induction l as [|a l IH]; intros Hi Hl; [done|]. destruct l as [|b l]; [split; [by apply Hl|done]|].
  destruct Hi as [Hab Hi]. split; [done|]. apply IH; [done|]. intros y Hy. apply Hl. done.
Qed.

Lemma appended_wf policy retained job assigned phase now :
  max_events_per_job policy ≠ 0 → wf_events policy retained job → same_job job assigned →
  sj_events assigned = sj_events job → sj_next_sequence assigned = sj_next_sequence job →
  sj_next_sequence job + 1 <= u64_MAX →
  wf_events policy true (appended assigned phase (max_events_per_job policy) now).
Proof.
  intros Hmax [_ He Hi (e & Hl & Hs & Hn & Hu)] Hsame Hev Hnext Hb. unfold appended. rewrite trim_spec.
  set (maximum := max_events_per_job policy) in *. cbn [sj_events sj_state sj_next_sequence set_history sj_job_id].
  set (event := {| pe_job_id := _ |}). set (all := sj_events assigned ++ [event]).
  set (k := N.to_nat (len all - maximum)).
  assert (k < length all)%nat as Hk by (unfold k, all, len; rewrite !length_app; cbn; lia).
  split; cbn [sj_events sj_state sj_next_sequence set_history sj_job_id].
  - intros _. unfold len. rewrite length_drop. unfold k, len. lia.
  - apply Forall_drop. unfold all. rewrite Forall_app, Hev. split; [|constructor; [|done]].
    + rewrite (sj_same_id _ _ Hsame). done.
    + unfold event. cbn. split; [done|]. lia.
  - rewrite <-skipn_map. apply increasing_drop. unfold all. rewrite map_app, Hev. apply increasing_snoc; [done|].
    intros y Hy. change (map pe_sequence ?l) with (pe_sequence <$> l) in Hy. rewrite fmap_last, Hl in Hy.
    injection Hy as <-. unfold event. cbn. lia.
  - exists event. split; [|unfold event; cbn; split; [done|split; [done|lia]]].
    rewrite last_lookup, lookup_drop, length_drop. rewrite <-last_snoc with (l := sj_events assigned), last_lookup. fold all.
    f_equal. lia.
Qed.
(** ** Names of jobs *)

Lemma sbytes_app a b : sbytes (a ++ b) = sbytes a ++ sbytes b.
Proof.
  unfold sbytes. rewrite <-map_app. f_equal. induction a as [|c a IH]; [done|].
  change (String.String c a +:+ b)%string with (String.String c (a +:+ b)). cbn. by rewrite IH.
Qed.
Lemma slen_sbytes s : slen s = len (sbytes s).
Proof.
  unfold slen, sbytes, len. rewrite length_map. f_equal. induction s as [|c s IH]; [done|]. cbn. by rewrite IH.
Qed.
Lemma slen_app a b : slen (a ++ b) = slen a + slen b.
Proof. rewrite !slen_sbytes, sbytes_app. apply len_app. Qed.

Lemma substring_all s : String.substring 0 (String.length s) s = s.
Proof. induction s as [|c s IH]; [done|]. cbn. by rewrite IH. Qed.

Lemma hex_digit_spec n :
  n < 16 → ∃ b, sbytes (hex_digit n) = [b] ∧ hex_value b = n ∧ is_ascii_hexdigit b = true ∧
    is_ascii_alphanumeric b = true.
Proof.
  intros Hn. assert (n ∈ map N.of_nat (seq 0 16)) as Hin.
  { apply list_elem_of_fmap. exists (N.to_nat n). split; [lia|]. apply elem_of_seq. lia. }
  unfold hex_digit. repeat (apply elem_of_cons in Hin as [->|Hin]; [eexists; split; [reflexivity|done]|]).
  by apply elem_of_nil in Hin.
Qed.

Lemma hex_digits_spec k n :
  slen (hex_digits k n) = N.of_nat k ∧ from_hex (hex_digits k n) = n mod 16 ^ N.of_nat k ∧
  Forall (λ b, is_ascii_hexdigit b = true ∧ is_ascii_alphanumeric b = true) (sbytes (hex_digits k n)).
Proof.
  revert n; induction k as [|k IH]; intros n.
  { cbn. rewrite N.mod_1_r. done. }
  cbn [hex_digits]. destruct (IH (n / 16)) as (Hl & Hv & Hd).
  destruct (hex_digit_spec (n mod 16)) as (b & Hb & Hhex & Hx & Ha); [apply N.mod_lt; lia|].
  split_and!.
  - rewrite slen_app, Hl, slen_sbytes, Hb. unfold len. cbn. lia.
  - unfold from_hex in *. rewrite sbytes_app, fold_left_app, Hv, Hb. cbn [fold_left]. rewrite Hhex.
    rewrite Nat2N.inj_succ, N.pow_succ_r', N.Div0.mod_mul_r. lia.
  - rewrite sbytes_app, Forall_app, Hb. split; [done|]. by constructor.
Qed.

Lemma job_name_valid n : JobId_new (job_name n) = Ok (job_name n).
Proof.
  unfold JobId_new, validated_id, job_name. destruct (hex_digits_spec 16 n) as (Hl & _ & Hd).
  rewrite slen_app, Hl. cbn [orb]. change (slen "job-") with 4. cbn [N.of_nat].
  rewrite (proj2 (N.ltb_ge _ _)) by lia. rewrite (proj2 (N.ltb_ge _ _)) by lia. cbn [orb].
  change (String.prefix "job-" ("job-" ++ hex_digits 16 n)) with (String.prefix "" (hex_digits 16 n)).
  assert (String.prefix "" (hex_digits 16 n) = true) as -> by by destruct (hex_digits 16 n). cbn [negb orb].
  assert (forallb (λ b, is_ascii_alphanumeric b || (b =? 45)) (sbytes ("job-" ++ hex_digits 16 n)) = true) as ->; [|done].
  apply forallb_forall. intros b Hb. rewrite sbytes_app in Hb. apply in_app_iff in Hb as [Hb|Hb].
  - cbn in Hb. repeat (destruct Hb as [<-|Hb]; [done|]). done.
  - rewrite Forall_forall in Hd. apply list_elem_of_In in Hb. by destruct (Hd b Hb) as [_ ->].
Qed.

Lemma job_name_number n : n <= u64_MAX → parse_job_number (job_name n) = Ok n.
Proof.
  intros Hn. unfold parse_job_number, job_name, strip_prefix. destruct (hex_digits_spec 16 n) as (Hl & Hv & Hd).
  change (String.prefix "job-" ("job-" ++ hex_digits 16 n)) with (String.prefix "" (hex_digits 16 n)).
  assert (String.prefix "" (hex_digits 16 n) = true) as -> by by destruct (hex_digits 16 n).
  assert (String.substring (String.length "job-") (String.length ("job-" ++ hex_digits 16 n) - String.length "job-")
    ("job-" ++ hex_digits 16 n) = hex_digits 16 n) as ->.
  { change (String.length ("job-" ++ hex_digits 16 n)) with (4 + String.length (hex_digits 16 n))%nat.
    change (String.length "job-") with 4%nat. rewrite Nat.add_comm, Nat.add_sub.
    change (String.substring 4 (String.length (hex_digits 16 n)) ("job-" ++ hex_digits 16 n)) with
      (String.substring 0 (String.length (hex_digits 16 n)) (hex_digits 16 n)). apply substring_all. }
  rewrite Hl, N.eqb_refl. cbn [andb].
  assert (forallb is_ascii_hexdigit (sbytes (hex_digits 16 n)) = true) as ->.
  { apply forallb_forall. intros b Hb. rewrite Forall_forall in Hd. apply list_elem_of_In in Hb. by apply Hd. }
  f_equal. rewrite Hv. apply N.mod_small. change (16 ^ N.of_nat 16) with (u64_MAX + 1). lia.
Qed.

(** The owner of a key can be told from the rest of it. *)
Lemma map_key_inj a b k l :
  forallb (λ b, is_ascii_alphanumeric b || (b =? 45)) (sbytes a) = true →
  forallb (λ b, is_ascii_alphanumeric b || (b =? 45)) (sbytes b) = true →
  idempotency_map_key a k = idempotency_map_key b l → a = b ∧ k = l.
Proof.
  unfold idempotency_map_key. revert b; induction a as [|c a IH]; intros [|d b] Ha Hb Heq.
  - by injection Heq.
  - injection Heq as <- _. done.
  - injection Heq as -> _. done.
  - injection Heq as <- Heq. apply andb_true_iff in Ha as [_ Ha], Hb as [_ Hb].
    destruct (IH b Ha Hb Heq) as [-> ->]. done.
Qed.

Lemma valid_identifier_chars value prefix :
  valid_identifier value prefix = true → forallb (λ b, is_ascii_alphanumeric b || (b =? 45)) (sbytes value) = true.
Proof. unfold valid_identifier. by intros [_ ?]%andb_true_iff. Qed.
