(* ===== verification/JobStoreOps.v ===== *)
(** * The operations of the job store

    What every operation does to a job, to the registry and to the file of
    the store. *)

From S2P Require Import Prelude Core Bytes Sorting Orders Paths AgentApi Daemon JobStore JobStoreInv.

(** The other calls leave the file of the store alone. *)
Class JobWorldLaws (W : Type) (path : PathBuf) `{Disk W} `{!DiskLaws W path} `{JobWorld W} : Prop := {
  unix_ms_contents w : contents (world_unix_ms w).2 = contents w;
  metadata_contents p w : contents (world_symlink_metadata p w).2 = contents w;
  is_file_contents p w : contents (world_is_file p w).2 = contents w;
  verify_contents p w : contents (world_verify p w).2 = contents w;
}.

Arguments contents {W _} path {_} _.

Section ops.
Context {W : Type} `{Disk W} `{JobWorld W} (path : PathBuf) `{!DiskLaws W path} `{!JobWorldLaws W path}.

(** ** Computations that leave the file alone *)

Definition quiet {A} (m : D W A) : Prop := ∀ w, contents path (m w).2 = contents path w.

Lemma quiet_ret {A} (a : A) : quiet (mret a).
Proof. by intros w. Qed.
Lemma quiet_fail {A} e : quiet (@d_fail W A e).
Proof. by intros w. Qed.
Lemma quiet_lift {A} (r : RpcResult A) : quiet (d_lift r).
Proof. by intros w. Qed.
Lemma quiet_bind {A B} (m : D W A) (f : A → D W B) : quiet m → (∀ a, quiet (f a)) → quiet (m ≫= f).
Proof.
  intros Hm Hf w. unfold mbind, D_bind. specialize (Hm w). destruct (m w) as [[a|e] w1]; cbn in *; [|done].
  by rewrite Hf.
Qed.
Lemma quiet_call {A} e (call : W → option A * W) :
  (∀ w, contents path (call w).2 = contents path w) → quiet (d_call e call).
Proof. intros Hc w. unfold d_call. specialize (Hc w). by destruct (call w) as [[a|] w1]. Qed.

Lemma quiet_unix_ms : quiet unix_ms.
Proof. intros w. unfold unix_ms. pose proof (unix_ms_contents w). by destruct (world_unix_ms w). Qed.

Lemma quiet_append job phase maximum : quiet (append_event job phase maximum).
Proof.
  unfold append_event. apply quiet_bind; [apply quiet_lift|intros]. apply quiet_bind; [apply quiet_unix_ms|intros].
  apply quiet_ret.
Qed.

Lemma quiet_prepare job : quiet (prepare_pack_publication_marker job).
Proof.
  unfold prepare_pack_publication_marker. destruct (sj_operation job); try apply quiet_ret.
  apply quiet_bind; [|intros; apply quiet_ret]. intros w. pose proof (metadata_contents output w).
  by destruct (world_symlink_metadata output w) as [[[]|[]] w1].
Qed.

Lemma quiet_recover job w : contents path (recover_pack_archive job w).2 = contents path w.
Proof.
  unfold recover_pack_archive. destruct (sj_operation job); try done. destruct (sj_pack_publication job) as [marker|]; [|done].
  destruct (pm_published_archive marker) as [expected|]; [|done]. destruct (negb _); [done|].
  pose proof (is_file_contents output w) as Hf. destruct (world_is_file output w) as [is_file w1]. cbn in Hf.
  destruct (negb is_file); [done|]. unfold verified_archive_identity, d_call.
  pose proof (verify_contents output w1) as Hv. destruct (world_verify output w1) as [[identity|] w2]; cbn in Hv |- *; [|congruence].
  destruct (negb _); cbn; congruence.
Qed.

(** ** Changes of one job *)

Lemma append_event_Ok job phase maximum w job' w' :
  append_event job phase maximum w = (Ok job', w') →
  sj_next_sequence job + 1 <= u64_MAX ∧ ∃ now, job' = appended job phase maximum now.
Proof.
  unfold append_event. intros (next & w1 & Hn & Hr)%D_bind_Ok. injection Hn as Hn ->.
  apply ok_or_Ok, checked_add_Some in Hn as [-> Hn]. split; [done|].
  apply D_bind_Ok in Hr as (now & w2 & Ht & [= <- <-]). by exists now.
Qed.

Lemma change_append maximum job assigned phase w job' w' :
  append_event assigned phase maximum w = (Ok job', w') →
  is_terminal (sj_state job) = false → same_job job assigned →
  sj_events assigned = sj_events job → sj_next_sequence assigned = sj_next_sequence job →
  edge (sj_state job) (sj_state assigned) = true → job_change maximum job job'.
Proof.
  intros (Hn & now & ->)%append_event_Ok Ht Hs He Hq Hedge. apply change_event; try done. by rewrite <-Hq.
Qed.

(** Case analysis on the state of the job. *)
Ltac by_state job :=
  repeat match goal with H : context [sj_state job] |- _ => revert H end; cbn;
  destruct (sj_state job); intros; done.

(** A closure of [update_owned] changes the job or leaves it. *)
Definition changes {A} (maximum : N) (update : StoredJob → D W (StoredJob * A)) : Prop :=
  ∀ job w job' a w', update job w = (Ok (job', a), w') → job_change maximum job job'.

Lemma transition_changes maximum state phase : changes maximum (transition_job maximum state phase).
Proof.
  intros job w job' [] w'. unfold transition_job. destruct (valid_transition _ _) eqn:Hv; [|done]. cbn [negb].
  intros (j1 & w1 & H1 & Hr)%D_bind_Ok. apply D_bind_Ok in Hr as (j2 & w2 & H2 & [= <- <-]).
  assert (same_job job j1 ∧ sj_events j1 = sj_events job ∧ sj_next_sequence j1 = sj_next_sequence job) as (Hs & He & Hq).
  { case_bool_decide; [|by injection H1 as <- <-]. by apply D_bind_Ok in H1 as (marker & w3 & _ & [= <- <-]). }
  eapply change_append; [exact H2|by_state job| |done|done|].
  - etrans; [exact Hs|done].
  - cbn. destruct state; by_state job.
Qed.

Lemma cancel_changes maximum : changes maximum (cancel_job maximum).
Proof.
  intros job w job' a w'. unfold cancel_job. intros (j1 & w1 & H1 & [= <- <- <-])%D_bind_Ok.
  destruct (sj_state job) eqn:Hst; try discriminate; try (injection H1 as <- <-; constructor);
    (eapply change_append; [exact H1|by rewrite Hst|done|done|done|by rewrite Hst]).
Qed.

Lemma finish_changes maximum : changes maximum (finish_cancelled_job maximum).
Proof.
  intros job w job' a w'. unfold finish_cancelled_job. case_bool_decide as Hst; [|done]. cbn [negb].
  intros (j1 & w1 & H1 & [= <- <- <-])%D_bind_Ok.
  eapply change_append; [exact H1|by rewrite Hst|done|done|done|by rewrite Hst].
Qed.

Lemma complete_changes maximum result : changes maximum (complete_job maximum result).
Proof.
  intros job w job' a w'. unfold complete_job.
  destruct (sj_state job) eqn:Hst; try done; intros (u & w1 & _ & Hr)%D_bind_Ok;
    apply D_bind_Ok in Hr as (j1 & w2 & H1 & [= <- <- <-]);
    (eapply change_append; [exact H1|by rewrite Hst|done|done|done|by rewrite Hst]).
Qed.

Lemma fail_changes maximum error : changes maximum (fail_job maximum error).
Proof.
  intros job w job' a w'. unfold fail_job. destruct (is_terminal (sj_state job)) eqn:Ht; [done|].
  intros (j1 & w1 & H1 & [= <- <- <-])%D_bind_Ok.
  eapply change_append; [exact H1|done|done|done|done|]. cbn. case_bool_decide; by_state job.
Qed.

Lemma record_changes maximum output identity : changes maximum (record_job maximum output identity).
Proof.
  intros job w job' a w'. unfold record_job. destruct (is_active (sj_state job)) eqn:Hst; [|done]. cbn [negb].
  destruct (negb _); [done|]. destruct (sj_pack_publication job) as [marker|]; [|done]. destruct (negb _); [done|].
  destruct (pm_published_archive marker) as [expected|].
  - case_bool_decide; [|done]. intros [= <- <- <-]. constructor.
  - intros (j1 & w1 & H1 & [= <- <- <-])%D_bind_Ok.
    eapply change_append; [exact H1|by_state job|done|done|done|by_state job].
Qed.

Lemma expire_changes maximum : changes maximum (expire_job maximum).
Proof.
  intros job w job' a w'. unfold expire_job.
  destruct (sj_state job) eqn:Hst; try (intros [= <- <- <-]; constructor);
    intros (j1 & w1 & H1 & [= <- <- <-])%D_bind_Ok;
    (eapply change_append; [exact H1|by rewrite Hst|done|done|done|by rewrite Hst]).
Qed.

Lemma close_changes maximum : changes maximum (close_job maximum).
Proof.
  intros job w job' a w'. unfold close_job.
  destruct (sj_state job) eqn:Hst; try (intros [= <- <- <-]; constructor);
    intros (j1 & w1 & H1 & [= <- <- <-])%D_bind_Ok;
    (eapply change_append; [exact H1|by rewrite Hst|done|done|done|by rewrite Hst]).
Qed.

(** ** The changed job is well formed *)

Lemma appended_outcome job phase maximum now : wf_outcome (appended job phase maximum now) ↔ wf_outcome job.
Proof. unfold wf_outcome, appended. by rewrite trim_spec. Qed.
Lemma appended_marker job phase maximum now : wf_marker (appended job phase maximum now) ↔ wf_marker job.
Proof. unfold wf_marker, appended. by rewrite trim_spec. Qed.

Lemma change_wf policy job job' :
  max_events_per_job policy ≠ 0 → job_change (max_events_per_job policy) job job' → wf_job policy true job →
  wf_outcome job' → wf_marker job' → wf_job policy true job'.
Proof.
  intros Hmax Hc [Ho Hm Hl Hk He _ _] Hout Hmark. pose proof (change_same _ _ _ Hc) as [Hid Hown Hmeth _ Hkey _ Hlim Hop _].
  split; try done; rewrite ?Hown, ?Hkey, ?Hlim, ?Hmeth, ?Hop; try done.
  destruct Hc as [|assigned phase now Ht Hs Hev Hn Hed Hb]; [done|]. by eapply appended_wf.
Qed.

Definition keeps {A} (policy : StorePolicy) (update : StoredJob → D W (StoredJob * A)) : Prop :=
  ∀ job w job' a w', update job w = (Ok (job', a), w') → wf_job policy true job → wf_job policy true job'.

Lemma keeps_intro {A} policy (update : StoredJob → D W (StoredJob * A)) :
  max_events_per_job policy ≠ 0 → changes (max_events_per_job policy) update →
  (∀ job w job' a w', update job w = (Ok (job', a), w') → wf_outcome job → wf_marker job →
    wf_outcome job' ∧ wf_marker job') →
  keeps policy update.
Proof.
  intros Hmax Hc Ho job w job' a w' Hu Hwf. destruct (Ho _ _ _ _ _ Hu) as [? ?]; [apply Hwf..|].
  eapply change_wf; [done|by eapply Hc|done..].
Qed.

(** The marker does not depend on the outcome, except that a queued job has
    none. *)
Lemma marker_outcome job state result error :
  wf_marker job → state ≠ Queued → wf_marker (set_outcome job state result error).
Proof.
  unfold wf_marker. cbn. destruct (sj_pack_publication job) as [marker|]; [|done].
  intros (i & o & p & ? & ? & ? & ? & ? & _ & ?) ?. exists i, o, p. split_and!; done.
Qed.

Lemma outcome_open job :
  wf_outcome job → is_terminal (sj_state job) = false → sj_result job = None ∧ sj_error job = None.
Proof. unfold wf_outcome. by destruct (sj_state job). Qed.

Lemma append_keeps assigned phase maximum w job' w' :
  append_event assigned phase maximum w = (Ok job', w') → wf_outcome assigned → wf_marker assigned →
  wf_outcome job' ∧ wf_marker job'.
Proof.
  intros (_ & now & ->)%append_event_Ok Ho Hm. by rewrite appended_outcome, appended_marker.
Qed.

Lemma prepare_marker job w marker w' :
  prepare_pack_publication_marker job w = (Ok marker, w') →
  wf_marker (set_state (set_publication job marker) Running).
Proof.
  unfold prepare_pack_publication_marker, wf_marker. cbn.
  destruct (sj_operation job) as [inputs output profile| | | | | |] eqn:Hop; try (by intros [= <- <-]).
  intros (absent & w1 & _ & [= <- <-])%D_bind_Ok. cbn. exists inputs, output, profile.
  split_and!; try done. by apply bool_decide_true.
Qed.

Lemma transition_keeps policy state phase :
  max_events_per_job policy ≠ 0 → state ≠ Completed → state ≠ Failed → keeps policy (transition_job (max_events_per_job policy) state phase).
Proof.
  intros Hmax Hnc Hnf. apply keeps_intro; [done|apply transition_changes|].
  intros job w job' [] w'. unfold transition_job. destruct (valid_transition _ _) eqn:Hv; [|done]. cbn [negb].
  intros (j1 & w1 & H1 & Hr)%D_bind_Ok Ho Hm. apply D_bind_Ok in Hr as (j2 & w2 & H2 & [= <- <-]).
  eapply append_keeps; [exact H2|..].
  - assert (sj_result j1 = sj_result job ∧ sj_error j1 = sj_error job) as [Hr He].
    { case_bool_decide; [|by injection H1 as <- <-]. by apply D_bind_Ok in H1 as (marker & w3 & _ & [= <- <-]). }
    destruct (outcome_open job Ho) as [Hr' He']; [by_state job|]. unfold wf_outcome. cbn. rewrite Hr, He.
    destruct state; done.
  - case_bool_decide as Hrun; [subst state|].
    + apply D_bind_Ok in H1 as (marker & w3 & Hp & [= <- <-]). by eapply prepare_marker.
    + injection H1 as <- <-. apply marker_outcome; [done|]. intros ->. by_state job.
Qed.

(** The other closures assign an outcome that fits the state. *)
Lemma outcome_keeps job state result error phase maximum w job' w' :
  append_event (set_outcome job state result error) phase maximum w = (Ok job', w') →
  wf_marker job → state ≠ Queued → wf_outcome (set_outcome job state result error) →
  wf_outcome job' ∧ wf_marker job'.
Proof. intros Ha Hm Hs Ho. eapply append_keeps; [exact Ha|done|by apply marker_outcome]. Qed.

Ltac open_outcome job :=
  match goal with Ho : wf_outcome job |- _ =>
    let H := fresh in pose proof (outcome_open job Ho) as H; destruct H; [by_state job|] end.

Lemma cancel_keeps policy : max_events_per_job policy ≠ 0 → keeps policy (cancel_job (max_events_per_job policy)).
Proof.
  intros Hmax. apply keeps_intro; [done|apply cancel_changes|].
  intros job w job' a w'. unfold cancel_job. intros (j1 & w1 & H1 & [= <- <- <-])%D_bind_Ok Ho Hm.
  destruct (sj_state job) eqn:Hst; try discriminate; try (injection H1 as <- <-; done);
    open_outcome job; (eapply outcome_keeps; [exact H1|done|done|by unfold wf_outcome]).
Qed.

Lemma finish_keeps policy :
  max_events_per_job policy ≠ 0 → keeps policy (finish_cancelled_job (max_events_per_job policy)).
Proof.
  intros Hmax. apply keeps_intro; [done|apply finish_changes|].
  intros job w job' a w'. unfold finish_cancelled_job. case_bool_decide as Hst; [|done]. cbn [negb].
  intros (j1 & w1 & H1 & [= <- <- <-])%D_bind_Ok Ho Hm. open_outcome job.
  eapply outcome_keeps; [exact H1|done|done|done].
Qed.

Lemma complete_keeps policy result :
  max_events_per_job policy ≠ 0 → keeps policy (complete_job (max_events_per_job policy) result).
Proof.
  intros Hmax. apply keeps_intro; [done|apply complete_changes|].
  intros job w job' a w'. unfold complete_job.
  destruct (sj_state job); try done; intros (u & w1 & _ & Hr)%D_bind_Ok Ho Hm;
    apply D_bind_Ok in Hr as (j1 & w2 & H1 & [= <- <- <-]);
    (eapply outcome_keeps; [exact H1|done|done|split; [by eexists|done]]).
Qed.

Lemma fail_keeps policy error :
  max_events_per_job policy ≠ 0 → keeps policy (fail_job (max_events_per_job policy) error).
Proof.
  intros Hmax. apply keeps_intro; [done|apply fail_changes|].
  intros job w job' a w'. unfold fail_job. destruct (is_terminal (sj_state job)); [done|].
  intros (j1 & w1 & H1 & [= <- <- <-])%D_bind_Ok Ho Hm.
  eapply outcome_keeps; [exact H1|done|by case_bool_decide|]. unfold wf_outcome. cbn.
  case_bool_decide; [done|split; [done|by eexists]].
Qed.

Lemma record_keeps policy output identity :
  max_events_per_job policy ≠ 0 → keeps policy (record_job (max_events_per_job policy) output identity).
Proof.
  intros Hmax. apply keeps_intro; [done|apply record_changes|].
  intros job w job' a w'. unfold record_job. destruct (is_active (sj_state job)) eqn:Hst; [|done]. cbn [negb].
  destruct (negb _); [done|]. destruct (sj_pack_publication job) as [marker|] eqn:Hp; [|done].
  destruct (pm_output_was_absent marker) eqn:Habs; [|done]. cbn [negb].
  destruct (pm_published_archive marker) as [expected|].
  - case_bool_decide; [|done]. by intros [= <- <- <-].
  - intros (j1 & w1 & H1 & [= <- <- <-])%D_bind_Ok Ho Hm. eapply append_keeps; [exact H1|exact Ho|].
    unfold wf_marker in *. rewrite Hp in Hm. destruct Hm as (i & o & p & ? & ? & ? & ? & ? & ? & ?). cbn.
    exists i, o, p. split_and!; done.
Qed.

Lemma expire_keeps policy : max_events_per_job policy ≠ 0 → keeps policy (expire_job (max_events_per_job policy)).
Proof.
  intros Hmax. apply keeps_intro; [done|apply expire_changes|].
  intros job w job' a w'. unfold expire_job.
  destruct (sj_state job) eqn:Hst; try (by intros [= <- <- <-]);
    intros (j1 & w1 & H1 & [= <- <- <-])%D_bind_Ok Ho Hm; open_outcome job;
    (eapply outcome_keeps; [exact H1|done|done|split; [done|done || by eexists]]).
Qed.

Lemma close_keeps policy : max_events_per_job policy ≠ 0 → keeps policy (close_job (max_events_per_job policy)).
Proof.
  intros Hmax. apply keeps_intro; [done|apply close_changes|].
  intros job w job' a w'. unfold close_job.
  destruct (sj_state job) eqn:Hst; try (by intros [= <- <- <-]);
    intros (j1 & w1 & H1 & [= <- <- <-])%D_bind_Ok Ho Hm; open_outcome job;
    (eapply outcome_keeps; [exact H1|done|done|done]).
Qed.

(** ** Committing *)

Lemma publish_contents bytes w res w' :
  publish_state path bytes w = (res, w') →
  match res with Ok _ => contents path w' = Some bytes | Err _ => contents path w' = contents path w end.
Proof.
  unfold publish_state, mbind, D_bind, d_call.
  pose proof (disk_create_contents (parent_or_dot path) w) as H1.
  destruct (disk_create_dir_all (parent_or_dot path) w) as [[[]|] w1]; cbn in H1; [|by intros [= <- <-]].
  pose proof (disk_temporary_contents (parent_or_dot path) w1) as H2.
  destruct (disk_new_temporary (parent_or_dot path) w1) as [[[]|] w2]; cbn in H2; [|intros [= <- <-]; congruence].
  pose proof (disk_write_contents bytes w2) as H3.
  destruct (disk_write_all bytes w2) as [[[]|] w3]; cbn in H3; [|intros [= <- <-]; congruence].
  pose proof (disk_flush_contents w3) as H4.
  destruct (disk_flush w3) as [[[]|] w4]; cbn in H4; [|intros [= <- <-]; congruence].
  pose proof (disk_sync_all_contents w4) as H5.
  destruct (disk_sync_all w4) as [[[]|] w5]; cbn in H5; [|intros [= <- <-]; congruence].
  pose proof (disk_persist_Some bytes w5) as H6. pose proof (disk_persist_None bytes w5) as H7.
  destruct (disk_persist bytes path w5) as [[[]|] w6]; cbn in H6, H7; intros [= <- <-]; [auto|].
  rewrite H7 by done. congruence.
Qed.

Lemma quiet_sync parent : quiet (sync_parent parent).
Proof. apply quiet_call. intros w. apply disk_sync_dir_contents. Qed.

Context `{StoreJson}.

(** What a registry keeps over its life. *)
Record same_registry (r r' : JobRegistry) : Prop := {
  jr_same_path : jr_path r' = jr_path r;
  jr_same_policy : jr_policy r' = jr_policy r;
  jr_same_closed : jr_closed r = true → jr_closed r' = true;
  jr_same_healthy : jr_healthy r = false → jr_healthy r' = false;
}.

#[export] Instance same_registry_refl : Reflexive same_registry.
Proof. by intros r. Qed.
#[export] Instance same_registry_trans : Transitive same_registry.
Proof. intros r1 r2 r3 [] []. split; try congruence; auto. Qed.

(** The state was published: to the file and to memory. *)
Record published (next : PersistentState) (r : JobRegistry) (w : W) : Prop := {
  pu_state : jr_state r = next;
  pu_wf : wf_state (jr_policy r) true next;
  pu_file : ∃ bytes, store_to_vec next = Some bytes ∧ contents path w = Some bytes;
}.

(** A commit publishes the state and returns, or fails and poisons the
    registry, with the state published or with nothing changed. *)
Inductive commit_effect (next : PersistentState) (r : JobRegistry) (w : W) :
    RpcResult unit → JobRegistry → W → Prop :=
  | commit_done w' :
      published next (with_state r next) w' → commit_effect next r w (Ok tt) (with_state r next) w'
  | commit_unsynced e w' :
      published next (with_state r next) w' →
      commit_effect next r w (Err e) (with_healthy (with_state r next) false) w'
  | commit_failed e w' :
      contents path w' = contents path w →
      commit_effect next r w (Err e) (with_healthy r false) w'.

Lemma encode_Ok state maximum bytes :
  encode_state state maximum = Ok bytes → store_to_vec state = Some bytes ∧ len bytes <= maximum.
Proof.
  unfold encode_state. intros (b & Hb & Hr)%bind_Ok. apply ok_or_Ok in Hb. apply if_Err_Ok in Hr as [Hl [= <-]].
  split; [done|]. by apply N.ltb_ge.
Qed.

Lemma commit_effects next r w res r' w' :
  jr_path r = path → commit next (r, w) = (res, (r', w')) →
  commit_effect (trim_retained_events next (jr_policy r)).1 r w res r' w'.
Proof.
  intros Hp. set (state := (trim_retained_events next (jr_policy r)).1).
  change (commit next (r, w)) with (commit_with_sync state sync_parent (r, w)).
  unfold commit_with_sync, registry, d_lift, mbind, D_bind. cbn [fst].
  destruct (validate_state state (jr_policy r) true) as [[]|e] eqn:Hv.
  2: { intros [= <- <- <-]. by apply commit_failed. }
  destruct (encode_state state (max_store_bytes (jr_policy r))) as [bytes|e] eqn:He.
  2: { intros [= <- <- <-]. by apply commit_failed. }
  apply validate_state_Ok in Hv. apply encode_Ok in He as [He _]. rewrite Hp. unfold d_second.
  destruct (publish_state path bytes w) as [[parent|e] w1] eqn:Hpub; apply publish_contents in Hpub.
  2: { intros [= <- <- <-]. by apply commit_failed. }
  unfold set_registry. pose proof (quiet_sync parent w1) as Hq.
  destruct (sync_parent parent w1) as [[[]|e] w2]; cbn in Hq; intros [= <- <- <-].
  - apply commit_done. split; [done|exact Hv|]. exists bytes. by rewrite Hq.
  - apply commit_unsynced. split; [done|exact Hv|]. exists bytes. by rewrite Hq.
Qed.
End ops.

(** Proves that a computation leaves the file alone. *)
Ltac quiet_step :=
  match goal with
  | |- ∀ _, quiet _ _ => intros ?
  | |- quiet _ (_ ≫= _) => apply quiet_bind
  | |- quiet _ (mret _) => apply quiet_ret
  | |- quiet _ (d_fail _) => apply quiet_fail
  | |- quiet _ (d_lift _) => apply quiet_lift
  | |- quiet _ (append_event _ _ _) => apply quiet_append; apply _
  | |- quiet _ (prepare_pack_publication_marker _) => apply quiet_prepare; apply _
  | |- quiet _ (match ?x with _ => _ end) => destruct x
  end.
Ltac quiet := repeat quiet_step.
