(* ===== verification/Sessions.v ===== *)
(** * Sessions of the daemon ([crates/pithos-daemon/src/session_store.rs])

    The registry of resumable sessions: what is kept of a session, in memory
    and in its file, and how a session is created and resumed. *)

From S2P Require Import Prelude Core Bytes Paths AgentApi Daemon JobStore JobStoreInv JobStoreOps.

Definition SESSION_SCHEMA_VERSION : N := 2.
Definition MAX_SESSION_STORE_BYTES : N := 8 * 1024 * 1024.
Definition MAX_SESSIONS : N := 4096.

Record CreatedSession := { cs_session_id : SessionId; cs_resume_token : string }.
Record ResumedSession := { rs_scope : PathScope; rs_resume_token : string }.

Record StoredSession := {
  ss_resume_token_hash : list byte;
  ss_scope : PathScope;
  ss_expires_at_unix_ms : N;
}.

Record PersistentSessions := {
  pn_schema_version : N;
  pn_sessions : gmap string StoredSession;
}.

Definition PersistentSessions_default : PersistentSessions :=
  {| pn_schema_version := SESSION_SCHEMA_VERSION; pn_sessions := ∅ |}.

Definition with_sessions (state : PersistentSessions) (sessions : gmap string StoredSession) : PersistentSessions :=
  {| pn_schema_version := pn_schema_version state; pn_sessions := sessions |}.

Record SessionRegistry := { sr_path : PathBuf; sr_state : PersistentSessions }.

(** [rand::rng().fill] of so many bytes. *)
Class Rng (W : Type) := rng_fill : N → W → list byte * W.

(** [serde_json::to_vec] and [from_slice] at [PersistentSessions]. *)
Class SessionJson := {
  session_to_vec : PersistentSessions → option (list byte);
  session_from_slice : list byte → option PersistentSessions;
}.

Definition session_denied : JsonRpcError := JsonRpcError_domain PermissionDenied "permission denied".

Definition validate_expiry (now_unix_ms expires_at_unix_ms : N) : RpcResult unit :=
  if expires_at_unix_ms <=? now_unix_ms then Err (JsonRpcError_invalid_params "invalid session expiration")
  else Ok tt.

Definition constant_time_equal (left right : list byte) : bool :=
  (len left =? len right) &&
  (fold_left (λ difference '(l, r), N.lor difference (N.lxor (byte_val l) (byte_val r))) (zip left right) 0 =? 0).

(** [format!("{byte:02x}")] of every byte, concatenated. *)
Definition hex_of (bytes : list byte) : string :=
  String.concat "" (map (λ b, hex_digits 2 (byte_val b)) bytes).

Definition token_bytes (token : string) : list byte := String.list_byte_of_string token.

Section sessions.
Context {W : Type} `{Disk W} `{Rng W} `{SessionJson} `{Blake3}.

Definition random_hex (bytes : N) : D W string := λ w, let '(value, w) := rng_fill bytes w in (Ok (hex_of value), w).

Definition load_state (path : PathBuf) : D W PersistentSessions := λ w,
  match disk_open path w with
  | (Err NotFound, w) => (Ok PersistentSessions_default, w)
  | (Err _, w) => (Err (internal "cannot open session registry"), w)
  | (Ok _, w) =>
      (length ← d_call (internal "cannot inspect session registry") (disk_len path);
       if MAX_SESSION_STORE_BYTES <? length
       then d_fail (JsonRpcError_resource_limit "session registry is too large") else
       bytes ← d_call (internal "cannot read session registry") (disk_read_to_end path);
       state ← d_lift (ok_or (internal "session registry is corrupt") (session_from_slice bytes));
       if MAX_SESSIONS <? N.of_nat (size (pn_sessions state))
       then d_fail (JsonRpcError_resource_limit "session registry is too large") else
       mret state) w
  end.

Definition SessionRegistry_open (path : PathBuf) : D W SessionRegistry :=
  state ← load_state path;
  if negb (pn_schema_version state =? SESSION_SCHEMA_VERSION)
  then d_fail (internal "unsupported session store schema") else
  mret {| sr_path := path; sr_state := state |}.

Definition session_sync_parent (parent : PathBuf) : D W unit :=
  d_call (internal "cannot sync session directory") (disk_sync_dir parent).

Definition sessions : D (SessionRegistry * W) SessionRegistry := λ s, (Ok s.1, s).
Definition set_sessions (state : PersistentSessions) : D (SessionRegistry * W) unit :=
  λ '(r, w), (Ok tt, ({| sr_path := sr_path r; sr_state := state |}, w)).

(** From the creation of the directory to the rename. *)
Definition session_publish (path : PathBuf) (bytes : list byte) : D W PathBuf :=
  let parent := parent_or_dot path in
  d_call (internal "cannot create session directory") (disk_create_dir_all parent);;
  d_call (internal "cannot create session transaction") (disk_new_temporary parent);;
  d_call (internal "cannot sync session transaction") (disk_write_all bytes);;
  d_call (internal "cannot sync session transaction") disk_flush;;
  d_call (internal "cannot sync session transaction") disk_sync_all;;
  d_call (internal "cannot publish session registry") (disk_persist bytes path);;
  mret parent.

(** The live state follows the file even if the directory is not synced. *)
Definition SessionRegistry_commit (next : PersistentSessions) : D (SessionRegistry * W) unit :=
  bytes ← d_lift (ok_or (internal "cannot encode sessions") (session_to_vec next));
  if MAX_SESSION_STORE_BYTES <? len bytes
  then d_fail (JsonRpcError_resource_limit "session registry is full") else
  r ← sessions;
  parent ← d_second (session_publish (sr_path r) bytes);
  set_sessions next;;
  d_second (session_sync_parent parent).

(** The loop that draws an unused id; it ends when the generator yields one,
    which [attempts] bounds. *)
Fixpoint draw_session (attempts : nat) (next : PersistentSessions) : D W (SessionId * string) :=
  match attempts with
  | O => d_fail (internal "model: out of fuel")
  | S attempts =>
      hex ← random_hex 16;
      session_id ← d_lift (SessionId_new ("session-" ++ hex));
      match pn_sessions next !! session_id with
      | Some _ => draw_session attempts next
      | None => token ← random_hex 32; mret (session_id, token)
      end
  end.

Definition SessionRegistry_create (attempts : nat) (scope : PathScope) (now_unix_ms expires_at_unix_ms : N) :
    D (SessionRegistry * W) CreatedSession :=
  d_lift (validate_expiry now_unix_ms expires_at_unix_ms);;
  r ← sessions;
  let next := with_sessions (sr_state r)
    (filter (λ entry, now_unix_ms < ss_expires_at_unix_ms entry.2) (pn_sessions (sr_state r))) in
  if MAX_SESSIONS <=? N.of_nat (size (pn_sessions next))
  then d_fail (JsonRpcError_resource_limit "session registry is full") else
  '(session_id, resume_token) ← d_second (draw_session attempts next);
  SessionRegistry_commit (with_sessions next (<[session_id := {|
    ss_resume_token_hash := blake3 (token_bytes resume_token); ss_scope := scope;
    ss_expires_at_unix_ms := expires_at_unix_ms |}]> (pn_sessions next)));;
  mret {| cs_session_id := session_id; cs_resume_token := resume_token |}.

Definition SessionRegistry_resume (session_id : SessionId) (resume_token : string)
    (now_unix_ms expires_at_unix_ms : N) : D (SessionRegistry * W) ResumedSession :=
  d_lift (validate_expiry now_unix_ms expires_at_unix_ms);;
  if negb (slen resume_token =? 64) || negb (forallb is_ascii_hexdigit (sbytes resume_token))
  then d_fail session_denied else
  r ← sessions;
  let next := sr_state r in
  stored ← d_lift (ok_or session_denied (pn_sessions next !! session_id));
  if ss_expires_at_unix_ms stored <=? now_unix_ms then
    SessionRegistry_commit (with_sessions next (delete session_id (pn_sessions next)));;
    d_fail session_denied
  else
  if negb (constant_time_equal (ss_resume_token_hash stored) (blake3 (token_bytes resume_token)))
  then d_fail session_denied else
  rotated_resume_token ← d_second (random_hex 32);
  SessionRegistry_commit (with_sessions next (<[session_id := {|
    ss_resume_token_hash := blake3 (token_bytes rotated_resume_token); ss_scope := ss_scope stored;
    ss_expires_at_unix_ms := expires_at_unix_ms |}]> (pn_sessions next)));;
  mret {| rs_scope := ss_scope stored; rs_resume_token := rotated_resume_token |}.
End sessions.
