(* ===== verification/SessionSafety.v ===== *)
(** * Sessions survive restarts and their tokens are single-use

    The effect of every operation of the session registry on the memory and
    the file, and the theorems on creating and resuming sessions. *)

From S2P Require Import Prelude Core Bytes Paths AgentApi Daemon JobStore JobStoreInv JobStoreOps Sessions.

(** ** Tokens *)

Lemma hex_of_spec bytes :
  slen (hex_of bytes) = 2 * len bytes ∧
  Forall (λ b, is_ascii_hexdigit b = true ∧ is_ascii_alphanumeric b = true) (sbytes (hex_of bytes)).
Proof.
  unfold hex_of. induction bytes as [|b bytes IH]; [done|]. cbn [map].
  destruct (hex_digits_spec 2 (byte_val b)) as (Hl & _ & Hd). rewrite len_cons.
  destruct bytes as [|b' bytes].
  - cbn [map String.concat]. split; [rewrite Hl; unfold len; cbn; lia|done].
  - cbn [map] in IH |- *. destruct IH as [IHl IHd].
    change (String.concat "" (hex_digits 2 (byte_val b) :: hex_digits 2 (byte_val b') :: map (λ b, hex_digits 2 (byte_val b)) bytes))
      with (hex_digits 2 (byte_val b) ++ ("" ++ String.concat "" (hex_digits 2 (byte_val b') :: map (λ b, hex_digits 2 (byte_val b)) bytes)))%string.
    rewrite !slen_app, IHl, Hl, !sbytes_app. split; [change (slen "") with 0; lia|].
    apply Forall_app. split; [done|]. exact IHd.
Qed.

Lemma session_id_valid bytes : len bytes = 16 → SessionId_new ("session-" ++ hex_of bytes) = Ok ("session-" ++ hex_of bytes)%string.
Proof.
  intros Hb. destruct (hex_of_spec bytes) as [Hl Hd]. rewrite Hb in Hl.
  unfold SessionId_new, validated_id. rewrite slen_app, Hl. change (slen "session-") with 8. cbn [orb].
  rewrite (proj2 (N.ltb_ge _ _)) by lia. rewrite (proj2 (N.ltb_ge _ _)) by lia. cbn [orb].
  change (String.prefix "session-" ("session-" ++ hex_of bytes)) with (String.prefix "" (hex_of bytes)).
  assert (String.prefix "" (hex_of bytes) = true) as -> by by destruct (hex_of bytes). cbn [negb orb].
  assert (forallb (λ b, is_ascii_alphanumeric b || (b =? 45)) (sbytes ("session-" ++ hex_of bytes)) = true) as ->; [|done].
  apply forallb_forall. intros b Hin. rewrite sbytes_app in Hin. apply in_app_iff in Hin as [Hin|Hin].
  - cbn in Hin. repeat (destruct Hin as [<-|Hin]; [done|]). done.
  - rewrite Forall_forall in Hd. apply list_elem_of_In in Hin. by destruct (Hd b Hin) as [_ ->].
Qed.

Lemma lor_zero a b : N.lor a b = 0 ↔ a = 0 ∧ b = 0.
Proof. apply N.lor_eq_0_iff. Qed.

Lemma constant_time_fold pairs d :
  fold_left (λ difference '(l, r), N.lor difference (N.lxor (byte_val l) (byte_val r))) pairs d = 0 ↔
  d = 0 ∧ Forall (λ '(l, r), l = r) pairs.
Proof.
  revert d. induction pairs as [|[l r] pairs IH]; intros d; cbn [fold_left].
  { split; [by intros ->|by intros [-> _]]. }
  rewrite IH, lor_zero, N.lxor_eq_0_iff, Forall_cons. split.
  - intros [[? Hv] ?]. split; [done|]. split; [|done]. by apply byte_val_inj.
  - intros (? & -> & ?). done.
Qed.

(** The comparison without early exit decides equality. *)
Lemma constant_time_equal_iff left right : constant_time_equal left right = true ↔ left = right.
Proof.
  unfold constant_time_equal. rewrite andb_true_iff, N.eqb_eq, N.eqb_eq, constant_time_fold. unfold len. split.
  - intros [Hl [_ Hf]]. apply Nat2N.inj in Hl. revert right Hl Hf.
    induction left as [|l left IH]; intros [|r right] Hl Hf; try done. cbn in Hf. apply Forall_cons in Hf as [-> Hf].
    f_equal. apply IH; [by injection Hl|done].
  - intros ->. split; [done|]. split; [done|]. induction right; [constructor|]. cbn. by constructor.
Qed.

Class SessionJsonLaws `{SessionJson} : Prop :=
  session_roundtrip : ∀ state bytes, session_to_vec state = Some bytes → session_from_slice bytes = Some state.

(** The generator fills the buffer and does not touch the file. *)
Class RngLaws (W : Type) `{Disk W} `{Rng W} (path : PathBuf) `{!DiskLaws W path} : Prop := {
  rng_length n (w : W) : len (rng_fill n w).1 = n;
  rng_contents n w : contents path (rng_fill n w).2 = contents path w;
}.

Section sessions.
Context {W : Type} `{Disk W} `{Rng W} `{SessionJson} `{!SessionJsonLaws} `{Blake3}.
Context (path : PathBuf) `{!DiskLaws W path} `{!RngLaws W path}.

(** Opening the file gives the sessions in memory. *)
Record durable (r : SessionRegistry) (w : W) : Prop := {
  durable_path : sr_path r = path;
  durable_schema : pn_schema_version (sr_state r) = SESSION_SCHEMA_VERSION;
  durable_size : N.of_nat (size (pn_sessions (sr_state r))) <= MAX_SESSIONS;
  durable_file : match contents path w with
    | None => pn_sessions (sr_state r) = ∅
    | Some bytes => session_from_slice bytes = Some (sr_state r)
    end;
}.

Lemma session_publish_contents bytes w res w' :
  session_publish path bytes w = (res, w') →
  match res with Ok _ => contents path w' = Some bytes | Err _ => contents path w' = contents path w end.
Proof.
  unfold session_publish, mbind, D_bind, d_call.
  pose proof (disk_create_contents (parent_or_dot path) w) as H1'.
  destruct (disk_create_dir_all (parent_or_dot path) w) as [[[]|] w1]; cbn in H1'; [|by intros [= <- <-]].
  pose proof (disk_temporary_contents (parent_or_dot path) w1) as H2'.
  destruct (disk_new_temporary (parent_or_dot path) w1) as [[[]|] w2]; cbn in H2'; [|intros [= <- <-]; congruence].
  pose proof (disk_write_contents bytes w2) as H3'.
  destruct (disk_write_all bytes w2) as [[[]|] w3]; cbn in H3'; [|intros [= <- <-]; congruence].
  pose proof (disk_flush_contents w3) as H4'.
  destruct (disk_flush w3) as [[[]|] w4]; cbn in H4'; [|intros [= <- <-]; congruence].
  pose proof (disk_sync_all_contents w4) as H5'.
  destruct (disk_sync_all w4) as [[[]|] w5]; cbn in H5'; [|intros [= <- <-]; congruence].
  pose proof (disk_persist_Some bytes w5) as H6'. pose proof (disk_persist_None bytes w5) as H7'.
  destruct (disk_persist bytes path w5) as [[[]|] w6]; cbn in H6', H7'; intros [= <- <-]; [auto|].
  rewrite H7' by done. congruence.
Qed.

(** Computations whose only errors are internal. *)
Definition internal_errors {A} (m : D W A) : Prop := ∀ w e w', m w = (Err e, w') → ∃ message, e = internal message.
Lemma internal_bind {A B} (m : D W A) (f : A → D W B) :
  internal_errors m → (∀ a, internal_errors (f a)) → internal_errors (m ≫= f).
Proof.
  intros Hm Hf w e w'. unfold mbind, D_bind. destruct (m w) as [[a|e1] w1] eqn:E1; [apply Hf|].
  intros [= <- <-]. by eapply Hm.
Qed.
Lemma internal_call {A} message (call : W → option A * W) : internal_errors (d_call (internal message) call).
Proof. intros w e w'. unfold d_call. destruct (call w) as [[a|] w1]; intros [=]; subst. by eexists. Qed.
Lemma publish_internal p bytes : internal_errors (session_publish p bytes).
Proof. unfold session_publish. repeat (apply internal_bind; [apply internal_call|intros ?]). by intros w e w' [=]. Qed.

(** A commit replaces the state in memory and on disk, or neither; the errors
    are those of the disk and of the size. *)
Definition commit_error (e : JsonRpcError) : Prop :=
  e = JsonRpcError_resource_limit "session registry is full" ∨ ∃ message, e = internal message.

Lemma commit_effect next r w res r' w' :
  sr_path r = path → SessionRegistry_commit next (r, w) = (res, (r', w')) →
  match res with
  | Ok _ => True
  | Err e => commit_error e
  end ∧
  ((r' = r ∧ contents path w' = contents path w ∧ res ≠ Ok tt) ∨
   (r' = {| sr_path := path; sr_state := next |} ∧
    ∃ bytes, session_to_vec next = Some bytes ∧ contents path w' = Some bytes)).
Proof.
  intros Hp. unfold SessionRegistry_commit, d_lift, mbind, D_bind. destruct (session_to_vec next) as [bytes|] eqn:Hv; cbn [ok_or].
  2: { intros [= <- <- <-]. split; [right; by eexists|by left]. }
  destruct (MAX_SESSION_STORE_BYTES <? len bytes); [intros [= <- <- <-]; split; [by left|by left]|].
  unfold sessions, d_second, set_sessions. cbn [fst]. rewrite Hp.
  destruct (session_publish path bytes w) as [res1 w1] eqn:Hpub. apply session_publish_contents in Hpub as Hc.
  destruct res1 as [parent|e].
  - rewrite Hp. unfold session_sync_parent, d_call. pose proof (disk_sync_dir_contents parent w1) as Hs.
    destruct (disk_sync_dir parent w1) as [[[]|] w2]; intros [= <- <- <-]; cbn in Hs.
    + split; [done|]. right. split; [done|]. exists bytes. split; [done|congruence].
    + split; [right; by eexists|]. right. split; [done|]. exists bytes. split; [done|congruence].
  - intros [= <- <- <-]. split; [|by left].
    right. revert Hpub. apply publish_internal.
Qed.

Lemma commit_durable next r w res r' w' :
  durable r w → pn_schema_version next = SESSION_SCHEMA_VERSION →
  N.of_nat (size (pn_sessions next)) <= MAX_SESSIONS →
  SessionRegistry_commit next (r, w) = (res, (r', w')) → durable r' w'.
Proof.
  intros [Hp Hs Hz Hf] Hs' Hz' Hc.
  destruct (commit_effect _ _ _ _ _ _ Hp Hc) as [_ [(-> & Hw & _)|(-> & bytes & Hv & Hw)]].
  - split; [done..|]. by rewrite Hw.
  - split; [done..|]. rewrite Hw. cbn. by apply session_roundtrip.
Qed.

Lemma random_hex_run n w : ∃ bytes w', random_hex n w = (Ok (hex_of bytes), w') ∧ len bytes = n ∧
  contents path w' = contents path w ∧ (bytes, w') = rng_fill n w.
Proof.
  unfold random_hex. pose proof (rng_length (path := path) n w) as Hl. pose proof (rng_contents (path := path) n w) as Hc.
  destruct (rng_fill n w) as [bytes w']. by exists bytes, w'.
Qed.

(** A drawn session is new, and its token is 32 bytes in hexadecimal. *)
Lemma draw_session_run attempts next w res w' :
  draw_session attempts next w = (res, w') →
  contents path w' = contents path w ∧
  match res with
  | Ok (id, token) => pn_sessions next !! id = None ∧ ∃ bytes, token = hex_of bytes ∧ len bytes = 32
  | Err e => e = internal "model: out of fuel"
  end.
Proof.
  revert w. induction attempts as [|attempts IH]; intros w; cbn [draw_session]; [by intros [= <- <-]|].
  unfold mbind at 1, D_bind at 1. destruct (random_hex_run 16 w) as (bytes & w1 & -> & Hl & Hc & _).
  unfold d_lift, mbind at 1, D_bind at 1. rewrite session_id_valid by done.
  destruct (pn_sessions next !! _) eqn:Hn.
  - intros Hd. apply IH in Hd as [Hc' Hd]. split; [congruence|done].
  - unfold mbind, D_bind. destruct (random_hex_run 32 w1) as (bytes' & w2 & -> & Hl' & Hc' & _).
    intros [= <- <-]. split; [congruence|]. split; [done|]. by exists bytes'.
Qed.

(** ** The operations *)

Definition stored_with (token : string) (scope : PathScope) (expires : N) : StoredSession :=
  {| ss_resume_token_hash := blake3 (token_bytes token); ss_scope := scope; ss_expires_at_unix_ms := expires |}.
Definition live (now : N) (state : PersistentSessions) : gmap string StoredSession :=
  filter (λ entry, now < ss_expires_at_unix_ms entry.2) (pn_sessions state).
Definition sessions_of (r : SessionRegistry) : gmap string StoredSession := pn_sessions (sr_state r).

Lemma create_effect attempts scope now expires r w res r' w' :
  durable r w → SessionRegistry_create attempts scope now expires (r, w) = (res, (r', w')) →
  durable r' w' ∧
  ((r' = r ∧ contents path w' = contents path w ∧ is_ok res = false) ∨
   ∃ id bytes, len bytes = 32 ∧ live now (sr_state r) !! id = None ∧ now < expires ∧
     sessions_of r' = <[id := stored_with (hex_of bytes) scope expires]> (live now (sr_state r)) ∧
     match res with
     | Ok created => created = {| cs_session_id := id; cs_resume_token := hex_of bytes |}
     | Err e => commit_error e
     end).
Proof.
  intros Hd. unfold SessionRegistry_create, d_lift, validate_expiry. unfold mbind at 1, D_bind at 1.
  destruct (N.leb_spec expires now) as [Hx|Hx]; [intros [= <- <- <-]; split; [done|by left]|].
  unfold sessions. unfold mbind at 1, D_bind at 1. cbn [fst]. fold (live now (sr_state r)).
  destruct (N.leb_spec MAX_SESSIONS (N.of_nat (size (pn_sessions (with_sessions (sr_state r) (live now (sr_state r)))))))
    as [Hz|Hz]; [intros [= <- <- <-]; split; [done|by left]|]. cbn [with_sessions pn_sessions] in Hz.
  unfold d_second at 1. unfold mbind at 1, D_bind at 1.
  destruct (draw_session attempts _ w) as [res1 w1] eqn:Hdraw. apply draw_session_run in Hdraw as [Hw1 Hdraw].
  destruct res1 as [[id token]|e].
  2: { intros [= <- <- <-]. split; [|by left]. destruct Hd. split; [done..|]. by rewrite Hw1. }
  destruct Hdraw as (Hid & bytes & -> & Hlen). cbn [with_sessions pn_sessions] in Hid.
  assert (Hd1 : durable r w1) by (destruct Hd; split; [done..|by rewrite Hw1]).
  unfold mbind, D_bind. fold (stored_with (hex_of bytes) scope expires).
  destruct (SessionRegistry_commit _ (r, w1)) as [res2 [r2 w2]] eqn:Hc.
  assert (Hd2 : durable r2 w2).
  { eapply commit_durable; [exact Hd1| | |exact Hc]; [by apply Hd|]. cbn. rewrite map_size_insert_None by done. lia. }
  destruct (commit_effect _ _ _ _ _ _ (durable_path _ _ Hd1) Hc) as [He Heff].
  destruct res2 as [[]|e]; intros [= <- <- <-]; (split; [done|]);
    destruct Heff as [(-> & Hw2 & Hno)|(-> & _)].
  - done.
  - right. by exists id, bytes.
  - left. split; [done|]. split; [congruence|done].
  - right. by exists id, bytes.
Qed.

(** The token opens the session. *)
Definition accepts (r : SessionRegistry) (id : SessionId) (token : string) (now : N) (stored : StoredSession) : Prop :=
  slen token = 64 ∧ Forall (λ b, is_ascii_hexdigit b = true) (sbytes token) ∧
  sessions_of r !! id = Some stored ∧ now < ss_expires_at_unix_ms stored ∧
  ss_resume_token_hash stored = blake3 (token_bytes token).

Lemma resume_effect id token now expires r w res r' w' :
  durable r w → SessionRegistry_resume id token now expires (r, w) = (res, (r', w')) →
  durable r' w' ∧
  ((∃ stored bytes, accepts r id token now stored ∧ now < expires ∧ len bytes = 32 ∧
     match res with
     | Ok resumed => resumed = {| rs_scope := ss_scope stored; rs_resume_token := hex_of bytes |} ∧
         sessions_of r' = <[id := stored_with (hex_of bytes) (ss_scope stored) expires]> (sessions_of r)
     | Err e => commit_error e ∧
         (sessions_of r' = sessions_of r ∨
          sessions_of r' = <[id := stored_with (hex_of bytes) (ss_scope stored) expires]> (sessions_of r))
     end) ∨
   ((now < expires → ∀ stored, ¬ accepts r id token now stored) ∧ is_ok res = false ∧
    (sessions_of r' = sessions_of r ∨
     ∃ stored, sessions_of r !! id = Some stored ∧ ss_expires_at_unix_ms stored <= now ∧
       sessions_of r' = delete id (sessions_of r)))).
Proof.
  intros Hd. unfold SessionRegistry_resume, d_lift, validate_expiry. unfold mbind at 1, D_bind at 1.
  destruct (N.leb_spec expires now) as [Hx|Hx].
  { intros [= <- <- <-]. split; [done|]. right. split; [lia|]. split; [done|by left]. }
  destruct (N.eqb_spec (slen token) 64) as [Hlen|Hlen]; cbn [negb orb].
  2: { intros [= <- <- <-]. split; [done|]. right. split; [by intros _ ? (? & _)|]. split; [done|by left]. }
  destruct (forallb is_ascii_hexdigit (sbytes token)) eqn:Hhex; cbn [negb].
  2: { intros [= <- <- <-]. split; [done|]. right. split; [|split; [done|by left]]. intros _ ? (_ & Hf & _).
       apply not_true_iff_false in Hhex. apply Hhex, forallb_forall. rewrite Forall_forall in Hf.
       intros b Hb. apply Hf. by apply list_elem_of_In. }
  assert (Hhex' : Forall (λ b, is_ascii_hexdigit b = true) (sbytes token)).
  { apply Forall_forall. intros b Hb. rewrite forallb_forall in Hhex. apply Hhex. by apply list_elem_of_In. }
  unfold sessions. unfold mbind at 1, D_bind at 1. cbn [fst]. unfold mbind at 1, D_bind at 1.
  destruct (pn_sessions (sr_state r) !! id) as [stored|] eqn:Hst; cbn [ok_or].
  2: { intros [= <- <- <-]. split; [done|]. right. split; [|split; [done|by left]].
       intros _ ? (_ & _ & Hs & _). unfold sessions_of in Hs. congruence. }
  destruct (N.leb_spec (ss_expires_at_unix_ms stored) now) as [He|He].
  - unfold mbind, D_bind. destruct (SessionRegistry_commit _ (r, w)) as [res2 [r2 w2]] eqn:Hc.
    assert (Hd2 : durable r2 w2).
    { eapply commit_durable; [exact Hd| | |exact Hc]; [by apply Hd|]. cbn. pose proof (durable_size _ _ Hd).
      rewrite map_size_delete, Hst. lia. }
    destruct (commit_effect _ _ _ _ _ _ (durable_path _ _ Hd) Hc) as [_ Heff].
    intros Hres. assert (is_ok res = false ∧ r' = r2 ∧ w' = w2) as (Hno & -> & ->).
    { destruct res2 as [[]|e]; by injection Hres as <- <- <-. }
    split; [done|]. right. split.
    { intros _ s (_ & _ & Hs & Hn & _). unfold sessions_of in Hs. rewrite Hst in Hs. injection Hs as <-. lia. }
    split; [done|]. destruct Heff as [(-> & _)|(-> & _)]; [by left|right]. by exists stored.
  - destruct (constant_time_equal _ _) eqn:Heq; cbn [negb].
    2: { intros [= <- <- <-]. split; [done|]. right. split; [|split; [done|by left]].
         intros _ s (_ & _ & Hs & _ & Hh). unfold sessions_of in Hs. rewrite Hst in Hs. injection Hs as <-.
         apply not_true_iff_false in Heq. by apply Heq, constant_time_equal_iff. }
    apply constant_time_equal_iff in Heq. unfold d_second at 1. unfold mbind at 1, D_bind at 1.
    destruct (random_hex_run 32 w) as (bytes & w1 & -> & Hl & Hw1 & _).
    assert (Hd1 : durable r w1) by (destruct Hd; split; [done..|by rewrite Hw1]).
    unfold mbind, D_bind. fold (stored_with (hex_of bytes) (ss_scope stored) expires).
    destruct (SessionRegistry_commit _ (r, w1)) as [res2 [r2 w2]] eqn:Hc.
    assert (Hd2 : durable r2 w2).
    { eapply commit_durable; [exact Hd1| | |exact Hc]; [by apply Hd|]. cbn. pose proof (durable_size _ _ Hd).
      by erewrite map_size_insert_Some. }
    destruct (commit_effect _ _ _ _ _ _ (durable_path _ _ Hd1) Hc) as [Hce Heff].
    intros Hres. assert (r' = r2 ∧ w' = w2) as [-> ->] by (destruct res2 as [[]|e]; by injection Hres as <- <- <-).
    split; [done|]. left. exists stored, bytes. split; [by split_and!|]. split; [done|]. split; [done|].
    destruct res2 as [[]|e]; injection Hres as <-.
    + split; [done|]. destruct Heff as [(_ & _ & Hno)|(-> & _)]; done.
    + split; [done|]. destruct Heff as [(-> & _)|(-> & _)]; [by left|by right].
Qed.

(** ** Opening *)

Lemma open_effect w r w' :
  SessionRegistry_open path w = (Ok r, w') →
  durable r w' ∧ contents path w' = contents path w ∧ ∀ r0, durable r0 w → sr_state r = sr_state r0.
Proof.
  unfold SessionRegistry_open. intros (state & w1 & Hload & Hr)%D_bind_Ok.
  destruct (N.eqb_spec (pn_schema_version state) SESSION_SCHEMA_VERSION) as [Hs|]; [|done]. injection Hr as <- <-.
  revert Hload. unfold load_state. pose proof (disk_open_contents (path := path) w) as H1'.
  pose proof (disk_open_NotFound (path := path) w) as H2'.
  destruct (disk_open path w) as [[u|[]] w2]; cbn in H1', H2'; try done.
  - intros (length & w3 & Hlen & Hl)%D_bind_Ok.
    assert (Hw3 : contents path w3 = contents path w2).
    { revert Hlen. unfold d_call. pose proof (disk_len_contents (path := path) w2) as Hc.
      destruct (disk_len path w2) as [[n|] w3']; by intros [= _ <-]. }
    destruct (MAX_SESSION_STORE_BYTES <? length); [done|]. apply D_bind_Ok in Hl as (bytes & w4 & Hread & Hl).
    assert (Hw4 : contents path w4 = contents path w3 ∧ contents path w3 = Some bytes).
    { revert Hread. unfold d_call. pose proof (disk_read_contents (path := path) w3) as Hc.
      pose proof (disk_read_Some (path := path) w3) as Hb.
      destruct (disk_read_to_end path w3) as [[b|] w4']; [|done]. intros [= -> <-]. split; [done|by apply Hb]. }
    destruct Hw4 as [Hw4 Hb]. apply D_bind_Ok in Hl as (st & w5 & Hst & Hl).
    unfold d_lift in Hst. injection Hst as Hst <-. apply ok_or_Ok in Hst.
    destruct (N.ltb_spec MAX_SESSIONS (N.of_nat (size (pn_sessions st)))) as [|Hz]; [done|]. injection Hl as -> <-.
    split; [|split].
    + split; [done|done|done|]. by rewrite Hw4, Hb.
    + congruence.
    + intros r0 [_ _ _ Hf]. rewrite <-H1', <-Hw3, Hb in Hf. cbn. congruence.
  - intros [= <- <-]. specialize (H2' eq_refl). split; [|split; [done|]].
    + split; [done|done|by vm_compute|]. by rewrite H1', H2'.
    + intros r0 [_ Hv _ Hf]. rewrite H2' in Hf. destruct (sr_state r0) as [v m]. cbn in *. by subst.
Qed.

(** Any creation or resumption, whatever it returns. *)
Definition session_step (s s' : SessionRegistry * W) : Prop :=
  (∃ attempts scope now expires, s' = (SessionRegistry_create attempts scope now expires s).2) ∨
  (∃ id token now expires, s' = (SessionRegistry_resume id token now expires s).2).

Lemma steps_durable s s' : rtc session_step s s' → durable s.1 s.2 → durable s'.1 s'.2.
Proof.
  induction 1 as [s|s [r1 w1] s' Hstep _ IH]; [done|]. intros Hd. apply IH. destruct s as [r w].
  destruct Hstep as [(a & b & c & d & He)|(a & b & c & d & He)].
  - destruct (SessionRegistry_create a b c d (r, w)) as [res [r2 w2]] eqn:Hr. cbn in He. injection He as -> ->.
    by apply create_effect in Hr as [? _].
  - destruct (SessionRegistry_resume a b c d (r, w)) as [res [r2 w2]] eqn:Hr. cbn in He. injection He as -> ->.
    by apply resume_effect in Hr as [? _].
Qed.
End sessions.

(** C35: after the registry of sessions was opened, and any sequence of
    creations and resumptions (that returned or failed, on any disk), opening
    its file again yields the sessions in memory, and there are never more than
    the maximum. *)
Theorem sessions_survive_restart {W : Type} `{Hdisk : Disk W} `{Hrng : Rng W} `{Hjson : SessionJson}
    `{Hjsonlaws : !SessionJsonLaws} `{Hblake : Blake3} (path : PathBuf) `{Hdisklaws : !DiskLaws W path}
    `{Hrnglaws : !RngLaws W path} w0 r0 w1 r w :
  SessionRegistry_open path w0 = (Ok r0, w1) → rtc session_step (r0, w1) (r, w) →
  N.of_nat (size (sessions_of r)) <= MAX_SESSIONS ∧
  ∀ r2 w2, SessionRegistry_open path w = (Ok r2, w2) → sr_state r2 = sr_state r.
Proof.
  intros Hopen Hsteps. destruct (open_effect path _ _ _ Hopen) as (Hd & _ & _). pose proof (steps_durable path _ _ Hsteps Hd) as Hd'. cbn in Hd'.
  split; [apply Hd'|]. intros r2 w2 Hopen2. destruct (open_effect path _ _ _ Hopen2) as (_ & _ & Hsame). by apply Hsame.
Qed.

(** C34: a session is resumed exactly by its current token before it expires.
    A resumption that returns was accepted: the session is there and has not
    expired, and the token's hash is the stored one; it returns the stored
    scope and a new token of 64 hexadecimal digits, and changes only this
    session, so that the old token is no longer accepted (unless its hash is
    that of the new one).  A resumption that should be accepted fails only
    because the registry could not be written.  A session that was created is
    accepted with the token that was returned until it expires. *)
Theorem session_tokens_correct {W : Type} `{Hdisk : Disk W} `{Hrng : Rng W} `{Hjson : SessionJson}
    `{Hjsonlaws : !SessionJsonLaws} `{Hblake : Blake3} (path : PathBuf) `{Hdisklaws : !DiskLaws W path}
    `{Hrnglaws : !RngLaws W path} r (w : W) :
  durable path r w →
  (∀ id token now expires res r' w',
    SessionRegistry_resume id token now expires (r, w) = (res, (r', w')) →
    match res with
    | Ok resumed => ∃ stored, accepts r id token now stored ∧ rs_scope resumed = ss_scope stored ∧
        slen (rs_resume_token resumed) = 64 ∧
        sessions_of r' = <[id := stored_with (rs_resume_token resumed) (ss_scope stored) expires]> (sessions_of r) ∧
        ∀ later stored', accepts r' id token later stored' →
          blake3 (token_bytes token) = blake3 (token_bytes (rs_resume_token resumed))
    | Err e => now < expires → (∃ stored, accepts r id token now stored) → commit_error e
    end) ∧
  (∀ attempts scope now expires created r' w',
    SessionRegistry_create attempts scope now expires (r, w) = (Ok created, (r', w')) →
    live now (sr_state r) !! cs_session_id created = None ∧
    ∀ later, later < expires →
      accepts r' (cs_session_id created) (cs_resume_token created) later
        (stored_with (cs_resume_token created) scope expires)).
Proof.
  intros Hd. split.
  - intros id token now expires res r' w' Hrun. destruct (resume_effect path _ _ _ _ _ _ _ _ _ Hd Hrun) as [_ Hr].
    destruct Hr as [(stored & bytes & Ha & Hx & Hl & Hr)|(Hno & Hf & _)].
    + destruct res as [resumed|e]; [|by intros; apply Hr]. destruct Hr as [-> Hs]. exists stored. cbn.
      split; [done|]. split; [done|]. split; [destruct (hex_of_spec bytes) as [-> _]; lia|]. split; [done|].
      intros later stored' (_ & _ & Hl' & _ & Hh). rewrite Hs, lookup_insert_eq in Hl'. by injection Hl' as <-.
    + destruct res as [resumed|e]; [done|]. intros Hx [stored Ha]. by destruct (Hno Hx stored).
  - intros attempts scope now expires created r' w' Hrun.
    destruct (create_effect path _ _ _ _ _ _ _ _ _ Hd Hrun) as [_ Hr].
    destruct Hr as [(_ & _ & ?)|(id & bytes & Hl & Hid & Hx & Hs & ->)]; [done|]. cbn. split; [done|].
    intros later Hlater. destruct (hex_of_spec bytes) as [Hlen Hhex]. split; [lia|]. split; [|split; [|by split]].
    + eapply Forall_impl; [exact Hhex|]. by intros b [? _].
    + by rewrite Hs, lookup_insert_eq.
Qed.
