(* ===== verification/JobStoreSteps.v ===== *)
(** * Histories of the job store

    The mutations as requests, the registry as a state machine over them, and
    what every step does: it changes jobs only along the edges of their state
    machine and publishes what it changed, or it changes nothing. *)

From S2P Require Import Prelude Core Bytes Sorting Orders Paths AgentApi Daemon JobStore JobStoreInv.
From S2P Require Import JobStoreOps.

(** ** JSON

    [serde_json] reads back what it wrote, except that [Some(null)] reads as
    [None] and that floating-point numbers may be rounded. *)

Fixpoint integral (value : Value) : bool :=
  match value with
  | Num (Float _) => false
  | Array values => forallb integral values
  | Object fields => forallb (λ field, integral field.2) fields
  | _ => true
  end.
Definition storable_value (value : Value) : Prop := value ≠ Null ∧ integral value = true.
Definition storable_error (error : JsonRpcError) : Prop := ∀ v, je_data error = Some v → storable_value v.
Definition storable_job (job : StoredJob) : Prop :=
  (∀ v, sj_result job = Some v → storable_value v) ∧ (∀ e, sj_error job = Some e → storable_error e).
Definition storable_state (state : PersistentState) : Prop := map_Forall (λ _ job, storable_job job) (ps_jobs state).

Class StoreJsonLaws `{StoreJson} : Prop :=
  store_json_inverse state bytes :
    store_to_vec state = Some bytes → storable_state state → store_from_slice bytes = Some state.

(** ** Requests *)

Inductive request :=
  | ReqSubmit (submission : JobSubmission) (max_nonterminal : N)
  | ReqTransition (owner : SessionId) (job_id : JobId) (state : ApiJobState) (phase : string)
  | ReqCancel (owner : SessionId) (job_id : JobId)
  | ReqFinishCancelled (owner : SessionId) (job_id : JobId)
  | ReqComplete (owner : SessionId) (job_id : JobId) (result : Value)
  | ReqFail (owner : SessionId) (job_id : JobId) (error : JsonRpcError)
  | ReqPublication (owner : SessionId) (job_id : JobId) (output : PathBuf) (identity : ArchiveIdentity)
  | ReqExpire (owner : SessionId) (job_id : JobId)
  | ReqClose.

Definition storable_request (req : request) : Prop :=
  match req with
  | ReqComplete _ _ result => storable_value result
  | ReqFail _ _ error => storable_error error
  | _ => True
  end.

Section steps.
Context {W : Type} `{Disk W} `{JobWorld W} `{StoreJson} (path : PathBuf).

Definition void {S A} (m : D S A) : D S unit := m ≫= λ _, mret tt.

Definition handle (req : request) : D (JobRegistry * W) unit :=
  match req with
  | ReqSubmit submission limit => void (submit_with_limit submission limit)
  | ReqTransition owner job_id state phase => transition owner job_id state phase
  | ReqCancel owner job_id => void (request_cancel owner job_id)
  | ReqFinishCancelled owner job_id => finish_cancelled owner job_id
  | ReqComplete owner job_id result => complete owner job_id result
  | ReqFail owner job_id error => fail owner job_id error
  | ReqPublication owner job_id output identity => record_publication owner job_id output identity
  | ReqExpire owner job_id => void (expire_deadline owner job_id)
  | ReqClose => void close_and_cancel_all
  end.

Context `{!DiskLaws W path} `{!JobWorldLaws W path}.

(** A mutation, or anything that happens in the world outside of the file of
    the store. *)
Inductive step : JobRegistry * W → JobRegistry * W → Prop :=
  | step_request req s : storable_request req → step s (handle req s).2
  | step_world r w w' : contents path w' = contents path w → step (r, w) (r, w').

Record state_change (policy : StorePolicy) (state state' : PersistentState) : Prop := {
  sc_jobs : ∀ k job, ps_jobs state !! k = Some job →
    ∃ job', ps_jobs state' !! k = Some job' ∧ job_change (max_events_per_job policy) job job';
  sc_new : ∀ k job', ps_jobs state' !! k = Some job' → ps_jobs state !! k = None →
    k = job_name (ps_next_job state) ∧
    ∃ submission now now', job' = appended (new_job submission k now) "queued" (max_events_per_job policy) now';
  sc_index : ps_idempotency state ⊆ ps_idempotency state';
  sc_next : ps_next_job state <= ps_next_job state';
}.

Inductive step_effect (r : JobRegistry) (w : W) (r' : JobRegistry) (w' : W) : Prop :=
  | effect_none :
      same_registry r r' → jr_state r' = jr_state r → contents path w' = contents path w → step_effect r w r' w'
  | effect_change :
      same_registry r r' → state_change (jr_policy r) (jr_state r) (jr_state r') →
      (jr_closed r = true → dom (ps_jobs (jr_state r')) ⊆ dom (ps_jobs (jr_state r))) →
      published path (jr_state r') r' w' → step_effect r w r' w'.

(** What holds between any two operations. *)
Record registry_inv (r : JobRegistry) : Prop := {
  ri_path : jr_path r = path;
  ri_events : max_events_per_job (jr_policy r) ≠ 0;
  ri_wf : wf_state (jr_policy r) true (jr_state r);
}.

(** No job has too many events, so that trimming changes nothing. *)
Definition bounded (policy : StorePolicy) (jobs : gmap string StoredJob) : Prop :=
  map_Forall (λ _ job, len (sj_events job) <= max_events_per_job policy) jobs.

Lemma trim_bounded policy state : bounded policy (ps_jobs state) → trim_retained_events state policy = (state, false).
Proof.
  intros Hb. unfold trim_retained_events. f_equal.
  - destruct state as [schema next jobs index]. unfold set_jobs. cbn in *. f_equal. apply map_eq. intros k.
    rewrite lookup_fmap. destruct (jobs !! k) as [job|] eqn:Hk; [|done]. cbn. by rewrite trim_short by (eapply Hb, Hk).
  - apply not_true_is_false. rewrite existsb_exists. intros ([k job] & Hin & Ht).
    apply list_elem_of_In, elem_of_map_to_list in Hin. by rewrite trim_short in Ht by (eapply Hb, Hin).
Qed.

Lemma wf_bounded policy state : wf_state policy true state → bounded policy (ps_jobs state).
Proof.
  intros Hwf k job Hk. destruct (ws_jobs _ _ _ Hwf k job Hk) as (_ & Hj & _). by apply (wj_events _ _ _ Hj).
Qed.

Lemma appended_short job phase maximum now : len (sj_events (appended job phase maximum now)) <= maximum.
Proof.
  unfold appended. rewrite trim_spec. cbn. unfold len. rewrite length_drop. lia.
Qed.

Lemma change_short maximum job job' :
  job_change maximum job job' → len (sj_events job) <= maximum → len (sj_events job') <= maximum.
Proof. destruct 1; [done|]. intros _. apply appended_short. Qed.

(** Replacing a job by a changed one. *)
Lemma replace_change policy state k job job' :
  ps_jobs state !! k = Some job → job_change (max_events_per_job policy) job job' →
  state_change policy state (set_jobs state (<[k := job']> (ps_jobs state))).
Proof.
  intros Hk Hc. split; cbn; try done.
  - intros k' j Hj. destruct (decide (k' = k)) as [->|Hne].
    + rewrite lookup_insert_eq. replace j with job by congruence. eauto.
    + rewrite lookup_insert_ne by done. exists j. split; [done|]. constructor.
  - intros k' j Hj Hnone. rewrite lookup_insert_ne in Hj; [congruence|]. intros <-. congruence.
Qed.

Lemma replace_wf policy state k job job' :
  wf_state policy true state → ps_jobs state !! k = Some job → same_job job job' → wf_job policy true job' →
  wf_state policy true (set_jobs state (<[k := job']> (ps_jobs state))).
Proof.
  intros [Hs Hr Hn Hsize Hjobs Hidx] Hk [Hid Hown _ _ Hkey _ _ _ _] Hwf.
  assert (job_key job' = job_key job) as Hjk by (unfold job_key; by rewrite Hown, Hkey).
  split; cbn; try done.
  - intros _. rewrite map_size_insert_Some by eauto. auto.
  - rewrite map_size_insert_Some by eauto. done.
  - intros k' j Hj. apply lookup_insert_Some in Hj as [[<- <-]|[Hne Hj]]; [|by apply Hjobs].
    destruct (Hjobs k job Hk) as (? & _ & ? & ?). rewrite Hjk. split; [congruence|]. done.
  - intros key k' Hi. destruct (Hidx key k' Hi) as (j & Hj & ->). destruct (decide (k' = k)) as [->|Hne].
    + exists job'. rewrite lookup_insert_eq. split; [done|]. rewrite Hjk. congruence.
    + exists j. by rewrite lookup_insert_ne by done.
Qed.

(** ** [update_owned] *)

Inductive update_outcome {A} (owner : SessionId) (job_id : JobId) (update : StoredJob → D W (StoredJob * A))
    (r : JobRegistry) (w : W) : RpcResult A → JobRegistry → W → Prop :=
  | update_unhealthy :
      jr_healthy r = false →
      update_outcome owner job_id update r w (Err (internal "job registry storage is unhealthy")) r w
  | update_not_owned :
      owned_job (jr_state r) owner job_id = Err job_not_found →
      update_outcome owner job_id update r w (Err job_not_found) r w
  | update_rejected job e w1 :
      owned_job (jr_state r) owner job_id = Ok job → update job w = (Err e, w1) →
      update_outcome owner job_id update r w (Err e) r w1
  | update_committed job job' a w1 u r' w' :
      owned_job (jr_state r) owner job_id = Ok job → update job w = (Ok (job', a), w1) →
      commit (set_jobs (jr_state r) (<[job_id := job']> (ps_jobs (jr_state r)))) (r, w1) = (u, (r', w')) →
      commit_effect path (trim_retained_events (set_jobs (jr_state r) (<[job_id := job']> (ps_jobs (jr_state r))))
        (jr_policy r)).1 r w1 u r' w' →
      update_outcome owner job_id update r w (u;; Ok a) r' w'.

Lemma owned_job_Ok state owner job_id job :
  owned_job state owner job_id = Ok job ↔ ps_jobs state !! job_id = Some job ∧ sj_owner job = owner.
Proof.
  unfold owned_job. destruct (ps_jobs state !! job_id) as [j|]; [|naive_solver].
  case_bool_decide; naive_solver.
Qed.

Lemma owned_job_Err state owner job_id e : owned_job state owner job_id = Err e → e = job_not_found.
Proof. unfold owned_job. destruct (_ !! _); [case_bool_decide|]; congruence. Qed.

Lemma update_owned_cases {A} owner job_id (update : StoredJob → D W (StoredJob * A)) r w res r' w' :
  jr_path r = path → update_owned owner job_id update (r, w) = (res, (r', w')) →
  update_outcome owner job_id update r w res r' w'.
Proof.
  intros Hp. unfold update_owned, require_healthy, registry, d_lift. unfold mbind, D_bind. cbn [fst].
  destruct (jr_healthy r) eqn:Hh; cbn [negb].
  2: { unfold d_fail. intros [= <- <- <-]. by apply update_unhealthy. }
  change ((mret tt : D (JobRegistry * W) unit) (r, w)) with (@Ok JsonRpcError unit tt, (r, w)). cbn [fst].
  destruct (owned_job (jr_state r) owner job_id) as [job|e] eqn:Ho.
  2: { intros [= <- <- <-]. apply owned_job_Err in Ho as He. subst e. by apply update_not_owned. }
  unfold d_second. destruct (update job w) as [[[job' a]|e] w1] eqn:Hu.
  2: { intros [= <- <- <-]. by eapply update_rejected. }
  destruct (commit _ (r, w1)) as [u [r1 w2]] eqn:Hcm. pose proof Hcm as Hc. apply (commit_effects path) in Hc; [|done].
  intros Hres. assert ((res, (r', w')) = ((u;; Ok a), (r1, w2))) as [= -> -> ->] by (rewrite <-Hres; by destruct u as [[]|]).
  by eapply update_committed.
Qed.

Lemma commit_step policy next r w0 w u r' w' :
  registry_inv r → jr_policy r = policy → state_change policy (jr_state r) next → bounded policy (ps_jobs next) →
  (jr_closed r = true → dom (ps_jobs next) ⊆ dom (ps_jobs (jr_state r))) → contents path w0 = contents path w →
  commit_effect path (trim_retained_events next policy).1 r w0 u r' w' → step_effect r w r' w'.
Proof.
  intros Hinv <- Hc Hb Hd Hw. rewrite trim_bounded by done. cbn [fst].
  destruct 1 as [w1 Hpub|e w1 Hpub|e w1 Hf].
  - apply effect_change; [done|exact Hc|exact Hd|exact Hpub].
  - apply effect_change; [done|exact Hc|exact Hd|]. destruct Hpub as [? ? ?]. by split.
  - apply effect_none; [done|done|congruence].
Qed.

Lemma update_owned_effect {A} owner job_id (update : StoredJob → D W (StoredJob * A)) r w res r' w' :
  registry_inv r → changes (max_events_per_job (jr_policy r)) update → (∀ job, quiet path (update job)) →
  update_owned owner job_id update (r, w) = (res, (r', w')) → step_effect r w r' w'.
Proof.
  intros Hinv Hc Hq Hu. apply update_owned_cases in Hu; [|apply Hinv]. destruct Hu as [?|?|job e w1 _ Hu|job job' a w1 u r1 w2 Ho Hu _ He].
  - by apply effect_none.
  - by apply effect_none.
  - apply effect_none; [done|done|]. pose proof (Hq job w) as Hw. by rewrite Hu in Hw.
  - apply owned_job_Ok in Ho as [Ho _]. apply Hc in Hu as Hch. pose proof (Hq job w) as Hw. rewrite Hu in Hw.
    eapply commit_step; [exact Hinv|reflexivity| | | |exact Hw|exact He];
      [by eapply replace_change| |intros _; cbn; by rewrite dom_insert_lookup_L by eauto].
    cbn. apply map_Forall_insert_2; [|by apply wf_bounded, Hinv].
    eapply change_short; [exact Hch|]. by eapply wf_bounded; [apply Hinv|].
Qed.

(** ** The operations as steps *)

Lemma transition_quiet maximum state phase job : quiet path (transition_job maximum state phase job).
Proof. unfold transition_job. quiet. Qed.
Lemma cancel_quiet maximum job : quiet path (cancel_job maximum job).
Proof. unfold cancel_job. quiet. Qed.
Lemma finish_quiet maximum job : quiet path (finish_cancelled_job maximum job).
Proof. unfold finish_cancelled_job. quiet. Qed.
Lemma complete_quiet maximum result job : quiet path (complete_job maximum result job).
Proof. unfold complete_job. quiet. Qed.
Lemma fail_quiet maximum error job : quiet path (fail_job maximum error job).
Proof. unfold fail_job. cbn zeta. quiet. Qed.
Lemma record_quiet maximum output identity job : quiet path (record_job maximum output identity job).
Proof. unfold record_job. quiet. Qed.
Lemma expire_quiet maximum job : quiet path (expire_job maximum job).
Proof. unfold expire_job. quiet. Qed.
Lemma close_quiet maximum job : quiet path (close_job maximum job).
Proof. unfold close_job. quiet. Qed.

(** ** Submission *)

Lemma fresh_name policy state :
  wf_state policy true state → ps_next_job state <= u64_MAX → ps_jobs state !! job_name (ps_next_job state) = None.
Proof.
  intros Hwf Hn. destruct (ps_jobs state !! job_name (ps_next_job state)) as [job|] eqn:Hk; [|done]. exfalso.
  destruct (ws_jobs _ _ _ Hwf _ _ Hk) as (_ & _ & _ & n & Hnum & Hlt). rewrite job_name_number in Hnum by done.
  injection Hnum as <-. lia.
Qed.

(** The state that a submission commits. *)
Definition submitted (state : PersistentState) (key : string) (job : StoredJob) : PersistentState := {|
  ps_schema_version := ps_schema_version state; ps_next_job := ps_next_job state + 1;
  ps_jobs := <[job_name (ps_next_job state) := job]> (ps_jobs state);
  ps_idempotency := <[key := job_name (ps_next_job state)]> (ps_idempotency state) |}.

Inductive submit_outcome (submission : JobSubmission) (limit : N) (r : JobRegistry) (w : W) :
    RpcResult JobAccepted → JobRegistry → W → Prop :=
  | submit_refused e w' :
      contents path w' = contents path w → submit_outcome submission limit r w (Err e) r w'
  | submit_replayed job :
      jr_closed r = false → jr_healthy r = true →
      validate_idempotency_key (su_idempotency_key submission) = Ok tt →
      ps_idempotency (jr_state r) !! idempotency_map_key (su_owner submission) (su_idempotency_key submission) =
        Some (sj_job_id job) →
      ps_jobs (jr_state r) !! sj_job_id job = Some job →
      sj_params_hash job = su_params_hash submission → sj_method job = su_method submission →
      sj_priority job = su_priority submission →
      submit_outcome submission limit r w
        (Ok {| ja_job_id := sj_job_id job; ja_state := sj_state job; ja_idempotent_replay := true |}) r w
  | submit_new now now' w1 u r' w' :
      jr_closed r = false → jr_healthy r = true →
      validate_idempotency_key (su_idempotency_key submission) = Ok tt →
      ps_idempotency (jr_state r) !! idempotency_map_key (su_owner submission) (su_idempotency_key submission) = None →
      N.of_nat (size (ps_jobs (jr_state r))) < max_retained_jobs (jr_policy r) →
      N.of_nat (nonterminal_of (su_owner submission) (ps_jobs (jr_state r))) < limit →
      ps_next_job (jr_state r) + 1 <= u64_MAX → contents path w1 = contents path w →
      commit (submitted (jr_state r) (idempotency_map_key (su_owner submission) (su_idempotency_key submission))
        (appended (new_job submission (job_name (ps_next_job (jr_state r))) now) "queued"
          (max_events_per_job (jr_policy r)) now')) (r, w1) = (u, (r', w')) →
      commit_effect path (trim_retained_events (submitted (jr_state r)
        (idempotency_map_key (su_owner submission) (su_idempotency_key submission))
        (appended (new_job submission (job_name (ps_next_job (jr_state r))) now) "queued"
          (max_events_per_job (jr_policy r)) now')) (jr_policy r)).1 r w1 u r' w' →
      submit_outcome submission limit r w
        (u;; Ok {| ja_job_id := job_name (ps_next_job (jr_state r)); ja_state := Queued;
                   ja_idempotent_replay := false |}) r' w'.

Lemma registry_bind {A} (f : JobRegistry → D (JobRegistry * W) A) r w : (registry ≫= f) (r, w) = f r (r, w).
Proof. done. Qed.
Lemma lift_bind {S A B} (x : RpcResult A) (f : A → D S B) s :
  (d_lift x ≫= f) s = match x with Ok v => f v s | Err e => (Err e, s) end.
Proof. by destruct x. Qed.
Lemma second_bind {R A B} (m : D W A) (f : A → D (R * W) B) r w :
  (d_second m ≫= f) (r, w) =
  match m w with (Ok v, w) => f v (r, w) | (Err e, w) => (Err e, (r, w)) end.
Proof. unfold d_second, mbind, D_bind. by destruct (m w) as [[v|e] w']. Qed.
Lemma healthy_bind {A} (f : unit → D (JobRegistry * W) A) r w :
  (require_healthy ≫= f) (r, w) =
  if jr_healthy r then f tt (r, w) else (Err (internal "job registry storage is unhealthy"), (r, w)).
Proof. unfold require_healthy, mbind, D_bind, registry. cbn. by destruct (jr_healthy r). Qed.
Lemma return_bind {A B} (m : D (JobRegistry * W) A) (v : B) s :
  (m ≫= λ _, mret v) s = let '(u, s) := m s in ((u ≫= λ _, Ok v), s).
Proof. unfold mbind, D_bind. by destruct (m s) as [[u|e] s']. Qed.

Lemma submit_cases submission limit r w res r' w' :
  registry_inv r → submit_with_limit submission limit (r, w) = (res, (r', w')) →
  submit_outcome submission limit r w res r' w'.
Proof.
  intros Hinv. unfold submit_with_limit. rewrite registry_bind.
  destruct (jr_closed r) eqn:Hc; [intros [= <- <- <-]; by apply submit_refused|].
  rewrite healthy_bind. destruct (jr_healthy r) eqn:Hh; [|intros [= <- <- <-]; by apply submit_refused].
  rewrite lift_bind. destruct (validate_idempotency_key _) as [[]|e] eqn:Hk; [|intros [= <- <- <-]; by apply submit_refused].
  set (key := idempotency_map_key _ _). destruct (ps_idempotency (jr_state r) !! key) as [id|] eqn:Hi.
  - destruct (ws_index _ _ _ (ri_wf _ Hinv) _ _ Hi) as (job & Hj & _). rewrite Hj, lift_bind. cbn [ok_or].
    destruct (ws_jobs _ _ _ (ri_wf _ Hinv) _ _ Hj) as (-> & _).
    repeat case_bool_decide; cbn [negb orb]; intros [= <- <- <-]; try (by apply submit_refused). by apply submit_replayed.
  - destruct (N.leb_spec (max_retained_jobs (jr_policy r)) (N.of_nat (size (ps_jobs (jr_state r)))));
      [intros [= <- <- <-]; by apply submit_refused|].
    destruct (N.leb_spec limit (N.of_nat (nonterminal_of (su_owner submission) (ps_jobs (jr_state r)))));
      [intros [= <- <- <-]; by apply submit_refused|].
    rewrite lift_bind, job_name_valid, lift_bind.
    destruct (checked_add (ps_next_job (jr_state r)) 1) as [next|] eqn:Hn; [|intros [= <- <- <-]; by apply submit_refused].
    apply checked_add_Some in Hn as [-> Hn]. cbn [ok_or]. rewrite second_bind.
    pose proof (quiet_unix_ms path w) as Hq1. destruct (unix_ms w) as [[now|e] w1]; [|intros [= <- <- <-]; by apply submit_refused].
    rewrite second_bind. cbn [snd] in Hq1.
    destruct (append_event (new_job submission (job_name (ps_next_job (jr_state r))) now) "queued"
      (max_events_per_job (jr_policy r)) w1) as [[job|e] w2] eqn:Ha.
    2: { intros [= <- <- <-]. apply submit_refused.
         pose proof (quiet_append path (new_job submission (job_name (ps_next_job (jr_state r))) now) "queued"
           (max_events_per_job (jr_policy r)) w1) as Hq2. rewrite Ha in Hq2. cbn in Hq2. congruence. }
    pose proof (quiet_append path (new_job submission (job_name (ps_next_job (jr_state r))) now) "queued"
      (max_events_per_job (jr_policy r)) w1) as Hq2. rewrite Ha in Hq2. cbn in Hq2.
    apply append_event_Ok in Ha as (_ & now' & ->). rewrite return_bind.
    destruct (commit _ (r, w2)) as [u [r1 w3]] eqn:Hcm. pose proof Hcm as Hc2. apply (commit_effects path) in Hc2; [|apply Hinv].
    intros [= <- <- <-]. eapply (submit_new _ _ _ _ now now' w2); try done. congruence.
Qed.

Lemma submitted_change policy state key submission now now' :
  wf_state policy true state → ps_next_job state + 1 <= u64_MAX → ps_idempotency state !! key = None →
  state_change policy state (submitted state key
    (appended (new_job submission (job_name (ps_next_job state)) now) "queued" (max_events_per_job policy) now')).
Proof.
  intros Hwf Hn Hi. assert (ps_jobs state !! job_name (ps_next_job state) = None) as Hf by (eapply fresh_name; [done|lia]).
  split; cbn.
  - intros k job Hk. exists job. rewrite lookup_insert_ne by congruence. split; [done|constructor].
  - intros k job' Hk Hnone. apply lookup_insert_Some in Hk as [[<- <-]|[_ Hk]]; [|congruence]. eauto.
  - by apply insert_subseteq.
  - lia.
Qed.

Lemma submit_effect submission limit r w res r' w' :
  registry_inv r → submit_with_limit submission limit (r, w) = (res, (r', w')) → step_effect r w r' w'.
Proof.
  intros Hinv Hs. apply submit_cases in Hs; [|done]. destruct Hs as [e w1 Hq|job ? ? ? ? ? ? ? ?|now now' w1 u r1 w2 ? ? ? ? ? ? ? Hq _ Hc].
  - by apply effect_none.
  - by apply effect_none.
  - eapply commit_step; [exact Hinv|reflexivity| | |congruence|exact Hq|exact Hc].
    + apply submitted_change; [apply Hinv|done|done].
    + cbn. apply map_Forall_insert_2; [apply appended_short|by apply wf_bounded, Hinv].
Qed.

Lemma expire_effect owner job_id r w res r' w' :
  registry_inv r → expire_deadline owner job_id (r, w) = (res, (r', w')) → step_effect r w r' w'.
Proof.
  intros Hinv. unfold expire_deadline. rewrite healthy_bind. destruct (jr_healthy r); [|intros [= <- <- <-]; by apply effect_none].
  rewrite registry_bind, lift_bind. destruct (owned_job (jr_state r) owner job_id) as [job|e] eqn:Ho;
    [|intros [= <- <- <-]; by apply effect_none].
  rewrite second_bind. pose proof (expire_quiet (max_events_per_job (jr_policy r)) job w) as Hq.
  destruct (expire_job (max_events_per_job (jr_policy r)) job w) as [[[job' [cancel changed]]|e] w1] eqn:He; cbn in Hq;
    [|intros [= <- <- <-]; by apply effect_none].
  destruct changed; [|intros [= <- <- <-]; by apply effect_none].
  rewrite return_bind. destruct (commit _ (r, w1)) as [u [r1 w2]] eqn:Hc. apply (commit_effects path) in Hc; [|apply Hinv].
  intros [= <- <- <-]. apply expire_changes in He as Hch. apply owned_job_Ok in Ho as [Ho _].
  eapply commit_step; [exact Hinv|reflexivity| | | |exact Hq|exact Hc];
    [by eapply replace_change| |intros _; cbn; by rewrite dom_insert_lookup_L by eauto].
    cbn. apply map_Forall_insert_2; [|by apply wf_bounded, Hinv].
  eapply change_short; [exact Hch|]. by eapply wf_bounded; [apply Hinv|].
Qed.

(** ** Closing *)

(** The loop changes the jobs it has seen and leaves the others. *)
Lemma close_loop maximum entries jobs affected changed w res w' :
  NoDup (map fst entries) → (∀ k job, (k, job) ∈ entries → jobs !! k = Some job) →
  close_jobs maximum entries jobs affected changed w = (Ok res, w') →
  contents path w' = contents path w ∧
  ∀ k, match jobs !! k, res.1.1 !! k with
       | Some job, Some job' => job_change maximum job job' ∧ (k ∉ map fst entries → job' = job) ∧
           (k ∈ map fst entries → sj_state job' ≠ Queued ∧ sj_state job' ≠ Running)
       | None, None => True
       | _, _ => False
       end.
Proof.
  revert jobs affected changed w; induction entries as [|[k job] entries IH]; intros jobs affected changed w Hnd Hin; cbn [close_jobs].
  { intros [= <- <-]. split; [done|]. intros k. cbn. destruct (jobs !! k); [|done].
    split; [constructor|]. split; [done|]. by intros ?%elem_of_nil. }
  cbn [map fst] in *. apply NoDup_cons in Hnd as [Hk Hnd].
  assert (jobs !! k = Some job) as Hjob by (apply Hin; by left).
  destruct (is_terminal (sj_state job)) eqn:Ht.
  - intros Hr. destruct (IH jobs affected changed w Hnd) as [Hq Hall]; [|exact Hr|].
    { intros k' j Hj. apply Hin. by right. }
    split; [done|]. intros k'. specialize (Hall k'). destruct (jobs !! k') as [j|] eqn:Hj; [|done].
    destruct (res.1.1 !! k') as [j'|]; [|done]. destruct Hall as (Hc & Hother & Hin'). split; [done|]. split.
    + intros Hn. apply Hother. rewrite elem_of_cons in Hn. tauto.
    + intros [->|Hn]%elem_of_cons; [|by apply Hin']. rewrite Hjob in Hj. injection Hj as <-.
      rewrite (Hother Hk). by destruct (sj_state job).
  - intros ([job' job_changed] & w1 & Hc & Hr)%D_bind_Ok.
    pose proof (close_quiet maximum job w) as Hq1. rewrite Hc in Hq1. cbn in Hq1.
    apply close_changes in Hc as Hch.
    assert (sj_state job' ≠ Queued ∧ sj_state job' ≠ Running) as Hdone.
    { unfold close_job in Hc. destruct (sj_state job) eqn:Hst; try (injection Hc as <- <- <-; by rewrite Hst);
        apply D_bind_Ok in Hc as (j & w2 & Ha & [= <- <- <-]); apply append_event_Ok in Ha as (_ & now & ->);
        by rewrite appended_state. }
    destruct (IH (<[k:=job']> jobs) (affected ++ [(sj_owner job, sj_job_id job)]) (changed || job_changed) w1 Hnd) as [Hq Hall]; [|exact Hr|].
    { intros k' j Hj. rewrite lookup_insert_ne; [apply Hin; by right|]. intros <-. apply Hk.
      apply list_elem_of_fmap. by exists (k, j). }
    split; [congruence|]. intros k'. specialize (Hall k'). destruct (decide (k' = k)) as [->|Hne].
    + rewrite lookup_insert_eq in Hall. rewrite Hjob. destruct (res.1.1 !! k) as [j'|]; [|done].
      destruct Hall as (_ & Hother & _). rewrite (Hother Hk). split; [done|]. split; [|done].
      intros Hn. exfalso. apply Hn. by left.
    + rewrite lookup_insert_ne in Hall by done. destruct (jobs !! k') as [j|]; [|done].
      destruct (res.1.1 !! k') as [j'|]; [|done]. destruct Hall as (Hc' & Hother & Hin'). split; [done|].
      rewrite elem_of_cons. split; [intros Hn; apply Hother; tauto|]. intros [?|?]; [done|by apply Hin'].
Qed.

Lemma close_jobs_quiet maximum entries jobs affected changed :
  quiet path (close_jobs maximum entries jobs affected changed).
Proof.
  revert jobs affected changed; induction entries as [|[k job] entries IH]; intros jobs affected changed; cbn [close_jobs].
  { apply quiet_ret. }
  destruct (is_terminal (sj_state job)); [apply IH|]. cbn zeta. apply quiet_bind; [apply close_quiet|]. intros [j b]. apply IH.
Qed.

(** All jobs after the loop. *)
Lemma close_all maximum jobs w jobs' affected changed w' :
  close_jobs maximum (btree_list jobs) jobs [] false w = (Ok (jobs', affected, changed), w') →
  ∀ k, match jobs !! k, jobs' !! k with
       | Some job, Some job' => job_change maximum job job' ∧ sj_state job' ≠ Queued ∧ sj_state job' ≠ Running
       | None, None => True
       | _, _ => False
       end.
Proof.
  intros Hr. apply close_loop in Hr as [_ Hall]; [|apply NoDup_btree_keys|by intros k job ?%elem_of_btree_list].
  intros k. specialize (Hall k). destruct (jobs !! k) as [job|] eqn:Hk; [|done]. cbn in Hall.
  destruct (jobs' !! k) as [job'|]; [|done]. destruct Hall as (Hc & _ & Hd). split; [done|]. apply Hd.
  apply list_elem_of_fmap. exists (k, job). split; [done|]. by apply elem_of_btree_list.
Qed.

Lemma close_change policy state jobs' w affected changed w' :
  close_jobs (max_events_per_job policy) (btree_list (ps_jobs state)) (ps_jobs state) [] false w =
    (Ok (jobs', affected, changed), w') →
  wf_state policy true state →
  state_change policy state (set_jobs state jobs') ∧ bounded policy jobs' ∧ dom jobs' ⊆ dom (ps_jobs state).
Proof.
  intros Hr Hwf. pose proof (close_all _ _ _ _ _ _ _ Hr) as Hall. split; [|split].
  - split; cbn; try done.
    + intros k job Hk. specialize (Hall k). rewrite Hk in Hall. destruct (jobs' !! k) as [job'|]; [|done].
      exists job'. by destruct Hall.
    + intros k job' Hk Hnone. specialize (Hall k). by rewrite Hk, Hnone in Hall.
  - intros k job' Hk. specialize (Hall k). rewrite Hk in Hall. destruct (ps_jobs state !! k) as [job|] eqn:Hj; [|done].
    destruct Hall as [Hc _]. eapply change_short; [exact Hc|]. by eapply wf_bounded.
  - intros k [job' Hk]%elem_of_dom. specialize (Hall k). rewrite Hk in Hall. apply elem_of_dom.
    destruct (ps_jobs state !! k); [by eexists|done].
Qed.

Lemma close_effect r w res r' w' :
  registry_inv r → close_and_cancel_all (r, w) = (res, (r', w')) → step_effect r w r' w'.
Proof.
  intros Hinv. unfold close_and_cancel_all.
  change ((set_registry (λ r, with_closed r true) ≫= ?f) (r, w)) with (f tt (with_closed r true, w)). cbn beta.
  set (r0 := with_closed r true). assert (registry_inv r0) as Hinv0 by (destruct Hinv; by split).
  assert (same_registry r r0) as Hsame by done.
  assert (∀ r' w', step_effect r0 w r' w' → step_effect r w r' w') as Hlift.
  { intros r1 w1 [? ? ?|? ? Hd ?]; [apply effect_none|apply effect_change]; try done; try by etrans. intros _. by apply Hd. }
  rewrite registry_bind, second_bind. pose proof (close_jobs_quiet (max_events_per_job (jr_policy r0))
    (btree_list (ps_jobs (jr_state r0))) (ps_jobs (jr_state r0)) [] false w) as Hq.
  destruct (close_jobs _ _ _ _ _ w) as [[[[jobs' affected] changed]|e] w1] eqn:Hcl; cbn in Hq;
    [|intros [= <- <- <-]; by apply effect_none].
  destruct changed; [|intros [= <- <- <-]; by apply effect_none].
  rewrite return_bind. destruct (commit _ (r0, w1)) as [u [r1 w2]] eqn:Hc. apply (commit_effects path) in Hc; [|apply Hinv0].
  intros [= <- <- <-]. apply Hlift. destruct (close_change _ _ _ _ _ _ _ Hcl) as (Hch & Hb & Hd); [apply Hinv0|].
  eapply commit_step; [exact Hinv0|reflexivity|exact Hch|exact Hb|by intros _|exact Hq|exact Hc].
Qed.

Lemma void_run {S A} (m : D S A) s : (void m s).2 = (m s).2.
Proof. unfold void, mbind, D_bind. by destruct (m s) as [[v|e] s']. Qed.

(** Every request is a change along the edges of the state machine, published
    as a whole, or no change. *)
Lemma handle_effect req r w : registry_inv r → step_effect r w (handle req (r, w)).2.1 (handle req (r, w)).2.2.
Proof.
  intros Hinv.
  assert (∀ A (m : D (JobRegistry * W) A), (∀ res r' w', m (r, w) = (res, (r', w')) → step_effect r w r' w') →
    step_effect r w (m (r, w)).2.1 (m (r, w)).2.2) as Hm.
  { intros A m Hs. destruct (m (r, w)) as [res [r' w']] eqn:Hr. by eapply Hs. }
  destruct req; cbn [handle]; rewrite ?void_run; apply Hm; intros res r' w';
    unfold transition, request_cancel, finish_cancelled, complete, fail, record_publication;
    rewrite ?registry_bind; try (by apply submit_effect); try (by apply expire_effect); try (by apply close_effect);
    intros Hu; (eapply update_owned_effect; [done| | |exact Hu]).
  - apply transition_changes.
  - apply transition_quiet.
  - apply cancel_changes.
  - apply cancel_quiet.
  - apply finish_changes.
  - apply finish_quiet.
  - apply complete_changes.
  - apply complete_quiet.
  - apply fail_changes.
  - apply fail_quiet.
  - apply record_changes.
  - apply record_quiet.
Qed.

Lemma effect_inv r w r' w' : registry_inv r → step_effect r w r' w' → registry_inv r'.
Proof.
  intros [Hp He Hwf] [[Hp' Hpol _ _] Hst _|[Hp' Hpol _ _] _ _ [_ Hpub _]]; split; rewrite ?Hp', ?Hpol, ?Hst; try done.
  by rewrite <-Hpol.
Qed.

(** ** What is stored can be read back *)

Lemma append_stores assigned phase maximum w job' w' :
  append_event assigned phase maximum w = (Ok job', w') → storable_job assigned → storable_job job'.
Proof.
  intros (_ & now & ->)%append_event_Ok Hs. unfold storable_job.
  destruct (appended_result assigned phase maximum now) as (-> & -> & _). exact Hs.
Qed.

Lemma domain_storable kind message : storable_error (JsonRpcError_domain kind message).
Proof. by intros v. Qed.

Lemma limit_storable message : storable_error (JsonRpcError_resource_limit message).
Proof. by intros v. Qed.
Lemma cancelled_storable : storable_error cancelled_error.
Proof. by intros v. Qed.

Lemma outcome_stores job state result error :
  (∀ v, result = Some v → storable_value v) → (∀ e, error = Some e → storable_error e) →
  storable_job (set_outcome job state result error).
Proof. done. Qed.

Definition stores {A} (update : StoredJob → D W (StoredJob * A)) : Prop :=
  ∀ job w job' a w', update job w = (Ok (job', a), w') → storable_job job → storable_job job'.

(** Inverts the run of a closure that appended an event. *)
Ltac stores_event :=
  match goal with
  | |- (_ ≫= _) _ = (Ok _, _) → _ =>
      let j := fresh "j" in let w := fresh "w" in let Ha := fresh "Ha" in
      intros (j & w & Ha & [= <- <- <-])%D_bind_Ok [? ?]; (eapply append_stores; [exact Ha|]);
      apply outcome_stores; intros ? ?; simplify_eq/=; auto using domain_storable, limit_storable, cancelled_storable
  end.

Lemma transition_stores maximum state phase : stores (transition_job maximum state phase).
Proof.
  intros job w job' [] w'. unfold transition_job. destruct (negb _); [done|].
  intros (j1 & w1 & Hj1 & Hr)%D_bind_Ok Hs. apply D_bind_Ok in Hr as (j2 & w2 & Hj2 & [= <- <-]).
  eapply append_stores; [exact Hj2|]. case_bool_decide; [|by injection Hj1 as <- <-].
  by apply D_bind_Ok in Hj1 as (marker & w3 & _ & [= <- <-]).
Qed.

Lemma cancel_stores maximum : stores (cancel_job maximum).
Proof.
  intros job w job' a w'. unfold cancel_job. intros (j & w1 & Ha & [= <- <- <-])%D_bind_Ok [? ?].
  destruct (sj_state job); try discriminate; try (by injection Ha as <- <-);
    (eapply append_stores; [exact Ha|]); apply outcome_stores; intros ? ?; simplify_eq/=; auto using domain_storable, limit_storable, cancelled_storable.
Qed.
Lemma finish_stores maximum : stores (finish_cancelled_job maximum).
Proof. intros job w job' a w'. unfold finish_cancelled_job. destruct (negb _); [done|]. stores_event. Qed.
Lemma complete_stores maximum result : storable_value result → stores (complete_job maximum result).
Proof.
  intros Hv job w job' a w'. unfold complete_job.
  destruct (sj_state job); try discriminate; intros (u & w1 & _ & Hr)%D_bind_Ok; revert Hr; stores_event.
Qed.
Lemma fail_stores maximum error : storable_error error → stores (fail_job maximum error).
Proof. intros He job w job' a w'. unfold fail_job. destruct (is_terminal _); [done|]. cbn zeta. stores_event. Qed.
Lemma record_stores maximum output identity : stores (record_job maximum output identity).
Proof.
  intros job w job' a w'. unfold record_job. destruct (negb _); [done|]. destruct (negb _); [done|].
  destruct (sj_pack_publication job) as [marker|]; [|done]. destruct (negb _); [done|].
  destruct (pm_published_archive marker); [case_bool_decide; [|done]; by intros [= <- <- <-]|].
  intros (j & w1 & Ha & [= <- <- <-])%D_bind_Ok Hs. by eapply append_stores.
Qed.
Lemma expire_stores maximum : stores (expire_job maximum).
Proof.
  intros job w job' a w'. unfold expire_job. destruct (sj_state job); try (by intros [= <- <- <-]); stores_event.
Qed.
Lemma close_stores maximum : stores (close_job maximum).
Proof.
  intros job w job' a w'. unfold close_job. destruct (sj_state job); try (by intros [= <- <- <-]); stores_event.
Qed.

Lemma trim_storable policy state : storable_state state → storable_state (trim_retained_events state policy).1.
Proof.
  intros Hs k job. cbn. rewrite lookup_fmap. destruct (ps_jobs state !! k) as [j|] eqn:Hk; [|done].
  intros [= <-]. rewrite trim_spec. by apply (Hs k j).
Qed.

Lemma commit_storable next r w u r' w' :
  storable_state (jr_state r) → storable_state next → commit_effect path (trim_retained_events next (jr_policy r)).1 r w u r' w' →
  storable_state (jr_state r').
Proof. intros Hr Hn [w1 _|e w1 _|e w1 _]; cbn; [by apply trim_storable..|done]. Qed.

Lemma replace_storable state k job : storable_state state → storable_job job → storable_state (set_jobs state (<[k := job]> (ps_jobs state))).
Proof. intros. by apply map_Forall_insert_2. Qed.

Lemma update_storable {A} owner job_id (update : StoredJob → D W (StoredJob * A)) r w res r' w' :
  jr_path r = path → stores update → storable_state (jr_state r) →
  update_owned owner job_id update (r, w) = (res, (r', w')) → storable_state (jr_state r').
Proof.
  intros Hp Hst Hs Hu. apply update_owned_cases in Hu as [?|?|job e w1 _ Hu|job job' a w1 u r1 w2 Ho Hu _ He]; try done.
  eapply commit_storable; [exact Hs| |exact He]. apply replace_storable; [done|].
  apply owned_job_Ok in Ho as [Ho _]. eapply Hst; [exact Hu|]. by eapply Hs.
Qed.

Lemma close_jobs_storable maximum entries jobs affected changed w res w' :
  Forall (λ e, storable_job e.2) entries → map_Forall (λ _ job, storable_job job) jobs →
  close_jobs maximum entries jobs affected changed w = (Ok res, w') →
  map_Forall (λ _ job, storable_job job) res.1.1.
Proof.
  revert jobs affected changed w; induction entries as [|[k job] entries IH]; intros jobs affected changed w He Hj; cbn [close_jobs].
  { by intros [= <- <-]. }
  apply Forall_cons in He as [Hk He]. destruct (is_terminal (sj_state job)); [by apply IH|].
  intros ([job' b] & w1 & Hc & Hr)%D_bind_Ok. eapply IH; [done| |exact Hr]. apply map_Forall_insert_2; [|done].
  by eapply close_stores.
Qed.

Lemma handle_storable req r w :
  registry_inv r → storable_request req → storable_state (jr_state r) → storable_state (jr_state (handle req (r, w)).2.1).
Proof.
  intros Hinv Hreq Hs.
  assert (∀ A (m : D (JobRegistry * W) A), (∀ res r' w', m (r, w) = (res, (r', w')) → storable_state (jr_state r')) →
    storable_state (jr_state (m (r, w)).2.1)) as Hm.
  { intros A m Hst. destruct (m (r, w)) as [res [r' w']] eqn:Hr. by eapply Hst. }
  destruct req; cbn [handle]; rewrite ?void_run; apply Hm; intros res r' w';
    unfold transition, request_cancel, finish_cancelled, complete, fail, record_publication; rewrite ?registry_bind.
  - intros Hu. apply submit_cases in Hu as [e w1 Hq|job ? ? ? ? ? ? ? ?|now now' w1 u r1 w2 ? ? ? ? ? ? ? Hq _ Hc]; try done.
    eapply commit_storable; [exact Hs| |exact Hc]. apply map_Forall_insert_2; [|done]. unfold storable_job.
    match goal with |- context [appended ?j ?ph ?m ?n] => destruct (appended_result j ph m n) as (-> & -> & _) end.
    by split.
  - apply update_storable; [apply Hinv|apply transition_stores|done].
  - apply update_storable; [apply Hinv|apply cancel_stores|done].
  - apply update_storable; [apply Hinv|apply finish_stores|done].
  - apply update_storable; [apply Hinv|by apply complete_stores|done].
  - apply update_storable; [apply Hinv|by apply fail_stores|done].
  - apply update_storable; [apply Hinv|apply record_stores|done].
  - unfold expire_deadline. rewrite healthy_bind. destruct (jr_healthy r); [|by intros [= <- <- <-]].
    rewrite registry_bind, lift_bind. destruct (owned_job (jr_state r) owner job_id) as [job|e] eqn:Ho; [|by intros [= <- <- <-]].
    rewrite second_bind. destruct (expire_job (max_events_per_job (jr_policy r)) job w) as [[[job' [cancel changed]]|e] w1] eqn:He;
      [|by intros [= <- <- <-]]. destruct changed; [|by intros [= <- <- <-]].
    rewrite return_bind. destruct (commit _ (r, w1)) as [u [r1 w2]] eqn:Hc. apply (commit_effects path) in Hc; [|apply Hinv].
    intros [= <- <- <-]. eapply commit_storable; [exact Hs| |exact Hc]. apply replace_storable; [done|].
    apply owned_job_Ok in Ho as [Ho _]. eapply expire_stores; [exact He|]. by eapply Hs.
  - unfold close_and_cancel_all.
    change ((set_registry (λ r, with_closed r true) ≫= ?f) (r, w)) with (f tt (with_closed r true, w)). cbn beta.
    rewrite registry_bind, second_bind.
    destruct (close_jobs _ _ _ _ _ w) as [[[[jobs' affected] changed]|e] w1] eqn:Hcl; [|by intros [= <- <- <-]].
    destruct changed; [|by intros [= <- <- <-]]. rewrite return_bind.
    destruct (commit _ (with_closed r true, w1)) as [u [r1 w2]] eqn:Hc. apply (commit_effects path) in Hc; [|apply Hinv].
    intros [= <- <- <-]. eapply commit_storable; [| |exact Hc]; [exact Hs|].
    apply (close_jobs_storable _ _ _ _ _ _ _ _) in Hcl; [exact Hcl| |exact Hs].
    apply Forall_btree_list. intros k job Hk. by apply (Hs k).
Qed.
End steps.
