(* ===== verification/JobStoreOpen.v ===== *)
(** * Opening a job store

    What the recovery after a restart makes of every job, and that the file
    always holds the state of the registry. *)

From S2P Require Import Prelude Core Bytes Sorting Orders Paths AgentApi Daemon JobStore JobStoreInv.
From S2P Require Import JobStoreOps JobStoreSteps.

Section recovery.
Context {W : Type} `{Disk W} `{JobWorld W} `{StoreJson} (path : PathBuf).
Context `{!DiskLaws W path} `{!JobWorldLaws W path}.

(** The archive of a pack job is the one whose identity was recorded before
    the restart, as a verification during the recovery finds it. *)
Definition archive_survives (job : StoredJob) (output : PathBuf) : Prop :=
  ∃ inputs profile marker identity w w',
    sj_operation job = OpPack inputs output profile ∧ sj_pack_publication job = Some marker ∧
    pm_output_was_absent marker = true ∧ pm_published_archive marker = Some identity ∧
    world_verify output w = (Some identity, w').

Inductive recovered (job job' : StoredJob) : Prop :=
  | recovered_terminal : is_terminal (sj_state job) = true → job' = job → recovered job job'
  | recovered_completed output :
      is_terminal (sj_state job) = false → archive_survives job output → same_job job job' →
      sj_state job' = Completed →
      sj_result job' = Some (Object [("archive", Str (String.string_of_list_byte output))])%string →
      sj_error job' = None → recovered job job'
  | recovered_failed :
      is_terminal (sj_state job) = false → same_job job job' → sj_state job' = Failed → sj_result job' = None →
      sj_error job' = Some (JsonRpcError_domain Internal "job interrupted by daemon restart") → recovered job job'.

Lemma recover_pack_Some job w output identity w' :
  recover_pack_archive job w = (Some (output, identity), w') → archive_survives job output.
Proof.
  unfold recover_pack_archive, archive_survives. destruct (sj_operation job) as [inputs o profile| | | | | |]; try done.
  destruct (sj_pack_publication job) as [marker|]; [|done].
  destruct (pm_published_archive marker) as [expected|] eqn:Hp; [|done].
  destruct (pm_output_was_absent marker) eqn:Ha; [|done]. cbn [negb].
  destruct (world_is_file o w) as [is_file w1]. destruct is_file; [|done]. cbn [negb].
  unfold verified_archive_identity, d_call. destruct (world_verify o w1) as [[found|] w2] eqn:Hv; [|done].
  case_bool_decide as Heq; [|done]. cbn [negb]. intros [= -> _ _]. subst found.
  by exists inputs, profile, marker, expected, w1, w2.
Qed.

Lemma recover_job_spec policy job w job' changed w' :
  recover_job policy job w = (Ok (job', changed), w') →
  recovered job job' ∧ contents path w' = contents path w ∧ (changed = false → job' = job).
Proof.
  unfold recover_job. destruct (is_terminal (sj_state job)) eqn:Ht.
  { intros [= <- <- <-]. split; [by apply recovered_terminal|done]. }
  intros (archive & w1 & Hr & Hrest)%D_bind_Ok.
  pose proof (quiet_recover path job w) as Hq. destruct (recover_pack_archive job w) as [o w2] eqn:Hrec. cbn in Hq.
  injection Hr as -> ->. apply D_bind_Ok in Hrest as (j & w3 & Hj & [= <- <- <-]).
  assert (∀ assigned phase, append_event assigned phase (max_events_per_job policy) w1 = (Ok j, w3) →
    contents path w3 = contents path w1) as Hqa.
  { intros assigned phase Ha. pose proof (quiet_append path assigned phase (max_events_per_job policy) w1) as Hx.
    by rewrite Ha in Hx. }
  destruct archive as [[output identity]|].
  - apply Hqa in Hj as Hq2. apply append_event_Ok in Hj as (_ & now & ->). split; [|split; [congruence|done]].
    match goal with |- recovered _ (appended ?j ?ph ?m ?n) => destruct (appended_result j ph m n) as (Hres & Herr & _) end.
    apply (recovered_completed _ _ output); [done|by eapply recover_pack_Some| | | |].
    + etrans; [|apply appended_same]. done.
    + by rewrite appended_state.
    + by rewrite Hres.
    + by rewrite Herr.
  - apply Hqa in Hj as Hq2. apply append_event_Ok in Hj as (_ & now & ->). split; [|split; [congruence|done]].
    match goal with |- recovered _ (appended ?j ?ph ?m ?n) => destruct (appended_result j ph m n) as (Hres & Herr & _) end.
    apply recovered_failed; [done| | | |].
    + etrans; [|apply appended_same]. done.
    + by rewrite appended_state.
    + by rewrite Hres.
    + by rewrite Herr.
Qed.

Lemma recover_loop policy entries jobs changed w jobs' changed' w' :
  NoDup (map fst entries) → (∀ k job, (k, job) ∈ entries → jobs !! k = Some job) →
  recover_jobs policy entries jobs changed w = (Ok (jobs', changed'), w') →
  contents path w' = contents path w ∧ (changed' = false → jobs' = jobs ∧ changed = false) ∧
  ∀ k, match jobs !! k, jobs' !! k with
       | Some job, Some job' => (k ∉ map fst entries → job' = job) ∧ (k ∈ map fst entries → recovered job job')
       | None, None => True
       | _, _ => False
       end.
Proof.
  revert jobs changed w; induction entries as [|[k job] entries IH]; intros jobs changed w Hnd Hin; cbn [recover_jobs].
  { intros [= <- <- <-]. split; [done|]. split; [done|]. intros k. destruct (jobs !! k); [|done]. split; [done|].
    by intros ?%elem_of_nil. }
  cbn [map fst] in *. apply NoDup_cons in Hnd as [Hk Hnd].
  assert (jobs !! k = Some job) as Hjob by (apply Hin; by left).
  intros ([job' job_changed] & w1 & Hc & Hr)%D_bind_Ok. apply recover_job_spec in Hc as (Hrec & Hq1 & Hsame).
  destruct (IH (<[k:=job']> jobs) (changed || job_changed) w1 Hnd) as (Hq & Hch & Hall); [|exact Hr|].
  { intros k' j Hj. rewrite lookup_insert_ne; [apply Hin; by right|]. intros <-. apply Hk.
    apply list_elem_of_fmap. by exists (k, j). }
  split; [congruence|]. split.
  { intros Hf. destruct (Hch Hf) as [-> Hor]. apply orb_false_iff in Hor as [-> Hjf]. rewrite (Hsame Hjf).
    split; [by apply insert_id|done]. }
  intros k'. specialize (Hall k'). destruct (decide (k' = k)) as [->|Hne].
  - rewrite lookup_insert_eq in Hall. rewrite Hjob. destruct (jobs' !! k) as [j'|]; [|done].
    destruct Hall as (Hother & _). rewrite (Hother Hk). split; [intros Hn; exfalso; apply Hn; by left|done].
  - rewrite lookup_insert_ne in Hall by done. destruct (jobs !! k') as [j|]; [|done].
    destruct (jobs' !! k') as [j'|]; [|done]. destruct Hall as (Hother & Hin'). rewrite elem_of_cons.
    split; [intros Hn; apply Hother; tauto|]. intros [?|?]; [done|by apply Hin'].
Qed.

(** ** Loading *)

Definition loads_as (file : option (list byte)) (state : PersistentState) : Prop :=
  match file with None => state = PersistentState_default | Some bytes => store_from_slice bytes = Some state end.

Lemma load_spec policy w state w' :
  load_state_with_policy path policy w = (Ok state, w') →
  loads_as (contents path w) state ∧ contents path w' = contents path w.
Proof.
  unfold load_state_with_policy. pose proof (disk_open_contents (path := path) w) as Hc.
  pose proof (disk_open_NotFound (path := path) w) as Hnf.
  destruct (disk_open path w) as [[[]|kind] w1]; cbn in Hc, Hnf.
  2: { destruct kind; try done. intros [= <- <-]. split; [|done]. unfold loads_as. by rewrite Hnf. }
  intros (length & w2 & Hl & Hr)%D_bind_Ok. unfold d_call in Hl.
  pose proof (disk_len_contents (path := path) w1) as Hcl. destruct (disk_len path w1) as [[l|] w3]; [|done].
  injection Hl as <- <-. cbn in Hcl. destruct (max_store_bytes policy <? l); [done|].
  apply D_bind_Ok in Hr as (u & w4 & Hu & Hr). injection Hu as _ <-.
  apply D_bind_Ok in Hr as (bytes & w5 & Hb & Hr). unfold d_call in Hb.
  pose proof (disk_read_contents (path := path) w3) as Hcr. pose proof (disk_read_Some (path := path) w3) as Hrs.
  destruct (disk_read_to_end path w3) as [[b|] w6]; [|done]. injection Hb as <- <-. cbn in Hcr, Hrs.
  injection Hr as Hr <-. apply ok_or_Ok in Hr. unfold loads_as.
  assert (contents path w = Some b) as -> by (rewrite <-Hc, <-Hcl; by apply Hrs). split; [done|]. by rewrite <-(Hrs b eq_refl), Hcr, (Hrs b eq_refl).
Qed.

Lemma persist_spec policy state w w' :
  persist_state_with_policy path state policy w = (Ok tt, w') →
  ∃ bytes, store_to_vec state = Some bytes ∧ contents path w' = Some bytes.
Proof.
  unfold persist_state_with_policy. intros (u & w1 & Hu & Hr)%D_bind_Ok. injection Hu as _ <-.
  apply D_bind_Ok in Hr as (bytes & w2 & Hb & Hr). injection Hb as Hb <-. apply encode_Ok in Hb as [Hb _].
  apply D_bind_Ok in Hr as (parent & w3 & Hp & Hr). apply (publish_contents path) in Hp.
  pose proof (quiet_sync path parent w3) as Hq. rewrite Hr in Hq. exists bytes. split; [done|]. cbn in Hq. congruence.
Qed.

(** ** [open] *)

(** The trim of a job that has too many events keeps the rest of it. *)
Definition trimmed (policy : StorePolicy) (job : StoredJob) : StoredJob :=
  (trim_event_history job (max_events_per_job policy)).1.

Lemma trim_unchanged policy state :
  (trim_retained_events state policy).2 = false → (trim_retained_events state policy).1 = state.
Proof.
  cbn. intros Hf. destruct state as [schema next jobs index]. unfold set_jobs. cbn in *. f_equal. apply map_eq. intros k.
  rewrite lookup_fmap. destruct (jobs !! k) as [job|] eqn:Hk; [|done]. cbn. f_equal.
  destruct (trim_event_history job (max_events_per_job policy)) as [job' b] eqn:Ht. cbn.
  assert (b = false) as ->.
  { apply not_true_is_false. intros ->. apply not_true_iff_false in Hf. apply Hf, existsb_exists.
    exists (k, job). split; [by apply list_elem_of_In, elem_of_map_to_list|]. cbn. by rewrite Ht. }
  unfold trim_event_history in Ht. destruct (_ =? 0); congruence.
Qed.

(** The state that opening the store arrives at, before it is written, and
    whether it has to be. *)
Definition recover_state (policy : StorePolicy) : D W (PersistentState * bool) :=
  policy ← d_lift (StorePolicy_validate policy);
  state ← load_state_with_policy path policy;
  d_lift (validate_state state policy false);;
  let '(state, changed) := trim_retained_events state policy in
  '(jobs, changed) ← recover_jobs policy (btree_list (ps_jobs state)) (ps_jobs state) changed;
  let '(state, trimmed) := trim_retained_events (set_jobs state jobs) policy in
  d_lift (validate_state state policy true);;
  mret (state, changed || trimmed).

Definition opened_registry (policy : StorePolicy) (state : PersistentState) : JobRegistry :=
  {| jr_path := path; jr_state := state; jr_policy := policy; jr_closed := false; jr_healthy := true |}.

Lemma open_split policy w :
  open_with_policy path policy w =
  (recover_state policy ≫= λ '(state, changed),
     (if (changed : bool) then persist_state_with_policy path state policy else mret tt) ≫= λ _,
     mret (opened_registry policy state)) w.
Proof.
  unfold open_with_policy, recover_state, mbind, D_bind, d_lift.
  destruct (StorePolicy_validate policy) as [p|e] eqn:Hp; [|done].
  assert (p = policy) as ->.
  { unfold StorePolicy_validate in Hp. by apply if_Err_Ok in Hp as [_ [= <-]]. }
  destruct (load_state_with_policy path policy w) as [[state|e] w1]; [|done].
  destruct (validate_state state policy false); [|done].
  destruct (trim_retained_events state policy) as [state1 changed].
  destruct (recover_jobs _ _ _ _ w1) as [[[jobs changed2]|e] w2]; [|done].
  destruct (trim_retained_events (set_jobs state1 jobs) policy) as [state2 tr].
  destruct (validate_state state2 policy true); done.
Qed.

Record recovery (policy : StorePolicy) (state0 state : PersistentState) : Prop := {
  rc_wf : wf_state policy true state;
  rc_events : max_events_per_job policy ≠ 0;
  rc_index : ps_idempotency state = ps_idempotency state0;
  rc_next : ps_next_job state = ps_next_job state0;
  rc_jobs : ∀ k, match ps_jobs state0 !! k, ps_jobs state !! k with
    | Some job, Some job' => ∃ job1, recovered (trimmed policy job) job1 ∧ job' = trimmed policy job1
    | None, None => True
    | _, _ => False
    end;
}.

Lemma recover_spec policy w0 state changed w :
  recover_state policy w0 = (Ok (state, changed), w) →
  ∃ state0, loads_as (contents path w0) state0 ∧ recovery policy state0 state ∧ (changed = false → state = state0).
Proof.
  unfold recover_state. intros (p & w1 & Hp & Hr)%D_bind_Ok. injection Hp as Hp <-.
  unfold StorePolicy_validate in Hp. apply if_Err_Ok in Hp as [Hp [= <-]]. apply orb_false_iff in Hp as [[_ Hev]%orb_false_iff _].
  apply N.eqb_neq in Hev. apply D_bind_Ok in Hr as (state0 & w2 & Hl & Hr). apply load_spec in Hl as [Hload _].
  apply D_bind_Ok in Hr as (u & w3 & Hv & Hr). injection Hv as Hv <-. destruct u.
  destruct (trim_retained_events state0 policy) as [state1 changed1] eqn:Ht1.
  apply D_bind_Ok in Hr as ([jobs changed2] & w4 & Hrec & Hr).
  apply recover_loop in Hrec as (_ & Hch & Hall); [|apply NoDup_btree_keys|by intros k job ?%elem_of_btree_list].
  destruct (trim_retained_events (set_jobs state1 jobs) policy) as [state2 tr] eqn:Ht2.
  apply D_bind_Ok in Hr as (u & w5 & Hv2 & [= <- <- <-]). injection Hv2 as Hv2 <-. destruct u. apply validate_state_Ok in Hv2.
  assert (state1 = set_jobs state0 (trimmed policy <$> ps_jobs state0)) as Hs1 by by injection Ht1.
  assert (state2 = set_jobs state1 (trimmed policy <$> jobs)) as Hs2 by (injection Ht2 as <- _; done).
  exists state0. split; [done|]. split.
  - split; [done|done|by rewrite Hs2, Hs1|by rewrite Hs2, Hs1|].
    intros k. specialize (Hall k). rewrite Hs2. cbn. rewrite lookup_fmap. rewrite Hs1 in Hall. cbn in Hall.
    rewrite lookup_fmap in Hall. destruct (ps_jobs state0 !! k) as [job|] eqn:Hk; cbn in Hall; [|by destruct (jobs !! k)].
    destruct (jobs !! k) as [job1|]; [|done]. destruct Hall as [_ Hall]. exists job1. split; [|done]. apply Hall.
    apply list_elem_of_fmap. exists (k, trimmed policy job). split; [done|]. apply elem_of_btree_list.
    by rewrite lookup_fmap, Hk.
  - intros [-> ->]%orb_false_iff. destruct (Hch eq_refl) as [-> ->].
    pose proof (trim_unchanged policy state0) as Hu1. rewrite Ht1 in Hu1. cbn in Hu1.
    pose proof (trim_unchanged policy (set_jobs state1 (ps_jobs state1))) as Hu2. rewrite Ht2 in Hu2. cbn in Hu2.
    rewrite Hu2, Hu1 by done. by destruct state0.
Qed.

(** Nothing before the write touches the file. *)
Lemma quiet_load policy : quiet path (load_state_with_policy path policy).
Proof.
  intros w. unfold load_state_with_policy. pose proof (disk_open_contents (path := path) w) as Hc.
  destruct (disk_open path w) as [[[]|kind] w1]; cbn in Hc; [|by destruct kind].
  rewrite <-Hc. match goal with |- contents path (?m w1).2 = _ => set (load := m) end.
  assert (quiet path load) as Hq; [|apply Hq]. unfold load.
  apply quiet_bind; [apply quiet_call, disk_len_contents|]. intros length. destruct (_ <? _); [apply quiet_fail|].
  apply quiet_bind; [apply quiet_lift|]. intros u.
  apply quiet_bind; [apply quiet_call, disk_read_contents|intros; apply quiet_lift].
Qed.

Lemma quiet_recover_job policy job : quiet path (recover_job policy job).
Proof.
  unfold recover_job. destruct (is_terminal _); [apply quiet_ret|]. apply quiet_bind.
  - intros w. pose proof (quiet_recover path job w) as Hq. by destruct (recover_pack_archive job w).
  - intros [[archive identity]|]; (apply quiet_bind; [apply quiet_append; apply _|intros; apply quiet_ret]).
Qed.

Lemma quiet_recover_jobs policy entries jobs changed : quiet path (recover_jobs policy entries jobs changed).
Proof.
  revert jobs changed; induction entries as [|[k job] entries IH]; intros jobs changed; cbn [recover_jobs]; [apply quiet_ret|].
  apply quiet_bind; [apply quiet_recover_job|]. intros [j b]. apply IH.
Qed.

Lemma quiet_recover_state policy : quiet path (recover_state policy).
Proof.
  unfold recover_state. apply quiet_bind; [apply quiet_lift|]. intros p. apply quiet_bind; [apply quiet_load|].
  intros state. apply quiet_bind; [apply quiet_lift|]. intros _. destruct (trim_retained_events state p) as [state1 changed].
  apply quiet_bind; [apply quiet_recover_jobs|]. intros [jobs changed2].
  destruct (trim_retained_events (set_jobs state1 jobs) p) as [state2 tr].
  apply quiet_bind; [apply quiet_lift|]. intros _. apply quiet_ret.
Qed.

Lemma persist_contents policy state w :
  let w' := (persist_state_with_policy path state policy w).2 in
  contents path w' = contents path w ∨ ∃ bytes, store_to_vec state = Some bytes ∧ contents path w' = Some bytes.
Proof.
  cbn zeta. unfold persist_state_with_policy, mbind, D_bind, d_lift. destruct (validate_state state policy true); [|by left].
  destruct (encode_state state (max_store_bytes policy)) as [bytes|e] eqn:He; [|by left]. apply encode_Ok in He as [He _].
  destruct (publish_state path bytes w) as [[parent|e] w1] eqn:Hp; apply (publish_contents path) in Hp; [|by left].
  right. exists bytes. split; [done|]. by rewrite (quiet_sync path parent w1).
Qed.

(** Whether it succeeds or fails, opening the store leaves the file as it was
    or holding the recovered state. *)
Lemma open_contents policy w0 :
  let w := (open_with_policy path policy w0).2 in
  contents path w = contents path w0 ∨
  ∃ state0 state bytes, loads_as (contents path w0) state0 ∧ recovery policy state0 state ∧
    store_to_vec state = Some bytes ∧ contents path w = Some bytes.
Proof.
  cbn zeta. rewrite open_split. unfold mbind, D_bind. pose proof (quiet_recover_state policy w0) as Hq.
  destruct (recover_state policy w0) as [[[state changed]|e] w1] eqn:Hr; cbn in Hq; [|by left].
  apply recover_spec in Hr as (state0 & Hl & Hrec & _). destruct changed; [|by left].
  pose proof (persist_contents policy state w1) as Hp. cbn in Hp. 
  destruct (persist_state_with_policy path state policy w1) as [[u|e] w2]; cbn in Hp |- *;
    (destruct Hp as [Hp|(bytes & ? & ?)]; [left; congruence|right; by exists state0, state, bytes]).
Qed.

Record opened (policy : StorePolicy) (w0 : W) (state0 : PersistentState) (r : JobRegistry) (w : W) : Prop := {
  op_registry : r = opened_registry policy (jr_state r);
  op_recovery : recovery policy state0 (jr_state r);
  op_loaded : loads_as (contents path w0) state0;
  op_file : (jr_state r = state0 ∧ contents path w = contents path w0) ∨
    ∃ bytes, store_to_vec (jr_state r) = Some bytes ∧ contents path w = Some bytes;
}.

Lemma op_inv policy w0 state0 r w : opened policy w0 state0 r w → registry_inv path r.
Proof. intros [Hr Hrec _ _]. rewrite Hr. split; [done|apply Hrec..]. Qed.

Lemma op_policy policy w0 state0 r w : opened policy w0 state0 r w → jr_policy r = policy.
Proof. intros [Hr _ _ _]. by rewrite Hr. Qed.

Lemma open_spec policy w0 r w :
  open_with_policy path policy w0 = (Ok r, w) → ∃ state0, opened policy w0 state0 r w.
Proof.
  rewrite open_split. intros ([state changed] & w1 & Hr & Hrest)%D_bind_Ok. pose proof (quiet_recover_state policy w0) as Hq.
  rewrite Hr in Hq. cbn in Hq. apply recover_spec in Hr as (state0 & Hl & Hrec & Hsame).
  apply D_bind_Ok in Hrest as (u & w2 & Hpersist & [= <- <-]). destruct u. exists state0. split; [done|done|done|].
  destruct changed; [right; by apply persist_spec in Hpersist|]. left. injection Hpersist as <-.
  split; [by apply Hsame|done].
Qed.
End recovery.
