(* ===== verification/JobExample.v ===== *)
(** * A concrete world of the job store

    A disk with one file, a fixed clock and one archive, and a serializer of
    the states of a short run: a pack job that is submitted, starts, publishes
    its archive and is recovered after a restart, or is cancelled at a
    shutdown.  The theorems about the store are applied to it. *)

From S2P Require Import Prelude Core Bytes Sorting Orders Paths AgentApi Daemon JobStore JobStoreInv.
From S2P Require Import JobStoreOps JobStoreSteps.

(** ** Decidable equality of states *)

Definition Value_eq_dec (v w : Value) : Decision (v = w).
Proof.
  revert v w. fix go 1. intros v w.
  destruct v as [|b|n|s|vs|fs], w as [|b'|n'|s'|vs'|fs']; try (by right).
  - by left.
  - destruct (decide (b = b')) as [->|]; [by left|right; congruence].
  - destruct (decide (n = n')) as [->|]; [by left|right; congruence].
  - destruct (decide (s = s')) as [->|]; [by left|right; congruence].
  - destruct (list_eq_dec (dec := go) vs vs') as [->|]; [by left|right; congruence].
  - destruct (list_eq_dec (dec := λ f f' : string * Value, prod_eq_dec (EqDecision1 := go) f f') fs fs') as [->|];
      [by left|right; congruence].
Defined.
#[export] Instance Value_EqDecision : EqDecision Value := Value_eq_dec.

#[export] Instance JsonRpcError_eq_dec : EqDecision JsonRpcError.
Proof. solve_decision. Defined.
#[export] Instance JobLimits_eq_dec : EqDecision JobLimits.
Proof. solve_decision. Defined.
#[export] Instance ProgressEvent_eq_dec : EqDecision ProgressEvent.
Proof. solve_decision. Defined.
#[export] Instance StoredOperation_eq_dec : EqDecision StoredOperation.
Proof. solve_decision. Defined.
#[export] Instance PackPublicationMarker_eq_dec : EqDecision PackPublicationMarker.
Proof. solve_decision. Defined.
#[export] Instance StoredJob_eq_dec : EqDecision StoredJob.
Proof. solve_decision. Defined.
#[export] Instance PersistentState_eq_dec : EqDecision PersistentState.
Proof. solve_decision. Defined.

(** ** The world *)

Record World := { wd_now : N; wd_file : option (list byte); wd_identity : option ArchiveIdentity }.
Definition set_file (w : World) (bytes : list byte) : World :=
  {| wd_now := wd_now w; wd_file := Some bytes; wd_identity := wd_identity w |}.

#[export] Instance World_disk : Disk World := {|
  disk_open p w := (match wd_file w with Some _ => Ok tt | None => Err NotFound end, w);
  disk_len p w := (option_map len (wd_file w), w);
  disk_read_to_end p w := (wd_file w, w);
  disk_create_dir_all p w := (Some tt, w);
  disk_new_temporary p w := (Some tt, w);
  disk_write_all b w := (Some tt, w);
  disk_flush w := (Some tt, w);
  disk_sync_all w := (Some tt, w);
  disk_persist b p w := (Some tt, set_file w b);
  disk_sync_dir p w := (Some tt, w);
|}.

#[export] Instance World_job : JobWorld World := {|
  world_unix_ms w := (wd_now w, w);
  world_symlink_metadata p w := (Err NotFound, w);
  world_is_file p w := (true, w);
  world_verify p w := (wd_identity w, w);
|}.

#[export] Instance World_disk_laws path : DiskLaws World path.
Proof. refine {| contents := wd_file |}; try done. by intros []; cbn; destruct wd_file0. Defined.

#[export] Instance World_job_laws path : JobWorldLaws World path.
Proof. by split. Qed.

(** ** A run *)

Definition sb : string → PathBuf := String.list_byte_of_string.
Definition example_path : PathBuf := sb "/state/jobs.json".
Definition example_session : SessionId := "session-00000001".
Definition example_submission : JobSubmission := {|
  su_owner := example_session; su_method := Pack; su_priority := PackForeground; su_idempotency_key := "key-1";
  su_params_hash := [Byte.x07]; su_limits := JobLimits_default;
  su_operation := OpPack [sb "/in"] (sb "/out.pithos") Balanced |}.
Definition example_identity : ArchiveIdentity := {| ai_length := 4096; ai_blake3 := [Byte.x2a] |}.
Definition example_policy : StorePolicy := StorePolicy_default.
Definition example_start : World := {| wd_now := 1000; wd_file := None; wd_identity := Some example_identity |}.

Definition example_id : JobId := job_name 1.
Definition example_event (job : StoredJob) (phase : string) : StoredJob := appended job phase MAX_EVENTS_PER_JOB 1000.
Definition example_queued : StoredJob := example_event (new_job example_submission example_id 1000) "queued".
Definition example_marker : PackPublicationMarker := {|
  pm_marker_version := 1; pm_job_id := example_id; pm_params_hash := [Byte.x07]; pm_output := sb "/out.pithos";
  pm_output_was_absent := true; pm_published_archive := None |}.
Definition example_running : StoredJob :=
  example_event (set_state (set_publication example_queued (Some example_marker)) Running) "running".
Definition example_published : StoredJob :=
  example_event (set_publication example_running (Some (set_published example_marker example_identity))) "pack_published".
Definition example_recovered : StoredJob :=
  example_event (set_outcome example_published Completed (Some (Object [("archive", Str "/out.pithos")])) None)
    "recovered_completed".
Definition example_closed : StoredJob :=
  example_event (set_outcome example_queued Cancelled None
    (Some (JsonRpcError_domain CancelledKind "job cancelled during daemon shutdown"))) "daemon_shutdown".

Definition example_state (job : StoredJob) : PersistentState := {|
  ps_schema_version := STORE_SCHEMA_VERSION; ps_next_job := 2; ps_jobs := {[ example_id := job ]};
  ps_idempotency := {[ idempotency_map_key example_session "key-1" := example_id ]} |}.

(** The serializer writes a state as its position in this list. *)
Definition example_states : list PersistentState :=
  map example_state [example_queued; example_running; example_published; example_recovered; example_closed].

#[export] Instance example_json : StoreJson := {|
  store_to_vec state := (λ found, replicate found.1 Byte.x00) <$> list_find (state =.) example_states;
  store_from_slice bytes := example_states !! length bytes;
|}.

#[export] Instance example_json_laws : StoreJsonLaws.
Proof.
  intros state bytes Hb _. cbn [store_to_vec store_from_slice example_json] in *.
  destruct (list_find (state =.) example_states) as [[i s]|] eqn:Hf; [|done]. injection Hb as <-. cbn.
  rewrite length_replicate. apply list_find_Some in Hf as (Hi & -> & _). done.
Qed.

Definition example_registry : JobRegistry := {|
  jr_path := example_path; jr_state := PersistentState_default; jr_policy := example_policy; jr_closed := false;
  jr_healthy := true |}.

Definition example_opened : JobRegistry * World := (example_registry, example_start).
Definition example_1 : JobRegistry * World := (handle (ReqSubmit example_submission 16) example_opened).2.
Definition example_2 : JobRegistry * World :=
  (handle (ReqTransition example_session example_id Running "running") example_1).2.
Definition example_3 : JobRegistry * World :=
  (handle (ReqPublication example_session example_id (sb "/out.pithos") example_identity) example_2).2.

Example example_1_state : jr_state example_1.1 = example_state example_queued.
Proof. vm_compute. reflexivity. Qed.
Example example_2_state : jr_state example_2.1 = example_state example_running.
Proof. vm_compute. reflexivity. Qed.
Example example_3_state : jr_state example_3.1 = example_state example_published.
Proof. vm_compute. reflexivity. Qed.
