(* ===== verification/SessionExample.v ===== *)
(** * A run of the session registry

    A session is created and resumed on the disk of [JobExample], with a
    generator that counts. *)

From S2P Require Import Prelude Core Bytes Paths AgentApi Daemon JobStore JobExample Sessions SessionSafety.

#[local] Instance counting_rng : Rng World := λ n w,
  (replicate (N.to_nat n) (byte_of (wd_now w)),
   {| wd_now := wd_now w + 1; wd_file := wd_file w; wd_identity := wd_identity w |}).
#[local] Instance counting_rng_laws path : RngLaws World path.
Proof. split; [|done]. intros n w. unfold len. cbn. rewrite length_replicate. lia. Qed.

#[local] Instance short_hash : Blake3 := λ data, take 32 data.

#[local] Instance PathScope_eq_dec : EqDecision PathScope.
Proof. solve_decision. Defined.
#[local] Instance StoredSession_eq_dec : EqDecision StoredSession.
Proof. solve_decision. Defined.
#[local] Instance PersistentSessions_eq_dec : EqDecision PersistentSessions.
Proof. solve_decision. Defined.

Module Sessions_run.
Definition path : PathBuf := sb "/state/sessions.json".
Definition scope : PathScope := {| ps_read_roots := [sb "/data"]; ps_write_roots := [] |}.
Definition token (n : N) : string := hex_of (replicate 32 (byte_of n)).
Definition id : SessionId := "session-05050505050505050505050505050505".
Definition state (n expires : N) : PersistentSessions :=
  with_sessions PersistentSessions_default {[ id := stored_with (token n) scope expires ]}.

(** The states of the run, numbered. *)
Definition table : list PersistentSessions := [state 6 1000; state 7 2000].
#[export] Instance json : SessionJson := {|
  session_to_vec s := (λ entry, [byte_of (N.of_nat entry.1)]) <$> list_find (λ t, s = t) table;
  session_from_slice bytes := match bytes with [b] => table !! N.to_nat (byte_val b) | _ => None end |}.

#[export] Instance json_laws : SessionJsonLaws.
Proof.
  intros s bytes. cbn -[table byte_of]. intros ([i t] & Hf & ->)%fmap_Some. cbn [fst].
  apply list_find_Some in Hf as (Hi & -> & _). rewrite byte_val_of, N.mod_small, Nat2N.id; [done|].
  apply lookup_lt_Some in Hi. change (length table) with 2%nat in Hi. lia.
Qed.

Definition empty : SessionRegistry := {| sr_path := path; sr_state := PersistentSessions_default |}.
Definition start : World := {| wd_now := 5; wd_file := None; wd_identity := None |}.
Definition created := SessionRegistry_create 1 scope 10 1000 (empty, start).
Definition resumed := SessionRegistry_resume id (token 6) 20 2000 created.2.
End Sessions_run.
Import Sessions_run.

Example run_created : created.1 = Ok {| cs_session_id := id; cs_resume_token := token 6 |}.
Proof. vm_compute. reflexivity. Qed.
Example run_resumed : resumed.1 = Ok {| rs_scope := scope; rs_resume_token := token 7 |}.
Proof. vm_compute. reflexivity. Qed.
Example run_old_token : (SessionRegistry_resume id (token 6) 30 2000 resumed.2).1 = Err session_denied.
Proof. vm_compute. reflexivity. Qed.

Lemma empty_durable : durable path empty start.
Proof. by split. Qed.

Lemma sessions_survive_restart_witness :
  (SessionRegistry_open path resumed.2.2).1 = Ok {| sr_path := path; sr_state := state 7 2000 |} ∧
  N.of_nat (size (sessions_of resumed.2.1)) <= MAX_SESSIONS ∧
  ∀ r2 w2, SessionRegistry_open path resumed.2.2 = (Ok r2, w2) → sr_state r2 = sr_state resumed.2.1.
Proof.
  split; [vm_compute; reflexivity|].
  assert (Hopen : SessionRegistry_open path start = (Ok empty, start)) by (vm_compute; reflexivity).
  apply (sessions_survive_restart path start empty start resumed.2.1 resumed.2.2 Hopen).
  eapply rtc_l; [left; by exists 1%nat, scope, 10, 1000|]. fold created.
  eapply rtc_l; [right; by exists id, (token 6), 20, 2000|]. fold resumed. rewrite <-surjective_pairing. apply rtc_refl.
Defined.

Lemma session_tokens_correct_witness :
  ∃ stored, accepts created.2.1 id (token 6) 20 stored ∧ ss_scope stored = scope ∧
    sessions_of resumed.2.1 = <[id := stored_with (token 7) scope 2000]> (sessions_of created.2.1).
Proof.
  assert (Hd : durable path created.2.1 created.2.2).
  { apply (steps_durable path (empty, start) created.2); [|apply empty_durable].
    apply rtc_once. left. by exists 1%nat, scope, 10, 1000. }
  destruct (proj1 (session_tokens_correct path created.2.1 created.2.2 Hd) id (token 6) 20 2000
    (Ok {| rs_scope := scope; rs_resume_token := token 7 |}) resumed.2.1 resumed.2.2) as (stored & Ha & Hs & _ & Hm & _).
  { vm_compute. reflexivity. }
  exists stored. split; [exact Ha|]. cbn in Hs. split; [done|]. rewrite Hm. cbn [rs_resume_token]. by rewrite <-Hs.
Defined.
