(* ===== verification/JobHistory.v ===== *)
(** * What the job store guarantees

    Theorems over every history of a registry: from opening the store,
    through any sequence of requests, failing disk operations and events
    outside, to the next restart. *)

From stdpp Require Import relations.
From S2P Require Import Prelude Core Bytes Sorting Orders Paths AgentApi Daemon JobStore JobStoreInv.
From S2P Require Import JobStoreOps JobStoreSteps JobStoreOpen JobExample.

Section history.
Context {W : Type} `{Disk W} `{JobWorld W} `{StoreJson} (path : PathBuf).
Context `{Hdisk : !DiskLaws W path} `{Hworld : !JobWorldLaws W path}.

(** A registry that was opened, and what happened to it since. *)
Record history (policy : StorePolicy) (w0 : W) (s : JobRegistry * W) : Prop := {
  hi_opened : ∃ r w, open_with_policy path policy w0 = (Ok r, w) ∧ storable_state (jr_state r) ∧
    rtc (step path) (r, w) s;
}.

(** The file holds the state of the registry. *)
Definition stored (s : JobRegistry * W) : Prop := loads_as (contents path s.2) (jr_state s.1).

Lemma step_effects s s' :
  registry_inv path s.1 → step path s s' → step_effect path s.1 s.2 s'.1 s'.2.
Proof.
  intros Hinv Hs. destruct Hs as [req [r w] _|r w w' Hc]; [by apply handle_effect|]. by apply effect_none.
Qed.

Lemma step_inv s s' : registry_inv path s.1 → step path s s' → registry_inv path s'.1.
Proof. intros Hinv Hs. eapply effect_inv; [exact Hinv|]. by apply step_effects. Qed.

Lemma steps_inv s s' : registry_inv path s.1 → rtc (step path) s s' → registry_inv path s'.1.
Proof. intros Hinv Hr. induction Hr as [|s1 s2 s3 Hs Hr IH]; [done|]. by apply IH, (step_inv s1). Qed.

Lemma history_inv policy w0 s : history policy w0 s → registry_inv path s.1.
Proof.
  intros [(r & w & Ho & _ & Hr)]. apply (open_spec path) in Ho as [state0 Ho]. eapply steps_inv; [|exact Hr]. by apply (op_inv path) in Ho.
Qed.

Context `{Hjson : !StoreJsonLaws}.

Lemma steps_stored s s' :
  registry_inv path s.1 → storable_state (jr_state s.1) → stored s → rtc (step path) s s' →
  storable_state (jr_state s'.1) ∧ stored s'.
Proof.
  intros Hinv Hs Hst Hr. induction Hr as [|s1 s2 s3 Hstep Hr IH]; [done|].
  pose proof (step_inv _ _ Hinv Hstep) as Hinv2.
  assert (storable_state (jr_state s2.1)) as Hs2.
  { destruct Hstep as [req [r1 w1] Hreq|]; [by apply (handle_storable path)|done]. }
  apply IH; [done..|]. unfold stored in *.
  destruct (step_effects _ _ Hinv Hstep) as [_ Heq Hc|_ _ _ [_ _ (bytes & Hb & Hc)]]; [by rewrite Heq, Hc|].
  rewrite Hc. cbn. by apply store_json_inverse.
Qed.

Lemma history_stored policy w0 s : history policy w0 s → stored s.
Proof.
  intros [(r & w & Ho & Hs & Hr)]. apply (open_spec path) in Ho as [state0 Ho].
  apply (steps_stored (r, w) s); [by eapply op_inv|done| |done]. unfold stored. cbn.
  destruct (op_file _ _ _ _ _ _ Ho) as [[-> ->]|(bytes & Hb & ->)]; [apply Ho|].
  cbn. by apply store_json_inverse.
Qed.

(** C22: At every point of every history of a job registry, the state in
    memory is well formed and loading the store's file yields exactly that
    state: a daemon that stops at any point finds every acknowledged change
    again, and nothing else, whatever disk operations failed. *)
Theorem registry_durable policy w0 s :
  history policy w0 s →
  wf_state (jr_policy s.1) true (jr_state s.1) ∧
  ∀ policy' state w', load_state_with_policy path policy' s.2 = (Ok state, w') → state = jr_state s.1.
Proof.
  intros Hh. split; [by apply (history_inv policy w0)|]. intros policy' state w' Hl.
  apply (load_spec path) in Hl as [Hl _]. apply history_stored in Hh. unfold stored, loads_as in *.
  destruct (contents path s.2); congruence.
Qed.

(** ** Jobs over time *)

Definition forward (a b : ApiJobState) : Prop := edge a b = true.

Lemma change_forward maximum job job' :
  job_change maximum job job' →
  same_job job job' ∧ rtc forward (sj_state job) (sj_state job') ∧ sj_next_sequence job <= sj_next_sequence job'.
Proof.
  intros Hc. split; [by eapply change_same|]. split.
  - destruct (change_edge _ _ _ Hc) as [->|He]; [done|]. by apply rtc_once.
  - destruct Hc as [|assigned phase now _ _ _ Hn _ _]; [done|].
    destruct (appended_result assigned phase maximum now) as (_ & _ & _ & ->). lia.
Qed.

Lemma step_job s s' k job :
  registry_inv path s.1 → step path s s' → ps_jobs (jr_state s.1) !! k = Some job →
  ∃ job', ps_jobs (jr_state s'.1) !! k = Some job' ∧ job_change (max_events_per_job (jr_policy s.1)) job job'.
Proof.
  intros Hinv Hstep Hk. destruct (step_effects _ _ Hinv Hstep) as [_ Heq _|_ Hc _ _].
  - rewrite Heq. exists job. split; [done|constructor].
  - by apply (sc_jobs _ _ _ Hc).
Qed.

(** C24: Jobs are never lost and never go back.  From any point of a history
    to any later one a job keeps its owner, operation and parameters, its
    state moves along the edges of the state machine, and a job that has
    ended never changes again, neither its result nor its events. *)
Theorem jobs_never_regress policy w0 s s' k job :
  history policy w0 s → rtc (step path) s s' → ps_jobs (jr_state s.1) !! k = Some job →
  ∃ job', ps_jobs (jr_state s'.1) !! k = Some job' ∧ same_job job job' ∧
    rtc forward (sj_state job) (sj_state job') ∧ sj_next_sequence job <= sj_next_sequence job' ∧
    (is_terminal (sj_state job) = true → job' = job).
Proof.
  intros Hh Hr. apply history_inv in Hh as Hinv. clear Hh. revert job.
  induction Hr as [s|s1 s2 s3 Hstep Hr IH]; intros job Hk.
  { exists job. split_and!; done. }
  destruct (step_job _ _ _ _ Hinv Hstep Hk) as (job1 & Hk1 & Hc).
  destruct (IH (step_inv _ _ Hinv Hstep) job1 Hk1) as (job2 & Hk2 & Hs2 & Hf2 & Hn2 & Ht2).
  destruct (change_forward _ _ _ Hc) as (Hs1 & Hf1 & Hn1). exists job2. split_and!; [done|by etrans|by etrans|lia|].
  intros Ht. rewrite (change_terminal _ _ _ Hc Ht) in Ht2. auto.
Qed.

(** ** Submission *)

Lemma steps_index s s' :
  registry_inv path s.1 → rtc (step path) s s' → ps_idempotency (jr_state s.1) ⊆ ps_idempotency (jr_state s'.1).
Proof.
  intros Hinv Hr. induction Hr as [|s1 s2 s3 Hstep Hr IH]; [done|].
  etrans; [|by apply IH, (step_inv s1)]. destruct (step_effects _ _ Hinv Hstep) as [_ -> _|_ Hc _ _]; [done|apply Hc].
Qed.

Lemma submit_step submission limit s : step path s (submit_with_limit submission limit s).2.
Proof. rewrite <-void_run. by apply (step_request path (ReqSubmit submission limit)). Qed.

(** What an accepted submission leaves behind. *)
Record accepted_as (submission : JobSubmission) (accepted : JobAccepted) (s : JobRegistry * W) : Prop := {
  ac_key : validate_idempotency_key (su_idempotency_key submission) = Ok tt;
  ac_index : ps_idempotency (jr_state s.1) !!
    idempotency_map_key (su_owner submission) (su_idempotency_key submission) = Some (ja_job_id accepted);
  ac_job : ∃ job, ps_jobs (jr_state s.1) !! ja_job_id accepted = Some job ∧
    sj_state job = ja_state accepted ∧ sj_job_id job = ja_job_id accepted ∧
    sj_params_hash job = su_params_hash submission ∧ sj_method job = su_method submission ∧
    sj_priority job = su_priority submission;
}.

Lemma submit_accepted submission limit s accepted s1 :
  registry_inv path s.1 → submit_with_limit submission limit s = (Ok accepted, s1) →
  accepted_as submission accepted s1 ∧
  (ja_idempotent_replay accepted = false →
    ps_jobs (jr_state s.1) !! ja_job_id accepted = None ∧ ja_state accepted = Queued).
Proof.
  destruct s as [r w], s1 as [r1 w1]. intros Hinv Hs. cbn in Hinv. apply (submit_cases path) in Hs; [|done].
  inversion Hs as [|job ? ? Hk Hi Hj Hh Hm Hp|now now' w2 u r2 w3 ? ? Hk Hi ? ? Hn Hq _ Hc]; subst; clear Hs.
  - split; [|done]. split; [done|done|]. exists job. split_and!; done.
  - match goal with H : (?u ≫= _) = Ok _ |- _ => destruct u as [[]|e]; [|done]; injection H as <- end.
    rewrite trim_bounded in Hc.
    2: { cbn. apply map_Forall_insert_2; [apply appended_short|by apply wf_bounded, Hinv]. }
    cbn [fst] in Hc. inversion Hc; subst; clear Hc. split.
    + split; [done|cbn; by rewrite lookup_insert_eq|]. cbn. eexists. rewrite lookup_insert_eq. split; [done|].
      match goal with |- context [appended ?j ?ph ?m ?n] => destruct (appended_same j ph m n) as [-> _ -> -> _ -> _ _ _] end.
      by rewrite appended_state.
    + intros _. split; [|done]. cbn. eapply fresh_name; [apply Hinv|lia].
Qed.

(** C25: A submission is executed once.  A key that was not used gets a new
    job, under an identifier no earlier job has; whenever the session submits
    under the same key again, at any later point, the same parameters return
    the same job with its present state, other parameters are a conflict, and
    nothing changes. *)
Theorem submit_idempotent policy w0 s submission limit accepted s1 s2 again limit' :
  history policy w0 s → submit_with_limit submission limit s = (Ok accepted, s1) →
  rtc (step path) s1 s2 →
  su_owner again = su_owner submission → su_idempotency_key again = su_idempotency_key submission →
  jr_closed s2.1 = false → jr_healthy s2.1 = true →
  (ja_idempotent_replay accepted = false →
    ps_jobs (jr_state s.1) !! ja_job_id accepted = None ∧ ja_state accepted = Queued) ∧
  ∃ job, ps_jobs (jr_state s2.1) !! ja_job_id accepted = Some job ∧
    submit_with_limit again limit' s2 =
    (if bool_decide (su_params_hash again = su_params_hash submission) &&
        bool_decide (su_method again = su_method submission) &&
        bool_decide (su_priority again = su_priority submission)
     then Ok {| ja_job_id := ja_job_id accepted; ja_state := sj_state job; ja_idempotent_replay := true |}
     else Err (conflict "idempotency key has different parameters"), s2).
Proof.
  intros Hh Hs Hr Ho Hk Hcl Hhe. apply history_inv in Hh as Hinv. clear Hh.
  pose proof (submit_accepted _ _ _ _ _ Hinv Hs) as [[Hv Hi (job & Hj & _ & Hid & Hhash & Hm & Hp)] Hnew].
  split; [done|]. assert (registry_inv path s1.1) as Hinv1.
  { eapply step_inv; [exact Hinv|]. pose proof (submit_step submission limit s) as Hst. by rewrite Hs in Hst. }
  assert (∃ job', ps_jobs (jr_state s2.1) !! ja_job_id accepted = Some job' ∧ same_job job job') as (job' & Hj' & Hsame).
  { clear -Hr Hj Hinv1 Hdisk Hworld. revert job Hj. induction Hr as [|a b c Hstep Hr IH]; intros job Hj; [by exists job|].
    destruct (step_job _ _ _ _ Hinv1 Hstep Hj) as (j & Hj1 & Hc).
    destruct (IH (step_inv _ _ Hinv1 Hstep) j Hj1) as (j' & ? & ?). exists j'. split; [done|].
    etrans; [by eapply change_same|done]. }
  exists job'. split; [done|]. pose proof (steps_index _ _ Hinv1 Hr) as Hidx.
  destruct s2 as [r w]. cbn [fst] in *. unfold submit_with_limit. rewrite registry_bind, Hcl, healthy_bind, Hhe, lift_bind, Hk, Hv, Ho.
  rewrite (lookup_weaken _ _ _ _ Hi Hidx), lift_bind, Hj'. cbn [ok_or].
  destruct Hsame as [-> _ -> -> _ -> _ _ _]. rewrite Hhash, Hm, Hp, Hid.
  repeat case_bool_decide; subst; done || congruence.
Qed.

(** ** Restart *)

Lemma step_policy s s' : registry_inv path s.1 → step path s s' → jr_policy s'.1 = jr_policy s.1.
Proof. intros Hinv Hs. by destruct (step_effects _ _ Hinv Hs) as [[] ? ?|[] ? ? ?]. Qed.

Lemma history_policy policy w0 s : history policy w0 s → jr_policy s.1 = policy.
Proof.
  intros [(r & w & Ho & _ & Hr)]. apply (open_spec path) in Ho as [state0 Ho].
  transitivity (jr_policy (r, w).1); [|by eapply op_policy]. pose proof (op_inv _ _ _ _ _ _ Ho : registry_inv path (r, w).1) as Hinv.
  clear Ho. induction Hr as [|a b c Hs Hr IH]; [done|]. rewrite IH by by eapply step_inv. by apply step_policy.
Qed.

Lemma trimmed_recovered policy job job1 :
  len (sj_events job) <= max_events_per_job policy → recovered job job1 → recovered job (trimmed policy job1).
Proof.
  intros Hb [Ht ->|output Ht Ha [] Hst Hres Herr|Ht [] Hst Hres Herr]; unfold trimmed.
  - rewrite trim_short by done. by apply recovered_terminal.
  - rewrite trim_spec. by apply (recovered_completed _ _ output).
  - rewrite trim_spec. by apply recovered_failed.
Qed.

Lemma recovered_ends job job' : recovered job job' → is_terminal (sj_state job') = true.
Proof. intros [? ->|? ? ? ? -> ? ?|? ? -> ? ?]; done. Qed.

End history.

(** ** The example run *)

Lemma example_steps :
  rtc (step example_path) example_opened example_1 ∧ rtc (step example_path) example_1 example_2 ∧
  rtc (step example_path) example_2 example_3.
Proof. split_and!; by apply rtc_once, step_request. Qed.

Lemma example_history_opened : history example_path example_policy example_start example_opened.
Proof.
  split. exists example_registry, example_start. split; [by vm_compute|]. split; [by intros k job ?|done].
Qed.

Lemma history_step {W} `{Disk W} `{JobWorld W} `{StoreJson} path `{!DiskLaws W path} policy w0 s s' :
  history path policy w0 s → rtc (step path) s s' → history path policy w0 s'.
Proof. intros [(r & w & ? & ? & ?)] ?. split. exists r, w. split_and!; [done|done|by etrans]. Qed.

Lemma example_histories :
  history example_path example_policy example_start example_1 ∧
  history example_path example_policy example_start example_2 ∧
  history example_path example_policy example_start example_3.
Proof.
  destruct example_steps as (H1 & H2 & H3). pose proof (history_step _ _ _ _ _ example_history_opened H1) as Hh1.
  pose proof (history_step _ _ _ _ _ Hh1 H2) as Hh2. split_and!; [done|done|by eapply history_step].
Qed.

Lemma registry_durable_witness :
  wf_state (jr_policy example_3.1) true (jr_state example_3.1) ∧
  ∀ policy' state w', load_state_with_policy example_path policy' example_3.2 = (Ok state, w') →
    state = jr_state example_3.1.
Proof.
  apply (registry_durable example_path (Hdisk := World_disk_laws _) (Hworld := World_job_laws _)
    (Hjson := example_json_laws) example_policy example_start). apply example_histories.
Defined.

Lemma jobs_never_regress_witness :
  ∃ job', ps_jobs (jr_state example_3.1) !! example_id = Some job' ∧ same_job example_queued job' ∧
    rtc forward (sj_state example_queued) (sj_state job') ∧
    sj_next_sequence example_queued <= sj_next_sequence job' ∧
    (is_terminal (sj_state example_queued) = true → job' = example_queued).
Proof.
  apply (jobs_never_regress example_path (Hdisk := World_disk_laws _) (Hworld := World_job_laws _)
    example_policy example_start example_1 example_3).
  - apply example_histories.
  - destruct example_steps as (_ & H2 & H3). by etrans.
  - by rewrite example_1_state.
Defined.

Lemma submit_idempotent_witness :
  submit_with_limit example_submission 16 example_2 =
  (Ok {| ja_job_id := example_id; ja_state := Running; ja_idempotent_replay := true |}, example_2).
Proof.
  destruct (submit_idempotent example_path (Hdisk := World_disk_laws _) (Hworld := World_job_laws _)
    example_policy example_start example_opened example_submission 16
    {| ja_job_id := example_id; ja_state := Queued; ja_idempotent_replay := false |} example_1 example_2
    example_submission 16) as (_ & job & Hj & Hs).
  - apply example_history_opened.
  - vm_compute. reflexivity.
  - apply example_steps.
  - done.
  - done.
  - vm_compute. reflexivity.
  - vm_compute. reflexivity.
  - rewrite Hs. rewrite example_2_state in Hj. injection Hj as <-. vm_compute. reflexivity.
Defined.

