(* ===== verification/JobSafety.v ===== *)
(** * What can go wrong in the job store

    Only the storage poisons a registry, with one exception in the interface
    of [transition]; and a registry that was closed stays closed. *)

From stdpp Require Import relations.
From S2P Require Import Prelude Core Bytes Sorting Orders Paths AgentApi Daemon JobStore JobStoreInv.
From S2P Require Import JobStoreOps JobStoreSteps JobStoreOpen JobExample JobHistory.

Section safety.
Context {W : Type} `{Disk W} `{JobWorld W} `{StoreJson} (path : PathBuf).
Context `{Hdisk : !DiskLaws W path} `{Hworld : !JobWorldLaws W path}.

Definition storage_errors : list JsonRpcError := [
  internal "cannot encode job store"; JsonRpcError_resource_limit "job store size limit exceeded";
  internal "cannot create state directory"; internal "cannot create job store transaction";
  internal "cannot write job store"; internal "cannot sync job store"; internal "cannot commit job store";
  internal "cannot sync state directory" ].

Lemma publish_errors bytes w e w' : publish_state path bytes w = (Err e, w') → e ∈ storage_errors.
Proof.
  unfold publish_state, mbind, D_bind, d_call, storage_errors.
  destruct (disk_create_dir_all _ w) as [[[]|] w1]; [|intros [= <- _]; set_solver].
  destruct (disk_new_temporary _ w1) as [[[]|] w2]; [|intros [= <- _]; set_solver].
  destruct (disk_write_all bytes w2) as [[[]|] w3]; [|intros [= <- _]; set_solver].
  destruct (disk_flush w3) as [[[]|] w4]; [|intros [= <- _]; set_solver].
  destruct (disk_sync_all w4) as [[[]|] w5]; [|intros [= <- _]; set_solver].
  destruct (disk_persist bytes path w5) as [[[]|] w6]; [done|intros [= <- _]; set_solver].
Qed.

Lemma commit_errors next r w e s' :
  jr_path r = path → wf_state (jr_policy r) true (trim_retained_events next (jr_policy r)).1 →
  commit next (r, w) = (Err e, s') → e ∈ storage_errors.
Proof.
  intros Hp Hwf. set (state := (trim_retained_events next (jr_policy r)).1) in *.
  change (commit next (r, w)) with (commit_with_sync state sync_parent (r, w)).
  unfold commit_with_sync, registry, d_lift, mbind, D_bind. cbn [fst].
  rewrite (proj2 (validate_state_Ok _ _ _) Hwf).
  destruct (encode_state state (max_store_bytes (jr_policy r))) as [bytes|e'] eqn:He.
  2: { intros [= <- _]. unfold encode_state in He. destruct (store_to_vec state) as [b|]; cbn in He; [|injection He as <-; set_solver].
       destruct (_ <? _); [|done]. injection He as <-. set_solver. }
  rewrite Hp. unfold d_second. destruct (publish_state path bytes w) as [[parent|e'] w1] eqn:Hpub.
  2: { intros [= <- _]. by eapply publish_errors. }
  unfold set_registry, sync_parent, d_call. destruct (disk_sync_dir parent w1) as [[[]|] w2]; [done|].
  intros [= <- _]. set_solver.
Qed.

(** Requests that respect the invariants of the data: a job ends through
    [complete] or [fail], which give it an outcome, and not through a bare
    [transition]; a submission passed the checks of the service. *)
Definition valid_request (req : request) : Prop :=
  match req with
  | ReqSubmit submission _ =>
      valid_identifier (su_owner submission) "session-" = true ∧
      su_method submission = operation_method (su_operation submission) ∧
      jl_max_threads (su_limits submission) ≠ 0 ∧ jl_max_memory (su_limits submission) ≠ 0 ∧
      jl_max_output (su_limits submission) ≠ 0
  | ReqTransition _ _ state _ => state ≠ Completed ∧ state ≠ Failed
  | _ => True
  end.

(** The run stays healthy, or it returns an error of the storage. *)
Definition sound {A} (out : RpcResult A * (JobRegistry * W)) : Prop :=
  jr_healthy out.2.1 = true ∨ ∃ e, out.1 = Err e ∧ e ∈ storage_errors.

Lemma commit_sound {B} next r w u r' w' (v : B) :
  registry_inv path r → jr_healthy r = true → wf_state (jr_policy r) true next →
  commit next (r, w) = (u, (r', w')) → sound ((u;; Ok v : RpcResult B), (r', w')).
Proof.
  intros Hinv Hh Hwf Hc. assert ((trim_retained_events next (jr_policy r)).1 = next) as Ht.
  { rewrite trim_bounded; [done|]. by apply wf_bounded. }
  destruct u as [[]|e].
  - left. apply (commit_effects path) in Hc; [|apply Hinv]. by inversion Hc; subst.
  - right. exists e. split; [done|]. eapply commit_errors; [apply Hinv| |exact Hc]. by rewrite Ht.
Qed.

Lemma update_sound {A} owner job_id (update : StoredJob → D W (StoredJob * A)) r w :
  registry_inv path r → jr_healthy r = true → changes (max_events_per_job (jr_policy r)) update →
  keeps (jr_policy r) update → sound (update_owned owner job_id update (r, w)).
Proof.
  intros Hinv Hh Hc Hk. destruct (update_owned owner job_id update (r, w)) as [res [r' w']] eqn:Hu.
  apply (update_owned_cases path) in Hu as [?|?|job e w1 _ Hu|job job' a w1 u r1 w2 Ho Hu Hcm He]; [by left..| |apply Hinv].
  apply owned_job_Ok in Ho as [Ho _]. eapply commit_sound; [done|done| |exact Hcm].
  eapply replace_wf; [apply Hinv|exact Ho| |].
  - eapply change_same. by eapply Hc.
  - eapply Hk; [exact Hu|]. by apply (ws_jobs _ _ _ (ri_wf _ _ Hinv) _ _ Ho).
Qed.

Lemma new_job_wf policy submission id now now' :
  max_events_per_job policy ≠ 0 → valid_identifier (su_owner submission) "session-" = true →
  su_method submission = operation_method (su_operation submission) →
  jl_max_threads (su_limits submission) ≠ 0 ∧ jl_max_memory (su_limits submission) ≠ 0 ∧
    jl_max_output (su_limits submission) ≠ 0 →
  validate_idempotency_key (su_idempotency_key submission) = Ok tt →
  wf_job policy true (appended (new_job submission id now) "queued" (max_events_per_job policy) now').
Proof.
  intros Hmax Ho Hm Hl Hk. set (job := appended _ _ _ _).
  pose proof (appended_same (new_job submission id now) "queued" (max_events_per_job policy) now') as [Hid Hown Hmeth _ Hkey _ Hlim Hop _].
  fold job in Hid, Hown, Hmeth, Hkey, Hlim, Hop.
  split; rewrite ?Hown, ?Hkey, ?Hlim, ?Hmeth, ?Hop; try done.
  - unfold job, appended. rewrite trim_spec. cbn. replace (N.to_nat (len [_] - _)) with 0%nat by (unfold len; cbn; lia).
    rewrite drop_0. split; cbn.
    + intros _. unfold len. cbn. lia.
    + by constructor.
    + done.
    + eexists. split; [done|]. cbn. split; [done|]. lia.
  - apply appended_outcome. done.
  - apply appended_marker. done.
Qed.

Lemma submitted_wf policy state submission now now' :
  wf_state policy true state → max_events_per_job policy ≠ 0 →
  N.of_nat (size (ps_jobs state)) < max_retained_jobs policy → ps_next_job state + 1 <= u64_MAX →
  ps_idempotency state !! idempotency_map_key (su_owner submission) (su_idempotency_key submission) = None →
  validate_idempotency_key (su_idempotency_key submission) = Ok tt → valid_request (ReqSubmit submission 0) →
  wf_state policy true (submitted state (idempotency_map_key (su_owner submission) (su_idempotency_key submission))
    (appended (new_job submission (job_name (ps_next_job state)) now) "queued" (max_events_per_job policy) now')).
Proof.
  intros Hwf Hmax Hsize Hnext Hi Hk (Ho & Hm & Hl). set (job := appended _ _ _ _). set (key := idempotency_map_key _ _) in *.
  assert (wf_job policy true job) as Hjob by by apply new_job_wf.
  pose proof (appended_same (new_job submission (job_name (ps_next_job state)) now) "queued"
    (max_events_per_job policy) now') as [Hid Hown _ _ Hkey _ _ _ _]. fold job in Hid, Hown, Hkey. cbn in Hid, Hown, Hkey.
  assert (job_key job = key) as Hjk by (unfold job_key; by rewrite Hown, Hkey).
  assert (ps_jobs state !! job_name (ps_next_job state) = None) as Hf by (eapply fresh_name; [done|lia]).
  destruct Hwf as [Hs Hr Hn Hsz Hjobs Hidx]. split; cbn.
  - done.
  - intros _. rewrite map_size_insert_None by done. lia.
  - lia.
  - by rewrite !map_size_insert_None, Hsz by done.
  - intros k j Hj. apply lookup_insert_Some in Hj as [[<- <-]|[Hne Hj]].
    + rewrite Hjk, lookup_insert_eq. split; [done|]. split; [done|]. split; [done|].
      exists (ps_next_job state). rewrite job_name_number by lia. split; [done|lia].
    + destruct (Hjobs k j Hj) as (? & ? & Hkj & n & ? & ?). split; [done|]. split; [done|].
      rewrite lookup_insert_ne by congruence. split; [done|]. exists n. split; [done|lia].
  - intros key' k Hkk. apply lookup_insert_Some in Hkk as [[<- <-]|[Hne Hkk]].
    + exists job. by rewrite lookup_insert_eq.
    + destruct (Hidx key' k Hkk) as (j & Hj & ->). exists j. by rewrite lookup_insert_ne by congruence.
Qed.

Lemma void_sound {A} (m : D (JobRegistry * W) A) s : sound (m s) → sound (void m s).
Proof. unfold sound, void, mbind, D_bind. destruct (m s) as [[v|e] s1]; naive_solver. Qed.

Lemma stays_healthy {A} (res : RpcResult A) (r : JobRegistry) (w : W) : jr_healthy r = true → sound (res, (r, w)).
Proof. by left. Qed.

Lemma submit_sound submission limit r w :
  registry_inv path r → jr_healthy r = true → valid_request (ReqSubmit submission limit) →
  sound (submit_with_limit submission limit (r, w)).
Proof.
  intros Hinv Hh Hv. destruct (submit_with_limit submission limit (r, w)) as [res [r' w']] eqn:Hs.
  apply (submit_cases path) in Hs as [e w1 _|job|now now' w1 u r1 w2 ? ? ? ? ? ? ? _ Hc _]; [by left..| |done].
  eapply commit_sound; [done|done| |exact Hc]. apply submitted_wf; try done; apply Hinv.
Qed.

Lemma expire_sound owner job_id r w :
  registry_inv path r → jr_healthy r = true → sound (expire_deadline owner job_id (r, w)).
Proof.
  intros Hinv Hh. unfold expire_deadline. rewrite healthy_bind, Hh, registry_bind, lift_bind.
  destruct (owned_job (jr_state r) owner job_id) as [job|e] eqn:Ho; [|by left]. rewrite second_bind.
  destruct (expire_job (max_events_per_job (jr_policy r)) job w) as [[[job' [cancel changed]]|e] w1] eqn:He; [|by left].
  destruct changed; [|by left]. rewrite return_bind. destruct (commit _ (r, w1)) as [u [r1 w2]] eqn:Hc.
  apply owned_job_Ok in Ho as [Ho _]. apply commit_sound with (v := cancel) in Hc; [exact Hc|done|done|].
  eapply replace_wf; [apply Hinv|exact Ho| |].
  - eapply change_same. by eapply expire_changes.
  - eapply expire_keeps; [apply Hinv|exact He|]. by apply (ws_jobs _ _ _ (ri_wf _ _ Hinv) _ _ Ho).
Qed.

(** Replacing every job by a changed one. *)
Lemma replace_all_wf policy state jobs' :
  wf_state policy true state →
  (∀ k, match ps_jobs state !! k, jobs' !! k with
        | Some job, Some job' => same_job job job' ∧ wf_job policy true job'
        | None, None => True
        | _, _ => False
        end) →
  wf_state policy true (set_jobs state jobs').
Proof.
  intros [Hs Hr Hn Hsz Hjobs Hidx] Hall.
  assert (dom jobs' = dom (ps_jobs state)) as Hdom.
  { apply set_eq. intros k. rewrite !elem_of_dom. specialize (Hall k).
    destruct (ps_jobs state !! k), (jobs' !! k); done. }
  assert (size jobs' = size (ps_jobs state)) as Hsize by by rewrite <-!size_dom, Hdom.
  assert (∀ job job', same_job job job' → job_key job' = job_key job) as Hkey.
  { intros job job' []. unfold job_key. congruence. }
  split; cbn; rewrite ?Hsize; try done.
  - intros k job' Hk. specialize (Hall k). rewrite Hk in Hall. destruct (ps_jobs state !! k) as [job|] eqn:Hj; [|done].
    destruct Hall as [Hsame Hwf], (Hjobs k job Hj) as (-> & _ & ? & ?). rewrite (Hkey _ _ Hsame).
    split; [symmetry; apply Hsame|done].
  - intros key k Hk. destruct (Hidx key k Hk) as (job & Hj & ->). specialize (Hall k). rewrite Hj in Hall.
    destruct (jobs' !! k) as [job'|]; [|done]. exists job'. split; [done|]. symmetry. apply Hkey, Hall.
Qed.

Lemma close_jobs_wf maximum policy entries jobs affected changed w res w' :
  maximum = max_events_per_job policy → maximum ≠ 0 →
  Forall (λ e, wf_job policy true e.2) entries → map_Forall (λ _ job, wf_job policy true job) jobs →
  close_jobs maximum entries jobs affected changed w = (Ok res, w') →
  map_Forall (λ _ job, wf_job policy true job) res.1.1.
Proof.
  intros -> Hmax. revert jobs affected changed w; induction entries as [|[k job] entries IH];
    intros jobs affected changed w He Hj; cbn [close_jobs].
  { by intros [= <- <-]. }
  apply Forall_cons in He as [Hk He]. destruct (is_terminal (sj_state job)); [by apply IH|].
  intros ([job' b] & w1 & Hc & Hr)%D_bind_Ok. eapply IH; [done| |exact Hr]. apply map_Forall_insert_2; [|done].
  by eapply close_keeps.
Qed.

Lemma close_sound r w :
  registry_inv path r → jr_healthy r = true → sound (close_and_cancel_all (r, w)).
Proof.
  intros Hinv Hh. unfold close_and_cancel_all.
  change ((set_registry (λ r, with_closed r true) ≫= ?f) (r, w)) with (f tt (with_closed r true, w)). cbn beta.
  set (r0 := with_closed r true). assert (registry_inv path r0) as Hinv0 by (destruct Hinv; by split).
  rewrite registry_bind, second_bind.
  destruct (close_jobs _ _ _ _ _ w) as [[[[jobs' affected] changed]|e] w1] eqn:Hcl; [|by left].
  destruct changed; [|by left]. rewrite return_bind. destruct (commit _ (r0, w1)) as [u [r1 w2]] eqn:Hc.
  apply commit_sound with (v := affected) in Hc; [exact Hc|done|done|].
  pose proof (close_all path _ _ _ _ _ _ _ Hcl) as Hall. pose proof (ri_wf _ _ Hinv0) as Hwf.
  assert (map_Forall (λ _ job, wf_job (jr_policy r0) true job) (ps_jobs (jr_state r0))) as Hold.
  { intros k job Hk. by apply (ws_jobs _ _ _ Hwf k job Hk). }
  apply (close_jobs_wf _ (jr_policy r0)) in Hcl; [|done|apply Hinv0| |done].
  2: { apply Forall_btree_list. exact Hold. }
  apply replace_all_wf; [done|]. intros k. specialize (Hall k).
  destruct (ps_jobs (jr_state r0) !! k) as [job|]; [|done]. destruct (jobs' !! k) as [job'|] eqn:Hk'; [|done].
  destruct Hall as [Hch _]. split; [by eapply change_same|]. by apply (Hcl k).
Qed.

(** C26: Only the storage makes a registry unhealthy.  A request that respects
    the invariants of the data leaves a healthy registry healthy, whatever
    answer it gets, unless it returns the error of a disk operation that
    failed or of a state that is too large to be written. *)
Theorem operations_sound policy w0 s req :
  history path policy w0 s → jr_healthy s.1 = true → valid_request req → sound (handle req s).
Proof.
  intros Hh Hhe Hv. apply (history_inv path) in Hh as Hinv. pose proof (ri_events _ _ Hinv) as Hmax.
  destruct s as [r w]. cbn in Hinv, Hhe, Hmax.
  destruct req; cbn [handle];
    unfold transition, request_cancel, finish_cancelled, complete, fail, record_publication;
    try apply void_sound; rewrite ?registry_bind; try (by apply submit_sound); try (by apply expire_sound);
    try (by apply close_sound); (apply update_sound; [done|done| |]).
  - apply transition_changes.
  - by apply transition_keeps; [|apply Hv..].
  - apply cancel_changes.
  - by apply cancel_keeps.
  - apply finish_changes.
  - by apply finish_keeps.
  - apply complete_changes.
  - by apply complete_keeps.
  - apply fail_changes.
  - by apply fail_keeps.
  - apply record_changes.
  - by apply record_keeps.
Qed.

(** ** A transition that cannot be stored *)

Lemma commit_invalid next r w s' res :
  jr_path r = path → ¬ wf_state (jr_policy r) true (trim_retained_events next (jr_policy r)).1 →
  commit next (r, w) = (res, s') → ∃ e, res = Err e ∧ s' = (with_healthy r false, w).
Proof.
  intros Hp Hwf. set (state := (trim_retained_events next (jr_policy r)).1) in *.
  change (commit next (r, w)) with (commit_with_sync state sync_parent (r, w)).
  unfold commit_with_sync, registry, d_lift, mbind, D_bind. cbn [fst].
  destruct (validate_state state (jr_policy r) true) as [[]|e] eqn:Hv; [by apply validate_state_Ok in Hv|].
  intros [= <- <-]. by exists e.
Qed.

(** [transition] accepts to end a running or cancelling job as completed
    or failed, but the state it then commits, a job that has ended without a
    result or an error, is invalid: the call never succeeds, it changes
    nothing in memory or in the file, and it poisons the registry, so that
    every later mutation is refused. *)
Theorem transition_to_outcome_poisons policy w0 s owner job_id job state phase :
  history path policy w0 s → jr_healthy s.1 = true → owned_job (jr_state s.1) owner job_id = Ok job →
  valid_transition (sj_state job) state = true → state = Completed ∨ state = Failed →
  sj_next_sequence job + 1 <= u64_MAX →
  ∃ e r' w', transition owner job_id state phase s = (Err e, (r', w')) ∧ jr_healthy r' = false ∧
    jr_state r' = jr_state s.1 ∧ contents path w' = contents path s.2 ∧
    ∀ submission limit w, ∃ e', submit_with_limit submission limit (r', w) = (Err e', (r', w)).
Proof.
  intros Hh Hhe Ho Hv Hstate Hseq. apply (history_inv path) in Hh as Hinv. destruct s as [r w]. cbn in Hinv, Hhe, Ho.
  unfold transition. rewrite registry_bind. unfold update_owned. rewrite healthy_bind, Hhe, registry_bind, lift_bind, Ho.
  rewrite second_bind. set (u := transition_job _ _ _ job w).
  assert (∃ now w1, u = (Ok (appended (set_state job state) phase (max_events_per_job (jr_policy r)) now, tt), w1) ∧
    contents path w1 = contents path w) as (now & w1 & Hu & Hw).
  { unfold u, transition_job. rewrite Hv. cbn [negb]. rewrite bool_decide_false by (by destruct Hstate as [->| ->]).
    unfold append_event, unix_ms, mbind, D_bind, d_lift, mret, D_ret. cbn [sj_next_sequence set_state set_outcome].
    rewrite checked_add_ok by done. cbn [ok_or].
    pose proof (unix_ms_contents (path := path) w) as Hq. destruct (world_unix_ms w) as [now w1]. by exists now, w1. }
  rewrite Hu, return_bind. destruct (commit _ (r, w1)) as [res [r' w']] eqn:Hc.
  apply owned_job_Ok in Ho as [Ho _]. destruct (ws_jobs _ _ _ (ri_wf _ _ Hinv) _ _ Ho) as (_ & Hwf & _).
  apply commit_invalid in Hc as (e & -> & [= -> ->]); [|apply Hinv|].
  - exists e, (with_healthy r false), w1. split_and!; try done. intros submission limit w2.
    unfold submit_with_limit. rewrite registry_bind. destruct (jr_closed (with_healthy r false)); [by eexists|].
    rewrite healthy_bind. by eexists.
  - rewrite trim_bounded.
    2: { cbn. apply map_Forall_insert_2; [apply appended_short|by apply wf_bounded, Hinv]. }
    intros Hbad. cbn [fst] in Hbad. destruct (ws_jobs _ _ _ Hbad job_id _ (lookup_insert_eq _ _ _)) as (_ & Hj & _).
    apply wj_outcome, appended_outcome in Hj.
    destruct (outcome_open job (wj_outcome _ _ _ Hwf)) as [Hres Herr].
    { by destruct (sj_state job), state; destruct Hstate. }
    unfold wf_outcome in Hj. cbn in Hj. rewrite Hres, Herr in Hj.
    destruct Hstate as [-> | ->]; destruct Hj as [Hj1 Hj2]; [by destruct Hj1|by destruct Hj2].
Qed.

(** ** Shutdown *)

Lemma close_affected maximum entries jobs affected changed w jobs' affected' changed' w' :
  NoDup (map fst entries) → (∀ k job, (k, job) ∈ entries → jobs !! k = Some job) →
  close_jobs maximum entries jobs affected changed w = (Ok (jobs', affected', changed'), w') →
  affected' = affected ++ map (λ entry, (sj_owner entry.2, sj_job_id entry.2))
    (filter (λ entry, is_terminal (sj_state entry.2) = false) entries) ∧
  (changed' = false → changed = false ∧ jobs' = jobs).
Proof.
  revert jobs affected changed w; induction entries as [|[k job] entries IH]; intros jobs affected changed w Hnd Hin; cbn [close_jobs].
  { intros [= <- <- <- <-]. by rewrite app_nil_r. }
  cbn [map fst] in Hnd. apply NoDup_cons in Hnd as [Hk Hnd].
  assert (jobs !! k = Some job) as Hjob by (apply Hin; by left). rewrite filter_cons. cbn [snd].
  destruct (is_terminal (sj_state job)) eqn:Ht.
  - rewrite decide_False by done. apply IH; [done|]. intros k' j ?. apply Hin. by right.
  - rewrite decide_True by done. intros ([job' job_changed] & w1 & Hc & Hr)%D_bind_Ok.
    apply IH in Hr as [-> Hch]; [|done|].
    + rewrite <-app_assoc. split; [done|]. intros Hf. destruct (Hch Hf) as [[-> ->]%orb_false_iff ->]. split; [done|].
      assert (job' = job) as -> by (unfold close_job in Hc; destruct (sj_state job); try (by injection Hc);
        by apply D_bind_Ok in Hc as (? & ? & _ & [= ])). by apply insert_id.
    + intros k' j Hj. rewrite lookup_insert_ne; [apply Hin; by right|]. intros <-. apply Hk.
      apply list_elem_of_fmap. by exists (k, j).
Qed.

Definition ended_or_cancelling (jobs : gmap string StoredJob) : Prop :=
  map_Forall (λ _ job, sj_state job ≠ Queued ∧ sj_state job ≠ Running) jobs.

Lemma close_Ok r w affected r' w' :
  registry_inv path r → close_and_cancel_all (r, w) = (Ok affected, (r', w')) →
  jr_closed r' = true ∧ affected = nonterminal_jobs r ∧ ended_or_cancelling (ps_jobs (jr_state r')) ∧
  dom (ps_jobs (jr_state r')) = dom (ps_jobs (jr_state r)).
Proof.
  intros Hinv. unfold close_and_cancel_all.
  change ((set_registry (λ r, with_closed r true) ≫= ?f) (r, w)) with (f tt (with_closed r true, w)). cbn beta.
  rewrite registry_bind, second_bind. set (r0 := with_closed r true).
  destruct (close_jobs _ _ _ _ _ w) as [[[[jobs' affected'] changed]|e] w1] eqn:Hcl; [|done].
  pose proof (close_all path _ _ _ _ _ _ _ Hcl) as Hall.
  destruct (close_change path (jr_policy r0) (jr_state r0) _ _ _ _ _ Hcl) as (_ & Hb & _); [apply Hinv|].
  apply close_affected in Hcl as [Haff Hch]; [|apply NoDup_btree_keys|by intros k job ?%elem_of_btree_list].
  assert (ended_or_cancelling jobs' ∧ dom jobs' = dom (ps_jobs (jr_state r))) as [Hend Hdom].
  { split.
    - intros k job' Hk. specialize (Hall k). rewrite Hk in Hall.
      destruct (ps_jobs (jr_state r0) !! k); [|done]. by destruct Hall as [_ ?].
    - apply set_eq. intros k. specialize (Hall k). rewrite !elem_of_dom. unfold r0 in Hall. cbn in Hall.
      destruct (ps_jobs (jr_state r) !! k), (jobs' !! k); done. }
  destruct changed.
  - rewrite return_bind. destruct (commit _ (r0, w1)) as [u [r1 w2]] eqn:Hc. apply (commit_effects path) in Hc; [|apply Hinv].
    rewrite trim_bounded in Hc by exact Hb. cbn [fst] in Hc.
    destruct Hc as [w3 _|e w3 _|e w3 _]; [|done..]. by intros [= -> <- <-].
  - destruct (Hch eq_refl) as [_ ->]. by intros [= <- <- <-].
Qed.
(** Jobs of a closed registry. *)
Lemma step_closed s s' :
  registry_inv path s.1 → jr_closed s.1 = true → ended_or_cancelling (ps_jobs (jr_state s.1)) → step path s s' →
  jr_closed s'.1 = true ∧ ended_or_cancelling (ps_jobs (jr_state s'.1)) ∧
  dom (ps_jobs (jr_state s'.1)) = dom (ps_jobs (jr_state s.1)).
Proof.
  intros Hinv Hc Hend Hstep. destruct (step_effects path _ _ Hinv Hstep) as [[_ _ Hcl _] -> _|[_ _ Hcl _] Hch Hd _].
  { split; [by apply Hcl|done]. }
  assert (dom (ps_jobs (jr_state s'.1)) = dom (ps_jobs (jr_state s.1))) as Hdom.
  { apply set_eq. intros k. split; [by apply Hd|]. intros [job Hk]%elem_of_dom.
    destruct (sc_jobs _ _ _ Hch k job Hk) as (job' & Hk' & _). apply elem_of_dom. by exists job'. }
  split; [by apply Hcl|]. split; [|done]. intros k job' Hk.
  assert (k ∈ dom (ps_jobs (jr_state s.1))) as [job Hj]%elem_of_dom by (rewrite <-Hdom; apply elem_of_dom; by exists job').
  destruct (sc_jobs _ _ _ Hch k job Hj) as (j & Hj' & Hjc). replace j with job' in Hjc by congruence.
  destruct (Hend k job Hj) as [? ?]. destruct (change_edge _ _ _ Hjc) as [->|He]; [done|].
  by destruct (sj_state job), (sj_state job').
Qed.

Lemma steps_closed s s' :
  registry_inv path s.1 → jr_closed s.1 = true → ended_or_cancelling (ps_jobs (jr_state s.1)) → rtc (step path) s s' →
  jr_closed s'.1 = true ∧ ended_or_cancelling (ps_jobs (jr_state s'.1)) ∧
  dom (ps_jobs (jr_state s'.1)) = dom (ps_jobs (jr_state s.1)).
Proof.
  intros Hinv Hc Hend Hr. induction Hr as [s|a b c Hstep Hr IH]; [done|].
  destruct (step_closed a b Hinv Hc Hend Hstep) as (Hc1 & Hend1 & Hdom1).
  destruct (IH (step_inv path _ _ Hinv Hstep) Hc1 Hend1) as (? & ? & Hdom2). split; [done|]. split; [done|]. congruence.
Qed.

(** C27: Closing the registry for shutdown names exactly the jobs that have
    not ended, and is final: whatever requests follow, every submission is
    refused and changes nothing, no job is added, and none is queued or
    running; what was running can only be cancelled, complete or fail. *)
Theorem close_is_final policy w0 s affected s1 s2 :
  history path policy w0 s → close_and_cancel_all s = (Ok affected, s1) → rtc (step path) s1 s2 →
  affected = nonterminal_jobs s.1 ∧ dom (ps_jobs (jr_state s2.1)) = dom (ps_jobs (jr_state s.1)) ∧
  (∀ k job, ps_jobs (jr_state s2.1) !! k = Some job → sj_state job ≠ Queued ∧ sj_state job ≠ Running) ∧
  ∀ submission limit, submit_with_limit submission limit s2 = (Err (conflict "job registry is closed"), s2).
Proof.
  intros Hh Hclose Hr. apply (history_inv path) in Hh as Hinv. clear Hh.
  assert (registry_inv path s1.1) as Hinv1.
  { eapply (step_inv path); [exact Hinv|]. pose proof (step_request path ReqClose s I) as Hst. cbn [handle] in Hst.
    by rewrite void_run, Hclose in Hst. }
  destruct s as [r w], s1 as [r1 w1]. apply close_Ok in Hclose as (Hc & -> & Hend & Hdom); [|done].
  destruct (steps_closed (r1, w1) s2 Hinv1 Hc Hend Hr) as (Hc2 & Hend2 & Hdom2). cbn in Hdom2.
  split; [done|]. split; [cbn; congruence|]. split; [exact Hend2|].
  intros submission limit. destruct s2 as [r2 w2]. unfold submit_with_limit. cbn in Hc2. by rewrite registry_bind, Hc2.
Qed.
End safety.

(** ** The example run *)

(** The job is cancelled while it runs; the disk works, so the registry stays
    healthy. *)
Lemma operations_sound_witness :
  sound (handle (ReqFail example_session example_id (internal "worker failed")) example_2).
Proof.
  apply (operations_sound example_path (Hdisk := World_disk_laws _) (Hworld := World_job_laws _)
    example_policy example_start).
  - apply example_histories.
  - vm_compute. reflexivity.
  - done.
Defined.

Lemma transition_to_outcome_poisons_witness :
  ∃ e r' w', transition example_session example_id Completed "done" example_2 = (Err e, (r', w')) ∧
    jr_healthy r' = false.
Proof.
  destruct (transition_to_outcome_poisons example_path (Hdisk := World_disk_laws _) (Hworld := World_job_laws _)
    example_policy example_start example_2 example_session example_id example_running Completed "done")
    as (e & r' & w' & Ht & Hh & _).
  - apply example_histories.
  - vm_compute. reflexivity.
  - rewrite example_2_state. vm_compute. reflexivity.
  - vm_compute. reflexivity.
  - by left.
  - vm_compute. discriminate.
  - exists e, r', w'. split; [exact Ht|exact Hh].
Defined.

Lemma close_is_final_witness :
  ∃ s1, close_and_cancel_all example_1 = (Ok [(example_session, example_id)], s1) ∧
    ∀ submission limit, submit_with_limit submission limit s1 = (Err (conflict "job registry is closed"), s1).
Proof.
  assert (close_and_cancel_all example_1 =
    (Ok [(example_session, example_id)], (close_and_cancel_all example_1).2)) as Hc by (vm_compute; reflexivity).
  eexists. split; [exact Hc|].
  apply (close_is_final example_path (Hdisk := World_disk_laws _) (Hworld := World_job_laws _)
    example_policy example_start example_1 [(example_session, example_id)]
    (close_and_cancel_all example_1).2 (close_and_cancel_all example_1).2 (proj1 example_histories) Hc).
  done.
Defined.
