(* ===== verification/JobRefinement.v ===== *)
(** * The job store as a durable state machine

    An abstract specification of the store: a map from identifiers to jobs,
    whose steps add a queued job or move jobs along the edges of their state
    machine.  The daemon with its file, its failing disk operations, crashes
    and restarts implements it. *)

From stdpp Require Import relations.
From S2P Require Import Prelude Core Bytes Sorting Orders Paths AgentApi Daemon JobStore JobStoreInv.
From S2P Require Import JobStoreOps JobStoreSteps JobStoreOpen JobExample JobHistory.

(** ** The specification *)

Record job_view := {
  jv_owner : SessionId;
  jv_operation : StoredOperation;
  jv_limits : JobLimits;
  jv_state : ApiJobState;
  jv_result : option Value;
  jv_error : option JsonRpcError;
}.

(** A job may move along an edge unless it has ended, keeping what it is. *)
Inductive spec_move (v : job_view) : job_view → Prop :=
  | move_none : spec_move v v
  | move_edge v' :
      is_terminal (jv_state v) = false → edge (jv_state v) (jv_state v') = true →
      jv_owner v' = jv_owner v → jv_operation v' = jv_operation v → jv_limits v' = jv_limits v →
      spec_move v v'.

Inductive spec_step (m : gmap JobId job_view) : gmap JobId job_view → Prop :=
  | spec_submit k v :
      m !! k = None → jv_state v = Queued → jv_result v = None → jv_error v = None → spec_step m (<[k := v]> m)
  | spec_advance m' : (∀ k, option_Forall2 spec_move (m !! k) (m' !! k)) → spec_step m m'.

(** ** The abstraction *)

Definition view (job : StoredJob) : job_view := {|
  jv_owner := sj_owner job; jv_operation := sj_operation job; jv_limits := sj_limits job;
  jv_state := sj_state job; jv_result := sj_result job; jv_error := sj_error job |}.
Definition jobs_view (state : PersistentState) : gmap JobId job_view := view <$> ps_jobs state.

Lemma view_move job job' :
  same_job job job' → is_terminal (sj_state job) = false → edge (sj_state job) (sj_state job') = true →
  spec_move (view job) (view job').
Proof. intros [_ Ho _ _ _ _ Hl Hop _] Ht He. by apply move_edge. Qed.

Lemma change_move maximum job job' : job_change maximum job job' → spec_move (view job) (view job').
Proof.
  intros Hc. destruct (change_edge _ _ _ Hc) as [->|He]; [constructor|].
  destruct (is_terminal (sj_state job)) eqn:Ht; [rewrite (change_terminal _ _ _ Hc Ht); constructor|].
  apply view_move; [by eapply change_same|done|done].
Qed.

Lemma state_change_spec policy state state' :
  state_change policy state state' → rtc spec_step (jobs_view state) (jobs_view state').
Proof.
  intros [Hjobs Hnew _ _]. set (k0 := job_name (ps_next_job state)).
  destruct (ps_jobs state !! k0) as [job0|] eqn:Hk0; [|destruct (ps_jobs state' !! k0) as [job0|] eqn:Hk0'].
  1, 3: apply rtc_once, spec_advance; intros k; unfold jobs_view; rewrite !lookup_fmap;
    destruct (ps_jobs state !! k) as [job|] eqn:Hk;
      [destruct (Hjobs k job Hk) as (job' & -> & Hc); constructor; by eapply change_move|];
    (destruct (ps_jobs state' !! k) as [job'|] eqn:Hk'; [|constructor]);
    destruct (Hnew k job' Hk' Hk) as [-> _]; unfold k0 in *; congruence.
  destruct (Hnew k0 job0 Hk0' Hk0) as (_ & submission & now & now' & Hjob).
  eapply rtc_l; [apply (spec_advance _ (delete k0 (jobs_view state')))|].
  - intros k. unfold jobs_view. destruct (decide (k = k0)) as [->|Hne].
    { rewrite lookup_delete_eq, lookup_fmap, Hk0. constructor. }
    rewrite lookup_delete_ne, !lookup_fmap by done.
    destruct (ps_jobs state !! k) as [job|] eqn:Hk.
    + destruct (Hjobs k job Hk) as (job' & -> & Hc). constructor. by eapply change_move.
    + destruct (ps_jobs state' !! k) as [job'|] eqn:Hk'; [|constructor].
      by destruct (Hnew k job' Hk' Hk) as [-> _].
  - replace (jobs_view state') with (<[k0 := view job0]> (delete k0 (jobs_view state'))) at 2.
    2: { rewrite insert_delete_eq. apply insert_id. unfold jobs_view. by rewrite lookup_fmap, Hk0'. }
    apply rtc_once, spec_submit; [apply lookup_delete_eq|..];
      rewrite Hjob; cbn; rewrite ?appended_state; try done;
      match goal with |- context [appended ?j ?ph ?m ?n] => destruct (appended_result j ph m n) as (Hres & Herr & _); by rewrite ?Hres, ?Herr end.
Qed.

Section refinement.
Context {W : Type} `{Disk W} `{JobWorld W} `{StoreJson} (path : PathBuf).
Context `{Hdisk : !DiskLaws W path} `{Hworld : !JobWorldLaws W path} `{Hjson : !StoreJsonLaws}.

(** Recovery moves every open job to an end. *)
Lemma recovered_move policy job job1 :
  recovered (trimmed policy job) job1 → spec_move (view job) (view (trimmed policy job1)).
Proof.
  assert (∀ j, view (trimmed policy j) = view j) as Hv by (intros j; unfold trimmed; by rewrite trim_spec).
  rewrite Hv, <-(Hv job). intros Hr. set (j := trimmed policy job) in *.
  destruct Hr as [Ht ->|output Ht _ Hs Hst _ _|Ht Hs Hst _ _]; [constructor|..].
  all: apply view_move; [done|done|rewrite Hst; by destruct (sj_state j)].
Qed.

Lemma recovery_spec policy state0 state :
  recovery policy state0 state → rtc spec_step (jobs_view state0) (jobs_view state).
Proof.
  intros [_ _ _ _ Hjobs]. apply rtc_once, spec_advance. intros k. specialize (Hjobs k). unfold jobs_view.
  rewrite !lookup_fmap. destruct (ps_jobs state0 !! k) as [job|], (ps_jobs state !! k) as [job'|]; try done; [|constructor].
  destruct Hjobs as (job1 & Hr & ->). constructor. by apply recovered_move.
Qed.

Lemma recovery_storable policy state0 state :
  recovery policy state0 state → storable_state state0 → storable_state state.
Proof.
  intros [_ _ _ _ Hjobs] Hs k job' Hk. specialize (Hjobs k). rewrite Hk in Hjobs.
  destruct (ps_jobs state0 !! k) as [job|] eqn:Hk0; [|done]. destruct Hjobs as (job1 & Hr & ->).
  assert (∀ j, storable_job (trimmed policy j) ↔ storable_job j) as Ht by (intros j; unfold trimmed; by rewrite trim_spec).
  apply Ht. destruct Hr as [_ ->|output _ _ _ _ Hres Herr|_ _ _ Hres Herr].
  - apply Ht. by apply (Hs k).
  - split; rewrite ?Hres, ?Herr; [by intros v [= <-]|done].
  - split; rewrite ?Hres, ?Herr; [done|]. intros e [= <-]. apply domain_storable.
Qed.

(** ** The daemon *)

(** A daemon runs with its registry, or has stopped.  It may stop within a
    request or while it opens the store, when the file is in the state before
    or after the change; the world may change but for the file. *)
Inductive life (policy : StorePolicy) : option JobRegistry * W → option JobRegistry * W → Prop :=
  | life_step s s' : step path s s' → life policy (Some s.1, s.2) (Some s'.1, s'.2)
  | life_stop r w req w' :
      storable_request req →
      contents path w' = contents path w ∨ contents path w' = contents path (handle req (r, w)).2.2 →
      life policy (Some r, w) (None, w')
  | life_open w r w' : open_with_policy path policy w = (Ok r, w') → life policy (None, w) (Some r, w')
  | life_no_open w w' :
      contents path w' = contents path w ∨ contents path w' = contents path (open_with_policy path policy w).2 →
      life policy (None, w) (None, w').

(** What the file holds, and that a running registry agrees with it. *)
Definition durable (s : option JobRegistry * W) (state : PersistentState) : Prop :=
  loads_as (contents path s.2) state ∧ storable_state state ∧
  ∀ r, s.1 = Some r → registry_inv path r ∧ jr_state r = state.

Lemma step_durable s s' state :
  step path s s' → durable (Some s.1, s.2) state →
  ∃ state', durable (Some s'.1, s'.2) state' ∧ rtc spec_step (jobs_view state) (jobs_view state').
Proof.
  intros Hstep (Hl & Hs & Hr). destruct (Hr _ eq_refl) as [Hinv Heq]. cbn in Hl. exists (jr_state s'.1).
  pose proof (step_effects path _ _ Hinv Hstep) as He.
  assert (storable_state (jr_state s'.1)) as Hs'.
  { rewrite <-Heq in Hs. destruct Hstep as [req [r w] Hreq|]; [by apply (handle_storable path)|done]. }
  assert (registry_inv path s'.1) as Hinv' by by eapply effect_inv.
  destruct He as [_ Hst Hc|_ Hch _ [_ _ (bytes & Hb & Hc)]].
  - rewrite Hst, Heq. split; [|done]. unfold durable. cbn. rewrite Hc. split_and!; [done|done|].
    intros r [= <-]. split; [done|congruence].
  - split; [|rewrite <-Heq; by eapply state_change_spec].
    unfold durable. cbn. rewrite Hc. split; [by apply store_json_inverse|]. split; [done|]. by intros r [= <-].
Qed.

Lemma life_durable policy s s' state :
  life policy s s' → durable s state →
  ∃ state', durable s' state' ∧ rtc spec_step (jobs_view state) (jobs_view state').
Proof.
  intros Hlife Hd. destruct Hlife as [s s' Hstep|r w req w' Hreq Hc|w r w' Ho|w w' Hc].
  - by eapply step_durable.
  - destruct Hc as [Hc|Hc].
    + exists state. destruct Hd as (Hl & Hs & _). split; [|done]. unfold durable. cbn. by rewrite Hc.
    + destruct (step_durable (r, w) (handle req (r, w)).2 state) as (state' & (Hl & Hs & _) & Hspec); [by apply step_request|done|].
      exists state'. split; [|done]. unfold durable. cbn. by rewrite Hc.
  - destruct Hd as (Hl & Hs & _). apply (open_spec path) in Ho as [state0 Ho].
    pose proof (op_loaded _ _ _ _ _ _ Ho) as Hl0. cbn in Hl.
    assert (state0 = state) as -> by by destruct (contents path w); unfold loads_as in *; congruence.
    pose proof (op_recovery _ _ _ _ _ _ Ho) as Hrec. exists (jr_state r). split; [|by eapply recovery_spec].
    split; [|split; [by eapply recovery_storable|]].
    + cbn. destruct (op_file _ _ _ _ _ _ Ho) as [[Hst ->]|(bytes & Hb & ->)]; [by rewrite Hst|].
      cbn. apply store_json_inverse; [done|]. by eapply recovery_storable.
    + intros r' [= <-]. split; [by eapply op_inv|done].
  - destruct Hd as (Hl & Hs & _). cbn in Hl.
    assert (contents path w' = contents path w ∨ ∃ state0 state' bytes, loads_as (contents path w) state0 ∧
      recovery policy state0 state' ∧ store_to_vec state' = Some bytes ∧ contents path w' = Some bytes) as Hcases.
    { destruct Hc as [Hc|Hc]; [by left|]. rewrite Hc. by apply (open_contents path). }
    destruct Hcases as [Hcw|(state0 & state' & bytes & Hl0 & Hrec & Hb & Hcw)].
    + exists state. split; [|done]. unfold durable. cbn. by rewrite Hcw.
    + assert (state0 = state) as -> by (unfold loads_as in *; destruct (contents path w); congruence).
      assert (storable_state state') as Hs' by by eapply recovery_storable.
      exists state'. split; [|by eapply recovery_spec]. unfold durable. cbn. rewrite Hcw.
      split; [by apply store_json_inverse|done].
Qed.

(** C21: The store implements the specification.  From a missing file, through
    any requests, failing disk operations, crashes within a request or during
    recovery, and restarts, the file always holds the jobs of a run of the
    specification, and a running registry has exactly these jobs in memory. *)
Theorem registry_refines_spec policy w0 s :
  contents path w0 = None → rtc (life policy) (None, w0) s →
  ∃ state, rtc spec_step ∅ (jobs_view state) ∧ loads_as (contents path s.2) state ∧
    ∀ r, s.1 = Some r → jr_state r = state.
Proof.
  intros Hw Hr. assert (durable (None, w0) PersistentState_default) as Hd.
  { unfold durable. cbn. rewrite Hw. split; [done|]. split; [by intros k job ?|done]. }
  assert (∃ state, durable s state ∧ rtc spec_step (jobs_view PersistentState_default) (jobs_view state)) as
    (state & (Hl & _ & Hm) & Hspec).
  { clear Hw. revert Hd Hr. generalize (@None JobRegistry, w0) as s0, PersistentState_default as state.
    intros s0 state Hd Hr. revert state Hd. induction Hr as [s1|s1 s2 s3 Hlife Hr IH]; intros state Hd; [by exists state|].
    destruct (life_durable _ _ _ _ Hlife Hd) as (state1 & Hd1 & Hs1). destruct (IH state1 Hd1) as (state2 & Hd2 & Hs2).
    exists state2. split; [done|]. by etrans. }
  exists state. split; [|split; [done|]].
  - change (jobs_view PersistentState_default) with (view <$> (∅ : gmap JobId StoredJob)) in Hspec.
    by rewrite fmap_empty in Hspec.
  - intros r Hr'. by apply Hm.
Qed.
End refinement.

(** The daemon opens the store, accepts the job and starts it, stops, and
    recovers it. *)
Lemma registry_refines_spec_witness :
  ∃ r w state, rtc (life example_path example_policy) (None, example_start) (Some r, w) ∧
    rtc spec_step ∅ (jobs_view state) ∧ jr_state r = state ∧
    jv_state <$> (jobs_view state !! example_id) = Some Completed.
Proof.
  set (r := {| jr_path := example_path; jr_state := example_state example_recovered; jr_policy := example_policy;
    jr_closed := false; jr_healthy := true |}). set (w := (open_with_policy example_path example_policy example_3.2).2).
  assert (rtc (life example_path example_policy) (None, example_start) (Some r, w)) as Hr.
  { destruct example_steps as (H1 & H2 & H3).
    assert (∀ s s', rtc (step example_path) s s' →
      rtc (life example_path example_policy) (Some s.1, s.2) (Some s'.1, s'.2)) as Hlift.
    { intros s s' Hs. induction Hs as [|s1 s2 s3 Hs _ IH]; [done|]. eapply rtc_l; [by apply life_step|done]. }
    eapply rtc_l; [by apply (life_open _ _ example_start example_registry example_start)|].
    etrans; [apply (Hlift _ _ H1)|]. etrans; [apply (Hlift _ _ H2)|]. etrans; [apply (Hlift _ _ H3)|].
    eapply rtc_l; [by apply (life_stop _ _ _ _ ReqClose example_3.2); [|left]|].
    apply rtc_once, life_open. vm_compute. reflexivity. }
  destruct (registry_refines_spec example_path (Hdisk := World_disk_laws _) (Hworld := World_job_laws _)
    (Hjson := example_json_laws) example_policy example_start (Some r, w)) as (state & Hspec & _ & Hstate).
  - done.
  - exact Hr.
  - exists r, w, state. split; [exact Hr|]. split; [exact Hspec|]. specialize (Hstate r eq_refl). split; [exact Hstate|].
    rewrite <-Hstate. vm_compute. reflexivity.
Defined.
