(* ===== verification/AgentParams.v ===== *)
(** * Parameters and results of the methods ([crates/pithos-agent-api/src/lib.rs])

    The payloads of requests and responses, and what the daemon uses of
    [serde_json] on them. *)

From S2P Require Import Prelude Core Bytes AgentApi JobStore.

Record SessionResume := { sm_session_id : SessionId; sm_resume_token : string }.

Record CapabilitiesParams := {
  cp_client_name : string;
  cp_protocol_version : N;
  cp_requested_scope : PathScope;
  cp_resume : option SessionResume;
}.

Record SessionCapability := {
  sy_session_id : SessionId;
  sy_capability_token : string;
  sy_resume_token : string;
  sy_expires_at_unix_ms : N;
}.

Record CapabilitiesResult := {
  cr_product : string;
  cr_version : string;
  cr_format_versions : list string;
  cr_protocol_version : N;
  cr_supported_methods : list string;
  cr_supported_codecs : list string;
  cr_supported_transforms : list string;
  cr_supported_profiles : list string;
  cr_mount : bool;
  cr_maximum_job_limits : JobLimits;
  cr_session : SessionCapability;
}.

Record EstimateParams := {
  ep_capability_token : string;
  ep_inputs : list PathBuf;
  ep_path_scope : PathScope;
  ep_profile : ApiProfile;
}.

Record EstimateResult := {
  et_input_bytes : N;
  et_estimated_memory : N;
  et_estimated_temp : N;
  et_output_upper_bound : N;
  et_eligible : bool;
}.

Record PackParams := {
  pp_context : JobContext;
  pp_inputs : list PathBuf;
  pp_output : PathBuf;
  pp_profile : ApiProfile;
}.

Record UnpackParams := { up_context : JobContext; up_archive : PathBuf; up_output : PathBuf }.

Record ArchiveJobParams := { aj_context : JobContext; aj_archive : PathBuf }.

Record ExtractParams := {
  xp_context : JobContext;
  xp_archive : PathBuf;
  xp_entry : PathBuf;
  xp_output : PathBuf;
}.

Record ReadRangeParams := {
  rp_context : JobContext;
  rp_archive : PathBuf;
  rp_entry : PathBuf;
  rp_offset : N;
  rp_length : N;
}.

Record JobStatusParams := { jp_capability_token : string; jp_job_id : JobId }.

Record SubscribeEventsParams := {
  vp_capability_token : string;
  vp_job_id : JobId;
  vp_after_sequence : N;
  vp_wait_ms : N;
}.

(** [serde_json::from_value], [to_value], [to_vec] and [json!] at these
    types. *)
Class ParamsJson := {
  capabilities_of_value : Value → option CapabilitiesParams;
  estimate_of_value : Value → option EstimateParams;
  pack_of_value : Value → option PackParams;
  unpack_of_value : Value → option UnpackParams;
  archive_job_of_value : Value → option ArchiveJobParams;
  extract_of_value : Value → option ExtractParams;
  read_range_of_value : Value → option ReadRangeParams;
  job_status_of_value : Value → option JobStatusParams;
  subscribe_events_of_value : Value → option SubscribeEventsParams;
  capabilities_to_value : CapabilitiesResult → option Value;
  estimate_to_value : EstimateResult → option Value;
  accepted_to_value : JobAccepted → option Value;
  snapshot_to_value : JobSnapshot → option Value;
  events_to_value : EventsResult → option Value;
  cancelled_to_value : JobId → ApiJobState → Value;
  response_to_vec : JsonRpcResponse Value → option (list byte);
  operation_to_vec : RpcMethod → StoredOperation → JobLimits → JobPriority → option (list byte);
}.
