(* ===== verification/Tasks.v ===== *)
(** * Asynchronous handlers

    A handler is a sequence of atomic sections: what it does while it holds a
    lock, or one call of a blocking worker.  Between two sections other
    handlers run, so that a pool of handlers advances by the sections of any
    of them in any order. *)

From stdpp Require Import relations.
From S2P Require Import Prelude Core Bytes AgentApi Daemon.

Inductive Task (S A : Type) : Type :=
  | Done (a : A)
  | Act (section : S → Task S A * S).
Arguments Done {S A}.
Arguments Act {S A}.

(** A handler with a [Result]. *)
Definition Async (S A : Type) : Type := Task S (RpcResult A).

Fixpoint async_bind {S A B} (m : Async S A) (k : A → Async S B) : Async S B :=
  match m with
  | Done (Ok a) => k a
  | Done (Err e) => Done (Err e)
  | Act section => Act (λ s, let '(m, s) := section s in (async_bind m k, s))
  end.
#[export] Instance Async_ret {S} : MRet (Async S) := λ A a, Done (Ok a).
#[export] Instance Async_bind {S} : MBind (Async S) := λ A B k m, async_bind m k.

Definition throw {S A} (e : JsonRpcError) : Async S A := Done (Err e).
Definition async_lift {S A} (r : RpcResult A) : Async S A := Done r.

(** One atomic section. *)
Definition atomic {S A} (m : D S A) : Async S A := Act (λ s, let '(r, s) := m s in (Done r, s)).

(** [match result { Err(error) => handler, ... }]. *)
Fixpoint on_error {S A} (m : Async S A) (handler : JsonRpcError → Async S A) : Async S A :=
  match m with
  | Done (Ok a) => Done (Ok a)
  | Done (Err e) => handler e
  | Act section => Act (λ s, let '(m, s) := section s in (on_error m handler, s))
  end.

(** The result as a value. *)
Fixpoint attempt {S A} (m : Async S A) : Async S (RpcResult A) :=
  match m with
  | Done r => Done (Ok r)
  | Act section => Act (λ s, let '(m, s) := section s in (attempt m, s))
  end.

(** A handler that nobody interrupts. *)
Fixpoint run_alone {S A} (m : Task S A) (s : S) : A * S :=
  match m with
  | Done a => (a, s)
  | Act section => let '(m, s) := section s in run_alone m s
  end.

Lemma Task_induction {S A} (P : Task S A → Prop) :
  (∀ a, P (Done a)) → (∀ section, (∀ s, P (section s).1) → P (Act section)) → ∀ m, P m.
Proof.
  intros Hd Ha. fix go 1. intros [a|section]; [apply Hd|]. apply Ha. intros s.
  exact (match section s as p return P p.1 with (m, _) => go m end).
Qed.

(** ** Pools *)

Section pool.
Context {S A : Type}.
Variable arrives : Task S A → Prop.
Variable outside : S → S → Prop.

Inductive pool_step : list (Task S A) * S → list (Task S A) * S → Prop :=
  | step_section before section after s :
      pool_step (before ++ Act section :: after, s) (before ++ (section s).1 :: after, (section s).2)
  | step_arrival m pool s : arrives m → pool_step (pool, s) (pool ++ [m], s)
  | step_outside pool s s' : outside s s' → pool_step (pool, s) (pool, s').

(** An uninterrupted handler is one way for the pool to go on. *)
Lemma pool_alone before m after s :
  rtc pool_step (before ++ m :: after, s) (before ++ Done (run_alone m s).1 :: after, (run_alone m s).2).
Proof.
  revert s. induction m as [a|section IH] using Task_induction; intros s; [apply rtc_refl|].
  eapply rtc_l; [apply step_section|]. cbn [run_alone]. specialize (IH s (section s).2).
  by destruct (section s) as [m s'].
Qed.

(** ** What every section does

    [I] holds between sections and [G] is what a step may do.  A handler is
    [safe] in a state if each of its sections, run after any steps of the
    others, keeps [I] and makes a step of [G], and [post] holds when it is
    done. *)
Variables (I : S → Prop) (G : S → S → Prop).
Fixpoint safe {B} (post : B → S → Prop) (m : Task S B) (s : S) : Prop :=
  match m with
  | Done b => post b s
  | Act section => ∀ s1, I s1 → rtc G s s1 →
      let '(m, s2) := section s1 in I s2 ∧ G s1 s2 ∧ safe post m s2
  end.
Definition keeps (m : Task S A) (s : S) : Prop := safe (λ _ _, True) m s.

Record pool_rules : Prop := {
  rule_arrives m s : arrives m → I s → keeps m s;
  rule_outside s s' : I s → outside s s' → I s' ∧ G s s';
}.

Lemma keeps_later m s s' : keeps m s → rtc G s s' → keeps m s'.
Proof. destruct m as [a|section]; [done|]. intros Hm Hs s1 Hi Hs1. apply Hm; [done|by trans s']. Qed.

Lemma pool_invariant pool s pool' s' :
  pool_rules → Forall (λ m, keeps m s) pool → I s → rtc pool_step (pool, s) (pool', s') →
  I s' ∧ rtc G s s' ∧ Forall (λ m, keeps m s') pool'.
Proof.
  intros Hr Hp Hi Hs. remember (pool, s) as c eqn:Hc. remember (pool', s') as c' eqn:Hc'. revert pool s Hc Hp Hi.
  induction Hs as [c|c c1 c2 Hs _ IH]; intros pool s -> Hp Hi.
  { injection Hc' as <- <-. split; [done|]. split; [apply rtc_refl|done]. }
  assert (Hnext : ∀ pool1 s1, c1 = (pool1, s1) → I s1 → rtc G s s1 → Forall (λ m, keeps m s1) pool1 →
    I s' ∧ rtc G s s' ∧ Forall (λ m, keeps m s') pool').
  { intros pool1 s1 -> Hi1 Hg Hp1. destruct (IH Hc' _ _ eq_refl Hp1 Hi1) as (? & ? & ?).
    split; [done|]. split; [by trans s1|done]. }
  inversion Hs as [before section after s0|m pool0 s0 Ha|pool0 s0 s1 Ho]; subst.
  - apply Forall_app in Hp as [Hb [Hm Ha]%Forall_cons]. specialize (Hm s Hi (rtc_refl _ _)).
    destruct (section s) as [m s1] eqn:Hsec. destruct Hm as (Hi1 & Hg & Hm). apply rtc_once in Hg.
    eapply Hnext; [reflexivity|done|done|]. apply Forall_app; split; [|constructor; [exact Hm|]].
    + eapply Forall_impl; [exact Hb|]. intros m'' ?. by apply (keeps_later _ s).
    + eapply Forall_impl; [exact Ha|]. intros m'' ?. by apply (keeps_later _ s).
  - eapply Hnext; [done|done|apply rtc_refl|]. apply Forall_app. split; [done|]. constructor; [by apply Hr|done].
  - destruct (rule_outside Hr _ _ Hi Ho) as [Hi1 Hg%rtc_once]. eapply Hnext; [done..|].
    eapply Forall_impl; [exact Hp|]. intros m'' ?. by apply (keeps_later _ s).
Qed.
End pool.

(** ** Rules *)

Section rules.
Context {S : Type} (I : S → Prop) (G : S → S → Prop).

Lemma safe_act {B} (post : B → S → Prop) section s :
  safe I G post (Act section) s ↔
  ∀ s1, I s1 → rtc G s s1 → I (section s1).2 ∧ G s1 (section s1).2 ∧ safe I G post (section s1).1 (section s1).2.
Proof. cbn. split; intros Hm s1 Hi Hs; specialize (Hm s1 Hi Hs); by destruct (section s1). Qed.

Lemma safe_weaken {B} (post post' : B → S → Prop) m s :
  safe I G post m s → (∀ b s', rtc G s s' → post b s' → post' b s') → safe I G post' m s.
Proof.
  revert s. induction m as [b|section IH] using Task_induction; intros s Hm Hp; [apply Hp; [apply rtc_refl|done]|].
  rewrite safe_act in Hm. rewrite safe_act. intros s1 Hi Hs. destruct (Hm s1 Hi Hs) as (? & ? & Hr). split; [done|]. split; [done|].
  apply (IH _ _ Hr). intros b s' ?. apply Hp. trans s1; [done|]. by eapply rtc_l.
Qed.

Lemma safe_bind {A B} (post : RpcResult B → S → Prop) (m : Async S A) (k : A → Async S B) s :
  safe I G (λ r s, match r with Ok a => safe I G post (k a) s | Err e => post (Err e) s end) m s →
  safe I G post (m ≫= k) s.
Proof.
  change (m ≫= k) with (async_bind m k). revert s.
  induction m as [[a|e]|section IH] using Task_induction; intros s Hm; [exact Hm..|].
  cbn [async_bind]. rewrite safe_act in Hm. rewrite safe_act. intros s1 Hi Hs. specialize (IH s1). specialize (Hm s1 Hi Hs).
  destruct (section s1) as [m s2]. destruct Hm as (? & ? & Hm). auto.
Qed.

Lemma safe_atomic {A} (post : RpcResult A → S → Prop) (m : D S A) s :
  (∀ s1, I s1 → rtc G s s1 → I (m s1).2 ∧ G s1 (m s1).2 ∧ post (m s1).1 (m s1).2) → safe I G post (atomic m) s.
Proof.
  intros Hm. unfold atomic. apply safe_act. intros s1 Hi Hs. specialize (Hm s1 Hi Hs). by destruct (m s1).
Qed.

Lemma safe_on_error {A} (post : RpcResult A → S → Prop) (m : Async S A) handler s :
  safe I G (λ r s, match r with Ok _ => post r s | Err e => safe I G post (handler e) s end) m s →
  safe I G post (on_error m handler) s.
Proof.
  revert s. induction m as [[a|e]|section IH] using Task_induction; intros s Hm; [exact Hm..|].
  cbn [on_error]. rewrite safe_act in Hm. rewrite safe_act. intros s1 Hi Hs. specialize (IH s1). specialize (Hm s1 Hi Hs).
  destruct (section s1) as [m s2]. destruct Hm as (? & ? & Hm). auto.
Qed.

Lemma safe_attempt {A} (post : RpcResult (RpcResult A) → S → Prop) (m : Async S A) s :
  safe I G (λ r, post (Ok r)) m s → safe I G post (attempt m) s.
Proof.
  revert s. induction m as [r|section IH] using Task_induction; intros s Hm; [exact Hm|].
  cbn [attempt]. rewrite safe_act in Hm. rewrite safe_act. intros s1 Hi Hs. specialize (IH s1). specialize (Hm s1 Hi Hs).
  destruct (section s1) as [m s2]. destruct Hm as (? & ? & Hm). auto.
Qed.

(** ** Handlers of which only the value matters *)

Definition returns {A} (P : A → S → Prop) (m : Async S A) (s : S) : Prop :=
  safe I G (λ r s, match r with Ok a => P a s | Err _ => True end) m s.

Lemma returns_ret {A} (P : A → S → Prop) a s : P a s → returns P (mret a) s.
Proof. done. Qed.
Lemma returns_throw {A} (P : A → S → Prop) e s : returns P (throw e) s.
Proof. done. Qed.
Lemma returns_lift {A} (P : A → S → Prop) r s : (∀ a, r = Ok a → P a s) → returns P (async_lift r) s.
Proof. intros Hr. by destruct r; [apply Hr|]. Qed.

Lemma returns_bind {A B} (P : A → S → Prop) (Q : B → S → Prop) (m : Async S A) k s :
  returns P m s → (∀ a s', rtc G s s' → P a s' → returns Q (k a) s') → returns Q (m ≫= k) s.
Proof. intros Hm Hk. apply safe_bind. eapply safe_weaken; [exact Hm|]. intros [a|e] s' Hs; [by apply Hk|done]. Qed.

Lemma returns_atomic {A} (P : A → S → Prop) (m : D S A) s :
  (∀ s1, I s1 → rtc G s s1 → I (m s1).2 ∧ G s1 (m s1).2 ∧ match (m s1).1 with Ok a => P a (m s1).2 | Err _ => True end) →
  returns P (atomic m) s.
Proof. intros Hm. apply safe_atomic. exact Hm. Qed.

Lemma returns_on_error {A} (P : A → S → Prop) (m : Async S A) handler s :
  returns P m s → (∀ e s', returns P (handler e) s') → returns P (on_error m handler) s.
Proof. intros Hm Hh. apply safe_on_error. eapply safe_weaken; [exact Hm|]. intros [a|e] s' Hs; [done|intros _; apply Hh]. Qed.

Lemma returns_attempt {A} (P : A → S → Prop) (m : Async S A) s :
  returns P m s → returns (λ r s, match r with Ok a => P a s | Err _ => True end) (attempt m) s.
Proof. intros Hm. apply safe_attempt. exact Hm. Qed.

Lemma returns_weaken {A} (P Q : A → S → Prop) (m : Async S A) s :
  returns P m s → (∀ a s', rtc G s s' → P a s' → Q a s') → returns Q m s.
Proof. intros Hm Hpq. eapply safe_weaken; [exact Hm|]. intros [a|e] s' Hs; [by apply Hpq|done]. Qed.

Lemma returns_if {A} (P : A → S → Prop) (b : bool) (m n : Async S A) s :
  (b = true → returns P m s) → (b = false → returns P n s) → returns P (if b then m else n) s.
Proof. intros Hm Hn. destruct b; auto. Qed.
End rules.
