(* ===== verification/ServiceLimits.v ===== *)
(** * Configuration and budgets of the daemon's service
    ([crates/pithos-daemon/src/service.rs])

    The configuration and its validation, the permits and the decoding limits
    that a job's limits translate to, and the public error of an engine
    error. *)

From S2P Require Import Prelude Core Bytes AgentApi DaemonLimits JobStore.

Definition MEMORY_PERMIT_BYTES : N := 1024 * 1024.

(** Durations are in milliseconds. *)
Record DaemonConfig := {
  dc_state_dir : PathBuf;
  dc_allowed_scope : PathScope;
  dc_protocol_limits : ProtocolLimits;
  dc_quota_policy : QuotaPolicy;
  dc_max_concurrent_jobs : N;
  dc_max_connections : N;
  dc_request_rate_per_second : N;
  dc_request_burst : N;
  dc_session_ttl : N;
  dc_max_event_wait : N;
  dc_transfer_ttl : N;
}.

(** [default_root] is the working directory, or [.] if there is none. *)
Definition DaemonConfig_new (state_dir default_root : PathBuf) : DaemonConfig := {|
  dc_state_dir := state_dir;
  dc_allowed_scope := {| ps_read_roots := [default_root]; ps_write_roots := [default_root] |};
  dc_protocol_limits := ProtocolLimits_default;
  dc_quota_policy := QuotaPolicy_default;
  dc_max_concurrent_jobs := 4;
  dc_max_connections := 32;
  dc_request_rate_per_second := 100;
  dc_request_burst := 200;
  dc_session_ttl := 8 * 60 * 60 * 1000;
  dc_max_event_wait := 30 * 1000;
  dc_transfer_ttl := 5 * 60 * 1000;
|}.

Definition permits_for_bytes (bytes : N) : RpcResult N :=
  let permits := N.max (saturating_add bytes (MEMORY_PERMIT_BYTES - 1) / MEMORY_PERMIT_BYTES) 1 in
  ok_or (JsonRpcError_resource_limit "memory quota too large") (usize_try_from permits).

(** [tokio::sync::Semaphore::MAX_PERMITS]. *)
Class SemaphoreLimit := max_permits : N.

Definition DaemonConfig_validate `{SemaphoreLimit} (self : DaemonConfig) : RpcResult unit :=
  let maximum := maximum_job_limits (dc_quota_policy self) in
  memory_permits ← permits_for_bytes (jl_max_memory maximum);
  if (dc_max_concurrent_jobs self =? 0) || (dc_max_connections self =? 0) ||
     (max_permits <? dc_max_concurrent_jobs self) || (max_permits <? dc_max_connections self) ||
     (jl_max_threads maximum =? 0) || (u32_MAX <? memory_permits) || (max_permits <? memory_permits)
  then Err (JsonRpcError_invalid_params "invalid daemon configuration") else Ok tt.

Definition enforce_bound (value maximum : N) (label : string) : RpcResult unit :=
  if maximum <? value then Err (JsonRpcError_resource_limit label) else Ok tt.

Definition engine_profile (profile : ApiProfile) : CompressionProfile :=
  match profile with
  | Raw => Core.Raw
  | Stream => Core.Stream
  | Random => Core.Random
  | Balanced => Core.Balanced
  | ArchiveMax => Core.ArchiveMax
  end.

Definition metadata_decode_limits (limits : JobLimits) : DecodeLimits :=
  let defaults := DecodeLimits_default in
  let entry_budget := N.min (N.max (jl_max_memory limits / 512) 1) (max_entries defaults) in
  {| max_entries := entry_budget;
     max_groups := N.min entry_budget (max_groups defaults);
     max_chunks := N.min entry_budget (max_chunks defaults);
     max_original_bytes := max_original_bytes defaults;
     max_group_output := max_group_output defaults;
     max_dependency_depth := max_dependency_depth defaults;
     max_rule_depth := max_rule_depth defaults;
     max_rules := max_rules defaults;
     max_expansion_ratio := max_expansion_ratio defaults;
     max_metadata_bytes := N.min (N.max (jl_max_memory limits / 2) 1) (max_metadata_bytes defaults);
     max_path_bytes := max_path_bytes defaults;
     max_path_components := max_path_components defaults;
     max_sections := max_sections defaults |}.

Definition output_decode_limits (limits : JobLimits) : DecodeLimits :=
  let defaults := DecodeLimits_default in
  let metadata := metadata_decode_limits limits in
  {| max_entries := max_entries metadata;
     max_groups := max_groups metadata;
     max_chunks := max_chunks metadata;
     max_original_bytes := jl_max_output limits;
     max_group_output := N.min (jl_max_output limits) (max_group_output defaults);
     max_dependency_depth := max_dependency_depth metadata;
     max_rule_depth := max_rule_depth metadata;
     max_rules := max_rules metadata;
     max_expansion_ratio := max_expansion_ratio metadata;
     max_metadata_bytes := max_metadata_bytes metadata;
     max_path_bytes := max_path_bytes metadata;
     max_path_components := max_path_components metadata;
     max_sections := max_sections metadata |}.

Definition engine_error_kind (error : PithosError) : PublicErrorKind :=
  match error with
  | InvalidMagic | InvalidRange | OverlappingSections | MissingSection _ | DuplicateSection | InvalidMetadata _ =>
      CorruptArchive
  | ChecksumMismatch | HashMismatch => IntegrityMismatch
  | UnsupportedContainerVersion => UnsupportedFormat
  | UnsupportedCodec | UnsupportedFileType => UnsupportedFeature
  | UnsafePath | UnsafeSymlink => UnsafePathKind
  | ResourceLimit _ | MemoryLimit | TemporarySpaceLimit | IntegerOverflow => ResourceLimitKind
  | InputChanged => InputChangedKind
  | Core.Cancelled => CancelledKind
  | OutputExists => JobConflict
  | InvalidPathEncoding | DependencyCycle | DependencyDepthExceeded | CandidateExceededIncumbent | Io _ => Internal
  end.

Definition engine_error_message (kind : PublicErrorKind) : string :=
  match kind with
  | CorruptArchive => "archive is corrupt"
  | IntegrityMismatch => "archive integrity mismatch"
  | UnsupportedFormat => "unsupported archive format"
  | UnsupportedFeature => "unsupported feature"
  | UnsafePathKind => "unsafe path"
  | ResourceLimitKind => "resource limit exceeded"
  | InputChangedKind => "input changed during processing"
  | CancelledKind => "job cancelled"
  | JobConflict => "job output conflict"
  | _ => "internal operation error"
  end.

Definition map_engine_error (error : PithosError) : JsonRpcError :=
  let kind := engine_error_kind error in
  JsonRpcError_domain kind (engine_error_message kind).

(** ** Permits *)

(** The permits of a size: its mebibytes rounded up, at least one. *)
Lemma permits_for_bytes_spec bytes :
  bytes <= u64_MAX →
  ∃ permits, permits_for_bytes bytes = Ok permits ∧ 1 <= permits ∧
    (bytes + (MEMORY_PERMIT_BYTES - 1) <= u64_MAX → bytes <= permits * MEMORY_PERMIT_BYTES).
Proof.
  intros Hb. unfold permits_for_bytes, usize_try_from, saturating_add. set (p := N.max _ 1).
  assert (Hp : p <= u64_MAX).
  { unfold p, MEMORY_PERMIT_BYTES. apply N.max_lub; [|done]. apply N.Div0.div_le_upper_bound. lia. }
  rewrite (proj2 (N.leb_le _ _) Hp). exists p. split; [done|]. split; [unfold p; lia|].
  intros Hs. unfold p. rewrite N.min_l by done. unfold MEMORY_PERMIT_BYTES in *.
  pose proof (N.div_mod (bytes + (1024 * 1024 - 1)) (1024 * 1024) ltac:(done)).
  pose proof (N.mod_lt (bytes + (1024 * 1024 - 1)) (1024 * 1024) ltac:(done)). lia.
Qed.

Lemma permits_monotone bytes bytes' permits permits' :
  bytes <= bytes' → permits_for_bytes bytes = Ok permits → permits_for_bytes bytes' = Ok permits' → permits <= permits'.
Proof.
  unfold permits_for_bytes, usize_try_from, saturating_add. intros Hb.
  destruct (_ <=? _); [|done]. destruct (_ <=? _); [|done]. intros [= <-] [= <-].
  apply N.max_le_compat_r, N.Div0.div_le_mono. lia.
Qed.
