(* ===== verification/Service.v ===== *)
(** * The daemon's service ([crates/pithos-daemon/src/service.rs])

    The state that connections share, and the handler of every method: the
    admission of a request, its authentication, the checks of its paths and
    quotas, and the submission of its job.  Each critical section and each
    call of a blocking worker is one atomic section. *)

From S2P Require Import Prelude Core Effects Bytes Format Codecs Paths FileTree Catalog Extract Pack.
From S2P Require Import AgentApi DaemonLimits FairScheduler Daemon DaemonPaths JobStore JobStoreInv JobStoreOps Sessions.
From S2P Require Import AgentParams Tasks ServiceLimits.

(** ** State *)

Record Session := {
  se_session_id : SessionId;
  se_token_hash : list byte;
  se_expires_at_unix_ms : N;
  se_authorizer : PathAuthorizer;
}.

Record ConnectionState := { cn_limiter : ConnectionRateLimiter; cn_session : option Session }.

Record SchedulerState := { sd_queue : FairScheduler; sd_draining : bool }.

Definition SchedulerState_default : SchedulerState := {| sd_queue := FairScheduler_default; sd_draining := false |}.

(** What is handed to the runtime to run in the background. *)
Inductive Background :=
  | DrainScheduler
  | ExpireJob (owner : SessionId) (job_id : JobId) (deadline : N)
  | CloseRegistry.

(** [Inner].  A cancellation token is a number; [nr_cancelled] are the
    cancelled ones; the slots are the free permits of the semaphores.  [nr_files] and [nr_world] are the file system of the
    users and the disk and clock of the daemon's own stores. *)
Record Inner (E W : Type) := {
  nr_registry : JobRegistry;
  nr_sessions : SessionRegistry;
  nr_connections : gmap N ConnectionState;
  nr_running : gmap string N;
  nr_cancelled : gset N;
  nr_job_slots : N;
  nr_thread_slots : N;
  nr_memory_slots : N;
  nr_scheduler : SchedulerState;
  nr_storage_degraded : bool;
  nr_stopping : bool;
  nr_background : list Background;
  nr_files : FS E;
  nr_world : W;
}.
Arguments nr_registry {E W}. Arguments nr_sessions {E W}. Arguments nr_connections {E W}.
Arguments nr_running {E W}. Arguments nr_cancelled {E W}. Arguments nr_job_slots {E W}.
Arguments nr_thread_slots {E W}. Arguments nr_memory_slots {E W}. Arguments nr_scheduler {E W}.
Arguments nr_storage_degraded {E W}. Arguments nr_stopping {E W}. Arguments nr_background {E W}.
Arguments nr_files {E W}. Arguments nr_world {E W}.

Definition service_denied : JsonRpcError := JsonRpcError_domain PermissionDenied "permission denied".
Definition unavailable : JsonRpcError := internal "daemon persistence is unavailable".

Section service.
Context {E W : Type} `{Env E} `{Disturb E} `{Disk W} `{JobWorld W} `{Rng W} `{StoreJson} `{SessionJson}.
Context `{Crc32c} `{Blake3} `{Backends} `{CatalogJson} `{RequestJson} `{ParamsJson}.

Abbreviation S := (Inner E W).
Implicit Types s : Inner E W.

(** ** Sections on parts of the state *)

Definition put_registry s (r : JobRegistry) (w : W) : S := {|
  nr_registry := r; nr_sessions := nr_sessions s; nr_connections := nr_connections s; nr_running := nr_running s;
  nr_job_slots := nr_job_slots s; nr_thread_slots := nr_thread_slots s; nr_memory_slots := nr_memory_slots s;
  nr_cancelled := nr_cancelled s; nr_scheduler := nr_scheduler s; nr_storage_degraded := nr_storage_degraded s;
  nr_stopping := nr_stopping s; nr_background := nr_background s; nr_files := nr_files s; nr_world := w |}.
Definition put_sessions s (r : SessionRegistry) (w : W) : S := {|
  nr_registry := nr_registry s; nr_sessions := r; nr_connections := nr_connections s; nr_running := nr_running s;
  nr_job_slots := nr_job_slots s; nr_thread_slots := nr_thread_slots s; nr_memory_slots := nr_memory_slots s;
  nr_cancelled := nr_cancelled s; nr_scheduler := nr_scheduler s; nr_storage_degraded := nr_storage_degraded s;
  nr_stopping := nr_stopping s; nr_background := nr_background s; nr_files := nr_files s; nr_world := w |}.
Definition put_connections s (connections : gmap N ConnectionState) : S := {|
  nr_registry := nr_registry s; nr_sessions := nr_sessions s; nr_connections := connections;
  nr_running := nr_running s; nr_job_slots := nr_job_slots s; nr_thread_slots := nr_thread_slots s;
  nr_memory_slots := nr_memory_slots s; nr_cancelled := nr_cancelled s; nr_scheduler := nr_scheduler s;
  nr_storage_degraded := nr_storage_degraded s; nr_stopping := nr_stopping s;
  nr_background := nr_background s; nr_files := nr_files s; nr_world := nr_world s |}.
Definition put_cancelled s (cancelled : gset N) : S := {|
  nr_registry := nr_registry s; nr_sessions := nr_sessions s; nr_connections := nr_connections s;
  nr_running := nr_running s; nr_job_slots := nr_job_slots s; nr_thread_slots := nr_thread_slots s;
  nr_memory_slots := nr_memory_slots s; nr_cancelled := cancelled; nr_scheduler := nr_scheduler s;
  nr_storage_degraded := nr_storage_degraded s; nr_stopping := nr_stopping s;
  nr_background := nr_background s; nr_files := nr_files s; nr_world := nr_world s |}.
Definition put_scheduler s (scheduler : SchedulerState) : S := {|
  nr_registry := nr_registry s; nr_sessions := nr_sessions s; nr_connections := nr_connections s;
  nr_running := nr_running s; nr_job_slots := nr_job_slots s; nr_thread_slots := nr_thread_slots s;
  nr_memory_slots := nr_memory_slots s; nr_cancelled := nr_cancelled s; nr_scheduler := scheduler;
  nr_storage_degraded := nr_storage_degraded s; nr_stopping := nr_stopping s;
  nr_background := nr_background s; nr_files := nr_files s; nr_world := nr_world s |}.
Definition put_flags s (degraded stopping : bool) : S := {|
  nr_registry := nr_registry s; nr_sessions := nr_sessions s; nr_connections := nr_connections s;
  nr_running := nr_running s; nr_job_slots := nr_job_slots s; nr_thread_slots := nr_thread_slots s;
  nr_memory_slots := nr_memory_slots s; nr_cancelled := nr_cancelled s; nr_scheduler := nr_scheduler s;
  nr_storage_degraded := degraded; nr_stopping := stopping;
  nr_background := nr_background s; nr_files := nr_files s; nr_world := nr_world s |}.
Definition put_background s (background : list Background) : S := {|
  nr_registry := nr_registry s; nr_sessions := nr_sessions s; nr_connections := nr_connections s;
  nr_running := nr_running s; nr_job_slots := nr_job_slots s; nr_thread_slots := nr_thread_slots s;
  nr_memory_slots := nr_memory_slots s; nr_cancelled := nr_cancelled s; nr_scheduler := nr_scheduler s;
  nr_storage_degraded := nr_storage_degraded s; nr_stopping := nr_stopping s;
  nr_background := background; nr_files := nr_files s; nr_world := nr_world s |}.
Definition put_user_files s (files : FS E) : S := {|
  nr_registry := nr_registry s; nr_sessions := nr_sessions s; nr_connections := nr_connections s;
  nr_running := nr_running s; nr_job_slots := nr_job_slots s; nr_thread_slots := nr_thread_slots s;
  nr_memory_slots := nr_memory_slots s; nr_cancelled := nr_cancelled s; nr_scheduler := nr_scheduler s;
  nr_storage_degraded := nr_storage_degraded s; nr_stopping := nr_stopping s;
  nr_background := nr_background s; nr_files := files; nr_world := nr_world s |}.

Definition on_registry {A} (m : D (JobRegistry * W) A) : D S A := λ s,
  let '(r, (registry, w)) := m (nr_registry s, nr_world s) in (r, put_registry s registry w).
Definition on_sessions {A} (m : D (SessionRegistry * W) A) : D S A := λ s,
  let '(r, (sessions, w)) := m (nr_sessions s, nr_world s) in (r, put_sessions s sessions w).
Definition on_world {A} (m : D W A) : D S A := λ s,
  let '(r, w) := m (nr_world s) in (r, put_registry s (nr_registry s) w).
Definition on_files {A} (m : D (FS E) A) : D S A := λ s,
  let '(r, files) := m (nr_files s) in (r, put_user_files s files).
Definition gets {A} (f : S → A) : D S A := λ s, (Ok (f s), s).
Definition modify (f : S → S) : D S unit := λ s, (Ok tt, f s).
Definition spawn (work : Background) : Async S unit :=
  atomic (modify (λ s, put_background s (nr_background s ++ [work]))).

Definition service_unix_ms : D S N := on_world unix_ms.

(** ** Degradation *)

Definition cancel_tokens s (tokens : gset N) : S := put_cancelled s (nr_cancelled s ∪ tokens).

Definition drain_queue : D S unit :=
  queue ← gets (λ s, sd_queue (nr_scheduler s));
  '(_, queue) ← d_lift (ok_or (internal "panic: the queue is corrupt") (FairScheduler_drain queue));
  modify (λ s, put_scheduler s {| sd_queue := queue; sd_draining := sd_draining (nr_scheduler s) |}).

Definition cancel_all_running : D S unit :=
  modify (λ s, cancel_tokens s (list_to_set (map snd (map_to_list (nr_running s))))).

Definition mark_storage_degraded : Async S unit :=
  first_failure ← atomic (λ s, (Ok (negb (nr_storage_degraded s)), put_flags s true (nr_stopping s)));
  atomic (modify (λ s, put_flags s (nr_storage_degraded s) true));;
  atomic drain_queue;;
  atomic cancel_all_running;;
  if (first_failure : bool) then spawn CloseRegistry else mret tt.

(** The error of an operation on the registry. *)
Definition degrade_on (degrades : bool) (error : JsonRpcError) {A} : Async S A :=
  (if degrades then mark_storage_degraded else mret tt);;
  throw error.
Definition registry_error {A} (error : JsonRpcError) : Async S A :=
  healthy ← atomic (gets (λ s, jr_healthy (nr_registry s)));
  degrade_on (negb healthy || bool_decide (je_kind error = Internal)) error.

(** ** Admission and authentication *)

Variables (config : DaemonConfig) (allowed_authorizer : PathAuthorizer).

Definition check_connection_rate (connection_id : N) : D S unit :=
  connections ← gets nr_connections;
  if bool_decide (connections !! connection_id = None) && (dc_max_connections config <=? N.of_nat (size connections))
  then d_fail (JsonRpcError_resource_limit "connection limit exceeded") else
  let connection := default
    {| cn_limiter := ConnectionRateLimiter_new (dc_request_rate_per_second config) (dc_request_burst config);
       cn_session := None |} (connections !! connection_id) in
  now ← service_unix_ms;
  let '(allowed, limiter) := ConnectionRateLimiter_allow (cn_limiter connection) now in
  modify (λ s, put_connections s
    (<[connection_id := {| cn_limiter := limiter; cn_session := cn_session connection |}]> connections));;
  if negb allowed then d_fail (JsonRpcError_resource_limit "request rate exceeded") else mret tt.

Definition disconnect (connection_id : N) : D S unit :=
  modify (λ s, put_connections s (delete connection_id (nr_connections s))).

Definition session_of (connections : gmap N ConnectionState) (connection_id : N) : option Session :=
  connection ← connections !! connection_id;
  cn_session connection.

Definition authenticate (connection_id : N) (token : string) : D S Session :=
  if negb (slen token =? 64) then d_fail service_denied else
  connections ← gets nr_connections;
  session ← d_lift (ok_or service_denied (session_of connections connection_id));
  now ← service_unix_ms;
  if se_expires_at_unix_ms session <=? now then d_fail service_denied else
  if negb (constant_time_equal (se_token_hash session) (blake3 (token_bytes token)))
  then d_fail service_denied else
  mret session.

Definition validate_context (context : JobContext) : D S unit :=
  d_lift (QuotaPolicy_validate (dc_quota_policy config) (jc_limits context));;
  if (slen (jc_idempotency_key context) =? 0) || (256 <? slen (jc_idempotency_key context))
  then d_fail (JsonRpcError_invalid_params "invalid idempotency key") else
  match jl_deadline_unix_ms (jc_limits context) with
  | Some deadline =>
      now ← service_unix_ms;
      if deadline <=? now then d_fail (JsonRpcError_resource_limit "job deadline expired") else mret tt
  | None => mret tt
  end.

(** ** Sessions *)

Definition already_open : JsonRpcError := conflict "connection already has a session".

(** The body of the blocking task of [open_session]. *)
Definition establish_session (attempts : nat) (params : CapabilitiesParams) (now expires : N) :
    Async S (SessionId * string * PathAuthorizer) :=
  match cp_resume params with
  | Some resume =>
      resumed ← atomic (on_sessions (SessionRegistry_resume (sm_session_id resume) (sm_resume_token resume) now expires));
      authorizer ← atomic (on_files (PathAuthorizer_grant allowed_authorizer (rs_scope resumed)));
      mret (sm_session_id resume, rs_resume_token resumed, authorizer)
  | None =>
      authorizer ← atomic (on_files (PathAuthorizer_grant allowed_authorizer (cp_requested_scope params)));
      created ← atomic (on_sessions (SessionRegistry_create attempts (PathAuthorizer_scope authorizer) now expires));
      mret (cs_session_id created, cs_resume_token created, authorizer)
  end.

(** The section that gives the connection its session. *)
Definition install_session (connection_id : N) (session : Session) : D S unit :=
  connections ← gets nr_connections;
  connection ← d_lift (ok_or (internal "connection state missing") (connections !! connection_id));
  match cn_session connection with
  | Some _ => d_fail already_open
  | None =>
      modify (λ s, put_connections s
        (<[connection_id := {| cn_limiter := cn_limiter connection; cn_session := Some session |}]> connections))
  end.

Definition capabilities (session : SessionCapability) : CapabilitiesResult := {|
  cr_product := "Pithos R1";
  cr_version := "0.1.0";
  cr_format_versions := ["PAF 0.1-draft"];
  cr_protocol_version := AGENT_PROTOCOL_VERSION;
  cr_supported_methods := map RpcMethod_as_str RpcMethod_ALL;
  cr_supported_codecs := ["STORE"; "Zstandard"; "Brotli"; "LZMA2"];
  cr_supported_transforms := [];
  cr_supported_profiles := ["raw"; "stream"; "random"; "balanced"; "archive-max"];
  cr_mount := false;
  cr_maximum_job_limits := maximum_job_limits (dc_quota_policy config);
  cr_session := session |}%string.

Definition open_session (attempts : nat) (connection_id : N) (params : CapabilitiesParams) : Async S CapabilitiesResult :=
  if negb (cp_protocol_version params =? AGENT_PROTOCOL_VERSION) || (slen (cp_client_name params) =? 0) ||
     (128 <? slen (cp_client_name params))
  then throw (JsonRpcError_invalid_params "unsupported client protocol") else
  existing ← atomic (gets (λ s, session_of (nr_connections s) connection_id));
  match existing with
  | Some _ => throw already_open
  | None =>
      now ← atomic service_unix_ms;
      let expires := saturating_add now (N.min (dc_session_ttl config) u64_MAX) in
      '(session_id, resume_token, authorizer) ← on_error (establish_session attempts params now expires)
        (λ error, degrade_on (bool_decide (je_kind error = Internal)) error);
      capability_token ← atomic (on_world (random_hex 32));
      atomic (install_session connection_id {|
        se_session_id := session_id; se_token_hash := blake3 (token_bytes capability_token);
        se_expires_at_unix_ms := expires; se_authorizer := authorizer |});;
      mret (capabilities {|
        sy_session_id := session_id; sy_capability_token := capability_token;
        sy_resume_token := resume_token; sy_expires_at_unix_ms := expires |})
  end.

(** ** Submission *)

Definition operation_hash (method : RpcMethod) (operation : StoredOperation) (limits : JobLimits)
    (priority : JobPriority) : RpcResult (list byte) :=
  bytes ← ok_or (internal "cannot canonicalize job parameters") (operation_to_vec method operation limits priority);
  Ok (blake3 bytes).

(** The section of [schedule] inside the lock: whether the queue is to be
    drained. *)
Definition schedule_push (job : ScheduledJob) : D S (option bool) :=
  scheduler ← gets nr_scheduler;
  stopping ← gets nr_stopping;
  if (stopping : bool) then mret None else
  queue ← d_lift (ok_or (internal "panic: the queue is corrupt") (FairScheduler_push (sd_queue scheduler) job));
  modify (λ s, put_scheduler s {| sd_queue := queue; sd_draining := true |});;
  mret (Some (negb (sd_draining scheduler))).

Definition schedule (owner : SessionId) (job_id : JobId) (priority : JobPriority) (deadline : option N) :
    Async S unit :=
  should_start ← atomic (schedule_push {| FairScheduler.sj_owner := owner; FairScheduler.sj_job_id := job_id;
    FairScheduler.sj_priority := priority; sj_deadline_unix_ms := deadline |});
  match should_start with
  | None => mret tt
  | Some should_start =>
      (if (should_start : bool) then spawn DrainScheduler else mret tt);;
      match deadline with Some deadline => spawn (ExpireJob owner job_id deadline) | None => mret tt end
  end.

Definition service_submit (session : Session) (method : RpcMethod) (context : JobContext) (operation : StoredOperation) :
    Async S Value :=
  params_hash ← async_lift (operation_hash method operation (jc_limits context) (jc_priority context));
  accepted ← on_error
    (atomic (on_registry (submit_with_limit {|
       su_owner := se_session_id session; su_method := method; su_priority := jc_priority context;
       su_idempotency_key := jc_idempotency_key context; su_params_hash := params_hash;
       su_limits := jc_limits context; su_operation := operation |}
       (max_jobs_per_session (dc_quota_policy config)))))
    registry_error;
  healthy ← atomic (gets (λ s, jr_healthy (nr_registry s)));
  if negb healthy then mark_storage_degraded;; throw unavailable else
  (if negb (ja_idempotent_replay accepted)
   then schedule (se_session_id session) (ja_job_id accepted) (jc_priority context)
          (jl_deadline_unix_ms (jc_limits context))
   else mret tt);;
  async_lift (ok_or (internal "cannot encode job acceptance") (accepted_to_value accepted)).

(** [spawn] of [expire_job], after its sleep. *)
Definition service_expire (owner : SessionId) (job_id : JobId) : Async S unit :=
  cancel_worker ← on_error (atomic (on_registry (expire_deadline owner job_id)))
    (λ error, on_error (registry_error error) (λ _, mret false));
  if (cancel_worker : bool)
  then atomic (modify (λ s, match nr_running s !! job_id with Some token => cancel_tokens s {[token]} | None => s end))
  else mret tt.
End service.
