(* ===== verification/Measure.v ===== *)
(** * Measuring inputs ([measure_path] of [crates/pithos-daemon/src/service.rs])

    The number of entries below a path and the size of its files, by a walk
    over the directories. *)

From S2P Require Import Prelude Core Effects Bytes Paths FileTree AgentApi Daemon DaemonPaths.

Record PathMeasurement := { ms_bytes : N; ms_entries : N; ms_max_file_bytes : N }.
Definition PathMeasurement_default : PathMeasurement := {| ms_bytes := 0; ms_entries := 0; ms_max_file_bytes := 0 |}.

Definition measure_denied : JsonRpcError := JsonRpcError_domain PermissionDenied "permission denied".

Section measure.
Context {E : Type} `{Env E} `{Disturb E}.

(** [fs::symlink_metadata]: the type, and the length of a file. *)
Definition metadata_len (path : PathBuf) : M (FS E) (Node * N) :=
  node ← symlink_metadata path;
  fs ← files;
  mret (node, match node with
              | FileNode inode => match ft_inodes fs !! inode with Some value => len (in_content value) | None => 0 end
              | _ => 0
              end).

(** The body of [for entry in fs::read_dir(directory)?]. *)
Definition measure_entry (directory : PathBuf) (acc : PathMeasurement * list PathBuf) (name : Name) :
    D (FS E) (PathMeasurement * list PathBuf) :=
  let '(measurement, pending) := acc in
  d_fs measure_denied io;;
  let entries := saturating_add (ms_entries measurement) 1 in
  if 10000000 <? entries then d_fail (JsonRpcError_resource_limit "input entry limit exceeded") else
  let path := path_push directory name in
  '(node, length) ← d_fs measure_denied (metadata_len path);
  match node with
  | FileNode _ =>
      bytes ← d_lift (ok_or (JsonRpcError_resource_limit "input size overflow") (checked_add (ms_bytes measurement) length));
      mret ({| ms_bytes := bytes; ms_entries := entries;
               ms_max_file_bytes := N.max (ms_max_file_bytes measurement) length |}, pending)
  | DirNode => mret ({| ms_bytes := ms_bytes measurement; ms_entries := entries;
                        ms_max_file_bytes := ms_max_file_bytes measurement |}, path :: pending)
  | LinkNode _ => mret ({| ms_bytes := ms_bytes measurement; ms_entries := entries;
                           ms_max_file_bytes := ms_max_file_bytes measurement |}, pending)
  end.

Fixpoint measure_entries (directory : PathBuf) (acc : PathMeasurement * list PathBuf) (names : list Name) :
    D (FS E) (PathMeasurement * list PathBuf) :=
  match names with
  | [] => mret acc
  | name :: names => acc ← measure_entry directory acc name; measure_entries directory acc names
  end.

(** [while let Some(directory) = pending.pop()]; the head of the list is the
    top of the stack, and every directory is on it once. *)
Fixpoint measure_loop (fuel : nat) (measurement : PathMeasurement) (pending : list PathBuf) : D (FS E) PathMeasurement :=
  match pending with
  | [] => mret measurement
  | directory :: pending =>
      match fuel with
      | O => d_fail (JsonRpcError_domain Internal "model: out of fuel")
      | S fuel =>
          names ← d_fs measure_denied (read_dir directory);
          '(measurement, pending) ← measure_entries directory (measurement, pending) names;
          measure_loop fuel measurement pending
      end
  end.

Definition measure_path (path : PathBuf) : D (FS E) PathMeasurement := λ s,
  ('(node, length) ← d_fs measure_denied (metadata_len path);
   match node with
   | LinkNode _ => mret {| ms_bytes := 0; ms_entries := 1; ms_max_file_bytes := 0 |}
   | FileNode _ => mret {| ms_bytes := length; ms_entries := 1; ms_max_file_bytes := length |}
   | DirNode =>
       measure_loop (S (size (ft_nodes s.1))) {| ms_bytes := 0; ms_entries := 1; ms_max_file_bytes := 0 |} [path]
   end) s.
End measure.
