(* ===== verification/Requests.v ===== *)
(** * Requests ([dispatch] and [handle_frame] of
    [crates/pithos-daemon/src/service.rs])

    What the service does for every method, from the bytes of a frame to the
    bytes of the response. *)

From S2P Require Import Prelude Core Effects Bytes Format Codecs Paths FileTree Catalog Extract Unpack Pack.
From S2P Require Import AgentApi DaemonLimits FairScheduler Daemon DaemonPaths JobStore Sessions.
From S2P Require Import AgentParams Tasks ServiceLimits Service Measure.

Section requests.
Context {E W : Type} `{Env E} `{Disturb E} `{Disk W} `{JobWorld W} `{Rng W} `{StoreJson} `{SessionJson}.
Context `{Crc32c} `{Blake3} `{Backends} `{CatalogJson} `{RequestJson} `{ParamsJson}.
Variables (config : DaemonConfig) (allowed_authorizer : PathAuthorizer).

Abbreviation S := (Inner E W).

Definition decode_params {T} (read : Value → option T) (value : Value) : Async S T :=
  async_lift (ok_or (JsonRpcError_invalid_params "invalid parameters") (read value)).

Definition authorize_read (session : Session) (request : PathAuthorizer) (path : PathBuf) : Async S PathBuf :=
  path ← atomic (on_files (PathAuthorizer_authorize_read (se_authorizer session) path));
  atomic (on_files (PathAuthorizer_authorize_read request path)).

Definition authorize_write (session : Session) (request : PathAuthorizer) (path : PathBuf) : Async S PathBuf :=
  path ← atomic (on_files (PathAuthorizer_authorize_write (se_authorizer session) path));
  atomic (on_files (PathAuthorizer_authorize_write request path)).

Definition request_authorizer (scope : PathScope) : Async S PathAuthorizer :=
  atomic (on_files (PathAuthorizer_new scope)).

(** ** Estimates *)

Fixpoint estimate_loop (session : Session) (request : PathAuthorizer) (inputs : list PathBuf) (total : PathMeasurement) :
    Async S PathMeasurement :=
  match inputs with
  | [] => mret total
  | input :: inputs =>
      path ← authorize_read session request input;
      measured ← atomic (on_files (measure_path path));
      bytes ← async_lift (ok_or (JsonRpcError_resource_limit "input size overflow") (checked_add (ms_bytes total) (ms_bytes measured)));
      entries ← async_lift (ok_or (JsonRpcError_resource_limit "input entry overflow") (checked_add (ms_entries total) (ms_entries measured)));
      if 10000000 <? entries then throw (JsonRpcError_resource_limit "input entry limit exceeded") else
      estimate_loop session request inputs
        {| ms_bytes := bytes; ms_entries := entries;
           ms_max_file_bytes := N.max (ms_max_file_bytes total) (ms_max_file_bytes measured) |}
  end.

Definition handle_estimate (connection_id : N) (params : EstimateParams) : Async S Value :=
  session ← atomic (authenticate connection_id (ep_capability_token params));
  request ← request_authorizer (ep_path_scope params);
  measurement ← estimate_loop session request (ep_inputs params) PathMeasurement_default;
  estimate ← async_lift
    (match estimate_pack_resources (engine_profile (ep_profile params)) (ms_bytes measurement)
       (ms_max_file_bytes measurement) (ms_entries measurement) with
     | Ok estimate => Ok estimate
     | Err e => Err (map_engine_error e)
     end);
  async_lift (ok_or (internal "cannot encode estimate") (estimate_to_value {|
    et_input_bytes := ms_bytes measurement;
    et_estimated_memory := pe_estimated_memory estimate;
    et_estimated_temp := pe_estimated_temp estimate;
    et_output_upper_bound := pe_output_upper_bound estimate;
    et_eligible := negb (bool_decide (ep_inputs params = [])) |})).

(** ** Jobs *)

(** Authentication and the checks of the context. *)
Definition admission (connection_id : N) (context : JobContext) : Async S Session :=
  session ← atomic (authenticate connection_id (jc_capability_token context));
  atomic (validate_context config context);;
  mret session.

Fixpoint pack_inputs (session : Session) (request : PathAuthorizer) (requested : list PathBuf)
    (inputs : list PathBuf) (input_bytes : N) : Async S (list PathBuf * N) :=
  match requested with
  | [] => mret (inputs, input_bytes)
  | input :: requested =>
      path ← authorize_read session request input;
      measured ← atomic (on_files (measure_path path));
      input_bytes ← async_lift (ok_or (JsonRpcError_resource_limit "input size overflow") (checked_add input_bytes (ms_bytes measured)));
      pack_inputs session request requested (inputs ++ [path]) input_bytes
  end.

Definition handle_pack (connection_id : N) (params : PackParams) : Async S Value :=
  let context := pp_context params in
  session ← admission connection_id context;
  if bool_decide (pp_inputs params = []) then throw (JsonRpcError_invalid_params "pack requires inputs") else
  request ← request_authorizer (jc_path_scope context);
  '(inputs, input_bytes) ← pack_inputs session request (pp_inputs params) [] 0;
  output ← authorize_write session request (pp_output params);
  async_lift (enforce_bound input_bytes (jl_max_temp (jc_limits context)) "temporary quota");;
  async_lift (enforce_bound input_bytes (jl_max_output (jc_limits context)) "output quota");;
  service_submit config session Pack context (OpPack inputs output (pp_profile params)).

(** [inspect_with_control] of a path, with a token that nobody cancels. *)
Definition inspect_path (archive : PathBuf) (limits : DecodeLimits) : D (FS E) ArchiveInspection := λ s,
  let '(file, s) := open_file archive s in
  let '(r, s) := inspect_with_control file limits s in
  (match r with Ok inspection => Ok inspection | Err e => Err (map_engine_error e) end, s).

Definition handle_unpack (connection_id : N) (params : UnpackParams) : Async S Value :=
  let context := up_context params in
  session ← admission connection_id context;
  request ← request_authorizer (jc_path_scope context);
  archive ← authorize_read session request (up_archive params);
  output ← authorize_write session request (up_output params);
  inspection ← atomic (on_files (inspect_path archive (output_decode_limits (jc_limits context))));
  async_lift (enforce_bound (ai_original_bytes inspection) (jl_max_output (jc_limits context)) "output quota");;
  async_lift (enforce_bound (ai_original_bytes inspection) (jl_max_temp (jc_limits context)) "temporary quota");;
  service_submit config session Unpack context (OpUnpack archive output).

Definition handle_archive_job (connection_id : N) (method : RpcMethod) (operation : PathBuf → StoredOperation)
    (params : ArchiveJobParams) : Async S Value :=
  let context := aj_context params in
  session ← admission connection_id context;
  request ← request_authorizer (jc_path_scope context);
  archive ← authorize_read session request (aj_archive params);
  service_submit config session method context (operation archive).

Definition handle_extract (connection_id : N) (params : ExtractParams) : Async S Value :=
  let context := xp_context params in
  session ← admission connection_id context;
  request ← request_authorizer (jc_path_scope context);
  archive ← authorize_read session request (xp_archive params);
  output ← authorize_write session request (xp_output params);
  service_submit config session Extract context (OpExtract archive (xp_entry params) output).

Definition handle_read_range (connection_id : N) (params : ReadRangeParams) : Async S Value :=
  let context := rp_context params in
  session ← admission connection_id context;
  if max_read_range (dc_quota_policy config) <? rp_length params
  then throw (JsonRpcError_resource_limit "range quota exceeded") else
  async_lift (enforce_bound (rp_length params) (jl_max_output (jc_limits context)) "output quota");;
  async_lift (enforce_bound (rp_length params) (jl_max_temp (jc_limits context)) "temporary quota");;
  request ← request_authorizer (jc_path_scope context);
  archive ← authorize_read session request (rp_archive params);
  service_submit config session ReadRange context
    (OpReadRange archive (rp_entry params) (rp_offset params) (rp_length params)).

(** ** Queries *)

Definition handle_cancel (connection_id : N) (params : JobStatusParams) : Async S Value :=
  session ← atomic (authenticate connection_id (jp_capability_token params));
  state ← on_error (atomic (on_registry (request_cancel (se_session_id session) (jp_job_id params)))) registry_error;
  atomic (modify (λ s, match nr_running s !! jp_job_id params with
                       | Some token => cancel_tokens s {[token]}
                       | None => s
                       end));;
  mret (cancelled_to_value (jp_job_id params) state).

Definition read_registry {A} (f : JobRegistry → RpcResult A) : Async S A :=
  atomic (λ s, (f (nr_registry s), s)).

Definition handle_job_status (connection_id : N) (params : JobStatusParams) : Async S Value :=
  session ← atomic (authenticate connection_id (jp_capability_token params));
  snapshot ← read_registry (λ r, snapshot r (se_session_id session) (jp_job_id params));
  async_lift (ok_or (internal "cannot encode job status") (snapshot_to_value snapshot)).

(** The loop of [SubscribeEvents]; [polls] is the number of times that it
    sleeps before its deadline. *)
Fixpoint poll_events (polls : nat) (owner : SessionId) (params : SubscribeEventsParams) (wait_ms : N) :
    Async S (list ProgressEvent * bool) :=
  events ← read_registry (λ r, events r owner (vp_job_id params) (vp_after_sequence params));
  snapshot ← read_registry (λ r, snapshot r owner (vp_job_id params));
  if negb (bool_decide (events = [])) || is_terminal (js_state snapshot) || (wait_ms =? 0)
  then mret (events, is_terminal (js_state snapshot)) else
  match polls with
  | O => mret ([], false)
  | Datatypes.S polls => poll_events polls owner params wait_ms
  end.

Definition handle_subscribe_events (polls : nat) (connection_id : N) (params : SubscribeEventsParams) : Async S Value :=
  session ← atomic (authenticate connection_id (vp_capability_token params));
  let maximum := dc_max_event_wait config mod 2 ^ 64 in
  let wait_ms := N.min (vp_wait_ms params) maximum in
  '(events, terminal) ← poll_events polls (se_session_id session) params wait_ms;
  async_lift (ok_or (internal "cannot encode events") (events_to_value {|
    ev_events := events;
    ev_latest_sequence := match last events with Some event => pe_sequence event | None => vp_after_sequence params end;
    ev_terminal := terminal |})).

(** ** Frames *)

(** [attempts] and [polls] bound two loops that the environment ends: the
    draw of an unused session id and the wait for events. *)
Variables (attempts polls : nat).

Definition service_dispatch (connection_id : N) (method : RpcMethod) (params : Value) : Async S Value :=
  match method with
  | Capabilities =>
      params ← decode_params capabilities_of_value params;
      result ← open_session config allowed_authorizer attempts connection_id params;
      async_lift (ok_or (internal "cannot encode capabilities") (capabilities_to_value result))
  | Estimate => params ← decode_params estimate_of_value params; handle_estimate connection_id params
  | Pack => params ← decode_params pack_of_value params; handle_pack connection_id params
  | Unpack => params ← decode_params unpack_of_value params; handle_unpack connection_id params
  | List => params ← decode_params archive_job_of_value params; handle_archive_job connection_id List OpList params
  | Inspect => params ← decode_params archive_job_of_value params; handle_archive_job connection_id Inspect OpInspect params
  | Verify => params ← decode_params archive_job_of_value params; handle_archive_job connection_id Verify OpVerify params
  | Extract => params ← decode_params extract_of_value params; handle_extract connection_id params
  | ReadRange => params ← decode_params read_range_of_value params; handle_read_range connection_id params
  | Cancel => params ← decode_params job_status_of_value params; handle_cancel connection_id params
  | JobStatus => params ← decode_params job_status_of_value params; handle_job_status connection_id params
  | SubscribeEvents =>
      params ← decode_params subscribe_events_of_value params; handle_subscribe_events polls connection_id params
  end.

Definition fallback_response : list byte := String.list_byte_of_string
  (let q := String.String (Ascii.ascii_of_nat 34) "" in
   "{" ++ q ++ "jsonrpc" ++ q ++ ":" ++ q ++ "2.0" ++ q ++ "," ++ q ++ "error" ++ q ++ ":{" ++ q ++ "code" ++ q ++
   ":-32603," ++ q ++ "message" ++ q ++ ":" ++ q ++ "internal error" ++ q ++ "," ++ q ++ "kind" ++ q ++ ":" ++ q ++
   "internal" ++ q ++ "}}")%string.

Definition serialize_response (response : JsonRpcResponse Value) : list byte :=
  default fallback_response (response_to_vec response).

(** The response of a request that was parsed. *)
Definition respond (id : RpcId) (result : RpcResult Value) : list byte :=
  serialize_response
    match result with
    | Ok result => JsonRpcResponse_success id result
    | Err error => JsonRpcResponse_error (Some id) error
    end.

Definition handle_frame (connection_id : N) (frame : list byte) : Async S (list byte) :=
  let refuse error := mret (serialize_response (JsonRpcResponse_error None error)) in
  healthy ← atomic (gets (λ s, jr_healthy (nr_registry s)));
  (if negb healthy then mark_storage_degraded else mret tt);;
  closed ← atomic (gets (λ s, nr_storage_degraded s || nr_stopping s));
  if (closed : bool) then refuse unavailable else
  admitted ← attempt (atomic (check_connection_rate config connection_id));
  match admitted with
  | Err error => refuse error
  | Ok _ =>
      match parse_request frame (dc_protocol_limits config) with
      | Err error => refuse error
      | Ok request =>
          result ← attempt (service_dispatch connection_id (rq_method request) (rq_params request));
          mret (respond (rq_id request) result)
      end
  end.
End requests.
