(* ===== verification/PathStability.v ===== *)
(** * Canonical paths that are checked again

    A canonical path that is resolved once more, when no link has appeared
    in the meantime, leads to the same place. *)

From S2P Require Import Prelude Core Effects Bytes Paths FileTree FileWalk AgentApi DaemonPaths RealPaths PathSafety.

(** Neither the path nor a directory above it is a link. *)
Definition unlinked (fs : Files) (p : list Name) : Prop := ∀ k, k `prefix_of` p → not_a_link fs k.

(** What was no link is none. *)
Definition no_new_links (fs fs' : Files) : Prop := ∀ p, not_a_link fs p → not_a_link fs' p.

#[export] Instance no_new_links_preorder : PreOrder no_new_links.
Proof. split; [by intros fs p|]. intros fs1 fs2 fs3 H1 H2 p Hp. by apply H2, H1. Qed.

Lemma unlinked_later fs fs' p : no_new_links fs fs' → unlinked fs p → unlinked fs' p.
Proof. intros Hn Hu k Hk. by apply Hn, Hu. Qed.

Lemma unlinked_node fs p node :
  tree_ok fs → node_at fs p = Some node → (∀ target, node ≠ LinkNode target) → unlinked fs p.
Proof.
  intros Ht Hn Hl k [r ->] target Hk. destruct (decide (r = [])) as [->|Hr].
  - rewrite app_nil_r in Hn. rewrite Hn in Hk. injection Hk as ->. by destruct (Hl target).
  - rewrite (wf_prefix fs k r node) in Hk; [done|apply Ht|done|done].
Qed.

Lemma walk_unlinked links fs follow dir ns q node :
  unlinked fs (dir ++ ns) → walk links fs follow dir (map Normal ns) = Ok (At q node) → q = dir ++ ns.
Proof.
  revert dir. induction ns as [|n ns IH]; intros dir Hu; cbn [map].
  { rewrite walk_nil, app_nil_r. by intros [= <-]. }
  rewrite walk_cons. cbv zeta. replace (dir ++ n :: ns) with ((dir ++ [n]) ++ ns) in * by by rewrite <-app_assoc.
  destruct (node_at fs (dir ++ [n])) as [[|inode|target]|] eqn:Hn.
  - by apply IH.
  - case_bool_decide as Hns; [|done]. apply map_eq_nil in Hns as ->. rewrite app_nil_r. by intros [= <-].
  - destruct (Hu (dir ++ [n])) with target; [by eexists|done].
  - by case_bool_decide.
Qed.

Lemma stat_unlinked fs follow p q node :
  Forall plain_name p → unlinked fs p → stat_of fs follow (physical p) = Ok (q, node) → q = p.
Proof.
  intros Hp Hu Hs%stat_of_resolve. unfold resolve_place in Hs. case_bool_decide; [done|].
  destruct (physical_spec p Hp) as [Hc _]. rewrite Hc, walk_cons in Hs. by apply walk_unlinked in Hs.
Qed.

(** ** Authorizing a canonical path once more *)

Lemma readable_again self fs p p' :
  Forall plain_name p → unlinked fs p → readable self fs (physical p) p' → p' = p.
Proof. intros Hp Hu (_ & [node Hs] & _). by eapply stat_unlinked. Qed.

Lemma readable_unlinked self fs path p :
  tree_ok fs → readable self fs path p → Forall plain_name p ∧ unlinked fs p.
Proof.
  intros Ht (_ & [node Hs] & _). destruct (stat_of_ok _ _ _ _ _ Ht Hs) as (Hp & Hn & Hl). split; [done|].
  eapply unlinked_node; [done|exact Hn|by apply Hl].
Qed.

Lemma writable_again self fs p name d ms name' :
  Forall plain_name (p ++ [name]) → unlinked fs p → writable self fs (physical (p ++ [name])) d ms name' →
  d ++ ms = p ∧ name' = name.
Proof.
  intros Hp Hu (_ & (cs & Hc & [[up [Hcs Hs]] _ _]) & _). destruct (physical_spec _ Hp) as [Hpc _].
  rewrite Hpc, map_app, app_comm_cons in Hc. apply app_inj_tail in Hc as [Hc [= ->]]. split; [|done]. rewrite Hcs in Hc.
  destruct up as [|c up]; [by destruct ms|]. cbn [app] in Hc. injection Hc as Hroot Hup. subst c.
  apply map_eq_app in Hup as (u & ms' & -> & <- & Hm).
  assert (Heq : ms' = ms) by (apply (list_fmap_eq_inj Normal); [by intros ? ? [= ->]|done]). subst ms'. f_equal. apply Forall_app in Hp as [Hp%Forall_app _].
  eapply (stat_unlinked fs false u d DirNode); [by apply Hp| |exact Hs].
  intros k Hk. apply Hu. by apply prefix_app_r.
Qed.

Lemma writable_unlinked self fs path d ms name :
  tree_ok fs → writable self fs path d ms name → Forall plain_name (d ++ ms ++ [name]) ∧ unlinked fs (d ++ ms).
Proof.
  intros Ht (_ & (cs & _ & [_ Hb Hp]) & _ & Hn). split.
  { rewrite app_assoc. apply Forall_app. split; [done|by apply Forall_singleton]. }
  intros k Hk target Hl. destruct (decide (k = d)) as [->|Hne].
  - destruct Hb as [Hd Hlink _ _]. rewrite Hd in Hl. injection Hl as Hl. done.
  - destruct (backed_ways _ _ _ _ _ Ht Hb Hk Hne); congruence.
Qed.
