(* ===== verification/JobOperations.v ===== *)
(** * The operations of the stored jobs

    A job keeps the operation that it was submitted with, so that a property
    of the operations of all jobs lasts as long as every submission has it. *)

From S2P Require Import Prelude Core Bytes AgentApi Daemon JobStore JobStoreInv JobStoreOps JobStoreSteps.

Section operations.
Context {W : Type} `{Disk W} `{JobWorld W} `{StoreJson} (path : PathBuf) `{!DiskLaws W path} `{!JobWorldLaws W path}.
Variable P : StoredOperation → Prop.

Definition state_within (state : PersistentState) : Prop := map_Forall (λ _ job, P (sj_operation job)) (ps_jobs state).
Definition jobs_within (r : JobRegistry) : Prop := state_within (jr_state r).

Lemma trim_within policy state : state_within state → state_within (trim_retained_events state policy).1.
Proof.
  intros Hs k job. cbn. rewrite lookup_fmap. destruct (ps_jobs state !! k) as [j|] eqn:Hk; [|done].
  intros [= <-]. rewrite trim_spec. by apply (Hs k j).
Qed.

Lemma commit_within next r w u r' w' :
  jobs_within r → state_within next → commit_effect path (trim_retained_events next (jr_policy r)).1 r w u r' w' →
  jobs_within r'.
Proof. intros Hr Hn [w1 _|e w1 _|e w1 _]; [by apply trim_within..|done]. Qed.

Lemma change_within maximum job job' : job_change maximum job job' → P (sj_operation job) → P (sj_operation job').
Proof. intros Hc%change_same. by rewrite (sj_same_operation _ _ Hc). Qed.

Lemma replace_within maximum state k job job' :
  state_within state → ps_jobs state !! k = Some job → job_change maximum job job' →
  state_within (set_jobs state (<[k := job']> (ps_jobs state))).
Proof. intros Hs Hk Hc. apply map_Forall_insert_2; [|done]. eapply change_within; [exact Hc|]. by apply (Hs k). Qed.

Lemma update_within {A} owner job_id (update : StoredJob → D W (StoredJob * A)) r w res r' w' :
  jr_path r = path → changes (max_events_per_job (jr_policy r)) update → jobs_within r →
  update_owned owner job_id update (r, w) = (res, (r', w')) → jobs_within r'.
Proof.
  intros Hp Hc Hr Hu. apply (update_owned_cases path) in Hu as [?|?|job e w1 _ Hu|job job' a w1 u r1 w2 Ho Hu _ He]; try done.
  eapply commit_within; [exact Hr| |exact He]. apply owned_job_Ok in Ho as [Ho _].
  eapply replace_within; [exact Hr|exact Ho|]. by eapply Hc.
Qed.

Lemma submit_within submission limit r w res r' w' :
  registry_inv path r → P (su_operation submission) → jobs_within r →
  submit_with_limit submission limit (r, w) = (res, (r', w')) → jobs_within r'.
Proof.
  intros Hinv HP Hr Hs.
  apply (submit_cases path) in Hs as [e w1 Hq|job ? ? ? ? ? ? ? ?|now now' w1 u r1 w2 ? ? ? ? ? ? ? Hq _ Hc]; try done.
  eapply commit_within; [exact Hr| |exact Hc]. apply map_Forall_insert_2; [|done].
  unfold appended. by rewrite trim_spec.
Qed.

Lemma expire_within owner job_id r w res r' w' :
  registry_inv path r → jobs_within r → expire_deadline owner job_id (r, w) = (res, (r', w')) → jobs_within r'.
Proof.
  intros Hinv Hr. unfold expire_deadline. rewrite healthy_bind. destruct (jr_healthy r); [|by intros [= <- <- <-]].
  rewrite registry_bind, lift_bind. destruct (owned_job (jr_state r) owner job_id) as [job|e] eqn:Ho; [|by intros [= <- <- <-]].
  rewrite second_bind. destruct (expire_job (max_events_per_job (jr_policy r)) job w) as [[[job' [cancel changed]]|e] w1] eqn:He;
    [|by intros [= <- <- <-]].
  destruct changed; [|by intros [= <- <- <-]].
  rewrite return_bind. destruct (commit _ (r, w1)) as [u [r1 w2]] eqn:Hc. apply (commit_effects path) in Hc; [|apply Hinv].
  intros [= <- <- <-]. apply owned_job_Ok in Ho as [Ho _]. apply expire_changes in He.
  eapply commit_within; [exact Hr| |exact Hc]. by eapply replace_within.
Qed.

Lemma close_within r w res r' w' :
  registry_inv path r → jobs_within r → close_and_cancel_all (r, w) = (res, (r', w')) → jobs_within r'.
Proof.
  intros Hinv Hr. unfold close_and_cancel_all.
  change ((set_registry (λ r, with_closed r true) ≫= ?f) (r, w)) with (f tt (with_closed r true, w)). cbn beta.
  set (r0 := with_closed r true). assert (registry_inv path r0) as Hinv0 by (destruct Hinv; by split).
  rewrite registry_bind, second_bind. destruct (close_jobs _ _ _ _ _ w) as [[[[jobs' affected] changed]|e] w1] eqn:Hcl;
    [|by intros [= <- <- <-]].
  destruct changed; [|by intros [= <- <- <-]].
  rewrite return_bind. destruct (commit _ (r0, w1)) as [u [r1 w2]] eqn:Hc. apply (commit_effects path) in Hc; [|apply Hinv0].
  intros [= <- <- <-]. eapply (commit_within _ r0); [exact Hr| |exact Hc].
  intros k job' Hk. cbn in Hk. pose proof (close_all path _ _ _ _ _ _ _ Hcl k) as Hall. rewrite Hk in Hall.
  destruct (ps_jobs (jr_state r0) !! k) as [job|] eqn:Hj; [|done]. destruct Hall as [Hch _].
  eapply change_within; [exact Hch|]. by apply (Hr k).
Qed.

(** A request changes no operation and adds at most that of a submission. *)
Lemma handle_within req r w :
  registry_inv path r → (∀ submission limit, req = ReqSubmit submission limit → P (su_operation submission)) →
  jobs_within r → jobs_within (handle req (r, w)).2.1.
Proof.
  intros Hinv Hreq Hr.
  assert (∀ A (m : D (JobRegistry * W) A), (∀ res r' w', m (r, w) = (res, (r', w')) → jobs_within r') →
    jobs_within (m (r, w)).2.1) as Hm.
  { intros A m Hst. destruct (m (r, w)) as [res [r' w']] eqn:Hrun. by eapply Hst. }
  destruct req; cbn [handle]; rewrite ?void_run; apply Hm; intros res r' w';
    unfold transition, request_cancel, finish_cancelled, complete, fail, record_publication; rewrite ?registry_bind;
    try (by apply expire_within); try (by apply close_within); try (apply submit_within; [done|by eapply Hreq|done]);
    (apply update_within; [apply Hinv| |done]); auto using transition_changes, cancel_changes, finish_changes,
      complete_changes, fail_changes, record_changes.
Qed.
End operations.
