(* ===== verification/ServiceSafety.v ===== *)
(** * Concurrent requests stay inside the daemon's roots

    An invariant of the service's state that every section of every handler
    keeps, whatever the other handlers, the running jobs and the runtime do in
    between. *)

From stdpp Require Import relations.
From S2P Require Import Prelude Core Effects Bytes Format Codecs Paths FileTree FileGrowth Catalog Extract Unpack Pack.
From S2P Require Import AgentApi DaemonLimits FairScheduler Daemon DaemonPaths RealPaths PathSafety PathStability.
From S2P Require Import JobStore JobStoreInv JobStoreOps JobStoreSteps JobOperations Sessions SessionSafety.
From S2P Require Import AgentParams Tasks ServiceLimits Service Measure Requests.

(** ** Computations that leave the tree alone *)

Section reads.
Context {E : Type} `{Env E} `{Disturb E}.

Definition reads {A} (m : D (FS E) A) : Prop := ∀ s, (m s).2.1 = s.1.

Lemma reads_answers {A} (m : D (FS E) A) fs : reads m → answers m fs (λ _, True).
Proof. intros Hm e. split; [apply (Hm (fs, e))|by left]. Qed.

Lemma reads_bind {A B} (m : D (FS E) A) (k : A → D (FS E) B) : reads m → (∀ a, reads (k a)) → reads (m ≫= k).
Proof.
  intros Hm Hk s. unfold mbind, D_bind. specialize (Hm s). destruct (m s) as [[a|e] s1]; [|done]. cbn in Hm. by rewrite Hk.
Qed.
Lemma reads_ret {A} (a : A) : reads (mret a).
Proof. done. Qed.
Lemma reads_lift {A} (r : RpcResult A) : reads (d_lift r).
Proof. done. Qed.
Lemma reads_fail {A} e : reads (@d_fail (FS E) A e).
Proof. done. Qed.
Lemma reads_call {A} e (call : M (FS E) A) : preserves fst call → reads (d_fs e call).
Proof. intros Hc s. unfold d_fs. specialize (Hc s). by destruct (call s). Qed.

Lemma preserves_files : preserves fst (files : M (FS E) Files).
Proof. done. Qed.
Lemma preserves_locate follow path : preserves fst (locate follow path : M (FS E) Place).
Proof.
  unfold locate. apply preserves_bind; [exact io_keeps|intros _]. apply preserves_bind; [apply preserves_files|intros fs].
  by intros s.
Qed.

Lemma preserves_metadata path : preserves fst (metadata_len path : M (FS E) (Node * N)).
Proof.
  unfold metadata_len. apply preserves_bind; [|intros node].
  - unfold symlink_metadata, stat. apply preserves_bind.
    + apply preserves_bind; [apply preserves_locate|intros [p [|i|t]|]]; try destruct (ends_open path); by intros s.
    + intros []. by intros s.
  - apply preserves_bind; [apply preserves_files|by intros fs s].
Qed.

Lemma preserves_read_dir path : preserves fst (read_dir path : M (FS E) (list Name)).
Proof.
  unfold read_dir. apply preserves_bind; [apply preserves_locate|intros place].
  apply preserves_bind; [apply preserves_files|intros fs]. by destruct place as [p [|i|t]|]; intros s.
Qed.

Lemma reads_entry directory acc name : reads (measure_entry directory acc name).
Proof.
  destruct acc as [measurement pending]. unfold measure_entry.
  apply reads_bind; [apply reads_call; exact io_keeps|intros _]. destruct (_ <? _); [apply reads_fail|].
  apply reads_bind; [apply reads_call, preserves_metadata|intros [[|inode|target] length]]; try apply reads_ret.
  apply reads_bind; [apply reads_lift|intros bytes; apply reads_ret].
Qed.

Lemma reads_entries directory acc names : reads (measure_entries directory acc names).
Proof.
  revert acc. induction names as [|name names IH]; intros acc; cbn [measure_entries]; [apply reads_ret|].
  apply reads_bind; [apply reads_entry|apply IH].
Qed.

Lemma reads_loop fuel measurement pending : reads (measure_loop fuel measurement pending).
Proof.
  revert measurement pending. induction fuel as [|fuel IH]; intros measurement [|directory pending]; cbn [measure_loop];
    try apply reads_ret; [apply reads_fail|].
  apply reads_bind; [apply reads_call, preserves_read_dir|intros names].
  apply reads_bind; [apply reads_entries|intros [? ?]; apply IH].
Qed.

Lemma reads_measure path : reads (measure_path path).
Proof.
  intros s. unfold measure_path. generalize (size (ft_nodes s.1)). intros n. revert s.
  apply reads_bind; [apply reads_call, preserves_metadata|intros [[|inode|target] length]]; try apply reads_ret.
  apply reads_loop.
Qed.

Lemma reads_inspect `{Crc32c} `{Blake3} `{Backends} `{CatalogJson} archive limits : reads (inspect_path archive limits).
Proof.
  intros s. unfold inspect_path.
  assert (Hopen : preserves fst (open_file archive : M (FS E) (list byte))).
  { unfold open_file. apply preserves_bind; [apply preserves_locate|intros place].
    apply preserves_bind; [apply preserves_files|intros fs]. destruct place as [p [|i|t]|]; try by intros ?.
    by destruct (ft_inodes fs !! i). }
  specialize (Hopen s). destruct (open_file archive s) as [file s1]. cbn in Hopen. rewrite <-Hopen.
  assert (Hins : preserves fst (inspect_with_control (S := FS E) file limits)).
  { unfold inspect_with_control. apply preserves_bind; [apply (preserves_checkpoint fst)|intros _].
    apply preserves_bind; [apply preserves_lift|intros bytes].
    apply preserves_bind; [apply (read_catalog_preserves fst)|intros parsed]. apply preserves_ret. }
  specialize (Hins s1). by destruct (inspect_with_control file limits s1).
Qed.
End reads.

(** ** The invariant *)

Section safety.
Context {E W : Type} `{Env E} `{Disturb E} `{Disk W} `{JobWorld W} `{Rng W} `{StoreJson} `{SessionJson}.
Context `{Crc32c} `{Blake3} `{Backends} `{CatalogJson} `{RequestJson} `{ParamsJson}.
Context (path : PathBuf) `{!DiskLaws W path} `{!JobWorldLaws W path}.
Variables (config : DaemonConfig) (allowed : PathAuthorizer).

(** The canonical path of something at or below a root. *)
Definition read_allowed (file : PathBuf) : Prop :=
  ∃ p, Forall plain_name p ∧ file = physical p ∧ permits (read_roots allowed) p.
Definition write_allowed (file : PathBuf) : Prop :=
  ∃ p name, Forall plain_name (p ++ [name]) ∧ file = physical (p ++ [name]) ∧ permits (write_roots allowed) p.

Definition operation_allowed (operation : StoredOperation) : Prop :=
  match operation with
  | OpPack inputs output _ => Forall read_allowed inputs ∧ write_allowed output
  | OpUnpack archive output | OpExtract archive _ output => read_allowed archive ∧ write_allowed output
  | OpList archive | OpInspect archive | OpReadRange archive _ _ _ | OpVerify archive => read_allowed archive
  end.

Record session_allowed (session : Session) : Prop := {
  allowed_ok : authorizer_ok (se_authorizer session);
  allowed_read : below (read_roots (se_authorizer session)) (read_roots allowed);
  allowed_write : below (write_roots (se_authorizer session)) (write_roots allowed);
}.

Record service_inv (s : Inner E W) : Prop := {
  inv_tree : tree_ok (nr_files s).1;
  inv_registry : registry_inv path (nr_registry s);
  inv_jobs : jobs_within operation_allowed (nr_registry s);
  inv_sessions : ∀ connection session, session_of (nr_connections s) connection = Some session → session_allowed session;
  inv_connections : N.of_nat (size (nr_connections s)) <= dc_max_connections config;
}.

(** No step makes a link. *)
Definition service_step (s s' : Inner E W) : Prop := no_new_links (nr_files s).1 (nr_files s').1.

(** What happens between the sections of the handlers: connections close,
    jobs run and end, and the tree and the rest of the state change, except
    that no link appears. *)
Inductive elsewhere (s : Inner E W) : Inner E W → Prop :=
  | else_files fs e : tree_ok fs → no_new_links (nr_files s).1 fs → elsewhere s (put_user_files s (fs, e))
  | else_registry req :
      (∀ submission limit, req ≠ ReqSubmit submission limit) → elsewhere s (on_registry (handle req) s).2
  | else_disconnect connection : elsewhere s (disconnect connection s).2
  | else_running s' :
      nr_files s' = nr_files s → nr_registry s' = nr_registry s → nr_connections s' = nr_connections s → elsewhere s s'.

Definition arrives (m : Task (Inner E W) (RpcResult (list byte))) : Prop :=
  ∃ attempts polls connection frame, m = handle_frame config allowed attempts polls connection frame.

(** ** Steps *)

Abbreviation I := (service_inv).
Abbreviation returns := (returns I service_step).

Lemma service_rtc s s' : rtc service_step s s' → service_step s s'.
Proof. unfold service_step. induction 1 as [s|s1 s2 s3 Hs _ IH]; [done|]. by etrans. Qed.

Lemma inv_frame s s' :
  I s → nr_files s' = nr_files s → nr_registry s' = nr_registry s → nr_connections s' = nr_connections s →
  I s' ∧ service_step s s'.
Proof. intros [] Hf Hr Hc. split; [split|]; unfold service_step; by rewrite ?Hf, ?Hr, ?Hc. Qed.

(** Sections that only touch the rest of the state. *)
Definition framed {A} (m : D (Inner E W) A) : Prop :=
  ∀ s, nr_files (m s).2 = nr_files s ∧ nr_registry (m s).2 = nr_registry s ∧ nr_connections (m s).2 = nr_connections s.

Lemma framed_bind {A B} (m : D (Inner E W) A) (k : A → D (Inner E W) B) :
  framed m → (∀ a, framed (k a)) → framed (m ≫= k).
Proof.
  intros Hm Hk s. unfold mbind, D_bind. destruct (Hm s) as (Hf & Hr & Hc). destruct (m s) as [[a|e] s1]; [|done].
  cbn in *. destruct (Hk a s1) as (-> & -> & ->). done.
Qed.
Lemma framed_world {A} (m : D W A) : framed (on_world m).
Proof. intros s. unfold on_world. by destruct (m (nr_world s)). Qed.
Lemma framed_sessions {A} (m : D (SessionRegistry * W) A) : framed (on_sessions m).
Proof. intros s. unfold on_sessions. by destruct (m (nr_sessions s, nr_world s)) as [r [? ?]]. Qed.
Lemma framed_gets {A} (f : Inner E W → A) : framed (gets f).
Proof. done. Qed.
Lemma framed_lift {A} (r : RpcResult A) : framed (d_lift r).
Proof. done. Qed.
Lemma framed_fail {A} e : framed (@d_fail (Inner E W) A e).
Proof. done. Qed.
Lemma framed_ret {A} (a : A) : framed (mret a).
Proof. done. Qed.

Lemma returns_framed {A} (P : A → Inner E W → Prop) (m : D (Inner E W) A) s :
  framed m → (∀ s1 a, I s1 → (m s1).1 = Ok a → P a (m s1).2) → returns P (atomic m) s.
Proof.
  intros Hm HP. apply returns_atomic. intros s1 Hi Hs1. destruct (Hm s1) as (Hf & Hr & Hc).
  destruct (inv_frame s1 (m s1).2 Hi Hf Hr Hc) as [? ?]. split; [done|]. split; [done|].
  destruct ((m s1).1) eqn:Ha; [|done]. by apply HP.
Qed.
Lemma returns_any {A} (m : D (Inner E W) A) s : framed m → returns (λ _ _, True) (atomic m) s.
Proof. intros Hm. by apply returns_framed. Qed.

(** Sections on the tree. *)
Lemma returns_files {A} (P : A → Inner E W → Prop) (R : Files → RpcResult A → Prop) (m : D (FS E) A) s :
  (∀ s1, I s1 → rtc service_step s s1 → answers m (nr_files s1).1 (R (nr_files s1).1)) →
  (∀ s1 a, I s1 → rtc service_step s s1 → R (nr_files s1).1 (Ok a) → P a s1) → returns P (atomic (on_files m)) s.
Proof.
  intros Ha HP. apply returns_atomic. intros s1 Hi Hs1. unfold on_files.
  destruct (Ha s1 Hi Hs1 (nr_files s1).2) as [Hfs Hr]. rewrite <-(surjective_pairing (nr_files s1)) in *.
  destruct (m (nr_files s1)) as [r files]. cbn in *.
  assert (Hstep : service_step s1 (put_user_files s1 files)) by (unfold service_step; cbn; by rewrite Hfs).
  assert (Hi' : I (put_user_files s1 files)) by (destruct Hi; split; cbn; by rewrite ?Hfs).
  split; [done|]. split; [done|]. destruct r as [a|e]; [|done]. destruct Hr as [Hr|[_ ?]]; [|done].
  apply HP; [done|by eapply rtc_r|]. cbn. by rewrite Hfs.
Qed.
Lemma returns_reads {A} (m : D (FS E) A) s : reads m → returns (λ _ _, True) (atomic (on_files m)) s.
Proof. intros Hm. apply (returns_files _ (λ _ _, True)); [|done]. intros s1 _ _. by apply reads_answers. Qed.

(** Requests of the registry. *)
Lemma inv_registry_step s req :
  I s → (∀ submission limit, req = ReqSubmit submission limit → operation_allowed (su_operation submission)) →
  I (on_registry (handle req) s).2 ∧ service_step s (on_registry (handle req) s).2.
Proof.
  intros [] Hreq. unfold on_registry.
  pose proof (handle_effect path req (nr_registry s) (nr_world s) inv_registry0) as He.
  pose proof (handle_within path operation_allowed req (nr_registry s) (nr_world s) inv_registry0 Hreq inv_jobs0) as Hw.
  destruct (handle req (nr_registry s, nr_world s)) as [r [registry w]]. cbn in *. split; [|unfold service_step; cbn; reflexivity].
  split; cbn; try done. by eapply effect_inv.
Qed.

Lemma returns_registry {A} (m : D (JobRegistry * W) A) req s :
  (∀ s, (m s).2 = (handle req s).2) →
  (∀ submission limit, req = ReqSubmit submission limit → operation_allowed (su_operation submission)) →
  returns (λ _ _, True) (atomic (on_registry m)) s.
Proof.
  intros Hm Hreq. apply returns_atomic. intros s1 Hi _. destruct (inv_registry_step s1 req Hi Hreq) as [Hi' Hs'].
  assert (Heq : (on_registry m s1).2 = (on_registry (handle req) s1).2).
  { unfold on_registry. specialize (Hm (nr_registry s1, nr_world s1)).
    destruct (m (nr_registry s1, nr_world s1)) as [r [? ?]], (handle req (nr_registry s1, nr_world s1)) as [r' [? ?]].
    cbn in Hm. by injection Hm as -> ->. }
  rewrite Heq. split; [done|]. split; [done|]. by destruct (on_registry m s1).1.
Qed.

(** ** Helpers of the handlers *)

Lemma spawn_safe work s : returns (λ _ _, True) (spawn work) s.
Proof. by apply returns_any. Qed.

Lemma degraded_safe s : returns (λ _ _, True) mark_storage_degraded s.
Proof.
  unfold mark_storage_degraded. eapply returns_bind; [by apply returns_any|intros first s1 _ _].
  eapply returns_bind; [by apply returns_any|intros [] s2 _ _].
  eapply returns_bind; [apply returns_any|intros [] s3 _ _].
  { unfold drain_queue. apply framed_bind; [apply framed_gets|intros queue].
    by apply framed_bind; [apply framed_lift|intros [? ?]]. }
  eapply returns_bind; [by apply returns_any|intros [] s4 _ _]. destruct first; [apply spawn_safe|done].
Qed.

Lemma degrade_on_safe {A} (P : A → Inner E W → Prop) degrades error s : returns P (degrade_on degrades error) s.
Proof.
  unfold degrade_on. eapply (returns_bind _ _ (λ _ _, True)); [|done]. destruct degrades; [apply degraded_safe|done].
Qed.
Lemma registry_error_safe {A} (P : A → Inner E W → Prop) error s : returns P (registry_error error) s.
Proof.
  unfold registry_error. eapply returns_bind; [by apply returns_any|intros healthy s1 _ _]. apply degrade_on_safe.
Qed.

Lemma framed_clock : framed service_unix_ms.
Proof. apply framed_world. Qed.

Lemma framed_context context : framed (validate_context config context).
Proof.
  unfold validate_context. apply framed_bind; [apply framed_lift|intros _]. destruct (_ || _); [apply framed_fail|].
  destruct (jl_deadline_unix_ms _); [|apply framed_ret].
  apply framed_bind; [apply framed_clock|intros now]. destruct (_ <=? _); [apply framed_fail|apply framed_ret].
Qed.

Lemma authenticate_from connection token (s : Inner E W) session :
  (authenticate connection token s).1 = Ok session → session_of (nr_connections s) connection = Some session.
Proof.
  unfold authenticate. destruct (negb _); [done|]. unfold mbind, D_bind, gets, d_lift. cbn.
  destruct (session_of (nr_connections s) connection) as [session'|]; [|done]. cbn.
  unfold service_unix_ms, on_world. destruct (unix_ms (nr_world s)) as [[now|e] w]; [|done].
  destruct (_ <=? _); [done|]. destruct (negb _); [done|]. by intros [= ->].
Qed.

Lemma framed_authenticate connection token : framed (authenticate connection token).
Proof.
  unfold authenticate. destruct (negb _); [apply framed_fail|]. apply framed_bind; [apply framed_gets|intros connections].
  apply framed_bind; [apply framed_lift|intros session]. apply framed_bind; [apply framed_clock|intros now].
  destruct (_ <=? _); [apply framed_fail|]. destruct (negb _); [apply framed_fail|apply framed_ret].
Qed.

Lemma authenticate_safe connection token s :
  returns (λ session _, session_allowed session) (atomic (authenticate connection token)) s.
Proof.
  apply returns_framed; [apply framed_authenticate|]. intros s1 session Hi Ha. by eapply inv_sessions, authenticate_from.
Qed.

Lemma request_authorizer_safe scope s : returns (λ request _, authorizer_ok request) (request_authorizer scope) s.
Proof.
  apply (returns_files _ (λ fs, on_ok (made_from fs scope))).
  - intros s1 _ _. apply answers_new.
  - intros s1 request Hi _ Hm. eapply made_ok; [apply Hi|exact Hm].
Qed.

(** What an authorized path is, in the tree at the time. *)
Definition read_answer self file (fs : Files) : RpcResult PathBuf → Prop :=
  on_ok (λ canonical, ∃ p, readable self fs file p ∧ canonical = physical p).
Definition write_answer self file (fs : Files) : RpcResult PathBuf → Prop :=
  on_ok (λ canonical, ∃ d ms name, writable self fs file d ms name ∧ canonical = physical (d ++ ms ++ [name])).

Lemma authorize_read_answer self file s1 :
  I s1 → authorizer_ok self →
  answers (PathAuthorizer_authorize_read self file) (nr_files s1).1 (read_answer self file (nr_files s1).1).
Proof. intros Hi Ha. eapply answers_weaken; [apply answers_read; [apply Hi|done]|]. by intros []. Qed.
Lemma authorize_write_answer self file s1 :
  I s1 → authorizer_ok self →
  answers (PathAuthorizer_authorize_write self file) (nr_files s1).1 (write_answer self file (nr_files s1).1).
Proof. intros Hi Ha. eapply answers_weaken; [apply answers_write; [apply Hi|done]|]. by intros []. Qed.

(** The second check of a path finds what the first one found. *)
Lemma authorize_read_safe session request file s :
  authorizer_ok allowed → session_allowed session → authorizer_ok request →
  returns (λ file _, read_allowed file) (authorize_read session request file) s.
Proof.
  intros Hok [Hs Hb _] Hr. unfold authorize_read.
  apply (returns_bind _ _ (λ canonical s1, ∃ p, Forall plain_name p ∧ canonical = physical p ∧
    permits (read_roots allowed) p ∧ unlinked (nr_files s1).1 p)).
  - eapply (returns_files _ (read_answer _ _)); [intros s1 Hi _; by apply authorize_read_answer|].
    intros s1 canonical Hi _ (p & Hp & ->). destruct (readable_unlinked _ _ _ _ (inv_tree _ Hi) Hp) as [Hplain Hu].
    exists p. split; [done|]. split; [done|]. split; [|done].
    apply (below_permits (read_roots (se_authorizer session))); [apply Hs|apply Hok|done|apply Hp].
  - intros canonical s1 _ (p & Hplain & -> & Hp & Hu).
    eapply (returns_files _ (read_answer _ _)); [intros s2 Hi _; by apply authorize_read_answer|].
    intros s2 again Hi Hs2 (p' & Hp' & ->). apply readable_again in Hp' as ->; [by exists p|done|].
    eapply unlinked_later; [exact (service_rtc _ _ Hs2)|done].
Qed.

Lemma authorize_write_safe session request file s :
  authorizer_ok allowed → session_allowed session → authorizer_ok request →
  returns (λ file _, write_allowed file) (authorize_write session request file) s.
Proof.
  intros Hok [Hs _ Hb] Hr. unfold authorize_write.
  apply (returns_bind _ _ (λ canonical s1, ∃ p name, Forall plain_name (p ++ [name]) ∧ canonical = physical (p ++ [name]) ∧
    permits (write_roots allowed) p ∧ unlinked (nr_files s1).1 p)).
  - eapply (returns_files _ (write_answer _ _)); [intros s1 Hi _; by apply authorize_write_answer|].
    intros s1 canonical Hi _ (d & ms & name & Hw & ->).
    destruct (writable_unlinked _ _ _ _ _ _ (inv_tree _ Hi) Hw) as [Hplain Hu]. rewrite app_assoc in Hplain |- *.
    exists (d ++ ms), name. split; [done|]. split; [done|]. split; [|done].
    apply (below_permits (write_roots (se_authorizer session))); [apply Hs|apply Hok|done|apply Hw].
  - intros canonical s1 _ (p & name & Hplain & -> & Hp & Hu).
    eapply (returns_files _ (write_answer _ _)); [intros s2 Hi _; by apply authorize_write_answer|].
    intros s2 again Hi Hs2 (d & ms & name' & Hw & ->). rewrite app_assoc.
    apply writable_again in Hw as [-> ->]; [by exists p, name|done|].
    eapply unlinked_later; [exact (service_rtc _ _ Hs2)|done].
Qed.

(** ** Admission and sessions *)

Lemma rate_step connection s :
  I s → I (check_connection_rate config connection s).2 ∧ service_step s (check_connection_rate config connection s).2.
Proof.
  intros Hi. unfold check_connection_rate, mbind, D_bind, gets. cbn [fst snd].
  destruct (bool_decide (nr_connections s !! connection = None) && _) eqn:Hfull.
  { split; [done|]. unfold service_step. reflexivity. }
  set (c := default _ _). unfold service_unix_ms, on_world. destruct (unix_ms (nr_world s)) as [[now|e] w].
  2: { by apply (inv_frame s). }
  destruct (ConnectionRateLimiter_allow _ now) as [admitted limiter].
  assert (Hnew : I (put_connections (put_registry s (nr_registry s) w)
    (<[connection := {| cn_limiter := limiter; cn_session := cn_session c |}]> (nr_connections s)))).
  { destruct Hi. split; cbn; try done.
    - intros other session. unfold session_of. destruct (decide (other = connection)) as [->|Hne].
      + rewrite lookup_insert_eq. cbn. unfold c. destruct (nr_connections s !! connection) as [c'|] eqn:Hc; [|done]. cbn.
        intros Hs. apply (inv_sessions0 connection). unfold session_of. by rewrite Hc.
      + rewrite lookup_insert_ne by done. apply inv_sessions0.
    - destruct (nr_connections s !! connection) as [c'|] eqn:Hc.
      + by rewrite map_size_insert_Some by eauto.
      + rewrite map_size_insert_None by done. rewrite bool_decide_eq_true_2 in Hfull by done.
        apply N.leb_gt in Hfull. lia. }
  destruct (negb admitted); (split; [exact Hnew|unfold service_step; cbn; reflexivity]).
Qed.

Lemma rate_safe connection s : returns (λ _ _, True) (atomic (check_connection_rate config connection)) s.
Proof.
  apply returns_atomic. intros s1 Hi _. destruct (rate_step connection s1 Hi) as [? ?].
  split; [done|]. split; [done|]. by destruct (check_connection_rate _ _ _).1.
Qed.

Lemma install_safe connection session s :
  session_allowed session → returns (λ _ _, True) (atomic (install_session connection session)) s.
Proof.
  intros Hs. apply returns_atomic. intros s1 Hi _. unfold install_session, mbind, D_bind, gets, d_lift.
  destruct (nr_connections s1 !! connection) as [c|] eqn:Hc; cbn; [|split; [done|]; split; [unfold service_step; reflexivity|done]].
  destruct (cn_session c) eqn:Hcs; cbn; (split; [|split; [unfold service_step; reflexivity|done]]); [done|].
  destruct Hi. split; cbn; try done.
  - intros other session'. unfold session_of. destruct (decide (other = connection)) as [->|Hne].
    + rewrite lookup_insert_eq. cbn. by intros [= <-].
    + rewrite lookup_insert_ne by done. apply inv_sessions0.
  - by rewrite map_size_insert_Some by eauto.
Qed.

(** A grant of the daemon's authorizer. *)
Lemma grant_safe scope s :
  returns (λ granted _, authorizer_ok granted ∧ below (read_roots granted) (read_roots allowed) ∧
    below (write_roots granted) (write_roots allowed)) (atomic (on_files (PathAuthorizer_grant allowed scope))) s.
Proof.
  apply (returns_files _ (λ fs, on_ok (λ granted, made_from fs scope granted ∧
    below (read_roots granted) (read_roots allowed) ∧ below (write_roots granted) (write_roots allowed)))).
  - intros s1 _ _. apply answers_grant.
  - intros s1 granted Hi _ (Hm & Hb). split; [|done]. eapply made_ok; [apply Hi|exact Hm].
Qed.

Lemma establish_safe attempts params now expires s :
  returns (λ '(_, _, authorizer) _, authorizer_ok authorizer ∧ below (read_roots authorizer) (read_roots allowed) ∧
    below (write_roots authorizer) (write_roots allowed)) (establish_session allowed attempts params now expires) s.
Proof.
  unfold establish_session. destruct (cp_resume params) as [resume|].
  - eapply returns_bind; [apply returns_any, framed_sessions|intros resumed s1 _ _].
    eapply returns_bind; [apply grant_safe|intros authorizer s2 _ Ha]. by apply returns_ret.
  - eapply returns_bind; [apply grant_safe|intros authorizer s1 _ Ha].
    eapply returns_bind; [apply returns_any, framed_sessions|intros created s2 _ _]. by apply returns_ret.
Qed.

Lemma open_session_safe attempts connection params s :
  returns (λ _ _, True) (open_session config allowed attempts connection params) s.
Proof.
  unfold open_session. destruct (_ || _); [done|].
  eapply returns_bind; [by apply returns_any|intros existing s1 _ _]. destruct existing; [done|].
  eapply returns_bind; [apply returns_any, framed_clock|intros now s2 _ _]. cbv zeta.
  eapply returns_bind; [apply returns_on_error; [apply establish_safe|intros; apply degrade_on_safe]|].
  intros [[id resume] authorizer] s3 _ (Ha & Hr & Hw).
  eapply returns_bind; [apply returns_any, framed_world|intros token s4 _ _].
  eapply returns_bind; [by apply install_safe|intros [] s5 _ _]. done.
Qed.

(** ** Submission *)

Lemma schedule_safe owner job_id priority deadline s : returns (λ _ _, True) (schedule owner job_id priority deadline) s.
Proof.
  unfold schedule. eapply returns_bind; [apply returns_any|intros [should_start|] s1 _ _]; [|eapply returns_bind|done].
  - unfold schedule_push. apply framed_bind; [apply framed_gets|intros scheduler].
    apply framed_bind; [apply framed_gets|intros stopping]. destruct stopping; [apply framed_ret|].
    by apply framed_bind; [apply framed_lift|intros queue].
  - destruct should_start; [apply spawn_safe|by apply (returns_ret _ _ (λ _ _, True))].
  - intros [] s2 _ _. destruct deadline; [apply spawn_safe|done].
Qed.

Lemma submit_safe session method context operation s :
  operation_allowed operation → returns (λ _ _, True) (service_submit config session method context operation) s.
Proof.
  intros Hop. unfold service_submit. eapply returns_bind; [by apply (returns_lift _ _ (λ _ _, True))|intros hash s1 _ _].
  eapply returns_bind.
  { apply returns_on_error; [|intros; apply registry_error_safe].
    match goal with |- _ (atomic (on_registry (submit_with_limit ?submission ?limit))) _ =>
      apply (returns_registry _ (ReqSubmit submission limit)) end.
    - intros s2. cbn [handle]. by rewrite void_run.
    - by intros submission limit [= <- <-]. }
  intros accepted s2 _ _. eapply returns_bind; [by apply returns_any|intros healthy s3 _ _]. destruct healthy; cbn [negb].
  - eapply returns_bind; [|intros [] s4 _ _; by apply (returns_lift _ _ (λ _ _, True))].
    destruct (negb _); [apply schedule_safe|by apply (returns_ret _ _ (λ _ _, True))].
  - eapply returns_bind; [apply degraded_safe|done].
Qed.

(** ** The handlers *)

Hypothesis Hok : authorizer_ok allowed.

Lemma estimate_safe session request inputs total s :
  session_allowed session → authorizer_ok request →
  returns (λ _ _, True) (estimate_loop session request inputs total) s.
Proof.
  intros Hs Hr. revert total s. induction inputs as [|input inputs IH]; intros total s; cbn [estimate_loop]; [done|].
  eapply returns_bind; [by apply authorize_read_safe|intros file s1 _ _].
  eapply returns_bind; [apply returns_reads, reads_measure|intros measured s2 _ _].
  eapply returns_bind; [by apply (returns_lift _ _ (λ _ _, True))|intros bytes s3 _ _].
  eapply returns_bind; [by apply (returns_lift _ _ (λ _ _, True))|intros entries s4 _ _].
  destruct (_ <? _); [done|apply IH].
Qed.

Lemma pack_inputs_safe session request requested inputs bytes s :
  session_allowed session → authorizer_ok request → Forall read_allowed inputs →
  returns (λ '(inputs, _) _, Forall read_allowed inputs) (pack_inputs session request requested inputs bytes) s.
Proof.
  intros Hs Hr. revert inputs bytes s. induction requested as [|input requested IH]; intros inputs bytes s Hin; cbn [pack_inputs].
  { by apply returns_ret. }
  eapply returns_bind; [by apply authorize_read_safe|intros file s1 _ Hfile].
  eapply returns_bind; [apply returns_reads, reads_measure|intros measured s2 _ _].
  eapply returns_bind; [by apply (returns_lift _ _ (λ _ _, True))|intros bytes' s3 _ _].
  apply IH, Forall_app. split; [done|by apply Forall_singleton].
Qed.

Lemma admit_safe connection context s : returns (λ session _, session_allowed session) (admission config connection context) s.
Proof.
  unfold admission. eapply returns_bind; [apply authenticate_safe|intros session s1 _ Hs].
  eapply returns_bind; [apply returns_any, framed_context|intros [] s2 _ _]. by apply returns_ret.
Qed.

Lemma estimate_handler_safe connection params s : returns (λ _ _, True) (handle_estimate connection params) s.
Proof.
  unfold handle_estimate. eapply returns_bind; [apply authenticate_safe|intros session s1 _ Hs].
  eapply returns_bind; [apply request_authorizer_safe|intros request s2 _ Hr].
  eapply returns_bind; [by apply estimate_safe|intros measurement s3 _ _].
  eapply returns_bind; [by apply (returns_lift _ _ (λ _ _, True))|intros estimate s4 _ _].
  by apply (returns_lift _ _ (λ _ _, True)).
Qed.

Lemma pack_handler_safe connection params s : returns (λ _ _, True) (handle_pack config connection params) s.
Proof.
  unfold handle_pack. cbv zeta. eapply returns_bind; [apply admit_safe|intros session s1 _ Hs]. destruct (bool_decide _); [done|].
  eapply returns_bind; [apply request_authorizer_safe|intros request s2 _ Hr].
  eapply returns_bind; [by apply pack_inputs_safe|intros [inputs bytes] s3 _ Hin].
  eapply returns_bind; [by apply authorize_write_safe|intros output s4 _ Hout].
  eapply returns_bind; [by apply (returns_lift _ _ (λ _ _, True))|intros [] s5 _ _].
  eapply returns_bind; [by apply (returns_lift _ _ (λ _ _, True))|intros [] s6 _ _].
  by apply submit_safe.
Qed.

Lemma unpack_handler_safe connection params s : returns (λ _ _, True) (handle_unpack config connection params) s.
Proof.
  unfold handle_unpack. cbv zeta. eapply returns_bind; [apply admit_safe|intros session s1 _ Hs].
  eapply returns_bind; [apply request_authorizer_safe|intros request s2 _ Hr].
  eapply returns_bind; [by apply authorize_read_safe|intros archive s3 _ Ha].
  eapply returns_bind; [by apply authorize_write_safe|intros output s4 _ Ho].
  eapply returns_bind; [apply returns_reads, reads_inspect|intros inspection s5 _ _].
  eapply returns_bind; [by apply (returns_lift _ _ (λ _ _, True))|intros [] s6 _ _].
  eapply returns_bind; [by apply (returns_lift _ _ (λ _ _, True))|intros [] s7 _ _].
  by apply submit_safe.
Qed.

Lemma archive_handler_safe connection method operation params s :
  (∀ archive, read_allowed archive → operation_allowed (operation archive)) →
  returns (λ _ _, True) (handle_archive_job config connection method operation params) s.
Proof.
  intros Hop. unfold handle_archive_job. cbv zeta. eapply returns_bind; [apply admit_safe|intros session s1 _ Hs].
  eapply returns_bind; [apply request_authorizer_safe|intros request s2 _ Hr].
  eapply returns_bind; [by apply authorize_read_safe|intros archive s3 _ Ha]. by apply submit_safe, Hop.
Qed.

Lemma extract_handler_safe connection params s : returns (λ _ _, True) (handle_extract config connection params) s.
Proof.
  unfold handle_extract. cbv zeta. eapply returns_bind; [apply admit_safe|intros session s1 _ Hs].
  eapply returns_bind; [apply request_authorizer_safe|intros request s2 _ Hr].
  eapply returns_bind; [by apply authorize_read_safe|intros archive s3 _ Ha].
  eapply returns_bind; [by apply authorize_write_safe|intros output s4 _ Ho]. by apply submit_safe.
Qed.

Lemma range_handler_safe connection params s : returns (λ _ _, True) (handle_read_range config connection params) s.
Proof.
  unfold handle_read_range. cbv zeta. eapply returns_bind; [apply admit_safe|intros session s1 _ Hs]. destruct (_ <? _); [done|].
  eapply returns_bind; [by apply (returns_lift _ _ (λ _ _, True))|intros [] s2 _ _].
  eapply returns_bind; [by apply (returns_lift _ _ (λ _ _, True))|intros [] s3 _ _].
  eapply returns_bind; [apply request_authorizer_safe|intros request s4 _ Hr].
  eapply returns_bind; [by apply authorize_read_safe|intros archive s5 _ Ha]. by apply submit_safe.
Qed.

Lemma cancel_handler_safe connection params s : returns (λ _ _, True) (handle_cancel connection params) s.
Proof.
  unfold handle_cancel. eapply returns_bind; [apply authenticate_safe|intros session s1 _ _].
  eapply returns_bind.
  { apply returns_on_error; [|intros; apply registry_error_safe].
    apply (returns_registry _ (ReqCancel (se_session_id session) (jp_job_id params))); [|done].
    intros s2. cbn [handle]. by rewrite void_run. }
  intros state s2 _ _. eapply returns_bind; [apply returns_any|done].
  intros s3. unfold modify. cbn [snd]. by destruct (nr_running s3 !! _).
Qed.

Lemma status_handler_safe connection params s : returns (λ _ _, True) (handle_job_status connection params) s.
Proof.
  unfold handle_job_status. eapply returns_bind; [apply authenticate_safe|intros session s1 _ _].
  eapply returns_bind; [by apply returns_any|intros snapshot s2 _ _]. by apply (returns_lift _ _ (λ _ _, True)).
Qed.

Lemma poll_safe polls owner params wait_ms s : returns (λ _ _, True) (poll_events polls owner params wait_ms) s.
Proof.
  revert s. induction polls as [|polls IH]; intros s; cbn [poll_events];
    (eapply returns_bind; [by apply returns_any|intros events s1 _ _]);
    (eapply returns_bind; [by apply returns_any|intros snapshot s2 _ _]); destruct (_ || _); try done; apply IH.
Qed.

Lemma events_handler_safe polls connection params s :
  returns (λ _ _, True) (handle_subscribe_events config polls connection params) s.
Proof.
  unfold handle_subscribe_events. eapply returns_bind; [apply authenticate_safe|intros session s1 _ _]. cbv zeta.
  eapply returns_bind; [apply poll_safe|intros [events terminal] s2 _ _]. by apply (returns_lift _ _ (λ _ _, True)).
Qed.

Lemma dispatch_safe attempts polls connection method params s :
  returns (λ _ _, True) (service_dispatch config allowed attempts polls connection method params) s.
Proof.
  unfold service_dispatch. destruct method;
    (eapply returns_bind; [by apply (returns_lift _ _ (λ _ _, True))|intros decoded s1 _ _]).
  - eapply returns_bind; [apply open_session_safe|intros result s2 _ _]. by apply (returns_lift _ _ (λ _ _, True)).
  - apply estimate_handler_safe.
  - apply pack_handler_safe.
  - apply unpack_handler_safe.
  - by apply archive_handler_safe.
  - by apply archive_handler_safe.
  - apply extract_handler_safe.
  - apply range_handler_safe.
  - by apply archive_handler_safe.
  - apply cancel_handler_safe.
  - apply status_handler_safe.
  - apply events_handler_safe.
Qed.

Lemma frame_safe attempts polls connection frame s :
  returns (λ _ _, True) (handle_frame config allowed attempts polls connection frame) s.
Proof.
  unfold handle_frame. cbv zeta. eapply returns_bind; [by apply returns_any|intros healthy s1 _ _].
  eapply returns_bind; [|intros [] s2 _ _].
  { destruct (negb healthy); [apply degraded_safe|by apply (returns_ret _ _ (λ _ _, True))]. }
  eapply returns_bind; [by apply returns_any|intros closed s3 _ _]. destruct closed; [done|].
  eapply returns_bind; [apply returns_attempt, rate_safe|intros [[]|error] s4 _ _]; [|done].
  destruct (parse_request frame _) as [request|error]; [|done].
  eapply returns_bind; [apply returns_attempt, dispatch_safe|done].
Qed.

Lemma service_rules : pool_rules arrives elsewhere I service_step.
Proof.
  split.
  - intros m s (attempts & polls & connection & frame & ->) _. eapply safe_weaken; [apply frame_safe|done].
  - intros s s' Hi [fs e Ht Hn|req Hreq|connection|s'' Hf Hr Hc].
    + destruct Hi. by split; [split|].
    + apply inv_registry_step; [done|]. intros submission limit ->. by destruct (Hreq submission limit).
    + split; [|unfold service_step; reflexivity]. destruct Hi. split; cbn; try done.
      * intros other session. unfold session_of. destruct (decide (other = connection)) as [->|Hne].
        -- by rewrite lookup_delete_eq.
        -- rewrite lookup_delete_ne by done. apply inv_sessions0.
      * rewrite map_size_delete. destruct (nr_connections s !! connection); [|done]. eapply N.le_trans; [|exact inv_connections0]. clear.
        lia.
    + by apply inv_frame.
Qed.

(** C28: whatever requests arrive and however their sections interleave with
    each other, with closing connections and with the jobs that run, every
    job in the registry reads and writes only canonical paths at or below the
    daemon's roots, every session has an authorizer whose roots are below the
    daemon's, and there are never more connections than configured; provided
    that no symbolic link appears in the tree meanwhile. *)
Theorem requests_stay_inside s pool s' :
  service_inv s → rtc (pool_step arrives elsewhere) ([], s) (pool, s') →
  (∀ id job, ps_jobs (jr_state (nr_registry s')) !! id = Some job → operation_allowed (sj_operation job)) ∧
  (∀ connection session, session_of (nr_connections s') connection = Some session → session_allowed session) ∧
  N.of_nat (size (nr_connections s')) <= dc_max_connections config.
Proof.
  intros Hi Hs. destruct (pool_invariant _ _ _ _ [] s pool s' service_rules) as ([] & _); done.
Qed.

(** C30: a request is authenticated exactly if its token has 64 bytes and the
    hash of the token that the connection's own session was given, and the
    session has not expired by the daemon's clock; every other request gets
    the same error, whichever check failed, and nothing but the clock is
    read. *)
Theorem authenticate_correct connection token (s : Inner E W) :
  let now := (world_unix_ms (nr_world s)).1 in
  (∀ session, (authenticate connection token s).1 = Ok session ↔
    slen token = 64 ∧ session_of (nr_connections s) connection = Some session ∧
    now < se_expires_at_unix_ms session ∧ blake3 (token_bytes token) = se_token_hash session) ∧
  (∀ error, (authenticate connection token s).1 = Err error → error = service_denied) ∧
  framed (authenticate connection token).
Proof.
  cbv zeta. split; [|split; [|apply framed_authenticate]].
  - intros session. unfold authenticate. destruct (N.eqb_spec (slen token) 64) as [Hl|Hl]; cbn [negb]; [|by split; [|intros (? & _)]].
    unfold mbind, D_bind, gets, d_lift. destruct (session_of (nr_connections s) connection) as [session'|]; cbn [ok_or]; [|naive_solver].
    unfold service_unix_ms, on_world, unix_ms. destruct (world_unix_ms (nr_world s)) as [now w]. cbn [fst].
    destruct (N.leb_spec (se_expires_at_unix_ms session') now) as [He|He].
    { split; [done|]. intros (_ & [= ->] & ? & _). lia. }
    destruct (constant_time_equal _ _) eqn:Hc; cbn [negb].
    + apply constant_time_equal_iff in Hc. split; [by intros [= ->]|by intros (_ & [= ->] & _)].
    + split; [done|]. intros (_ & [= ->] & _ & Hh). apply not_true_iff_false in Hc. destruct Hc.
      by apply constant_time_equal_iff.
  - intros error. unfold authenticate. destruct (negb _); [by intros [= <-]|].
    unfold mbind, D_bind, gets, d_lift. destruct (session_of _ _) as [session|]; cbn [ok_or]; [|by intros [= <-]].
    unfold service_unix_ms, on_world, unix_ms. destruct (world_unix_ms (nr_world s)) as [now w].
    destruct (_ <=? _); [by intros [= <-]|]. destruct (negb _); [by intros [= <-]|done].
Qed.
End safety.
