(* ===== verification/ServiceExample.v ===== *)
(** * A run of the service

    On the tree of [PathExample] a client opens a session and submits a job;
    and a tree that changes between the two checks of a path. *)

From stdpp Require Import relations.
From S2P Require Import Prelude Core Effects Bytes Format Codecs Paths FileTree FileWalk Catalog Extract Unpack Pack.
From S2P Require Import AgentApi DaemonLimits FairScheduler Daemon DaemonPaths RealPaths PathSafety PathStability PathExample.
From S2P Require Import JobStore JobStoreInv JobStoreOps JobStoreSteps JobOperations JobExample Sessions.
From S2P Require Import AgentParams Tasks ServiceLimits Service Measure Requests ServiceSafety.

#[local] Existing Instances crc32c_castagnoli framing_backends Sample.hash Sample.json.
#[local] Instance steady_disk : Disturb unit :=
  {| io_fails := λ u, (false, u); temporary_name := λ u, (bytes_of "t", u) |}.
#[local] Instance counting_rng : Rng World := λ n w,
  (replicate (N.to_nat n) (byte_of (wd_now w)),
   {| wd_now := wd_now w + 1; wd_file := wd_file w; wd_identity := wd_identity w |}).

Module Service_run.
(** The stores write one byte, and no store is read again. *)
#[export] Instance jobs_json : StoreJson := {| store_to_vec := λ _, Some [Byte.x00]; store_from_slice := λ _, None |}.
#[export] Instance sessions_json : SessionJson :=
  {| session_to_vec := λ _, Some [Byte.x01]; session_from_slice := λ _, None |}.

(** The first byte of a frame is the method. *)
#[export] Instance requests_json : RequestJson := {|
  json_wire_request frame := WireParsed {| wr_jsonrpc := "2.0"; wr_id := Num (PosInt 7); wr_params := Null;
    wr_method := match frame with [Byte.x00] => RpcMethod_as_str Capabilities | _ => RpcMethod_as_str List end |};
  json_value _ := Some Null |}.

Definition allowed : PathAuthorizer := Tree.authorizer.
Definition config : DaemonConfig := DaemonConfig_new (bytes_of "/state") (bytes_of "/s").

Definition start : Inner unit World := {|
  nr_registry := example_registry;
  nr_sessions := {| sr_path := bytes_of "/state/sessions.json"; sr_state := PersistentSessions_default |};
  nr_connections := ∅; nr_running := ∅; nr_cancelled := ∅; nr_job_slots := 4; nr_thread_slots := 8; nr_memory_slots := 4096; nr_scheduler := SchedulerState_default;
  nr_storage_degraded := false; nr_stopping := false; nr_background := [];
  nr_files := Tree.start; nr_world := {| wd_now := 1000; wd_file := None; wd_identity := None |} |}.

(** The client asks for the roots [/s/a], and lists the archive [/s/l/f] with
    the token that it was given. *)
Definition token : string := hex_of (replicate 32 (byte_of 1002)).
#[export] Instance params_json : ParamsJson := {|
  capabilities_of_value _ := Some {|
    cp_client_name := "agent"; cp_protocol_version := AGENT_PROTOCOL_VERSION;
    cp_requested_scope := {| ps_read_roots := [bytes_of "/s/a"]; ps_write_roots := [] |}; cp_resume := None |};
  archive_job_of_value _ := Some {|
    aj_context := {| jc_capability_token := token; jc_idempotency_key := "key"; jc_limits := JobLimits_default;
      jc_path_scope := {| ps_read_roots := [bytes_of "/s"]; ps_write_roots := [] |}; jc_priority := PackForeground |};
    aj_archive := bytes_of "/s/l/f" |};
  estimate_of_value _ := None; pack_of_value _ := None; unpack_of_value _ := None; extract_of_value _ := None;
  read_range_of_value _ := None; job_status_of_value _ := None; subscribe_events_of_value _ := None;
  capabilities_to_value _ := Some Null; estimate_to_value _ := None; accepted_to_value _ := Some Null;
  snapshot_to_value _ := None; events_to_value _ := None; cancelled_to_value _ _ := Null;
  response_to_vec _ := Some [Byte.x2a]; operation_to_vec _ _ _ _ := Some [Byte.x07] |}.

Definition frame (tag : Byte.byte) : Task (Inner unit World) (RpcResult (list byte)) :=
  handle_frame config allowed 1 0 5 [tag].
Definition opened : Inner unit World := (run_alone (frame Byte.x00) start).2.
Definition listed : Inner unit World := (run_alone (frame Byte.x01) opened).2.
Definition operations (s : Inner unit World) : gmap string StoredOperation := sj_operation <$> ps_jobs (jr_state (nr_registry s)).
End Service_run.
Import Service_run.

Example run_operations : operations listed = {[ job_name 1 := OpList (bytes_of "/s/a/f") ]}.
Proof. vm_compute. reflexivity. Qed.

Lemma start_inv : service_inv example_path config allowed start.
Proof.
  split.
  - apply Tree.files_ok.
  - split; [done|done|]. by apply validate_state_Ok; vm_compute.
  - by intros k job.
  - by intros connection session.
  - done.
Qed.

Lemma requests_stay_inside_witness :
  operations listed = {[ job_name 1 := OpList (bytes_of "/s/a/f") ]} ∧
  (∀ id job, ps_jobs (jr_state (nr_registry listed)) !! id = Some job → operation_allowed allowed (sj_operation job)) ∧
  N.of_nat (size (nr_connections listed)) <= 32.
Proof.
  split; [vm_compute; reflexivity|].
  destruct (requests_stay_inside example_path config allowed Tree.authorizer_canonical start
    [Done (run_alone (frame Byte.x00) start).1; Done (run_alone (frame Byte.x01) opened).1] listed start_inv) as (Hj & _ & Hc).
  - eapply rtc_l; [apply (step_arrival _ _ (frame Byte.x00)); by exists 1%nat, 0%nat, 5, [Byte.x00]|].
    etrans; [apply (pool_alone _ _ [] _ [])|].
    eapply rtc_l; [apply (step_arrival _ _ (frame Byte.x01)); by exists 1%nat, 0%nat, 5, [Byte.x01]|].
    apply (pool_alone _ _ [_] _ []).
  - by split.
Defined.

(** The connection 5 has a session, which answers to no other token. *)
Definition of_five : option Session := session_of (nr_connections opened) 5.

Lemma authenticate_correct_witness :
  Some <$> (authenticate 5 token opened).1 = Ok of_five ∧ (authenticate 5 (hex_of (replicate 32 Byte.x00)) opened).1 = Err service_denied.
Proof.
  split.
  - assert (Hs : ∃ session, of_five = Some session) by (vm_compute; by eexists). destruct Hs as [session Hs].
    destruct (authenticate_correct 5 token opened) as [Hok _]. rewrite Hs. rewrite (proj2 (Hok session)); [done|].
    assert (Hmore : match of_five with
      | Some session => ((world_unix_ms (nr_world opened)).1 <? se_expires_at_unix_ms session) &&
          bool_decide (blake3 (token_bytes token) = se_token_hash session)
      | None => false end = true) by (vm_compute; reflexivity).
    rewrite Hs in Hmore. apply andb_true_iff in Hmore as [Hlt%N.ltb_lt Hh%bool_decide_eq_true].
    split; [vm_compute; reflexivity|]. by split.
  - destruct (authenticate_correct 5 (hex_of (replicate 32 Byte.x00)) opened) as (_ & Herr & _).
    destruct (authenticate 5 (hex_of (replicate 32 Byte.x00)) opened).1 as [session|error] eqn:Hr; [by vm_compute in Hr|].
    by rewrite (Herr error eq_refl).
Defined.

(** ** A tree that changes between the checks *)

(** [/s/a] becomes a link to [/e], where there is a file [f] as well. *)
Definition swapped : Files := {|
  ft_nodes := {[ Tree.names ["s"] := DirNode; Tree.names ["s"; "a"] := LinkNode (bytes_of "/e");
                 Tree.names ["e"] := DirNode; Tree.names ["e"; "f"] := FileNode 0;
                 Tree.names ["s"; "l"] := LinkNode (bytes_of "a"); Tree.names ["s"; "x"] := LinkNode (bytes_of "/e") ]};
  ft_inodes := {[ 0 := {| in_content := []; in_mode := None |} ]};
  ft_cwd := [] |}.

(** The session may read below [/s/a], the request asks for the root [/]. *)
Definition session : Session := {|
  se_session_id := example_session; se_token_hash := []; se_expires_at_unix_ms := 5000;
  se_authorizer := {| read_roots := [bytes_of "/s/a"]; write_roots := [] |} |}.
Definition request : PathAuthorizer := {| read_roots := [bytes_of "/"]; write_roots := [] |}.

(** The two sections of the check, with a step of somebody else in between. *)
Definition interrupted {A} (m : Async (Inner unit World) A) (between : Inner unit World → Inner unit World)
    (s : Inner unit World) : RpcResult A :=
  match m with
  | Done r => r
  | Act section => let '(m, s) := section s in (run_alone m (between s)).1
  end.

